(* ===== verification/_CoqProject ===== *)
-Q . S2P
Prelude.v
Sha256.v
Proto.v
Hash.v
Types.v
Quorum.v
Verify.v
Orphans.v
Ledger.v
BlockTree.v
Safety.v
Agreement.v
Seams.v
Pacemaker.v
Leader.v
Core.v
Wire.v
Net.v
Cluster.v
Handlers.v
Frontier.v
Progress.v
Signer.v
Keys.v
Loop.v
Payload.v
Replica.v
Cmd.v
System.v
