(* ===== verification/Prelude.v ===== *)
(** * A verification of the DiemBFT v4 replica of this repository

    The program under [src/] is a Byzantine fault tolerant state machine
    replication replica in Go. Its consensus core, the package [diem], is a
    single-threaded state machine: an event (a message that passed the checks of
    the network edge, an expired timer, a fetched block, a block request) goes
    through [Core.Step], which drives the modules of the DiemBFT paper and emits
    messages, timer requests and answers. Around it, [diemnet] checks what
    arrives and queues what leaves, [crypto] signs and keeps keys, [replica]
    wires one replica together and keeps its commit log, and [cmd/diem] runs
    replicas and compares their logs. This development models all five packages
    and proves the protocol safe and live from the code up, under assumptions that are
    listed below: whatever the network and at most f Byzantine replicas do within them,
    the report the command prints finds no disagreement ([System.system_agrees]), and
    with timely messages the replicas that are alive, if they are enough for a quorum,
    keep committing ([Progress.crash_commits]). What the code does outside of them is
    stated where it was found; the gravest is a fetched block that makes a replica loop
    for ever ([Net.fetched_block_hangs]).

    ** The parts and where they are modelled

    - [proto/diempb/diem.pb.go]: [Proto]. One record per message, the generated
      getters on pointers that may be nil.
    - [diem/hash.go]: [Hash], over the executable [Sha256]. Each digest is a
      preimage (the exact bytes written to the hash) and its SHA-256.
    - [diem/types.go], [diem/genesis.go]: [Types]. Block construction,
      well-formedness, genesis.
    - [diem/quorum.go] and the interface [Crypto]: [Quorum].
    - [diem/verify.go]: [Verify]. The authentication of every inbound message.
      Two verifiers that accept the same signatures and count the same quorum
      are [same_verifier]; every check is [Proper] for it.
    - [diem/ledger.go]: [Ledger], with the orphan sweep shared by both [prune]
      functions in [Orphans]. The state is the record [MemLedger].
    - [diem/blocktree.go]: [BlockTree]. Pending blocks, votes, high certificates.
    - [diem/safety.go]: [Safety]. The voting and timeout rules.
    - [diem/seams.go], [diem/events.go]: [Seams]. Events, effects, the queue.
    - [diem/pacemaker.go]: [Pacemaker]. Rounds, timer, timeout certificates, and
      the exponential backoff in IEEE binary64.
    - [diem/leader.go]: [Leader]. Rotation and reputation.
    - [diem/core.go]: [Core]. Construction, the handlers, dispatch, observer.
    - [diem/loop.go], [diem/mempool.go]: [Loop]. The queue-driven loop with [Run],
      and the transaction pool.
    - [diemnet/server.go], [diemnet/gorums.go]: [Net]. The handlers that verify
      before the core sees anything, the fetch, the bounded outbound queue and
      its sender.
    - [crypto/ecdsa.go]: [Signer], with the DER form of a signature written out.
    - [crypto/keys.go]: [Keys]. Key pairs as files of one directory.
    - [replica/payload.go]: [Payload]. The throttled synthetic workload.
    - [replica/replica.go]: [Replica]. Construction, callbacks, commit log,
      lifecycle.
    - [cmd/diem/main.go]: [Cmd]. Addresses and ids, keys, what a process runs, the
      report, the result rows and the exit status.
    - [Agreement], [Wire], [Cluster], [Handlers], [Frontier], [Progress] and [System]
      have no source file of their own. [Agreement] is the protocol-level argument of
      [diem/INVARIANTS.org] over replicas that run [Safety]; [Wire] follows the
      certificates through every handler of the core; [Cluster] puts the cores of
      one execution side by side; [Handlers] says what each handler of one core does
      with the messages of a good round and of one that timed out, [Frontier] what the
      ledger and the leaders look like between rounds, and [Progress] puts them
      together and runs the live cores of a cluster round by round; [System] is a deployment, with its honest replicas moving one at a time
      ([node_move] takes the steps of [Run]) among inputs nobody vouches for.

    Definitions have the names of the Go functions and record fields those of
    the Go structs behind a prefix ([l_] ledger, [t_] tree, [s_] safety, [p_]
    pacemaker, [e_] leader election, [c_] core, [lp_] loop, [h_] inbound handler,
    [tr_] transport, [sn_] signer, [pl_] payload, [rc_] and [r_] replica, [f_]
    flags). Names that would clash are renamed: [BlockTree.Block] is
    [PendingBlock], [Stop], [State] of the core are [CoreStop], [CoreState];
    [Loop.step], [Loop.Push] are [loopStep], [LoopPush]; the Gorums methods
    [Proposal], [Vote], [Timeout], [RequestBlock] are [handleProposal] and so on
    at the server and [sendProposal] and so on at the transport; [Sign], [Verify]
    of the signer are [SignerSign], [SignerVerify]; [New], [Run] of the replica
    are [NewReplica], [ReplicaRun].

    ** How effects are modelled

    - State: a method takes the record of its receiver and returns the new one.
      The pointers between modules (tree to ledger, safety to ledger and tree,
      pacemaker to safety and tree) are arguments; the core owns the only copy of
      each and threads it in the monad [Core.M].
    - Output: calls to the transport, the clock, a reply channel and the observer
      are elements of the constructor type [Seams.effect], in call order. None of
      them returns anything the replica reads. [Replica.settle] runs the callbacks
      of one event after the step, the commits first, which is the order in
      which the code makes them ([commits_before_proposals]).
    - Goroutines: the queue and the outbound channel are the only state that two
      of them share. An interleaving is a list of actions ([loop_act], [tr_act],
      [replica_act]), and the theorems hold for every list.
    - Panics and endless loops: [None]. [Core.replica_never_stuck] shows that no
      started replica reaches it over blocks of one [block_universe], if elections
      end; [Net.fetched_block_hangs] is a run in which one does not.
    - Errors: an [option] where Go has a nil or an [ok] result, a sum where the
      code tells errors apart ([key_error], [cmd_error], [rpc_error]).
    - Integers: rounds and ids are [N] with [uint64] addition written out
      ([+u64]); Go's [int] is [Z] (its values count validators, entries and
      nanoseconds; where a flag or a clock can bring one near the bound, as in
      [Payload] and [Replica], the 64-bit wrap or saturation is written out).
    - Maps: [gmap]. The order in which Go enumerates a map is the class
      [RangeOrder]: any function that lists each entry once. All theorems hold
      for every order. [slices.SortFunc] is not stable; the code sorts by
      signer, and where signers are distinct every sort gives the list the model
      computes ([strict_sorted_unique]).

    ** Parameters: code that is not in the repository

    - The signer seen by the core: the interface [Crypto], a record with a [Sign]
      that may fail and differ from event to event and a fixed [Verify].
      [Signer.signer_crypto] is the one the program uses.
    - ECDSA over P-256: the class [Ecdsa], with [EcdsaLaws] (what a key signs
      verifies under its public key, also with s replaced by n - s; r and s are in
      range). X.509 and PEM: the class [Pem], with [PemLaws] (decoding undoes
      encoding). Both have an instance.
    - Gorums: nodes and configurations are arguments; what the network brings
      is a list of [input]; whether peers were reached is the argument [waited].
    - Clock readings are arguments of each action; the transactions the payload
      source hands out are an argument of each event. The directory is a map,
      and which reads and writes the system permits, and what a failed write leaves, is
      given by functions.
    - A [float64] out of the range of [int64]: the class [FloatConv], since the
      language leaves the result to the implementation. So is whether a product
      and a sum are fused: the argument [fused] of [Payload].

    ** Loops and their bounds

    [Speculate] recurs on held blocks it has just deleted: as many levels as there
    are held blocks suffice, and [Ledger.Speculate_spec] shows that none is left
    over. [Missing] and the walk of [Commit] follow parent links: with one
    iteration more than there are entries, the bound is reached exactly if the
    links form a cycle, which is the case in which Go would not return; the
    theorems show that it is not reached over blocks whose links go down in rank.
    The sweep runs one pass more than there are entries, each pass but the last
    deleting one ([Orphans.sweep_fuel]). The walk of [electReputationLeader]
    follows committed blocks and gets one iteration more than the window and
    the committed blocks together ask for. It ends when at most one author is held out
    ([Leader.elect_loop_window]), as the default settings have it for up to six
    validators, or when the certificates of the committed blocks lead nowhere in a circle
    ([Leader.elect_loop_total]); over a block whose certificate leads back to it the walk
    of the code never ends, and [elect_loop] is [None] for every fuel
    ([Leader.elect_loop_caught]). [format] divides by ten once per binary digit and [TrimSpace] removes
    a rune per byte at most ([format_fuel_value], [trim_left_spec],
    [trim_right_spec] show that this is enough). All other loops are structural.

    ** What is assumed, and where

    - [block_universe]: the blocks a replica is fed have ids that determine parent and
      payload, and parent links that go down in some rank. For blocks whose parent is a
      32-byte string this is what ids that are hashes give; a block that only answered a
      fetch need not be one of them ([VerifyBlock_parent_unbound]).
    - [fed_universe]: moreover the parents claimed by the certificates the blocks carry,
      which no id covers, go down in the same rank. Hashing does not give this and
      [VerifyBlock] does not check it. It is needed for the end of elections alone, and
      only when more than one author is held out of them; [Net.fetched_block_hangs] shows
      that it is needed then. [certs_acyclic] is the same of committed blocks.
    - [execution_ok]: at most [Faulty n] of the n validators are Byzantine, a
      signature of an honest one that is presented to a replica verifies only on a
      digest it signed, and no two strings hashed in the execution collide. Honest
      replicas run [Safety] in any order of calls; [Core.replica_refines_safety]
      shows that a replica of this code does nothing else until it is started again.
    - [crypto_holds]: all that [System] assumes of a reached state. No signature of
      an honest replica that arrived was forged; no two of the strings hashed so far
      collide; the hashes of the blocks that arrived link in no cycle; and replies to
      fetches that [VerifyBlock] accepts name their parents by 32-byte hashes
      ([ch_parents], which it does not check). [execution_ok] is then derived. In
      [node_move] a replica that has stopped stays stopped: one that is started again has
      fresh counters in [Safety], which [diem/INVARIANTS.org] lists as a gap.
    - [cluster_ok], [slot_ok]: the schedule of [Progress]. The live replicas run with
      one configuration, their signatures are accepted, and each round brings the
      next leader the votes of a quorum or, if it has crashed, every replica the
      timeouts of one.
    - [HonestQuorums]: the interface between the verified votes of an execution
      and the core that counts them; an execution provides it
      ([Wire.execution_honest_quorums]).
    - [event_seen], [input_seen]: the certificates and votes a replica is
      brought are among those of the execution.
    - [collision_free] is always of a named set of strings, never of all.

    Every theorem with such hypotheses comes with a closed instance of them.

    ** What the theorems show

    - End to end: in every state a deployment reaches, if [crypto_holds] of it, the
      logs of any two honest replicas agree over their common prefix, and [report] over
      replicas that stopped finds no disagreement ([System.system_agrees], and
      [Cmd.report_agrees] for replicas of a given execution); underneath, any two
      cores' commit logs agree over the blocks of one universe
      ([Cluster.cluster_agrees]).
    - Progress: every round ends, with a block that every edge accepts unless its
      leader has crashed, and the log of every live replica is what an abstract
      account of blocks and empty rounds ([books]) says; three blocks in a row
      commit the first ([Progress.crash_commits]).
    - Protocol safety: [Agreement] derives Property 1, Lemmas 1 to 3 and Property
      2 of [diem/INVARIANTS.org] (one certified block per round, timeout
      certificates report commits, committed blocks on one chain).
    - The core: [Core] shows that the votes and timeouts a run sends are exactly
      those a run of [Safety] signed, that votes rise in round over its whole life, when it never gets stuck, and how requests are
      answered. [Wire] shows that every vote and timeout it sends and every
      certificate it holds is accepted by every receiver.
    - The edge: whatever arrives, only verified messages reach the core, which
      then sends only what is accepted, proposals over a certificate of their own round or
      a later one excepted ([Net.edge_protects_core]); what the edge accepts can still
      make it loop for ever ([Net.fetched_block_hangs]); a fetched block is stored; each outbound call is
      sent, dropped and counted, or still queued, in order
      ([Net.outbound_conserved]).
    - Signer and keys: what a signer signs, every peer that holds its key accepts,
      in the one low-s form; keys written to a directory without public keys are read back; what is read is a key
      set of the replicas 1 to n.
    - Replica and command: the commit log, the command count and the latencies
      are those of the ledger ([Replica.replica_log]); what [NewReplica] accepts;
      each address gets its own id, the same in every process; the report is
      exact, and so is the exit status ([Cmd.exit_status]).
    - The components: specifications on every branch of [MakeVote], [Speculate],
      [Commit], [Missing]; the ledger as a refinement of an abstract log, the same
      for every order in which Go iterates its maps; both
      [prune] functions exactly; certificates the tree and the pacemaker build
      pass the checks of every receiver; what the verifier accepts,
      declaratively; what digests bind; one live timer; bounded leader tables where
      elections end, fair rotation; the loop and the pool as FIFOs; the payload bounds.
    - Divergences: [stale_commit_drops_tree], [ill_formed_proposal_reachable],
      [timeouts_muted], [VerifyBlock_qc_round_unbound],
      [VerifyBlock_parent_unbound], [MakeVote_sign_error], [walk_skips_blocks] and
      [payload_burst] show behaviour that a comment or
      the invariants document describes otherwise, and [fetched_block_hangs] an endless
      loop that one Byzantine peer can prepare.

    ** What is not modelled

    The wire encoding and reflection of protobuf and the generated Gorums stubs;
    listening, dialing and waiting for peers, which are calls into Gorums; the
    measurement library and the encoding of its result files; flag registration,
    signals and logging. Timing is not modelled beyond the order of events: the
    schedule of [Progress] decides when timers expire, and the delays the backoff
    computes, modelled in floating point ([Grow]), are carried along without a bound
    being proved. Nor is it proved that the throttled payload source never asks for a
    negative count, which depends on the clock and on float arithmetic; it is shown
    for the unthrottled one ([payload_bounded]). Fairness of an unreliable network is
    an assumption of [Progress], in the form of its schedules. *)

From stdpp Require Import prelude gmap list fin_maps sorting.
From Stdlib Require Import NArith ZArith Lia Strings.Byte.

(** This file: machine integers and byte strings of Go, big-endian codecs, the
    iteration order of Go maps, counting lemmas for quorums, and the tactics
    and hint databases the component files share. *)

Declare Scope go_scope.
Delimit Scope go_scope with go.

(** ** Go's scalar types

    [uint64] and [uint32] are naturals in binary; every sum the code computes
    on them is written with its wrap-around. *)

Abbreviation uint64 := N (only parsing).
Abbreviation uint32 := N (only parsing).
Abbreviation bytes := (list byte).

Definition two64 : N := (2 ^ 64)%N.
Definition two32 : N := (2 ^ 32)%N.

(** Unsigned 64-bit addition. *)
Definition add64 (a b : uint64) : uint64 := ((a + b) mod two64)%N.
Notation "a '+u64' b" := (add64 a b) (at level 50, left associativity) : go_scope.
Open Scope go_scope.

Arguments add64 : simpl never.

Lemma two64_val : two64 = 18446744073709551616%N.
Proof. reflexivity. Qed.

Lemma add64_lt a b : (a +u64 b < two64)%N.
Proof. unfold add64. apply N.mod_lt. by rewrite two64_val. Qed.

Lemma add64_small a b : (a + b < two64)%N -> a +u64 b = (a + b)%N.
Proof. apply N.mod_small. Qed.

(** The wrap-around matters in one place only: the successor of the largest
    round is round 0. *)
Lemma succ64_cases a :
  (a < two64)%N ->
  (a +u64 1 = (a + 1)%N /\ (a + 1 < two64)%N) \/ (a = (two64 - 1)%N /\ a +u64 1 = 0%N).
Proof.
  intros Ha. destruct (decide (a + 1 < two64)%N) as [Hlt|Hge].
  - left. split; [by apply add64_small | done].
  - right. assert (a = (two64 - 1)%N) as -> by lia. by split.
Qed.

(** ** Bytes *)

#[export] Instance byte_eq_decision : EqDecision byte := Byte.byte_eq_dec.
#[export] Instance byte_inhabited : Inhabited byte := populate x00.
#[export] Program Instance byte_countable : Countable byte :=
  inj_countable Byte.to_N Byte.of_N _.
Next Obligation. intros b. apply Byte.of_to_N. Qed.

(** Go's conversion [byte(v)]: the low eight bits. *)
Definition byte_of (v : N) : byte := default x00 (Byte.of_N (v mod 256)%N).

Lemma to_N_byte_of v : Byte.to_N (byte_of v) = (v mod 256)%N.
Proof.
  unfold byte_of. pose proof (Byte.to_of_N_option_map (v mod 256)%N) as H.
  assert (v mod 256 < 256)%N by (by apply N.mod_lt).
  destruct (N.leb_spec (v mod 256) 255); [|lia].
  destruct (Byte.of_N (v mod 256)) as [b|]; simpl in *; congruence.
Qed.

Lemma to_N_lt b : (Byte.to_N b < 256)%N.
Proof. pose proof (Byte.to_N_bounded b). lia. Qed.

Lemma to_N_inj b c : Byte.to_N b = Byte.to_N c -> b = c.
Proof.
  intros H. apply (f_equal Byte.of_N) in H. rewrite !Byte.of_to_N in H. congruence.
Qed.

(** ** Big-endian integers: [binary.BigEndian] *)

(** [be n v] is what [PutUint32] (n = 4) and [PutUint64] (n = 8) write. *)
Fixpoint be (n : nat) (v : N) : bytes :=
  match n with
  | O => []
  | S n => be n (v / 256) ++ [byte_of v]
  end.

(** [be_val] is what [BigEndian.Uint64] reads back. *)
Definition be_val (bs : bytes) : N :=
  fold_left (fun acc b => (acc * 256 + Byte.to_N b)%N) bs 0%N.

Arguments be : simpl never.

Lemma length_be n v : length (be n v) = n.
Proof. revert v. induction n as [|n IH]; intros v; [done|]. unfold be; fold be. rewrite length_app, IH. simpl. lia. Qed.

Lemma be_val_snoc bs b : be_val (bs ++ [b]) = (be_val bs * 256 + Byte.to_N b)%N.
Proof. unfold be_val. by rewrite fold_left_app. Qed.

Lemma be_val_be n v : be_val (be n v) = (v mod 256 ^ N.of_nat n)%N.
Proof.
  revert v. induction n as [|n IH]; intros v.
  - by rewrite N.mod_1_r.
  - unfold be; fold be. rewrite be_val_snoc, IH, to_N_byte_of, Nat2N.inj_succ, N.pow_succ_r'.
    rewrite N.Div0.mod_mul_r. lia.
Qed.

Lemma be_inj n v w :
  (v < 256 ^ N.of_nat n)%N -> (w < 256 ^ N.of_nat n)%N -> be n v = be n w -> v = w.
Proof.
  intros Hv Hw H. apply (f_equal be_val) in H. rewrite !be_val_be in H.
  by rewrite !N.mod_small in H.
Qed.

Lemma be_val_lt bs : (be_val bs < 256 ^ N.of_nat (length bs))%N.
Proof.
  induction bs as [|b bs IH] using rev_ind; [done|].
  rewrite be_val_snoc, length_app, Nat.add_comm. cbn [length Nat.add].
  rewrite Nat2N.inj_succ, N.pow_succ_r'. pose proof (to_N_lt b). lia.
Qed.

Lemma be_val_cons b bs : be_val (b :: bs) = (Byte.to_N b * 256 ^ N.of_nat (length bs) + be_val bs)%N.
Proof.
  induction bs as [|c bs IH] using rev_ind; [unfold be_val; simpl; lia|].
  rewrite app_comm_cons, !be_val_snoc, IH, length_app, Nat.add_comm. cbn [length Nat.add].
  rewrite Nat2N.inj_succ, N.pow_succ_r'. lia.
Qed.

Abbreviation be32 := (be 4).
Abbreviation be64 := (be 8).

Lemma be64_inj v w : (v < two64)%N -> (w < two64)%N -> be64 v = be64 w -> v = w.
Proof. apply (be_inj 8). Qed.

Lemma be32_inj v w : (v < two32)%N -> (w < two32)%N -> be32 v = be32 w -> v = w.
Proof. apply (be_inj 4). Qed.

(** [uint64(len(b))]. *)
Definition len64 {A} (l : list A) : uint64 := (N.of_nat (length l) mod two64)%N.

Definition fits64 {A} (l : list A) : Prop := (N.of_nat (length l) < two64)%N.

Lemma len64_lt {A} (l : list A) : (len64 l < two64)%N.
Proof. apply N.mod_lt. by rewrite two64_val. Qed.

Lemma len64_fits {A} (l : list A) : fits64 l -> len64 l = N.of_nat (length l).
Proof. apply N.mod_small. Qed.

Lemma len64_inj {A} (l k : list A) :
  fits64 l -> fits64 k -> len64 l = len64 k -> length l = length k.
Proof. intros Hl Hk. rewrite !len64_fits by done. lia. Qed.

(** ** Tactics *)

(** Turn boolean tests of the code into propositions. *)
Ltac bools :=
  repeat match goal with
  | H : _ && _ = true |- _ => apply andb_true_iff in H; destruct H
  | H : _ || _ = false |- _ => apply orb_false_iff in H; destruct H
  | H : negb _ = true |- _ => apply negb_true_iff in H
  | H : negb _ = false |- _ => apply negb_false_iff in H
  | H : bool_decide _ = true |- _ => apply bool_decide_eq_true in H
  | H : bool_decide _ = false |- _ => apply bool_decide_eq_false in H
  | H : (_ =? _)%N = true |- _ => apply N.eqb_eq in H
  | H : (_ =? _)%N = false |- _ => apply N.eqb_neq in H
  | H : (_ <=? _)%N = true |- _ => apply N.leb_le in H
  | H : (_ <=? _)%N = false |- _ => apply N.leb_gt in H
  | H : (_ <? _)%N = true |- _ => apply N.ltb_lt in H
  | H : (_ <? _)%N = false |- _ => apply N.ltb_ge in H
  end.

(** Peel the binds of an option-valued handler off a hypothesis [e = Some x]. *)
Ltac peel :=
  repeat match goal with
  | H : (_ ≫= _) = Some _ |- _ => apply bind_Some in H; destruct H as (? & ? & ?)
  | H : _ <$> _ = Some _ |- _ => apply fmap_Some in H; destruct H as (? & ? & ?)
  | H : Some _ = Some _ |- _ => injection H as H
  | H : mret _ = Some _ |- _ => unfold mret, option_ret in H
  end; simplify_eq/=.

(** ** Lists *)

Lemma app_inj_len {A} (l1 l2 k1 k2 : list A) :
  length l1 = length k1 -> l1 ++ l2 = k1 ++ k2 -> l1 = k1 /\ l2 = k2.
Proof. intros Hlen H. by apply app_inj_1. Qed.

(** Sorting by a key: the sort the code calls for, [slices.SortFunc] with
    [cmp.Compare] on the key. *)
Section sort_by.
Context {A : Type} (key : A -> N).

Definition key_le (x y : A) : Prop := (key x <= key y)%N.
Definition key_lt (x y : A) : Prop := (key x < key y)%N.

#[global] Instance key_le_dec x y : Decision (key_le x y).
Proof. unfold key_le. apply _. Defined.
#[global] Instance key_le_total : Total key_le.
Proof. intros x y. unfold key_le. lia. Qed.
#[global] Instance key_le_trans : Transitive key_le.
Proof. intros x y z. unfold key_le. lia. Qed.
#[global] Instance key_lt_trans : Transitive key_lt.
Proof. intros x y z. unfold key_lt. lia. Qed.

Definition sort_by (l : list A) : list A := merge_sort key_le l.

Lemma sort_by_perm l : sort_by l ≡ₚ l.
Proof. apply merge_sort_Permutation. Qed.

Lemma length_sort_by l : length (sort_by l) = length l.
Proof. by rewrite sort_by_perm. Qed.

(** Sorted with distinct keys is strictly sorted. *)
Lemma strict_of_nodup l :
  NoDup (key <$> l) -> StronglySorted key_le l -> StronglySorted key_lt l.
Proof.
  induction 2 as [|x l Hs IH Hx]; constructor; csimpl in *; apply NoDup_cons in H as [Hn ?]; [by auto|].
  rewrite Forall_forall in Hx |- *. intros y Hy.
  assert (key x ≠ key y) by (intros Heq; apply Hn; rewrite Heq; by apply list_elem_of_fmap_2).
  specialize (Hx y Hy). unfold key_le, key_lt in *. lia.
Qed.

Lemma nodup_of_strict l : StronglySorted key_lt l -> NoDup (key <$> l).
Proof.
  induction 1 as [|x l Hs IH Hx]; csimpl; constructor; [|done].
  intros (y & Heq & Hy)%list_elem_of_fmap_1.
  rewrite Forall_forall in Hx. specialize (Hx y Hy). unfold key_lt in Hx. lia.
Qed.

Lemma sort_by_strict l : NoDup (key <$> l) -> StronglySorted key_lt (sort_by l).
Proof.
  intros Hnd. apply strict_of_nodup.
  - by rewrite sort_by_perm.
  - apply StronglySorted_merge_sort; apply _.
Qed.

(** Two strictly sorted lists with the same elements are equal, so the result
    does not depend on the sorting algorithm. *)
Lemma strict_sorted_unique l k :
  StronglySorted key_lt l -> StronglySorted key_lt k -> l ≡ₚ k -> l = k.
Proof.
  intros Hl Hk. apply (StronglySorted_unique_strong key_lt); [|done|done].
  unfold key_lt. intros; lia.
Qed.
End sort_by.

Arguments sort_by : simpl never.

(** ** Iteration over Go maps

    [range] enumerates the entries of a map in an order the language leaves
    open: each entry once. Every loop of the code over a map with byte-string
    keys is written over this interface, and the component theorems hold for
    every instance. *)

Class RangeOrder := {
  range : forall {V : Type}, gmap bytes V -> list (bytes * V);
  range_perm : forall V (m : gmap bytes V), range m ≡ₚ map_to_list m;
}.

#[export] Instance canonical_range : RangeOrder := {|
  range := fun V m => map_to_list m;
  range_perm := fun V m => reflexivity _;
|}.

Section range_facts.
Context `{RangeOrder} {V : Type}.
Implicit Types m : gmap bytes V.

Lemma elem_of_range m k v : (k, v) ∈ range m <-> m !! k = Some v.
Proof. rewrite range_perm. apply elem_of_map_to_list. Qed.

Lemma nodup_range m : NoDup (range m).*1.
Proof. rewrite range_perm. apply NoDup_fst_map_to_list. Qed.
End range_facts.

(** ** Counting *)

Lemma nodup_list_to_set_size `{Countable A} (l : list A) :
  NoDup l -> size (list_to_set l : gset A) = length l.
Proof. apply size_list_to_set. Qed.

(** Two sets inside a universe of [n] elements overlap in all they exceed it. *)
Lemma intersection_size_lower `{Countable A} (U X Y : gset A) :
  X ⊆ U -> Y ⊆ U -> (size X + size Y <= size U + size (X ∩ Y))%nat.
Proof.
  intros HX HY.
  assert (size (X ∪ Y) <= size U)%nat by (apply subseteq_size; set_solver).
  pose proof (size_union_alt X Y). pose proof (size_difference_alt Y X) as Hd.
  assert (Y ∩ X = X ∩ Y) as He by (apply set_eq; intros x; rewrite !elem_of_intersection; tauto).
  rewrite He in Hd. lia.
Qed.

(** A set larger than another has an element outside of it. *)
Lemma size_gt_witness `{Countable A} (X B : gset A) :
  (size B < size X)%nat -> exists x, x ∈ X /\ x ∉ B.
Proof.
  intros Hlt. destruct (set_choose_or_empty (X ∖ B)) as [(x & Hx)|He].
  - exists x. set_solver.
  - assert (size X <= size B)%nat by (apply subseteq_size; intros x Hx; destruct (decide (x ∈ B)); set_solver).
    lia.
Qed.

Create HintDb diem.
#[export] Hint Resolve add64_lt len64_lt length_be : diem.
