(* ===== verification/Sha256.v ===== *)
(** SHA-256, the one function of Go's [crypto/sha256] the code calls, written
    out over 32-bit words so that digests, block ids and the genesis objects
    evaluate. Only its output length is used by general theorems; collision
    freedom, where a theorem needs it, is assumed of a named set of inputs. *)

From stdpp Require Import prelude list.
From Stdlib Require Import NArith Lia Strings.Byte.
From S2P Require Import Prelude.

Local Open Scope N_scope.

Definition w32 (x : N) : N := N.land x 4294967295.
Definition add32 (a b : N) : N := w32 (a + b).
Definition rotr (n x : N) : N := N.lor (N.shiftr x n) (w32 (N.shiftl x (32 - n))).
Definition ch (x y z : N) : N := N.lxor (N.land x y) (N.ldiff z x).
Definition maj (x y z : N) : N := N.lxor (N.lxor (N.land x y) (N.land x z)) (N.land y z).
Definition bsig0 (x : N) : N := N.lxor (N.lxor (rotr 2 x) (rotr 13 x)) (rotr 22 x).
Definition bsig1 (x : N) : N := N.lxor (N.lxor (rotr 6 x) (rotr 11 x)) (rotr 25 x).
Definition ssig0 (x : N) : N := N.lxor (N.lxor (rotr 7 x) (rotr 18 x)) (N.shiftr x 3).
Definition ssig1 (x : N) : N := N.lxor (N.lxor (rotr 17 x) (rotr 19 x)) (N.shiftr x 10).

(** The cube-root constants, and the square-root initial state. *)
Definition K256 : list N :=
  [1116352408; 1899447441; 3049323471; 3921009573; 961987163; 1508970993; 2453635748; 2870763221;
   3624381080; 310598401; 607225278; 1426881987; 1925078388; 2162078206; 2614888103; 3248222580;
   3835390401; 4022224774; 264347078; 604807628; 770255983; 1249150122; 1555081692; 1996064986;
   2554220882; 2821834349; 2952996808; 3210313671; 3336571891; 3584528711; 113926993; 338241895;
   666307205; 773529912; 1294757372; 1396182291; 1695183700; 1986661051; 2177026350; 2456956037;
   2730485921; 2820302411; 3259730800; 3345764771; 3516065817; 3600352804; 4094571909; 275423344;
   430227734; 506948616; 659060556; 883997877; 958139571; 1322822218; 1537002063; 1747873779;
   1955562222; 2024104815; 2227730452; 2361852424; 2428436474; 2756734187; 3204031479; 3329325298].

Record hstate := HState { ha : N; hb : N; hc : N; hd : N; he : N; hf : N; hg : N; hh : N }.

Definition H256 : hstate :=
  HState 1779033703 3144134277 1013904242 2773480762 1359893119 2600822924 528734635 1541459225.

(** The message schedule, newest word first. *)
Fixpoint schedule (n : nat) (ws : list N) : list N :=
  match n with
  | O => ws
  | S n =>
      let w i := nth i ws 0 in
      schedule n (add32 (add32 (ssig1 (w 1%nat)) (w 6%nat)) (add32 (ssig0 (w 14%nat)) (w 15%nat)) :: ws)
  end.

Definition compress1 (s : hstate) (kw : N * N) : hstate :=
  let '(HState a b c d e f g h) := s in
  let t1 := add32 (add32 (add32 h (bsig1 e)) (add32 (ch e f g) kw.1)) kw.2 in
  let t2 := add32 (bsig0 a) (maj a b c) in
  HState (add32 t1 t2) a b c (add32 d t1) e f g.

(** Split a list into pieces of [k] elements; [fuel] is at least the length. *)
Fixpoint chunks {A} (fuel k : nat) (l : list A) : list (list A) :=
  match fuel, l with
  | O, _ | _, [] => []
  | S fuel, _ => take k l :: chunks fuel k (drop k l)
  end.

Definition compress (s : hstate) (block : bytes) : hstate :=
  let ws := be_val <$> chunks 16 4 block in
  let r := fold_left compress1 (zip K256 (reverse (schedule 48 (reverse ws)))) s in
  HState (add32 (ha s) (ha r)) (add32 (hb s) (hb r)) (add32 (hc s) (hc r)) (add32 (hd s) (hd r))
         (add32 (he s) (he r)) (add32 (hf s) (hf r)) (add32 (hg s) (hg r)) (add32 (hh s) (hh r)).

Definition pad (m : bytes) : bytes :=
  m ++ [x80] ++ replicate ((119 - length m mod 64) mod 64) x00
    ++ be64 (8 * N.of_nat (length m)).

(** [sha256.Sum256] and [h.Sum(nil)] on all that was written to [h]. *)
Definition sha256 (m : bytes) : bytes :=
  let p := pad m in
  let '(HState a b c d e f g h) := fold_left compress (chunks (length p) 64 p) H256 in
  mjoin (be32 <$> [a; b; c; d; e; f; g; h]).

Arguments sha256 : simpl never.
Opaque sha256.

(** [sha256.Size]. *)
Definition hashLen : nat := 32.

Lemma length_sha256 m : length (sha256 m) = hashLen.
Proof.
  Transparent sha256. unfold sha256. Opaque sha256.
  by destruct (fold_left compress _ _).
Qed.

(** The published test vectors for the empty message and for "abc". *)
Example sha256_empty :
  be_val (sha256 []) = 0xe3b0c44298fc1c149afbf4c8996fb92427ae41e4649b934ca495991b7852b855.
Proof. vm_compute. reflexivity. Qed.

Example sha256_abc :
  be_val (sha256 [x61; x62; x63]) = 0xba7816bf8f01cfea414140de5dae2223b00361a396177a9cb410ff61f20015ad.
Proof. vm_compute. reflexivity. Qed.

(** A two-block message (fifty-six bytes), which exercises the padding edge. *)
Example sha256_two_blocks :
  be_val (sha256 (mjoin ((fun i => byte_of <$> [i; i+1; i+2; i+3]) <$>
    [0x61; 0x62; 0x63; 0x64; 0x65; 0x66; 0x67; 0x68; 0x69; 0x6a; 0x6b; 0x6c; 0x6d; 0x6e])))
  = 0x248d6a61d20638b8e5c026930c3e6039a33ce45964ff2167f6ecedd419db06c1.
Proof. vm_compute. reflexivity. Qed.

(** The inputs of a set do not collide. *)
Definition collision_free (P : bytes -> Prop) : Prop :=
  forall x y, P x -> P y -> sha256 x = sha256 y -> x = y.


(** An explicit pair of colliding inputs. *)
Definition sha256_collision (x y : bytes) : Prop := x ≠ y /\ sha256 x = sha256 y.

Lemma sha256_eq_or_collision x y : sha256 x = sha256 y -> x = y \/ sha256_collision x y.
Proof. intros H. destruct (decide (x = y)); [by left|by right]. Qed.
