(* ===== verification/Proto.v ===== *)
(** The wire messages of [proto/diempb]: one record per message with the fields
    of the generated struct, and the generated getters. A message pointer is an
    [option]; a getter on the nil pointer returns the zero value of its field,
    as the generated code does. Elements of repeated message fields are values:
    the decoder and the builders never produce nil ones. [proto.Equal] on these
    messages is equality of records, since no field has explicit presence but
    the sub-messages, which are options. *)

From stdpp Require Import prelude list.
From Stdlib Require Import NArith Strings.Byte.
From S2P Require Import Prelude.

(** A claimed signer and the signature bytes. *)
Record Signature := MkSignature {
  sg_signer : uint32;
  sg_sig : bytes;
}.

Definition zeroSignature : Signature := MkSignature 0%N [].

Definition Signature_GetSigner (x : option Signature) : uint32 :=
  match x with Some x => sg_signer x | None => 0%N end.
Definition Signature_GetSig (x : option Signature) : bytes :=
  match x with Some x => sg_sig x | None => [] end.

#[export] Instance Signature_eq_dec : EqDecision Signature.
Proof. solve_decision. Defined.

(** The block voted for, its parent, and the executed state. *)
Record VoteInfo := MkVoteInfo {
  vi_id : bytes;
  vi_round : uint64;
  vi_parent_id : bytes;
  vi_parent_round : uint64;
  vi_exec_state_id : bytes;
}.

Definition zeroVoteInfo : VoteInfo := MkVoteInfo [] 0%N [] 0%N [].

Definition VoteInfo_GetId (x : option VoteInfo) : bytes :=
  match x with Some x => vi_id x | None => [] end.
Definition VoteInfo_GetRound (x : option VoteInfo) : uint64 :=
  match x with Some x => vi_round x | None => 0%N end.
Definition VoteInfo_GetParentId (x : option VoteInfo) : bytes :=
  match x with Some x => vi_parent_id x | None => [] end.
Definition VoteInfo_GetParentRound (x : option VoteInfo) : uint64 :=
  match x with Some x => vi_parent_round x | None => 0%N end.
Definition VoteInfo_GetExecStateId (x : option VoteInfo) : bytes :=
  match x with Some x => vi_exec_state_id x | None => [] end.

#[export] Instance VoteInfo_eq_dec : EqDecision VoteInfo.
Proof. solve_decision. Defined.

(** What a vote signs: the committed state and the hash of the vote info. *)
Record LedgerCommitInfo := MkLedgerCommitInfo {
  lci_commit_state_id : bytes;
  lci_vote_info_hash : bytes;
}.

Definition zeroLedgerCommitInfo : LedgerCommitInfo := MkLedgerCommitInfo [] [].

Definition LedgerCommitInfo_GetCommitStateId (x : option LedgerCommitInfo) : bytes :=
  match x with Some x => lci_commit_state_id x | None => [] end.
Definition LedgerCommitInfo_GetVoteInfoHash (x : option LedgerCommitInfo) : bytes :=
  match x with Some x => lci_vote_info_hash x | None => [] end.

#[export] Instance LedgerCommitInfo_eq_dec : EqDecision LedgerCommitInfo.
Proof. solve_decision. Defined.

(** A quorum certificate. *)
Record QuorumCert := MkQuorumCert {
  qc_vote_info : option VoteInfo;
  qc_ledger_commit_info : option LedgerCommitInfo;
  qc_signatures : list Signature;
  qc_author : uint32;
  qc_author_sig : option Signature;
}.

Definition zeroQuorumCert : QuorumCert := MkQuorumCert None None [] 0%N None.

Definition QuorumCert_GetVoteInfo (x : option QuorumCert) : option VoteInfo :=
  match x with Some x => qc_vote_info x | None => None end.
Definition QuorumCert_GetLedgerCommitInfo (x : option QuorumCert) : option LedgerCommitInfo :=
  match x with Some x => qc_ledger_commit_info x | None => None end.
Definition QuorumCert_GetSignatures (x : option QuorumCert) : list Signature :=
  match x with Some x => qc_signatures x | None => [] end.
Definition QuorumCert_GetAuthor (x : option QuorumCert) : uint32 :=
  match x with Some x => qc_author x | None => 0%N end.
Definition QuorumCert_GetAuthorSig (x : option QuorumCert) : option Signature :=
  match x with Some x => qc_author_sig x | None => None end.

#[export] Instance QuorumCert_eq_dec : EqDecision QuorumCert.
Proof. solve_decision. Defined.

(** One signer's share of a timeout certificate. *)
Record TimeoutVote := MkTimeoutVote {
  tv_high_qc_round : uint64;
  tv_sig : option Signature;
}.

Definition zeroTimeoutVote : TimeoutVote := MkTimeoutVote 0%N None.

Definition TimeoutVote_GetHighQcRound (x : option TimeoutVote) : uint64 :=
  match x with Some x => tv_high_qc_round x | None => 0%N end.
Definition TimeoutVote_GetSig (x : option TimeoutVote) : option Signature :=
  match x with Some x => tv_sig x | None => None end.

#[export] Instance TimeoutVote_eq_dec : EqDecision TimeoutVote.
Proof. solve_decision. Defined.

(** A timeout certificate. *)
Record TimeoutCert := MkTimeoutCert {
  tc_round : uint64;
  tc_votes : list TimeoutVote;
}.

Definition zeroTimeoutCert : TimeoutCert := MkTimeoutCert 0%N [].

Definition TimeoutCert_GetRound (x : option TimeoutCert) : uint64 :=
  match x with Some x => tc_round x | None => 0%N end.
Definition TimeoutCert_GetVotes (x : option TimeoutCert) : list TimeoutVote :=
  match x with Some x => tc_votes x | None => [] end.

#[export] Instance TimeoutCert_eq_dec : EqDecision TimeoutCert.
Proof. solve_decision. Defined.

(** A block; [b_id] is a claim until it has been recomputed. *)
Record Block := MkBlock {
  b_author : uint32;
  b_round : uint64;
  b_payload : list bytes;
  b_qc : option QuorumCert;
  b_id : bytes;
}.

Definition zeroBlock : Block := MkBlock 0%N 0%N [] None [].

Definition Block_GetAuthor (x : option Block) : uint32 :=
  match x with Some x => b_author x | None => 0%N end.
Definition Block_GetRound (x : option Block) : uint64 :=
  match x with Some x => b_round x | None => 0%N end.
Definition Block_GetPayload (x : option Block) : list bytes :=
  match x with Some x => b_payload x | None => [] end.
Definition Block_GetQc (x : option Block) : option QuorumCert :=
  match x with Some x => b_qc x | None => None end.
Definition Block_GetId (x : option Block) : bytes :=
  match x with Some x => b_id x | None => [] end.

#[export] Instance Block_eq_dec : EqDecision Block.
Proof. solve_decision. Defined.

(** A leader's proposal. *)
Record ProposalMsg := MkProposalMsg {
  pm_block : option Block;
  pm_last_round_tc : option TimeoutCert;
  pm_high_commit_qc : option QuorumCert;
  pm_sender : uint32;
  pm_sig : option Signature;
}.

Definition zeroProposalMsg : ProposalMsg := MkProposalMsg None None None 0%N None.

Definition ProposalMsg_GetBlock (x : option ProposalMsg) : option Block :=
  match x with Some x => pm_block x | None => None end.
Definition ProposalMsg_GetLastRoundTc (x : option ProposalMsg) : option TimeoutCert :=
  match x with Some x => pm_last_round_tc x | None => None end.
Definition ProposalMsg_GetHighCommitQc (x : option ProposalMsg) : option QuorumCert :=
  match x with Some x => pm_high_commit_qc x | None => None end.
Definition ProposalMsg_GetSender (x : option ProposalMsg) : uint32 :=
  match x with Some x => pm_sender x | None => 0%N end.
Definition ProposalMsg_GetSig (x : option ProposalMsg) : option Signature :=
  match x with Some x => pm_sig x | None => None end.

#[export] Instance ProposalMsg_eq_dec : EqDecision ProposalMsg.
Proof. solve_decision. Defined.

(** A vote. *)
Record VoteMsg := MkVoteMsg {
  vm_vote_info : option VoteInfo;
  vm_ledger_commit_info : option LedgerCommitInfo;
  vm_high_commit_qc : option QuorumCert;
  vm_sender : uint32;
  vm_sig : option Signature;
}.

Definition zeroVoteMsg : VoteMsg := MkVoteMsg None None None 0%N None.

Definition VoteMsg_GetVoteInfo (x : option VoteMsg) : option VoteInfo :=
  match x with Some x => vm_vote_info x | None => None end.
Definition VoteMsg_GetLedgerCommitInfo (x : option VoteMsg) : option LedgerCommitInfo :=
  match x with Some x => vm_ledger_commit_info x | None => None end.
Definition VoteMsg_GetHighCommitQc (x : option VoteMsg) : option QuorumCert :=
  match x with Some x => vm_high_commit_qc x | None => None end.
Definition VoteMsg_GetSender (x : option VoteMsg) : uint32 :=
  match x with Some x => vm_sender x | None => 0%N end.
Definition VoteMsg_GetSig (x : option VoteMsg) : option Signature :=
  match x with Some x => vm_sig x | None => None end.

#[export] Instance VoteMsg_eq_dec : EqDecision VoteMsg.
Proof. solve_decision. Defined.

(** A replica's timeout for a round. *)
Record TimeoutInfo := MkTimeoutInfo {
  ti_round : uint64;
  ti_high_qc : option QuorumCert;
  ti_sender : uint32;
  ti_sig : option Signature;
}.

Definition zeroTimeoutInfo : TimeoutInfo := MkTimeoutInfo 0%N None 0%N None.

Definition TimeoutInfo_GetRound (x : option TimeoutInfo) : uint64 :=
  match x with Some x => ti_round x | None => 0%N end.
Definition TimeoutInfo_GetHighQc (x : option TimeoutInfo) : option QuorumCert :=
  match x with Some x => ti_high_qc x | None => None end.
Definition TimeoutInfo_GetSender (x : option TimeoutInfo) : uint32 :=
  match x with Some x => ti_sender x | None => 0%N end.
Definition TimeoutInfo_GetSig (x : option TimeoutInfo) : option Signature :=
  match x with Some x => ti_sig x | None => None end.

#[export] Instance TimeoutInfo_eq_dec : EqDecision TimeoutInfo.
Proof. solve_decision. Defined.

(** A timeout on the wire. *)
Record TimeoutMsg := MkTimeoutMsg {
  tm_tmo_info : option TimeoutInfo;
  tm_last_round_tc : option TimeoutCert;
  tm_high_commit_qc : option QuorumCert;
}.

Definition zeroTimeoutMsg : TimeoutMsg := MkTimeoutMsg None None None.

Definition TimeoutMsg_GetTmoInfo (x : option TimeoutMsg) : option TimeoutInfo :=
  match x with Some x => tm_tmo_info x | None => None end.
Definition TimeoutMsg_GetLastRoundTc (x : option TimeoutMsg) : option TimeoutCert :=
  match x with Some x => tm_last_round_tc x | None => None end.
Definition TimeoutMsg_GetHighCommitQc (x : option TimeoutMsg) : option QuorumCert :=
  match x with Some x => tm_high_commit_qc x | None => None end.

#[export] Instance TimeoutMsg_eq_dec : EqDecision TimeoutMsg.
Proof. solve_decision. Defined.

(** [proto.Equal] of two certificates, either of which may be nil. *)
Definition proto_Equal (x y : option QuorumCert) : bool := bool_decide (x = y).
