(* ===== verification/Hash.v ===== *)
(** [diem/hash.go]: the digests. A [hash.Hash] is the list of bytes written to it
    so far, [h.Sum(nil)] is SHA-256 of that list. Every digest is split in its
    preimage, a byte string, and the hash of it, so that injectivity of the
    encodings is a theorem and collision freedom of SHA-256 is not needed for it. *)

From stdpp Require Import prelude list.
From Stdlib Require Import NArith Lia Strings.Byte.
From S2P Require Import Prelude Sha256 Proto.

(** ** Domain tags *)

Definition domainBlock : byte := x01.
Definition domainVoteInfo : byte := x02.
Definition domainLedgerCommit : byte := x03.
Definition domainTimeout : byte := x04.
Definition domainQCSigs : byte := x05.
Definition domainState : byte := x06.

(** ** The writers *)

Definition Write (h b : bytes) : bytes := h ++ b.
Definition writeUint64 (h : bytes) (v : uint64) : bytes := Write h (be64 v).
Definition writeUint32 (h : bytes) (v : uint32) : bytes := Write h (be32 v).
Definition writeBytes (h b : bytes) : bytes := Write (writeUint64 h (len64 b)) b.

Definition writeSigs (h : bytes) (sigs : list Signature) : bytes :=
  fold_left (fun h s => writeBytes (writeUint32 h (sg_signer s)) (sg_sig s)) sigs
    (writeUint64 h (len64 sigs)).

(** The payload loop shared by [blockID] and [ExecuteHash]. *)
Definition writePayload (h : bytes) (payload : list bytes) : bytes :=
  fold_left writeBytes payload (writeUint64 h (len64 payload)).

(** ** The digests *)

Definition blockID_preimage (author : uint32) (round : uint64) (payload : list bytes)
    (qc : option QuorumCert) : bytes :=
  let h := Write [] [domainBlock] in
  let h := writeUint32 h author in
  let h := writeUint64 h round in
  let h := writePayload h payload in
  let h := Write h (VoteInfo_GetId (QuorumCert_GetVoteInfo qc)) in
  writeSigs h (QuorumCert_GetSignatures qc).

Definition blockID (author : uint32) (round : uint64) (payload : list bytes)
    (qc : option QuorumCert) : bytes :=
  sha256 (blockID_preimage author round payload qc).

Definition VoteInfoHash_preimage (v : option VoteInfo) : bytes :=
  let h := Write [] [domainVoteInfo] in
  let h := Write h (VoteInfo_GetId v) in
  let h := writeUint64 h (VoteInfo_GetRound v) in
  let h := Write h (VoteInfo_GetParentId v) in
  let h := writeUint64 h (VoteInfo_GetParentRound v) in
  Write h (VoteInfo_GetExecStateId v).

Definition VoteInfoHash (v : option VoteInfo) : bytes := sha256 (VoteInfoHash_preimage v).

Definition LedgerCommitDigest_preimage (l : option LedgerCommitInfo) : bytes :=
  let h := Write [] [domainLedgerCommit] in
  let h := Write h (LedgerCommitInfo_GetCommitStateId l) in
  Write h (LedgerCommitInfo_GetVoteInfoHash l).

Definition LedgerCommitDigest (l : option LedgerCommitInfo) : bytes :=
  sha256 (LedgerCommitDigest_preimage l).

Definition TimeoutDigest_preimage (round highQCRound : uint64) : bytes :=
  let h := Write [] [domainTimeout] in
  let h := writeUint64 h round in
  writeUint64 h highQCRound.

Definition TimeoutDigest (round highQCRound : uint64) : bytes :=
  sha256 (TimeoutDigest_preimage round highQCRound).

Definition qcSigsDigest_preimage (sigs : list Signature) : bytes :=
  writeSigs (Write [] [domainQCSigs]) sigs.

Definition qcSigsDigest (sigs : list Signature) : bytes := sha256 (qcSigsDigest_preimage sigs).

Definition ExecuteHash_preimage (prev : bytes) (payload : list bytes) : bytes :=
  writePayload (Write (Write [] [domainState]) prev) payload.

Definition ExecuteHash (prev : bytes) (payload : list bytes) : bytes :=
  sha256 (ExecuteHash_preimage prev payload).

(** ** Self-delimiting encodings

    An encoding is self-delimiting on a set of values when a value can be read
    off the front of any string that starts with its encoding. *)

Definition self_delimiting {A} (P : A -> Prop) (enc : A -> bytes) : Prop :=
  forall x y r s, P x -> P y -> enc x ++ r = enc y ++ s -> x = y /\ r = s.

(** Read a value off the front of both sides of an equation between encodings. *)
Ltac read_off sd H :=
  let E := fresh "E" in
  rewrite <- ?app_assoc in H;
  apply sd in H; [destruct H as [E H]; subst|..].

(** Drop the domain tag both sides start with. *)
Ltac drop_tag H := apply (f_equal tail) in H; cbn [tail] in H.

Lemma sd_be n : self_delimiting (fun v => v < 256 ^ N.of_nat n)%N (be n).
Proof.
  intros x y r s Hx Hy H. apply app_inj_len in H as [H ->]; [|by rewrite !length_be].
  split; [|done]. by apply (be_inj n).
Qed.

Lemma sd_be64 : self_delimiting (fun v => v < two64)%N be64.
Proof. apply (sd_be 8). Qed.

Lemma sd_be32 : self_delimiting (fun v => v < two32)%N be32.
Proof. apply (sd_be 4). Qed.

Lemma sd_fixed k : self_delimiting (fun b : bytes => length b = k) id.
Proof. intros x y r s Hx Hy H. apply app_inj_len in H; [done|]. cbn. congruence. Qed.

Lemma sd_pair {A B} P Q (f : A -> bytes) (g : B -> bytes) :
  self_delimiting P f -> self_delimiting Q g ->
  self_delimiting (fun xy => P xy.1 /\ Q xy.2) (fun xy => f xy.1 ++ g xy.2).
Proof.
  intros Hf Hg [x1 x2] [y1 y2] r s [Hx1 Hx2] [Hy1 Hy2] H. cbn in *.
  read_off Hf H; [|done..]. by read_off Hg H.
Qed.

(** Length-prefixed bytes. *)
Definition enc_bytes (b : bytes) : bytes := be64 (len64 b) ++ b.

Lemma sd_bytes : self_delimiting fits64 enc_bytes.
Proof.
  intros x y r s Hx Hy H. unfold enc_bytes in H.
  read_off sd_be64 H; [|apply len64_lt..].
  apply len64_inj in E; [|done..]. by apply app_inj_len in H.
Qed.

(** A count, then the elements. *)
Definition enc_list {A} (f : A -> bytes) (l : list A) : bytes := be64 (len64 l) ++ mjoin (f <$> l).

Lemma sd_elems {A} P (f : A -> bytes) (l k : list A) (r s : bytes) :
  self_delimiting P f -> Forall P l -> Forall P k -> length l = length k ->
  mjoin (f <$> l) ++ r = mjoin (f <$> k) ++ s -> l = k /\ r = s.
Proof.
  intros Hf Hl. revert k. induction Hl as [|x l Hx Hl IH]; intros [|y k] Hk Hlen H; try done.
  csimpl in *. apply Forall_cons in Hk as [Hy Hk].
  read_off Hf H; [|done..]. apply IH in H as [-> ->]; [done|done|lia].
Qed.

Lemma sd_list {A} P (f : A -> bytes) :
  self_delimiting P f -> self_delimiting (fun l => fits64 l /\ Forall P l) (enc_list f).
Proof.
  intros Hf x y r s [Hx Fx] [Hy Fy] H. unfold enc_list in H.
  read_off sd_be64 H; [|apply len64_lt..]. apply len64_inj in E; [|done..].
  by eapply sd_elems.
Qed.

(** ** The writers append those encodings *)

Definition enc_sig (s : Signature) : bytes := be32 (sg_signer s) ++ enc_bytes (sg_sig s).

Lemma writeBytes_enc h b : writeBytes h b = h ++ enc_bytes b.
Proof. unfold writeBytes, writeUint64, Write, enc_bytes. by rewrite app_assoc. Qed.

Lemma writePayload_enc h p : writePayload h p = h ++ enc_list enc_bytes p.
Proof.
  unfold writePayload, enc_list, writeUint64, Write.
  rewrite app_assoc. generalize (h ++ be64 (len64 p)) as h'.
  induction p as [|b p IH]; intros h'; csimpl; [by rewrite app_nil_r|].
  by rewrite IH, writeBytes_enc, <- app_assoc.
Qed.

Lemma writeSigs_enc h sigs : writeSigs h sigs = h ++ enc_list enc_sig sigs.
Proof.
  unfold writeSigs, enc_list, writeUint64, Write.
  rewrite app_assoc. generalize (h ++ be64 (len64 sigs)) as h'.
  induction sigs as [|s sigs IH]; intros h'; csimpl; [by rewrite app_nil_r|].
  rewrite IH, writeBytes_enc. unfold writeUint32, Write, enc_sig. by rewrite <- !app_assoc.
Qed.

(** What the types of the wire guarantee of a signature. *)
Definition sig_ok (s : Signature) : Prop := (sg_signer s < two32)%N /\ fits64 (sg_sig s).
Definition sigs_ok (l : list Signature) : Prop := fits64 l /\ Forall sig_ok l.
Definition payload_ok (l : list bytes) : Prop := fits64 l /\ Forall fits64 l.

Lemma sd_sig : self_delimiting sig_ok enc_sig.
Proof.
  intros [x1 x2] [y1 y2] r s [Hx1 Hx2] [Hy1 Hy2] H. unfold enc_sig in H. cbn in *.
  read_off sd_be32 H; [|done..]. by read_off sd_bytes H.
Qed.

Lemma sd_sigs : self_delimiting sigs_ok (enc_list enc_sig).
Proof. apply (sd_list sig_ok), sd_sig. Qed.

Lemma sd_payload : self_delimiting payload_ok (enc_list enc_bytes).
Proof. apply (sd_list fits64), sd_bytes. Qed.

(** ** Injectivity of the preimages *)

Lemma blockID_preimage_inj a r p qc a' r' p' qc' :
  (a < two32)%N -> (a' < two32)%N -> (r < two64)%N -> (r' < two64)%N ->
  payload_ok p -> payload_ok p' ->
  sigs_ok (QuorumCert_GetSignatures qc) -> sigs_ok (QuorumCert_GetSignatures qc') ->
  length (VoteInfo_GetId (QuorumCert_GetVoteInfo qc)) =
    length (VoteInfo_GetId (QuorumCert_GetVoteInfo qc')) ->
  blockID_preimage a r p qc = blockID_preimage a' r' p' qc' ->
  a = a' /\ r = r' /\ p = p' /\
  VoteInfo_GetId (QuorumCert_GetVoteInfo qc) = VoteInfo_GetId (QuorumCert_GetVoteInfo qc') /\
  QuorumCert_GetSignatures qc = QuorumCert_GetSignatures qc'.
Proof.
  intros ???????? Hlen H. unfold blockID_preimage, writeUint64, writeUint32 in H.
  rewrite !writeSigs_enc, !writePayload_enc in H. unfold Write in H. cbn [app] in H.
  drop_tag H. read_off sd_be32 H; [|done..]. read_off sd_be64 H; [|done..].
  read_off sd_payload H; [|done..]. apply app_inj_len in H as [Hid H]; [|done].
  apply (f_equal (fun l => l ++ [])) in H. by read_off sd_sigs H.
Qed.

(** The ids of a vote info are well sized, its rounds are in range; the state id
    comes last and needs no bound. *)
Definition vote_info_ok (v : option VoteInfo) : Prop :=
  length (VoteInfo_GetId v) = hashLen /\ length (VoteInfo_GetParentId v) = hashLen /\
  (VoteInfo_GetRound v < two64)%N /\ (VoteInfo_GetParentRound v < two64)%N.

Definition same_vote_info (v w : option VoteInfo) : Prop :=
  VoteInfo_GetId v = VoteInfo_GetId w /\ VoteInfo_GetRound v = VoteInfo_GetRound w /\
  VoteInfo_GetParentId v = VoteInfo_GetParentId w /\
  VoteInfo_GetParentRound v = VoteInfo_GetParentRound w /\
  VoteInfo_GetExecStateId v = VoteInfo_GetExecStateId w.

Lemma same_vote_info_eq v w : same_vote_info (Some v) (Some w) -> v = w.
Proof. destruct v, w. intros (?&?&?&?&?). simpl in *. by subst. Qed.

Lemma VoteInfoHash_preimage_inj v w :
  vote_info_ok v -> vote_info_ok w ->
  VoteInfoHash_preimage v = VoteInfoHash_preimage w -> same_vote_info v w.
Proof.
  intros (V1&V2&V3&V4) (W1&W2&W3&W4) H.
  unfold VoteInfoHash_preimage, writeUint64, Write in H. rewrite <- !app_assoc in H.
  cbn [app] in H. drop_tag H.
  apply app_inj_len in H as [E1 H]; [|congruence]. read_off sd_be64 H; [|done..].
  apply app_inj_len in H as [E2 H]; [|congruence]. read_off sd_be64 H; [|done..].
  done.
Qed.

Definition same_commit_info (l k : option LedgerCommitInfo) : Prop :=
  LedgerCommitInfo_GetCommitStateId l = LedgerCommitInfo_GetCommitStateId k /\
  LedgerCommitInfo_GetVoteInfoHash l = LedgerCommitInfo_GetVoteInfoHash k.

Lemma same_commit_info_eq l k : same_commit_info (Some l) (Some k) -> l = k.
Proof. destruct l, k. intros (?&?). simpl in *. by subst. Qed.

Lemma LedgerCommitDigest_preimage_inj l k :
  length (LedgerCommitInfo_GetCommitStateId l) = length (LedgerCommitInfo_GetCommitStateId k) ->
  LedgerCommitDigest_preimage l = LedgerCommitDigest_preimage k -> same_commit_info l k.
Proof.
  intros Hlen H. unfold LedgerCommitDigest_preimage, Write in H. rewrite <- !app_assoc in H.
  cbn [app] in H. drop_tag H. by apply app_inj_len in H.
Qed.

(** The commit info is also determined when the hashes at its end are of one size. *)
Lemma LedgerCommitDigest_preimage_inj_r l k :
  length (LedgerCommitInfo_GetVoteInfoHash l) = length (LedgerCommitInfo_GetVoteInfoHash k) ->
  LedgerCommitDigest_preimage l = LedgerCommitDigest_preimage k -> same_commit_info l k.
Proof.
  intros Hlen H. apply LedgerCommitDigest_preimage_inj; [|done].
  apply (f_equal length) in H. unfold LedgerCommitDigest_preimage, Write in H.
  rewrite !length_app in H. lia.
Qed.

Lemma TimeoutDigest_preimage_inj r h r' h' :
  (r < two64)%N -> (r' < two64)%N -> (h < two64)%N -> (h' < two64)%N ->
  TimeoutDigest_preimage r h = TimeoutDigest_preimage r' h' -> r = r' /\ h = h'.
Proof.
  intros ???? H. unfold TimeoutDigest_preimage, writeUint64, Write in H. rewrite <- !app_assoc in H.
  cbn [app] in H. drop_tag H. read_off sd_be64 H; [|done..].
  split; [done|]. by apply be64_inj.
Qed.

Lemma qcSigsDigest_preimage_inj l k :
  sigs_ok l -> sigs_ok k -> qcSigsDigest_preimage l = qcSigsDigest_preimage k -> l = k.
Proof.
  intros ?? H. unfold qcSigsDigest_preimage in H. rewrite !writeSigs_enc in H.
  unfold Write in H. cbn [app] in H. drop_tag H.
  apply (f_equal (fun l => l ++ [])) in H. by read_off sd_sigs H.
Qed.

Lemma ExecuteHash_preimage_inj s p s' p' :
  length s = length s' -> payload_ok p -> payload_ok p' ->
  ExecuteHash_preimage s p = ExecuteHash_preimage s' p' -> s = s' /\ p = p'.
Proof.
  intros Hlen ?? H. unfold ExecuteHash_preimage in H. rewrite !writePayload_enc in H.
  unfold Write in H. rewrite <- !app_assoc in H. cbn [app] in H. drop_tag H.
  apply app_inj_len in H as [-> H]; [|done]. split; [done|].
  apply (f_equal (fun l => l ++ [])) in H. by read_off sd_payload H.
Qed.

(** ** Everything the replica hashes *)

Inductive digest_input :=
  | DBlock (author : uint32) (round : uint64) (payload : list bytes) (qc : option QuorumCert)
  | DVoteInfo (v : option VoteInfo)
  | DLedgerCommit (l : option LedgerCommitInfo)
  | DTimeout (round highQCRound : uint64)
  | DQCSigs (sigs : list Signature)
  | DState (prev : bytes) (payload : list bytes).

#[export] Instance digest_input_eq_dec : EqDecision digest_input.
Proof. solve_decision. Defined.

Definition preimage (d : digest_input) : bytes :=
  match d with
  | DBlock a r p qc => blockID_preimage a r p qc
  | DVoteInfo v => VoteInfoHash_preimage v
  | DLedgerCommit l => LedgerCommitDigest_preimage l
  | DTimeout r h => TimeoutDigest_preimage r h
  | DQCSigs sigs => qcSigsDigest_preimage sigs
  | DState s p => ExecuteHash_preimage s p
  end.

Definition domain (d : digest_input) : byte :=
  match d with
  | DBlock _ _ _ _ => domainBlock
  | DVoteInfo _ => domainVoteInfo
  | DLedgerCommit _ => domainLedgerCommit
  | DTimeout _ _ => domainTimeout
  | DQCSigs _ => domainQCSigs
  | DState _ _ => domainState
  end.

Definition digest (d : digest_input) : bytes := sha256 (preimage d).

Lemma preimage_head d : head (preimage d) = Some (domain d).
Proof.
  destruct d; cbn [preimage domain]; unfold blockID_preimage, qcSigsDigest_preimage, ExecuteHash_preimage;
    rewrite ?writeSigs_enc, ?writePayload_enc; reflexivity.
Qed.

Lemma preimage_domain d d' : preimage d = preimage d' -> domain d = domain d'.
Proof. intros H. pose proof (preimage_head d). pose proof (preimage_head d'). congruence. Qed.

Lemma preimage_not_nil d : preimage d ≠ [].
Proof. intros H. pose proof (preimage_head d) as Hd. by rewrite H in Hd. Qed.

Lemma length_digest d : length (digest d) = hashLen.
Proof. apply length_sha256. Qed.

(** Digests of different kinds agree only through a collision of SHA-256. *)
Lemma digest_domain d d' :
  collision_free (fun x => x = preimage d \/ x = preimage d') ->
  digest d = digest d' -> domain d = domain d'.
Proof. intros Hcf H. apply preimage_domain, Hcf; auto. Qed.
