(* ===== verification/Types.v ===== *)
(** [diem/types.go] and [diem/genesis.go]: block construction, the readings of
    certificates, the well-formedness rule for proposals and timeouts, and the
    genesis objects every replica hardcodes. *)

From stdpp Require Import prelude list.
From Stdlib Require Import NArith Lia Strings.Byte.
From S2P Require Import Prelude Sha256 Proto Hash.

(** The paper's bottom: [var zeroHash [hashLen]byte]. *)
Definition zeroHash : bytes := replicate hashLen x00.

Definition NewBlock (author : uint32) (round : uint64) (payload : list bytes)
    (qc : option QuorumCert) : Block :=
  MkBlock author round payload qc (blockID author round payload qc).

Definition QCRound (qc : option QuorumCert) : uint64 :=
  VoteInfo_GetRound (QuorumCert_GetVoteInfo qc).

(** [higher a b] prefers [b] on a tie. *)
Definition higher (a b : option QuorumCert) : option QuorumCert :=
  if (QCRound b <? QCRound a)%N then a else b.

Definition parentID (b : Block) : bytes :=
  VoteInfo_GetId (QuorumCert_GetVoteInfo (b_qc b)).

Definition Commits (l : option LedgerCommitInfo) : bool :=
  existsb (fun b => bool_decide (b ≠ x00)) (LedgerCommitInfo_GetCommitStateId l).

Definition MaxHighQCRound (tc : option TimeoutCert) : uint64 :=
  fold_left (fun highest v => N.max highest (tv_high_qc_round v)) (TimeoutCert_GetVotes tc) 0%N.

Definition wellFormed (round qcRound : uint64) (tc : option TimeoutCert) : bool :=
  if (round =? 0)%N then false
  else if (qcRound +u64 1 =? round)%N then bool_decide (tc = None)
  else match tc with
       | Some _ => (TimeoutCert_GetRound tc +u64 1 =? round)%N
       | None => false
       end.

Definition WellFormedProposal (p : ProposalMsg) : bool :=
  match pm_block p with
  | None => false
  | Some b =>
      match b_qc b with
      | None => false
      | Some _ => wellFormed (b_round b) (QCRound (b_qc b)) (pm_last_round_tc p)
      end
  end.

Definition WellFormedTimeout (m : TimeoutMsg) : bool :=
  let t := tm_tmo_info m in
  match TimeoutInfo_GetHighQc t with
  | None => false
  | Some _ => wellFormed (TimeoutInfo_GetRound t) (QCRound (TimeoutInfo_GetHighQc t)) (tm_last_round_tc m)
  end.

(** ** Genesis *)

Definition zeroQC (id : bytes) : QuorumCert :=
  MkQuorumCert (Some (MkVoteInfo id 0 zeroHash 0 zeroHash))
               (Some (MkLedgerCommitInfo zeroHash zeroHash)) [] 0 None.

Definition genesisSeedQC : QuorumCert := zeroQC zeroHash.
Definition genesisBlock : Block := NewBlock 0 0 [] (Some genesisSeedQC).
Definition genesisQC : QuorumCert := zeroQC (b_id genesisBlock).

Definition GenesisBlock : Block := genesisBlock.
Definition GenesisQC : QuorumCert := genesisQC.

(** ** Facts *)

Lemma length_zeroHash : length zeroHash = hashLen.
Proof. reflexivity. Qed.

Lemma Commits_iff l :
  Commits l = true <-> exists b, b ∈ LedgerCommitInfo_GetCommitStateId l /\ b ≠ x00.
Proof.
  unfold Commits. rewrite existsb_exists. split.
  - intros (b & Hin & Hb). bools. exists b. by rewrite list_elem_of_In.
  - intros (b & Hin & Hb). exists b. rewrite <- list_elem_of_In. split; [done|].
    by apply bool_decide_eq_true.
Qed.

(** On a hash-sized state id, not committing means carrying the zero hash. *)
Lemma Commits_false_zero l :
  length (LedgerCommitInfo_GetCommitStateId l) = hashLen ->
  (Commits l = false <-> LedgerCommitInfo_GetCommitStateId l = zeroHash).
Proof.
  intros Hlen. rewrite <- Bool.not_true_iff_false, Commits_iff. split.
  - intros Hn. symmetry. apply replicate_as_elem_of. split; [done|].
    intros b Hb. destruct (decide (b = x00)); [done|]. exfalso. eauto.
  - intros -> (b & Hb & Hne). by apply elem_of_replicate in Hb as [-> _].
Qed.

Lemma MaxHighQCRound_acc vs n v :
  v ∈ vs -> (tv_high_qc_round v <= fold_left (fun h v => N.max h (tv_high_qc_round v)) vs n)%N.
Proof.
  assert (forall vs n, n <= fold_left (fun h v => N.max h (tv_high_qc_round v)) vs n)%N as Hge.
  { clear. induction vs as [|w vs IH]; intros n; simpl; [lia|]. specialize (IH (N.max n (tv_high_qc_round w))). lia. }
  revert n. induction vs as [|w vs IH]; intros n Hin; [by apply not_elem_of_nil in Hin|].
  simpl. apply elem_of_cons in Hin as [->|Hin]; [|by apply IH].
  specialize (Hge vs (N.max n (tv_high_qc_round w))). lia.
Qed.

(** Every reported round is at most the maximum. *)
Lemma MaxHighQCRound_ge tc v :
  v ∈ TimeoutCert_GetVotes tc -> (tv_high_qc_round v <= MaxHighQCRound tc)%N.
Proof. apply MaxHighQCRound_acc. Qed.

(** The maximum is reported by some vote, or nothing was reported at all. *)
Lemma MaxHighQCRound_attained tc :
  MaxHighQCRound tc = 0%N \/
  exists v, v ∈ TimeoutCert_GetVotes tc /\ MaxHighQCRound tc = tv_high_qc_round v.
Proof.
  unfold MaxHighQCRound. generalize (TimeoutCert_GetVotes tc) as vs. intros vs.
  assert (forall n, fold_left (fun h v => N.max h (tv_high_qc_round v)) vs n = n \/
    exists v, v ∈ vs /\ fold_left (fun h v => N.max h (tv_high_qc_round v)) vs n = tv_high_qc_round v) as H.
  { induction vs as [|w vs IH]; intros n; simpl; [by left|].
    destruct (IH (N.max n (tv_high_qc_round w))) as [->|(v & Hv & ->)].
    - destruct (N.max_spec n (tv_high_qc_round w)) as [[_ ->]|[_ ->]]; [right|by left].
      exists w. split; [by left|done].
    - right. exists v. split; [by right|done]. }
  apply H.
Qed.

Lemma higher_round a b : QCRound (higher a b) = N.max (QCRound a) (QCRound b).
Proof. unfold higher. destruct (N.ltb_spec (QCRound b) (QCRound a)); lia. Qed.

Lemma wellFormed_round0 q tc : wellFormed 0 q tc = false.
Proof. reflexivity. Qed.

Lemma genesisBlock_id_len : length (b_id genesisBlock) = hashLen.
Proof. apply length_sha256. Qed.

Lemma genesisBlock_id_nonzero : b_id genesisBlock ≠ zeroHash.
Proof. intros H. apply (f_equal (fun x => be_val x)) in H. vm_compute in H. done. Qed.

Lemma genesisQC_round : QCRound (Some genesisQC) = 0%N.
Proof. reflexivity. Qed.

Lemma genesisQC_id : VoteInfo_GetId (QuorumCert_GetVoteInfo (Some genesisQC)) = b_id genesisBlock.
Proof. reflexivity. Qed.

#[export] Hint Resolve length_zeroHash genesisBlock_id_len : diem.
