(* ===== verification/Quorum.v ===== *)
(** [diem/quorum.go] and the [Crypto] interface of [diem/seams.go]: fault and
    quorum thresholds, signing and verification of digests. *)

From stdpp Require Import prelude gmap list.
From Stdlib Require Import NArith ZArith Lia Strings.Byte.
From S2P Require Import Prelude Sha256 Proto Hash.

(** ** The [Crypto] interface

    [Sign] may fail and is randomised: a value of this type is the signer as it
    behaves during one event, so that signing the same digest in two events may
    give two signatures. [Verify] is the same for the whole life of a replica. *)
Record Crypto := MkCrypto {
  Sign : bytes -> option bytes;
  Verify : uint32 -> bytes -> bytes -> bool;
}.

(** ** Thresholds; Go's [int] division truncates toward zero. *)

Definition Faulty (n : Z) : Z := Z.quot (n - 1) 3.
Definition QuorumSize (n : Z) : Z := Z.quot (n + Faulty n + 2) 2.

Definition verifySig (c : Crypto) (dig : bytes) (sig : option Signature) : bool :=
  Verify c (Signature_GetSigner sig) dig (Signature_GetSig sig).

Definition sign (c : Crypto) (id : uint32) (dig : bytes) : option Signature :=
  sig ← Sign c dig; Some (MkSignature id sig).

(** ** Arithmetic of the thresholds *)

Section thresholds.
Context (n : Z) (Hn : (1 <= n)%Z).

Lemma Faulty_div : Faulty n = ((n - 1) / 3)%Z.
Proof. unfold Faulty. apply Z.quot_div_nonneg; lia. Qed.

Lemma Faulty_bounds : (0 <= Faulty n /\ 3 * Faulty n < n)%Z.
Proof. rewrite Faulty_div. split; [apply Z.div_pos; lia|]. pose proof (Z.mul_div_le (n - 1) 3). lia. Qed.

Lemma QuorumSize_bounds : (n + Faulty n + 1 <= 2 * QuorumSize n <= n + Faulty n + 2)%Z.
Proof.
  pose proof Faulty_bounds. unfold QuorumSize. rewrite Z.quot_div_nonneg by lia.
  pose proof (Z_div_mod_eq_full (n + Faulty n + 2) 2). pose proof (Z.mod_pos_bound (n + Faulty n + 2) 2). lia.
Qed.

(** The replicas that are not faulty are enough for a quorum. *)
Lemma QuorumSize_live : (QuorumSize n <= n - Faulty n)%Z.
Proof.
  pose proof Faulty_bounds. pose proof QuorumSize_bounds. pose proof (Z.mul_succ_div_gt (n - 1) 3).
  rewrite <- Faulty_div in *. lia.
Qed.

(** A quorum is more than the faulty replicas. *)
Lemma QuorumSize_gt_faulty : (Faulty n < QuorumSize n)%Z.
Proof. pose proof Faulty_bounds. pose proof QuorumSize_bounds. lia. Qed.
End thresholds.

(** Two quorums of validators share more than [Faulty] of them. *)
Lemma quorum_overlap (V Q1 Q2 : gset uint32) :
  Q1 ⊆ V -> Q2 ⊆ V -> (1 <= Z.of_nat (size V))%Z ->
  (QuorumSize (Z.of_nat (size V)) <= Z.of_nat (size Q1))%Z ->
  (QuorumSize (Z.of_nat (size V)) <= Z.of_nat (size Q2))%Z ->
  (Faulty (Z.of_nat (size V)) + 1 <= Z.of_nat (size (Q1 ∩ Q2)))%Z.
Proof.
  intros H1 H2 Hn HQ1 HQ2. pose proof (QuorumSize_bounds _ Hn).
  pose proof (intersection_size_lower V Q1 Q2 H1 H2). lia.
Qed.

(** So, with at most [Faulty] Byzantine validators, they share an honest one. *)
Lemma quorum_honest_overlap (V B Q1 Q2 : gset uint32) :
  Q1 ⊆ V -> Q2 ⊆ V -> (1 <= Z.of_nat (size V))%Z ->
  (Z.of_nat (size B) <= Faulty (Z.of_nat (size V)))%Z ->
  (QuorumSize (Z.of_nat (size V)) <= Z.of_nat (size Q1))%Z ->
  (QuorumSize (Z.of_nat (size V)) <= Z.of_nat (size Q2))%Z ->
  exists i, i ∈ Q1 /\ i ∈ Q2 /\ i ∉ B.
Proof.
  intros H1 H2 Hn HB HQ1 HQ2. pose proof (quorum_overlap V Q1 Q2 H1 H2 Hn HQ1 HQ2).
  destruct (size_gt_witness (Q1 ∩ Q2) B) as (i & Hi & HiB); [lia|].
  exists i. set_solver.
Qed.

Lemma quorum_honest (V B Q : gset uint32) :
  Q ⊆ V -> (1 <= Z.of_nat (size V))%Z ->
  (Z.of_nat (size B) <= Faulty (Z.of_nat (size V)))%Z ->
  (QuorumSize (Z.of_nat (size V)) <= Z.of_nat (size Q))%Z ->
  exists i, i ∈ Q /\ i ∉ B.
Proof.
  intros HV Hn HB HQ. pose proof (QuorumSize_gt_faulty _ Hn).
  apply size_gt_witness. lia.
Qed.

(** ** Properties *)

(** The quorum is the smallest size for which two quorums share one
    replica more than the faults tolerated; for n = 3f+1 it is 2f+1; and the
    replicas that are not faulty always form one. *)
Theorem QuorumSize_spec (n : Z) (Hn : (1 <= n)%Z) :
  (n + (Faulty n + 1) <= 2 * QuorumSize n)%Z /\
  (forall q, q < QuorumSize n -> 2 * q < n + (Faulty n + 1))%Z /\
  (QuorumSize n <= n - Faulty n)%Z /\
  (forall f, n = 3 * f + 1 -> Faulty n = f /\ QuorumSize n = 2 * f + 1)%Z.
Proof.
  pose proof (QuorumSize_bounds n Hn). pose proof (QuorumSize_live n Hn).
  split; [lia|]. split; [intros; lia|]. split; [done|].
  intros f ->. assert (Faulty (3 * f + 1) = f) as Hf.
  { rewrite Faulty_div by lia. replace (3 * f + 1 - 1)%Z with (f * 3)%Z by lia. by apply Z.div_mul. }
  split; [done|]. lia.
Qed.

Lemma QuorumSize_spec_witness :
  (1 <= 7)%Z /\ Faulty 7 = 2%Z /\ QuorumSize 7 = 5%Z /\ (QuorumSize 7 <= 7 - Faulty 7)%Z.
Proof.
  split; [lia|]. destruct (QuorumSize_spec 7) as (_ & _ & Hl & Hf); [lia|].
  destruct (Hf 2%Z) as [? ?]; [lia|]. done.
Defined.

(** Any two quorums of a validator set with at most [Faulty]
    Byzantine members have an honest member in common. *)
Theorem quorums_share_honest (V B Q1 Q2 : gset uint32) :
  Q1 ⊆ V -> Q2 ⊆ V -> (1 <= Z.of_nat (size V))%Z ->
  (Z.of_nat (size B) <= Faulty (Z.of_nat (size V)))%Z ->
  (QuorumSize (Z.of_nat (size V)) <= Z.of_nat (size Q1))%Z ->
  (QuorumSize (Z.of_nat (size V)) <= Z.of_nat (size Q2))%Z ->
  exists i, i ∈ Q1 /\ i ∈ Q2 /\ i ∈ V /\ i ∉ B.
Proof.
  intros H1 H2 Hn HB HQ1 HQ2.
  destruct (quorum_honest_overlap V B Q1 Q2) as (i & ? & ? & ?); [done..|].
  exists i. set_solver.
Qed.

Lemma quorums_share_honest_witness :
  exists i, i ∈ ({[1; 2; 3]} : gset uint32)%N /\ i ∈ ({[2; 3; 4]} : gset uint32)%N /\
            i ∈ ({[1; 2; 3; 4]} : gset uint32)%N /\ i ∉ ({[2]} : gset uint32)%N.
Proof.
  apply (quorums_share_honest {[1; 2; 3; 4]}%N {[2]}%N {[1; 2; 3]}%N {[2; 3; 4]}%N);
    [set_solver|set_solver|vm_compute; congruence..].
Defined.
