(* ===== verification/Verify.v ===== *)
(** [diem/verify.go]: authentication of inbound messages, a function of the
    message and the replica set alone. Also [consecutive] and [validBlockID] of
    [diem/safety.go], which the verifier uses. *)

From stdpp Require Import prelude gmap list sorting.
From Stdlib Require Import NArith ZArith Lia Strings.Byte.
From S2P Require Import Prelude Sha256 Proto Hash Types Quorum.

Record Verifier := NewVerifier {
  v_crypto : Crypto;
  v_quorum : Z;
}.

Definition consecutive (blockRound round : uint64) : bool := (round +u64 1 =? blockRound)%N.

Definition validBlockID (b : Block) : bool :=
  bool_decide (blockID (b_author b) (b_round b) (b_payload b) (b_qc b) = b_id b).

Fixpoint validHashes (hs : list bytes) : bool :=
  match hs with
  | [] => true
  | h :: hs => if negb (length h =? hashLen) then false else validHashes hs
  end.

Definition validVote (v : option VoteInfo) (l : option LedgerCommitInfo) : bool :=
  validHashes [VoteInfo_GetId v; VoteInfo_GetParentId v; VoteInfo_GetExecStateId v;
               LedgerCommitInfo_GetCommitStateId l; LedgerCommitInfo_GetVoteInfoHash l].

(** The loop of [verifyCert]; [prev] is [sigs[i-1]]. *)
Fixpoint verifyCert_loop (v : Verifier) (dig : bytes) (prev : option Signature)
    (sigs : list Signature) : bool :=
  match sigs with
  | [] => true
  | sig :: rest =>
      if match prev with Some p => (sg_signer sig <=? sg_signer p)%N | None => false end
         || negb (verifySig (v_crypto v) dig (Some sig))
      then false
      else verifyCert_loop v dig (Some sig) rest
  end.

Definition verifyCert (v : Verifier) (dig : bytes) (sigs : list Signature) : bool :=
  if verifyCert_loop v dig None sigs
  then (v_quorum v <=? Z.of_nat (length sigs))%Z else false.

Definition VerifyQC (v : Verifier) (qc : option QuorumCert) : bool :=
  if bool_decide (qc = None) || negb (validVote (QuorumCert_GetVoteInfo qc) (QuorumCert_GetLedgerCommitInfo qc))
  then false
  else if (QCRound qc =? 0)%N then proto_Equal qc (Some genesisQC)
  else if negb (bool_decide (VoteInfoHash (QuorumCert_GetVoteInfo qc) =
                 LedgerCommitInfo_GetVoteInfoHash (QuorumCert_GetLedgerCommitInfo qc))) then false
  else if Commits (QuorumCert_GetLedgerCommitInfo qc) &&
          negb (consecutive (VoteInfo_GetRound (QuorumCert_GetVoteInfo qc))
                            (VoteInfo_GetParentRound (QuorumCert_GetVoteInfo qc))) then false
  else if negb (verifyCert v (LedgerCommitDigest (QuorumCert_GetLedgerCommitInfo qc))
                  (QuorumCert_GetSignatures qc)) then false
  else (Signature_GetSigner (QuorumCert_GetAuthorSig qc) =? QuorumCert_GetAuthor qc)%N &&
       verifySig (v_crypto v) (qcSigsDigest (QuorumCert_GetSignatures qc)) (QuorumCert_GetAuthorSig qc).

(** The loop of [VerifyTC]; [prev] is [votes[i-1]]. *)
Fixpoint VerifyTC_loop (v : Verifier) (round : uint64) (prev : option TimeoutVote)
    (votes : list TimeoutVote) : bool :=
  match votes with
  | [] => true
  | vote :: rest =>
      if match prev with
         | Some p => (Signature_GetSigner (tv_sig vote) <=? Signature_GetSigner (tv_sig p))%N
         | None => false
         end then false
      else if negb (verifySig (v_crypto v) (TimeoutDigest round (tv_high_qc_round vote)) (tv_sig vote))
      then false
      else VerifyTC_loop v round (Some vote) rest
  end.

Definition VerifyTC (v : Verifier) (tc : option TimeoutCert) : bool :=
  match tc with
  | None => true
  | Some t =>
      if (tc_round t =? 0)%N then false
      else if VerifyTC_loop v (tc_round t) None (tc_votes t)
      then (v_quorum v <=? Z.of_nat (length (tc_votes t)))%Z else false
  end.

Definition verifyCommitQC (v : Verifier) (qc : option QuorumCert) : bool :=
  bool_decide (qc = None) || VerifyQC v qc.

Definition VerifyProposal (v : Verifier) (p : ProposalMsg) : bool :=
  if negb (WellFormedProposal p) then false
  else
    let b := pm_block p in
    if (Block_GetRound b <=? QCRound (Block_GetQc b))%N then false
    else if negb (bool_decide (blockID (Block_GetAuthor b) (Block_GetRound b) (Block_GetPayload b) (Block_GetQc b)
                               = Block_GetId b)) then false
    else if negb (Signature_GetSigner (pm_sig p) =? pm_sender p)%N
            || negb (verifySig (v_crypto v) (Block_GetId b) (pm_sig p)) then false
    else VerifyQC v (Block_GetQc b) && verifyCommitQC v (pm_high_commit_qc p)
         && VerifyTC v (pm_last_round_tc p).

Definition VerifyTimeout (v : Verifier) (m : TimeoutMsg) : bool :=
  if negb (WellFormedTimeout m) then false
  else
    let t := tm_tmo_info m in
    if negb (Signature_GetSigner (TimeoutInfo_GetSig t) =? TimeoutInfo_GetSender t)%N
       || negb (verifySig (v_crypto v)
                  (TimeoutDigest (TimeoutInfo_GetRound t) (QCRound (TimeoutInfo_GetHighQc t)))
                  (TimeoutInfo_GetSig t)) then false
    else VerifyQC v (TimeoutInfo_GetHighQc t) && verifyCommitQC v (tm_high_commit_qc m)
         && VerifyTC v (tm_last_round_tc m).

Definition VerifyVote (v : Verifier) (m : VoteMsg) : bool :=
  if negb (Signature_GetSigner (vm_sig m) =? vm_sender m)%N
     || negb (validVote (vm_vote_info m) (vm_ledger_commit_info m)) then false
  else if negb (bool_decide (VoteInfoHash (vm_vote_info m) =
                  LedgerCommitInfo_GetVoteInfoHash (vm_ledger_commit_info m))) then false
  else if negb (verifySig (v_crypto v) (LedgerCommitDigest (vm_ledger_commit_info m)) (vm_sig m)) then false
  else verifyCommitQC v (vm_high_commit_qc m).

(** The reply of a peer is non-nil. *)
Definition VerifyBlock (v : Verifier) (b : Block) (id : bytes) : bool :=
  bool_decide (b_id b = id) && validBlockID b.

(** ** Verifiers of different replicas

    A verifier carries its replica's signer; what it accepts depends only on how
    it verifies signatures and on the quorum. *)
Definition same_verifier (v v' : Verifier) : Prop :=
  (forall i d s, Verify (v_crypto v) i d s = Verify (v_crypto v') i d s) /\ v_quorum v = v_quorum v'.

Global Instance same_verifier_equiv : Equivalence same_verifier.
Proof.
  unfold same_verifier. split; [done|intros v v' [E ?]; by split|].
  intros v1 v2 v3 [E ?] [E' ?]. split; [|congruence]. intros i d s. by rewrite E.
Qed.

Section same_verifier.
Context (v v' : Verifier) (Hv : same_verifier v v').

Lemma verifySig_same d sig : verifySig (v_crypto v) d sig = verifySig (v_crypto v') d sig.
Proof. destruct Hv as [E _]. unfold verifySig. by rewrite E. Qed.
Lemma verifyCert_same d sigs : verifyCert v d sigs = verifyCert v' d sigs.
Proof.
  assert (forall prev, verifyCert_loop v d prev sigs = verifyCert_loop v' d prev sigs) as Hl.
  { induction sigs as [|sg sigs IH]; intros prev; [done|]. simpl. by rewrite verifySig_same, IH. }
  unfold verifyCert. rewrite Hl. by destruct Hv as [_ ->].
Qed.
Lemma VerifyQC_same qc : VerifyQC v qc = VerifyQC v' qc.
Proof. unfold VerifyQC. by rewrite verifyCert_same, verifySig_same. Qed.
Lemma VerifyTC_same tc : VerifyTC v tc = VerifyTC v' tc.
Proof.
  destruct tc as [t|]; [|done]. simpl. destruct (_ =? 0)%N; [done|].
  assert (forall votes prev, VerifyTC_loop v (tc_round t) prev votes = VerifyTC_loop v' (tc_round t) prev votes) as Hl;
    [|rewrite Hl; by destruct Hv as [_ ->]].
  intros votes. induction votes as [|w votes IH]; intros prev; [done|]. simpl. by rewrite verifySig_same, IH.
Qed.
Lemma verifyCommitQC_same qc : verifyCommitQC v qc = verifyCommitQC v' qc.
Proof. unfold verifyCommitQC. by rewrite VerifyQC_same. Qed.
End same_verifier.

Ltac same_verifier := intros ? ? Hv ? ? ->;
  by rewrite ?(verifySig_same _ _ Hv), ?(VerifyQC_same _ _ Hv), ?(VerifyTC_same _ _ Hv), ?(verifyCommitQC_same _ _ Hv).

Global Instance VerifyQC_proper : Proper (same_verifier ==> (=) ==> (=)) VerifyQC.
Proof. same_verifier. Qed.
Global Instance VerifyTC_proper : Proper (same_verifier ==> (=) ==> (=)) VerifyTC.
Proof. same_verifier. Qed.
Global Instance verifyCommitQC_proper : Proper (same_verifier ==> (=) ==> (=)) verifyCommitQC.
Proof. same_verifier. Qed.
Global Instance VerifyProposal_proper : Proper (same_verifier ==> (=) ==> (=)) VerifyProposal.
Proof. unfold VerifyProposal. same_verifier. Qed.
Global Instance VerifyVote_proper : Proper (same_verifier ==> (=) ==> (=)) VerifyVote.
Proof. unfold VerifyVote. same_verifier. Qed.
Global Instance VerifyTimeout_proper : Proper (same_verifier ==> (=) ==> (=)) VerifyTimeout.
Proof. unfold VerifyTimeout. same_verifier. Qed.

(** ** The two certificate loops are one scan *)

Section scan.
Context {A : Type} (key : A -> N) (ok : A -> bool).

Fixpoint scan (prev : option A) (l : list A) : bool :=
  match l with
  | [] => true
  | x :: l =>
      match prev with Some p => (key p <? key x)%N | None => true end && ok x && scan (Some x) l
  end.

Lemma scan_from p l :
  scan (Some p) l = true <-> Sorted (key_lt key) (p :: l) /\ Forall (fun x => ok x = true) l.
Proof.
  revert p. induction l as [|x l IH]; intros p; cbn [scan].
  - split; [intros _; split; [repeat constructor|constructor]|done].
  - rewrite !andb_true_iff, IH, N.ltb_lt, Forall_cons. split.
    + intros [[? ?] [? ?]]. split; [constructor; [done|by constructor]|done].
    + intros [Hs [? ?]]. apply Sorted_inv in Hs as [? Hh]. apply HdRel_inv in Hh. done.
Qed.

Lemma scan_spec l :
  scan None l = true <-> StronglySorted (key_lt key) l /\ Forall (fun x => ok x = true) l.
Proof.
  assert (Sorted (key_lt key) l <-> StronglySorted (key_lt key) l) as <-.
  { split; [apply Sorted_StronglySorted; apply _|apply StronglySorted_Sorted]. }
  destruct l as [|x l]; cbn [scan].
  - split; [intros _; split; constructor|done].
  - rewrite !andb_true_iff, scan_from, Forall_cons. tauto.
Qed.
End scan.

Lemma verifyCert_loop_scan v dig prev sigs :
  verifyCert_loop v dig prev sigs =
  scan sg_signer (fun s => verifySig (v_crypto v) dig (Some s)) prev sigs.
Proof.
  revert prev. induction sigs as [|s sigs IH]; intros prev; cbn [verifyCert_loop scan]; [done|].
  rewrite IH. destruct prev as [p|]; [rewrite N.leb_antisym; destruct (_ <? _)%N|];
    destruct (verifySig _ _ _); done.
Qed.

Definition tv_signer (v : TimeoutVote) : uint32 := Signature_GetSigner (tv_sig v).

Lemma VerifyTC_loop_scan v round prev votes :
  VerifyTC_loop v round prev votes =
  scan tv_signer (fun t => verifySig (v_crypto v) (TimeoutDigest round (tv_high_qc_round t)) (tv_sig t))
    prev votes.
Proof.
  revert prev. induction votes as [|s votes IH]; intros prev; cbn [VerifyTC_loop scan]; [done|].
  rewrite IH. unfold tv_signer. destruct prev as [p|]; [rewrite N.leb_antisym; destruct (_ <? _)%N|];
    destruct (verifySig _ _ _); done.
Qed.

Lemma verifyCert_spec v dig sigs :
  verifyCert v dig sigs = true <->
  StronglySorted (key_lt sg_signer) sigs /\
  Forall (fun s => verifySig (v_crypto v) dig (Some s) = true) sigs /\
  (v_quorum v <= Z.of_nat (length sigs))%Z.
Proof.
  unfold verifyCert. rewrite verifyCert_loop_scan.
  pose proof (scan_spec sg_signer (fun s => verifySig (v_crypto v) dig (Some s)) sigs) as H.
  destruct (scan _ _ _ _); [rewrite Z.leb_le|]; intuition congruence.
Qed.

(** ** What an accepted certificate is *)

Lemma validVote_spec v l :
  validVote v l = true <->
  length (VoteInfo_GetId v) = hashLen /\ length (VoteInfo_GetParentId v) = hashLen /\
  length (VoteInfo_GetExecStateId v) = hashLen /\
  length (LedgerCommitInfo_GetCommitStateId l) = hashLen /\
  length (LedgerCommitInfo_GetVoteInfoHash l) = hashLen.
Proof.
  unfold validVote. cbn [validHashes].
  repeat match goal with |- context [negb (?a =? ?b)%nat] => destruct (Nat.eqb_spec a b); cbn [negb] end;
    intuition congruence.
Qed.

(** A certificate of a round above genesis that the verifier accepts. *)
Record qc_certified (v : Verifier) (qc : QuorumCert) : Prop := {
  qcv_hashes : validVote (qc_vote_info qc) (qc_ledger_commit_info qc) = true;
  qcv_binds : VoteInfoHash (qc_vote_info qc) =
              LedgerCommitInfo_GetVoteInfoHash (qc_ledger_commit_info qc);
  qcv_two_chain : Commits (qc_ledger_commit_info qc) = true ->
              consecutive (VoteInfo_GetRound (qc_vote_info qc))
                          (VoteInfo_GetParentRound (qc_vote_info qc)) = true;
  qcv_sorted : StronglySorted (key_lt sg_signer) (qc_signatures qc);
  qcv_signed : Forall (fun s => verifySig (v_crypto v)
                 (LedgerCommitDigest (qc_ledger_commit_info qc)) (Some s) = true) (qc_signatures qc);
  qcv_quorum : (v_quorum v <= Z.of_nat (length (qc_signatures qc)))%Z;
  qcv_author : Signature_GetSigner (qc_author_sig qc) = qc_author qc;
  qcv_author_signed : verifySig (v_crypto v) (qcSigsDigest (qc_signatures qc)) (qc_author_sig qc) = true;
}.

Lemma VerifyQC_genesis v : VerifyQC v (Some genesisQC) = true.
Proof.
  unfold VerifyQC. assert (validVote (QuorumCert_GetVoteInfo (Some genesisQC)) (QuorumCert_GetLedgerCommitInfo (Some genesisQC)) = true) as ->.
  { apply validVote_spec. repeat split. }
  rewrite bool_decide_eq_false_2, genesisQC_round by done. cbn [orb negb].
  unfold proto_Equal. by apply bool_decide_eq_true.
Qed.

Lemma VerifyQC_iff v qc :
  VerifyQC v (Some qc) = true <->
  (QCRound (Some qc) = 0%N /\ qc = genesisQC) \/ (QCRound (Some qc) ≠ 0%N /\ qc_certified v qc).
Proof.
  split.
  - unfold VerifyQC. cbn [QuorumCert_GetVoteInfo QuorumCert_GetLedgerCommitInfo QuorumCert_GetSignatures
      QuorumCert_GetAuthor QuorumCert_GetAuthorSig].
    destruct (validVote _ _) eqn:Hv; cbn [negb orb]; [|by destruct (bool_decide _)].
    rewrite bool_decide_eq_false_2 by done. cbn [orb].
    destruct (N.eqb_spec (QCRound (Some qc)) 0); [intros H; unfold proto_Equal in H; bools; left; by injection H|].
    repeat case_match; try done. intros Hlast. bools. right. split; [done|].
    match goal with H : verifyCert _ _ _ = true |- _ => apply verifyCert_spec in H as (?&?&?) end.
    split; try done. intros Hc.
    match goal with H : _ && _ = false |- _ => rewrite Hc in H; cbn [andb] in H end. by bools.
  - intros [[_ ->]|[Hr [H1 H2 H3 H4 H5 H6 H7 H8]]]; [apply VerifyQC_genesis|].
    unfold VerifyQC. cbn [QuorumCert_GetVoteInfo QuorumCert_GetLedgerCommitInfo QuorumCert_GetSignatures
      QuorumCert_GetAuthor QuorumCert_GetAuthorSig].
    rewrite H1, bool_decide_eq_false_2 by done. cbn [orb negb].
    rewrite (proj2 (N.eqb_neq _ _) Hr), H2, bool_decide_eq_true_2 by done. cbn [negb].
    rewrite (proj2 (verifyCert_spec _ _ _)) by done. rewrite H7, N.eqb_refl, H8.
    destruct (Commits _); [rewrite H3|]; done.
Qed.

Lemma VerifyQC_some v qc : VerifyQC v qc = true -> exists q, qc = Some q.
Proof. destruct qc; [eauto|]. done. Qed.

Lemma VerifyQC_id_len v qc : VerifyQC v qc = true -> length (VoteInfo_GetId (QuorumCert_GetVoteInfo qc)) = hashLen.
Proof.
  intros H. destruct (VerifyQC_some v qc H) as [q ->]. apply VerifyQC_iff in H as [[_ ->]|[_ H]].
  - rewrite genesisQC_id. apply genesisBlock_id_len.
  - apply qcv_hashes, validVote_spec in H. apply H.
Qed.

Record tc_certified (v : Verifier) (tc : TimeoutCert) : Prop := {
  tcv_round : tc_round tc ≠ 0%N;
  tcv_sorted : StronglySorted (key_lt tv_signer) (tc_votes tc);
  tcv_signed : Forall (fun t => verifySig (v_crypto v)
                 (TimeoutDigest (tc_round tc) (tv_high_qc_round t)) (tv_sig t) = true) (tc_votes tc);
  tcv_quorum : (v_quorum v <= Z.of_nat (length (tc_votes tc)))%Z;
}.

Lemma VerifyTC_iff v tc : VerifyTC v (Some tc) = true <-> tc_certified v tc.
Proof.
  unfold VerifyTC. rewrite VerifyTC_loop_scan.
  pose proof (scan_spec tv_signer (fun t => verifySig (v_crypto v) (TimeoutDigest (tc_round tc) (tv_high_qc_round t)) (tv_sig t))
    (tc_votes tc)) as H.
  destruct (N.eqb_spec (tc_round tc) 0) as [E|E].
  - split; [done|]. by intros [].
  - destruct (scan _ _ _ _); [rewrite Z.leb_le|].
    + split; [intros; split; naive_solver|by intros []].
    + split; [done|]. intros [? ? ? ?]. naive_solver.
Qed.

(** ** Messages *)

Lemma verifyCommitQC_iff v qc :
  verifyCommitQC v qc = true <-> qc = None \/ VerifyQC v qc = true.
Proof. unfold verifyCommitQC. rewrite orb_true_iff, bool_decide_eq_true. done. Qed.

Lemma VerifyVote_iff v m :
  VerifyVote v m = true <->
  Signature_GetSigner (vm_sig m) = vm_sender m /\
  validVote (vm_vote_info m) (vm_ledger_commit_info m) = true /\
  VoteInfoHash (vm_vote_info m) = LedgerCommitInfo_GetVoteInfoHash (vm_ledger_commit_info m) /\
  verifySig (v_crypto v) (LedgerCommitDigest (vm_ledger_commit_info m)) (vm_sig m) = true /\
  verifyCommitQC v (vm_high_commit_qc m) = true.
Proof.
  unfold VerifyVote.
  destruct (N.eqb_spec (Signature_GetSigner (vm_sig m)) (vm_sender m)); cbn [negb orb]; [|naive_solver].
  destruct (validVote _ _); cbn [negb]; [|naive_solver].
  case_bool_decide; cbn [negb]; [|naive_solver].
  destruct (verifySig _ _ _); cbn [negb]; naive_solver.
Qed.

Lemma VerifyProposal_iff v p :
  VerifyProposal v p = true <->
  exists b q, pm_block p = Some b /\ b_qc b = Some q /\
    wellFormed (b_round b) (QCRound (Some q)) (pm_last_round_tc p) = true /\
    (QCRound (Some q) < b_round b)%N /\
    validBlockID b = true /\
    Signature_GetSigner (pm_sig p) = pm_sender p /\
    verifySig (v_crypto v) (b_id b) (pm_sig p) = true /\
    VerifyQC v (Some q) = true /\ verifyCommitQC v (pm_high_commit_qc p) = true /\
    VerifyTC v (pm_last_round_tc p) = true.
Proof.
  unfold VerifyProposal, WellFormedProposal, validBlockID.
  destruct (pm_block p) as [b|]; [|naive_solver].
  cbn [Block_GetRound Block_GetQc Block_GetAuthor Block_GetPayload Block_GetId].
  destruct (b_qc b) as [q|] eqn:Hq; [|naive_solver].
  destruct (wellFormed _ _ _) eqn:Hw; cbn [negb]; [|naive_solver].
  assert (forall b' q', Some b = Some b' /\ b_qc b' = Some q' <-> b' = b /\ q' = q) as Huniq.
  { intros b' q'. split; [intros [[= <-] E]; split; congruence|intros [-> ->]; done]. }
  transitivity ((QCRound (Some q) < b_round b)%N /\ blockID (b_author b) (b_round b) (b_payload b) (Some q) = b_id b /\
    Signature_GetSigner (pm_sig p) = pm_sender p /\ verifySig (v_crypto v) (b_id b) (pm_sig p) = true /\
    VerifyQC v (Some q) = true /\ verifyCommitQC v (pm_high_commit_qc p) = true /\
    VerifyTC v (pm_last_round_tc p) = true).
  - destruct (N.leb_spec (b_round b) (QCRound (Some q))); [split; [done|]; lia|].
    destruct (bool_decide_reflect (blockID (b_author b) (b_round b) (b_payload b) (Some q) = b_id b));
      cbn [negb]; [|naive_solver].
    destruct (N.eqb_spec (Signature_GetSigner (pm_sig p)) (pm_sender p)); cbn [negb orb]; [|naive_solver].
    destruct (verifySig _ _ _) eqn:Hs; cbn [negb]; [|naive_solver].
    rewrite !andb_true_iff. tauto.
  - split.
    + intros (? & ? & ? & ? & ? & ? & ?). exists b, q. rewrite bool_decide_eq_true, Hq. done.
    + intros (b' & q' & E1 & E2 & ? & ? & Hid & ? & ? & ? & ? & ?). destruct (proj1 (Huniq b' q')) as [-> ->]; [done|].
      rewrite bool_decide_eq_true, Hq in Hid. done.
Qed.

Lemma VerifyTimeout_iff v m :
  VerifyTimeout v m = true <->
  exists t q, tm_tmo_info m = Some t /\ ti_high_qc t = Some q /\
    wellFormed (ti_round t) (QCRound (Some q)) (tm_last_round_tc m) = true /\
    Signature_GetSigner (ti_sig t) = ti_sender t /\
    verifySig (v_crypto v) (TimeoutDigest (ti_round t) (QCRound (Some q))) (ti_sig t) = true /\
    VerifyQC v (Some q) = true /\ verifyCommitQC v (tm_high_commit_qc m) = true /\
    VerifyTC v (tm_last_round_tc m) = true.
Proof.
  unfold VerifyTimeout, WellFormedTimeout.
  destruct (tm_tmo_info m) as [t|]; [|naive_solver].
  cbn [TimeoutInfo_GetRound TimeoutInfo_GetHighQc TimeoutInfo_GetSender TimeoutInfo_GetSig].
  destruct (ti_high_qc t) as [q|] eqn:Hq; [|naive_solver].
  destruct (wellFormed _ _ _) eqn:Hw; cbn [negb]; [|naive_solver].
  destruct (N.eqb_spec (Signature_GetSigner (ti_sig t)) (ti_sender t)); cbn [negb orb]; [|naive_solver].
  destruct (verifySig _ _ _) eqn:Hs; cbn [negb]; [|naive_solver].
  rewrite !andb_true_iff. split.
  - intros [[? ?] ?]. exists t, q. naive_solver.
  - intros (b' & q' & ? & ? & ? & ? & ? & ? & ? & ?). by simplify_eq.
Qed.

(** ** Round arithmetic behind the checks *)

Lemma consecutive_iff a b :
  (b < two64)%N -> (a < two64)%N -> (a ≠ 0)%N -> consecutive a b = true <-> a = (b + 1)%N.
Proof.
  intros Hb Ha2 Ha. unfold consecutive. rewrite N.eqb_eq.
  destruct (succ64_cases b Hb) as [[-> ?]|[-> ->]]; [split; congruence|].
  split; [congruence|]. intros ->. exfalso. pose proof two64_val. lia.
Qed.

Lemma wellFormed_iff r q tc :
  (q < two64)%N -> (r < two64)%N -> (forall t, tc = Some t -> tc_round t < two64)%N ->
  wellFormed r q tc = true <->
  (r ≠ 0)%N /\ ((r = q + 1 /\ tc = None)%N \/
                (r ≠ q + 1 /\ exists t, tc = Some t /\ r = tc_round t + 1)%N).
Proof.
  intros Hq Hr Ht. unfold wellFormed.
  destruct (N.eqb_spec r 0) as [->|Hr0]; [naive_solver|].
  pose proof (consecutive_iff r q Hq Hr Hr0) as Hc. unfold consecutive in Hc.
  destruct (N.eqb_spec (q +u64 1) r) as [E|E].
  - rewrite bool_decide_eq_true. assert (r = q + 1)%N by tauto. naive_solver.
  - assert (r ≠ q + 1)%N by (intros ?; assert (false = true) by tauto; done).
    destruct tc as [t|]; [|naive_solver].
    pose proof (consecutive_iff r (tc_round t) (Ht t eq_refl) Hr Hr0) as Hct.
    unfold consecutive in Hct. simpl. rewrite Hct. naive_solver.
Qed.

(** Signers of an accepted certificate, as a set: a quorum. *)
Definition signers (sigs : list Signature) : gset uint32 := list_to_set (sg_signer <$> sigs).
Definition tc_signers (votes : list TimeoutVote) : gset uint32 := list_to_set (tv_signer <$> votes).

Lemma qc_signers_size v qc :
  qc_certified v qc -> (v_quorum v <= Z.of_nat (size (signers (qc_signatures qc))))%Z.
Proof.
  intros H. unfold signers. rewrite nodup_list_to_set_size.
  - rewrite length_fmap. by apply qcv_quorum.
  - eapply nodup_of_strict, qcv_sorted, H.
Qed.

Lemma tc_signers_size v tc :
  tc_certified v tc -> (v_quorum v <= Z.of_nat (size (tc_signers (tc_votes tc))))%Z.
Proof.
  intros H. unfold tc_signers. rewrite nodup_list_to_set_size.
  - rewrite length_fmap. by apply tcv_quorum.
  - eapply nodup_of_strict, tcv_sorted, H.
Qed.

Lemma qc_signer_verifies v qc i :
  qc_certified v qc -> i ∈ signers (qc_signatures qc) ->
  exists s, s ∈ qc_signatures qc /\ sg_signer s = i /\
    Verify (v_crypto v) i (LedgerCommitDigest (qc_ledger_commit_info qc)) (sg_sig s) = true.
Proof.
  intros H Hi. unfold signers in Hi. rewrite elem_of_list_to_set in Hi.
  apply list_elem_of_fmap_1 in Hi as (s & -> & Hs). exists s. split; [done|]. split; [done|].
  by eapply Forall_forall in Hs; [|apply (qcv_signed _ _ H)].
Qed.

Lemma tc_signer_verifies v tc i :
  tc_certified v tc -> i ∈ tc_signers (tc_votes tc) ->
  exists t, t ∈ tc_votes tc /\ tv_signer t = i /\
    Verify (v_crypto v) i (TimeoutDigest (tc_round tc) (tv_high_qc_round t)) (Signature_GetSig (tv_sig t)) = true.
Proof.
  intros H Hi. unfold tc_signers in Hi. rewrite elem_of_list_to_set in Hi.
  apply list_elem_of_fmap_1 in Hi as (s & -> & Hs). exists s. split; [done|]. split; [done|].
  by eapply Forall_forall in Hs; [|apply (tcv_signed _ _ H)].
Qed.

(** ** Properties *)

(** C24. What the certificate checks accept. [VerifyQC]: the hardcoded genesis
    certificate, and apart from it exactly the certificates of a positive round
    whose hash fields are well sized, whose commit info binds the vote info, which
    commit only over consecutive rounds, and which carry at least a quorum of
    valid signatures in strictly increasing signer order together with the
    author's signature over that set. [VerifyTC]: the absent certificate, and
    apart from it exactly those of a positive round with at least a quorum of
    signers in strictly increasing order, each of which signed the round together
    with the high-QC round reported beside its signature. Either way the signers
    of an accepted certificate are a set of at least a quorum. *)
Theorem certificate_checks_spec (v : Verifier) :
  (forall qc, VerifyQC v qc = true <->
     exists q, qc = Some q /\
       ((QCRound qc = 0%N /\ q = genesisQC) \/ (QCRound qc ≠ 0%N /\ qc_certified v q))) /\
  (forall tc, VerifyTC v tc = true <-> forall t, tc = Some t -> tc_certified v t) /\
  (forall q, qc_certified v q -> (v_quorum v <= Z.of_nat (size (signers (qc_signatures q))))%Z) /\
  (forall t, tc_certified v t -> (v_quorum v <= Z.of_nat (size (tc_signers (tc_votes t))))%Z).
Proof.
  split; [|split; [|split]].
  - intros qc. split.
    + intros H. destruct (VerifyQC_some v qc H) as [q ->]. exists q. split; [done|]. by apply VerifyQC_iff.
    + intros (q & -> & H). by apply VerifyQC_iff.
  - intros [t|]; [|split; [by intros|done]]. rewrite VerifyTC_iff. split; [by intros ? ? [= <-]|auto].
  - apply qc_signers_size.
  - apply tc_signers_size.
Qed.

(** A crypto that accepts the signature [01] of replicas 1 to 4, for witnesses. *)
Definition demo_crypto : Crypto :=
  MkCrypto (fun _ => Some [x01]) (fun i _ s => ((1 <=? i) && (i <=? 4))%N && bool_decide (s = [x01])).
Definition demo_verifier : Verifier := NewVerifier demo_crypto (QuorumSize 4).
Definition demo_sigs : list Signature := (fun i => MkSignature i [x01]) <$> [1; 2; 4]%N.

(** A certificate for a round-1 block over genesis that commits genesis. *)
Definition demo_block : Block := NewBlock 2 1 [[x61]] (Some genesisQC).
Definition demo_vote_info : VoteInfo := MkVoteInfo (b_id demo_block) 1 (b_id genesisBlock) 0 (replicate hashLen x07).
Definition demo_commit : LedgerCommitInfo := MkLedgerCommitInfo (replicate hashLen x09) (VoteInfoHash (Some demo_vote_info)).
Definition demo_qc : QuorumCert :=
  MkQuorumCert (Some demo_vote_info) (Some demo_commit) demo_sigs 3 (Some (MkSignature 3 [x01])).

(** C28. An accepted proposal carries a block of positive round whose id
    is the hash of its fields and which extends a certificate of a lower round;
    that certificate is of the previous round and no timeout certificate rides
    along, or a valid timeout certificate of the previous round does. *)
Theorem VerifyProposal_sound (v : Verifier) (p : ProposalMsg) (b : Block) :
  pm_block p = Some b ->
  (b_round b < two64)%N -> (forall t, pm_last_round_tc p = Some t -> tc_round t < two64)%N ->
  VerifyProposal v p = true ->
  exists q, b_qc b = Some q /\ VerifyQC v (Some q) = true /\
    (QCRound (Some q) < b_round b)%N /\
    b_id b = blockID (b_author b) (b_round b) (b_payload b) (b_qc b) /\
    Verify (v_crypto v) (pm_sender p) (b_id b) (Signature_GetSig (pm_sig p)) = true /\
    ((b_round b = QCRound (Some q) + 1 /\ pm_last_round_tc p = None)%N \/
     (exists t, pm_last_round_tc p = Some t /\ tc_certified v t /\ b_round b = tc_round t + 1)%N).
Proof.
  intros Hb Hr Ht H. apply VerifyProposal_iff in H as (b' & q & Hb' & Hq & Hw & Hlt & Hid & Hs & Hv & Hqc & _ & Htc).
  assert (b' = b) as -> by congruence. exists q.
  apply wellFormed_iff in Hw as [_ Hw]; [|lia|done|done].
  unfold validBlockID in Hid. bools. rewrite Hq. split_and!; try done; [by rewrite Hq in Hid| |].
  - unfold verifySig in Hv. by rewrite Hs in Hv.
  - destruct Hw as [?|(_ & t & E & ?)]; [by left|right]. exists t. rewrite E in Htc. by rewrite VerifyTC_iff in Htc.
Qed.

Definition demo_proposal : ProposalMsg :=
  MkProposalMsg (Some demo_block) None None 2 (Some (MkSignature 2 [x01])).

Lemma VerifyProposal_sound_witness :
  VerifyProposal demo_verifier demo_proposal = true /\
  exists q, b_qc demo_block = Some q /\ (QCRound (Some q) < b_round demo_block)%N.
Proof.
  assert (VerifyProposal demo_verifier demo_proposal = true) as H by (vm_compute; reflexivity).
  split; [exact H|].
  destruct (VerifyProposal_sound demo_verifier demo_proposal demo_block) as (q & ? & _ & ? & _);
    [reflexivity|vm_compute; reflexivity|discriminate|exact H|]. eauto.
Defined.

(** C25. The digest a vote signs binds the whole vote: two votes that pass
    the size and hash checks and agree on the digest agree on the commit info
    and on every field of the vote info, unless the digests exhibit a
    collision of SHA-256 on the very strings hashed. *)
Theorem vote_digest_binds (vi vi' : option VoteInfo) (l l' : option LedgerCommitInfo) :
  validVote vi l = true -> validVote vi' l' = true ->
  (VoteInfo_GetRound vi < two64 /\ VoteInfo_GetParentRound vi < two64)%N ->
  (VoteInfo_GetRound vi' < two64 /\ VoteInfo_GetParentRound vi' < two64)%N ->
  VoteInfoHash vi = LedgerCommitInfo_GetVoteInfoHash l ->
  VoteInfoHash vi' = LedgerCommitInfo_GetVoteInfoHash l' ->
  LedgerCommitDigest l = LedgerCommitDigest l' ->
  (same_commit_info l l' /\ same_vote_info vi vi') \/
  sha256_collision (LedgerCommitDigest_preimage l) (LedgerCommitDigest_preimage l') \/
  sha256_collision (VoteInfoHash_preimage vi) (VoteInfoHash_preimage vi').
Proof.
  intros (?&?&?&?&?)%validVote_spec (?&?&?&?&?)%validVote_spec [? ?] [? ?] Hb1 Hb2 Hd.
  apply sha256_eq_or_collision in Hd as [Hd|]; [|tauto].
  apply LedgerCommitDigest_preimage_inj in Hd as [Hc Hh]; [|congruence].
  pose proof Hh as Hv. rewrite <- Hb1, <- Hb2 in Hv.
  apply sha256_eq_or_collision in Hv as [Hv|]; [|tauto].
  apply VoteInfoHash_preimage_inj in Hv; [by left|done..].
Qed.

Lemma vote_digest_binds_witness :
  same_commit_info (Some demo_commit) (Some demo_commit) /\ same_vote_info (Some demo_vote_info) (Some demo_vote_info) \/
  sha256_collision (LedgerCommitDigest_preimage (Some demo_commit)) (LedgerCommitDigest_preimage (Some demo_commit)) \/
  sha256_collision (VoteInfoHash_preimage (Some demo_vote_info)) (VoteInfoHash_preimage (Some demo_vote_info)).
Proof.
  apply vote_digest_binds; vm_compute; repeat split; reflexivity.
Defined.

(** What a fetched block is bound to: two accepted blocks for one id
    agree on author, round, payload, parent id and the parent's signature set,
    or exhibit a collision of SHA-256. *)
Theorem VerifyBlock_binds (v : Verifier) (b b' : Block) (id : bytes) :
  (b_author b < two32 /\ b_author b' < two32)%N -> (b_round b < two64 /\ b_round b' < two64)%N ->
  payload_ok (b_payload b) -> payload_ok (b_payload b') ->
  sigs_ok (QuorumCert_GetSignatures (b_qc b)) -> sigs_ok (QuorumCert_GetSignatures (b_qc b')) ->
  length (parentID b) = length (parentID b') ->
  VerifyBlock v b id = true -> VerifyBlock v b' id = true ->
  (b_author b = b_author b' /\ b_round b = b_round b' /\ b_payload b = b_payload b' /\
   parentID b = parentID b' /\
   QuorumCert_GetSignatures (b_qc b) = QuorumCert_GetSignatures (b_qc b')) \/
  sha256_collision (blockID_preimage (b_author b) (b_round b) (b_payload b) (b_qc b))
                   (blockID_preimage (b_author b') (b_round b') (b_payload b') (b_qc b')).
Proof.
  intros [? ?] [? ?] ? ? ? ? ? Hv Hv'. unfold VerifyBlock, validBlockID in *. bools. subst.
  assert (sha256 (blockID_preimage (b_author b) (b_round b) (b_payload b) (b_qc b)) =
          sha256 (blockID_preimage (b_author b') (b_round b') (b_payload b') (b_qc b'))) as Hs
    by (unfold blockID in *; congruence).
  apply sha256_eq_or_collision in Hs as [Hs|]; [left|by right].
  by apply blockID_preimage_inj in Hs.
Qed.

Lemma VerifyBlock_binds_witness :
  VerifyBlock demo_verifier demo_block (b_id demo_block) = true /\
  (b_author demo_block = 2%N \/
   sha256_collision (blockID_preimage 2 1 [[x61]] (Some genesisQC)) (blockID_preimage 2 1 [[x61]] (Some genesisQC))).
Proof.
  split; [vm_compute; reflexivity|].
  destruct (VerifyBlock_binds demo_verifier demo_block demo_block (b_id demo_block)) as [(?&_)|[? _]];
    [vm_compute; split; reflexivity|vm_compute; split; reflexivity
    |split; [vm_compute; reflexivity|repeat constructor]|split; [vm_compute; reflexivity|repeat constructor]
    |split; [vm_compute; reflexivity|constructor]|split; [vm_compute; reflexivity|constructor]
    |reflexivity|vm_compute; reflexivity|vm_compute; reflexivity|left; reflexivity|contradiction].
Defined.

(** What it is not bound to: the rest of the parent certificate. For
    any block with a certificate there is another with the same id, accepted
    by the same check, whose certificate claims any round one likes. *)
Theorem VerifyBlock_qc_round_unbound (v : Verifier) (b : Block) (q : QuorumCert) (vi : VoteInfo) (r : uint64) :
  b_qc b = Some q -> qc_vote_info q = Some vi ->
  VerifyBlock v b (b_id b) = true ->
  exists b', VerifyBlock v b' (b_id b) = true /\ QCRound (b_qc b') = r.
Proof.
  intros Hq Hvi Hv.
  exists (MkBlock (b_author b) (b_round b) (b_payload b)
    (Some (MkQuorumCert (Some (MkVoteInfo (vi_id vi) r (vi_parent_id vi) (vi_parent_round vi) (vi_exec_state_id vi)))
       (qc_ledger_commit_info q) (qc_signatures q) (qc_author q) (qc_author_sig q))) (b_id b)).
  split; [|done]. unfold VerifyBlock, validBlockID in *. apply andb_true_iff in Hv as [_ Hid].
  bools. simpl. rewrite andb_true_iff, !bool_decide_eq_true. split; [done|].
  transitivity (blockID (b_author b) (b_round b) (b_payload b) (b_qc b)); [|done].
  rewrite Hq. unfold blockID, blockID_preimage. simpl. by rewrite Hvi.
Qed.

Lemma VerifyBlock_qc_round_unbound_witness :
  exists b', VerifyBlock demo_verifier b' (b_id demo_block) = true /\ QCRound (b_qc b') = 99%N.
Proof.
  apply (VerifyBlock_qc_round_unbound demo_verifier demo_block genesisQC
    (MkVoteInfo (b_id genesisBlock) 0 zeroHash 0 zeroHash) 99); [reflexivity|reflexivity|vm_compute; reflexivity].
Defined.

(** Nor is it bound to where the parent's id ends: the id is written to the hash
    without its length, and [VerifyBlock] does not check that it has a hash's
    length. For any parent there is a block over it, and a second one over another
    parent, of the same author, round and payload, that hashes the very same string
    and so passes as the first. *)
Theorem VerifyBlock_parent_unbound (v : Verifier) (author : uint32) (round : uint64) (payload : list bytes) (parent : bytes) :
  exists b b', b_author b = author /\ b_round b = round /\ b_payload b = payload /\ parentID b = parent /\
    VerifyBlock v b (b_id b) = true /\ VerifyBlock v b' (b_id b) = true /\
    b_author b' = author /\ b_round b' = round /\ b_payload b' = payload /\ parentID b' ≠ parent.
Proof.
  set (cert := fun id sigs => Some (MkQuorumCert (Some (MkVoteInfo id 0 zeroHash 0 zeroHash)) None sigs 0 None)).
  set (head := be64 1 ++ be32 0 ++ be64 8).
  assert (blockID_preimage author round payload (cert parent [MkSignature 0 (replicate 8 x00)]) =
          blockID_preimage author round payload (cert (parent ++ head) [])) as E.
  { unfold blockID_preimage. rewrite !writeSigs_enc. unfold Write.
    cbn [cert QuorumCert_GetVoteInfo VoteInfo_GetId qc_vote_info vi_id QuorumCert_GetSignatures qc_signatures].
    rewrite <- !(assoc_L (++)). reflexivity. }
  exists (NewBlock author round payload (cert parent [MkSignature 0 (replicate 8 x00)])).
  exists (NewBlock author round payload (cert (parent ++ head) [])).
  unfold NewBlock, VerifyBlock, validBlockID. cbn [b_author b_round b_payload b_id b_qc].
  assert (blockID author round payload (cert parent [MkSignature 0 (replicate 8 x00)]) =
          blockID author round payload (cert (parent ++ head) [])) as -> by (unfold blockID; by rewrite E).
  rewrite bool_decide_eq_true_2 by done. split_and!; try done.
  intros Hp. apply (f_equal length) in Hp. unfold parentID in Hp. cbn [b_qc cert QuorumCert_GetVoteInfo VoteInfo_GetId qc_vote_info vi_id] in Hp.
  rewrite length_app in Hp. change (length head) with 20 in Hp. lia.
Qed.
