(* ===== verification/Orphans.v ===== *)
(** The orphan sweep both [MemLedger.prune] and [BlockTree.prune] run: delete the
    entries whose parent is no longer in the map, pass after pass, until a pass
    deletes nothing. The passes see the deletions made earlier in the same
    pass, in whatever order the map is enumerated.

    The result is the greatest submap in which every entry is kept outright or
    has its parent, so it does not depend on the enumeration. *)

From stdpp Require Import prelude gmap list fin_maps.
From Stdlib Require Import Lia Strings.Byte.
From S2P Require Import Prelude.

Section sweep.
Context {V : Type} (parent : V -> bytes) (keep : bytes -> V -> bool).
Implicit Types (m S : gmap bytes V) (es : list (bytes * V)).

(** The body of the inner loop: [continue], or delete and set [changed]. *)
Definition sweep_entry (st : gmap bytes V * bool) (e : bytes * V) : gmap bytes V * bool :=
  if keep e.1 e.2 then st
  else match st.1 !! parent e.2 with
       | Some _ => st
       | None => (delete e.1 st.1, true)
       end.

Definition sweep_pass es m : gmap bytes V * bool := fold_left sweep_entry es (m, false).

(** [for changed := true; changed;]. *)
Fixpoint sweep_loop `{RangeOrder} (fuel : nat) m : gmap bytes V :=
  match fuel with
  | O => m
  | Datatypes.S fuel =>
      let '(m', changed) := sweep_pass (range m) m in
      if changed then sweep_loop fuel m' else m'
  end.

(** A pass that changes something deletes an entry, so one pass more than
    there are entries is enough. *)
Definition sweep `{RangeOrder} m : gmap bytes V := sweep_loop (Datatypes.S (size m)) m.

(** Every entry is kept outright or has its parent in the map. *)
Definition closed S : Prop :=
  forall id v, S !! id = Some v -> keep id v = true \/ is_Some (S !! parent v).

Lemma sweep_entry_sub st e : (sweep_entry st e).1 ⊆ st.1.
Proof. unfold sweep_entry. repeat case_match; try done. apply delete_subseteq. Qed.

Lemma sweep_fold_sub es st : (fold_left sweep_entry es st).1 ⊆ st.1.
Proof.
  revert st. induction es as [|e es IH]; intros st; simpl; [done|].
  etrans; [apply IH|apply sweep_entry_sub].
Qed.

Lemma sweep_pass_sub es m : (sweep_pass es m).1 ⊆ m.
Proof. apply (sweep_fold_sub es (m, false)). Qed.

(** A closed submap survives: none of its entries is ever an orphan. *)
Lemma sweep_fold_keeps m es st S :
  closed S -> S ⊆ m -> (forall e, e ∈ es -> m !! e.1 = Some e.2) ->
  S ⊆ st.1 -> S ⊆ (fold_left sweep_entry es st).1.
Proof.
  intros Hc Hm. revert st. induction es as [|[id v] es IH]; intros st Hes Hst; [done|].
  simpl. apply IH; [intros e He; apply Hes; by right|].
  unfold sweep_entry. simpl. destruct (keep id v) eqn:Hk; [done|].
  destruct (st.1 !! parent v) eqn:Hp; [done|]. simpl.
  apply map_subseteq_spec. intros i x Hi.
  assert (st.1 !! i = Some x) as Hsi by (by eapply lookup_weaken).
  destruct (decide (i = id)) as [->|Hne]; [|by rewrite lookup_delete_ne].
  exfalso. assert (m !! id = Some x) by (by eapply lookup_weaken).
  pose proof (Hes (id, v) (list_elem_of_here _ _)) as Hv. simpl in Hv.
  assert (x = v) as -> by congruence.
  destruct (Hc id v Hi) as [Hk'|[y Hy]]; [congruence|].
  assert (st.1 !! parent v = Some y) by (by eapply lookup_weaken). congruence.
Qed.

(** Without a change the pass was the identity and saw no orphan. *)
Lemma sweep_fold_unchanged es st :
  st.2 = false -> (fold_left sweep_entry es st).2 = false ->
  (fold_left sweep_entry es st).1 = st.1 /\
  forall id v, (id, v) ∈ es -> keep id v = true \/ is_Some (st.1 !! parent v).
Proof.
  revert st. induction es as [|[id v] es IH]; intros st H0 H; simpl in *.
  - split; [done|]. intros ? ? ?%not_elem_of_nil. done.
  - assert (sweep_entry st (id, v) = st /\ (keep id v = true \/ is_Some (st.1 !! parent v))) as [E Hkp].
    { assert (forall es st, st.2 = true -> (fold_left sweep_entry es st).2 = true) as Hmono.
      { clear. induction es as [|e es IH]; intros st Hst; [done|]. simpl. apply IH.
        unfold sweep_entry. by repeat case_match. }
      unfold sweep_entry in *. simpl in *. destruct (keep id v); [by auto|].
      destruct (st.1 !! parent v) eqn:Hp; [eauto|]. by rewrite Hmono in H. }
    rewrite E in *. destruct (IH st H0 H) as [-> Hes]. split; [done|].
    intros i x [[= -> ->]|Hi]%elem_of_cons; eauto.
Qed.

(** With a change the map got strictly smaller. *)
Lemma sweep_fold_size m es st :
  (forall e, e ∈ es -> m !! e.1 = Some e.2) -> NoDup es.*1 -> st.1 ⊆ m ->
  (forall e, e ∈ es -> st.1 !! e.1 = Some e.2) -> st.2 = false ->
  (fold_left sweep_entry es st).2 = true -> size (fold_left sweep_entry es st).1 < size st.1.
Proof.
  revert st. induction es as [|[id v] es IH]; intros st Hes Hnd Hst Hin H0 H; simpl in *; [congruence|].
  apply NoDup_cons in Hnd as [Hn Hnd].
  assert (sweep_entry st (id, v) = st \/ sweep_entry st (id, v) = (delete id st.1, true)) as [E|E].
  { unfold sweep_entry. repeat case_match; auto. }
  - rewrite E in *. apply IH; auto; intros e He; [apply Hes|apply Hin]; by right.
  - rewrite E. eapply Nat.le_lt_trans.
    + apply map_subseteq_size, sweep_fold_sub.
    + simpl. pose proof (Hin (id, v) (list_elem_of_here _ _)) as Hid. simpl in Hid.
      rewrite map_size_delete_Some by eauto.
      assert (size st.1 ≠ 0) by (by eapply map_size_ne_0_lookup_2, mk_is_Some). lia.
Qed.

Section order.
Context `{RangeOrder}.

Lemma sweep_pass_closed m :
  (sweep_pass (range m) m).2 = false -> closed (sweep_pass (range m) m).1.
Proof.
  intros Hf. destruct (sweep_fold_unchanged (range m) (m, false)) as [E Hes]; [done..|].
  unfold sweep_pass. rewrite E. intros id v Hid. apply Hes, elem_of_range, Hid.
Qed.

Lemma sweep_pass_size m :
  (sweep_pass (range m) m).2 = true -> size (sweep_pass (range m) m).1 < size m.
Proof.
  intros Ht. apply (sweep_fold_size m (range m) (m, false)); try done;
    [intros [k v] Hkv; by apply elem_of_range|apply nodup_range|intros [k v] Hkv; by apply elem_of_range].
Qed.

Lemma sweep_loop_spec fuel m :
  size m < fuel ->
  sweep_loop fuel m ⊆ m /\ closed (sweep_loop fuel m) /\
  forall S, closed S -> S ⊆ m -> S ⊆ sweep_loop fuel m.
Proof.
  revert m. induction fuel as [|fuel IH]; intros m Hf; [lia|]. cbn [sweep_loop].
  pose proof (sweep_pass_sub (range m) m) as Hsub.
  assert (forall S, closed S -> S ⊆ m -> S ⊆ (sweep_pass (range m) m).1) as Hk.
  { intros S Hc Hs. apply (sweep_fold_keeps m); try done. intros [k v] ?. by apply elem_of_range. }
  pose proof (sweep_pass_closed m) as Hcl. pose proof (sweep_pass_size m) as Hsz.
  destruct (sweep_pass (range m) m) as [m' [|]]; simpl in *; [|auto].
  destruct (IH m') as (H1 & H2 & H3); [specialize (Hsz eq_refl); lia|].
  split; [by etrans|]. auto.
Qed.

Lemma sweep_sub m : sweep m ⊆ m.
Proof. apply sweep_loop_spec. lia. Qed.

Lemma sweep_closed m : closed (sweep m).
Proof. apply sweep_loop_spec. lia. Qed.

Lemma sweep_greatest m S : closed S -> S ⊆ m -> S ⊆ sweep m.
Proof. apply sweep_loop_spec. lia. Qed.

(** More passes change nothing. *)
Lemma sweep_fuel fuel m : size m < fuel -> sweep_loop fuel m = sweep m.
Proof.
  intros Hf. destruct (sweep_loop_spec fuel m Hf) as (H1 & H2 & H3).
  apply (anti_symm (⊆)); [by apply sweep_greatest|]. apply H3; [apply sweep_closed|apply sweep_sub].
Qed.

Lemma sweep_id m : closed m -> sweep m = m.
Proof. intros Hc. apply (anti_symm (⊆)); [apply sweep_sub|by apply sweep_greatest]. Qed.
End order.

Lemma sweep_order_irrelevant (o1 o2 : RangeOrder) m :
  @sweep o1 m = @sweep o2 m.
Proof.
  apply (anti_symm (⊆)); apply sweep_greatest; (apply sweep_closed || apply sweep_sub).
Qed.

(** With parents of lower rank, an entry survives exactly when following
    parents from it stays in the map until a kept entry. *)
Inductive anchored m : bytes -> Prop :=
  | anchored_keep id v : m !! id = Some v -> keep id v = true -> anchored m id
  | anchored_parent id v : m !! id = Some v -> anchored m (parent v) -> anchored m id.

Lemma sweep_absorbs `{RangeOrder} m id v :
  m !! id = Some v -> (keep id v = true \/ is_Some (sweep m !! parent v)) -> is_Some (sweep m !! id).
Proof.
  intros Hid Hv. assert (<[id:=v]> (sweep m) ⊆ sweep m) as Hsub.
  { apply sweep_greatest; [|by apply insert_subseteq_l; [|apply sweep_sub]].
    assert (forall i, is_Some (sweep m !! i) -> is_Some (<[id:=v]> (sweep m) !! i)) as Hmono
      by (intros i ?; apply lookup_insert_is_Some'; by right).
    intros i w Hi. destruct (decide (id = i)) as [<-|Hne].
    - rewrite lookup_insert_eq in Hi. injection Hi as <-. destruct Hv; auto.
    - rewrite lookup_insert_ne in Hi by done. destruct (sweep_closed m i w Hi); auto. }
  exists v. eapply lookup_weaken, Hsub. apply lookup_insert_eq.
Qed.

Lemma anchored_sweep `{RangeOrder} m id : anchored m id -> is_Some (sweep m !! id).
Proof. induction 1 as [id v Hid Hk|id v Hid _ IH]; eapply sweep_absorbs; eauto. Qed.

Lemma sweep_anchored `{RangeOrder} (rank : bytes -> nat) m id :
  (forall i v, m !! i = Some v -> rank (parent v) < rank i) ->
  is_Some (sweep m !! id) -> anchored m id.
Proof.
  intros Hrank. remember (rank id) as n eqn:Hn. revert id Hn.
  induction n as [n IH] using lt_wf_ind. intros id -> [v Hv].
  assert (m !! id = Some v) as Hm by (eapply lookup_weaken, sweep_sub; done).
  destruct (sweep_closed m id v Hv) as [Hk|Hp]; [by econstructor|].
  eapply anchored_parent; [done|]. by eapply IH; [apply (Hrank id v Hm)|..].
Qed.
End sweep.
