(* ===== verification/Ledger.v ===== *)
(** [diem/ledger.go]: the in-memory ledger. A tree of speculated states over the
    last committed block, the blocks held for a parent not yet seen, and the
    committed blocks kept for leader election.

    Loops over maps use [range]. The loops that follow parent links
    ([Missing], the walk of [Commit]) end only if the links do not form a
    cycle: they are written with one iteration more than there are entries, and
    [None] stands for a loop that would go on. *)

From stdpp Require Import prelude gmap list fin_maps.
From Stdlib Require Import NArith ZArith Lia Strings.Byte.
From S2P Require Import Prelude Sha256 Proto Hash Types Orphans.

Record speculated := MkSpeculated { sp_block : Block; sp_state : bytes }.

Record MemLedger := MkMemLedger {
  l_Execute : bytes -> list bytes -> bytes;
  l_History : Z;
  l_pending : gmap bytes speculated;
  l_held : gmap bytes Block;
  l_committed : gmap bytes Block;
  l_order : list bytes;
  l_commitID : bytes;
  l_commitState : bytes;
  (** The calls made to [OnCommit] so far, oldest first. *)
  l_onCommit : list Block;
}.

Definition set_pending (f : gmap bytes speculated -> gmap bytes speculated) (l : MemLedger) : MemLedger :=
  MkMemLedger (l_Execute l) (l_History l) (f (l_pending l)) (l_held l) (l_committed l) (l_order l)
    (l_commitID l) (l_commitState l) (l_onCommit l).
Definition set_held (f : gmap bytes Block -> gmap bytes Block) (l : MemLedger) : MemLedger :=
  MkMemLedger (l_Execute l) (l_History l) (l_pending l) (f (l_held l)) (l_committed l) (l_order l)
    (l_commitID l) (l_commitState l) (l_onCommit l).

Definition defaultHistory : Z := 512.

Definition NewMemLedger : MemLedger :=
  let id := b_id genesisBlock in
  MkMemLedger ExecuteHash defaultHistory ∅ ∅ {[ id := genesisBlock ]} [id] id
    (ExecuteHash zeroHash []) [].

Definition commitRound (l : MemLedger) : uint64 := Block_GetRound (l_committed l !! l_commitID l).

Definition PendingState (l : MemLedger) (blockID : bytes) : option bytes :=
  if bool_decide (blockID = l_commitID l) then Some (l_commitState l)
  else sp_state <$> l_pending l !! blockID.

Definition CommittedBlock (l : MemLedger) (blockID : bytes) : option Block := l_committed l !! blockID.

Section ops.
Context `{RangeOrder}.

(** The recursion is bounded by the number of held blocks: every nested call
    is made after deleting one, and none adds one. *)
Fixpoint Speculate_rec (fuel : nat) (l : MemLedger) (b : Block) : MemLedger * bytes :=
  match PendingState l (parentID b) with
  | None =>
      (if (commitRound l <? QCRound (b_qc b))%N then set_held <[b_id b := b]> l else l, zeroHash)
  | Some prev =>
      let id := b_id b in
      let state := l_Execute l prev (b_payload b) in
      let l := set_pending <[id := MkSpeculated b state]> l in
      let visit l (e : bytes * Block) :=
        match l_held l !! e.1, fuel with
        | Some h, S fuel =>
            if bool_decide (parentID h = id)
            then (Speculate_rec fuel (set_held (delete e.1) l) h).1 else l
        | _, _ => l
        end in
      (fold_left visit (range (l_held l)) l, state)
  end.

Definition Speculate (l : MemLedger) (b : Block) : MemLedger * bytes :=
  Speculate_rec (size (l_held l)) l b.

(** The loop of [Missing]: [b] is held. *)
Fixpoint Missing_loop (fuel : nat) (l : MemLedger) (b : Block) : option bytes :=
  match fuel with
  | O => None
  | S fuel =>
      let parent := parentID b in
      match l_held l !! parent with
      | Some b => Missing_loop fuel l b
      | None => Some parent
      end
  end.

(** [Some None] is Go's nil. *)
Definition Missing (l : MemLedger) (blockID : bytes) : option (option bytes) :=
  match l_held l !! blockID with
  | None => Some None
  | Some b => Some <$> Missing_loop (S (size (l_held l))) l b
  end.

(** The walk back to the frontier; the chain comes newest first, and
    [Some None] is the early return. *)
Fixpoint Commit_walk (fuel : nat) (l : MemLedger) (id : bytes) : option (option (list speculated)) :=
  if bool_decide (id = l_commitID l) then Some (Some [])
  else match fuel with
  | O => None
  | S fuel =>
      match l_pending l !! id with
      | None => Some None
      | Some s => option_map (option_map (cons s)) (Commit_walk fuel l (parentID (sp_block s)))
      end
  end.

(** The body of the loop that applies the chain. *)
Definition Commit_apply (l : MemLedger) (s : speculated) : MemLedger :=
  let id := b_id (sp_block s) in
  MkMemLedger (l_Execute l) (l_History l) (delete id (l_pending l)) (l_held l)
    (<[id := sp_block s]> (l_committed l)) (l_order l ++ [id]) id (sp_state s)
    (l_onCommit l ++ [sp_block s]).

(** Deleting from [held] while ranging over it is filtering it. *)
Definition prune (l : MemLedger) : MemLedger :=
  let l := set_held (filter (fun e => ~ (QCRound (b_qc e.2) <= commitRound l)%N)) l in
  set_pending (sweep (fun s => parentID (sp_block s))
                     (fun _ s => bool_decide (parentID (sp_block s) = l_commitID l))) l.

(** [l.order[0]] of an empty slice is a panic, which needs a negative bound. *)
Fixpoint forget_loop (history : Z) (commitID : bytes) (order : list bytes)
    (committed : gmap bytes Block) : option (list bytes * gmap bytes Block) :=
  if (history <? Z.of_nat (length order))%Z then
    match order with
    | [] => None
    | id :: order =>
        forget_loop history commitID order
          (if bool_decide (id ≠ commitID) then delete id committed else committed)
    end
  else Some (order, committed).

Definition forget (l : MemLedger) : option MemLedger :=
  '(order, committed) ← forget_loop (l_History l) (l_commitID l) (l_order l) (l_committed l);
  Some (MkMemLedger (l_Execute l) (l_History l) (l_pending l) (l_held l) committed order
          (l_commitID l) (l_commitState l) (l_onCommit l)).

Definition Commit (l : MemLedger) (blockID : bytes) : option MemLedger :=
  if bool_decide (blockID = l_commitID l) then Some l
  else
    chain ← Commit_walk (S (size (l_pending l))) l blockID;
    match chain with
    | None => Some l
    | Some chain => forget (prune (fold_left Commit_apply (reverse chain) l))
    end.
End ops.

(** ** The invariant *)

(** The blocks a ledger is fed: an id determines the parent and the payload,
    and parent links go down in rank. *)
Record block_universe (U : Block -> Prop) (rank : bytes -> nat) : Prop := {
  bu_unique : forall b b', U b -> U b' -> b_id b = b_id b' ->
    parentID b = parentID b' /\ b_payload b = b_payload b';
  bu_rank : forall b, U b -> rank (parentID b) < rank (b_id b);
}.

(** [linked a bs z]: the blocks [bs] lead from the block with id [a] to [z]. *)
Fixpoint linked (a : bytes) (bs : list Block) (z : bytes) : Prop :=
  match bs with
  | [] => a = z
  | b :: bs => parentID b = a /\ linked (b_id b) bs z
  end.

Lemma linked_app a bs c cs z : linked a bs c -> linked c cs z -> linked a (bs ++ cs) z.
Proof.
  revert a. induction bs as [|b bs IH]; intros a; simpl; [by intros ->|]. intros [-> ?] ?. auto.
Qed.

(** Along links of rising rank a list of blocks is determined by its ends. *)
Section linked_rank.
Context (U : Block -> Prop) (rank : bytes -> nat) (HU : block_universe U rank).

Lemma linked_rank_le a bs z : Forall U bs -> linked a bs z -> rank a + length bs <= rank z.
Proof.
  revert a. induction bs as [|b bs IH]; intros a HF; simpl; [intros ->; lia|].
  intros [<- Hl]. apply Forall_cons in HF as [Hb HF]. specialize (IH _ HF Hl).
  pose proof (bu_rank _ _ HU b Hb). lia.
Qed.

Lemma linked_snoc a bs b z : linked a (bs ++ [b]) z <-> linked a bs (parentID b) /\ b_id b = z.
Proof.
  revert a. induction bs as [|c bs IH]; intros a; simpl; [naive_solver|]. rewrite IH. tauto.
Qed.

Lemma linked_unique a bs cs z :
  Forall U bs -> Forall U cs -> linked a bs z -> linked a cs z -> b_id <$> bs = b_id <$> cs.
Proof.
  revert cs z. induction bs as [|b bs IH] using rev_ind; intros cs z HB HC Hb Hc.
  - apply linked_rank_le in Hc as Hr; [|done]. simpl in Hb. subst. destruct cs; [done|]. simpl in Hr. lia.
  - apply linked_snoc in Hb as [Hb <-]. apply Forall_app in HB as [HB HUb]. rewrite Forall_singleton in HUb.
    destruct cs as [|c cs _] using rev_ind.
    + simpl in Hc. subst a. apply linked_rank_le in Hb; [|done]. pose proof (bu_rank _ _ HU b HUb). lia.
    + apply linked_snoc in Hc as [Hc Hid]. apply Forall_app in HC as [HC HUc]. rewrite Forall_singleton in HUc.
      destruct (bu_unique _ _ HU c b HUc HUb Hid) as [E _]. rewrite E in Hc.
      rewrite !fmap_app. simpl. by rewrite (IH cs _ HB HC Hb Hc), Hid.
Qed.
End linked_rank.

Section invariant.
Context (U : Block -> Prop) (rank : bytes -> nat).

(** [W] holds of the ids whose held children are about to be speculated; it is
    empty between operations. *)
Record ledger_inv_upto (W : bytes -> Prop) (l : MemLedger) : Prop := {
  li_pending : forall id s, l_pending l !! id = Some s ->
    U (sp_block s) /\ b_id (sp_block s) = id /\
    exists prev, PendingState l (parentID (sp_block s)) = Some prev /\
                 sp_state s = l_Execute l prev (b_payload (sp_block s));
  li_held : forall id b, l_held l !! id = Some b ->
    U b /\ b_id b = id /\ (commitRound l < QCRound (b_qc b))%N /\
    (PendingState l (parentID b) = None \/ W (parentID b));
  li_committed : forall id b, l_committed l !! id = Some b -> b_id b = id;
  li_frontier : is_Some (l_committed l !! l_commitID l);
  li_linked : linked (b_id genesisBlock) (l_onCommit l) (l_commitID l);
  li_log : Forall U (l_onCommit l);
}.

Definition ledger_inv (l : MemLedger) : Prop := ledger_inv_upto (fun _ => False) l.

(** What speculation leaves alone, and how the rest moves. *)
Record ledger_ext (l l' : MemLedger) : Prop := {
  le_Execute : l_Execute l' = l_Execute l;
  le_History : l_History l' = l_History l;
  le_committed : l_committed l' = l_committed l;
  le_order : l_order l' = l_order l;
  le_commitID : l_commitID l' = l_commitID l;
  le_commitState : l_commitState l' = l_commitState l;
  le_onCommit : l_onCommit l' = l_onCommit l;
  le_held : l_held l' ⊆ l_held l;
  le_known : forall x s, PendingState l x = Some s -> PendingState l' x = Some s;
  le_new : forall x, is_Some (PendingState l' x) -> is_Some (PendingState l x) \/
             (is_Some (l_held l !! x) /\ l_held l' !! x = None);
  le_gone : forall x, is_Some (l_held l !! x) -> l_held l' !! x = None -> is_Some (PendingState l' x);
  le_keep : l_pending l ⊆ l_pending l';
  le_from : forall x s, l_pending l' !! x = Some s ->
              l_pending l !! x = Some s \/ (l_held l !! x = Some (sp_block s) /\ l_held l' !! x = None);
  le_released : forall x h, l_held l !! x = Some h -> l_held l' !! x = None ->
              exists s, l_pending l' !! x = Some s /\ sp_block s = h;
}.

Lemma ledger_ext_refl l : ledger_ext l l.
Proof. split; try done; [auto| |auto|]; intros x; [intros [b Hb] Hn|intros h Hh Hn]; congruence. Qed.

Lemma ledger_ext_trans l1 l2 l3 : ledger_ext l1 l2 -> ledger_ext l2 l3 -> ledger_ext l1 l3.
Proof.
  intros A B. split; try (etrans; [apply B|apply A]).
  - intros x s Hx. apply B, A, Hx.
  - intros x Hx. destruct (le_new _ _ B x Hx) as [Hy|[[h Hh] Hn]]; [destruct (le_new _ _ A x Hy) as [|[? Hn]]|].
    + by left.
    + right. split; [done|]. destruct (l_held l3 !! x) eqn:E; [|done].
      rewrite (lookup_weaken _ _ _ _ E (le_held _ _ B)) in Hn. done.
    + right. split; [|done]. exists h. by eapply lookup_weaken, A.
  - intros x Hx Hn. destruct (l_held l2 !! x) as [h|] eqn:E.
    + apply (le_gone _ _ B); [by eexists|done].
    + destruct (le_gone _ _ A x Hx E) as [s Hs]. exists s. by apply B.
  - etrans; [apply A|apply B].
  - intros x s Hx. destruct (le_from _ _ B x s Hx) as [Hy|[Hh Hn]]; [destruct (le_from _ _ A x s Hy) as [|[? Hn]]|].
    + by left.
    + right. split; [done|]. eapply lookup_weaken_None; [exact Hn|apply B].
    + right. split; [|done]. by eapply lookup_weaken, A.
  - intros x h Hh Hn. destruct (l_held l2 !! x) as [h'|] eqn:E.
    + assert (h' = h) as -> by (pose proof (lookup_weaken _ _ _ _ E (le_held _ _ A)); congruence). by apply (le_released _ _ B).
    + destruct (le_released _ _ A x h Hh E) as (s & Hs & Es). exists s. split; [|done]. eapply lookup_weaken; [exact Hs|apply B].
Qed.

Lemma ledger_ext_commitRound l l' : ledger_ext l l' -> commitRound l' = commitRound l.
Proof. intros E. unfold commitRound. by rewrite (le_committed _ _ E), (le_commitID _ _ E). Qed.

Section universe.
Context (HU : block_universe U rank).

Lemma known_cases l x s :
  PendingState l x = Some s ->
  (x = l_commitID l /\ s = l_commitState l) \/
  (x ≠ l_commitID l /\ exists p, l_pending l !! x = Some p /\ sp_state p = s).
Proof.
  unfold PendingState. case_bool_decide; [intros [= <-]; by left|].
  intros (p & -> & ->)%fmap_Some. right. eauto.
Qed.

(** Speculated blocks rank above the frontier. *)
Lemma pending_rank W l id s :
  ledger_inv_upto W l -> l_pending l !! id = Some s -> rank (l_commitID l) < rank id.
Proof.
  intros Hi. remember (rank id) as n eqn:Hn. revert id s Hn.
  induction n as [n IH] using lt_wf_ind. intros id s -> Hs.
  destruct (li_pending _ _ Hi id s Hs) as (HUs & Hid & prev & Hp & _).
  pose proof (bu_rank _ _ HU _ HUs) as Hr. rewrite Hid in Hr.
  apply known_cases in Hp as [[Hc _]|(_ & p & Hp & _)]; [by rewrite <- Hc|].
  specialize (IH _ Hr _ _ eq_refl Hp). lia.
Qed.

Lemma frontier_not_pending W l : ledger_inv_upto W l -> l_pending l !! l_commitID l = None.
Proof.
  intros Hi. destruct (l_pending l !! l_commitID l) eqn:E; [|done].
  apply (pending_rank _ _ _ _ Hi) in E. lia.
Qed.

(** A block whose parent is known ranks above the frontier too. *)
Lemma child_not_frontier W l b prev :
  ledger_inv_upto W l -> U b -> PendingState l (parentID b) = Some prev -> b_id b ≠ l_commitID l.
Proof.
  intros Hi Hb Hp Hid. pose proof (bu_rank _ _ HU _ Hb) as Hr.
  apply known_cases in Hp as [[Hc _]|(_ & p & Hp & _)].
  - rewrite Hc, Hid in Hr. lia.
  - apply (pending_rank _ _ _ _ Hi) in Hp. rewrite Hid in Hr. lia.
Qed.

Lemma PendingState_insert l id s x :
  id ≠ l_commitID l ->
  PendingState (set_pending <[id := s]> l) x =
  if bool_decide (x = id) then Some (sp_state s) else PendingState l x.
Proof.
  intros Hne. unfold PendingState. simpl. repeat case_bool_decide; subst; try done.
  - by rewrite lookup_insert_eq.
  - by rewrite lookup_insert_ne.
Qed.

(** Inserting a block over its known parent. *)
Lemma insert_known W l b prev :
  ledger_inv_upto W l -> U b -> PendingState l (parentID b) = Some prev ->
  let st := l_Execute l prev (b_payload b) in
  let l1 := set_pending <[b_id b := MkSpeculated b st]> l in
  ledger_inv_upto (fun x => W x \/ x = b_id b) l1 /\
  (forall x s, PendingState l x = Some s -> PendingState l1 x = Some s) /\
  PendingState l1 (b_id b) = Some st.
Proof.
  intros Hi Hb Hp st l1. pose proof (child_not_frontier W l b prev Hi Hb Hp) as Hne.
  assert (forall x, PendingState l1 x = if bool_decide (x = b_id b) then Some st else PendingState l x) as HP
    by (intros x; by apply PendingState_insert).
  assert (forall x s, PendingState l x = Some s -> PendingState l1 x = Some s) as Hstable.
  { intros x s Hx. rewrite HP. case_bool_decide as Hxb; [subst x|done].
    apply known_cases in Hx as [[? _]|(_ & p & Hpp & <-)]; [done|].
    destruct (li_pending _ _ Hi _ _ Hpp) as (HUp & Hidp & prev' & Hp' & ->).
    destruct (bu_unique _ _ HU _ _ HUp Hb Hidp) as [E1 E2]. rewrite E1 in Hp'.
    assert (prev' = prev) as -> by congruence. by rewrite E2. }
  split; [|split; [done|by rewrite HP, bool_decide_eq_true_2]].
  split; try apply Hi.
  - intros id s Hs. change (l_pending l1) with (<[b_id b := MkSpeculated b st]> (l_pending l)) in Hs.
    revert Hs. destruct (decide (b_id b = id)) as [<-|Hn].
    + rewrite lookup_insert_eq. intros [= <-]. simpl. split; [done|]. split; [done|].
      exists prev. split; [by apply Hstable|done].
    + rewrite lookup_insert_ne by done. intros Hs.
      destruct (li_pending _ _ Hi _ _ Hs) as (? & ? & p & Hp' & ?).
      split; [done|]. split; [done|]. exists p. split; [by apply Hstable|done].
  - intros id h Hh. destruct (li_held _ _ Hi _ _ Hh) as (? & ? & ? & Hw).
    split; [done|]. split; [done|]. split; [done|]. rewrite HP. case_bool_decide; [by auto|].
    destruct Hw; auto.
Qed.
End universe.
End invariant.

(** ** Speculation *)

Section speculation.
Context (U : Block -> Prop) (rank : bytes -> nat) (HU : block_universe U rank) `{RangeOrder}.
Abbreviation inv_upto := (ledger_inv_upto U).

Lemma inv_upto_weaken (W W' : bytes -> Prop) l :
  (forall id b, l_held l !! id = Some b -> W (parentID b) -> W' (parentID b)) ->
  inv_upto W l -> inv_upto W' l.
Proof.
  intros HW Hi. split; try apply Hi. intros id b Hb.
  destruct (li_held _ _ _ Hi id b Hb) as (?&?&?&[?|?]); eauto 10.
Qed.

Lemma inv_upto_unhold W l id : inv_upto W l -> inv_upto W (set_held (delete id) l).
Proof.
  intros Hi. split; try apply Hi. intros k b Hb. simpl in Hb.
  apply lookup_delete_Some in Hb as [_ Hb]. exact (li_held _ _ _ Hi k b Hb).
Qed.

(** No block is both speculated and held. *)
Definition apart (l : MemLedger) : Prop := forall x s, l_pending l !! x = Some s -> l_held l !! x = None.

Lemma inv_apart l : ledger_inv U l -> apart l.
Proof.
  intros Hi x s Hs. destruct (l_held l !! x) as [h|] eqn:Hh; [|done]. destruct (li_pending _ _ _ Hi x s Hs) as (HUs & Hids & prev & Hp & _).
  destruct (li_held _ _ _ Hi x h Hh) as (HUh & Hidh & _ & [Hn|[]]). rewrite <- Hidh in Hids.
  destruct (bu_unique _ _ HU _ _ HUs HUh Hids) as [E _]. congruence.
Qed.

(** The specification of a call on a block whose parent is known. *)
Definition speculates (fuel : nat) : Prop :=
  forall l b prev W,
    inv_upto W l -> apart l -> U b -> l_held l !! b_id b = None -> size (l_held l) <= fuel ->
    PendingState l (parentID b) = Some prev ->
    let st := l_Execute l prev (b_payload b) in
    let l1 := set_pending <[b_id b := MkSpeculated b st]> l in
    let l' := (Speculate_rec fuel l b).1 in
    inv_upto W l' /\ apart l' /\ ledger_ext l1 l' /\ PendingState l' (b_id b) = Some st.

(** The body of the loop over held blocks, for the block [id]. *)
Definition visit (fuel : nat) (id : bytes) (l : MemLedger) (e : bytes * Block) : MemLedger :=
  match l_held l !! e.1, fuel with
  | Some h, S fuel =>
      if bool_decide (parentID h = id)
      then (Speculate_rec fuel (set_held (delete e.1) l) h).1 else l
  | _, _ => l
  end.

(** The held children of [id] are among the entries still to be visited. *)
Definition children_in (id : bytes) (l : MemLedger) (es : list (bytes * Block)) : Prop :=
  forall k h, l_held l !! k = Some h -> parentID h = id -> k ∈ es.*1.

Lemma visit_step fuel id st W l e es :
  (forall n, n < fuel -> speculates n) ->
  inv_upto W l -> apart l -> size (l_held l) <= fuel -> PendingState l id = Some st ->
  children_in id l (e :: es) ->
  inv_upto W (visit fuel id l e) /\ apart (visit fuel id l e) /\ ledger_ext l (visit fuel id l e) /\
  children_in id (visit fuel id l e) es.
Proof.
  intros IH Hi Hap Hsz Hid Hch. unfold visit.
  assert (l_held l !! e.1 = None \/ (exists h, l_held l !! e.1 = Some h /\ parentID h ≠ id) ->
    children_in id l es) as Hskip.
  { intros Hsk k h Hk Hp. specialize (Hch k h Hk Hp). csimpl in Hch.
    apply elem_of_cons in Hch as [->|]; [|done]. naive_solver. }
  destruct (l_held l !! e.1) as [h|] eqn:Hh; [|split_and!; auto using ledger_ext_refl].
  destruct fuel as [|fuel].
  { assert (size (l_held l) ≠ 0) by (eapply map_size_ne_0_lookup_2; by eexists). lia. }
  case_bool_decide as Hp; [|split; [done|]; split; [done|]; split; [apply ledger_ext_refl|eauto]].
  destruct (li_held _ _ _ Hi _ _ Hh) as (HUh & Hidh & _ & _).
  set (l2 := set_held (delete e.1) l).
  destruct (IH fuel ltac:(lia) l2 h st W) as (Hi' & Hap' & Hext & Hst).
  { by apply inv_upto_unhold. }
  { intros x s Hx. apply lookup_delete_None. right. by eapply Hap. }
  { done. }
  { cbn. by rewrite Hidh, lookup_delete_eq. }
  { simpl. rewrite map_size_delete_Some by eauto. lia. }
  { by rewrite Hp. }
  set (l1 := set_pending _ _) in Hext. set (l' := (Speculate_rec fuel l2 h).1) in *.
  assert (l_held l' ⊆ delete e.1 (l_held l)) as Hheld by apply (le_held _ _ Hext).
  assert (l_held l' !! e.1 = None) as Hgone.
  { destruct (l_held l' !! e.1) eqn:E; [|done].
    apply (lookup_weaken _ _ _ _ E) in Hheld. by rewrite lookup_delete_eq in Hheld. }
  assert (l_pending l !! e.1 = None) as Hnp.
  { destruct (l_pending l !! e.1) as [s|] eqn:E; [|done]. by rewrite (Hap _ _ E) in Hh. }
  split; [done|]. split; [done|]. split.
  - split; try apply Hext.
    + etrans; [done|apply delete_subseteq].
    + intros x s Hx. apply (le_known _ _ Hext).
      destruct (insert_known U rank HU W l2 h st) as (_ & Hst' & _); [by apply inv_upto_unhold|done|by rewrite Hp|].
      by apply Hst'.
    + intros x Hx. destruct (decide (x = e.1)) as [->|Hne]; [right; by rewrite Hh|].
      destruct (le_new _ _ Hext x Hx) as [Hy|[Hy Hn]].
      * left. revert Hy. unfold l1. rewrite PendingState_insert; [|].
        -- rewrite bool_decide_eq_false_2 by congruence. done.
        -- eapply (child_not_frontier U rank HU W l2 h st); [by apply inv_upto_unhold|done|by rewrite Hp].
      * right. simpl in Hy. by rewrite lookup_delete_ne in Hy.
    + intros x Hx Hn. destruct (decide (x = e.1)) as [->|Hne]; [rewrite <- Hidh; by eexists|].
      apply (le_gone _ _ Hext); [|done]. simpl. by rewrite lookup_delete_ne.
    + etrans; [|apply (le_keep _ _ Hext)]. cbn. apply insert_subseteq. by rewrite Hidh.
    + intros x s Hx. destruct (le_from _ _ Hext x s Hx) as [Hy|[Hy Hn]].
      * cbn in Hy. apply lookup_insert_Some in Hy as [[<- <-]|[_ Hy]]; [right; by rewrite Hidh|by left].
      * right. split; [|done]. cbn in Hy. by apply lookup_delete_Some in Hy as [_ Hy].
    + intros x h' Hx Hn. destruct (decide (x = e.1)) as [->|Hne].
      * assert (h' = h) as -> by congruence. exists (MkSpeculated h (l_Execute l2 st (b_payload h))). split; [|done].
        eapply lookup_weaken; [|apply (le_keep _ _ Hext)]. cbn. by rewrite Hidh, lookup_insert_eq.
      * apply (le_released _ _ Hext); [|done]. simpl. by rewrite lookup_delete_ne.
  - intros k h' Hk Hp'. assert (l_held l !! k = Some h' /\ k ≠ e.1) as [Hk' Hne].
    { apply (lookup_weaken _ _ _ _ Hk) in Hheld. by apply lookup_delete_Some in Hheld as [? ?]. }
    specialize (Hch k h' Hk' Hp'). csimpl in Hch. by apply elem_of_cons in Hch as [?|?].
Qed.

Lemma visit_fold fuel id st W es l :
  (forall n, n < fuel -> speculates n) ->
  inv_upto W l -> apart l -> size (l_held l) <= fuel -> PendingState l id = Some st ->
  children_in id l es ->
  let l' := fold_left (visit fuel id) es l in
  inv_upto W l' /\ apart l' /\ ledger_ext l l' /\ children_in id l' [].
Proof.
  intros IH. revert l. induction es as [|e es IHes]; intros l Hi Hap Hsz Hid Hch; simpl.
  { split; [done|]. split; [done|]. split; [apply ledger_ext_refl|done]. }
  destruct (visit_step fuel id st W l e es) as (Hi1 & Ha1 & Hx1 & Hc1); [done..|].
  destruct (IHes (visit fuel id l e)) as (Hi2 & Ha2 & Hx2 & Hc2); [done|done| |by apply (le_known _ _ Hx1)|done|].
  { etrans; [|exact Hsz]. apply map_subseteq_size, Hx1. }
  split; [done|]. split; [done|]. split; [by eapply ledger_ext_trans|done].
Qed.

Lemma Speculate_rec_spec fuel : speculates fuel.
Proof.
  induction fuel as [fuel IH] using lt_wf_ind. intros l b prev W Hi Hap Hb Hnh Hsz Hp st l1.
  destruct (insert_known U rank HU W l b prev Hi Hb Hp) as (Hi1 & _ & Hst1).
  assert ((Speculate_rec fuel l b).1 = fold_left (visit fuel (b_id b)) (range (l_held l1)) l1) as ->.
  { destruct fuel; simpl; by rewrite Hp. }
  destruct (visit_fold fuel (b_id b) st (fun x => W x \/ x = b_id b) (range (l_held l1)) l1)
    as (Hi2 & Ha2 & Hx2 & Hc2); [done|done| |done|done| |].
  { intros x s Hx. cbn in Hx. apply lookup_insert_Some in Hx as [[<- _]|[_ Hx]]; [done|by eapply Hap]. }
  { intros k h Hk _. apply list_elem_of_fmap. exists (k, h). split; [done|]. by apply elem_of_range. }
  split; [|split; [done|]; split; [done|by apply (le_known _ _ Hx2)]].
  eapply inv_upto_weaken; [|exact Hi2]. intros k h Hk [?|Hch]; [done|].
  specialize (Hc2 k h Hk Hch). by apply not_elem_of_nil in Hc2.
Qed.
End speculation.

Section speculate.
Context (U : Block -> Prop) (rank : bytes -> nat) (HU : block_universe U rank) `{RangeOrder}.

Lemma Speculate_state l b :
  (Speculate l b).2 =
  match PendingState l (parentID b) with
  | Some prev => l_Execute l prev (b_payload b)
  | None => zeroHash
  end.
Proof. unfold Speculate. destruct (size (l_held l)); simpl; by destruct (PendingState l (parentID b)). Qed.

Lemma Speculate_unknown l b :
  PendingState l (parentID b) = None ->
  Speculate l b =
  (if (commitRound l <? QCRound (b_qc b))%N then set_held <[b_id b := b]> l else l, zeroHash).
Proof. intros Hp. unfold Speculate. destruct (size (l_held l)); simpl; by rewrite Hp. Qed.

Lemma Speculate_known l b prev :
  ledger_inv U l -> U b -> PendingState l (parentID b) = Some prev ->
  let st := l_Execute l prev (b_payload b) in
  let l' := (Speculate l b).1 in
  ledger_inv U l' /\ ledger_ext (set_pending <[b_id b := MkSpeculated b st]> l) l' /\
  PendingState l' (b_id b) = Some st.
Proof.
  intros Hi Hb Hp st l'. destruct (Speculate_rec_spec U rank HU (size (l_held l)) l b prev (fun _ => False)) as (? & _ & ? & ?); try done.
  - by apply (inv_apart U rank HU).
  - destruct (l_held l !! b_id b) as [h|] eqn:Hh; [|done]. destruct (li_held _ _ _ Hi _ _ Hh) as (HUh & Hidh & _ & [Hn|[]]).
    destruct (bu_unique _ _ HU _ _ HUh Hb Hidh) as [E _]. congruence.
Qed.

Lemma Speculate_inv l b : ledger_inv U l -> U b -> ledger_inv U (Speculate l b).1.
Proof.
  intros Hi Hb. destruct (PendingState l (parentID b)) as [prev|] eqn:Hp.
  - by apply (Speculate_known l b prev).
  - rewrite Speculate_unknown by done. simpl. destruct (N.ltb_spec (commitRound l) (QCRound (b_qc b))); [|done].
    split; try apply Hi. intros id h Hh. simpl in Hh.
    apply lookup_insert_Some in Hh as [[<- <-]|[_ Hh]]; [by auto|]. apply (li_held _ _ _ Hi id h Hh).
Qed.

(** Every held block whose parent became known was executed. *)
Lemma Speculate_frozen l b :
  ledger_inv U l -> U b ->
  let l' := (Speculate l b).1 in
  l_Execute l' = l_Execute l /\ l_History l' = l_History l /\ l_committed l' = l_committed l /\
  l_order l' = l_order l /\ l_commitID l' = l_commitID l /\ l_commitState l' = l_commitState l /\
  l_onCommit l' = l_onCommit l.
Proof.
  intros Hi Hb. destruct (PendingState l (parentID b)) as [prev|] eqn:Hp.
  - destruct (Speculate_known l b prev Hi Hb Hp) as (_ & E & _). split_and!; apply E.
  - rewrite Speculate_unknown by done. simpl. by destruct (_ <? _)%N.
Qed.
End speculate.

(** The order in which held blocks are visited does not matter: what becomes known is
    determined by the blocks. *)
Section order.
Context (U : Block -> Prop) (rank : bytes -> nat) (HU : block_universe U rank).

Lemma ext_pending l A B :
  ledger_ext l A -> ledger_ext l B -> ledger_inv U A -> ledger_inv U B -> l_pending A ⊆ l_pending B.
Proof.
  intros EA EB HA HB. apply map_subseteq_spec. assert (forall n x s, rank x < n -> l_pending A !! x = Some s -> l_pending B !! x = Some s) as H; [|eauto].
  induction n as [|n IH]; intros x s Hn Hs; [lia|].
  destruct (le_from _ _ EA x s Hs) as [Hx|[Hx _]]; [by eapply lookup_weaken, (le_keep _ _ EB)|].
  destruct (li_pending _ _ _ HA x s Hs) as (HUs & Hid & prev & Hp & Est). pose proof (bu_rank _ _ HU _ HUs) as Hr. rewrite Hid in Hr.
  assert (PendingState B (parentID (sp_block s)) = Some prev) as HpB.
  { unfold PendingState in Hp |- *. rewrite (le_commitID _ _ EA), (le_commitState _ _ EA) in Hp.
    rewrite (le_commitID _ _ EB), (le_commitState _ _ EB). case_bool_decide; [done|]. apply fmap_Some in Hp as (p & Hp & ->).
    by rewrite (IH (parentID (sp_block s)) p ltac:(lia) Hp). }
  destruct (l_held B !! x) as [h|] eqn:HhB.
  - assert (h = sp_block s) as -> by (pose proof (lookup_weaken _ _ _ _ HhB (le_held _ _ EB)); congruence).
    destruct (li_held _ _ _ HB x _ HhB) as (_ & _ & _ & [Hno|[]]). congruence.
  - destruct (le_released _ _ EB x _ Hx HhB) as (s' & Hs' & Eb). destruct (li_pending _ _ _ HB x s' Hs') as (_ & _ & prev' & Hp' & Est').
    rewrite Eb in Hp', Est'. assert (prev' = prev) as -> by congruence. rewrite (le_Execute _ _ EB), <- (le_Execute _ _ EA), <- Est in Est'.
    rewrite Hs'. destruct s, s'. cbn in *. congruence.
Qed.

Lemma ext_held l A B :
  ledger_ext l A -> ledger_ext l B -> ledger_inv U A -> ledger_inv U B -> l_held A ⊆ l_held B.
Proof.
  intros EA EB HA HB. apply map_subseteq_spec. intros x h Hh. pose proof (lookup_weaken _ _ _ _ Hh (le_held _ _ EA)) as Hl.
  destruct (l_held B !! x) as [h'|] eqn:E; [pose proof (lookup_weaken _ _ _ _ E (le_held _ _ EB)); congruence|].
  destruct (le_released _ _ EB x h Hl E) as (s & Hs & _). pose proof (lookup_weaken _ _ _ _ Hs (ext_pending l B A EB EA HB HA)) as HsA.
  by rewrite (inv_apart U rank HU A HA x s HsA) in Hh.
Qed.

Lemma ext_unique l A B : ledger_ext l A -> ledger_ext l B -> ledger_inv U A -> ledger_inv U B -> A = B.
Proof.
  intros EA EB HA HB. assert (l_pending A = l_pending B) as E1 by (apply (anti_symm (⊆)); by eapply ext_pending).
  assert (l_held A = l_held B) as E2 by (apply (anti_symm (⊆)); by eapply ext_held).
  destruct EA as [A1 A2 A3 A4 A5 A6 A7 _ _ _ _ _ _ _], EB as [B1 B2 B3 B4 B5 B6 B7 _ _ _ _ _ _ _]. destruct A, B. cbn in *. congruence.
Qed.

Lemma Speculate_order_irrelevant (o o' : RangeOrder) l b : ledger_inv U l -> U b -> @Speculate o l b = @Speculate o' l b.
Proof.
  intros Hi Hb. destruct (PendingState l (parentID b)) as [prev|] eqn:Hp; [|by rewrite !Speculate_unknown].
  rewrite (surjective_pairing (@Speculate o l b)), (surjective_pairing (@Speculate o' l b)), !Speculate_state. f_equal.
  eapply ext_unique; by apply (Speculate_known U rank HU l b prev).
Qed.
End order.

(** ** Following parent links ends *)

(** Entries of a map at or below a rank: the measure of the two walks. *)
Section below.
Context {V : Type} (rank : bytes -> nat).

Definition below (m : gmap bytes V) (n : nat) : gmap bytes V := filter (fun e => rank e.1 <= n) m.

Lemma below_lt (m : gmap bytes V) id v n :
  m !! id = Some v -> n < rank id -> size (below m n) < size (below m (rank id)).
Proof.
  intros Hid Hn. assert (below m n ⊆ delete id (below m (rank id))) as Hs.
  { apply map_subseteq_spec. intros i x [Hi Hle]%map_lookup_filter_Some. simpl in Hle.
    apply lookup_delete_Some. split; [intros ->; lia|]. apply map_lookup_filter_Some. simpl. split; [done|lia]. }
  apply map_subseteq_size in Hs. rewrite map_size_delete_Some in Hs.
  - assert (size (below m (rank id)) ≠ 0); [|lia].
    eapply map_size_ne_0_lookup_2. exists v. apply map_lookup_filter_Some. simpl. done.
  - exists v. apply map_lookup_filter_Some. simpl. done.
Qed.

Lemma below_size (m : gmap bytes V) n : size (below m n) <= size m.
Proof. apply map_subseteq_size, map_filter_subseteq. Qed.
End below.

Section walks.
Context (U : Block -> Prop) (rank : bytes -> nat) (HU : block_universe U rank).

(** The walk of [Commit] from a speculated block reaches the frontier. *)
Lemma Commit_walk_spec fuel l id s :
  ledger_inv U l -> l_pending l !! id = Some s -> size (below rank (l_pending l) (rank id)) <= fuel ->
  exists chain, Commit_walk fuel l id = Some (Some chain) /\ head chain = Some s /\
    linked (l_commitID l) (sp_block <$> reverse chain) id /\
    (forall c, c ∈ chain -> l_pending l !! b_id (sp_block c) = Some c) /\
    fold_left (fun st b => l_Execute l st (b_payload b)) (sp_block <$> reverse chain) (l_commitState l)
      = sp_state s.
Proof.
  intros Hi. revert id s. induction fuel as [|fuel IH]; intros id s Hs Hf.
  { pose proof (below_lt rank (l_pending l) id s (rank (l_commitID l)) Hs). 
    pose proof (pending_rank U rank HU _ _ _ _ Hi Hs). lia. }
  cbn [Commit_walk]. rewrite bool_decide_eq_false_2.
  2: { intros ->. by rewrite (frontier_not_pending U rank HU _ _ Hi) in Hs. }
  rewrite Hs. destruct (li_pending _ _ _ Hi id s Hs) as (HUs & Hid & prev & Hp & Hst).
  pose proof (bu_rank _ _ HU _ HUs) as Hr. rewrite Hid in Hr.
  apply known_cases in Hp as [[Hc Hprev]|(Hc & p & Hpp & Hprev)].
  - rewrite Hc. exists [s]. destruct fuel; simpl; rewrite bool_decide_eq_true_2 by done;
      (split; [done|]; split; [done|]; split; [by rewrite Hid|]; split; [|congruence]);
      intros c ->%list_elem_of_singleton; by rewrite Hid.
  - destruct (IH _ _ Hpp) as (chain & -> & Hhd & Hl & Hin & Hex).
    { pose proof (below_lt rank (l_pending l) id s _ Hs Hr). lia. }
    exists (s :: chain). split; [done|]. split; [done|].
    rewrite reverse_cons, fmap_app. simpl. split; [|split].
    + eapply linked_app; [done|]. simpl. by rewrite Hid.
    + intros c [->|Hc']%elem_of_cons; [by rewrite Hid|auto].
    + rewrite fold_left_app. simpl. rewrite Hex. by rewrite Hst, Hprev.
Qed.

Lemma Commit_walk_fuel l id s :
  ledger_inv U l -> l_pending l !! id = Some s ->
  exists chain, Commit_walk (S (size (l_pending l))) l id = Some (Some chain) /\ head chain = Some s /\
    linked (l_commitID l) (sp_block <$> reverse chain) id /\
    (forall c, c ∈ chain -> l_pending l !! b_id (sp_block c) = Some c) /\
    fold_left (fun st b => l_Execute l st (b_payload b)) (sp_block <$> reverse chain) (l_commitState l)
      = sp_state s.
Proof.
  intros Hi Hs. apply Commit_walk_spec; [done..|].
  pose proof (below_size rank (l_pending l) (rank id)). lia.
Qed.

(** The chain of [Missing]. *)
Lemma Missing_loop_spec fuel l b id :
  ledger_inv U l -> l_held l !! id = Some b -> size (below rank (l_held l) (rank id)) <= fuel ->
  exists p path, Missing_loop fuel l b = Some p /\ l_held l !! p = None /\ PendingState l p = None /\
    linked p path id /\ forall c, c ∈ path -> l_held l !! b_id c = Some c.
Proof.
  intros Hi. revert id b. induction fuel as [|fuel IH]; intros id b Hb Hf.
  all: destruct (li_held _ _ _ Hi id b Hb) as (HUb & Hid & _ & Hp).
  all: pose proof (bu_rank _ _ HU _ HUb) as Hr; rewrite Hid in Hr.
  all: pose proof (below_lt rank (l_held l) id b _ Hb Hr) as Hlt.
  { lia. }
  cbn [Missing_loop]. destruct (l_held l !! parentID b) as [b'|] eqn:E.
  - destruct (IH _ _ E ltac:(lia)) as (p & path & ? & ? & ? & Hl & Hin). exists p, (path ++ [b]).
    split_and!; try done; [by apply linked_snoc|].
    intros c [?|Hc%list_elem_of_singleton]%elem_of_app; [auto|subst c; by rewrite Hid].
  - exists (parentID b), [b]. split_and!; try done; [by destruct Hp|].
    intros c Hc%list_elem_of_singleton. subst c. by rewrite Hid.
Qed.

Lemma Missing_returns l id : ledger_inv U l -> is_Some (Missing l id).
Proof.
  intros Hi. unfold Missing. destruct (l_held l !! id) as [b|] eqn:Hb; [|by eexists].
  destruct (Missing_loop_spec (S (size (l_held l))) l b id Hi Hb) as (p & path & -> & _); [|by eexists].
  pose proof (below_size rank (l_held l) (rank id)). lia.
Qed.

(** A known block lies on a path of blocks that execute to its state. *)
Lemma known_path l id st :
  ledger_inv U l -> PendingState l id = Some st ->
  exists path, Forall U path /\ linked (l_commitID l) path id /\
    fold_left (fun st b => l_Execute l st (b_payload b)) path (l_commitState l) = st.
Proof.
  intros Hi [[-> ->]|(_ & s & Hs & <-)]%known_cases; [by exists []|].
  destruct (Commit_walk_fuel l id s Hi Hs) as (chain & _ & _ & Hl & Hin & Hex).
  exists (sp_block <$> reverse chain). split_and!; [|done..].
  apply Forall_fmap, Forall_forall. intros c Hc. rewrite elem_of_reverse in Hc.
  by destruct (li_pending _ _ _ Hi _ _ (Hin c Hc)) as (? & _).
Qed.
End walks.

(** ** Committing *)

Lemma Commit_apply_fold l ss :
  let l1 := fold_left Commit_apply ss l in
  l_Execute l1 = l_Execute l /\ l_History l1 = l_History l /\ l_held l1 = l_held l /\
  l_onCommit l1 = l_onCommit l ++ (sp_block <$> ss) /\
  l_order l1 = l_order l ++ ((fun s => b_id (sp_block s)) <$> ss) /\
  l_commitState l1 = from_option sp_state (l_commitState l) (last ss) /\
  l_pending l1 ⊆ l_pending l /\
  (forall x s, l_pending l1 !! x = Some s -> l_pending l !! x = Some s /\ x ∉ (fun s => b_id (sp_block s)) <$> ss) /\
  ((forall id b, l_committed l !! id = Some b -> b_id b = id) ->
   (forall id b, l_committed l1 !! id = Some b -> b_id b = id)) /\
  (is_Some (l_committed l !! l_commitID l) -> is_Some (l_committed l1 !! l_commitID l1)) /\
  (forall z, linked (l_commitID l) (sp_block <$> ss) z -> l_commitID l1 = z).
Proof.
  revert l. induction ss as [|s ss IH]; intros l; simpl.
  { rewrite !app_nil_r. split_and!; try done. intros x s Hs. split; [done|]. apply not_elem_of_nil. }
  destruct (IH (Commit_apply l s)) as (H1 & H2 & H3 & H4 & H5 & H6 & H7 & H8 & H9 & H10 & H11).
  simpl in *. split_and!; try done.
  - by rewrite H4, <- app_assoc.
  - by rewrite H5, <- app_assoc.
  - rewrite H6. destruct ss as [|s' ss]; [done|]. rewrite last_cons_cons. by destruct (last (s' :: ss)) eqn:E; [|by apply last_None in E].
  - etrans; [exact H7|apply delete_subseteq].
  - intros x s' Hx. destruct (H8 x s' Hx) as [[Hne Hp]%lookup_delete_Some Hn]. split; [done|].
    apply not_elem_of_cons. split; [congruence|done].
  - intros Hc. apply H9. intros id b [[<- <-]|[_ ?]]%lookup_insert_Some; [done|auto].
  - intros _. apply H10. exists (sp_block s). apply lookup_insert_eq.
  - intros z [_ Hl]. by apply H11.
Qed.

Lemma Commit_apply_pending ss l x :
  (forall c, c ∈ ss -> x ≠ b_id (sp_block c)) ->
  l_pending (fold_left Commit_apply ss l) !! x = l_pending l !! x.
Proof.
  revert l. induction ss as [|c ss IH]; intros l Hx; [done|]. simpl. rewrite IH.
  - simpl. apply lookup_delete_ne. intros <-. by apply (Hx c); [left|].
  - intros c' Hc'. apply Hx. by right.
Qed.

Lemma forget_loop_spec history commitID order committed :
  (0 <= history)%Z ->
  exists order' committed', forget_loop history commitID order committed = Some (order', committed') /\
    (Z.of_nat (length order') <= history)%Z /\ order' `suffix_of` order /\
    committed' ⊆ committed /\ committed' !! commitID = committed !! commitID /\
    (Z.of_nat (length order) <= history -> order' = order /\ committed' = committed)%Z /\
    (forall id, id ∈ order -> id ∉ order' -> id ≠ commitID -> committed' !! id = None).
Proof.
  intros Hh. revert committed. induction order as [|id order IH]; intros committed; cbn [forget_loop].
  - destruct (Z.ltb_spec history (Z.of_nat (length ([] : list bytes)))); [simpl in *; lia|].
    by exists [], committed.
  - destruct (Z.ltb_spec history (Z.of_nat (length (id :: order)))); simpl in *.
    + destruct (IH (if bool_decide (id ≠ commitID) then delete id committed else committed))
        as (o' & c' & -> & Hl & Hs & Hc & Hf & Hid & Hgone).
      exists o', c'. split; [done|]. split; [done|]. split; [by apply suffix_cons_r|].
      assert ((if bool_decide (id ≠ commitID) then delete id committed else committed) ⊆ committed) as Hsub
        by (case_bool_decide; [apply delete_subseteq|done]).
      split; [by etrans|]. split; [|split; [lia|]].
      * rewrite Hf. case_bool_decide; [|done]. by rewrite lookup_delete_ne.
      * intros x [->|Hx]%elem_of_cons Hn Hne; [|auto].
        destruct (c' !! id) eqn:E; [|done]. apply (lookup_weaken _ _ _ _ E) in Hc.
        rewrite bool_decide_eq_true_2, lookup_delete_eq in Hc by done. done.
    + exists (id :: order), committed. split_and!; try done.
Qed.

Section commit.
Context (U : Block -> Prop) (rank : bytes -> nat) (HU : block_universe U rank) `{RangeOrder}.

(** What [prune] leaves pending was pending before, and is neither the old nor the
    new frontier. *)
Lemma prune_survivor l ss id s x p :
  ledger_inv U l -> l_pending l !! id = Some s -> last ss = Some s ->
  l_pending (prune (fold_left Commit_apply ss l)) !! x = Some p ->
  l_pending l !! x = Some p /\ x ≠ id /\ x ≠ l_commitID l.
Proof.
  intros Hi Hs Hlast Hx. destruct (Commit_apply_fold l ss) as (_ & _ & _ & _ & _ & _ & _ & Hpend & _).
  pose proof (lookup_weaken _ _ _ _ Hx (sweep_sub _ _ _)) as Hx1. destruct (Hpend x p Hx1) as [Hx0 Hn].
  pose proof (frontier_not_pending U rank HU _ _ Hi) as Hold. split; [done|]. split; [|congruence].
  intros ->. apply Hn, list_elem_of_fmap. exists s. destruct (li_pending _ _ _ Hi id s Hs) as (_ & -> & _).
  split; [done|]. apply last_Some in Hlast as [ss' ->]. apply elem_of_app. right. by apply list_elem_of_singleton.
Qed.

(** [prune] restores the invariant once the chain up to [id] is applied. *)
Lemma prune_inv l ss id s :
  ledger_inv U l -> l_pending l !! id = Some s ->
  last ss = Some s -> linked (l_commitID l) (sp_block <$> ss) id ->
  (forall c, c ∈ ss -> l_pending l !! b_id (sp_block c) = Some c) ->
  ledger_inv U (prune (fold_left Commit_apply ss l)).
Proof.
  intros Hi Hs Hlast Hlink Hin. set (l1 := fold_left Commit_apply ss l).
  destruct (Commit_apply_fold l ss) as (E1 & _ & E3 & E4 & _ & E6 & _ & _ & Hkeys & Hfr & Hid).
  fold l1 in E1, E3, E4, E6, Hkeys, Hfr, Hid. specialize (Hid _ Hlink). rewrite Hlast in E6. simpl in E6.
  pose proof (frontier_not_pending U rank HU _ _ Hi) as Hold.
  assert (id ≠ l_commitID l) as Hne by (intros ->; congruence).
  set (kp := fun (_ : bytes) (p : speculated) => bool_decide (parentID (sp_block p) = l_commitID l1)).
  set (P := sweep (fun p => parentID (sp_block p)) kp (l_pending l1)).
  assert (l_pending (prune l1) = P) as HP by reflexivity.
  pose proof (sweep_closed (fun p => parentID (sp_block p)) kp (l_pending l1)) as Hclosed. fold P in Hclosed.
  pose proof (fun x p => prune_survivor l ss id s x p Hi Hs Hlast) as HPin. fold l1 in HPin. rewrite HP in HPin.
  split.
  - intros x p Hx. rewrite HP in Hx. destruct (HPin x p Hx) as (Hx0 & _).
    destruct (li_pending _ _ _ Hi x p Hx0) as (HUp & Hidp & prev & Hprev & Hst).
    split; [done|]. split; [done|]. exists prev. split; [|by cbn; rewrite E1].
    unfold PendingState. cbn [l_commitID l_commitState prune set_pending set_held].
    rewrite Hid, E6. destruct (Hclosed x p Hx) as [Hk|[q Hq]].
    + unfold kp in Hk. bools. rewrite Hk, Hid, bool_decide_eq_true_2 by done.
      rewrite Hk, Hid in Hprev. apply known_cases in Hprev as [[? _]|(_ & p' & Hp' & <-)]; congruence.
    + destruct (HPin _ _ Hq) as (Hq0 & Hq1 & Hq2). rewrite bool_decide_eq_false_2 by done.
      apply known_cases in Hprev as [[? _]|(_ & p' & Hp' & <-)]; [done|].
      change (sp_state <$> P !! parentID (sp_block p) = Some (sp_state p')). rewrite Hq. simpl. congruence.
  - intros x b Hb. change (filter (fun e => ~ (QCRound (b_qc e.2) <= commitRound l1)%N) (l_held l1) !! x = Some b) in Hb.
    apply map_lookup_filter_Some in Hb as [Hb Hr]. simpl in Hr. rewrite E3 in Hb.
    destruct (li_held _ _ _ Hi x b Hb) as (HUb & Hidb & _ & [Hn|[]]).
    split; [done|]. split; [done|]. split; [change (commitRound l1 < QCRound (b_qc b))%N; lia|]. left.
    unfold PendingState. cbn [l_commitID l_commitState prune set_pending set_held]. rewrite Hid.
    unfold PendingState in Hn. case_bool_decide as Hc; [done|]. apply fmap_None in Hn.
    rewrite bool_decide_eq_false_2 by congruence.
    change (sp_state <$> P !! parentID b = None). destruct (P !! parentID b) as [q|] eqn:E; [|done].
    apply HPin in E as (? & _). congruence.
  - apply Hkeys, Hi.
  - apply Hfr, Hi.
  - cbn. rewrite E4, Hid. eapply linked_app; [apply Hi|exact Hlink].
  - cbn. rewrite E4. apply Forall_app. split; [apply Hi|]. apply Forall_fmap, Forall_forall.
    intros c Hc. by destruct (li_pending _ _ _ Hi _ _ (Hin c Hc)) as (? & _).
Qed.

Lemma forget_inv l :
  ledger_inv U l -> (0 <= l_History l)%Z ->
  exists l', forget l = Some l' /\ ledger_inv U l' /\ l_pending l' = l_pending l /\ l_held l' = l_held l /\
    l_commitID l' = l_commitID l /\ l_commitState l' = l_commitState l /\ l_onCommit l' = l_onCommit l /\
    l_Execute l' = l_Execute l /\ l_History l' = l_History l /\
    (Z.of_nat (length (l_order l')) <= l_History l)%Z /\ commitRound l' = commitRound l.
Proof.
  intros Hi Hh. destruct (forget_loop_spec (l_History l) (l_commitID l) (l_order l) (l_committed l) Hh)
    as (o' & c' & E & Hlen & _ & Hsub & Hfr & _). unfold forget. rewrite E. simpl.
  eexists. split; [done|]. simpl.
  assert (commitRound (MkMemLedger (l_Execute l) (l_History l) (l_pending l) (l_held l) c' o'
          (l_commitID l) (l_commitState l) (l_onCommit l)) = commitRound l) as Hcr
    by (unfold commitRound; simpl; by rewrite Hfr).
  split_and!; try done. split; try apply Hi; simpl.
  - intros id b Hb. rewrite Hcr. exact (li_held _ _ _ Hi id b Hb).
  - intros id b Hb. apply (li_committed _ _ _ Hi). by eapply lookup_weaken.
  - rewrite Hfr. apply Hi.
Qed.

Lemma Commit_pending l id s :
  ledger_inv U l -> (0 <= l_History l)%Z -> l_pending l !! id = Some s ->
  exists l' bs, Commit l id = Some l' /\ ledger_inv U l' /\
    l_commitID l' = id /\ l_commitState l' = sp_state s /\
    l_onCommit l' = l_onCommit l ++ bs /\ bs ≠ [] /\ linked (l_commitID l) bs id /\
    fold_left (fun st b => l_Execute l st (b_payload b)) bs (l_commitState l) = l_commitState l' /\
    l_Execute l' = l_Execute l /\ l_History l' = l_History l /\
    (Z.of_nat (length (l_order l')) <= l_History l)%Z.
Proof.
  intros Hi Hh Hs. destruct (Commit_walk_fuel U rank HU l id s Hi Hs) as (chain & Hw & Hhd & Hl & Hin & Hex).
  set (ss := reverse chain) in *. assert (last ss = Some s) as Hlast by (unfold ss; by rewrite last_reverse).
  assert (forall c, c ∈ ss -> l_pending l !! b_id (sp_block c) = Some c) as Hin'.
  { intros c Hc. unfold ss in Hc. rewrite elem_of_reverse in Hc. auto. }
  pose proof (prune_inv l ss id s Hi Hs Hlast Hl Hin') as Hi1.
  destruct (Commit_apply_fold l ss) as (E1 & E2 & _ & E4 & _ & E6 & _ & _ & _ & _ & Hid).
  specialize (Hid _ Hl). rewrite Hlast in E6.
  destruct (forget_inv _ Hi1) as (l' & Hf & Hi' & F1 & F2 & F3 & F4 & F5 & F6 & F7 & F8 & F9).
  { cbn. by rewrite E2. }
  exists l', (sp_block <$> ss). unfold Commit. rewrite bool_decide_eq_false_2.
  2: { intros ->. by rewrite (frontier_not_pending U rank HU _ _ Hi) in Hs. }
  rewrite Hw. split; [exact Hf|]. cbn in F3, F4, F5, F6, F7, F8.
  rewrite F3, F4, F5, F6, F7, Hid, E6, E4, E1, E2. rewrite E2 in F8. split_and!; try done.
  intros Hnil. apply fmap_nil_inv in Hnil. by rewrite Hnil in Hlast.
Qed.

(** Following parents from [x] through speculated blocks reaches [a]. *)
Inductive descends (l : MemLedger) (a : bytes) : bytes -> Prop :=
  | descends_child x s : l_pending l !! x = Some s -> parentID (sp_block s) = a -> descends l a x
  | descends_step x s : l_pending l !! x = Some s -> descends l a (parentID (sp_block s)) -> descends l a x.

Lemma descends_rank l a x : ledger_inv U l -> descends l a x -> rank a < rank x.
Proof.
  intros Hi Hd. induction Hd as [x s Hs Hp|x s Hs _ IH]; destruct (li_pending _ _ _ Hi x s Hs) as (HUs & Hid & _);
    pose proof (bu_rank _ _ HU _ HUs) as Hr; rewrite Hid in Hr; [by rewrite Hp in Hr|lia].
Qed.

Abbreviation under id := (fun (_ : bytes) (p : speculated) => bool_decide (parentID (sp_block p) = id)).
Abbreviation parent_of := (fun p => parentID (sp_block p)).

(** The blocks of a linked list rank at most as high as its end. *)
Lemma linked_below a bs z b : Forall U bs -> linked a bs z -> b ∈ bs -> rank (b_id b) <= rank z.
Proof.
  intros HF Hl [p [q ->]]%list_elem_of_split. revert a Hl. induction p as [|c p IH]; intros a; csimpl.
  - intros [_ Hl]. apply Forall_app in HF as [_ HF]. apply Forall_cons in HF as [_ HF].
    pose proof (linked_rank_le U rank HU _ _ _ HF Hl). lia.
  - intros [_ Hl]. eapply IH; [by apply Forall_cons in HF as [_ HF]|done].
Qed.

Lemma prune_descends l ss id x s :
  ledger_inv U l -> linked (l_commitID l) (sp_block <$> ss) id ->
  (forall c, c ∈ ss -> l_pending l !! b_id (sp_block c) = Some c) ->
  l_pending (prune (fold_left Commit_apply ss l)) !! x = Some s <->
  l_pending l !! x = Some s /\ descends l id x.
Proof.
  intros Hi Hlink Hin. set (l1 := fold_left Commit_apply ss l).
  destruct (Commit_apply_fold l ss) as (_ & _ & _ & _ & _ & _ & Hsub & _ & _ & _ & Hid).
  specialize (Hid _ Hlink). fold l1 in Hsub, Hid.
  change (sweep parent_of (under (l_commitID l1)) (l_pending l1) !! x = Some s <->
          l_pending l !! x = Some s /\ descends l id x). rewrite Hid.
  assert (Forall U (sp_block <$> ss)) as HF.
  { apply Forall_fmap, Forall_forall. intros c Hc. by destruct (li_pending _ _ _ Hi _ _ (Hin c Hc)) as (? & _). }
  assert (forall y p, l_pending l !! y = Some p -> rank id < rank y -> l_pending l1 !! y = Some p) as Hkeep.
  { intros y p Hy Hr. unfold l1. rewrite Commit_apply_pending; [done|]. intros c Hc ->.
    pose proof (linked_below _ _ _ (sp_block c) HF Hlink) as Hle. rewrite list_elem_of_fmap in Hle.
    specialize (Hle ltac:(eauto)). lia. }
  split.
  - intros Hs. assert (anchored parent_of (under id) (l_pending l1) x) as Ha.
    { apply (sweep_anchored _ _ rank); [|by eexists]. intros y p Hy.
      assert (l_pending l !! y = Some p) as Hy' by (by eapply lookup_weaken).
      destruct (li_pending _ _ _ Hi y p Hy') as (HUp & Hidp & _). pose proof (bu_rank _ _ HU _ HUp). congruence. }
    split; [eapply lookup_weaken; [|exact Hsub]; by eapply lookup_weaken, sweep_sub|]. clear Hs.
    induction Ha as [y p Hy Hk|y p Hy _ IH]; [eapply descends_child|eapply descends_step];
      try (by eapply lookup_weaken); [by bools|done].
  - intros [Hs Hd]. assert (anchored parent_of (under id) (l_pending l1) x) as Ha.
    { clear Hs. induction Hd as [y p Hy Hp|y p Hy Hd IH].
      - eapply anchored_keep; [apply (Hkeep y p Hy)|by rewrite bool_decide_eq_true_2].
        destruct (li_pending _ _ _ Hi y p Hy) as (HUp & Hidp & _). pose proof (bu_rank _ _ HU _ HUp). congruence.
      - eapply anchored_parent; [apply (Hkeep y p Hy)|done].
        pose proof (descends_rank _ _ _ Hi (descends_step _ _ _ _ Hy Hd)). done. }
    destruct (anchored_sweep _ _ _ _ Ha) as [s' Hs']. rewrite Hs'. f_equal.
    assert (l_pending l !! x = Some s') by (eapply lookup_weaken; [|exact Hsub]; by eapply lookup_weaken, sweep_sub).
    congruence.
Qed.

Lemma Commit_descendants l id s l' x p :
  ledger_inv U l -> l_pending l !! id = Some s -> Commit l id = Some l' ->
  l_pending l' !! x = Some p <-> l_pending l !! x = Some p /\ descends l id x.
Proof.
  intros Hi Hs. destruct (Commit_walk_fuel U rank HU l id s Hi Hs) as (chain & Hw & _ & Hl & Hin & _).
  unfold Commit. rewrite bool_decide_eq_false_2.
  2: { intros ->. by rewrite (frontier_not_pending U rank HU _ _ Hi) in Hs. }
  rewrite Hw. simpl. unfold forget. destruct (forget_loop _ _ _ _) as [[o c]|]; [|done].
  intros [= <-]. cbn [l_pending]. apply prune_descends; [done..|]. intros c' Hc'. apply Hin. by rewrite <- elem_of_reverse.
Qed.

Lemma Commit_not_pending l id :
  ledger_inv U l -> l_pending l !! id = None -> Commit l id = Some l.
Proof.
  intros Hi Hn. unfold Commit. case_bool_decide as Hc; [done|].
  cbn [Commit_walk]. by rewrite bool_decide_eq_false_2, Hn by done.
Qed.
End commit.

(** *** Where committed blocks come from *)

Lemma Commit_walk_pending fuel l id chain s :
  Commit_walk fuel l id = Some (Some chain) -> s ∈ chain -> exists k, l_pending l !! k = Some s.
Proof.
  revert id chain. induction fuel as [|fuel IH]; intros id chain; cbn [Commit_walk]; case_bool_decide; try done.
  - intros [= <-] Hs. by apply not_elem_of_nil in Hs.
  - intros [= <-] Hs. by apply not_elem_of_nil in Hs.
  - destruct (l_pending l !! id) as [s0|] eqn:E; [|done].
    destruct (Commit_walk fuel l _) as [[chain'|]|] eqn:Ew; [|done..]. intros [= <-] [->|Hs]%elem_of_cons; eauto.
Qed.

Lemma Commit_apply_committed ss l k b :
  l_committed (fold_left Commit_apply ss l) !! k = Some b ->
  l_committed l !! k = Some b \/ exists s, s ∈ ss /\ sp_block s = b.
Proof.
  revert l. induction ss as [|s ss IH]; intros l; simpl; [by left|]. intros [Hb|(s' & ? & ?)]%IH.
  - simpl in Hb. apply lookup_insert_Some in Hb as [[_ <-]|[_ Hb]]; [right; exists s; split; [by left|done]|by left].
  - right. exists s'. split; [by right|done].
Qed.

Lemma forget_loop_sub history commitID order committed order' committed' :
  forget_loop history commitID order committed = Some (order', committed') -> committed' ⊆ committed.
Proof.
  revert committed. induction order as [|id order IH]; intros committed; cbn [forget_loop].
  - destruct (_ <? _)%Z; [done|]. by intros [= _ <-].
  - destruct (_ <? _)%Z; [|by intros [= _ <-]]. intros Hc%IH. etrans; [exact Hc|].
    case_bool_decide; [apply delete_subseteq|done].
Qed.

Lemma Commit_committed `{RangeOrder} l id l' k b :
  Commit l id = Some l' -> l_committed l' !! k = Some b ->
  l_committed l !! k = Some b \/ exists i s, l_pending l !! i = Some s /\ sp_block s = b.
Proof.
  unfold Commit. case_bool_decide; [intros [= <-]; by left|].
  intros ([chain|] & Hw & E)%bind_Some; [|injection E as <-; by left].
  unfold forget in E. apply bind_Some in E as ([o c] & Ef & [= <-]). cbn [l_committed]. intros Hb.
  eapply lookup_weaken in Hb; [|by eapply forget_loop_sub].
  apply Commit_apply_committed in Hb as [?|(s & Hs & ?)]; [by left|right].
  rewrite elem_of_reverse in Hs. destruct (Commit_walk_pending _ _ _ _ _ Hw Hs) as [i Hi]. eauto.
Qed.

(** ** Runs of the ledger *)

Inductive ledger_op := OpSpeculate (b : Block) | OpCommit (id : bytes).

Definition ledger_step `{RangeOrder} (l : MemLedger) (o : ledger_op) : option MemLedger :=
  match o with OpSpeculate b => Some (Speculate l b).1 | OpCommit id => Commit l id end.

Fixpoint ledger_run `{RangeOrder} (l : MemLedger) (ops : list ledger_op) : option MemLedger :=
  match ops with [] => Some l | o :: ops => l ← ledger_step l o; ledger_run l ops end.

(** The abstract ledger: the state after a log is the log executed in order. *)
Definition exec_log (bs : list Block) : bytes :=
  fold_left (fun st b => ExecuteHash st (b_payload b)) bs (ExecuteHash zeroHash []).

Section runs.
Context (U : Block -> Prop) (rank : bytes -> nat) (HU : block_universe U rank) `{RangeOrder}.

Record ledger_ok (l : MemLedger) : Prop := {
  lk_inv : ledger_inv U l;
  lk_Execute : l_Execute l = ExecuteHash;
  lk_History : l_History l = defaultHistory;
  lk_state : l_commitState l = exec_log (l_onCommit l);
  lk_order : (Z.of_nat (length (l_order l)) <= defaultHistory)%Z;
  lk_committed : forall id b, l_committed l !! id = Some b -> U b \/ b = genesisBlock;
}.

Lemma NewMemLedger_inv : ledger_inv U NewMemLedger.
Proof.
  split; cbn [l_pending l_held l_committed l_commitID l_onCommit NewMemLedger].
  - intros id s Hs. by rewrite lookup_empty in Hs.
  - intros id s Hs. by rewrite lookup_empty in Hs.
  - intros id b [<- <-]%lookup_singleton_Some. reflexivity.
  - rewrite lookup_singleton_eq. by eexists.
  - reflexivity.
  - constructor.
Qed.

Lemma NewMemLedger_ok : ledger_ok NewMemLedger.
Proof.
  split; [apply NewMemLedger_inv|reflexivity..| |].
  - cbn [l_order NewMemLedger]. unfold defaultHistory. simpl. lia.
  - cbn [l_committed NewMemLedger]. intros id b [_ <-]%lookup_singleton_Some. right. reflexivity.
Qed.

Lemma ledger_step_ok l o :
  ledger_ok l -> (forall b, o = OpSpeculate b -> U b) -> exists l', ledger_step l o = Some l' /\ ledger_ok l'.
Proof.
  intros Hl Ho. destruct o as [b|id]; simpl.
  - eexists. split; [done|]. specialize (Ho b eq_refl). pose proof (lk_inv _ Hl) as Hi.
    destruct (Speculate_frozen U rank HU l b Hi Ho) as (E1 & E2 & E3 & E4 & _ & E6 & E7).
    split; rewrite ?E1, ?E2, ?E3, ?E4, ?E6, ?E7; try apply Hl. by apply (Speculate_inv U rank HU).
  - destruct (l_pending l !! id) as [s|] eqn:Hs.
    + destruct (Commit_pending U rank HU l id s) as (l' & bs & E & Hi & _ & _ & E4 & _ & _ & E7 & E8 & E9 & E10);
        [apply Hl|by rewrite (lk_History _ Hl)|done|].
      exists l'. rewrite (lk_History _ Hl) in *. rewrite (lk_Execute _ Hl) in *. split; [done|].
      split; try done.
      * unfold exec_log. rewrite E4, fold_left_app. rewrite (lk_state _ Hl) in E7. by rewrite <- E7.
      * intros k b Hb. destruct (Commit_committed l id l' k b E Hb) as [?|(i & p & Hp & <-)]; [by eapply lk_committed|].
        left. apply (li_pending _ _ _ (lk_inv _ Hl) i p Hp).
    + exists l. split; [|done]. by apply (Commit_not_pending U); [apply Hl|].
Qed.

Lemma ledger_run_ok l ops :
  ledger_ok l -> (forall b, OpSpeculate b ∈ ops -> U b) -> exists l', ledger_run l ops = Some l' /\ ledger_ok l'.
Proof.
  revert l. induction ops as [|o ops IH]; intros l Hl Hops; simpl; [eauto|].
  destruct (ledger_step_ok l o Hl) as (l1 & -> & Hl1); [intros b ->; apply Hops; by left|].
  apply IH; [done|]. intros b Hb. apply Hops. by right.
Qed.
End runs.

Section run_order.
Context (U : Block -> Prop) (rank : bytes -> nat) (HU : block_universe U rank) (o o' : RangeOrder).

Lemma Commit_order_irrelevant l id : @Commit o l id = @Commit o' l id.
Proof.
  unfold Commit. case_bool_decide; [done|]. destruct (Commit_walk _ _ _) as [[chain|]|]; [|done..].
  cbn [mbind option_bind]. f_equal. unfold prune, set_pending. cbn. f_equal. apply sweep_order_irrelevant.
Qed.

Lemma ledger_run_order l ops :
  ledger_ok U l -> (forall b, OpSpeculate b ∈ ops -> U b) -> @ledger_run o l ops = @ledger_run o' l ops.
Proof.
  revert l. induction ops as [|op ops IH]; intros l Hl Hops; [done|]. cbn [ledger_run].
  assert (forall b, op = OpSpeculate b -> U b) as Hop by (intros b ->; apply Hops; left).
  assert (@ledger_step o l op = @ledger_step o' l op) as ->.
  { destruct op as [b|id]; cbn [ledger_step]; [|apply Commit_order_irrelevant].
    by rewrite (Speculate_order_irrelevant U rank HU o o' l b (lk_inv _ _ Hl) (Hop b eq_refl)). }
  destruct (@ledger_step_ok U rank HU o' l op Hl Hop) as (l1 & -> & Hl1). cbn [mbind option_bind]. apply IH; [done|].
  intros b Hb. apply Hops. by right.
Qed.
End run_order.

(** ** What the ledger promises *)

(** C13. Fed any sequence of calls of [Speculate] and [Commit] on blocks
    whose ids determine parent and payload and whose parent links do not form a
    cycle, in any order, the ledger that [NewMemLedger] returns never loops and never
    panics, and ends up the same whatever the order of map iterations; the blocks passed to
    [OnCommit] form one chain from genesis to the commit frontier, the committed
    state is that chain executed in order, every state the ledger reports for a
    block is the committed chain followed by the path to that block executed in
    order, and at most [defaultHistory] committed ids are retained. *)
Theorem ledger_run_correct (U : Block -> Prop) (rank : bytes -> nat) (ops : list ledger_op) :
  block_universe U rank -> (forall b, OpSpeculate b ∈ ops -> U b) ->
  exists l, (forall o : RangeOrder, ledger_run NewMemLedger ops = Some l) /\
    linked (b_id genesisBlock) (l_onCommit l) (l_commitID l) /\
    l_commitState l = exec_log (l_onCommit l) /\
    (forall id st, PendingState l id = Some st ->
      exists path, linked (l_commitID l) path id /\ st = exec_log (l_onCommit l ++ path)) /\
    (Z.of_nat (length (l_order l)) <= defaultHistory)%Z.
Proof.
  intros HU Hops. pose proof (NewMemLedger_ok U) as H0.
  destruct (@ledger_run_ok U rank HU canonical_range NewMemLedger ops H0 Hops) as (l & Hl & Hok).
  exists l. split; [intros o; by rewrite (ledger_run_order U rank HU o canonical_range)|]. split_and!; [apply Hok..| |apply Hok].
  intros id st Hst. destruct (known_path U rank HU l id st (lk_inv _ _ Hok) Hst) as (path & _ & Hp & Hex).
  exists path. split; [done|]. unfold exec_log. rewrite fold_left_app. fold (exec_log (l_onCommit l)).
  by rewrite <- Hex, (lk_Execute _ _ Hok), (lk_state _ _ Hok).
Qed.

(** Three blocks over genesis, the last two siblings. *)
Definition demo_child (id : Byte.byte) (round : uint64) (parent : bytes) : Block :=
  MkBlock 1 round [[id]] (Some (MkQuorumCert (Some (MkVoteInfo parent (round - 1) [] 0 [])) None [] 0 None)) [id].
Definition demo_b1 : Block := demo_child x01 1 (b_id genesisBlock).
Definition demo_b2 : Block := demo_child x02 2 [x01].
Definition demo_b3 : Block := demo_child x03 3 [x01].
Definition demo_universe (b : Block) : Prop := b ∈ [demo_b1; demo_b2; demo_b3].
Definition demo_rank (id : bytes) : nat :=
  if bool_decide (id = [x01]) then 1 else if bool_decide (id = [x02]) then 2 else if bool_decide (id = [x03]) then 2 else 0.

Lemma demo_block_universe : block_universe demo_universe demo_rank.
Proof.
  assert (forall id, length id = 1 -> parentID demo_b1 ≠ id) as Hg.
  { intros id Hid E. apply (f_equal length) in E. rewrite Hid in E. vm_compute in E. discriminate. }
  assert (demo_rank (parentID demo_b1) = 0) as H0
    by (unfold demo_rank; by rewrite !bool_decide_eq_false_2 by (by apply Hg)).
  split.
  - intros b b' Hb Hb'. unfold demo_universe in *. set_unfold.
    destruct Hb as [->|[->|[->|[]]]], Hb' as [->|[->|[->|[]]]]; try (intros _; split; reflexivity);
      intros E; discriminate E.
  - intros b Hb. unfold demo_universe in Hb. set_unfold in Hb.
    destruct Hb as [->|[->|[->|[]]]]; [unfold lt; rewrite H0|..]; apply Nat.leb_le; reflexivity.
Qed.

Definition demo_ops : list ledger_op :=
  [OpSpeculate demo_b2; OpSpeculate demo_b1; OpSpeculate demo_b3; OpCommit [x02]].

Lemma demo_ops_fed b : OpSpeculate b ∈ demo_ops -> demo_universe b.
Proof. unfold demo_ops, demo_universe. set_unfold. naive_solver. Qed.

Lemma ledger_run_correct_witness :
  exists l, ledger_run NewMemLedger demo_ops = Some l /\ l_onCommit l = [demo_b1; demo_b2] /\
    linked (b_id genesisBlock) (l_onCommit l) (l_commitID l) /\ l_commitState l = exec_log (l_onCommit l).
Proof.
  destruct (ledger_run_correct demo_universe demo_rank demo_ops demo_block_universe demo_ops_fed)
    as (l & Hl & H1 & H2 & _).
  exists l. split; [apply Hl|]. split; [|split; [exact H1|exact H2]].
  assert (option_map l_onCommit (ledger_run NewMemLedger demo_ops) = Some [demo_b1; demo_b2]) as E
    by (vm_compute; reflexivity).
  rewrite Hl in E. by injection E.
Defined.

(** C15. [Speculate] on each branch. An unknown parent: the zero state is
    returned and the block is held, unless its certificate is at or below the
    commit frontier, and then nothing changes. A known parent: the result is the
    payload executed over the parent's state and is what [PendingState] now
    reports for the block; no state known before changes; a held block is
    released exactly when a parent of it became known, and is then executed; the
    committed part is untouched. The order in which the held blocks are visited, Go's
    map order, makes no difference to any of it. *)
Theorem Speculate_spec `{RangeOrder} (U : Block -> Prop) (rank : bytes -> nat) (l : MemLedger) (b : Block) :
  block_universe U rank -> ledger_inv U l -> U b ->
  let '(l', st) := Speculate l b in
  (forall o : RangeOrder, Speculate l b = (l', st)) /\ ledger_inv U l' /\
  match PendingState l (parentID b) with
  | None =>
      st = zeroHash /\
      l' = if (commitRound l <? QCRound (b_qc b))%N then set_held <[b_id b := b]> l else l
  | Some prev =>
      st = l_Execute l prev (b_payload b) /\ PendingState l' (b_id b) = Some st /\
      (forall id s, PendingState l id = Some s -> PendingState l' id = Some s) /\
      (forall id h, l_held l !! id = Some h ->
         l_held l' !! id = Some h /\ PendingState l' (parentID h) = None \/
         l_held l' !! id = None /\ is_Some (PendingState l' id)) /\
      l_commitID l' = l_commitID l /\ l_commitState l' = l_commitState l /\
      l_committed l' = l_committed l /\ l_onCommit l' = l_onCommit l
  end.
Proof.
  intros HU Hi Hb. pose proof (Speculate_inv U rank HU l b Hi Hb) as Hi'. pose proof (Speculate_state l b) as Hst.
  pose proof (fun o => Speculate_order_irrelevant U rank HU o H l b Hi Hb) as Hord.
  destruct (PendingState l (parentID b)) as [prev|] eqn:Hp.
  2: { rewrite (Speculate_unknown l b Hp) in Hi' |- *. split; [intros o; by apply Speculate_unknown|]. by split. }
  destruct (Speculate_known U rank HU l b prev Hi Hb Hp) as (_ & Hext & Hid).
  destruct (insert_known U rank HU _ l b prev Hi Hb Hp) as (_ & Hkeep & _).
  destruct (Speculate l b) as [l' st]. simpl in *. subst st. split; [exact Hord|]. split_and!; try done; try apply Hext.
  - intros id s Hs. by apply (le_known _ _ Hext), Hkeep.
  - intros id h Hh. destruct (l_held l' !! id) as [h'|] eqn:E.
    + left. pose proof (lookup_weaken _ _ _ _ E (le_held _ _ Hext)) as E'. simpl in E'. split; [congruence|].
      destruct (li_held _ _ _ Hi' _ _ E) as (_ & _ & _ & [?|[]]). congruence.
    + right. split; [done|]. apply (le_gone _ _ Hext); [by eexists|done].
Qed.

Definition demo_run (ops : list ledger_op) : MemLedger := default NewMemLedger (ledger_run NewMemLedger ops).

Lemma demo_run_inv ops : (forall b, OpSpeculate b ∈ ops -> demo_universe b) -> ledger_inv demo_universe (demo_run ops).
Proof.
  intros Hops. unfold demo_run.
  destruct (ledger_run_ok _ _ demo_block_universe NewMemLedger ops (NewMemLedger_ok _) Hops) as (l & -> & Hok).
  apply Hok.
Qed.

Lemma demo_fed_hold : forall b, OpSpeculate b ∈ [OpSpeculate demo_b2] -> demo_universe b.
Proof. unfold demo_universe. set_solver. Qed.

Lemma demo_fed_spec :
  forall b, OpSpeculate b ∈ [OpSpeculate demo_b1; OpSpeculate demo_b2; OpSpeculate demo_b3] -> demo_universe b.
Proof. unfold demo_universe. set_solver. Qed.

(** The second block is held; the first one releases it. *)
Lemma Speculate_spec_witness :
  let l := demo_run [OpSpeculate demo_b2] in
  l_held l !! [x02] = Some demo_b2 /\
  ledger_inv demo_universe (Speculate l demo_b1).1 /\ is_Some (PendingState (Speculate l demo_b1).1 [x02]).
Proof.
  intros l.
  pose proof (Speculate_spec demo_universe demo_rank l demo_b1 demo_block_universe (demo_run_inv _ demo_fed_hold)) as S.
  assert (l_held l !! [x02] = Some demo_b2) as E by (vm_compute; reflexivity).
  split; [exact E|]. destruct (Speculate l demo_b1) as [l' st] eqn:El.
  destruct S as (_ & Hi & _); [by left|]. split; [exact Hi|].
  change l' with (l', st).1. rewrite <- El. refine (bool_decide_unpack _ _). vm_compute. exact I.
Defined.

(** C14. [Commit] on each branch. An id that is not speculated, the frontier
    itself included, changes nothing. A speculated block becomes the frontier
    with its speculated state as the committed state; the log is extended by
    exactly the blocks from the old frontier to it, oldest first; and what stays
    speculated is exactly what descends from it: the branches that fork below it
    are gone. *)
Theorem Commit_spec `{RangeOrder} (U : Block -> Prop) (rank : bytes -> nat) (l : MemLedger) (id : bytes) :
  block_universe U rank -> ledger_inv U l -> (0 <= l_History l)%Z ->
  match l_pending l !! id with
  | None => Commit l id = Some l
  | Some s =>
      exists l' bs, Commit l id = Some l' /\ ledger_inv U l' /\
        l_commitID l' = id /\ l_commitState l' = sp_state s /\
        bs ≠ [] /\ linked (l_commitID l) bs id /\ l_onCommit l' = l_onCommit l ++ bs /\
        (forall x p, l_pending l' !! x = Some p <-> l_pending l !! x = Some p /\ descends l id x) /\
        (Z.of_nat (length (l_order l')) <= l_History l)%Z
  end.
Proof.
  intros HU Hi Hh. destruct (l_pending l !! id) as [s|] eqn:Hs; [|by eapply Commit_not_pending].
  destruct (Commit_pending U rank HU l id s Hi Hh Hs) as (l' & bs & E & ? & ? & ? & ? & ? & ? & _ & _ & _ & ?).
  exists l', bs. split_and!; try done. intros x p. by eapply Commit_descendants.
Qed.

(** Committing the second block drops its sibling. *)
Lemma Commit_spec_witness :
  let l := demo_run [OpSpeculate demo_b1; OpSpeculate demo_b2; OpSpeculate demo_b3] in
  is_Some (l_pending l !! [x03]) /\
  exists l', Commit l [x02] = Some l' /\ l_commitID l' = [x02] /\ ~ descends l [x02] [x03].
Proof.
  intros l.
  pose proof (Commit_spec demo_universe demo_rank l [x02] demo_block_universe (demo_run_inv _ demo_fed_spec)) as S.
  assert (is_Some (l_pending l !! [x02])) as [s Hs] by (refine (bool_decide_unpack _ _); vm_compute; exact I).
  assert (is_Some (l_pending l !! [x03])) as [p Hp] by (refine (bool_decide_unpack _ _); vm_compute; exact I).
  assert (0 <= l_History l)%Z as Hh by (vm_compute; discriminate).
  assert ((Commit l [x02] ≫= fun l' => l_pending l' !! [x03]) = None) as En by (vm_compute; reflexivity).
  clearbody l. specialize (S Hh). rewrite Hs in S.
  destruct S as (l' & bs & E & _ & Hc & _ & _ & _ & _ & Hd & _). split; [eauto|].
  exists l'. split; [exact E|]. split; [exact Hc|]. intros Hx. rewrite E in En. simpl in En.
  assert (l_pending l' !! [x03] = Some p) as Hp' by (apply Hd; done). congruence.
Defined.

(** [Missing] ends; it answers nil exactly for a block that is not held,
    and otherwise the id at the far end of a chain of held blocks leading to it:
    an id the ledger neither holds nor has a state for. *)
Theorem Missing_spec `{RangeOrder} (U : Block -> Prop) (rank : bytes -> nat) (l : MemLedger) (id : bytes) :
  block_universe U rank -> ledger_inv U l ->
  exists r, Missing l id = Some r /\
    match r with
    | None => l_held l !! id = None
    | Some p =>
        is_Some (l_held l !! id) /\ l_held l !! p = None /\ PendingState l p = None /\
        exists path, linked p path id /\ forall c, c ∈ path -> l_held l !! b_id c = Some c
    end.
Proof.
  intros HU Hi. unfold Missing. destruct (l_held l !! id) as [b|] eqn:Hb; [|by exists None].
  destruct (Missing_loop_spec U rank HU (S (size (l_held l))) l b id Hi Hb) as (p & path & -> & ? & ? & ? & ?).
  { pose proof (below_size rank (l_held l) (rank id)). lia. }
  exists (Some p). simpl. eauto 10.
Qed.

Lemma Missing_spec_witness :
  exists r, Missing (demo_run [OpSpeculate demo_b2]) [x02] = Some r /\ r = Some [x01].
Proof.
  destruct (Missing_spec demo_universe demo_rank (demo_run [OpSpeculate demo_b2]) [x02]
              demo_block_universe (demo_run_inv _ demo_fed_hold)) as (r & Hr & _).
  exists r. split; [exact Hr|].
  assert (Missing (demo_run [OpSpeculate demo_b2]) [x02] = Some (Some [x01])) as E by (vm_compute; reflexivity).
  congruence.
Defined.
