(* ===== verification/BlockTree.v ===== *)
(** [diem/blocktree.go]: the pending block tree, the vote accumulator and the two
    highest certificates. The tree's pointer to the ledger is an argument; an
    operation that touches it returns both. [None] is a loop of the ledger that
    does not end (see [Ledger]). *)

From stdpp Require Import prelude gmap list fin_maps sorting.
From Stdlib Require Import NArith ZArith Lia Strings.Byte.
From S2P Require Import Prelude Sha256 Proto Hash Types Quorum Verify Orphans Ledger.

Record voteBucket := MkVoteBucket {
  vb_voteInfo : option VoteInfo;
  vb_commit : option LedgerCommitInfo;
  vb_sigs : list Signature;
}.

(** [voterKey{round, signer}]. *)
Definition voterKey : Type := uint64 * uint32.
#[export] Instance voterKey_eq_dec : EqDecision voterKey := _.
#[export] Instance voterKey_countable : Countable voterKey := _.

Record BlockTree := MkBlockTree {
  t_id : uint32;
  t_quorum : Z;
  t_pending : gmap bytes Block;
  t_votes : gmap bytes voteBucket;
  t_voters : gset voterKey;
  t_highQC : option QuorumCert;
  t_highCommitQC : option QuorumCert;
}.

Definition NewBlockTree (id : uint32) (quorum : Z) : BlockTree :=
  MkBlockTree id quorum ∅ ∅ ∅ (Some genesisQC) (Some genesisQC).

Definition HighQC (t : BlockTree) : option QuorumCert := t_highQC t.
Definition HighCommitQC (t : BlockTree) : option QuorumCert := t_highCommitQC t.

(** [BlockTree.Block]. *)
Definition PendingBlock (t : BlockTree) (id : bytes) : option Block := t_pending t !! id.

Definition canonical (sigs : list Signature) : list Signature := sort_by sg_signer sigs.

Section ops.
Context `{RangeOrder}.

Definition prune (t : BlockTree) (rootID : bytes) (rootRound : uint64) : BlockTree :=
  let root := rootID in
  let pending := filter (fun e : bytes * Block => ~ ((b_round e.2 <= rootRound)%N /\ e.1 ≠ root)) (t_pending t) in
  let pending := sweep parentID (fun id b => bool_decide (id = root) || bool_decide (parentID b = root)) pending in
  MkBlockTree (t_id t) (t_quorum t) pending
    (filter (fun e : bytes * voteBucket => ~ (VoteInfo_GetRound (vb_voteInfo e.2) <= rootRound)%N) (t_votes t))
    (filter (fun vk : voterKey => ~ (vk.1 <= rootRound)%N) (t_voters t))
    (t_highQC t) (t_highCommitQC t).

Definition ProcessQC (l : MemLedger) (t : BlockTree) (qc : option QuorumCert) : option (MemLedger * BlockTree) :=
  match qc with
  | None => Some (l, t)
  | Some _ =>
      '(l, t) ←
        (if Commits (QuorumCert_GetLedgerCommitInfo qc) then
           let vi := QuorumCert_GetVoteInfo qc in
           l ← Commit l (VoteInfo_GetParentId vi);
           let t := prune t (VoteInfo_GetParentId vi) (VoteInfo_GetParentRound vi) in
           Some (l, MkBlockTree (t_id t) (t_quorum t) (t_pending t) (t_votes t) (t_voters t)
                      (t_highQC t) (higher qc (t_highCommitQC t)))
         else Some (l, t));
      Some (l, MkBlockTree (t_id t) (t_quorum t) (t_pending t) (t_votes t) (t_voters t)
                 (higher qc (t_highQC t)) (t_highCommitQC t))
  end.

Definition ExecuteAndInsert (l : MemLedger) (t : BlockTree) (b : Block) : MemLedger * BlockTree :=
  let l := (Speculate l b).1 in
  (l, MkBlockTree (t_id t) (t_quorum t) (<[b_id b := b]> (t_pending t)) (t_votes t) (t_voters t)
        (t_highQC t) (t_highCommitQC t)).

(** A nil signature pointer appended to a bucket reads as the zero signature. *)
Definition ProcessVote (c : Crypto) (l : MemLedger) (t : BlockTree) (v : VoteMsg)
    : option (MemLedger * BlockTree * option QuorumCert) :=
  '(l, t) ← ProcessQC l t (vm_high_commit_qc v);
  let vk := (VoteInfo_GetRound (vm_vote_info v), vm_sender v) in
  if bool_decide (vk ∈ t_voters t) then Some (l, t, None)
  else
    let idx := LedgerCommitDigest (vm_ledger_commit_info v) in
    let b := default (MkVoteBucket (vm_vote_info v) (vm_ledger_commit_info v) []) (t_votes t !! idx) in
    let b := MkVoteBucket (vb_voteInfo b) (vb_commit b) (vb_sigs b ++ [default zeroSignature (vm_sig v)]) in
    let put votes := MkBlockTree (t_id t) (t_quorum t) (t_pending t) votes ({[vk]} ∪ t_voters t)
                       (t_highQC t) (t_highCommitQC t) in
    let t1 := put (<[idx := b]> (t_votes t)) in
    if (Z.of_nat (length (vb_sigs b)) <? t_quorum t)%Z then Some (l, t1, None)
    else
      let sigs := canonical (vb_sigs b) in
      match sign c (t_id t) (qcSigsDigest sigs) with
      | None => Some (l, t1, None)
      | Some authorSig =>
          Some (l, put (delete idx (<[idx := b]> (t_votes t))),
                Some (MkQuorumCert (vb_voteInfo b) (vb_commit b) sigs (t_id t) (Some authorSig)))
      end.

Definition GenerateBlock (t : BlockTree) (txns : list bytes) (round : uint64) : Block :=
  NewBlock (t_id t) round txns (t_highQC t).
End ops.

(** ** Certificates only move up *)

Section monotone.
Context `{RangeOrder}.

Lemma ProcessQC_inv l t qc l' t' :
  ProcessQC l t qc = Some (l', t') ->
  (qc = None /\ l' = l /\ t' = t) \/
  (is_Some qc /\ t_id t' = t_id t /\ t_quorum t' = t_quorum t /\ t_highQC t' = higher qc (t_highQC t) /\
   ((Commits (QuorumCert_GetLedgerCommitInfo qc) = false /\ l' = l /\ t_pending t' = t_pending t /\
     t_votes t' = t_votes t /\ t_voters t' = t_voters t /\ t_highCommitQC t' = t_highCommitQC t) \/
    (Commits (QuorumCert_GetLedgerCommitInfo qc) = true /\
     let vi := QuorumCert_GetVoteInfo qc in
     let tp := prune t (VoteInfo_GetParentId vi) (VoteInfo_GetParentRound vi) in
     Commit l (VoteInfo_GetParentId vi) = Some l' /\ t_pending t' = t_pending tp /\
     t_votes t' = t_votes tp /\ t_voters t' = t_voters tp /\ t_highCommitQC t' = higher qc (t_highCommitQC t)))).
Proof.
  destruct qc as [q|]; simpl; [|intros [= <- <-]; by left].
  destruct (Commits _) eqn:Hc; intros Hp; right.
  - apply bind_Some in Hp as ([l1 t1] & (l2 & Hl2 & [= <- <-])%bind_Some & [= <- <-]). simpl.
    split_and!; try done. right. split_and!; done.
  - simpl in Hp. injection Hp as <- <-. simpl. split_and!; try done. left. by split_and!.
Qed.

Lemma ProcessQC_rounds l t qc l' t' :
  ProcessQC l t qc = Some (l', t') ->
  (QCRound (t_highQC t) <= QCRound (t_highQC t') /\ QCRound qc <= QCRound (t_highQC t') /\
   QCRound (t_highCommitQC t) <= QCRound (t_highCommitQC t'))%N.
Proof.
  intros [(-> & -> & ->)|(_ & _ & _ & Hq & Hc)]%ProcessQC_inv; [cbn; lia|].
  rewrite Hq, higher_round. destruct Hc as [(_ & _ & _ & _ & _ & ->)|(_ & _ & _ & _ & _ & ->)];
    rewrite ?higher_round; lia.
Qed.
End monotone.

(** ** The vote accumulator *)

(** The strings hashed for the votes of a set. *)
Definition vote_inputs (Vt : VoteMsg -> Prop) (x : bytes) : Prop :=
  exists m, Vt m /\ (x = LedgerCommitDigest_preimage (vm_ledger_commit_info m) \/
                     x = VoteInfoHash_preimage (vm_vote_info m)).

Section votes.
Context (ver : Verifier) (Vt : VoteMsg -> Prop).
Hypothesis Vt_range : forall m, Vt m ->
  (VoteInfo_GetRound (vm_vote_info m) < two64 /\ VoteInfo_GetParentRound (vm_vote_info m) < two64)%N.
Hypothesis Vt_cf : collision_free (vote_inputs Vt).

(** Signatures of distinct signers over a digest, in canonical order, enough of them. *)
Definition signed_by_quorum (dig : bytes) (sigs : list Signature) : Prop :=
  StronglySorted (key_lt sg_signer) sigs /\
  Forall (fun s => verifySig (v_crypto ver) dig (Some s) = true) sigs /\
  (v_quorum ver <= Z.of_nat (length sigs))%Z.

(** Verified votes with one digest agree on everything. *)
Lemma votes_agree m m' :
  Vt m -> Vt m' -> VerifyVote ver m = true -> VerifyVote ver m' = true ->
  LedgerCommitDigest (vm_ledger_commit_info m) = LedgerCommitDigest (vm_ledger_commit_info m') ->
  same_commit_info (vm_ledger_commit_info m) (vm_ledger_commit_info m') /\
  same_vote_info (vm_vote_info m) (vm_vote_info m').
Proof.
  intros Hm Hm' (_ & Hv & Hb & _)%VerifyVote_iff (_ & Hv' & Hb' & _)%VerifyVote_iff Hd.
  apply validVote_spec in Hv as (?&?&?&?&?). apply validVote_spec in Hv' as (?&?&?&?&?).
  apply Vt_cf in Hd; [|exists m; by auto|exists m'; by auto].
  apply LedgerCommitDigest_preimage_inj in Hd as [Hc Hh]; [|congruence]. split; [done|].
  pose proof Hh as Hi. rewrite <- Hb, <- Hb' in Hi.
  apply Vt_cf in Hi; [|exists m; by auto|exists m'; by auto].
  destruct (Vt_range m Hm). destruct (Vt_range m' Hm'). by apply VoteInfoHash_preimage_inj.
Qed.

(** A signature that came with a vote of the set. *)
Definition from_vote (s : Signature) : Prop := exists m, Vt m /\ default zeroSignature (vm_sig m) = s.

Record bucket_ok (voters : gset voterKey) (idx : bytes) (b : voteBucket) : Prop := {
  bo_vote : exists m, Vt m /\ VerifyVote ver m = true /\
              vb_voteInfo b = vm_vote_info m /\ vb_commit b = vm_ledger_commit_info m;
  bo_idx : idx = LedgerCommitDigest (vb_commit b);
  bo_nodup : NoDup (sg_signer <$> vb_sigs b);
  bo_sigs : forall s, s ∈ vb_sigs b -> verifySig (v_crypto ver) idx (Some s) = true /\
              (VoteInfo_GetRound (vb_voteInfo b), sg_signer s) ∈ voters;
  bo_origin : forall s, s ∈ vb_sigs b -> from_vote s;
}.

(** Every bucket holds verified signatures of distinct signers over its key,
    each of which has used its vote slot for the bucket's round. *)
Definition votes_inv (t : BlockTree) : Prop :=
  forall idx b, t_votes t !! idx = Some b -> bucket_ok (t_voters t) idx b.

Lemma votes_inv_new id quorum : votes_inv (NewBlockTree id quorum).
Proof. intros idx b Hb. simpl in Hb. by rewrite lookup_empty in Hb. Qed.

Lemma votes_inv_prune `{RangeOrder} t id r : votes_inv t -> votes_inv (prune t id r).
Proof.
  intros Hi idx b Hb. simpl in Hb. apply map_lookup_filter_Some in Hb as [Hb Hr]. simpl in Hr.
  destruct (Hi idx b Hb) as [H1 H2 H3 H4 H5]. split; try done.
  intros s Hs. destruct (H4 s Hs) as [? ?]. split; [done|]. simpl. apply elem_of_filter. simpl. done.
Qed.

Lemma votes_inv_same t t' :
  t_votes t' = t_votes t -> t_voters t' = t_voters t -> votes_inv t -> votes_inv t'.
Proof. unfold votes_inv. by intros -> ->. Qed.

Lemma votes_inv_ProcessQC `{RangeOrder} l t qc l' t' :
  ProcessQC l t qc = Some (l', t') -> votes_inv t -> votes_inv t'.
Proof.
  intros [(_ & _ & ->)|(_ & _ & _ & _ & Hc)]%ProcessQC_inv Hi; [done|].
  destruct Hc as [(_ & _ & _ & E1 & E2 & _)|(_ & _ & _ & E1 & E2 & _)].
  - by eapply votes_inv_same.
  - eapply votes_inv_same; [exact E1|exact E2|]. by apply votes_inv_prune.
Qed.

(** The bucket a new vote lands in. *)
Definition add_vote (t : BlockTree) (m : VoteMsg) : voteBucket :=
  let b := default (MkVoteBucket (vm_vote_info m) (vm_ledger_commit_info m) [])
             (t_votes t !! LedgerCommitDigest (vm_ledger_commit_info m)) in
  MkVoteBucket (vb_voteInfo b) (vb_commit b) (vb_sigs b ++ [default zeroSignature (vm_sig m)]).

Lemma sender_signs m :
  VerifyVote ver m = true ->
  sg_signer (default zeroSignature (vm_sig m)) = vm_sender m /\
  verifySig (v_crypto ver) (LedgerCommitDigest (vm_ledger_commit_info m))
    (Some (default zeroSignature (vm_sig m))) = true.
Proof. intros (Hs & _ & _ & Hv & _)%VerifyVote_iff. by destruct (vm_sig m). Qed.

Lemma add_vote_ok t m :
  votes_inv t -> Vt m -> VerifyVote ver m = true ->
  (VoteInfo_GetRound (vm_vote_info m), vm_sender m) ∉ t_voters t ->
  bucket_ok ({[(VoteInfo_GetRound (vm_vote_info m), vm_sender m)]} ∪ t_voters t)
    (LedgerCommitDigest (vm_ledger_commit_info m)) (add_vote t m) /\
  same_vote_info (vb_voteInfo (add_vote t m)) (vm_vote_info m) /\
  same_commit_info (vb_commit (add_vote t m)) (vm_ledger_commit_info m).
Proof.
  intros Hi Hm Hv Hnew. destruct (sender_signs m Hv) as [Hs Hok]. unfold add_vote.
  destruct (t_votes t !! LedgerCommitDigest (vm_ledger_commit_info m)) as [b|] eqn:Hb; simpl.
  - destruct (Hi _ _ Hb) as [(m0 & Hm0 & Hv0 & E1 & E2) Hidx Hnd Hsg Hor].
    assert (same_commit_info (vm_ledger_commit_info m0) (vm_ledger_commit_info m) /\
            same_vote_info (vm_vote_info m0) (vm_vote_info m)) as [Hsc Hsv]
      by (apply votes_agree; [done..|congruence]).
    rewrite E1, E2. split; [|done]. split; simpl; [by eauto|congruence| | |].
    + rewrite fmap_app. simpl. apply NoDup_app. split; [done|]. split; [|apply NoDup_singleton].
      intros x (s & -> & Hin)%list_elem_of_fmap_1 Heq%list_elem_of_singleton.
      apply Hnew. destruct (Hsg s Hin) as [_ Hvk]. rewrite Heq, Hs, E1 in Hvk.
      destruct Hsv as (_ & Hr & _). by rewrite <- Hr.
    + intros s [Hin| ->%list_elem_of_singleton]%elem_of_app.
      * destruct (Hsg s Hin) as [? Hvk]. split; [done|]. rewrite E1 in Hvk. set_solver.
      * split; [done|]. destruct Hsv as (_ & -> & _). rewrite Hs. set_solver.
    + intros s [Hin| ->%list_elem_of_singleton]%elem_of_app; [by apply Hor|by exists m].
  - split; [|split; [by repeat split|by split]]. split; simpl; [by eauto|done|apply NoDup_singleton| |].
    + intros s ->%list_elem_of_singleton. split; [done|]. rewrite Hs. set_solver.
    + intros s ->%list_elem_of_singleton. by exists m.
Qed.

Lemma bucket_ok_mono voters voters' idx b :
  voters ⊆ voters' -> bucket_ok voters idx b -> bucket_ok voters' idx b.
Proof. intros Hsub [H1 H2 H3 H4 H5]. split; try done. intros s Hs. destruct (H4 s Hs). split; [done|]. set_solver. Qed.

(** [ProcessVote] by cases, after the piggybacked certificate was processed. *)
Lemma ProcessVote_cases `{RangeOrder} c l t m l' t' r :
  ProcessVote c l t m = Some (l', t', r) ->
  exists t1, ProcessQC l t (vm_high_commit_qc m) = Some (l', t1) /\
  let vk := (VoteInfo_GetRound (vm_vote_info m), vm_sender m) in
  let idx := LedgerCommitDigest (vm_ledger_commit_info m) in
  let b := add_vote t1 m in
  (vk ∈ t_voters t1 /\ t' = t1 /\ r = None) \/
  ((vk ∉ t_voters t1) /\ t_voters t' = {[vk]} ∪ t_voters t1 /\
   t_id t' = t_id t1 /\ t_quorum t' = t_quorum t1 /\ t_pending t' = t_pending t1 /\
   t_highQC t' = t_highQC t1 /\ t_highCommitQC t' = t_highCommitQC t1 /\
   ((t_votes t' = <[idx := b]> (t_votes t1) /\ r = None /\
     ((Z.of_nat (length (vb_sigs b)) < t_quorum t1)%Z \/
      sign c (t_id t1) (qcSigsDigest (canonical (vb_sigs b))) = None)) \/
    (t_votes t' = delete idx (<[idx := b]> (t_votes t1)) /\ (t_quorum t1 <= Z.of_nat (length (vb_sigs b)))%Z /\
     exists a, sign c (t_id t1) (qcSigsDigest (canonical (vb_sigs b))) = Some a /\
       r = Some (MkQuorumCert (vb_voteInfo b) (vb_commit b) (canonical (vb_sigs b)) (t_id t1) (Some a))))).
Proof.
  intros Hp. apply bind_Some in Hp as ([l1 t1] & Hq & Hp). cbv zeta beta in Hp.
  case_bool_decide as Hvk; [injection Hp as <- <- <-; exists t1; by auto|].
  fold (add_vote t1 m) in Hp. destruct (Z.ltb_spec (Z.of_nat (length (vb_sigs (add_vote t1 m)))) (t_quorum t1)) as [Hlt|Hge].
  - injection Hp as <- <- <-. exists t1. split; [done|]. right. simpl. split_and!; try done. left. split_and!; auto.
  - destruct (sign _ _ _) as [a|] eqn:Hs; injection Hp as <- <- <-; exists t1; (split; [done|]); right; simpl;
      split_and!; try done; [right|left]; split_and!; eauto.
Qed.

Lemma votes_inv_ProcessVote `{RangeOrder} c l t m l' t' r :
  ProcessVote c l t m = Some (l', t', r) ->
  votes_inv t -> Vt m -> VerifyVote ver m = true -> votes_inv t'.
Proof.
  intros (t1 & Hq & Hc)%ProcessVote_cases Hi Hm Hv. apply (votes_inv_ProcessQC _ _ _ _ _ Hq) in Hi.
  destruct Hc as [(_ & -> & _)|(Hvk & Evk & _ & _ & _ & _ & _ & Hc)]; [done|].
  destruct (add_vote_ok t1 m Hi Hm Hv Hvk) as [Hok _].
  assert (forall idx b, <[LedgerCommitDigest (vm_ledger_commit_info m) := add_vote t1 m]> (t_votes t1) !! idx = Some b ->
    bucket_ok (t_voters t') idx b) as Hins.
  { intros idx b. rewrite Evk. intros [[<- <-]|[_ Hb]]%lookup_insert_Some; [done|].
    eapply bucket_ok_mono; [|by apply Hi]. set_solver. }
  intros idx b Hb. destruct Hc as [[E _]|[E _]]; rewrite E in Hb; [by apply Hins|].
  apply lookup_delete_Some in Hb as [_ Hb]. by apply Hins.
Qed.

(** A certificate that is returned carries a quorum of signatures over the vote
    just counted, and verifies if it commits over consecutive rounds only. *)
Lemma ProcessVote_cert `{RangeOrder} c l t m l' t' qc :
  ProcessVote c l t m = Some (l', t', Some qc) ->
  votes_inv t -> Vt m -> VerifyVote ver m = true ->
  t_quorum t = v_quorum ver ->
  (forall d s, Sign c d = Some s -> Verify (v_crypto ver) (t_id t) d s = true) ->
  ((Commits (qc_ledger_commit_info qc) = true ->
     consecutive (VoteInfo_GetRound (qc_vote_info qc)) (VoteInfo_GetParentRound (qc_vote_info qc)) = true) ->
   qc_certified ver qc) /\
  signed_by_quorum (LedgerCommitDigest (vm_ledger_commit_info m)) (qc_signatures qc) /\
  same_vote_info (qc_vote_info qc) (vm_vote_info m) /\
  same_commit_info (qc_ledger_commit_info qc) (vm_ledger_commit_info m) /\
  (exists m0, Vt m0 /\ qc_vote_info qc = vm_vote_info m0 /\ qc_ledger_commit_info qc = vm_ledger_commit_info m0) /\
  Forall from_vote (qc_signatures qc).
Proof.
  intros (t1 & Hq & Hc)%ProcessVote_cases Hi Hm Hv Hquo Hsign.
  apply (votes_inv_ProcessQC _ _ _ _ _ Hq) in Hi.
  assert (t_id t1 = t_id t /\ t_quorum t1 = t_quorum t) as [Eid Equ].
  { apply ProcessQC_inv in Hq as [(_ & _ & ->)|(_ & ? & ? & _)]; done. }
  destruct Hc as [(_ & _ & ?)|(Hvk & _ & _ & _ & _ & _ & _ & [(_ & ? & _)|(_ & Hlen & a & Ha & Hr)])]; [done..|].
  apply (inj Some) in Hr. subst qc.
  destruct (add_vote_ok t1 m Hi Hm Hv Hvk) as [[(m0 & Hm0 & Hv0 & E1 & E2) Hidx Hnd Hsg Hor] [Hsv Hsc]].
  apply VerifyVote_iff in Hv0 as (_ & Hval & Hbind & _).
  set (b := add_vote t1 m) in *. clearbody b. unfold sign in Ha. apply bind_Some in Ha as (sg & Hsg' & [= <-]).
  assert (signed_by_quorum (LedgerCommitDigest (vm_ledger_commit_info m)) (canonical (vb_sigs b))) as Hsq.
  { split_and!; [by apply sort_by_strict| |unfold canonical; rewrite length_sort_by; lia].
    apply Forall_forall. intros s Hs. unfold canonical in Hs. rewrite sort_by_perm in Hs. by apply Hsg. }
  split; [|split; [done|]; split; [done|]; split; [done|]; split; [by exists m0|];
    apply Forall_forall; intros s Hs; cbn in Hs; unfold canonical in Hs; rewrite sort_by_perm in Hs; by apply Hor]. intros Htwo. destruct Hsq as (S1 & S2 & S3).
  split; simpl; [by rewrite E1, E2..|exact Htwo|exact S1|by rewrite <- Hidx|exact S3|done|].
  unfold verifySig. simpl. rewrite Eid. by apply Hsign.
Qed.
End votes.

(** ** Runs of the tree *)

Inductive tree_op := TQC (qc : option QuorumCert) | TInsert (b : Block) | TVote (c : Crypto) (v : VoteMsg).

(** The state, and the certificates completed so far, oldest first. *)
Definition tree_step `{RangeOrder} (st : MemLedger * BlockTree * list QuorumCert) (o : tree_op)
    : option (MemLedger * BlockTree * list QuorumCert) :=
  let '(l, t, out) := st in
  match o with
  | TQC qc => '(l, t) ← ProcessQC l t qc; Some (l, t, out)
  | TInsert b => let '(l, t) := ExecuteAndInsert l t b in Some (l, t, out)
  | TVote c v => '(l, t, r) ← ProcessVote c l t v; Some (l, t, out ++ option_list r)
  end.

Fixpoint tree_run `{RangeOrder} (st : MemLedger * BlockTree * list QuorumCert) (ops : list tree_op)
    : option (MemLedger * BlockTree * list QuorumCert) :=
  match ops with [] => Some st | o :: ops => st ← tree_step st o; tree_run st ops end.

Section ledger_side.
Context (U : Block -> Prop) (rank : bytes -> nat) (HU : block_universe U rank) `{RangeOrder}.

Lemma ProcessQC_total l t qc : ledger_ok U l -> exists l' t', ProcessQC l t qc = Some (l', t') /\ ledger_ok U l'.
Proof.
  intros Hl. destruct qc as [q|]; simpl; [|eauto]. destruct (Commits _); simpl; [|eauto].
  destruct (ledger_step_ok U rank HU l (OpCommit (VoteInfo_GetParentId (qc_vote_info q))) Hl) as (l' & E & Hl');
    [done|]. simpl in E. rewrite E. simpl. eauto.
Qed.

Lemma ProcessVote_total c l t v :
  ledger_ok U l -> exists l' t' r, ProcessVote c l t v = Some (l', t', r) /\ ledger_ok U l'.
Proof.
  intros Hl. destruct (ProcessQC_total l t (vm_high_commit_qc v) Hl) as (l1 & t1 & E & Hl1).
  unfold ProcessVote. rewrite E. simpl. repeat case_match; eauto.
Qed.

Lemma ExecuteAndInsert_ok l t b : ledger_ok U l -> U b -> ledger_ok U (ExecuteAndInsert l t b).1.
Proof.
  intros Hl Hb. destruct (ledger_step_ok U rank HU l (OpSpeculate b) Hl) as (l' & [= <-] & ?); [|done].
  by intros b' [= <-].
Qed.
End ledger_side.

(** *** One slot per signer and round *)

(** A signer has at most one signature among the buckets of a round. *)
Definition slots_inv (t : BlockTree) : Prop :=
  forall i b s i' b' s', t_votes t !! i = Some b -> t_votes t !! i' = Some b' -> s ∈ vb_sigs b -> s' ∈ vb_sigs b' ->
    VoteInfo_GetRound (vb_voteInfo b) = VoteInfo_GetRound (vb_voteInfo b') -> sg_signer s = sg_signer s' -> i = i'.

Lemma slots_inv_sub t t' : t_votes t' ⊆ t_votes t -> slots_inv t -> slots_inv t'.
Proof.
  intros Hs Hi i b s i' b' s' Hb Hb'.
  exact (Hi i b s i' b' s' (lookup_weaken _ _ _ _ Hb Hs) (lookup_weaken _ _ _ _ Hb' Hs)).
Qed.

Lemma ProcessQC_votes_sub `{RangeOrder} l t qc l' t' : ProcessQC l t qc = Some (l', t') -> t_votes t' ⊆ t_votes t.
Proof.
  intros [(_ & _ & ->)|(_ & _ & _ & _ & [(_ & _ & _ & -> & _)|(_ & _ & _ & -> & _)])]%ProcessQC_inv; [done..|].
  apply map_filter_subseteq.
Qed.

Section slots.
Context (ver : Verifier) (Vt : VoteMsg -> Prop).
Hypothesis Vt_range : forall m, Vt m ->
  (VoteInfo_GetRound (vm_vote_info m) < two64 /\ VoteInfo_GetParentRound (vm_vote_info m) < two64)%N.
Hypothesis Vt_cf : collision_free (vote_inputs Vt).

Lemma slot_fresh t m :
  votes_inv ver Vt t ->
  (VoteInfo_GetRound (vm_vote_info m), vm_sender m) ∉ t_voters t ->
  forall i b s, t_votes t !! i = Some b -> s ∈ vb_sigs b ->
    VoteInfo_GetRound (vb_voteInfo b) = VoteInfo_GetRound (vm_vote_info m) -> sg_signer s = vm_sender m -> False.
Proof.
  intros Hv Hnew i b s Hb Hs Hr Hsg. apply Hnew. rewrite <- Hr, <- Hsg. by apply (bo_sigs _ _ _ _ _ (Hv i b Hb)).
Qed.

Lemma slots_inv_ProcessVote `{RangeOrder} c l t m l' t' r :
  ProcessVote c l t m = Some (l', t', r) ->
  votes_inv ver Vt t -> slots_inv t -> Vt m -> VerifyVote ver m = true -> slots_inv t'.
Proof.
  intros (t1 & Hq & Hc)%ProcessVote_cases Hi Hsl Hm Hv.
  apply (slots_inv_sub _ _ (ProcessQC_votes_sub _ _ _ _ _ Hq)) in Hsl.
  apply (votes_inv_ProcessQC _ _ _ _ _ _ _ Hq) in Hi.
  destruct Hc as [(_ & -> & _)|(Hvk & _ & _ & _ & _ & _ & _ & Hc)]; [done|].
  set (idx := LedgerCommitDigest (vm_ledger_commit_info m)) in *.
  set (t2 := MkBlockTree (t_id t1) (t_quorum t1) (t_pending t1) (<[idx := add_vote t1 m]> (t_votes t1))
               (t_voters t1) (t_highQC t1) (t_highCommitQC t1)).
  apply (slots_inv_sub t2); [destruct Hc as [[-> _]|[-> _]]; [done|apply delete_subseteq]|].
  destruct (add_vote_ok ver Vt Vt_range Vt_cf t1 m Hi Hm Hv Hvk) as (_ & (_ & Hr & _) & _).
  assert (forall s, s ∈ vb_sigs (add_vote t1 m) -> sg_signer s = vm_sender m \/
    exists b, t_votes t1 !! idx = Some b /\ s ∈ vb_sigs b /\ vb_voteInfo b = vb_voteInfo (add_vote t1 m)) as Hadd.
  { intros s. unfold add_vote. fold idx. simpl. rewrite elem_of_app, list_elem_of_singleton.
    intros [Hs|Hs]; [|left; subst s; by apply (sender_signs ver)].
    destruct (t_votes t1 !! idx) as [b|]; simpl in *; [by eauto|by apply not_elem_of_nil in Hs]. }
  assert (forall i b s s0, i ≠ idx -> t_votes t1 !! i = Some b -> s ∈ vb_sigs b -> s0 ∈ vb_sigs (add_vote t1 m) ->
    VoteInfo_GetRound (vb_voteInfo b) = VoteInfo_GetRound (vb_voteInfo (add_vote t1 m)) ->
    sg_signer s = sg_signer s0 -> False) as Hcross.
  { intros i b s s0 Hne Hb Hs Hs0 Hrr Hsg. destruct (Hadd s0 Hs0) as [E|(b0 & Hb0 & Hin & Hvi)].
    - eapply (slot_fresh t1 m Hi Hvk i b s); [done..|congruence|congruence].
    - apply Hne. eapply (Hsl i b s idx b0 s0); try done. congruence. }
  intros i b s i' b' s' Hb Hb' Hs Hs' Hrr Hsg. simpl in Hb, Hb'.
  apply lookup_insert_Some in Hb as [[<- <-]|[Hne Hb]], Hb' as [[<- <-]|[Hne' Hb']]; [done|..].
  - exfalso. eapply (Hcross i' b' s' s); congruence || done.
  - exfalso. eapply (Hcross i b s s'); congruence || done.
  - by eapply (Hsl i b s i' b' s').
Qed.
End slots.

Section tree_runs.
Context (U : Block -> Prop) (rank : bytes -> nat) (HU : block_universe U rank) `{RangeOrder}.
Context (ver : Verifier) (Vt : VoteMsg -> Prop) (id : uint32).
Hypothesis Vt_range : forall m, Vt m ->
  (VoteInfo_GetRound (vm_vote_info m) < two64 /\ VoteInfo_GetParentRound (vm_vote_info m) < two64)%N.
Hypothesis Vt_cf : collision_free (vote_inputs Vt).

(** Blocks come from the universe, votes were verified, and what this replica
    signs verifies under its own id. *)
Definition tree_op_ok (o : tree_op) : Prop :=
  match o with
  | TQC _ => True
  | TInsert b => U b
  | TVote c m => Vt m /\ VerifyVote ver m = true /\
      forall d s, Sign c d = Some s -> Verify (v_crypto ver) id d s = true
  end.

Record tree_ok (st : MemLedger * BlockTree * list QuorumCert) : Prop := {
  tk_ledger : ledger_ok U st.1.1;
  tk_id : t_id st.1.2 = id;
  tk_quorum : t_quorum st.1.2 = v_quorum ver;
  tk_votes : votes_inv ver Vt st.1.2;
  tk_slots : slots_inv st.1.2;
  tk_out : forall qc, qc ∈ st.2 ->
    (Commits (qc_ledger_commit_info qc) = true ->
      consecutive (VoteInfo_GetRound (qc_vote_info qc)) (VoteInfo_GetParentRound (qc_vote_info qc)) = true) ->
    qc_certified ver qc;
}.

Lemma tree_ok_new : tree_ok (NewMemLedger, NewBlockTree id (v_quorum ver), []).
Proof.
  split; simpl; [apply NewMemLedger_ok|reflexivity|reflexivity|apply votes_inv_new| |].
  - intros i b s i' b' s' Hb. simpl in Hb. by rewrite lookup_empty in Hb.
  - intros qc Hq. by apply not_elem_of_nil in Hq.
Qed.

Lemma ProcessQC_fixed l t qc l' t' :
  ProcessQC l t qc = Some (l', t') -> t_id t' = t_id t /\ t_quorum t' = t_quorum t.
Proof. by intros [(_ & _ & ->)|(_ & ? & ? & _)]%ProcessQC_inv. Qed.

Lemma tree_step_ok st o : tree_ok st -> tree_op_ok o -> exists st', tree_step st o = Some st' /\ tree_ok st'.
Proof.
  destruct st as [[l t] out]. intros [Hl Hid Hq Hv Hs Ho] Hop. simpl in *. destruct o as [qc|b|c m]; simpl in *.
  - destruct (ProcessQC_total U rank HU l t qc Hl) as (l' & t' & E & Hl'). rewrite E. simpl.
    eexists. split; [done|]. destruct (ProcessQC_fixed _ _ _ _ _ E). split; simpl; try done; try congruence.
    + by eapply votes_inv_ProcessQC.
    + by eapply slots_inv_sub, Hs; eapply ProcessQC_votes_sub.
  - eexists. split; [done|]. split; simpl; try done. by apply (ExecuteAndInsert_ok U rank HU l t b).
  - destruct Hop as (Hm & Hver & Hsign).
    destruct (ProcessVote_total U rank HU c l t m Hl) as (l' & t' & r & E & Hl'). rewrite E. simpl.
    eexists. split; [done|]. pose proof (ProcessVote_cases _ _ _ _ _ _ _ E) as (t1 & Eq & Hc).
    destruct (ProcessQC_fixed _ _ _ _ _ Eq) as [F1 F2]. split; simpl.
    + done.
    + destruct Hc as [(_ & -> & _)|(_ & _ & -> & _)]; congruence.
    + destruct Hc as [(_ & -> & _)|(_ & _ & _ & -> & _)]; congruence.
    + by eapply votes_inv_ProcessVote.
    + by eapply slots_inv_ProcessVote.
    + intros qc [Hin|Hin]%elem_of_app; [by apply Ho|]. destruct r as [q|]; [|by apply not_elem_of_nil in Hin].
      apply list_elem_of_singleton in Hin as ->. intros Hc2.
      refine (proj1 (ProcessVote_cert ver Vt Vt_range Vt_cf c l t m l' t' q E Hv Hm Hver Hq _) Hc2). by rewrite Hid.
Qed.

Lemma tree_run_ok st ops :
  tree_ok st -> Forall tree_op_ok ops -> exists st', tree_run st ops = Some st' /\ tree_ok st'.
Proof.
  revert st. induction ops as [|o ops IH]; intros st Hst Hops; simpl; [eauto|].
  apply Forall_cons in Hops as [Ho Hops]. destruct (tree_step_ok st o Hst Ho) as (st1 & -> & Hst1). by apply IH.
Qed.
End tree_runs.

(** ** What the tree promises *)

(** C16. A replica that feeds its tree certificates, blocks of one [block_universe]
    and verified votes, in any order, gets a result from every call; if no two strings
    hashed for the votes collide, every certificate [ProcessVote] returns whose round is
    positive and which commits only over consecutive rounds passes the check every
    receiver runs ([VerifyQC]); and the accumulator never holds two signatures of one
    signer for one round, neither within a bucket nor across buckets. A quorum of
    verified votes of round 0, or for a commit over other rounds, would give a
    certificate that [VerifyQC] rejects; at most [Faulty n] Byzantine replicas cannot
    make one up. *)
Theorem tree_run_certificates `{RangeOrder} (U : Block -> Prop) (rank : bytes -> nat)
    (ver : Verifier) (Vt : VoteMsg -> Prop) (id : uint32) (ops : list tree_op) :
  block_universe U rank ->
  (forall m, Vt m ->
    (VoteInfo_GetRound (vm_vote_info m) < two64 /\ VoteInfo_GetParentRound (vm_vote_info m) < two64)%N) ->
  collision_free (vote_inputs Vt) ->
  Forall (tree_op_ok U ver Vt id) ops ->
  exists l t out, tree_run (NewMemLedger, NewBlockTree id (v_quorum ver), []) ops = Some (l, t, out) /\
    (forall qc, qc ∈ out -> QCRound (Some qc) ≠ 0%N ->
      (Commits (qc_ledger_commit_info qc) = true ->
        consecutive (VoteInfo_GetRound (qc_vote_info qc)) (VoteInfo_GetParentRound (qc_vote_info qc)) = true) ->
      VerifyQC ver (Some qc) = true) /\
    (forall i b, t_votes t !! i = Some b -> NoDup (sg_signer <$> vb_sigs b)) /\
    slots_inv t.
Proof.
  intros HU Hr Hcf Hops.
  destruct (tree_run_ok U rank HU ver Vt id Hr Hcf _ ops (tree_ok_new U ver Vt id) Hops) as ([[l t] out] & E & Hok).
  exists l, t, out. split; [done|]. split_and!.
  - intros qc Hq Hz Hc. apply VerifyQC_iff. right. split; [done|]. by apply (tk_out _ _ _ _ _ Hok).
  - intros i b Hb. apply (bo_nodup _ _ _ _ _ (tk_votes _ _ _ _ _ Hok i b Hb)).
  - apply (tk_slots _ _ _ _ _ Hok).
Qed.

Definition demo_votemsg (i : uint32) : VoteMsg :=
  MkVoteMsg (Some demo_vote_info) (Some demo_commit) None i (Some (MkSignature i [x01])).
Definition demo_votes (m : VoteMsg) : Prop := m ∈ demo_votemsg <$> [4; 1; 2]%N.

Lemma demo_votes_cf : collision_free (vote_inputs demo_votes).
Proof.
  assert (forall x, vote_inputs demo_votes x ->
    x = LedgerCommitDigest_preimage (Some demo_commit) \/ x = VoteInfoHash_preimage (Some demo_vote_info)) as Hx.
  { intros x (m & (i & -> & _)%list_elem_of_fmap & [->| ->]); [by left|by right]. }
  intros x y [->| ->]%Hx [->| ->]%Hx E; try reflexivity; exfalso;
    apply (f_equal be_val) in E; vm_compute in E; discriminate E.
Qed.

Lemma tree_run_certificates_witness :
  exists l t qc, tree_run (NewMemLedger, NewBlockTree 3 (QuorumSize 4), [])
      (TInsert demo_b1 :: (TVote demo_crypto <$> (demo_votemsg <$> [4; 1; 1; 2]%N))) = Some (l, t, [qc]) /\
    VerifyQC demo_verifier (Some qc) = true.
Proof.
  destruct (tree_run_certificates demo_universe demo_rank demo_verifier demo_votes 3
    (TInsert demo_b1 :: (TVote demo_crypto <$> (demo_votemsg <$> [4; 1; 1; 2]%N)))) as (l & t & out & E & Hout & _).
  - exact demo_block_universe.
  - intros m (i & -> & _)%list_elem_of_fmap. split; vm_compute; reflexivity.
  - exact demo_votes_cf.
  - constructor; [by left|]. cbn [fmap list_fmap].
    repeat (constructor; [split; [unfold demo_votes; set_solver|split; [vm_compute; reflexivity|]];
      intros d s [= <-]; reflexivity|]). constructor.
  - assert (option_map snd (tree_run (NewMemLedger, NewBlockTree 3 (QuorumSize 4), [])
      (TInsert demo_b1 :: (TVote demo_crypto <$> (demo_votemsg <$> [4; 1; 1; 2]%N)))) = Some [demo_qc]) as Eo
      by (vm_compute; reflexivity).
    change (v_quorum demo_verifier) with (QuorumSize 4) in E. rewrite E in Eo. injection Eo as ->. exists l, t, demo_qc. split; [exact E|].
    apply Hout; [by left|vm_compute; discriminate|intros _; vm_compute; reflexivity].
Defined.

(** The order in which votes arrived leaves no trace in a certificate: for
    distinct signers [canonical] is strictly increasing in the signer, a
    permutation of its input, and the same for every arrival order. *)
Lemma canonical_unique (sigs sigs' : list Signature) :
  NoDup (sg_signer <$> sigs) -> sigs ≡ₚ sigs' ->
  canonical sigs = canonical sigs' /\ canonical sigs ≡ₚ sigs /\
  StronglySorted (key_lt sg_signer) (canonical sigs).
Proof.
  intros Hnd Hp. split_and!; [|apply sort_by_perm|by apply sort_by_strict].
  apply (strict_sorted_unique sg_signer); try apply sort_by_strict; [done|by rewrite <- Hp|].
  unfold canonical. by rewrite !sort_by_perm.
Qed.

(** C29. After [prune] the pending blocks are exactly those that were pending,
    lie above the root's round or are the root, and reach the root (or a child of
    it) by following parents through such blocks; and exactly the buckets and
    vote slots of rounds above the root's remain. *)
Theorem prune_exact `{RangeOrder} (rank : bytes -> nat) (t : BlockTree) (rootID : bytes) (rootRound : uint64) :
  (forall id b, t_pending t !! id = Some b -> rank (parentID b) < rank id) ->
  let t' := prune t rootID rootRound in
  let above := filter (fun e : bytes * Block => ~ ((b_round e.2 <= rootRound)%N /\ e.1 ≠ rootID)) (t_pending t) in
  (forall id b, t_pending t' !! id = Some b <->
     t_pending t !! id = Some b /\
     anchored parentID (fun id b => bool_decide (id = rootID) || bool_decide (parentID b = rootID)) above id) /\
  (forall i b, t_votes t' !! i = Some b <->
     t_votes t !! i = Some b /\ (rootRound < VoteInfo_GetRound (vb_voteInfo b))%N) /\
  (forall r s, (r, s) ∈ t_voters t' <-> (r, s) ∈ t_voters t /\ (rootRound < r)%N).
Proof.
  intros Hr t' above. split_and!.
  - assert (above ⊆ t_pending t) as Hsub by apply map_filter_subseteq.
    intros id b. change (t_pending t') with
      (sweep parentID (fun id b => bool_decide (id = rootID) || bool_decide (parentID b = rootID)) above). split.
    + intros Hb. split; [by eapply lookup_weaken, Hsub; eapply lookup_weaken, sweep_sub|].
      apply (sweep_anchored _ _ rank); [|by eexists]. intros i v Hi. apply Hr. by eapply lookup_weaken.
    + intros [Hb Ha]. destruct (anchored_sweep _ _ _ _ Ha) as [b' Hb'].
      assert (t_pending t !! id = Some b') by (eapply lookup_weaken, Hsub; by eapply lookup_weaken, sweep_sub).
      congruence.
  - intros i b. simpl. rewrite map_lookup_filter_Some. simpl. rewrite N.nle_gt. done.
  - intros r s. simpl. rewrite elem_of_filter. simpl. rewrite N.nle_gt. tauto.
Qed.

(** A tree holding the demonstration blocks. *)
Definition demo_tree : BlockTree :=
  MkBlockTree 3 3 {[ [x01] := demo_b1; [x02] := demo_b2; [x03] := demo_b3 ]} ∅ {[ (1, 4)%N; (3, 4)%N ]}
    (Some genesisQC) (Some genesisQC).

Lemma demo_tree_rank id b : t_pending demo_tree !! id = Some b -> demo_rank (parentID b) < demo_rank id.
Proof.
  intros Hb. cbn [demo_tree t_pending] in Hb. assert (demo_universe b /\ b_id b = id) as [Hu <-].
  { apply lookup_insert_Some in Hb as [[<- <-]|[_ Hb]]; [split; [by left|reflexivity]|].
    apply lookup_insert_Some in Hb as [[<- <-]|[_ Hb]]; [split; [by right; left|reflexivity]|].
    apply lookup_singleton_Some in Hb as [<- <-]. split; [by right; right; left|reflexivity]. }
  by apply (bu_rank _ _ demo_block_universe).
Qed.

(** Pruning to the second block drops its parent and its sibling. *)
Lemma prune_exact_witness :
  let t' := prune demo_tree [x02] 2 in
  t_pending t' = {[ [x02] := demo_b2 ]} /\
  (forall r s, (r, s) ∈ t_voters t' <-> (r, s) ∈ t_voters demo_tree /\ (2 < r)%N).
Proof.
  split; [apply (bool_decide_unpack _); vm_compute; exact I|].
  destruct (prune_exact demo_rank demo_tree [x02] 2 demo_tree_rank) as (_ & _ & Hv). exact Hv.
Defined.

(** The certificates an operation hands to [ProcessQC]. *)
Definition fed (o : tree_op) : list (option QuorumCert) :=
  match o with TQC qc => [qc] | TInsert _ => [] | TVote _ m => [vm_high_commit_qc m] end.
Definition fed_commit (o : tree_op) : list (option QuorumCert) :=
  filter (fun qc => Commits (QuorumCert_GetLedgerCommitInfo qc) = true) (fed o).

Definition max_round (r : uint64) (qcs : list (option QuorumCert)) : uint64 :=
  fold_left (fun r qc => N.max r (QCRound qc)) qcs r.

Lemma ProcessQC_high `{RangeOrder} l t qc l' t' :
  ProcessQC l t qc = Some (l', t') ->
  QCRound (t_highQC t') = N.max (QCRound (t_highQC t)) (QCRound qc) /\
  QCRound (t_highCommitQC t') =
    if Commits (QuorumCert_GetLedgerCommitInfo qc) then N.max (QCRound (t_highCommitQC t)) (QCRound qc)
    else QCRound (t_highCommitQC t).
Proof.
  intros [(-> & _ & ->)|(_ & _ & _ & -> & Hc)]%ProcessQC_inv; [cbn; lia|].
  destruct Hc as [(-> & _ & _ & _ & _ & ->)|(-> & _ & _ & _ & _ & ->)]; rewrite ?higher_round; lia.
Qed.

Lemma tree_step_high `{RangeOrder} st o st' :
  tree_step st o = Some st' ->
  QCRound (t_highQC st'.1.2) = max_round (QCRound (t_highQC st.1.2)) (fed o) /\
  QCRound (t_highCommitQC st'.1.2) = max_round (QCRound (t_highCommitQC st.1.2)) (fed_commit o).
Proof.
  assert (forall r qc, max_round r (filter (fun qc => Commits (QuorumCert_GetLedgerCommitInfo qc) = true) [qc]) =
    if Commits (QuorumCert_GetLedgerCommitInfo qc) then N.max r (QCRound qc) else r) as Hf.
  { intros r qc. rewrite filter_cons. by destruct (Commits _). }
  destruct st as [[l t] out], o as [qc|b|c m]; simpl; intros E.
  - apply bind_Some in E as ([l' t'] & E & [= <-]). apply ProcessQC_high in E as [E1 E2]. unfold fed_commit. simpl.
    by rewrite Hf.
  - injection E as <-. done.
  - apply bind_Some in E as ([[l' t'] r] & E & [= <-]). apply ProcessVote_cases in E as (t1 & E & Hc). simpl.
    unfold fed_commit. simpl. rewrite Hf. apply ProcessQC_high in E as [<- <-].
    destruct Hc as [(_ & -> & _)|(_ & _ & _ & _ & _ & -> & -> & _)]; done.
Qed.

(** The two certificates a tree reports are the highest it was handed:
    after any run the round of [HighQC] is the maximum of the rounds seen, that
    of [HighCommitQC] the maximum over those that commit, and neither ever goes
    down. *)
Theorem high_certificates `{RangeOrder} st ops st' :
  tree_run st ops = Some st' ->
  QCRound (HighQC st'.1.2) = max_round (QCRound (HighQC st.1.2)) (ops ≫= fed) /\
  QCRound (HighCommitQC st'.1.2) = max_round (QCRound (HighCommitQC st.1.2)) (ops ≫= fed_commit) /\
  (QCRound (HighQC st.1.2) <= QCRound (HighQC st'.1.2))%N /\
  (QCRound (HighCommitQC st.1.2) <= QCRound (HighCommitQC st'.1.2))%N.
Proof.
  intros E. unfold HighQC, HighCommitQC.
  assert (forall qcs r, (r <= max_round r qcs)%N) as Hle.
  { induction qcs as [|q qcs IH]; intros r; simpl; [lia|]. specialize (IH (N.max r (QCRound q))). lia. }
  cut (QCRound (t_highQC st'.1.2) = max_round (QCRound (t_highQC st.1.2)) (ops ≫= fed) /\
       QCRound (t_highCommitQC st'.1.2) = max_round (QCRound (t_highCommitQC st.1.2)) (ops ≫= fed_commit)).
  { intros [-> ->]. auto. }
  revert st E. induction ops as [|o ops IH]; intros st; simpl; [by intros [= <-]|].
  intros (st1 & E & Er)%bind_Some. apply IH in Er as [-> ->]. apply tree_step_high in E as [-> ->].
  unfold max_round. by rewrite !fold_left_app.
Qed.

Lemma high_certificates_witness :
  exists st', tree_run (NewMemLedger, demo_tree, []) [TQC (Some demo_qc); TQC (Some genesisQC)] = Some st' /\
    QCRound (HighQC st'.1.2) = 1%N.
Proof.
  destruct (tree_run (NewMemLedger, demo_tree, []) [TQC (Some demo_qc); TQC (Some genesisQC)]) as [st'|] eqn:E.
  - exists st'. split; [reflexivity|]. destruct (high_certificates _ _ _ E) as [H _]. rewrite H. reflexivity.
  - exfalso. assert (is_Some (tree_run (NewMemLedger, demo_tree, []) [TQC (Some demo_qc); TQC (Some genesisQC)]))
      as [? E'] by (refine (bool_decide_unpack _ _); vm_compute; exact I). rewrite E in E'. discriminate E'.
Defined.

(** C40. [ProcessQC] prunes to the block of any committing certificate, also one
    below [HighCommitQC]. When the block it commits is neither pending nor the
    parent of a pending block, as it is for a certificate two or more commits
    old, the whole pending tree is dropped, although no certificate moved. *)
Theorem stale_commit_drops_tree `{RangeOrder} (rank : bytes -> nat) l t q l' t' :
  (forall id b, t_pending t !! id = Some b -> rank (parentID b) < rank id) ->
  ProcessQC l t (Some q) = Some (l', t') ->
  Commits (qc_ledger_commit_info q) = true ->
  (QCRound (Some q) <= QCRound (t_highCommitQC t))%N -> (QCRound (Some q) <= QCRound (t_highQC t))%N ->
  (forall id b, t_pending t !! id = Some b ->
     id ≠ VoteInfo_GetParentId (qc_vote_info q) /\ parentID b ≠ VoteInfo_GetParentId (qc_vote_info q)) ->
  t_pending t' = ∅ /\ t_highCommitQC t' = t_highCommitQC t /\ t_highQC t' = t_highQC t.
Proof.
  intros Hr [[? _]|(_ & _ & _ & Eq & Hc)]%ProcessQC_inv Hcm Hle Hle' Hst; [done|].
  destruct Hc as [[? _]|(_ & _ & E1 & _ & _ & E2)]; [cbn in *; congruence|].
  rewrite E1, E2, Eq. unfold higher. rewrite !(proj2 (N.ltb_ge _ _)) by done. split; [|done].
  apply map_empty. intros id. destruct (t_pending (prune _ _ _) !! id) as [b|] eqn:E; [|done]. exfalso.
  assert (Ha := fun H => sweep_anchored _ _ rank _ _ H (ex_intro _ b E)).
  lapply Ha; [clear Ha E; intros Ha|intros i v [Hi _]%map_lookup_filter_Some; by apply Hr].
  induction Ha as [i v Hi Hk|i v Hi _ IH]; [|done].
  apply map_lookup_filter_Some in Hi as [Hi _]. apply Hst in Hi as [H1 H2].
  rewrite !bool_decide_eq_false_2 in Hk by done. done.
Qed.

(** A chain of four blocks; the third is committed, and then a certificate that
    commits the first one arrives again. *)
Definition demo_b4 : Block := demo_child x04 3 [x02].
Definition demo_b5 : Block := demo_child x05 4 [x04].
Definition demo_commit_of (id : bytes) (round : uint64) (parent : bytes) : QuorumCert :=
  MkQuorumCert (Some (MkVoteInfo id round parent (round - 1) [])) (Some (MkLedgerCommitInfo [x01] [])) [] 0 None.

Definition demo_grown : option (MemLedger * BlockTree * list QuorumCert) :=
  tree_run (NewMemLedger, NewBlockTree 3 3, [])
    [TInsert demo_b1; TInsert demo_b2; TInsert demo_b4; TInsert demo_b5; TQC (Some (demo_commit_of [x05] 4 [x04]))].

Lemma stale_commit_drops_tree_witness :
  exists l t l' t', (demo_grown = Some (l, t, [])) /\
    t_pending t = {[ [x04] := demo_b4; [x05] := demo_b5 ]} /\
    ProcessQC l t (Some (demo_commit_of [x02] 2 [x01])) = Some (l', t') /\
    t_pending t' = ∅ /\ t_highCommitQC t' = t_highCommitQC t.
Proof.
  destruct demo_grown as [[[l t] out]|] eqn:Eg.
  2: { exfalso. assert (is_Some demo_grown) as [? E'] by (refine (bool_decide_unpack _ _); vm_compute; exact I).
       rewrite Eg in E'. discriminate E'. }
  assert (option_map (fun st => t_pending st.1.2) demo_grown = Some {[ [x04] := demo_b4; [x05] := demo_b5 ]}) as Ep
    by (refine (bool_decide_unpack _ _); vm_compute; exact I).
  assert (option_map snd demo_grown = Some []) as Eo by (vm_compute; reflexivity).
  assert (option_map (fun st => (QCRound (t_highCommitQC st.1.2), QCRound (t_highQC st.1.2))) demo_grown = Some (4, 4)%N)
    as Er by (vm_compute; reflexivity).
  assert (is_Some (demo_grown ≫= fun st => ProcessQC st.1.1 st.1.2 (Some (demo_commit_of [x02] 2 [x01])))) as [[l' t'] Eq]
    by (refine (bool_decide_unpack _ _); vm_compute; exact I).
  rewrite Eg in Ep, Eo, Er, Eq. cbn [option_map fst snd mbind option_bind] in Ep, Eo, Er, Eq.
  injection Ep as Ep. injection Eo as ->. injection Er as Er1 Er2. exists l, t, l', t'.
  assert (forall id b, t_pending t !! id = Some b -> id = [x04] /\ b = demo_b4 \/ id = [x05] /\ b = demo_b5) as Hin.
  { intros id b. rewrite Ep. intros [[<- <-]|[_ [<- <-]%lookup_singleton_Some]]%lookup_insert_Some; auto. }
  split; [reflexivity|]. split; [exact Ep|]. split; [exact Eq|].
  destruct (stale_commit_drops_tree (fun id => if bool_decide (id = [x05]) then 2 else if bool_decide (id = [x04]) then 1 else 0)
    l t (demo_commit_of [x02] 2 [x01]) l' t') as (? & ? & _); [|exact Eq|reflexivity|..|auto].
  - intros id b [[-> ->]|[-> ->]]%Hin; apply Nat.ltb_lt; reflexivity.
  - rewrite Er1. vm_compute. discriminate.
  - rewrite Er2. vm_compute. discriminate.
  - intros id b [[-> ->]|[-> ->]]%Hin; split; discriminate.
Defined.
