(* ===== verification/Safety.v ===== *)
(** [diem/safety.go]: the voting and timeout rules. The module keeps two
    counters; the ledger and the tree it reads are arguments. *)

From stdpp Require Import prelude gmap list fin_maps sorting.
From Stdlib Require Import NArith ZArith Lia Strings.Byte.
From S2P Require Import Prelude Sha256 Proto Hash Types Quorum Verify Ledger BlockTree.

Record Safety := MkSafety {
  s_id : uint32;
  s_verify : Verifier;
  s_highestVoteRound : uint64;
  s_highestQCRound : uint64;
  s_declinedMissingAncestor : uint64;
}.

Definition NewSafety (id : uint32) (verify : Verifier) : Safety := MkSafety id verify 0 0 0.

Definition HighestVoteRound (s : Safety) : uint64 := s_highestVoteRound s.
Definition HighestQCRound (s : Safety) : uint64 := s_highestQCRound s.
Definition DeclinedMissingAncestor (s : Safety) : uint64 := s_declinedMissingAncestor s.

Definition increaseHighestVoteRound (s : Safety) (round : uint64) : Safety :=
  MkSafety (s_id s) (s_verify s) (N.max round (s_highestVoteRound s)) (s_highestQCRound s)
    (s_declinedMissingAncestor s).

Definition updateHighestQCRound (s : Safety) (qcRound : uint64) : Safety :=
  MkSafety (s_id s) (s_verify s) (s_highestVoteRound s) (N.max qcRound (s_highestQCRound s))
    (s_declinedMissingAncestor s).

Definition safeToExtend (s : Safety) (blockRound qcRound : uint64) (tc : option TimeoutCert) : bool :=
  match tc with
  | None => false
  | Some _ => consecutive blockRound (TimeoutCert_GetRound tc) && (MaxHighQCRound tc <=? qcRound)%N
  end.

Definition safeToVote (s : Safety) (blockRound qcRound : uint64) (tc : option TimeoutCert) : bool :=
  if (blockRound <=? N.max (s_highestVoteRound s) qcRound)%N then false
  else consecutive blockRound qcRound || safeToExtend s blockRound qcRound tc.

Definition safeToTimeout (s : Safety) (round qcRound : uint64) (tc : option TimeoutCert) : bool :=
  if (qcRound <? s_highestQCRound s)%N then false
  else
    let voted := if (0 <? s_highestVoteRound s)%N then (s_highestVoteRound s - 1)%N else 0%N in
    if (round <=? N.max voted qcRound)%N then false
    else consecutive round qcRound ||
         match tc with Some _ => consecutive round (TimeoutCert_GetRound tc) | None => false end.

Definition commitStateIDCandidate (l : MemLedger) (blockRound : uint64) (qc : option QuorumCert) : bytes :=
  if negb (consecutive blockRound (QCRound qc)) then zeroHash
  else match PendingState l (VoteInfo_GetId (QuorumCert_GetVoteInfo qc)) with
       | None => zeroHash
       | Some state => state
       end.

Definition validSignatures (s : Safety) (qc : option QuorumCert) (tc : option TimeoutCert) : bool :=
  VerifyQC (s_verify s) qc && VerifyTC (s_verify s) tc.

(** [c] is the crypto of this event, [l] the ledger, [t] the tree. *)
Definition MakeVote (c : Crypto) (s : Safety) (l : MemLedger) (t : BlockTree) (b : Block)
    (lastTC : option TimeoutCert) : Safety * option VoteMsg :=
  let qcRound := QCRound (b_qc b) in
  if negb (validBlockID b) || negb (validSignatures s (b_qc b) lastTC)
     || negb (safeToVote s (b_round b) qcRound lastTC) then (s, None)
  else match PendingState l (b_id b) with
  | None =>
      (MkSafety (s_id s) (s_verify s) (s_highestVoteRound s) (s_highestQCRound s)
         (s_declinedMissingAncestor s +u64 1), None)
  | Some exec =>
      let s := updateHighestQCRound s qcRound in
      let s := increaseHighestVoteRound s (b_round b) in
      let voteInfo := MkVoteInfo (b_id b) (b_round b) (parentID b) qcRound exec in
      let commit := MkLedgerCommitInfo (commitStateIDCandidate l (b_round b) (b_qc b))
                      (VoteInfoHash (Some voteInfo)) in
      match sign c (s_id s) (LedgerCommitDigest (Some commit)) with
      | None => (s, None)
      | Some sig => (s, Some (MkVoteMsg (Some voteInfo) (Some commit) (HighCommitQC t) (s_id s) (Some sig)))
      end
  end.

Definition MakeTimeout (c : Crypto) (s : Safety) (round : uint64) (highQC : option QuorumCert)
    (lastTC : option TimeoutCert) : Safety * option TimeoutInfo :=
  let qcRound := QCRound highQC in
  if negb (validSignatures s highQC lastTC) || negb (safeToTimeout s round qcRound lastTC) then (s, None)
  else
    let s := increaseHighestVoteRound s round in
    match sign c (s_id s) (TimeoutDigest round qcRound) with
    | None => (s, None)
    | Some sig => (s, Some (MkTimeoutInfo round highQC (s_id s) (Some sig)))
    end.

(** ** The rules, read back from a result *)

(** A vote was signed in state [s], leading to [s']. *)
Record voted (s s' : Safety) (b : Block) (tc : option TimeoutCert) (vi : VoteInfo) (ci : LedgerCommitInfo) : Prop := {
  vt_block_id : validBlockID b = true;
  vt_qc : VerifyQC (s_verify s) (b_qc b) = true;
  vt_tc : VerifyTC (s_verify s) tc = true;
  vt_safe : safeToVote s (b_round b) (QCRound (b_qc b)) tc = true;
  vt_info : exists exec, vi = MkVoteInfo (b_id b) (b_round b) (parentID b) (QCRound (b_qc b)) exec;
  vt_hash : lci_vote_info_hash ci = VoteInfoHash (Some vi);
  vt_commit : lci_commit_state_id ci = zeroHash \/ consecutive (b_round b) (QCRound (b_qc b)) = true;
  vt_state : s' = increaseHighestVoteRound (updateHighestQCRound s (QCRound (b_qc b))) (b_round b);
}.

(** A timeout was signed in state [s], leading to [s']. *)
Record timed_out (s s' : Safety) (round : uint64) (qc : option QuorumCert) (tc : option TimeoutCert) : Prop := {
  to_qc : VerifyQC (s_verify s) qc = true;
  to_tc : VerifyTC (s_verify s) tc = true;
  to_safe : safeToTimeout s round (QCRound qc) tc = true;
  to_state : s' = increaseHighestVoteRound s round;
}.

Lemma MakeVote_some c s l t b tc s' m :
  MakeVote c s l t b tc = (s', Some m) ->
  exists vi ci sig, voted s s' b tc vi ci /\
    m = MkVoteMsg (Some vi) (Some ci) (HighCommitQC t) (s_id s) (Some sig) /\
    sign c (s_id s) (LedgerCommitDigest (Some ci)) = Some sig /\
    PendingState l (b_id b) = Some (vi_exec_state_id vi) /\
    lci_commit_state_id ci = commitStateIDCandidate l (b_round b) (b_qc b).
Proof.
  unfold MakeVote. destruct (_ || _) eqn:Hc; [done|]. bools.
  destruct (PendingState l (b_id b)) as [exec|] eqn:Hp; [|done].
  destruct (sign _ _ _) as [sig|] eqn:Hs; [|done]. intros [= <- <-]. 
  eexists _, _, sig. split; [|done]. unfold validSignatures in *. bools.
  split; try done; [by eauto|]. simpl. unfold commitStateIDCandidate.
  destruct (consecutive (b_round b) (QCRound (b_qc b))); [by right|by left].
Qed.

(** The calls that succeed. *)
Lemma MakeVote_yes c s l t b tc exec sg :
  validBlockID b = true -> VerifyQC (s_verify s) (b_qc b) = true -> VerifyTC (s_verify s) tc = true ->
  safeToVote s (b_round b) (QCRound (b_qc b)) tc = true -> PendingState l (b_id b) = Some exec ->
  let vi := MkVoteInfo (b_id b) (b_round b) (parentID b) (QCRound (b_qc b)) exec in
  let ci := MkLedgerCommitInfo (commitStateIDCandidate l (b_round b) (b_qc b)) (VoteInfoHash (Some vi)) in
  Sign c (LedgerCommitDigest (Some ci)) = Some sg ->
  MakeVote c s l t b tc =
    (increaseHighestVoteRound (updateHighestQCRound s (QCRound (b_qc b))) (b_round b),
     Some (MkVoteMsg (Some vi) (Some ci) (HighCommitQC t) (s_id s) (Some (MkSignature (s_id s) sg)))).
Proof.
  intros H1 H2 H3 H4 H5 vi ci H6. unfold MakeVote, validSignatures. rewrite H1, H2, H3, H4, H5. cbn [negb orb andb].
  unfold sign. cbn [s_id increaseHighestVoteRound updateHighestQCRound]. fold vi. fold ci. by rewrite H6.
Qed.

Lemma MakeTimeout_yes c s round qc tc sg :
  VerifyQC (s_verify s) qc = true -> VerifyTC (s_verify s) tc = true ->
  safeToTimeout s round (QCRound qc) tc = true -> Sign c (TimeoutDigest round (QCRound qc)) = Some sg ->
  MakeTimeout c s round qc tc =
    (increaseHighestVoteRound s round, Some (MkTimeoutInfo round qc (s_id s) (Some (MkSignature (s_id s) sg)))).
Proof.
  intros H1 H2 H3 H4. unfold MakeTimeout, validSignatures. rewrite H1, H2, H3. cbn [negb orb andb].
  unfold sign. by rewrite H4.
Qed.

(** Without a vote, either nothing but the declined counter moved, or the
    signer failed after the counters did. *)
Lemma MakeVote_none c s l t b tc s' :
  MakeVote c s l t b tc = (s', None) ->
  s_id s' = s_id s /\ s_verify s' = s_verify s /\
  ((s_highestVoteRound s' = s_highestVoteRound s /\ s_highestQCRound s' = s_highestQCRound s) \/
   s' = increaseHighestVoteRound (updateHighestQCRound s (QCRound (b_qc b))) (b_round b)).
Proof.
  unfold MakeVote. destruct (_ || _) eqn:Hc; [intros [= <-]; by auto|].
  destruct (PendingState l (b_id b)) as [exec|] eqn:Hp; [|intros [= <-]; by auto].
  destruct (sign _ _ _) as [sig|] eqn:Hs; [done|]. intros [= <-]. by auto.
Qed.

Lemma MakeTimeout_some c s round qc tc s' i :
  MakeTimeout c s round qc tc = (s', Some i) ->
  exists sig, timed_out s s' round qc tc /\ i = MkTimeoutInfo round qc (s_id s) (Some sig) /\
    sign c (s_id s) (TimeoutDigest round (QCRound qc)) = Some sig.
Proof.
  unfold MakeTimeout. destruct (_ || _) eqn:Hc; [done|]. bools.
  destruct (sign _ _ _) as [sig|] eqn:Hs; [|done]. intros [= <- <-].
  exists sig. split; [|done]. unfold validSignatures in *. bools. by split.
Qed.

Lemma MakeTimeout_none c s round qc tc s' :
  MakeTimeout c s round qc tc = (s', None) -> s' = s \/ s' = increaseHighestVoteRound s round.
Proof.
  unfold MakeTimeout. destruct (_ || _) eqn:Hc; [intros [= <-]; by auto|].
  destruct (sign _ _ _) as [sig|] eqn:Hs; [done|]. intros [= <-]. by auto.
Qed.

Lemma safeToVote_true s b q tc :
  safeToVote s b q tc = true ->
  (s_highestVoteRound s < b)%N /\ (q < b)%N /\
  (consecutive b q = true \/
   exists t, tc = Some t /\ consecutive b (tc_round t) = true /\ (MaxHighQCRound tc <= q)%N).
Proof.
  unfold safeToVote. destruct (N.leb_spec b (N.max (s_highestVoteRound s) q)) as [|Hlt]; [done|].
  intros Hs. split; [lia|]. split; [lia|]. apply orb_true_iff in Hs as [Hs|Hs]; [by left|right].
  unfold safeToExtend in Hs. destruct tc as [t|]; [|done]. bools. eauto.
Qed.

Lemma safeToTimeout_true s r q tc :
  safeToTimeout s r q tc = true ->
  (s_highestQCRound s <= q)%N /\ (q < r)%N /\ (s_highestVoteRound s <= r)%N.
Proof.
  unfold safeToTimeout. destruct (N.ltb_spec q (s_highestQCRound s)); [done|].
  destruct (N.leb_spec r (N.max (if (0 <? s_highestVoteRound s)%N then s_highestVoteRound s - 1 else 0)%N q)) as [|Hlt];
    [done|]. intros _. destruct (N.ltb_spec 0 (s_highestVoteRound s)); lia.
Qed.

(** ** Histories

    A replica whose Safety module runs this code, whatever drives it: any
    sequence of calls, with any ledger, tree and certificates. The history
    records what it signed, oldest first. *)

Inductive safety_event :=
  | EVote (b : Block) (tc : option TimeoutCert) (vi : VoteInfo) (ci : LedgerCommitInfo)
  | ETimeout (round : uint64) (qc : option QuorumCert) (tc : option TimeoutCert).

Inductive safety_run (id : uint32) (ver : Verifier) : list safety_event -> Safety -> Prop :=
  | run_new : safety_run id ver [] (NewSafety id ver)
  | run_vote_none h s s' c l t b tc :
      safety_run id ver h s -> MakeVote c s l t b tc = (s', None) -> safety_run id ver h s'
  | run_vote h s s' c l t b tc vi ci m :
      safety_run id ver h s -> MakeVote c s l t b tc = (s', Some m) ->
      vm_vote_info m = Some vi -> vm_ledger_commit_info m = Some ci ->
      safety_run id ver (h ++ [EVote b tc vi ci]) s'
  | run_timeout_none h s s' c r qc tc :
      safety_run id ver h s -> MakeTimeout c s r qc tc = (s', None) -> safety_run id ver h s'
  | run_timeout h s s' c r qc tc i :
      safety_run id ver h s -> MakeTimeout c s r qc tc = (s', Some i) ->
      safety_run id ver (h ++ [ETimeout r qc tc]) s'.

(** What the counters remember of the history. *)
Record remembers (h : list safety_event) (s : Safety) : Prop := {
  rm_vote : forall b tc vi ci, EVote b tc vi ci ∈ h ->
    (b_round b <= s_highestVoteRound s)%N /\ (QCRound (b_qc b) <= s_highestQCRound s)%N;
  rm_timeout : forall r qc tc, ETimeout r qc tc ∈ h -> (r <= s_highestVoteRound s)%N;
}.

Lemma remembers_mono h s s' :
  (s_highestVoteRound s <= s_highestVoteRound s')%N -> (s_highestQCRound s <= s_highestQCRound s')%N ->
  remembers h s -> remembers h s'.
Proof.
  intros H1 H2 [Hv Ht]. split.
  - intros b tc vi ci He. destruct (Hv _ _ _ _ He). lia.
  - intros r qc tc He. specialize (Ht _ _ _ He). lia.
Qed.

Lemma safety_run_id id ver h s : safety_run id ver h s -> s_id s = id /\ s_verify s = ver.
Proof.
  induction 1 as [|h s s' c l t b tc _ [IH1 IH2] Hm|h s s' c l t b tc vi ci m _ [IH1 IH2] Hm|
    h s s' c r qc tc _ [IH1 IH2] Hm|h s s' c r qc tc i _ [IH1 IH2] Hm]; [done|..].
  - destruct (MakeVote_none _ _ _ _ _ _ _ Hm) as (-> & -> & _). done.
  - destruct (MakeVote_some _ _ _ _ _ _ _ _ Hm) as (? & ? & ? & Hv & _). by rewrite (vt_state _ _ _ _ _ _ Hv).
  - by destruct (MakeTimeout_none _ _ _ _ _ _ Hm) as [->| ->].
  - destruct (MakeTimeout_some _ _ _ _ _ _ _ Hm) as (? & Ht & _). by rewrite (to_state _ _ _ _ _ Ht).
Qed.

Lemma voted_counters s s' b tc vi ci :
  voted s s' b tc vi ci ->
  (s_highestVoteRound s < b_round b)%N /\ (s_highestVoteRound s' = b_round b)%N /\
  (s_highestQCRound s <= s_highestQCRound s')%N /\ (QCRound (b_qc b) <= s_highestQCRound s')%N.
Proof.
  intros Hv. destruct (safeToVote_true _ _ _ _ (vt_safe _ _ _ _ _ _ Hv)) as (? & ? & _).
  rewrite (vt_state _ _ _ _ _ _ Hv). cbn. lia.
Qed.

Lemma run_remembers id ver h s : safety_run id ver h s -> remembers h s.
Proof.
  induction 1 as [|h s s' c l t b tc _ IH Hm|h s s' c l t b tc vi ci m _ IH Hm Evi Eci|
    h s s' c r qc tc _ IH Hm|h s s' c r qc tc i _ IH Hm].
  - split; intros; by (match goal with H : _ ∈ [] |- _ => apply not_elem_of_nil in H end).
  - destruct (MakeVote_none _ _ _ _ _ _ _ Hm) as (_ & _ & [[E1 E2]| ->]);
      (eapply remembers_mono; [..|exact IH]); cbn; lia.
  - destruct (MakeVote_some _ _ _ _ _ _ _ _ Hm) as (vi' & ci' & sig & Hv & _).
    destruct (voted_counters _ _ _ _ _ _ Hv) as (? & ? & ? & ?). split.
    + intros b' tc' vi'' ci'' [He|He%list_elem_of_singleton]%elem_of_app.
      * destruct (rm_vote _ _ IH _ _ _ _ He). lia.
      * injection He as -> -> -> ->. lia.
    + intros r qc tc' [He|He%list_elem_of_singleton]%elem_of_app; [|done].
      pose proof (rm_timeout _ _ IH _ _ _ He). lia.
  - eapply remembers_mono; [..|exact IH]; destruct (MakeTimeout_none _ _ _ _ _ _ Hm) as [->| ->]; cbn; lia.
  - destruct (MakeTimeout_some _ _ _ _ _ _ _ Hm) as (sig & Ht & _). rewrite (to_state _ _ _ _ _ Ht). split.
    + intros b' tc' vi'' ci'' [He|He%list_elem_of_singleton]%elem_of_app; [|done].
      destruct (rm_vote _ _ IH _ _ _ _ He). cbn. lia.
    + intros r' qc' tc' [He|He%list_elem_of_singleton]%elem_of_app; cbn.
      * pose proof (rm_timeout _ _ IH _ _ _ He). lia.
      * injection He as -> -> ->. lia.
Qed.

(** A history in which rounds are voted once and timeouts never under-report. *)
Record history_ok (ver : Verifier) (h : list safety_event) : Prop := {
  ho_vote : forall b tc vi ci, EVote b tc vi ci ∈ h ->
    exists s s', same_verifier (s_verify s) ver /\ voted s s' b tc vi ci;
  ho_timeout : forall r qc tc, ETimeout r qc tc ∈ h ->
    exists s s', same_verifier (s_verify s) ver /\ timed_out s s' r qc tc;
  ho_once : forall b tc vi ci b' tc' vi' ci', EVote b tc vi ci ∈ h -> EVote b' tc' vi' ci' ∈ h ->
    b_round b = b_round b' -> b = b' /\ vi = vi' /\ ci = ci';
  ho_report : forall b tc vi ci r qc tc', EVote b tc vi ci ∈ h -> ETimeout r qc tc' ∈ h ->
    (b_round b <= r)%N -> (QCRound (b_qc b) <= QCRound qc)%N;
}.

Lemma run_history_ok id ver h s : safety_run id ver h s -> history_ok ver h.
Proof.
  induction 1 as [|h s s' c l t b tc _ IH Hm|h s s' c l t b tc vi ci m Hrun IH Hm Evi Eci|
    h s s' c r qc tc _ IH Hm|h s s' c r qc tc i Hrun IH Hm]; [|done| |done|].
  - split; intros; by (match goal with H : _ ∈ [] |- _ => apply not_elem_of_nil in H end).
  - destruct (safety_run_id _ _ _ _ Hrun) as [_ Hver]. pose proof (run_remembers _ _ _ _ Hrun) as Hrm.
    destruct (MakeVote_some _ _ _ _ _ _ _ _ Hm) as (vi' & ci' & sig & Hv & -> & _).
    simpl in Evi, Eci. injection Evi as ->. injection Eci as ->.
    destruct (voted_counters _ _ _ _ _ _ Hv) as (Hlt & _).
    split.
    + intros b' tc' vi' ci' [He|He%list_elem_of_singleton]%elem_of_app; [by eapply ho_vote|].
      injection He as -> -> -> ->. exists s, s'. by rewrite Hver.
    + intros r qc tc' [He|He%list_elem_of_singleton]%elem_of_app; [by eapply ho_timeout|done].
    + intros b1 tc1 vi1 ci1 b2 tc2 vi2 ci2 [H1|H1%list_elem_of_singleton]%elem_of_app
        [H2|H2%list_elem_of_singleton]%elem_of_app Hr.
      * by eapply ho_once.
      * injection H2 as -> -> -> ->. destruct (rm_vote _ _ Hrm _ _ _ _ H1). lia.
      * injection H1 as -> -> -> ->. destruct (rm_vote _ _ Hrm _ _ _ _ H2). lia.
      * injection H1 as -> -> -> ->. injection H2 as -> -> -> ->. done.
    + intros b1 tc1 vi1 ci1 r qc tc2 [H1|H1%list_elem_of_singleton]%elem_of_app
        [H2|H2%list_elem_of_singleton]%elem_of_app Hr; try done.
      * by eapply ho_report.
      * injection H1 as -> -> -> ->. pose proof (rm_timeout _ _ Hrm _ _ _ H2). lia.
  - destruct (safety_run_id _ _ _ _ Hrun) as [_ Hver]. pose proof (run_remembers _ _ _ _ Hrun) as Hrm.
    destruct (MakeTimeout_some _ _ _ _ _ _ _ Hm) as (sig & Ht & -> & _).
    destruct (safeToTimeout_true _ _ _ _ (to_safe _ _ _ _ _ Ht)) as (Hq & _).
    split.
    + intros b' tc' vi' ci' [He|He%list_elem_of_singleton]%elem_of_app; [by eapply ho_vote|done].
    + intros r' qc' tc' [He|He%list_elem_of_singleton]%elem_of_app; [by eapply ho_timeout|].
      injection He as -> -> ->. exists s, s'. by rewrite Hver.
    + intros b1 tc1 vi1 ci1 b2 tc2 vi2 ci2 [H1|H1%list_elem_of_singleton]%elem_of_app
        [H2|H2%list_elem_of_singleton]%elem_of_app Hr; [by eapply ho_once|done..].
    + intros b1 tc1 vi1 ci1 r' qc' tc2 [H1|H1%list_elem_of_singleton]%elem_of_app
        [H2|H2%list_elem_of_singleton]%elem_of_app Hr; try done.
      * by eapply ho_report.
      * injection H2 as -> -> ->. destruct (rm_vote _ _ Hrm _ _ _ _ H1). lia.
Qed.

(** ** What the module promises *)

Definition event_round (e : safety_event) : uint64 :=
  match e with EVote b _ _ _ => b_round b | ETimeout r _ _ => r end.

(** [e] may be signed before [e']: a vote only in a round above everything signed
    before it, a timeout in no round below, and a timeout reports a certificate
    at least as high as the one each vote before it extended. *)
Definition signed_before (e e' : safety_event) : Prop :=
  match e' with
  | EVote b _ _ _ => (event_round e < b_round b)%N
  | ETimeout r qc _ => (event_round e <= r)%N /\
      match e with EVote b _ _ _ => (QCRound (b_qc b) <= QCRound qc)%N | ETimeout _ _ _ => True end
  end.

Lemma remembers_round h s e : remembers h s -> e ∈ h -> (event_round e <= s_highestVoteRound s)%N.
Proof. intros [Hv Ht] He. destruct e as [b tc vi ci|r qc tc]; simpl; [by apply (Hv _ _ _ _ He)|by apply (Ht _ _ _ He)]. Qed.

Lemma StronglySorted_snoc {A} (R : A -> A -> Prop) l x :
  StronglySorted R l -> (forall y, y ∈ l -> R y x) -> StronglySorted R (l ++ [x]).
Proof.
  induction 1 as [|y l Hl IH Hy]; intros Hx; simpl; [by repeat constructor|].
  constructor; [apply IH; intros z Hz; apply Hx; by right|].
  apply Forall_app. split; [done|]. apply Forall_singleton, Hx. by left.
Qed.

Lemma run_sorted (id : uint32) (ver : Verifier) (h : list safety_event) (s : Safety) :
  safety_run id ver h s -> StronglySorted signed_before h.
Proof.
  induction 1 as [|h s s' c l t b tc _ IH Hm|h s s' c l t b tc vi ci m Hrun IH Hm Evi Eci|
    h s s' c r qc tc _ IH Hm|h s s' c r qc tc i Hrun IH Hm]; [constructor|done| |done|];
    pose proof (run_remembers _ _ _ _ Hrun) as Hrm; apply StronglySorted_snoc; try done.
  - destruct (MakeVote_some _ _ _ _ _ _ _ _ Hm) as (vi' & ci' & sig & Hv & _).
    destruct (voted_counters _ _ _ _ _ _ Hv) as (Hlt & _).
    intros e He. simpl. pose proof (remembers_round _ _ _ Hrm He). lia.
  - destruct (MakeTimeout_some _ _ _ _ _ _ _ Hm) as (sig & Ht & _).
    destruct (safeToTimeout_true _ _ _ _ (to_safe _ _ _ _ _ Ht)) as (Hq & _ & Hr).
    intros e He. simpl. pose proof (remembers_round _ _ _ Hrm He). split; [lia|].
    destruct e as [b' tc' vi ci|]; [|done]. destruct (rm_vote _ _ Hrm _ _ _ _ He). lia.
Qed.

(** C10. Whatever calls a replica makes to its Safety module, with any
    certificates, ledger and tree, what it signs is ordered: it votes only in
    rounds above every round it voted or timed out in before (so at most once
    per round, and never after giving the round up), it never times out in a
    round below one it acted in, and no timeout reports a certificate below one
    that it voted over before. *)
Theorem safety_run_ordered (id : uint32) (ver : Verifier) (h : list safety_event) (s : Safety) :
  safety_run id ver h s -> StronglySorted signed_before h.
Proof. apply run_sorted. Qed.

(** A vote for the round-1 block over genesis, then a timeout of that round. *)
Definition demo_ledger : MemLedger := (Speculate NewMemLedger demo_block).1.
Definition demo_safety : Safety := NewSafety 1 demo_verifier.
Definition demo_vote_result : Safety * option VoteMsg :=
  MakeVote demo_crypto demo_safety demo_ledger demo_tree demo_block None.
Definition demo_cast_info : VoteInfo :=
  default zeroVoteInfo (demo_vote_result.2 ≫= vm_vote_info).
Definition demo_cast_commit : LedgerCommitInfo :=
  default zeroLedgerCommitInfo (demo_vote_result.2 ≫= vm_ledger_commit_info).
Definition demo_history : list safety_event :=
  [EVote demo_block None demo_cast_info demo_cast_commit; ETimeout 1 (Some genesisQC) None].
Definition demo_safety_end : Safety :=
  (MakeTimeout demo_crypto demo_vote_result.1 1 (Some genesisQC) None).1.

Lemma demo_vote_run : safety_run 1 demo_verifier [EVote demo_block None demo_cast_info demo_cast_commit] demo_vote_result.1.
Proof.
  assert (is_Some demo_vote_result.2) as [m Hm] by (refine (bool_decide_unpack _ _); vm_compute; exact I).
  assert (MakeVote demo_crypto (NewSafety 1 demo_verifier) demo_ledger demo_tree demo_block None =
    (demo_vote_result.1, Some m)) as E by (rewrite <- Hm; apply surjective_pairing).
  destruct (MakeVote_some _ _ _ _ _ _ _ _ E) as (vi & ci & sig & _ & Em & _). 
  assert (demo_cast_info = vi /\ demo_cast_commit = ci) as [-> ->].
  { unfold demo_cast_info, demo_cast_commit. rewrite Hm, Em. split; reflexivity. }
  apply (run_vote 1 demo_verifier [] (NewSafety 1 demo_verifier) _ demo_crypto demo_ledger demo_tree demo_block None vi ci m
    (run_new _ _) E); rewrite Em; reflexivity.
Qed.

Lemma demo_run_history : safety_run 1 demo_verifier demo_history demo_safety_end.
Proof.
  pose proof demo_vote_run as Hv.
  assert (is_Some (MakeTimeout demo_crypto demo_vote_result.1 1 (Some genesisQC) None).2) as [i Hi]
    by (refine (bool_decide_unpack _ _); vm_compute; exact I).
  apply (run_timeout _ _ [_] demo_vote_result.1 demo_safety_end demo_crypto 1 (Some genesisQC) None i Hv).
  unfold demo_safety_end. rewrite <- Hi. apply surjective_pairing.
Qed.

Lemma safety_run_ordered_witness : StronglySorted signed_before demo_history.
Proof. exact (safety_run_ordered 1 demo_verifier demo_history demo_safety_end demo_run_history). Defined.

(** The voting rule: the certificate is of the round below, or a timeout
    certificate of the round below rides along and no certificate it reports is
    above the block's. *)
Definition extends_safely (b : Block) (tc : option TimeoutCert) : Prop :=
  consecutive (b_round b) (QCRound (b_qc b)) = true \/
  exists t, tc = Some t /\ consecutive (b_round b) (tc_round t) = true /\
    Forall (fun v => (tv_high_qc_round v <= QCRound (b_qc b))%N) (tc_votes t).

Lemma MaxHighQCRound_le t q :
  (MaxHighQCRound (Some t) <= q)%N <-> Forall (fun v => (tv_high_qc_round v <= q)%N) (tc_votes t).
Proof.
  unfold MaxHighQCRound. cbn [TimeoutCert_GetVotes]. assert (forall vs m,
    (fold_left (fun m v => N.max m (tv_high_qc_round v)) vs m <= q <->
     m <= q /\ Forall (fun v => (tv_high_qc_round v <= q)) vs)%N) as H.
  { induction vs as [|v vs IH]; intros m; simpl; [split; [done|tauto]|]. rewrite IH, Forall_cons. intuition lia. }
  rewrite H. split; [tauto|]. intros ?. split; [lia|done].
Qed.

Lemma safeToVote_iff s b tc :
  safeToVote s (b_round b) (QCRound (b_qc b)) tc = true <->
  (s_highestVoteRound s < b_round b)%N /\ (QCRound (b_qc b) < b_round b)%N /\ extends_safely b tc.
Proof.
  unfold safeToVote, extends_safely, safeToExtend.
  destruct (N.leb_spec (b_round b) (N.max (s_highestVoteRound s) (QCRound (b_qc b)))); [split; [done|lia]|].
  rewrite orb_true_iff. destruct tc as [t|].
  - rewrite andb_true_iff, N.leb_le, MaxHighQCRound_le. cbn [TimeoutCert_GetRound]. split.
    + intros [?|[? ?]]; (split; [lia|split; [lia|]]); [by left|right; eauto].
    + intros (_ & _ & [?|(t' & [= <-] & ? & ?)]); auto.
  - split; [intros [?|?]; [split; [lia|split; [lia|by left]]|done]|]. intros (_ & _ & [?|(? & ? & _)]); [by left|done].
Qed.

(** C18. [MakeVote] on every branch. A vote comes back exactly when the block's
    id is the hash of its fields, its certificate and the timeout certificate
    verify, its round is above both the last round acted in and its
    certificate's, it extends safely, its execution state is known and the
    signer works; it then names the block, its round, its parent and that state,
    and commits to the parent's state exactly under the two-chain rule. A block
    refused by the rules moves nothing; a block not executed only raises the
    declined counter. *)
Theorem MakeVote_spec (c : Crypto) (s : Safety) (l : MemLedger) (t : BlockTree) (b : Block) (tc : option TimeoutCert) :
  let allowed := validBlockID b = true /\ VerifyQC (s_verify s) (b_qc b) = true /\ VerifyTC (s_verify s) tc = true /\
    (s_highestVoteRound s < b_round b)%N /\ (QCRound (b_qc b) < b_round b)%N /\ extends_safely b tc in
  let '(s', r) := MakeVote c s l t b tc in
  (~ allowed -> s' = s /\ r = None) /\
  (allowed -> PendingState l (b_id b) = None ->
     r = None /\ s_declinedMissingAncestor s' = s_declinedMissingAncestor s +u64 1 /\
     s_highestVoteRound s' = s_highestVoteRound s /\ s_highestQCRound s' = s_highestQCRound s)%N /\
  (forall exec, allowed -> PendingState l (b_id b) = Some exec ->
     s_highestVoteRound s' = b_round b /\
     s_highestQCRound s' = N.max (QCRound (b_qc b)) (s_highestQCRound s) /\
     let vi := MkVoteInfo (b_id b) (b_round b) (parentID b) (QCRound (b_qc b)) exec in
     let state := if consecutive (b_round b) (QCRound (b_qc b))
                  then default zeroHash (PendingState l (parentID b)) else zeroHash in
     let ci := MkLedgerCommitInfo state (VoteInfoHash (Some vi)) in
     r = sig ← sign c (s_id s) (LedgerCommitDigest (Some ci));
         Some (MkVoteMsg (Some vi) (Some ci) (HighCommitQC t) (s_id s) (Some sig))).
Proof.
  intros allowed.
  assert (allowed <-> negb (validBlockID b) || negb (validSignatures s (b_qc b) tc)
    || negb (safeToVote s (b_round b) (QCRound (b_qc b)) tc) = false) as Ha.
  { rewrite !orb_false_iff, !negb_false_iff, safeToVote_iff. unfold allowed, validSignatures.
    rewrite andb_true_iff. tauto. }
  unfold MakeVote. destruct (_ || _) eqn:Hc.
  { assert (~ allowed) by (rewrite Ha; done). split; [done|]. split; [done|]. done. }
  assert allowed as Hall by (by apply Ha). destruct (PendingState l (b_id b)) as [exec|] eqn:Hp.
  2: { split_and!; try done. }
  destruct Hall as (_ & _ & _ & Hlt & _).
  destruct (sign _ _ _) as [sig|] eqn:Hs; (split; [tauto|]; split; [done|]); intros exec' _ [= <-];
    cbn [s_highestVoteRound s_highestQCRound increaseHighestVoteRound updateHighestQCRound s_id] in *;
    (split; [lia|]; split; [done|]); cbv zeta;
    assert (commitStateIDCandidate l (b_round b) (b_qc b) =
      if consecutive (b_round b) (QCRound (b_qc b)) then default zeroHash (PendingState l (parentID b)) else zeroHash) as <-
      by (unfold commitStateIDCandidate, parentID; destruct (consecutive _ _); [|done]; by destruct (PendingState _ _));
    by rewrite Hs.
Qed.

(** A replica only sends votes that every other replica accepts: if its
    signatures verify under its id, ledger states are hashes and the commit
    certificate it attaches verifies, a vote from [MakeVote] passes
    [VerifyVote]. *)
Theorem MakeVote_accepted (c : Crypto) (s : Safety) (l : MemLedger) (t : BlockTree) (b : Block)
    (tc : option TimeoutCert) (m : VoteMsg) :
  (forall d sg, Sign c d = Some sg -> Verify (v_crypto (s_verify s)) (s_id s) d sg = true) ->
  (forall id st, PendingState l id = Some st -> length st = hashLen) ->
  verifyCommitQC (s_verify s) (HighCommitQC t) = true ->
  (MakeVote c s l t b tc).2 = Some m -> VerifyVote (s_verify s) m = true.
Proof.
  intros Hsign Hlen Hq Hm. destruct (MakeVote c s l t b tc) as [s' r] eqn:E. simpl in Hm. subst r.
  destruct (MakeVote_some _ _ _ _ _ _ _ _ E) as (vi & ci & sig & Hv & -> & Hs & Hex & Hst).
  destruct (vt_info _ _ _ _ _ _ Hv) as [exec Evi]. unfold sign in Hs. apply bind_Some in Hs as (sg & Hs & [= <-]).
  apply VerifyVote_iff. split; [done|]. split_and!; try done.
  - apply validVote_spec. rewrite Evi in Hex |- *. cbn in Hex |- *. split_and!.
    + pose proof (vt_block_id _ _ _ _ _ _ Hv) as Hid. unfold validBlockID in Hid. bools. rewrite <- Hid. apply length_sha256.
    + apply (VerifyQC_id_len (s_verify s)), (vt_qc _ _ _ _ _ _ Hv).
    + by eapply Hlen.
    + rewrite Hst. unfold commitStateIDCandidate. destruct (negb _); [apply length_zeroHash|].
      destruct (PendingState l (VoteInfo_GetId _)) eqn:Ep; [exact (Hlen _ _ Ep)|apply length_zeroHash].
    + rewrite (vt_hash _ _ _ _ _ _ Hv). apply length_sha256.
  - simpl. by rewrite (vt_hash _ _ _ _ _ _ Hv).
  - unfold verifySig. simpl. by apply Hsign.
Qed.

Lemma demo_states_hashlen id st : PendingState demo_ledger id = Some st -> length st = hashLen.
Proof.
  assert (map_Forall (fun _ s => length (sp_state s) = hashLen) (l_pending demo_ledger)) as HF
    by (refine (bool_decide_unpack _ _); vm_compute; exact I).
  assert (length (l_commitState demo_ledger) = hashLen) as Hc by (vm_compute; reflexivity).
  revert HF Hc. generalize demo_ledger. intros l HF Hc.
  intros [[_ ->]|(_ & p & Hp & <-)]%known_cases; [exact Hc|exact (HF _ _ Hp)].
Qed.

Lemma MakeVote_accepted_witness :
  exists m, demo_vote_result.2 = Some m /\ VerifyVote demo_verifier m = true.
Proof.
  assert (is_Some demo_vote_result.2) as [m Hm] by (refine (bool_decide_unpack _ _); vm_compute; exact I).
  exists m. split; [exact Hm|].
  apply (MakeVote_accepted demo_crypto demo_safety demo_ledger demo_tree demo_block None m).
  - intros d sg [= <-]. reflexivity.
  - exact demo_states_hashlen.
  - vm_compute. reflexivity.
  - exact Hm.
Defined.

(** The counters move before the signature is made: when the signer fails,
    no vote comes back and yet the round is spent and the certificate's round
    endorsed. *)
Theorem MakeVote_sign_error (c : Crypto) (s : Safety) (l : MemLedger) (t : BlockTree) (b : Block)
    (tc : option TimeoutCert) (exec : bytes) :
  validBlockID b = true -> VerifyQC (s_verify s) (b_qc b) = true -> VerifyTC (s_verify s) tc = true ->
  safeToVote s (b_round b) (QCRound (b_qc b)) tc = true -> PendingState l (b_id b) = Some exec ->
  (forall d, Sign c d = None) ->
  (MakeVote c s l t b tc).2 = None /\
  (s_highestVoteRound s < s_highestVoteRound (MakeVote c s l t b tc).1)%N /\
  s_highestVoteRound (MakeVote c s l t b tc).1 = b_round b.
Proof.
  intros H1 H2 H3 H4 H5 H6. unfold MakeVote, validSignatures. rewrite H1, H2, H3, H4, H5. cbn [negb orb andb].
  unfold sign. rewrite H6. cbn. destruct (safeToVote_true _ _ _ _ H4) as (? & _). split; [done|]. lia.
Qed.

Lemma MakeVote_sign_error_witness :
  let c := MkCrypto (fun _ => None) (Verify demo_crypto) in
  (MakeVote c demo_safety demo_ledger demo_tree demo_block None).2 = None /\
  s_highestVoteRound (MakeVote c demo_safety demo_ledger demo_tree demo_block None).1 = 1%N.
Proof.
  intros c. assert (is_Some (PendingState demo_ledger (b_id demo_block))) as [exec He]
    by (refine (bool_decide_unpack _ _); vm_compute; exact I).
  destruct (MakeVote_sign_error c demo_safety demo_ledger demo_tree demo_block None exec) as (H1 & _ & H2);
    [vm_compute; reflexivity..|exact He|reflexivity|]. split; [exact H1|exact H2].
Defined.
