(* ===== verification/Agreement.v ===== *)
(** Agreement of the protocol. The replicas outside the Byzantine set run the
    Safety module of this code, driven in any way whatever; the network and the
    Byzantine replicas may do anything but forge signatures and find hash
    collisions. Then at most one block is certified per round, a timeout
    certificate never hides a committed round, and committed blocks lie on one
    chain (Property 1, Lemmas 1 to 3 and Property 2 of [diem/INVARIANTS.org]). *)

From stdpp Require Import prelude gmap list fin_maps.
From Stdlib Require Import NArith ZArith Lia Strings.Byte.
From S2P Require Import Prelude Sha256 Proto Hash Types Quorum Verify Ledger BlockTree Safety.

(** The digests a replica with this history signs: votes and timeouts through
    Safety, and besides them the author signature of a certificate
    ([BlockTree.ProcessVote]) and the id of its own proposals
    ([Core.processNewRoundEvent]). *)
Inductive honest_signs (h : list safety_event) : digest_input -> Prop :=
  | hs_vote b tc vi ci : EVote b tc vi ci ∈ h -> honest_signs h (DLedgerCommit (Some ci))
  | hs_timeout r qc tc : ETimeout r qc tc ∈ h -> honest_signs h (DTimeout r (QCRound qc))
  | hs_author sigs : honest_signs h (DQCSigs sigs)
  | hs_proposal a r p qc : honest_signs h (DBlock a r p qc).

(** An execution: the validators, the Byzantine ones, the verifier they share,
    what each replica signed through Safety, what was ever hashed, and the
    signatures that occur in messages. *)
Record execution := MkExecution {
  x_validators : gset uint32;
  x_byzantine : gset uint32;
  x_verifier : Verifier;
  x_history : uint32 -> list safety_event;
  x_hashed : digest_input -> Prop;
  x_presented : bytes -> Prop;
}.

Definition honest (x : execution) (i : uint32) : Prop := i ∈ x_validators x /\ i ∉ x_byzantine x.

(** A certificate that occurs in the execution: its digests were hashed, its
    integers are of the wire's width, and its signatures occur. *)
Definition seen_qc (x : execution) (q : QuorumCert) : Prop :=
  x_hashed x (DLedgerCommit (qc_ledger_commit_info q)) /\ x_hashed x (DVoteInfo (qc_vote_info q)) /\
  (VoteInfo_GetRound (qc_vote_info q) < two64)%N /\ (VoteInfo_GetParentRound (qc_vote_info q) < two64)%N /\
  Forall (fun s => x_presented x (sg_sig s)) (qc_signatures q).

Definition seen_tc (x : execution) (t : TimeoutCert) : Prop :=
  (tc_round t < two64)%N /\
  forall v, v ∈ tc_votes t -> x_hashed x (DTimeout (tc_round t) (tv_high_qc_round v)) /\
    (tv_high_qc_round v < two64)%N /\ x_presented x (Signature_GetSig (tv_sig v)).

Definition block_input (b : Block) : digest_input := DBlock (b_author b) (b_round b) (b_payload b) (b_qc b).

(** A block whose fields are of the wire's types. *)
Definition block_typed (b : Block) : Prop :=
  (b_author b < two32)%N /\ (b_round b < two64)%N /\ payload_ok (b_payload b) /\
  sigs_ok (QuorumCert_GetSignatures (b_qc b)).

Record execution_ok (x : execution) : Prop := {
  xo_nonempty : (1 <= Z.of_nat (size (x_validators x)))%Z;
  xo_faults : (Z.of_nat (size (x_byzantine x)) <= Faulty (Z.of_nat (size (x_validators x))))%Z;
  xo_quorum : v_quorum (x_verifier x) = QuorumSize (Z.of_nat (size (x_validators x)));
  (** Honest replicas run this Safety module, each with a verifier like the shared one. *)
  xo_runs : forall i, honest x i -> exists ver s, same_verifier ver (x_verifier x) /\ safety_run i ver (x_history x i) s;
  (** Only registered keys verify. *)
  xo_keys : forall i d s, Verify (v_crypto (x_verifier x)) i d s = true -> i ∈ x_validators x;
  (** No forgery: a signature that occurs and verifies as that of an honest replica,
      on the digest of a string that was hashed, is on a digest the replica signed. *)
  xo_unforgeable : forall i d s, honest x i -> x_hashed x d -> x_presented x s ->
    Verify (v_crypto (x_verifier x)) i (digest d) s = true ->
    exists di, honest_signs (x_history x i) di /\ x_hashed x di /\ digest d = digest di;
  (** No collision among the strings hashed in the execution. *)
  xo_collision_free : collision_free (fun y => exists di, x_hashed x di /\ y = preimage di);
  (** What an honest replica votes on occurs in the execution. *)
  xo_votes_seen : forall i b tc vi ci, honest x i -> EVote b tc vi ci ∈ x_history x i ->
    block_typed b /\ x_hashed x (DVoteInfo (Some vi)) /\ x_hashed x (block_input b) /\
    (forall q, b_qc b = Some q -> seen_qc x q) /\ (forall t, tc = Some t -> seen_tc x t);
  xo_timeouts_seen : forall i r qc tc, honest x i -> ETimeout r qc tc ∈ x_history x i ->
    (r < two64)%N /\ (QCRound qc < two64)%N;
}.

(** [q] is accepted, of a positive round, and certifies [vi]. *)
Record certifies (x : execution) (q : QuorumCert) (vi : VoteInfo) : Prop := {
  cf_valid : VerifyQC (x_verifier x) (Some q) = true;
  cf_round : QCRound (Some q) ≠ 0%N;
  cf_seen : seen_qc x q;
  cf_info : qc_vote_info q = Some vi;
}.

Definition certified (x : execution) (vi : VoteInfo) : Prop := exists q, certifies x q vi.

(** [q] certifies [vi] and commits the parent of its block. *)
Definition commits (x : execution) (q : QuorumCert) (vi : VoteInfo) : Prop :=
  certifies x q vi /\ Commits (qc_ledger_commit_info q) = true.

(** [extends x a d]: certified parent links lead from [d] back to [a]. *)
Inductive extends (x : execution) (a : bytes) : bytes -> Prop :=
  | extends_refl : extends x a a
  | extends_step vi : certified x vi -> extends x a (vi_parent_id vi) -> extends x a (vi_id vi).

Section agreement.
Context (x : execution) (Hx : execution_ok x).

Lemma hashed_inj d d' :
  x_hashed x d -> x_hashed x d' -> digest d = digest d' -> preimage d = preimage d'.
Proof. intros Hd Hd' E. apply (xo_collision_free x Hx); eauto. Qed.

Lemma honest_history i : honest x i -> history_ok (x_verifier x) (x_history x i).
Proof.
  intros Hi. destruct (xo_runs x Hx i Hi) as (ver & s & Hver & Hs). apply run_history_ok in Hs as [H1 H2 H3 H4]. split; [| |exact H3|exact H4].
  - intros b tc vi ci He. destruct (H1 _ _ _ _ He) as (s1 & s2 & Hv & Hvt). exists s1, s2. split; [by etrans|exact Hvt].
  - intros r qc tc He. destruct (H2 _ _ _ He) as (s1 & s2 & Hv & Hvt). exists s1, s2. split; [by etrans|exact Hvt].
Qed.

(** An honest vote is on a block with these fields. *)
Lemma honest_vote i b tc vi ci :
  honest x i -> EVote b tc vi ci ∈ x_history x i ->
  vi_id vi = b_id b /\ vi_round vi = b_round b /\ vi_parent_id vi = parentID b /\
  vi_parent_round vi = QCRound (b_qc b) /\ length (b_id b) = hashLen /\
  (exists q, b_qc b = Some q /\ VerifyQC (x_verifier x) (Some q) = true /\ seen_qc x q) /\
  length (parentID b) = hashLen /\ (QCRound (b_qc b) < b_round b)%N /\
  VoteInfoHash (Some vi) = lci_vote_info_hash ci /\
  vote_info_ok (Some vi).
Proof.
  intros Hi He. destruct (ho_vote _ _ (honest_history i Hi) _ _ _ _ He) as (s & s' & Hver & Hv).
  destruct (vt_info _ _ _ _ _ _ Hv) as [exec ->]. simpl.
  destruct (xo_votes_seen x Hx i b tc _ ci Hi He) as ((_ & Hr & _) & _ & _ & Hq & _).
  pose proof (vt_qc _ _ _ _ _ _ Hv) as Hqc. rewrite Hver in Hqc.
  destruct (VerifyQC_some _ _ Hqc) as [q Eq]. rewrite Eq in Hqc.
  destruct (safeToVote_true _ _ _ _ (vt_safe _ _ _ _ _ _ Hv)) as (_ & Hlt & _).
  assert (length (b_id b) = hashLen) as Hid.
  { pose proof (vt_block_id _ _ _ _ _ _ Hv) as Hb. unfold validBlockID in Hb. bools. rewrite <- Hb. apply length_sha256. }
  assert (length (parentID b) = hashLen) as Hpid.
  { unfold parentID. rewrite Eq. simpl. apply VerifyQC_iff in Hqc as [[_ ->]|[_ Hc]]; [apply genesisBlock_id_len|].
    by apply qcv_hashes, validVote_spec in Hc as (? & _). }
  split_and!; try done; [by exists q; eauto|by rewrite (vt_hash _ _ _ _ _ _ Hv)|].
  unfold vote_info_ok. simpl. split_and!; try done. lia.
Qed.

(** A validly signed commit info of an honest signer is one it voted for. *)
Lemma honest_commit_vote i l s :
  honest x i -> x_hashed x (DLedgerCommit l) -> length (LedgerCommitInfo_GetVoteInfoHash l) = hashLen ->
  x_presented x s -> Verify (v_crypto (x_verifier x)) i (LedgerCommitDigest l) s = true ->
  exists b tc vi ci, EVote b tc vi ci ∈ x_history x i /\ same_commit_info (Some ci) l.
Proof.
  intros Hi Hh Hlen Hp Hv. destruct (xo_unforgeable x Hx i (DLedgerCommit l) s Hi Hh Hp Hv) as (di & Hs & Hdi & E).
  apply hashed_inj in E; [|done..]. pose proof (preimage_domain _ _ E) as Hdom.
  destruct Hs as [b tc vi ci He|r qc tc He|sigs|a r p qc]; try done.
  exists b, tc, vi, ci. split; [done|]. apply LedgerCommitDigest_preimage_inj_r; [|done].
  rewrite Hlen. destruct (honest_vote i b tc vi ci Hi He) as (_ & _ & _ & _ & _ & _ & _ & _ & Hc & _).
  simpl. rewrite <- Hc. apply length_sha256.
Qed.

(** A validly signed timeout of an honest signer is one it sent. *)
Lemma honest_timeout i r h s :
  honest x i -> x_hashed x (DTimeout r h) -> (r < two64)%N -> (h < two64)%N ->
  x_presented x s -> Verify (v_crypto (x_verifier x)) i (TimeoutDigest r h) s = true ->
  exists qc tc, ETimeout r qc tc ∈ x_history x i /\ QCRound qc = h.
Proof.
  intros Hi Hh Hr Hhr Hp Hv. destruct (xo_unforgeable x Hx i (DTimeout r h) s Hi Hh Hp Hv) as (di & Hs & Hdi & E).
  apply hashed_inj in E; [|done..]. pose proof (preimage_domain _ _ E) as Hdom.
  destruct Hs as [b tc vi ci He|r' qc tc He|sigs|a r' p qc]; try done.
  destruct (xo_timeouts_seen x Hx i r' qc tc Hi He).
  simpl in E. apply TimeoutDigest_preimage_inj in E as [-> ->]; [|done..]. eauto.
Qed.

(** Behind a certificate stands a quorum whose honest members voted for it. *)
Lemma certified_votes q vi :
  certifies x q vi ->
  exists Q : gset uint32, Q ⊆ x_validators x /\
    (QuorumSize (Z.of_nat (size (x_validators x))) <= Z.of_nat (size Q))%Z /\
    forall i, i ∈ Q -> i ∉ x_byzantine x ->
      exists b tc ci, EVote b tc vi ci ∈ x_history x i /\ same_commit_info (Some ci) (qc_ledger_commit_info q).
Proof.
  intros [Hv Hr (Hh1 & Hh2 & Hr1 & Hr2 & Hps) Hi]. apply VerifyQC_iff in Hv as [[? _]|[_ Hv]]; [done|].
  exists (signers (qc_signatures q)).
  assert (signers (qc_signatures q) ⊆ x_validators x) as Hsub.
  { intros i Hin. destruct (qc_signer_verifies _ _ _ Hv Hin) as (s & _ & _ & Hs). by eapply xo_keys. }
  split; [done|]. split; [rewrite <- (xo_quorum x Hx); by apply qc_signers_size|].
  intros i Hin Hb. assert (honest x i) as Hho by (split; auto).
  destruct (qc_signer_verifies _ _ _ Hv Hin) as (s & Hsin & _ & Hs). rewrite Forall_forall in Hps.
  destruct (proj1 (validVote_spec _ _) (qcv_hashes _ _ Hv)) as (L1 & L2 & L3 & L4 & L5).
  destruct (honest_commit_vote i _ _ Hho Hh1 L5 (Hps s Hsin) Hs) as (b & tc & vi' & ci & He & Hsc).
  destruct (honest_vote i b tc vi' ci Hho He) as (_ & _ & _ & _ & _ & _ & _ & _ & Hbind & Hok).
  destruct (xo_votes_seen x Hx i b tc vi' ci Hho He) as (_ & Hhv & _).
  assert (vi' = vi) as ->; [|by eauto].
  apply same_vote_info_eq. rewrite <- Hi. apply VoteInfoHash_preimage_inj; [done|by split_and!|].
  apply (hashed_inj (DVoteInfo (Some vi')) (DVoteInfo (qc_vote_info q))); [done..|].
  change (VoteInfoHash (Some vi') = VoteInfoHash (qc_vote_info q)).
  rewrite Hbind, (qcv_binds _ _ Hv). by destruct Hsc as [_ <-].
Qed.

Lemma certified_honest q vi :
  certifies x q vi ->
  exists i b tc ci, honest x i /\ EVote b tc vi ci ∈ x_history x i /\
    same_commit_info (Some ci) (qc_ledger_commit_info q).
Proof.
  intros Hc. destruct (certified_votes q vi Hc) as (Q & Hsub & Hsz & Hvotes).
  destruct (quorum_honest _ _ Q Hsub (xo_nonempty x Hx) (xo_faults x Hx) Hsz) as (i & Hi & Hb).
  destruct (Hvotes i Hi Hb) as (b & tc & ci & He & Hs). exists i, b, tc, ci. split; [split; auto|done].
Qed.

(** Property 1: at most one vote info is certified per round. *)
Lemma certified_unique vi vi' :
  certified x vi -> certified x vi' -> vi_round vi = vi_round vi' -> vi = vi'.
Proof.
  intros [q Hq] [q' Hq'] Hr.
  destruct (certified_votes q vi Hq) as (Q & Hs & Hz & Hv).
  destruct (certified_votes q' vi' Hq') as (Q' & Hs' & Hz' & Hv').
  destruct (quorum_honest_overlap _ _ Q Q' Hs Hs' (xo_nonempty x Hx) (xo_faults x Hx) Hz Hz') as (i & Hi & Hi' & Hb).
  assert (honest x i) as Hho by (split; auto).
  destruct (Hv i Hi Hb) as (b & tc & ci & He & _). destruct (Hv' i Hi' Hb) as (b' & tc' & ci' & He' & _).
  destruct (honest_vote _ _ _ _ _ Hho He) as (_ & E1 & _). destruct (honest_vote _ _ _ _ _ Hho He') as (_ & E2 & _).
  destruct (ho_once _ _ (honest_history i Hho) _ _ _ _ _ _ _ _ He He') as (_ & ? & _); congruence.
Qed.

(** The parent of a certified block is genesis or certified, in a lower round. *)
Lemma certified_parent vi :
  certified x vi ->
  (vi_parent_round vi < vi_round vi)%N /\
  ((vi_parent_round vi = 0%N /\ vi_parent_id vi = b_id genesisBlock) \/
   (exists vp, certified x vp /\ vi_id vp = vi_parent_id vi /\ vi_round vp = vi_parent_round vi)).
Proof.
  intros [q Hq]. destruct (certified_honest q vi Hq) as (i & b & tc & ci & Hho & He & _).
  destruct (honest_vote _ _ _ _ _ Hho He) as (_ & -> & -> & -> & _ & (qp & Eq & Hv & Hseen) & _ & Hlt & _).
  split; [done|]. unfold parentID. rewrite Eq. pose proof Hv as Hv'.
  apply VerifyQC_iff in Hv' as [[Hr ->]|[Hr Hc]].
  { left. split; [exact Hr|exact genesisQC_id]. }
  right.
  destruct (proj1 (validVote_spec _ _) (qcv_hashes _ _ Hc)) as (L1 & _). simpl in *.
  destruct (qc_vote_info qp) as [vp|] eqn:Evp; [|done]. exists vp.
  unfold QCRound. simpl. rewrite Evp. split; [|done]. by exists qp.
Qed.
(** A committing certificate is over consecutive rounds. *)
Lemma commits_rounds q vi : commits x q vi -> vi_round vi = (vi_parent_round vi + 1)%N.
Proof.
  intros [[Hv Hr (_ & _ & Hr1 & Hr2 & _) Hi] Hc].
  apply VerifyQC_iff in Hv as [[? _]|[_ Hv]]; [done|].
  pose proof (qcv_two_chain _ _ Hv Hc) as H2. unfold QCRound in Hr. simpl in Hr.
  rewrite Hi in *. simpl in *. by apply consecutive_iff in H2.
Qed.

(** Lemma 2: a timeout certificate of a later round reports the committed one. *)
Lemma timeout_reports_commit q vi t :
  commits x q vi -> VerifyTC (x_verifier x) (Some t) = true -> seen_tc x t ->
  (vi_round vi <= tc_round t)%N -> (vi_parent_round vi <= MaxHighQCRound (Some t))%N.
Proof.
  intros [Hc _] Hv [Hr Hseen] Hle. apply VerifyTC_iff in Hv.
  destruct (certified_votes q vi Hc) as (Q & Hs & Hz & Hvotes).
  assert (tc_signers (tc_votes t) ⊆ x_validators x) as Hsub.
  { intros i Hin. destruct (tc_signer_verifies _ _ _ Hv Hin) as (v & _ & _ & Hsig). by eapply xo_keys. }
  pose proof (tc_signers_size _ _ Hv) as Hz'. rewrite (xo_quorum x Hx) in Hz'.
  destruct (quorum_honest_overlap _ _ _ _ Hs Hsub (xo_nonempty x Hx) (xo_faults x Hx) Hz Hz') as (i & Hi & Hi' & Hb).
  assert (honest x i) as Hho by (split; auto).
  destruct (Hvotes i Hi Hb) as (b & tc & ci & He & _).
  destruct (tc_signer_verifies _ _ _ Hv Hi') as (v & Hin & _ & Hsig). destruct (Hseen v Hin) as (Hh & Hvr & Hp).
  destruct (honest_timeout i _ _ _ Hho Hh Hr Hvr Hp Hsig) as (qc & tc' & Ht & Eqc).
  destruct (honest_vote _ _ _ _ _ Hho He) as (_ & E1 & _ & E2 & _).
  pose proof (ho_report _ _ (honest_history i Hho) _ _ _ _ _ _ _ He Ht) as Hrep.
  pose proof (MaxHighQCRound_ge (Some t) v Hin). lia.
Qed.

(** An honest vote above a commit extends a round at or above it. *)
Lemma vote_above_commit q vi i b tc vi' ci :
  commits x q vi -> honest x i -> EVote b tc vi' ci ∈ x_history x i ->
  (vi_round vi < b_round b)%N -> (vi_parent_round vi <= QCRound (b_qc b))%N.
Proof.
  intros Hc Hho He Hlt. pose proof (commits_rounds q vi Hc) as Hr.
  destruct (ho_vote _ _ (honest_history i Hho) _ _ _ _ He) as (s & s' & Hver & Hv).
  destruct (xo_votes_seen x Hx i b tc _ ci Hho He) as ((_ & Hbr & _) & _ & _ & _ & Htc).
  destruct (safeToVote_true _ _ _ _ (vt_safe _ _ _ _ _ _ Hv)) as (_ & Hq & [Hcons|(t & -> & Hcons & Hmax)]).
  - apply consecutive_iff in Hcons; lia.
  - specialize (Htc t eq_refl). pose proof (vt_tc _ _ _ _ _ _ Hv) as Hvt. rewrite Hver in Hvt.
    apply consecutive_iff in Hcons; [|apply Htc|lia|lia].
    pose proof (timeout_reports_commit q vi t Hc Hvt Htc). lia.
Qed.

(** The committed block is the only one certified in its round. *)
Lemma commit_parent_unique q vi vi' :
  commits x q vi -> certified x vi' -> vi_round vi' = vi_parent_round vi -> vi_id vi' = vi_parent_id vi.
Proof.
  intros [Hc _] Hc' Hr. destruct (certified_parent vi (ex_intro _ q Hc)) as [_ [[H0 _]|(vp & Hp & <- & E)]].
  - destruct (certified_parent vi' Hc') as [? _]. lia.
  - by rewrite (certified_unique vp vi' Hp Hc') by congruence.
Qed.

(** Lemma 3: every certified block at or above a committed one extends it. *)
Lemma certified_extends_commit q vi vi' :
  commits x q vi -> certified x vi' -> (vi_parent_round vi <= vi_round vi')%N ->
  extends x (vi_parent_id vi) (vi_id vi').
Proof.
  intros Hc. remember (vi_round vi') as n eqn:Hn. revert vi' Hn.
  induction n as [n IH] using (well_founded_induction N.lt_wf_0). intros vi' -> Hc' Hle.
  pose proof (commits_rounds q vi Hc) as Hr. assert (certified x vi) as Hcv by (exists q; apply Hc).
  destruct (N.eq_dec (vi_round vi') (vi_parent_round vi)) as [E|E1].
  { rewrite (commit_parent_unique q vi vi' Hc Hc' E). constructor. }
  destruct (N.eq_dec (vi_round vi') (vi_round vi)) as [E|E2].
  { rewrite (certified_unique vi' vi Hc' Hcv E). apply extends_step; [done|constructor]. }
  apply extends_step; [done|]. destruct Hc' as [q' Hq'].
  destruct (certified_honest q' vi' Hq') as (i & b & tc & ci & Hho & He & _).
  destruct (honest_vote _ _ _ _ _ Hho He) as (_ & Eb & _ & Ep & _).
  pose proof (vote_above_commit q vi i b tc vi' ci Hc Hho He) as Hup.
  destruct (certified_parent vi' (ex_intro _ q' Hq')) as [Hlt [[H0 Hg]|(vp & Hp & <- & Er)]].
  - destruct (certified_parent vi Hcv) as [_ [[_ Hg']|(vp & Hp & _ & Er)]].
    + rewrite Hg, Hg'. constructor.
    + exfalso. destruct (certified_parent vp Hp) as [? _]. lia.
  - apply (IH (vi_round vp)); [lia|done|done|lia].
Qed.

(** Property 2, on certificates. *)
Lemma commits_ordered q1 vi1 q2 vi2 :
  commits x q1 vi1 -> commits x q2 vi2 -> (vi_parent_round vi1 <= vi_parent_round vi2)%N ->
  extends x (vi_parent_id vi1) (vi_parent_id vi2).
Proof.
  intros H1 H2 Hle. destruct (certified_parent vi2 (ex_intro _ q2 (proj1 H2))) as [_ [[H0 Hg]|(vp & Hp & <- & Er)]].
  - destruct (certified_parent vi1 (ex_intro _ q1 (proj1 H1))) as [_ [[_ Hg']|(vp & Hp & _ & Er)]].
    + rewrite Hg, Hg'. constructor.
    + exfalso. destruct (certified_parent vp Hp) as [? _]. lia.
  - apply (certified_extends_commit q1 vi1 vp H1 Hp). lia.
Qed.

(** Block ids identify what was certified. *)
Lemma certified_id_unique vi vi' :
  certified x vi -> certified x vi' -> vi_id vi = vi_id vi' -> vi = vi'.
Proof.
  intros Hc Hc' Hid. destruct Hc as [q Hq], Hc' as [q' Hq'].
  destruct (certified_honest q vi Hq) as (i & b & tc & ci & Hho & He & _).
  destruct (certified_honest q' vi' Hq') as (i' & b' & tc' & ci' & Hho' & He' & _).
  destruct (honest_vote _ _ _ _ _ Hho He) as (E1 & E2 & _ & _ & _ & _ & L & _).
  destruct (honest_vote _ _ _ _ _ Hho' He') as (E1' & E2' & _ & _ & _ & _ & L' & _).
  apply certified_unique; [by exists q|by exists q'|]. rewrite E2, E2'.
  destruct (xo_votes_seen x Hx _ _ _ _ _ Hho He) as ((? & ? & ? & ?) & _ & Hh & _).
  destruct (xo_votes_seen x Hx _ _ _ _ _ Hho' He') as ((? & ? & ? & ?) & _ & Hh' & _).
  destruct (ho_vote _ _ (honest_history i Hho) _ _ _ _ He) as (s & s' & _ & Hv).
  destruct (ho_vote _ _ (honest_history i' Hho') _ _ _ _ He') as (s1 & s1' & _ & Hv').
  pose proof (vt_block_id _ _ _ _ _ _ Hv) as Hb. pose proof (vt_block_id _ _ _ _ _ _ Hv') as Hb'.
  unfold validBlockID in Hb, Hb'. bools.
  assert (preimage (block_input b) = preimage (block_input b')) as Hpre.
  { apply hashed_inj; [done..|]. change (digest (block_input b)) with (blockID (b_author b) (b_round b) (b_payload b) (b_qc b)).
    change (digest (block_input b')) with (blockID (b_author b') (b_round b') (b_payload b') (b_qc b')). congruence. }
  apply blockID_preimage_inj in Hpre as (_ & ? & _); try done. unfold parentID in *. congruence.
Qed.
End agreement.

(** ** Committed logs *)

(** A block a replica may have committed up to: genesis, or the parent of a block
    with a committing certificate. *)
Definition commit_point (x : execution) (id : bytes) : Prop :=
  id = b_id genesisBlock \/ exists q vi, commits x q vi /\ id = vi_parent_id vi.

Section logs.
Context (x : execution) (Hx : execution_ok x).
Context (U : Block -> Prop) (rank : bytes -> nat) (HU : block_universe U rank).
Hypothesis votes_in_U : forall i b tc vi ci, honest x i -> EVote b tc vi ci ∈ x_history x i -> U b.

Lemma certified_block vi :
  certified x vi -> exists b, U b /\ b_id b = vi_id vi /\ parentID b = vi_parent_id vi.
Proof.
  intros [q Hq]. destruct (certified_honest x Hx q vi Hq) as (i & b & tc & ci & Hho & He & _).
  destruct (honest_vote x Hx _ _ _ _ _ Hho He) as (E1 & _ & E2 & _). exists b. eauto.
Qed.

Lemma extends_rank a d : extends x a d -> rank a <= rank d.
Proof.
  induction 1 as [|vi Hc _ IH]; [lia|].
  destruct (certified_block vi Hc) as (b & Hb & <- & Hp). pose proof (bu_rank _ _ HU b Hb). rewrite Hp in *. lia.
Qed.

(** The log up to an extended block is a prefix of the log up to the extending one. *)
Lemma extends_prefix g a d la ld :
  extends x a d -> Forall U la -> Forall U ld -> linked g la a -> linked g ld d ->
  (b_id <$> la) `prefix_of` (b_id <$> ld).
Proof.
  intros He HA HD Ha. revert ld HD. induction He as [|vi Hc He IH]; intros ld HD Hd.
  { by rewrite (linked_unique U rank HU _ _ _ _ HA HD Ha Hd). }
  destruct (certified_block vi Hc) as (b & Hb & Hid & Hp).
  destruct ld as [|c ld _] using rev_ind.
  - simpl in Hd. apply linked_rank_le with (1 := HU) in Ha; [|done].
    pose proof (extends_rank _ _ He). pose proof (bu_rank _ _ HU b Hb). rewrite Hp, Hid in *. subst g. lia.
  - apply linked_snoc in Hd as [Hd Hidc]. apply Forall_app in HD as [HD HUc]. rewrite Forall_singleton in HUc.
    assert (parentID c = parentID b) as E by (apply (bu_unique _ _ HU c b HUc Hb); congruence).
    rewrite E, Hp in Hd. rewrite fmap_app. apply prefix_app_r. auto.
Qed.

Lemma commit_points_comparable a d :
  commit_point x a -> commit_point x d -> a = b_id genesisBlock \/ d = b_id genesisBlock \/
  extends x a d \/ extends x d a.
Proof.
  intros [->|(q1 & v1 & H1 & ->)] [->|(q2 & v2 & H2 & ->)]; auto. right. right.
  destruct (N.le_ge_cases (vi_parent_round v1) (vi_parent_round v2)).
  - left. by eapply commits_ordered.
  - right. by eapply commits_ordered.
Qed.

Lemma logs_comparable la ld a d :
  commit_point x a -> commit_point x d -> Forall U la -> Forall U ld ->
  linked (b_id genesisBlock) la a -> linked (b_id genesisBlock) ld d ->
  (b_id <$> la) `prefix_of` (b_id <$> ld) \/ (b_id <$> ld) `prefix_of` (b_id <$> la).
Proof.
  intros Ha Hd HA HD Hla Hld.
  assert (forall l, Forall U l -> linked (b_id genesisBlock) l (b_id genesisBlock) -> l = []) as Hnil.
  { intros l HF Hl. apply linked_rank_le with (1 := HU) in Hl; [|done]. destruct l; [done|]. simpl in Hl. lia. }
  destruct (commit_points_comparable a d Ha Hd) as [->|[->|[He|He]]].
  - left. rewrite (Hnil la HA Hla). apply prefix_nil.
  - right. rewrite (Hnil ld HD Hld). apply prefix_nil.
  - left. by eapply extends_prefix.
  - right. by eapply extends_prefix.
Qed.
End logs.

Lemma elem_of_two {A} (x a b : A) : x ∈ [a; b] -> x = a \/ x = b.
Proof. rewrite !elem_of_cons, elem_of_nil. tauto. Qed.
Lemma elem_of_three {A} (x a b c : A) : x ∈ [a; b; c] -> x = a \/ x = b \/ x = c.
Proof. rewrite !elem_of_cons, elem_of_nil. tauto. Qed.

(** ** A concrete execution

    Four validators, the fourth Byzantine. The other three vote for a block of
    round 1 over genesis and for one of round 2 over that, and time out in
    round 3. *)
Module Scenario.
Definition block1 : Block := NewBlock 1 1 [[x61]] (Some genesisQC).
Definition ledger1 : MemLedger := (Speculate NewMemLedger block1).1.
Definition info_of (l : MemLedger) (b : Block) : VoteInfo :=
  MkVoteInfo (b_id b) (b_round b) (parentID b) (QCRound (b_qc b)) (default zeroHash (PendingState l (b_id b))).
Definition commit_of (l : MemLedger) (b : Block) : LedgerCommitInfo :=
  MkLedgerCommitInfo (commitStateIDCandidate l (b_round b) (b_qc b)) (VoteInfoHash (Some (info_of l b))).
(** The DER encoding of the signature (1, 1). *)
Definition sig11 : bytes := [x30; x06; x02; x01; x01; x02; x01; x01].
Definition sigs : list Signature := (fun i => MkSignature i sig11) <$> [1; 2; 3]%N.
Definition cert_of (l : MemLedger) (b : Block) : QuorumCert :=
  MkQuorumCert (Some (info_of l b)) (Some (commit_of l b)) sigs 2 (Some (MkSignature 2 sig11)).
Definition qc1 : QuorumCert := cert_of ledger1 block1.
Definition block2 : Block := NewBlock 2 2 [[x62]] (Some qc1).
Definition ledger2 : MemLedger := (Speculate ledger1 block2).1.
Definition qc2 : QuorumCert := cert_of ledger2 block2.
Definition tc3 : TimeoutCert := MkTimeoutCert 3 ((fun s => MkTimeoutVote 2 (Some s)) <$> sigs).

(** What was signed, and what else was hashed. *)
Definition signed : list digest_input :=
  [DLedgerCommit (Some (commit_of ledger1 block1)); DLedgerCommit (Some (commit_of ledger2 block2));
   DQCSigs sigs; DTimeout 3 2].
Definition others : list digest_input :=
  [DVoteInfo (Some (info_of ledger1 block1)); DVoteInfo (Some (info_of ledger2 block2));
   block_input block1; block_input block2;
   DVoteInfo (qc_vote_info genesisQC); DLedgerCommit (qc_ledger_commit_info genesisQC)].
Definition digests : list bytes := Eval vm_compute in digest <$> signed.

Definition crypto : Crypto :=
  MkCrypto (fun _ => Some sig11)
    (fun i d s => ((1 <=? i) && (i <=? 4))%N && bool_decide (d ∈ digests) && bool_decide (s = sig11)).
Definition verifier : Verifier := NewVerifier crypto 3.
Definition history : list safety_event :=
  [EVote block1 None (info_of ledger1 block1) (commit_of ledger1 block1);
   EVote block2 None (info_of ledger2 block2) (commit_of ledger2 block2);
   ETimeout 3 (Some qc2) None].
Definition exec : execution :=
  MkExecution {[1; 2; 3; 4]}%N {[4]}%N verifier (fun _ => history) (fun d => d ∈ signed ++ others) (fun _ => True).

Lemma digests_eq : digest <$> signed = digests.
Proof. vm_compute. reflexivity. Qed.

Lemma run i : exists s, safety_run i verifier history s.
Proof.
  set (tree := NewBlockTree i 3). set (s0 := NewSafety i verifier).
  assert (Hv1 := MakeVote_yes crypto s0 ledger1 tree block1 None
    (default zeroHash (PendingState ledger1 (b_id block1))) sig11).
  assert (Hv2 := fun s1 => MakeVote_yes crypto s1 ledger2 tree block2 None
    (default zeroHash (PendingState ledger2 (b_id block2))) sig11).
  assert (VerifyQC verifier (Some genesisQC) = true) as Hg by (vm_compute; reflexivity).
  assert (VerifyQC verifier (Some qc1) = true) as Hq1 by (vm_compute; reflexivity).
  assert (VerifyQC verifier (Some qc2) = true) as Hq2 by (vm_compute; reflexivity).
  set (s1 := increaseHighestVoteRound (updateHighestQCRound s0 0) 1).
  set (s2 := increaseHighestVoteRound (updateHighestQCRound s1 1) 2).
  assert (safety_run i verifier [EVote block1 None (info_of ledger1 block1) (commit_of ledger1 block1)] s1) as R1.
  { eapply (run_vote i verifier [] s0 s1 crypto ledger1 tree block1 None); [apply run_new|..].
    - apply Hv1; [vm_compute; reflexivity|exact Hg|reflexivity|vm_compute; reflexivity|vm_compute; reflexivity|reflexivity].
    - reflexivity.
    - reflexivity. }
  assert (safety_run i verifier ([EVote block1 None (info_of ledger1 block1) (commit_of ledger1 block1)] ++
    [EVote block2 None (info_of ledger2 block2) (commit_of ledger2 block2)]) s2) as R2.
  { eapply (run_vote i verifier _ s1 s2 crypto ledger2 tree block2 None); [exact R1|..].
    - apply Hv2; [vm_compute; reflexivity|exact Hq1|reflexivity|vm_compute; reflexivity|vm_compute; reflexivity|reflexivity].
    - reflexivity.
    - reflexivity. }
  eexists. eapply (run_timeout i verifier ([_] ++ [_]) s2 _ crypto 3 (Some qc2) None); [exact R2|].
  apply MakeTimeout_yes with (sg := sig11); [exact Hq2|reflexivity|vm_compute; reflexivity|reflexivity].
Qed.

Lemma hashed_cf : collision_free (fun y => exists di, di ∈ signed ++ others /\ y = preimage di).
Proof.
  assert (NoDup (digest <$> (signed ++ others))) as Hnd by (refine (bool_decide_unpack _ _); vm_compute; exact I).
  intros y z (d & Hd & ->) (d' & Hd' & ->) E. change (digest d = digest d') in E.
  apply list_elem_of_lookup_1 in Hd as [n Hn], Hd' as [n' Hn']. assert (n = n') as ->; [|congruence].
  apply (NoDup_lookup _ _ _ (digest d) Hnd); rewrite list_lookup_fmap; [by rewrite Hn|by rewrite Hn', E].
Qed.

Lemma history_in e : e ∈ history ->
  e = EVote block1 None (info_of ledger1 block1) (commit_of ledger1 block1) \/
  e = EVote block2 None (info_of ledger2 block2) (commit_of ledger2 block2) \/ e = ETimeout 3 (Some qc2) None.
Proof. exact (elem_of_three e _ _ _). Qed.

Lemma in_signed n d : signed !! n = Some d -> d ∈ signed ++ others.
Proof. intros H. apply elem_of_app. left. by eapply list_elem_of_lookup_2. Qed.
Lemma in_others n d : others !! n = Some d -> d ∈ signed ++ others.
Proof. intros H. apply elem_of_app. right. by eapply list_elem_of_lookup_2. Qed.

Lemma all_presented l : Forall (fun s => x_presented exec (sg_sig s)) l.
Proof. by apply Forall_forall. Qed.
Lemma seen_genesis : seen_qc exec genesisQC.
Proof. split_and!; [apply (in_others 5); reflexivity|apply (in_others 4); reflexivity|vm_compute; reflexivity..|apply all_presented]. Qed.
Lemma seen1 : seen_qc exec qc1.
Proof. split_and!; [apply (in_signed 0); reflexivity|apply (in_others 0); reflexivity|vm_compute; reflexivity..|apply all_presented]. Qed.
Lemma seen2 : seen_qc exec qc2.
Proof. split_and!; [apply (in_signed 1); reflexivity|apply (in_others 1); reflexivity|vm_compute; reflexivity..|apply all_presented]. Qed.
Lemma seen3 : seen_tc exec tc3.
Proof.
  split; [vm_compute; reflexivity|]. intros v (s & -> & _)%list_elem_of_fmap.
  split; [apply (in_signed 3); reflexivity|]. split; [vm_compute; reflexivity|done].
Qed.

Lemma signs_all di : di ∈ signed -> honest_signs history di.
Proof.
  unfold signed. rewrite !elem_of_cons, elem_of_nil. intros [->|[->|[->|[->|[]]]]].
  - eapply hs_vote. by left.
  - eapply hs_vote. by right; left.
  - apply hs_author.
  - apply (hs_timeout _ 3 (Some qc2) None). by right; right; left.
Qed.

Ltac typed :=
  unfold block_typed, payload_ok, sigs_ok, sig_ok;
  repeat match goal with
  | |- _ /\ _ => split
  | |- Forall _ (QuorumCert_GetSignatures (b_qc block1)) => constructor
  | |- Forall _ _ => cbn; constructor
  end; try (vm_compute; reflexivity).

Lemma typed1 : block_typed block1.
Proof. typed. Qed.
Lemma typed2 : block_typed block2.
Proof. typed. Qed.

Lemma verify_inv i d s :
  Verify crypto i d s = true -> i ∈ ({[1; 2; 3; 4]} : gset uint32)%N /\ exists di, di ∈ signed /\ d = digest di.
Proof.
  cbn [crypto Verify]. intros H. bools. split.
  - assert (i = 1 \/ i = 2 \/ i = 3 \/ i = 4)%N as Hi by lia. set_solver.
  - match goal with H : d ∈ digests |- _ => rewrite <- digests_eq in H; apply list_elem_of_fmap in H as (di & -> & ?) end.
    eauto.
Qed.

Lemma ok : execution_ok exec.
Proof.
  assert (size (x_validators exec) = 4) as Hsz by reflexivity.
  split; rewrite ?Hsz; cbn [exec x_byzantine x_verifier x_history x_hashed x_presented].
  - done.
  - vm_compute. discriminate.
  - vm_compute. reflexivity.
  - intros i _. destruct (run i) as [s Hs]. exists verifier, s. by split.
  - intros i d s H. by apply verify_inv in H as [? _].
  - intros i d s _ _ _ (_ & di & Hdi & ->)%verify_inv. exists di. split; [by apply signs_all|]. split; [|done].
    apply elem_of_app. by left.
  - exact hashed_cf.
  - intros i b tc vi ci _ [He|[He|He]]%history_in; [| |discriminate He].
    + injection He as -> -> -> ->. split; [exact typed1|]. split; [apply (in_others 0); reflexivity|].
      split; [apply (in_others 2); reflexivity|]. split; [|intros t Ht; discriminate Ht].
      intros q Hq. change (Some genesisQC = Some q) in Hq. apply (inj Some) in Hq as <-. exact seen_genesis.
    + injection He as -> -> -> ->. split; [exact typed2|]. split; [apply (in_others 1); reflexivity|].
      split; [apply (in_others 3); reflexivity|]. split; [|intros t Ht; discriminate Ht].
      intros q Hq. change (Some qc1 = Some q) in Hq. apply (inj Some) in Hq as <-. exact seen1.
  - intros i r qc tc _ [He|[He|He]]%history_in; [discriminate He..|]. injection He as -> -> ->.
    split; vm_compute; reflexivity.
Qed.

Lemma certifies1 : certifies exec qc1 (info_of ledger1 block1).
Proof. split; [vm_compute; reflexivity|vm_compute; discriminate|exact seen1|reflexivity]. Qed.
Lemma certifies2 : certifies exec qc2 (info_of ledger2 block2).
Proof. split; [vm_compute; reflexivity|vm_compute; discriminate|exact seen2|reflexivity]. Qed.
Lemma commits1 : commits exec qc1 (info_of ledger1 block1).
Proof. split; [exact certifies1|vm_compute; reflexivity]. Qed.
Lemma commits2 : commits exec qc2 (info_of ledger2 block2).
Proof. split; [exact certifies2|vm_compute; reflexivity]. Qed.

Lemma parent1 : vi_parent_id (info_of ledger1 block1) = b_id genesisBlock.
Proof. vm_compute. reflexivity. Qed.
Lemma parent2 : vi_parent_id (info_of ledger2 block2) = b_id block1.
Proof. vm_compute. reflexivity. Qed.
Lemma parents_rising :
  (vi_parent_round (info_of ledger1 block1) <= vi_parent_round (info_of ledger2 block2))%N.
Proof. vm_compute. discriminate. Qed.
End Scenario.

#[local] Opaque Scenario.block1 Scenario.block2 Scenario.ledger1 Scenario.ledger2 Scenario.qc1 Scenario.qc2 genesisBlock.

(** *** Ledgers of two replicas *)

Lemma ledger_run_frontier `{RangeOrder} (U : Block -> Prop) (rank : bytes -> nat) (HU : block_universe U rank) l ops l' :
  ledger_ok U l -> (forall b, OpSpeculate b ∈ ops -> U b) -> ledger_run l ops = Some l' ->
  l_commitID l' = l_commitID l \/ OpCommit (l_commitID l') ∈ ops.
Proof.
  revert l. induction ops as [|o ops IH]; intros l Hl Hops; simpl; [intros [= ->]; by left|].
  intros (l1 & E & Hr)%bind_Some.
  destruct (ledger_step_ok U rank HU l o Hl) as (l1' & E' & Hl1); [intros b ->; apply Hops; by left|].
  assert (l1' = l1) as -> by congruence.
  destruct (IH l1 Hl1) as [->|?]; [intros b Hb; apply Hops; by right|done| |right; by right].
  destruct o as [b|id]; simpl in E.
  - injection E as <-. left. apply (Speculate_frozen U rank HU l b); [apply Hl|apply Hops; by left].
  - destruct (l_pending l !! id) as [s|] eqn:Hs.
    + destruct (Commit_pending U rank HU l id s) as (l2 & bs & E2 & _ & Hid & _);
        [apply Hl|by rewrite (lk_History _ _ Hl)|done|].
      assert (l2 = l1) as -> by congruence. right. rewrite Hid. by left.
    + rewrite (Commit_not_pending U l id) in E by (apply Hl || done). left. congruence.
Qed.

Lemma exec_log_ids (U : Block -> Prop) (rank : bytes -> nat) (HU : block_universe U rank) la lb :
  Forall U la -> Forall U lb -> b_id <$> la = b_id <$> lb -> exec_log la = exec_log lb.
Proof.
  intros HA. unfold exec_log. generalize (ExecuteHash zeroHash []). revert lb.
  induction HA as [|a la Ha HA IH]; intros [|b lb] st HB E; try done.
  apply Forall_cons in HB as [Hb HB]. simpl in E. injection E as E1 E2. simpl.
  destruct (bu_unique _ _ HU a b Ha Hb E1) as [_ ->]. by apply IH.
Qed.

(** ** Agreement *)

(** C11. Property 1: at most one block is certified per round. With at most
    [Faulty n] Byzantine validators, any two accepted certificates of one
    positive round certify the same block, parent and execution state. *)
Theorem one_block_per_round (x : execution) (q q' : QuorumCert) (vi vi' : VoteInfo) :
  execution_ok x -> certifies x q vi -> certifies x q' vi' -> vi_round vi = vi_round vi' -> vi = vi'.
Proof. intros Hx Hq Hq'. apply (certified_unique x Hx); by eexists. Qed.

Lemma one_block_per_round_witness :
  exists vi, certifies Scenario.exec Scenario.qc2 vi /\
    forall vi', certifies Scenario.exec Scenario.qc2 vi' -> vi' = vi.
Proof.
  exists (Scenario.info_of Scenario.ledger2 Scenario.block2). split; [exact Scenario.certifies2|].
  intros vi' H. apply (one_block_per_round Scenario.exec Scenario.qc2 Scenario.qc2); [exact Scenario.ok|exact H|exact Scenario.certifies2|].
  pose proof (cf_info _ _ _ H) as E. rewrite (cf_info _ _ _ Scenario.certifies2) in E. by injection E as <-.
Defined.

(** C12. Lemma 2: a timeout certificate cannot hide a commit. If a certificate
    committed a block, every accepted timeout certificate of the certified round
    or a later one reports a high certificate at or above the committed round. *)
Theorem timeout_certificate_reports_commit (x : execution) (q : QuorumCert) (vi : VoteInfo) (t : TimeoutCert) :
  execution_ok x -> commits x q vi -> VerifyTC (x_verifier x) (Some t) = true -> seen_tc x t ->
  (vi_round vi <= tc_round t)%N -> (vi_parent_round vi <= MaxHighQCRound (Some t))%N.
Proof. intros Hx. apply (timeout_reports_commit x Hx). Qed.

Lemma timeout_certificate_reports_commit_witness :
  VerifyTC Scenario.verifier (Some Scenario.tc3) = true /\ (1 <= MaxHighQCRound (Some Scenario.tc3))%N.
Proof.
  assert (VerifyTC Scenario.verifier (Some Scenario.tc3) = true) as H by (vm_compute; reflexivity).
  split; [exact H|].
  apply (timeout_certificate_reports_commit Scenario.exec _ _ _ Scenario.ok Scenario.commits2 H Scenario.seen3).
  vm_compute. discriminate.
Defined.

(** C4. Property 2: committed blocks lie on one chain. Of any two committing
    certificates, the block that the one of the higher round commits extends, by
    certified parent links, the block that the other commits. *)
Theorem committed_blocks_on_one_chain (x : execution) (q1 q2 : QuorumCert) (vi1 vi2 : VoteInfo) :
  execution_ok x -> commits x q1 vi1 -> commits x q2 vi2 -> (vi_parent_round vi1 <= vi_parent_round vi2)%N ->
  extends x (vi_parent_id vi1) (vi_parent_id vi2).
Proof. intros Hx. apply (commits_ordered x Hx). Qed.

Lemma committed_blocks_on_one_chain_witness :
  extends Scenario.exec (b_id genesisBlock) (b_id Scenario.block1).
Proof.
  rewrite <- Scenario.parent1, <- Scenario.parent2.
  exact (committed_blocks_on_one_chain Scenario.exec _ _ _ _ Scenario.ok Scenario.commits1 Scenario.commits2
    Scenario.parents_rising).
Defined.

(** Replicas agree on their logs. Two replicas whose ledgers are fed blocks of
    one universe in any order, and commit only what a committing certificate
    names, hand [OnCommit] sequences of blocks of which one is a prefix of the
    other, and at equal length they are in the same state. *)
Theorem ledgers_agree (o1 o2 : RangeOrder) (x : execution) (U : Block -> Prop) (rank : bytes -> nat)
    (ops1 ops2 : list ledger_op) :
  execution_ok x -> block_universe U rank ->
  (forall i b tc vi ci, honest x i -> EVote b tc vi ci ∈ x_history x i -> U b) ->
  (forall b, OpSpeculate b ∈ ops1 \/ OpSpeculate b ∈ ops2 -> U b) ->
  (forall id, OpCommit id ∈ ops1 \/ OpCommit id ∈ ops2 -> commit_point x id) ->
  exists l1 l2, @ledger_run o1 NewMemLedger ops1 = Some l1 /\ @ledger_run o2 NewMemLedger ops2 = Some l2 /\
    ((b_id <$> l_onCommit l1) `prefix_of` (b_id <$> l_onCommit l2) \/
     (b_id <$> l_onCommit l2) `prefix_of` (b_id <$> l_onCommit l1)) /\
    (length (l_onCommit l1) = length (l_onCommit l2) -> l_commitState l1 = l_commitState l2).
Proof.
  intros Hx HU Hvotes Hops Hcom.
  destruct (@ledger_run_ok U rank HU o1 NewMemLedger ops1 (NewMemLedger_ok U)) as (l1 & E1 & Hl1); [auto|].
  destruct (@ledger_run_ok U rank HU o2 NewMemLedger ops2 (NewMemLedger_ok U)) as (l2 & E2 & Hl2); [auto|].
  exists l1, l2. split; [exact E1|]. split; [exact E2|].
  assert (commit_point x (l_commitID l1)) as P1.
  { destruct (@ledger_run_frontier o1 U rank HU _ _ _ (NewMemLedger_ok U) (fun b Hb => Hops b (or_introl Hb)) E1) as [->|H];
      [left; reflexivity|apply Hcom; auto]. }
  assert (commit_point x (l_commitID l2)) as P2.
  { destruct (@ledger_run_frontier o2 U rank HU _ _ _ (NewMemLedger_ok U) (fun b Hb => Hops b (or_intror Hb)) E2) as [->|H];
      [left; reflexivity|apply Hcom; auto]. }
  destruct (lk_inv _ _ Hl1) as [_ _ _ _ L1 F1]. destruct (lk_inv _ _ Hl2) as [_ _ _ _ L2 F2].
  pose proof (logs_comparable x Hx U rank HU Hvotes _ _ _ _ P1 P2 F1 F2 L1 L2) as Hpre. split; [exact Hpre|].
  intros Hlen. rewrite (lk_state _ _ Hl1), (lk_state _ _ Hl2). apply (exec_log_ids U rank HU); [exact F1|exact F2|].
  destruct Hpre as [Hp|Hp]; [|symmetry]; (apply prefix_length_eq; [exact Hp|rewrite !length_fmap; lia]).
Qed.

Definition scenario_blocks (b : Block) : Prop := b = Scenario.block1 \/ b = Scenario.block2.
Definition scenario_rank (id : bytes) : nat :=
  if bool_decide (id = b_id Scenario.block1) then 1 else if bool_decide (id = b_id Scenario.block2) then 2 else 0.

Lemma scenario_universe : block_universe scenario_blocks scenario_rank.
Proof.
  assert (bool_decide (b_id Scenario.block1 = b_id Scenario.block2) = false) as Hne by (vm_compute; reflexivity).
  apply bool_decide_eq_false in Hne. split.
  - intros b b' [->| ->] [->| ->]; try (intros _; split; reflexivity); intros E; exfalso; congruence.
  - intros b [->| ->]; apply Nat.ltb_lt; vm_compute; reflexivity.
Qed.

(** One replica sees the blocks in order, the other never sees the first one. *)
Definition ops1 : list ledger_op :=
  [OpSpeculate Scenario.block1; OpSpeculate Scenario.block2; OpCommit (b_id Scenario.block1)].
Definition ops2 : list ledger_op := [OpSpeculate Scenario.block2; OpCommit (b_id Scenario.block1)].

Lemma ops1_in o : o ∈ ops1 ->
  o = OpSpeculate Scenario.block1 \/ o = OpSpeculate Scenario.block2 \/ o = OpCommit (b_id Scenario.block1).
Proof. exact (elem_of_three o _ _ _). Qed.
Lemma ops2_in o : o ∈ ops2 -> o = OpSpeculate Scenario.block2 \/ o = OpCommit (b_id Scenario.block1).
Proof. exact (elem_of_two o _ _). Qed.

Lemma ledgers_agree_witness :
  exists l1 l2, ledger_run NewMemLedger ops1 = Some l1 /\ ledger_run NewMemLedger ops2 = Some l2 /\
    length (l_onCommit l1) = 1 /\
    ((b_id <$> l_onCommit l1) `prefix_of` (b_id <$> l_onCommit l2) \/
     (b_id <$> l_onCommit l2) `prefix_of` (b_id <$> l_onCommit l1)).
Proof.
  destruct (ledgers_agree canonical_range canonical_range Scenario.exec scenario_blocks scenario_rank ops1 ops2)
    as (l1 & l2 & E1 & E2 & Hp & _).
  - exact Scenario.ok.
  - exact scenario_universe.
  - intros i b tc vi ci _ [H|[H|H]]%Scenario.history_in; [| |discriminate H]; injection H as -> _ _ _;
      [left|right]; reflexivity.
  - intros b [H|H]; [apply ops1_in in H as [H|[H|H]]|apply ops2_in in H as [H|H]]; try discriminate H;
      injection H as ->; (left; reflexivity) || (right; reflexivity).
  - intros id H. right. exists Scenario.qc2, (Scenario.info_of Scenario.ledger2 Scenario.block2).
    split; [exact Scenario.commits2|].
    destruct H as [H|H]; [apply ops1_in in H as [H|[H|H]]|apply ops2_in in H as [H|H]]; try discriminate H;
      injection H as ->; symmetry; exact Scenario.parent2.
  - exists l1, l2. split; [exact E1|]. split; [exact E2|]. split; [|exact Hp].
    assert (option_map (fun l => length (l_onCommit l)) (ledger_run NewMemLedger ops1) = Some 1) as E
      by (vm_compute; reflexivity).
    rewrite E1 in E. by injection E.
Defined.
