(* ===== verification/Seams.v ===== *)
(** [diem/seams.go] and [diem/events.go]: the events a replica processes and the
    calls it makes to the outside. The transport, the clock and the reply
    channels return nothing the replica reads, so a call is an element of a trace
    of effects. *)

From stdpp Require Import prelude list.
From Stdlib Require Import NArith ZArith Strings.Byte.
From S2P Require Import Prelude Proto.

Inductive Event :=
  | ProposalEvent (Msg : ProposalMsg)
  | VoteEvent (Msg : VoteMsg)
  | TimeoutEvent (Msg : TimeoutMsg)
  | LocalTimeoutEvent (Epoch : uint64)
  | BlockEvent (b : Block)
  | BlockRequestEvent (ID : bytes).

(** [State] of [diem/core.go]: the snapshot an observer sees. *)
Record State := MkState {
  st_Round : uint64;
  st_HighQCRound : uint64;
  st_HighCommitRound : uint64;
  st_HighestVoteRound : uint64;
  st_HighestQCRound : uint64;
  st_DeclinedMissingAncestor : uint64;
}.

Inductive effect :=
  (** [Transport]. *)
  | NetProposal (m : ProposalMsg)
  | NetVote (m : VoteMsg) (to : uint32)
  | NetTimeout (m : TimeoutMsg)
  | NetRequestBlock (id : bytes)
  (** [Clock.AfterFunc] with a callback that pushes [LocalTimeoutEvent], and
      [Timer.Stop]. *)
  | ClockAfterFunc (d : Z) (epoch : uint64)
  | TimerStop
  (** The answer on a request's [Reply] channel. *)
  | ReplyBlock (b : option Block)
  (** The configured observer, after an event. *)
  | Observe (e : Event) (s : State).

(** The messages of a trace. *)
Definition sent_timeouts (es : list effect) : list TimeoutMsg :=
  omap (fun e => match e with NetTimeout m => Some m | _ => None end) es.
Definition sent_votes (es : list effect) : list VoteMsg :=
  omap (fun e => match e with NetVote m _ => Some m | _ => None end) es.
Definition sent_proposals (es : list effect) : list ProposalMsg :=
  omap (fun e => match e with NetProposal m => Some m | _ => None end) es.

(** ** Queue: a bounded channel

    The events waiting, oldest first. A push to a full queue blocks: the
    producer's operation is then not enabled. *)
Record Queue := MkQueue { q_size : nat; q_events : list Event }.

Definition NewQueue (size : nat) : Queue := MkQueue size [].
Definition Push (q : Queue) (e : Event) : option Queue :=
  if (length (q_events q) <? q_size q)%nat then Some (MkQueue (q_size q) (q_events q ++ [e])) else None.
Definition Pop (q : Queue) : option (Event * Queue) :=
  match q_events q with [] => None | e :: es => Some (e, MkQueue (q_size q) es) end.
