(* ===== verification/Pacemaker.v ===== *)
(** [diem/pacemaker.go]: rounds, the round timer and timeout certificates. The
    module calls Safety and reads the tree; both are arguments, and the effects
    of a call come back with it. *)

From stdpp Require Import prelude gmap list fin_maps sorting.
From Stdlib Require Import NArith ZArith Lia Strings.Byte Floats.SpecFloat.
From S2P Require Import Prelude Sha256 Proto Hash Types Quorum Verify Ledger BlockTree Safety Seams.

(** ** Backoff

    Durations are [int64] nanoseconds. [float64] is IEEE binary64, which
    [SpecFloat] defines; the conversion of a float out of the range of [int64]
    is left to the implementation by the language, and is a parameter here. *)

Class FloatConv := { out_of_range : spec_float -> Z }.

Definition float64_of (z : Z) : spec_float := binary_normalize 53 1024 z 0 false.
Definition float64_mul : spec_float -> spec_float -> spec_float := SFmul 53 1024.

(** Truncation toward zero of a finite float. *)
Definition trunc (s : bool) (m : positive) (e : Z) : Z :=
  let a := if (0 <=? e)%Z then (Z.pos m * 2 ^ e)%Z else (Z.pos m / 2 ^ (- e))%Z in if s then (- a)%Z else a.

Definition int64_of `{FloatConv} (f : spec_float) : Z :=
  match f with
  | S754_zero _ => 0
  | S754_finite s m e =>
      let z := trunc s m e in
      if ((- 2 ^ 63 <=? z) && (z <? 2 ^ 63))%Z then z else out_of_range f
  | _ => out_of_range f
  end.

Record Backoff := MkBackoff { bo_base : Z; bo_max : Z; bo_factor : spec_float; bo_current : Z }.

Definition NewBackoff (base max : Z) (factor : spec_float) : Backoff := MkBackoff base max factor base.
Definition Duration (b : Backoff) : Z := bo_current b.
Definition Reset (b : Backoff) : Backoff := MkBackoff (bo_base b) (bo_max b) (bo_factor b) (bo_base b).
Definition Grow `{FloatConv} (b : Backoff) : Backoff :=
  MkBackoff (bo_base b) (bo_max b) (bo_factor b)
    (Z.min (int64_of (float64_mul (float64_of (bo_current b)) (bo_factor b))) (bo_max b)).

(** ** The pacemaker *)

Record timeoutBucket := MkTimeoutBucket { tb_infos : list TimeoutInfo; tb_senders : gset uint32 }.

(** [p_timer] tells whether the timer pointer is set. *)
Record Pacemaker := MkPacemaker {
  p_quorum : Z;
  p_faulty : Z;
  p_dur : Backoff;
  p_currentRound : uint64;
  p_lastRoundTC : option TimeoutCert;
  p_pendingTimeouts : gmap uint64 timeoutBucket;
  p_timer : bool;
  p_epoch : uint64;
}.

Definition NewPacemaker (quorum faulty : Z) (dur : Backoff) : Pacemaker :=
  MkPacemaker quorum faulty dur 0 None ∅ false 0.

Definition CurrentRound (p : Pacemaker) : uint64 := p_currentRound p.
Definition LastRoundTC (p : Pacemaker) : option TimeoutCert := p_lastRoundTC p.
Definition Epoch (p : Pacemaker) : uint64 := p_epoch p.

Definition Stop (p : Pacemaker) : Pacemaker * list effect :=
  (MkPacemaker (p_quorum p) (p_faulty p) (p_dur p) (p_currentRound p) (p_lastRoundTC p) (p_pendingTimeouts p)
     false (p_epoch p +u64 1),
   if p_timer p then [TimerStop] else []).

Definition startTimer (p : Pacemaker) (newRound : uint64) : Pacemaker * list effect :=
  let '(p, es) := Stop p in
  (MkPacemaker (p_quorum p) (p_faulty p) (p_dur p) newRound (p_lastRoundTC p)
     (filter (fun e : uint64 * timeoutBucket => ~ (e.1 < newRound)%N) (p_pendingTimeouts p))
     true (p_epoch p),
   es ++ [ClockAfterFunc (Duration (p_dur p)) (p_epoch p)]).

(** [justifyingTC] of [diem/core.go]. *)
Definition justifyingTC (qcRound round : uint64) (tc : option TimeoutCert) : option TimeoutCert :=
  if (qcRound +u64 1 =? round)%N then None else tc.

Definition LocalTimeoutRound (c : Crypto) (p : Pacemaker) (s : Safety) (t : BlockTree)
    : Pacemaker * Safety * list effect :=
  let '(p, es) := startTimer p (p_currentRound p) in
  let '(s, info) := MakeTimeout c s (p_currentRound p) (HighQC t) (p_lastRoundTC p) in
  match info with
  | None => (p, s, es)
  | Some _ =>
      (p, s, es ++ [NetTimeout (MkTimeoutMsg info
        (justifyingTC (QCRound (TimeoutInfo_GetHighQc info)) (TimeoutInfo_GetRound info) (p_lastRoundTC p))
        (HighCommitQC t))])
  end.

Definition timeout_vote (i : TimeoutInfo) : TimeoutVote := MkTimeoutVote (QCRound (ti_high_qc i)) (ti_sig i).

Definition put_bucket (p : Pacemaker) (r : uint64) (b : timeoutBucket) : Pacemaker :=
  MkPacemaker (p_quorum p) (p_faulty p) (p_dur p) (p_currentRound p) (p_lastRoundTC p)
    (<[r := b]> (p_pendingTimeouts p)) (p_timer p) (p_epoch p).

(** The bucket is a pointer shared with the map, so a bucket made for a new
    round is in the map even when the call returns at once. *)
Definition ProcessRemoteTimeout (c : Crypto) (p : Pacemaker) (s : Safety) (t : BlockTree) (tmo : TimeoutMsg)
    : Pacemaker * Safety * list effect * option TimeoutCert :=
  let info := tm_tmo_info tmo in
  let round := TimeoutInfo_GetRound info in
  let sender := TimeoutInfo_GetSender info in
  if (round <? p_currentRound p)%N then (p, s, [], None)
  else
    let b := default (MkTimeoutBucket [] ∅) (p_pendingTimeouts p !! round) in
    if bool_decide (sender ∈ tb_senders b) then (put_bucket p round b, s, [], None)
    else
      let b := MkTimeoutBucket (tb_infos b ++ [default zeroTimeoutInfo info]) ({[sender]} ∪ tb_senders b) in
      let p := put_bucket p round b in
      let n := Z.of_nat (size (tb_senders b)) in
      let '(p, s, es) :=
        if (n =? p_faulty p + 1)%Z then
          let '(p, es1) := Stop p in
          let '(p, s, es2) := LocalTimeoutRound c p s t in
          (p, s, es1 ++ es2)
        else (p, s, []) in
      if negb (n =? p_quorum p)%Z then (p, s, es, None)
      else
        let votes := sort_by tv_signer (timeout_vote <$> tb_infos b) in
        (p, s, es, Some (MkTimeoutCert round votes)).

Definition AdvanceRoundTC `{FloatConv} (p : Pacemaker) (tc : option TimeoutCert) : Pacemaker * list effect * bool :=
  match tc with
  | None => (p, [], false)
  | Some _ =>
      if (TimeoutCert_GetRound tc <? p_currentRound p)%N then (p, [], false)
      else
        let p := MkPacemaker (p_quorum p) (p_faulty p) (Grow (p_dur p)) (p_currentRound p) tc
                   (p_pendingTimeouts p) (p_timer p) (p_epoch p) in
        let '(p, es) := startTimer p (TimeoutCert_GetRound tc +u64 1) in (p, es, true)
  end.

Definition AdvanceRoundQC (p : Pacemaker) (qc : option QuorumCert) : Pacemaker * list effect * bool :=
  if (QCRound qc <? p_currentRound p)%N then (p, [], false)
  else
    let p := MkPacemaker (p_quorum p) (p_faulty p) (Reset (p_dur p)) (p_currentRound p) None
               (p_pendingTimeouts p) (p_timer p) (p_epoch p) in
    let '(p, es) := startTimer p (QCRound qc +u64 1) in (p, es, true).

(** ** The step relation

    A pacemaker driven in any order, with whatever Safety, tree and signer each
    call finds; remote timeouts have passed the check of the edge, and the rounds
    of certificates are [uint64] values. A step emits
    effects and may return a timeout certificate. *)
Ltac unpair E := rewrite !pair_equal_spec in E; decompose [and] E; clear E; subst.

Section machine.
Context `{FloatConv} (ver : Verifier).

Inductive pm_step (p : Pacemaker) : list effect -> option TimeoutCert -> Pacemaker -> Prop :=
  | step_local c s t p' s' es :
      LocalTimeoutRound c p s t = (p', s', es) -> pm_step p es None p'
  | step_remote c s t m p' s' es tc :
      VerifyTimeout ver m = true -> ProcessRemoteTimeout c p s t m = (p', s', es, tc) -> pm_step p es tc p'
  | step_tc tc p' es moved :
      (TimeoutCert_GetRound tc < two64)%N -> AdvanceRoundTC p tc = (p', es, moved) -> pm_step p es None p'
  | step_qc qc p' es moved :
      (QCRound qc < two64)%N -> AdvanceRoundQC p qc = (p', es, moved) -> pm_step p es None p'
  | step_stop p' es : Stop p = (p', es) -> pm_step p es None p'.

(** [pm_run p es out p']: the effects and the certificates of a run, in order. *)
Inductive pm_run (p : Pacemaker) : list effect -> list TimeoutCert -> Pacemaker -> Prop :=
  | run_refl : pm_run p [] [] p
  | run_step es out p1 es' tc p' :
      pm_run p es out p1 -> pm_step p1 es' tc p' -> pm_run p (es ++ es') (out ++ option_list tc) p'.

(** *** Reading the operations back *)

Lemma startTimer_eq p r :
  startTimer p r =
  (MkPacemaker (p_quorum p) (p_faulty p) (p_dur p) r (p_lastRoundTC p)
     (filter (fun e : uint64 * timeoutBucket => ~ (e.1 < r)%N) (p_pendingTimeouts p)) true (p_epoch p +u64 1),
   (if p_timer p then [TimerStop] else []) ++ [ClockAfterFunc (bo_current (p_dur p)) (p_epoch p +u64 1)]).
Proof. reflexivity. Qed.

Lemma LocalTimeoutRound_inv c p s t p' s' es :
  LocalTimeoutRound c p s t = (p', s', es) ->
  exists es1 es2, es = es1 ++ es2 /\ startTimer p (p_currentRound p) = (p', es1) /\ 
  ((es2 = [] /\ MakeTimeout c s (p_currentRound p) (HighQC t) (p_lastRoundTC p) = (s', None)) \/
   (exists i, MakeTimeout c s (p_currentRound p) (HighQC t) (p_lastRoundTC p) = (s', Some i) /\
     es2 = [NetTimeout (MkTimeoutMsg (Some i)
       (justifyingTC (QCRound (ti_high_qc i)) (ti_round i) (p_lastRoundTC p)) (HighCommitQC t))])).
Proof.
  unfold LocalTimeoutRound. rewrite startTimer_eq. cbn [p_currentRound p_lastRoundTC].
  destruct (MakeTimeout _ _ _ _ _) as [s1 [i|]]; intros [= <- <- <-].
  - eexists _, [_]. split; [reflexivity|]. split; [reflexivity|]. right. eauto.
  - eexists _, []. rewrite app_nil_r. split; [reflexivity|]. split; [reflexivity|]. left. done.
Qed.

(** The bucket a timeout lands in. *)
Definition bucket_for (p : Pacemaker) (m : TimeoutMsg) : timeoutBucket :=
  default (MkTimeoutBucket [] ∅) (p_pendingTimeouts p !! TimeoutInfo_GetRound (tm_tmo_info m)).
Definition bucket_with (p : Pacemaker) (m : TimeoutMsg) : timeoutBucket :=
  MkTimeoutBucket (tb_infos (bucket_for p m) ++ [default zeroTimeoutInfo (tm_tmo_info m)])
    ({[TimeoutInfo_GetSender (tm_tmo_info m)]} ∪ tb_senders (bucket_for p m)).

Lemma ProcessRemoteTimeout_inv c p s t m p' s' es tc :
  ProcessRemoteTimeout c p s t m = (p', s', es, tc) ->
  let r := TimeoutInfo_GetRound (tm_tmo_info m) in
  let snd := TimeoutInfo_GetSender (tm_tmo_info m) in
  ((r < p_currentRound p)%N /\ p' = p /\ s' = s /\ es = [] /\ tc = None) \/
  ((p_currentRound p <= r)%N /\ snd ∈ tb_senders (bucket_for p m) /\
    p' = put_bucket p r (bucket_for p m) /\ s' = s /\ es = [] /\ tc = None) \/
  ((p_currentRound p <= r)%N /\ (snd ∉ tb_senders (bucket_for p m)) /\
    let b := bucket_with p m in
    let n := Z.of_nat (size (tb_senders b)) in
    let p1 := put_bucket p r b in
    (((n ≠ p_faulty p + 1)%Z /\ p' = p1 /\ s' = s /\ es = []) \/
     ((n = p_faulty p + 1)%Z /\
      exists es2, es = (Stop p1).2 ++ es2 /\ LocalTimeoutRound c (Stop p1).1 s t = (p', s', es2))) /\
    tc = (if (n =? p_quorum p)%Z
          then Some (MkTimeoutCert r (sort_by tv_signer (timeout_vote <$> tb_infos b))) else None)).
Proof.
  intros E. cbv zeta. unfold ProcessRemoteTimeout in E. cbv zeta in E. fold (bucket_for p m) in E.
  destruct (N.ltb_spec (TimeoutInfo_GetRound (tm_tmo_info m)) (p_currentRound p)) as [Hlt|Hge].
  { injection E as <- <- <- <-. by left. }
  right. case_bool_decide as Hs; [injection E as <- <- <- <-; by left|]. right. split; [done|]. split; [done|].
  fold (bucket_with p m) in E. set (b := bucket_with p m) in *.
  set (p1 := put_bucket p _ b) in *. change (p_faulty p1) with (p_faulty p) in E.
  destruct (Z.eqb_spec (Z.of_nat (size (tb_senders b))) (p_faulty p + 1)) as [Hn|Hn].
  - destruct (Stop p1) as [p2 es1] eqn:Es. destruct (LocalTimeoutRound c p2 s t) as [[p3 s3] es2] eqn:El.
    assert (p_quorum p3 = p_quorum p) as Hq.
    { apply LocalTimeoutRound_inv in El as (? & ? & _ & Est & _). rewrite startTimer_eq in Est. injection Est as <- _.
      injection Es as <- _. done. }
    rewrite Hq in E. destruct (_ =? p_quorum p)%Z; injection E as <- <- <- <-; (split; [right|done]); eauto.
  - change (p_quorum p1) with (p_quorum p) in E. destruct (_ =? p_quorum p)%Z; injection E as <- <- <- <-; (split; [left|]); done.
Qed.

Lemma AdvanceRoundTC_eq p tc :
  AdvanceRoundTC p tc =
  match tc with
  | Some t =>
      if (tc_round t <? p_currentRound p)%N then (p, [], false)
      else let q := startTimer (MkPacemaker (p_quorum p) (p_faulty p) (Grow (p_dur p)) (p_currentRound p) (Some t)
                      (p_pendingTimeouts p) (p_timer p) (p_epoch p)) (tc_round t +u64 1) in (q.1, q.2, true)
  | None => (p, [], false)
  end.
Proof. by destruct tc. Qed.

Lemma AdvanceRoundQC_eq p qc :
  AdvanceRoundQC p qc =
  if (QCRound qc <? p_currentRound p)%N then (p, [], false)
  else let q := startTimer (MkPacemaker (p_quorum p) (p_faulty p) (Reset (p_dur p)) (p_currentRound p) None
                  (p_pendingTimeouts p) (p_timer p) (p_epoch p)) (QCRound qc +u64 1) in (q.1, q.2, true).
Proof. reflexivity. Qed.

(** *** Timers *)

(** The timer that is live after a trace; [Some _] inside [None] is arming a
    second timer, or stopping none. *)
Definition timer_step (st : option (option uint64)) (e : effect) : option (option uint64) :=
  live ← st;
  match e, live with
  | ClockAfterFunc _ epoch, None => Some (Some epoch)
  | ClockAfterFunc _ _, Some _ => None
  | TimerStop, Some _ => Some None
  | TimerStop, None => None
  | _, _ => Some live
  end.
Definition timers_from (live : option uint64) (es : list effect) : option (option uint64) :=
  fold_left timer_step es (Some live).
Definition armed (p : Pacemaker) : option uint64 := if p_timer p then Some (p_epoch p) else None.

Lemma timers_app live es live' es' :
  timers_from live es = Some live' -> timers_from live (es ++ es') = timers_from live' es'.
Proof. unfold timers_from. intros E. by rewrite fold_left_app, E. Qed.

Lemma Stop_timers p : timers_from (armed p) (Stop p).2 = Some (armed (Stop p).1).
Proof. unfold armed. simpl. by destruct (p_timer p). Qed.

Lemma startTimer_timers p r : timers_from (armed p) (startTimer p r).2 = Some (armed (startTimer p r).1).
Proof. rewrite startTimer_eq. unfold armed. simpl. by destruct (p_timer p). Qed.

Lemma LocalTimeoutRound_timers c p s t p' s' es :
  LocalTimeoutRound c p s t = (p', s', es) -> timers_from (armed p) es = Some (armed p').
Proof.
  intros (es1 & es2 & -> & Est & Hr)%LocalTimeoutRound_inv.
  pose proof (startTimer_timers p (p_currentRound p)) as Ht. rewrite Est in Ht. cbn [fst snd] in Ht.
  rewrite (timers_app _ _ _ _ Ht). destruct Hr as [[-> _]|(i & _ & ->)]; done.
Qed.

Lemma pm_step_timers p es tc p' : pm_step p es tc p' -> timers_from (armed p) es = Some (armed p').
Proof.
  intros [c s t p1 s' es1 E|c s t m p1 s' es1 tc1 _ E|tc1 p1 es1 mv Hty E|qc p1 es1 mv Hty E|p1 es1 E].
  - by eapply LocalTimeoutRound_timers.
  - apply ProcessRemoteTimeout_inv in E as [(_ & -> & _ & -> & _)|[(_ & _ & -> & _ & -> & _)|(_ & _ & Hc & _)]]; [done..|].
    destruct Hc as [(_ & -> & _ & ->)|(_ & es2 & -> & E)]; [done|].
    match type of E with LocalTimeoutRound _ (Stop ?q).1 _ _ = _ => pose proof (Stop_timers q) as Hs end.
    rewrite (timers_app _ _ _ _ Hs). by eapply LocalTimeoutRound_timers.
  - rewrite AdvanceRoundTC_eq in E. destruct tc1 as [tc0|]; [|by injection E as <- <- _].
    destruct (_ <? _)%N; [by injection E as <- <- _|]. cbv zeta in E. unpair E. apply (startTimer_timers (MkPacemaker _ _ _ _ _ _ (p_timer p) (p_epoch p))).
  - rewrite AdvanceRoundQC_eq in E. destruct (_ <? _)%N; [by injection E as <- <- _|].
    cbv zeta in E. unpair E. apply (startTimer_timers (MkPacemaker _ _ _ _ _ _ (p_timer p) (p_epoch p))).
  - pose proof (Stop_timers p) as Hs. by rewrite E in Hs.
Qed.

(** *** Rounds and buckets *)

Record bucket_ok (r : uint64) (b : timeoutBucket) : Prop := {
  tk_info : forall i, i ∈ tb_infos b -> ti_round i = r /\ r ≠ 0%N /\
    Signature_GetSigner (ti_sig i) = ti_sender i /\
    verifySig (v_crypto ver) (TimeoutDigest r (QCRound (ti_high_qc i))) (ti_sig i) = true;
  tk_senders : tb_senders b = list_to_set (ti_sender <$> tb_infos b);
  tk_nodup : NoDup (ti_sender <$> tb_infos b);
}.

(** Buckets are for the current round and later ones, and hold verified
    timeouts of distinct senders. *)
Definition pm_inv (p : Pacemaker) : Prop :=
  forall r b, p_pendingTimeouts p !! r = Some b -> (p_currentRound p <= r)%N /\ bucket_ok r b.

Lemma pm_inv_new q f d : pm_inv (NewPacemaker q f d).
Proof. intros r b Hb. simpl in Hb. by rewrite lookup_empty in Hb. Qed.

Lemma startTimer_inv p r : pm_inv p -> pm_inv (startTimer p r).1.
Proof.
  intros Hi r' b Hb. rewrite startTimer_eq in Hb. simpl in Hb. apply map_lookup_filter_Some in Hb as [Hb Hr].
  simpl in Hr. destruct (Hi r' b Hb) as [_ ?]. rewrite startTimer_eq. simpl. split; [lia|done].
Qed.

Lemma bucket_for_ok p m : pm_inv p -> bucket_ok (TimeoutInfo_GetRound (tm_tmo_info m)) (bucket_for p m).
Proof.
  intros Hi. unfold bucket_for. destruct (p_pendingTimeouts p !! _) as [b|] eqn:Hb; simpl; [by apply Hi|].
  split; [|done|constructor]. intros i Hin. by apply not_elem_of_nil in Hin.
Qed.

Lemma bucket_with_ok p m :
  pm_inv p -> VerifyTimeout ver m = true ->
  TimeoutInfo_GetSender (tm_tmo_info m) ∉ tb_senders (bucket_for p m) ->
  bucket_ok (TimeoutInfo_GetRound (tm_tmo_info m)) (bucket_with p m).
Proof.
  intros Hi Hv Hn. destruct (bucket_for_ok p m Hi) as [H1 H2 H3].
  apply VerifyTimeout_iff in Hv as (i & q & Hm & Hq & Hw & Hs & Hsig & _). rewrite Hm in *. simpl in *.
  unfold bucket_with. rewrite Hm. split; simpl.
  - intros j [Hj|Hj%list_elem_of_singleton]%elem_of_app; [by auto|subst j]. rewrite Hq. split_and!; try done.
    intros E. rewrite E, wellFormed_round0 in Hw. done.
  - rewrite fmap_app, list_to_set_app_L, H2. simpl. set_solver.
  - rewrite fmap_app. simpl. apply NoDup_app. split; [done|]. split; [|apply NoDup_singleton].
    intros x Hx ->%list_elem_of_singleton. apply Hn. rewrite H2. by apply elem_of_list_to_set.
Qed.

Lemma put_bucket_inv p r b : pm_inv p -> (p_currentRound p <= r)%N -> bucket_ok r b -> pm_inv (put_bucket p r b).
Proof. intros Hi Hr Hb r' b'. simpl. intros [[<- <-]|[_ Hb']]%lookup_insert_Some; [done|by apply Hi]. Qed.

Lemma LocalTimeoutRound_pm_inv c p s t p' s' es :
  LocalTimeoutRound c p s t = (p', s', es) -> pm_inv p -> pm_inv p'.
Proof.
  intros (es1 & es2 & _ & Est & _)%LocalTimeoutRound_inv Hi.
  pose proof (startTimer_inv p (p_currentRound p) Hi) as H'. by rewrite Est in H'.
Qed.

Lemma pm_step_inv p es tc p' : pm_step p es tc p' -> pm_inv p -> pm_inv p'.
Proof.
  intros [c s t p1 s' es1 E|c s t m p1 s' es1 tc1 Hv E|tc1 p1 es1 mv Hty E|qc p1 es1 mv Hty E|p1 es1 E] Hi.
  - by eapply LocalTimeoutRound_pm_inv.
  - apply ProcessRemoteTimeout_inv in E as [(_ & -> & _)|[(Hr & _ & -> & _)|(Hr & Hn & Hc & _)]]; [done|..].
    + apply put_bucket_inv; [done..|by apply bucket_for_ok].
    + assert (pm_inv (put_bucket p (TimeoutInfo_GetRound (tm_tmo_info m)) (bucket_with p m))) as Hi1
        by (apply put_bucket_inv; [done..|by apply bucket_with_ok]).
      destruct Hc as [(_ & -> & _)|(_ & es2 & _ & E)]; [done|]. by eapply LocalTimeoutRound_pm_inv.
  - rewrite AdvanceRoundTC_eq in E. destruct tc1 as [tc0|]; [|by injection E as <- _ _].
    destruct (_ <? _)%N; [by injection E as <- _ _|]. cbv zeta in E. unpair E. by apply startTimer_inv.
  - rewrite AdvanceRoundQC_eq in E. destruct (_ <? _)%N; [by injection E as <- _ _|].
    cbv zeta in E. unpair E. by apply startTimer_inv.
  - by injection E as <- _.
Qed.

Lemma startTimer_params p r :
  p_quorum (startTimer p r).1 = p_quorum p /\ p_faulty (startTimer p r).1 = p_faulty p /\
  p_currentRound (startTimer p r).1 = r.
Proof. done. Qed.

Lemma LocalTimeoutRound_round c p s t p' s' es :
  LocalTimeoutRound c p s t = (p', s', es) ->
  p_currentRound p' = p_currentRound p /\ p_quorum p' = p_quorum p /\ p_faulty p' = p_faulty p /\
  p_lastRoundTC p' = p_lastRoundTC p /\ p_dur p' = p_dur p.
Proof. intros (es1 & es2 & _ & Est & _)%LocalTimeoutRound_inv. rewrite startTimer_eq in Est. by injection Est as <- _. Qed.

Lemma ProcessRemoteTimeout_round c p s t m p' s' es tc :
  ProcessRemoteTimeout c p s t m = (p', s', es, tc) ->
  p_currentRound p' = p_currentRound p /\ p_quorum p' = p_quorum p /\ p_faulty p' = p_faulty p /\
  p_lastRoundTC p' = p_lastRoundTC p /\ p_dur p' = p_dur p.
Proof.
  intros [(_ & -> & _)|[(_ & _ & -> & _)|(_ & _ & Hc & _)]]%ProcessRemoteTimeout_inv; [done..|].
  destruct Hc as [(_ & -> & _)|(_ & es2 & _ & E)]; [done|]. by apply LocalTimeoutRound_round in E.
Qed.

Lemma bucket_cert_valid r b :
  bucket_ok r b -> (v_quorum ver <= Z.of_nat (size (tb_senders b)))%Z -> tb_infos b ≠ [] ->
  VerifyTC ver (Some (MkTimeoutCert r (sort_by tv_signer (timeout_vote <$> tb_infos b)))) = true.
Proof.
  intros [H1 H2 H3] Hq Hne. apply VerifyTC_iff. split; cbn [tc_round tc_votes].
  - destruct (tb_infos b) as [|i l]; [done|]. by apply (H1 i); left.
  - apply sort_by_strict. rewrite <- list_fmap_compose.
    assert ((tv_signer ∘ timeout_vote) <$> tb_infos b = ti_sender <$> tb_infos b) as ->; [|done].
    apply list_fmap_ext. intros n i Hi. by apply H1, list_elem_of_lookup_2 with n.
  - apply Forall_forall. intros v. rewrite sort_by_perm. intros (i & -> & Hi)%list_elem_of_fmap. by apply H1.
  - rewrite length_sort_by, length_fmap. rewrite H2, size_list_to_set, length_fmap in Hq by done. lia.
Qed.

Lemma remote_cert_valid p es tc p' :
  pm_inv p -> p_quorum p = v_quorum ver -> pm_step p es (Some tc) p' -> VerifyTC ver (Some tc) = true.
Proof.
  intros Hi Hq Hs. inversion Hs as [|c s t m p1 s' es1 tc1 Hv E| | |]; subst.
  apply ProcessRemoteTimeout_inv in E as [(_ & _ & _ & _ & ?)|[(_ & _ & _ & _ & _ & ?)|(_ & Hn & _ & E)]]; [done..|].
  destruct (Z.eqb_spec (Z.of_nat (size (tb_senders (bucket_with p m)))) (p_quorum p)) as [Hz|]; [|done].
  apply (inj Some) in E as ->. apply bucket_cert_valid; [by apply bucket_with_ok|lia|].
  simpl. intros Hnil. by apply app_eq_nil in Hnil as [_ ?].
Qed.

(** A step keeps or raises the round, or a certificate of the last
    representable round wrapped it to zero. *)
Lemma pm_step_round p es tc p' :
  pm_step p es tc p' ->
  p_quorum p' = p_quorum p /\
  ((p_currentRound p <= p_currentRound p')%N \/ p_currentRound p' = 0%N).
Proof.
  intros [c s t p1 s' es1 E|c s t m p1 s' es1 tc1 Hv E|tc1 p1 es1 mv Hty E|qc p1 es1 mv Hty E|p1 es1 E].
  - apply LocalTimeoutRound_round in E as (-> & -> & _). split; [done|]. left. lia.
  - apply ProcessRemoteTimeout_round in E as (-> & -> & _). split; [done|]. left. lia.
  - rewrite AdvanceRoundTC_eq in E. destruct tc1 as [tc0|]; [|injection E as <- _ _; split; [done|left; lia]].
    destruct (N.ltb_spec (tc_round tc0) (p_currentRound p)); [injection E as <- _ _; split; [done|left; lia]|].
    cbv zeta in E. unpair E. split; [done|]. simpl. destruct (succ64_cases (tc_round tc0) Hty) as [(-> & _)|(_ & ->)]; [left; lia|by right].
  - rewrite AdvanceRoundQC_eq in E.
    destruct (N.ltb_spec (QCRound qc) (p_currentRound p)); [injection E as <- _ _; split; [done|left; lia]|].
    cbv zeta in E. unpair E. split; [done|]. simpl. destruct (succ64_cases (QCRound qc) Hty) as [(-> & _)|(_ & ->)]; [left; lia|by right].
  - injection E as <- _. split; [done|]. left. simpl. lia.
Qed.
End machine.

(** ** What the pacemaker promises *)

(** C27. However it is driven, a pacemaker never arms a second timer beside a live
    one and never stops a timer that is not live, and the live timer, if any, is
    the one whose callback carries the current epoch. *)
Theorem one_live_timer `{FloatConv} (ver : Verifier) (quorum faulty : Z) (dur : Backoff) es out p :
  pm_run ver (NewPacemaker quorum faulty dur) es out p -> timers_from None es = Some (armed p).
Proof.
  induction 1 as [|es out p1 es' tc p' _ IH Hs]; [done|].
  rewrite (timers_app _ _ _ _ IH). by apply pm_step_timers in Hs.
Qed.

(** A demonstration: conversions out of range give the least integer. *)
Definition least_int64 : FloatConv := {| out_of_range := fun _ => (- 2 ^ 63)%Z |}.
Definition demo_backoff : Backoff := NewBackoff 500 32000 (float64_of 2).
Definition demo_pacemaker : Pacemaker := NewPacemaker 3 1 demo_backoff.
Definition demo_tmo (i : uint32) : TimeoutMsg :=
  MkTimeoutMsg (Some (MkTimeoutInfo 1 (Some genesisQC) i (Some (MkSignature i [x01])))) None None.

(** The timeouts [ms], one after the other. *)
Fixpoint remote_all (c : Crypto) (t : BlockTree) (p : Pacemaker) (s : Safety) (ms : list TimeoutMsg)
    : Pacemaker * Safety * list effect * list TimeoutCert :=
  match ms with
  | [] => (p, s, [], [])
  | m :: ms =>
      let '(p, s, es, tc) := ProcessRemoteTimeout c p s t m in
      let '(p, s, es', out) := remote_all c t p s ms in
      (p, s, es ++ es', option_list tc ++ out)
  end.

Lemma pm_run_trans `{FloatConv} ver p es out p1 es' out' p2 :
  pm_run ver p es out p1 -> pm_run ver p1 es' out' p2 -> pm_run ver p (es ++ es') (out ++ out') p2.
Proof.
  intros H1. induction 1 as [|es' out' p1' es'' tc p' _ IH Hs]; [by rewrite !app_nil_r|].
  rewrite !(assoc_L (++)). by eapply run_step.
Qed.

Lemma pm_run_one `{FloatConv} ver p es tc p' : pm_step ver p es tc p' -> pm_run ver p es (option_list tc) p'.
Proof. intros Hs. apply (run_step ver p [] [] p es tc p'); [constructor|done]. Qed.

Lemma remote_all_run `{FloatConv} ver c t p s ms p' s' es out :
  Forall (fun m => VerifyTimeout ver m = true) ms -> remote_all c t p s ms = (p', s', es, out) ->
  pm_run ver p es out p'.
Proof.
  intros HF. revert p s es out. induction HF as [|m ms Hm _ IH]; intros p s es out; simpl.
  { intros [= <- <- <- <-]. constructor. }
  destruct (ProcessRemoteTimeout c p s t m) as [[[p1 s1] es1] tc] eqn:E.
  destruct (remote_all c t p1 s1 ms) as [[[p2 s2] es2] out2] eqn:E2. intros [= <- <- <- <-].
  eapply pm_run_trans; [|by eapply IH]. apply pm_run_one. by eapply step_remote.
Qed.

Lemma triple_eta {A B C} (x : A * B * C) : x = (x.1.1, x.1.2, x.2).
Proof. by destruct x as [[]]. Qed.
Lemma quad_eta {A B C D} (x : A * B * C * D) : x = (x.1.1.1, x.1.1.2, x.1.2, x.2).
Proof. by destruct x as [[[]]]. Qed.

(** Three timeouts of round 1 reach a pacemaker that entered it on genesis; the
    second amplifies, the third completes a certificate. *)
Definition demo_entered : Pacemaker * list effect * bool := AdvanceRoundQC demo_pacemaker (Some genesisQC).
Definition demo_timeouts : Pacemaker * Safety * list effect * list TimeoutCert :=
  remote_all demo_crypto demo_tree demo_entered.1.1 demo_safety (demo_tmo <$> [4; 1; 4; 2]%N).

Lemma demo_timeouts_run :
  @pm_run least_int64 demo_verifier demo_pacemaker (demo_entered.1.2 ++ demo_timeouts.1.2) demo_timeouts.2 demo_timeouts.1.1.1.
Proof.
  assert (@pm_run least_int64 demo_verifier demo_pacemaker demo_entered.1.2 [] demo_entered.1.1) as R1.
  { apply (@pm_run_one least_int64 demo_verifier demo_pacemaker _ None).
    apply (@step_qc least_int64 demo_verifier demo_pacemaker (Some genesisQC) _ _ demo_entered.2);
      [vm_compute; reflexivity|apply triple_eta]. }
  assert (remote_all demo_crypto demo_tree demo_entered.1.1 demo_safety (demo_tmo <$> [4; 1; 4; 2]%N) =
    (demo_timeouts.1.1.1, demo_timeouts.1.1.2, demo_timeouts.1.2, demo_timeouts.2)) as E by apply quad_eta.
  apply (@remote_all_run least_int64 demo_verifier) in E; [|repeat (constructor; [vm_compute; reflexivity|]); constructor].
  exact (@pm_run_trans least_int64 demo_verifier _ _ [] _ _ _ _ R1 E).
Qed.

#[local] Opaque demo_entered demo_timeouts.

Lemma one_live_timer_witness :
  timers_from None (demo_entered.1.2 ++ demo_timeouts.1.2) = Some (armed demo_timeouts.1.1.1) /\
  armed demo_timeouts.1.1.1 = Some 3%N.
Proof.
  split; [|vm_compute; reflexivity].
  apply (@one_live_timer least_int64 demo_verifier 3 1 demo_backoff _ demo_timeouts.2). exact demo_timeouts_run.
Defined.

(** C17. Every timeout certificate a pacemaker builds from verified timeouts
    passes the check every receiver runs, whatever happened in between. *)
Theorem built_certificates_verify `{FloatConv} (ver : Verifier) (faulty : Z) (dur : Backoff) es out p tc :
  pm_run ver (NewPacemaker (v_quorum ver) faulty dur) es out p -> tc ∈ out -> VerifyTC ver (Some tc) = true.
Proof.
  intros Hr. cut (pm_inv ver p /\ p_quorum p = v_quorum ver /\ forall tc, tc ∈ out -> VerifyTC ver (Some tc) = true).
  { intros (_ & _ & Ho). apply Ho. }
  clear tc. induction Hr as [|es out p1 es' tc p' _ (Hi & Hq & Ho) Hs].
  { split; [apply pm_inv_new|]. split; [done|]. intros tc Htc. by apply not_elem_of_nil in Htc. }
  split; [by eapply pm_step_inv|]. split; [by rewrite (proj1 (pm_step_round _ _ _ _ _ Hs))|].
  intros tc' [?|Htc]%elem_of_app; [by apply Ho|]. destruct tc as [t'|]; [|by apply not_elem_of_nil in Htc].
  apply list_elem_of_singleton in Htc as ->. by eapply remote_cert_valid.
Qed.

Lemma built_certificates_verify_witness :
  exists tc, demo_timeouts.2 = [tc] /\ VerifyTC demo_verifier (Some tc) = true.
Proof.
  assert (length demo_timeouts.2 = 1) as Hl by (vm_compute; reflexivity).
  destruct demo_timeouts.2 as [|tc [|]] eqn:E; [discriminate Hl| |discriminate Hl]. exists tc. split; [reflexivity|].
  apply (@built_certificates_verify least_int64 demo_verifier 1 demo_backoff (demo_entered.1.2 ++ demo_timeouts.1.2)
    demo_timeouts.2 demo_timeouts.1.1.1).
  - exact demo_timeouts_run.
  - rewrite E. by left.
Defined.

(** Rounds only go up. In a step the round stays or rises, unless a
    certificate of the last [uint64] round wraps it to zero; whatever the step,
    timeouts are kept only for the round that results and later ones, and every
    bucket holds verified timeouts of distinct senders. *)
Theorem pacemaker_step_safe `{FloatConv} (ver : Verifier) p es tc p' :
  pm_inv ver p -> pm_step ver p es tc p' ->
  ((p_currentRound p <= p_currentRound p')%N \/ p_currentRound p' = 0%N) /\
  (forall r b, p_pendingTimeouts p' !! r = Some b ->
     (p_currentRound p' <= r)%N /\ NoDup (ti_sender <$> tb_infos b) /\
     tb_senders b = list_to_set (ti_sender <$> tb_infos b)).
Proof.
  intros Hi Hs. split; [by apply pm_step_round in Hs as [_ ?]|]. intros r b Hb.
  destruct (pm_step_inv _ _ _ _ _ Hs Hi r b Hb) as [? [_ ? ?]]. done.
Qed.

(** Entering the last round, and wrapping. *)
Lemma pacemaker_step_safe_witness :
  let p := demo_entered.1.1 in
  let t := Some (MkTimeoutCert (two64 - 1) []) in
  p_currentRound p = 1%N /\ p_currentRound (@AdvanceRoundTC least_int64 p t).1.1 = 0%N /\
  forall r b, p_pendingTimeouts (@AdvanceRoundTC least_int64 p t).1.1 !! r = Some b -> NoDup (ti_sender <$> tb_infos b).
Proof.
  intros p t. split; [vm_compute; reflexivity|]. split; [vm_compute; reflexivity|].
  destruct (@pacemaker_step_safe least_int64 demo_verifier p (@AdvanceRoundTC least_int64 p t).1.2 None
    (@AdvanceRoundTC least_int64 p t).1.1) as [_ Hb].
  - intros r b Hb. assert (p_pendingTimeouts p = ∅) as E by (vm_compute; reflexivity).
    rewrite E, lookup_empty in Hb. discriminate Hb.
  - eapply (@step_tc least_int64 demo_verifier p t); [vm_compute; reflexivity|apply triple_eta].
  - intros r b Hr. apply (Hb r b Hr).
Defined.

Definition is_arm (e : effect) : bool := match e with ClockAfterFunc _ _ => true | _ => false end.
Definition arms (es : list effect) : nat := length (filter (fun e => is_arm e = true) es).

Definition senders_of (ms : list TimeoutMsg) : gset uint32 :=
  list_to_set ((fun m => TimeoutInfo_GetSender (tm_tmo_info m)) <$> ms).

Lemma LocalTimeoutRound_arms c p s t p' s' es : LocalTimeoutRound c p s t = (p', s', es) -> arms es = 1.
Proof.
  intros (es1 & es2 & -> & Est & Hr)%LocalTimeoutRound_inv. rewrite startTimer_eq in Est. injection Est as _ <-.
  unfold arms. rewrite !filter_app. destruct (p_timer p), Hr as [[-> _]|(i & _ & ->)]; done.
Qed.

Definition bucket_senders (p : Pacemaker) (r : uint64) : gset uint32 :=
  default ∅ (tb_senders <$> p_pendingTimeouts p !! r).

(** One timeout of round [r]: the sender joins the bucket; the round timer is
    re-armed and a certificate comes out exactly when it is the one that makes
    the count reach the threshold. *)
Lemma remote_count c p s t m p' s' es tc r :
  ProcessRemoteTimeout c p s t m = (p', s', es, tc) ->
  TimeoutInfo_GetRound (tm_tmo_info m) = r -> (p_currentRound p <= r)%N ->
  let S := bucket_senders p r in
  let S' := {[TimeoutInfo_GetSender (tm_tmo_info m)]} ∪ S in
  bucket_senders p' r = S' /\
  length (option_list tc) = (if bool_decide (Z.of_nat (size S) < p_quorum p <= Z.of_nat (size S'))%Z then 1 else 0) /\
  arms es = (if bool_decide (Z.of_nat (size S) < p_faulty p + 1 <= Z.of_nat (size S'))%Z then 1 else 0).
Proof.
  intros E Hr Hle S S'. assert (tb_senders (bucket_for p m) = S) as HS.
  { unfold bucket_for, S, bucket_senders. rewrite Hr. by destruct (p_pendingTimeouts p !! r). }
  apply ProcessRemoteTimeout_inv in E as [(? & _)|[(_ & Hin & -> & _ & -> & ->)|(_ & Hn & Hc & ->)]]; [lia|..].
  - rewrite HS in Hin. assert (S' = S) as -> by (unfold S'; set_solver). rewrite !bool_decide_eq_false_2 by lia.
    split; [|done]. unfold bucket_senders. simpl. rewrite Hr, lookup_insert_eq. done.
  - rewrite HS in Hn. assert (size S' = 1 + size S) as Hsz
      by (unfold S'; rewrite size_union by set_solver; by rewrite size_singleton).
    assert (tb_senders (bucket_with p m) = S') as HS' by (unfold bucket_with; simpl; by rewrite HS).
    rewrite HS', Hr in *. split_and!.
    + assert (bucket_senders (put_bucket p r (bucket_with p m)) r = S') as Hput
        by (unfold bucket_senders; simpl; by rewrite lookup_insert_eq).
      destruct Hc as [(_ & -> & _)|(_ & es2 & _ & El)]; [done|].
      apply LocalTimeoutRound_inv in El as (es1 & es3 & _ & Est & _). rewrite startTimer_eq in Est. injection Est as <- _.
      unfold bucket_senders. simpl. rewrite map_lookup_filter, lookup_insert_eq. simpl.
      by rewrite option_guard_True by (simpl; lia).
    + destruct (Z.eqb_spec (Z.of_nat (size S')) (p_quorum p));
        [rewrite bool_decide_eq_true_2 by lia|rewrite bool_decide_eq_false_2 by lia]; done.
    + destruct Hc as [(Hne & _ & _ & ->)|(Heq & es2 & -> & El)].
      * by rewrite bool_decide_eq_false_2 by lia.
      * rewrite bool_decide_eq_true_2 by lia. unfold arms. rewrite filter_app, length_app.
        fold (arms es2). rewrite (LocalTimeoutRound_arms _ _ _ _ _ _ _ El). simpl. by destruct (p_timer p).
Qed.

Lemma remote_all_count c t r p s ms p' s' es out :
  remote_all c t p s ms = (p', s', es, out) ->
  Forall (fun m => TimeoutInfo_GetRound (tm_tmo_info m) = r) ms -> (p_currentRound p <= r)%N ->
  let S := bucket_senders p r in
  let S' := senders_of ms ∪ S in
  bucket_senders p' r = S' /\
  length out = (if bool_decide (Z.of_nat (size S) < p_quorum p <= Z.of_nat (size S'))%Z then 1 else 0) /\
  arms es = (if bool_decide (Z.of_nat (size S) < p_faulty p + 1 <= Z.of_nat (size S'))%Z then 1 else 0).
Proof.
  revert p s es out. induction ms as [|m ms IH]; intros p s es out; simpl.
  { intros [= <- <- <- <-] _ _. change (senders_of []) with (∅ : gset uint32). rewrite !union_empty_l_L. rewrite !bool_decide_eq_false_2 by lia. done. }
  destruct (ProcessRemoteTimeout c p s t m) as [[[p1 s1] es1] tc] eqn:E.
  destruct (remote_all c t p1 s1 ms) as [[[p2 s2] es2] out2] eqn:E2. intros [= <- <- <- <-] HF Hle.
  apply Forall_cons in HF as [Hm HF].
  destruct (ProcessRemoteTimeout_round _ _ _ _ _ _ _ _ _ E) as (Ec & Eq & Ef & _).
  destruct (remote_count _ _ _ _ _ _ _ _ _ r E Hm Hle) as (B1 & O1 & A1).
  destruct (IH p1 s1 es2 out2 E2 HF) as (B2 & O2 & A2); [lia|]. rewrite B1 in *.
  assert (senders_of (m :: ms) ∪ bucket_senders p r =
          senders_of ms ∪ ({[TimeoutInfo_GetSender (tm_tmo_info m)]} ∪ bucket_senders p r)) as ->
    by (unfold senders_of; simpl; set_solver).
  split; [done|].
  assert (forall a b c q, (a <= b)%Z -> (b <= c)%Z ->
    (if bool_decide (a < q <= b)%Z then 1 else 0) + (if bool_decide (b < q <= c)%Z then 1 else 0) =
    (if bool_decide (a < q <= c)%Z then 1 else 0)) as Hsum.
  { intros a b d q ? ?. repeat case_bool_decide; lia. }
  assert (forall X Y : gset uint32, (Z.of_nat (size Y) <= Z.of_nat (size (X ∪ Y)))%Z) as Hmono.
  { intros X Y. apply inj_le, subseteq_size. set_solver. }
  unfold arms. rewrite filter_app, !length_app. fold (arms es1). fold (arms es2).
  rewrite O1, A1, O2, A2, Eq, Ef. split; apply Hsum; apply Hmono.
Qed.

(** C26. Timeouts of one round count once per sender, in whatever order and however
    often they arrive: from the first one on, exactly one certificate comes out if
    at least a quorum of senders reported and none otherwise, and the replica
    gives the round up early exactly once if more than [faulty] did and not at
    all otherwise. *)
Theorem timeouts_counted_once (c : Crypto) (t : BlockTree) (r : uint64) p s ms p' s' es out :
  remote_all c t p s ms = (p', s', es, out) ->
  Forall (fun m => TimeoutInfo_GetRound (tm_tmo_info m) = r) ms ->
  (p_currentRound p <= r)%N -> p_pendingTimeouts p !! r = None ->
  (0 < p_quorum p)%Z -> (0 <= p_faulty p)%Z ->
  length out = (if bool_decide (p_quorum p <= Z.of_nat (size (senders_of ms)))%Z then 1 else 0) /\
  arms es = (if bool_decide (p_faulty p < Z.of_nat (size (senders_of ms)))%Z then 1 else 0).
Proof.
  intros E HF Hle Hn Hq Hf. destruct (remote_all_count _ _ _ _ _ _ _ _ _ _ E HF Hle) as (_ & Ho & Ha).
  assert (bucket_senders p r = ∅) as HS by (unfold bucket_senders; by rewrite Hn).
  rewrite HS, union_empty_r_L, size_empty in Ho, Ha. rewrite Ho, Ha.
  split; [apply (f_equal (fun b : bool => if b then 1 else 0))|apply (f_equal (fun b : bool => if b then 1 else 0))];
    apply bool_decide_ext; lia.
Qed.

Lemma timeouts_counted_once_witness : length demo_timeouts.2 = 1 /\ arms demo_timeouts.1.2 = 1.
Proof.
  assert (remote_all demo_crypto demo_tree demo_entered.1.1 demo_safety (demo_tmo <$> [4; 1; 4; 2]%N) =
    (demo_timeouts.1.1.1, demo_timeouts.1.1.2, demo_timeouts.1.2, demo_timeouts.2)) as E by apply quad_eta.
  destruct (timeouts_counted_once demo_crypto demo_tree 1 _ _ _ _ _ _ _ E) as [H1 H2].
  - repeat (constructor; [reflexivity|]). constructor.
  - vm_compute. discriminate.
  - vm_compute. reflexivity.
  - vm_compute. reflexivity.
  - vm_compute. discriminate.
  - rewrite H1, H2. split; vm_compute; reflexivity.
Defined.

(** A replica only sends timeouts that every other replica accepts: if its
    signatures verify under its id and the commit certificate it attaches
    verifies, the one message [LocalTimeoutRound] may broadcast passes
    [VerifyTimeout]; in particular it carries the timeout certificate that
    justifies its round exactly when its own certificate does not. *)
Theorem LocalTimeoutRound_accepted (c : Crypto) (p : Pacemaker) (s : Safety) (t : BlockTree) p' s' es m :
  (forall d sg, Sign c d = Some sg -> Verify (v_crypto (s_verify s)) (s_id s) d sg = true) ->
  verifyCommitQC (s_verify s) (HighCommitQC t) = true ->
  LocalTimeoutRound c p s t = (p', s', es) -> m ∈ sent_timeouts es ->
  VerifyTimeout (s_verify s) m = true /\ TimeoutInfo_GetRound (tm_tmo_info m) = p_currentRound p.
Proof.
  intros Hsign Hcq (es1 & es2 & -> & Est & Hr)%LocalTimeoutRound_inv Hm.
  rewrite startTimer_eq in Est. injection Est as _ <-. unfold sent_timeouts in Hm. rewrite !omap_app in Hm.
  apply elem_of_app in Hm as [Hm|Hm].
  { apply elem_of_app in Hm as [Hm|Hm]; [destruct (p_timer p)|]; by apply not_elem_of_nil in Hm. }
  destruct Hr as [[-> _]|(i & Hmk & ->)]; [by apply not_elem_of_nil in Hm|].
  apply list_elem_of_singleton in Hm as ->.
  destruct (MakeTimeout_some _ _ _ _ _ _ _ Hmk) as (sig & Ht & -> & Hs). simpl. split; [|done].
  unfold sign in Hs. apply bind_Some in Hs as (sg & Hs & [= <-]).
  pose proof (to_qc _ _ _ _ _ Ht) as Hq. destruct (VerifyQC_some _ _ Hq) as [q Eq].
  apply VerifyTimeout_iff. eexists _, q. simpl. split; [done|]. split; [done|].
  destruct (safeToTimeout_true _ _ _ _ (to_safe _ _ _ _ _ Ht)) as (_ & Hlt & _).
  rewrite Eq in *. split_and!; try done; [|by apply Hsign|].
  - unfold wellFormed, justifyingTC. cbn [ti_round ti_high_qc]. destruct (N.eqb_spec (p_currentRound p) 0); [lia|].
    destruct (N.eqb_spec (QCRound (Some q) +u64 1) (p_currentRound p)) as [Hc|Hc]; [by rewrite bool_decide_eq_true_2|].
    pose proof (to_safe _ _ _ _ _ Ht) as Hsafe. unfold safeToTimeout in Hsafe.
    destruct (_ <? _)%N; [done|]. destruct (_ <=? _)%N; [done|]. unfold consecutive in Hsafe.
    destruct (N.eqb_spec (QCRound (Some q) +u64 1) (p_currentRound p)); [done|]. simpl in Hsafe.
    by destruct (p_lastRoundTC p).
  - unfold justifyingTC. cbn [ti_round ti_high_qc]. destruct (_ =? _)%N; [done|]. apply (to_tc _ _ _ _ _ Ht).
Qed.

Lemma LocalTimeoutRound_accepted_witness :
  exists m, sent_timeouts (LocalTimeoutRound demo_crypto demo_entered.1.1 demo_safety demo_tree).2 = [m] /\
    VerifyTimeout demo_verifier m = true.
Proof.
  set (r := LocalTimeoutRound demo_crypto demo_entered.1.1 demo_safety demo_tree).
  assert (length (sent_timeouts r.2) = 1) as Hl by (vm_compute; reflexivity).
  destruct (sent_timeouts r.2) as [|m [|]] eqn:E; [discriminate Hl| |discriminate Hl]. exists m. split; [reflexivity|].
  apply (LocalTimeoutRound_accepted demo_crypto demo_entered.1.1 demo_safety demo_tree r.1.1 r.1.2 r.2 m).
  - intros d sg [= <-]. reflexivity.
  - vm_compute. reflexivity.
  - apply triple_eta.
  - rewrite E. by left.
Defined.
