(* ===== verification/Leader.v ===== *)
(** [diem/leader.go]: leader election. The ledger it walks and the pacemaker's
    round are arguments. [None] is a panic ([GetLeader] without validators) or a
    walk that does not end (see [electReputationLeader]). *)

From stdpp Require Import prelude gmap list fin_maps sorting.
From Stdlib Require Import NArith ZArith Lia Strings.Byte.
From S2P Require Import Prelude Sha256 Proto Hash Types Quorum Verify Ledger.

Record LeaderElection := MkLeaderElection {
  e_validators : list uint32;
  e_windowSize : Z;
  e_excludeSize : Z;
  e_reputationLeaders : gmap uint64 uint32;
}.

(** [slices.Sort] on ids. *)
Definition sort_ids (l : list uint32) : list uint32 := sort_by (fun i : uint32 => i) l.

Definition NewLeaderElection (validators : list uint32) (windowSize excludeSize : Z) : LeaderElection :=
  MkLeaderElection (sort_ids validators) windowSize excludeSize ∅.

Definition GetLeader (e : LeaderElection) (round : uint64) : option uint32 :=
  match e_reputationLeaders e !! round with
  | Some id => Some id
  | None => e_validators e !! N.to_nat ((round / 2) mod N.of_nat (length (e_validators e)))
  end.

Definition pick (seed : uint64) (n : N) : N := (be_val (take 8 (sha256 (be 8 seed))) mod n)%N.

(** The loop; [i] counts iterations. *)
Fixpoint elect_loop (fuel : nat) (e : LeaderElection) (l : MemLedger) (i : Z) (current : option QuorumCert)
    (active excluded : gset uint32) : option (gset uint32 * gset uint32) :=
  if (i <? e_windowSize e)%Z || (Z.of_nat (size excluded) <? e_excludeSize e)%Z then
    match fuel with
    | O => None
    | S fuel =>
        match CommittedBlock l (VoteInfo_GetParentId (QuorumCert_GetVoteInfo current)) with
        | None => Some (active, excluded)
        | Some block =>
            let active := if (i <? e_windowSize e)%Z
                          then list_to_set (sg_signer <$> QuorumCert_GetSignatures current) ∪ active else active in
            let excluded := if (Z.of_nat (size excluded) <? e_excludeSize e)%Z
                            then {[b_author block]} ∪ excluded else excluded in
            match b_qc block with
            | None => Some (active, excluded)
            | Some q => elect_loop fuel e l (i + 1)%Z (Some q) active excluded
            end
        end
    end
  else Some (active, excluded).

(** [Some None] is Go's [(0, false)]. Once the walk is past the window and has
    taken as many steps as there are committed blocks, it has seen every block
    and author it can reach; if it still goes on, the certificates form a cycle
    and it never ends. The candidates are collected in map order
    and sorted, so the order does not matter. *)
Definition electReputationLeader (e : LeaderElection) (l : MemLedger) (qc : option QuorumCert) : option (option uint32) :=
  '(active, excluded) ← elect_loop (Z.to_nat (e_windowSize e) + S (size (l_committed l))) e l 0 qc ∅ ∅;
  let candidates := elements (active ∖ excluded) in
  match candidates with
  | [] => Some None
  | _ => Some (sort_ids candidates !! N.to_nat (pick (QCRound qc) (N.of_nat (length candidates))))
  end.

Definition UpdateLeaders (e : LeaderElection) (l : MemLedger) (currentRound : uint64) (qc : option QuorumCert)
    : option LeaderElection :=
  match qc with
  | None => Some e
  | Some _ =>
      let extendedRound := VoteInfo_GetParentRound (QuorumCert_GetVoteInfo qc) in
      let qcRound := QCRound qc in
      if negb (extendedRound +u64 1 =? qcRound)%N || negb (qcRound +u64 1 =? currentRound)%N then Some e
      else
        elected ← electReputationLeader e l qc;
        let leaders := match elected with
                       | Some id => <[currentRound +u64 1 := id]> (e_reputationLeaders e)
                       | None => e_reputationLeaders e
                       end in
        Some (MkLeaderElection (e_validators e) (e_windowSize e) (e_excludeSize e)
                (filter (fun r : uint64 * uint32 => ~ (r.1 < currentRound)%N) leaders))
  end.

(** ** Sorting and picking *)

Lemma sort_ids_perm l : sort_ids l ≡ₚ l.
Proof. apply sort_by_perm. Qed.

Lemma sort_ids_unique l k : NoDup l -> l ≡ₚ k -> sort_ids l = sort_ids k.
Proof.
  intros Hn Hp. apply (strict_sorted_unique (fun i : uint32 => i)); [| |by rewrite !sort_ids_perm].
  - apply sort_by_strict. by rewrite list_fmap_id.
  - apply sort_by_strict. rewrite list_fmap_id. by rewrite <- Hp.
Qed.

Lemma pick_lt seed n : (0 < n)%N -> (pick seed n < n)%N.
Proof. intros Hn. apply N.mod_lt. lia. Qed.

Section elect.
Context (e : LeaderElection) (l : MemLedger).

(** What the walk may collect: signers of certificates it stood on, authors of
    committed blocks it found. *)
Lemma elect_loop_sub fuel i cur act exc act' exc' :
  elect_loop fuel e l i cur act exc = Some (act', exc') ->
  act ⊆ act' /\ exc ⊆ exc' /\
  (forall x, x ∈ act' -> x ∈ act \/ (exists s, s ∈ QuorumCert_GetSignatures cur /\ sg_signer s = x) \/
    exists id b s, l_committed l !! id = Some b /\ s ∈ QuorumCert_GetSignatures (b_qc b) /\ sg_signer s = x) /\
  (forall x, x ∈ exc' -> x ∈ exc \/ exists id b, l_committed l !! id = Some b /\ b_author b = x).
Proof.
  revert i cur act exc. induction fuel as [|fuel IH]; intros i cur act exc; cbn [elect_loop].
  { destruct (_ || _); [done|]. intros [= <- <-]. split_and!; auto. }
  destruct (_ || _); [|intros [= <- <-]; split_and!; auto].
  destruct (CommittedBlock l _) as [b|] eqn:Hb; [|intros [= <- <-]; split_and!; auto].
  set (act1 := if (i <? _)%Z then _ else _). set (exc1 := if (_ <? e_excludeSize e)%Z then _ else _).
  assert (act ⊆ act1 /\ exc ⊆ exc1 /\
    (forall x, x ∈ act1 -> x ∈ act \/ exists s, s ∈ QuorumCert_GetSignatures cur /\ sg_signer s = x) /\
    (forall x, x ∈ exc1 -> x ∈ exc \/ x = b_author b)) as (A1 & A2 & A3 & A4).
  { unfold act1, exc1. split; [|split; [|split]].
    - destruct (i <? _)%Z; [apply union_subseteq_r|done].
    - destruct (_ <? e_excludeSize e)%Z; [apply union_subseteq_r|done].
    - intros x. destruct (i <? _)%Z; [|by auto]. intros [Hx|]%elem_of_union; [|by auto].
      apply elem_of_list_to_set, list_elem_of_fmap in Hx as (s & -> & ?). eauto.
    - intros x. destruct (_ <? e_excludeSize e)%Z; [|by auto]. clear. set_solver. }
  destruct (b_qc b) as [q|] eqn:Hq.
  - intros E. apply IH in E as (B1 & B2 & B3 & B4). split; [by etrans|]. split; [by etrans|]. split.
    + intros x Hx. destruct (B3 x Hx) as [H|[(s & Hs & ?)|?]]; [|right; right; eexists _, b, s; rewrite Hq; done|by auto].
      destruct (A3 x H); auto.
    + intros x Hx. destruct (B4 x Hx) as [H|?]; [|by auto]. destruct (A4 x H) as [?| ->]; [by auto|right; eauto].
  - intros [= <- <-]. split; [done|]. split; [done|]. split.
    + intros x Hx. destruct (A3 x Hx); auto.
    + intros x Hx. destruct (A4 x Hx) as [?| ->]; [by auto|right; eauto].
Qed.

(** An author is excluded as soon as its block is found and the set has room. *)
Lemma elect_loop_author fuel i cur act exc act' exc' b :
  elect_loop fuel e l i cur act exc = Some (act', exc') ->
  (Z.of_nat (size exc) < e_excludeSize e)%Z ->
  CommittedBlock l (VoteInfo_GetParentId (QuorumCert_GetVoteInfo cur)) = Some b -> b_author b ∈ exc'.
Proof.
  intros E Hsz Hb. destruct fuel as [|fuel]; cbn [elect_loop] in E.
  { by rewrite (proj2 (Z.ltb_lt _ _) Hsz), orb_true_r in E. }
  rewrite (proj2 (Z.ltb_lt _ _) Hsz), orb_true_r, Hb in E. destruct (b_qc b) as [q|].
  - apply elect_loop_sub in E as (_ & Hs & _). set_solver.
  - injection E as _ <-. set_solver.
Qed.

(** The walk ends if the certificates of committed blocks lead down in rank. *)
Lemma elect_loop_total (rank : bytes -> nat) fuel i cur act exc :
  (forall id b, l_committed l !! id = Some b ->
     rank (VoteInfo_GetParentId (QuorumCert_GetVoteInfo (b_qc b))) < rank id) ->
  size (below rank (l_committed l) (rank (VoteInfo_GetParentId (QuorumCert_GetVoteInfo cur)))) < fuel ->
  is_Some (elect_loop fuel e l i cur act exc).
Proof.
  intros Hr. revert i cur act exc. induction fuel as [|fuel IH]; intros i cur act exc Hf; cbn [elect_loop]; [lia|].
  destruct (_ || _); [|by eexists]. unfold CommittedBlock.
  destruct (l_committed l !! _) as [b|] eqn:Hb; [|by eexists]. destruct (b_qc b) as [q|] eqn:Hq; [|by eexists].
  apply IH. pose proof (Hr _ _ Hb) as Hlt. rewrite Hq in Hlt.
  pose proof (below_lt rank (l_committed l) _ _ _ Hb Hlt). lia.
Qed.

(** With one author to hold out at most, the first step finds it and the window does
    the rest. *)
Lemma elect_loop_window fuel i cur act exc :
  (e_excludeSize e <= 1)%Z ->
  Z.to_nat (e_windowSize e - i) + (if (Z.of_nat (size exc) <? e_excludeSize e)%Z then 1 else 0) <= fuel ->
  is_Some (elect_loop fuel e l i cur act exc).
Proof.
  intros Hx. revert i cur act exc. induction fuel as [|fuel IH]; intros i cur act exc Hf; cbn [elect_loop];
    destruct (Z.ltb_spec i (e_windowSize e)), (Z.ltb_spec (Z.of_nat (size exc)) (e_excludeSize e)); cbn [orb]; try lia; try (by eexists).
  all: destruct (CommittedBlock _ _) as [b|]; [|by eexists].
  all: destruct (b_qc b) as [q|]; [|by eexists].
  all: apply IH; try (assert (1 <= size (({[b_author b]} : gset uint32) ∪ exc)) by
    (transitivity (size ({[b_author b]} : gset uint32)); [by rewrite size_singleton|apply subseteq_size; set_solver])).
  all: case_match; lia.
Qed.

(** A committed block whose certificate leads back to itself keeps the walk going for
    ever, when one author is not enough. *)
Lemma elect_loop_cycle q b fuel i act exc :
  CommittedBlock l (VoteInfo_GetParentId (qc_vote_info q)) = Some b -> b_qc b = Some q -> (1 < e_excludeSize e)%Z ->
  exc ⊆ {[b_author b]} -> elect_loop fuel e l i (Some q) act exc = None.
Proof.
  intros Hb Hq Hx. revert i act exc. induction fuel as [|fuel IH]; intros i act exc Hs; cbn [elect_loop].
  all: assert (size exc <= 1) by (rewrite <- (size_singleton (C := gset uint32) (b_author b)); by apply subseteq_size).
  all: destruct (Z.ltb_spec (Z.of_nat (size exc)) (e_excludeSize e)); [|lia]; rewrite orb_true_r; try done.
  cbn [QuorumCert_GetVoteInfo]. rewrite Hb, Hq. apply IH. set_solver.
Qed.

(** So does an election over a certificate that commits such a block. *)
Lemma elect_loop_caught qc q b fuel i act :
  CommittedBlock l (VoteInfo_GetParentId (QuorumCert_GetVoteInfo qc)) = Some b -> b_qc b = Some q ->
  CommittedBlock l (VoteInfo_GetParentId (qc_vote_info q)) = Some b -> (1 < e_excludeSize e)%Z ->
  elect_loop fuel e l i qc act ∅ = None.
Proof.
  intros Hb Hq Hc Hx. destruct fuel as [|fuel]; cbn [elect_loop]; rewrite size_empty;
    destruct (Z.ltb_spec (Z.of_nat 0) (e_excludeSize e)); [|lia| |lia]; rewrite orb_true_r; [done|].
  rewrite Hb, Hq. eapply elect_loop_cycle; [exact Hc|exact Hq|exact Hx|set_solver].
Qed.
End elect.

(** ** What leader election promises *)

(** C37. A leader elected by reputation signed the certificate it was elected on or
    one carried by a committed block, and, when any author is held out at all, it
    is not the author of the block that certificate commits. *)
Theorem elected_leader_sound (e : LeaderElection) (l : MemLedger) (qc : option QuorumCert) (id : uint32) :
  electReputationLeader e l qc = Some (Some id) ->
  ((exists s, s ∈ QuorumCert_GetSignatures qc /\ sg_signer s = id) \/
   (exists bid b s, l_committed l !! bid = Some b /\ s ∈ QuorumCert_GetSignatures (b_qc b) /\ sg_signer s = id)) /\
  ((0 < e_excludeSize e)%Z -> forall b,
     CommittedBlock l (VoteInfo_GetParentId (QuorumCert_GetVoteInfo qc)) = Some b -> b_author b ≠ id).
Proof.
  unfold electReputationLeader. intros ([act exc] & E & H)%bind_Some.
  assert (id ∈ act ∖ exc) as Hid.
  { apply elem_of_elements. rewrite <- sort_ids_perm. destruct (elements (act ∖ exc)) as [|c cs]; [done|].
    apply (inj Some) in H. by eapply list_elem_of_lookup_2. }
  apply elem_of_difference in Hid as [Ha Hx]. split.
  - apply elect_loop_sub in E as (_ & _ & Hact & _). destruct (Hact id Ha) as [[]%not_elem_of_empty|?]; auto.
  - intros Hsz b Hb <-. apply Hx. eapply elect_loop_author; [exact E| |exact Hb]. by rewrite size_empty.
Qed.

(** A chain of six committed blocks by authors 1, 2, 1, 2, ..., each certified by
    replicas 1 to 3, and a certificate that commits the last one. *)
Definition chain_cert (n : N) : QuorumCert :=
  MkQuorumCert (Some (MkVoteInfo (be 1 n) n (be 1 (n - 1)) (n - 1) [])) None
    ((fun i => MkSignature i []) <$> [1; 2; 3]%N) 1 None.
Definition chain_block (n : N) : Block :=
  MkBlock (1 + (n + 1) mod 2)%N n [] (Some (chain_cert (n - 1))) (be 1 n).
Definition chain_ledger : MemLedger :=
  MkMemLedger ExecuteHash 512 ∅ ∅ (list_to_map ((fun n => (be 1 n, chain_block n)) <$> [1; 2; 3; 4; 5; 6]%N))
    (be 1 <$> [1; 2; 3; 4; 5; 6]%N) (be 1 6) [] [].
Definition chain_election (exclude : Z) : LeaderElection := NewLeaderElection [3; 1; 2]%N 10 exclude.

Lemma elected_leader_sound_witness :
  exists id, electReputationLeader (chain_election 1) chain_ledger (Some (chain_cert 7)) = Some (Some id) /\
    b_author (chain_block 6) ≠ id.
Proof.
  assert (option_map (fun r : option uint32 => bool_decide (is_Some r)) (electReputationLeader (chain_election 1) chain_ledger (Some (chain_cert 7))) = Some true) as Hs
    by (vm_compute; reflexivity).
  destruct (electReputationLeader (chain_election 1) chain_ledger (Some (chain_cert 7))) as [[id|]|] eqn:E;
    [|discriminate Hs..].
  exists id. split; [reflexivity|].
  destruct (elected_leader_sound (chain_election 1) chain_ledger (Some (chain_cert 7)) id E) as [_ H].
  apply H; [reflexivity|vm_compute; reflexivity].
Defined.

(** The walk visits every second committed block: a certificate leads to the
    parent of the block it certifies, and that block's own certificate certifies
    its parent. In a chain whose authors alternate, with two authors to hold out,
    both recent authors should be held out; the walk finds only one of them, and
    elects the author of the last committed block but one. *)
Theorem walk_skips_blocks :
  (forall n, (n < 6)%N -> b_author (chain_block (n + 1)) ≠ b_author (chain_block n)) /\
  elect_loop 7 (chain_election 2) chain_ledger 0 (Some (chain_cert 7)) ∅ ∅ = Some ({[1; 2; 3]}, {[2]})%N /\
  exists id, electReputationLeader (chain_election 2) chain_ledger (Some (chain_cert 7)) = Some (Some id) /\
    id = b_author (chain_block 5).
Proof.
  split_and!.
  - intros n Hn. assert (n = 0 \/ n = 1 \/ n = 2 \/ n = 3 \/ n = 4 \/ n = 5)%N as H by lia.
    destruct H as [->|[->|[->|[->|[->| ->]]]]]; vm_compute; discriminate.
  - vm_compute. reflexivity.
  - eexists. split; vm_compute; reflexivity.
Qed.

(** The fallback rotation: whatever order the validators are configured in,
    every replica has the same election; each validator leads two consecutive
    rounds, the rotation has period [2 n], and every validator gets its turn. *)
Theorem round_robin (vs vs' : list uint32) (w x : Z) (round : uint64) :
  NoDup vs -> vs ≠ [] -> vs ≡ₚ vs' ->
  let e := NewLeaderElection vs w x in
  let n := N.of_nat (length vs) in
  NewLeaderElection vs' w x = e /\
  GetLeader e (2 * round) = GetLeader e (2 * round + 1) /\
  GetLeader e (round + 2 * n) = GetLeader e round /\
  (exists v, GetLeader e round = Some v /\ v ∈ vs) /\
  (forall v, v ∈ vs -> exists k, (k < n)%N /\ GetLeader e (2 * k) = Some v).
Proof.
  intros Hnd Hne Hp e n.
  assert (length (e_validators e) = length vs) as Hlen by (simpl; by rewrite sort_ids_perm).
  assert (0 < n)%N as Hn by (unfold n; destruct vs; [done|simpl; lia]).
  assert (forall r, GetLeader e r = sort_ids vs !! N.to_nat ((r / 2) mod n)) as HG.
  { intros r. unfold GetLeader. rewrite Hlen. unfold e, NewLeaderElection. cbn [e_reputationLeaders e_validators].
    by rewrite lookup_empty. }
  split_and!.
  - unfold e, NewLeaderElection. by rewrite (sort_ids_unique vs vs').
  - rewrite !HG. rewrite (N.mul_comm 2), N.div_mul by done.
    assert ((round * 2 + 1) / 2 = round)%N as -> by (rewrite N.div_add_l by done; change (1 / 2)%N with 0%N; lia). done.
  - rewrite !HG. rewrite (N.mul_comm 2 n), N.div_add by done.
    assert ((round / 2 + n) mod n = (round / 2) mod n)%N as ->; [|done].
    replace (round / 2 + n)%N with (round / 2 + 1 * n)%N by lia. apply N.Div0.mod_add.
  - rewrite HG. destruct (lookup_lt_is_Some_2 (sort_ids vs) (N.to_nat ((round / 2) mod n))) as [v Hv].
    { rewrite sort_ids_perm. pose proof (N.mod_lt (round / 2) n). unfold n in *. lia. }
    exists v. split; [done|]. apply list_elem_of_lookup_2 in Hv. by rewrite sort_ids_perm in Hv.
  - intros v Hv. rewrite <- sort_ids_perm in Hv. apply list_elem_of_lookup_1 in Hv as [k Hk].
    pose proof (lookup_lt_Some _ _ _ Hk) as Hlt. rewrite sort_ids_perm in Hlt.
    exists (N.of_nat k). split; [unfold n; lia|]. rewrite HG, (N.mul_comm 2), N.div_mul by done.
    rewrite N.mod_small by (unfold n; lia). by rewrite Nat2N.id.
Qed.

Lemma round_robin_witness :
  let e := NewLeaderElection [3; 1; 2]%N 10 1 in
  NewLeaderElection [1; 2; 3]%N 10 1 = e /\ GetLeader e 4 = GetLeader e 5.
Proof.
  destruct (round_robin [3; 1; 2]%N [1; 2; 3]%N 10 1 2) as (H1 & H2 & _).
  - refine (bool_decide_unpack _ _). vm_compute. exact I.
  - discriminate.
  - apply (Permutation_app_comm [3]%N [1; 2]%N).
  - split; [exact H1|exact H2].
Defined.

(** The updates a replica makes, each with the ledger and round it finds. *)
Fixpoint update_all (e : LeaderElection) (us : list (MemLedger * uint64 * option QuorumCert)) : option LeaderElection :=
  match us with
  | [] => Some e
  | (l, c, qc) :: us => e ← UpdateLeaders e l c qc; update_all e us
  end.

(** Certificates of the committed blocks of a ledger do not form a cycle. *)
Definition certs_acyclic (l : MemLedger) : Prop :=
  exists rank : bytes -> nat, forall id b, l_committed l !! id = Some b ->
    rank (VoteInfo_GetParentId (QuorumCert_GetVoteInfo (b_qc b))) < rank id.

(** The elected rounds are at most two: [c] and the one after it. *)
Definition leaders_within (e : LeaderElection) (c : uint64) : Prop :=
  exists b, (b <= c)%N /\ forall k, is_Some (e_reputationLeaders e !! k) -> k = b \/ k = (b + 1)%N.

Lemma electReputationLeader_total e l qc : certs_acyclic l -> is_Some (electReputationLeader e l qc).
Proof.
  intros [rank Hr]. unfold electReputationLeader.
  destruct (elect_loop_total e l rank (Z.to_nat (e_windowSize e) + S (size (l_committed l))) 0 qc ∅ ∅ Hr) as [[a x] ->].
  { pose proof (below_size rank (l_committed l) (rank (VoteInfo_GetParentId (QuorumCert_GetVoteInfo qc)))). lia. }
  cbn [mbind option_bind]. destruct (elements _); eexists; reflexivity.
Qed.

Definition elections_end (e : LeaderElection) (l : MemLedger) : Prop := (e_excludeSize e <= 1)%Z \/ certs_acyclic l.

Lemma elections_end_total e l qc : elections_end e l -> is_Some (electReputationLeader e l qc).
Proof.
  intros [Hx|Ha]; [|by apply electReputationLeader_total]. unfold electReputationLeader.
  destruct (elect_loop_window e l (Z.to_nat (e_windowSize e) + S (size (l_committed l))) 0 qc ∅ ∅ Hx) as [[a x] ->].
  { destruct (_ <? _)%Z; lia. }
  cbn [mbind option_bind]. destruct (elements _); eexists; reflexivity.
Qed.

(** An update keeps the configuration. *)
Lemma UpdateLeaders_same e l c qc e' : UpdateLeaders e l c qc = Some e' ->
  e_validators e' = e_validators e /\ e_windowSize e' = e_windowSize e /\ e_excludeSize e' = e_excludeSize e.
Proof.
  unfold UpdateLeaders. destruct qc; [|by intros [= <-]]. destruct (_ || _); [by intros [= <-]|].
  by intros (out & _ & [= <-])%bind_Some.
Qed.

Lemma UpdateLeaders_within e l c qc :
  elections_end e l -> leaders_within e c -> (c + 1 < two64)%N ->
  exists e', UpdateLeaders e l c qc = Some e' /\ leaders_within e' c.
Proof.
  intros Hl (b & Hb & Hk) Hc. unfold UpdateLeaders. destruct qc as [q|]; [|by exists e; split; [|exists b]].
  destruct (_ || _); [by exists e; split; [|exists b]|].
  destruct (elections_end_total e l (Some q) Hl) as [r ->]. eexists. split; [done|].
  exists c. split; [lia|]. intros k [v Hv]. cbn [e_reputationLeaders] in Hv.
  apply map_lookup_filter_Some in Hv as [Hv Hge]. cbn [fst] in Hge.
  assert (k = c + 1 \/ is_Some (e_reputationLeaders e !! k))%N as [->|Hin].
  { destruct r as [id|]; [|right; by eexists]. rewrite add64_small in Hv by done.
    apply lookup_insert_Some in Hv as [[<- _]|[_ Hv]]; [by left|right; by eexists]. }
  - by right.
  - destruct (Hk k Hin) as [->| ->]; lia.
Qed.

(** However many certificates a replica processes, in rounds that do not go down, the
    table of elected leaders never holds more than two rounds, and every election ends,
    if one author at most is held out or the certificates of committed blocks do not
    lead in a circle. The code does not see to the latter
    ([Net.fetched_block_hangs]). *)
Theorem leaders_bounded (vs : list uint32) (w x : Z) (us : list (MemLedger * uint64 * option QuorumCert)) :
  (forall l c qc, (l, c, qc) ∈ us -> ((x <= 1)%Z \/ certs_acyclic l) /\ (c + 1 < two64)%N) ->
  StronglySorted N.le ((fun u => u.1.2) <$> us) ->
  exists e, update_all (NewLeaderElection vs w x) us = Some e /\ size (e_reputationLeaders e) <= 2.
Proof.
  intros Hus Hs.
  assert (forall e c, leaders_within e c -> size (e_reputationLeaders e) <= 2) as Hsz.
  { intros e c (b & _ & Hk). rewrite <- size_dom. transitivity (size ({[b; (b + 1)%N]} : gset uint64)).
    - apply subseteq_size. intros k Hin%elem_of_dom. destruct (Hk k Hin) as [->| ->]; set_solver.
    - rewrite size_union_alt, size_singleton.
      assert (size (({[(b + 1)%N]} : gset uint64) ∖ {[b]}) <= 1); [|lia].
      rewrite <- (size_singleton (C:=gset uint64) (b + 1)%N). apply subseteq_size. set_solver. }
  assert (forall e c, e_excludeSize e = x -> leaders_within e c -> Forall (N.le c) ((fun u => u.1.2) <$> us) ->
    exists e', update_all e us = Some e' /\ size (e_reputationLeaders e') <= 2) as Hrun.
  { induction us as [|[[l c'] qc] us IH]; intros e c Ex He HF; [by exists e; eauto|]. simpl in *.
    apply Forall_cons in HF as [Hc HF]. apply StronglySorted_inv in Hs as [Hs HF'].
    destruct (Hus l c' qc) as [Hl Hlt]; [by left|].
    destruct (UpdateLeaders_within e l c' qc) as (e' & E & He'); [unfold elections_end; by rewrite Ex| |done|].
    { destruct He as (b & ? & ?). exists b. split; [simpl in Hc; lia|done]. }
    rewrite E. apply UpdateLeaders_same in E as (_ & _ & E). simpl. eapply IH; [|done|by rewrite E|exact He'|exact HF']. intros l0 c0 qc0 Hin. apply (Hus l0 c0 qc0). by right. }
  apply (Hrun _ 0%N).
  - done.
  - exists 0%N. split; [lia|]. intros k [v Hv]. simpl in Hv. by rewrite lookup_empty in Hv.
  - apply Forall_forall. intros c _. lia.
Qed.

Lemma chain_acyclic : certs_acyclic chain_ledger.
Proof.
  exists (fun id => N.to_nat (be_val id)). intros id b Hb.
  assert (map_Forall (fun id b => (be_val (VoteInfo_GetParentId (QuorumCert_GetVoteInfo (b_qc b))) < be_val id)%N)
    (l_committed chain_ledger)) as HF by (refine (bool_decide_unpack _ _); vm_compute; exact I).
  pose proof (HF id b Hb) as H. cbn in H. lia.
Qed.

Lemma leaders_bounded_witness :
  exists e, update_all (NewLeaderElection [1; 2; 3]%N 10 1)
      [(chain_ledger, 8, Some (chain_cert 7)); (chain_ledger, 9, Some (chain_cert 8))]%N = Some e /\
    size (e_reputationLeaders e) <= 2.
Proof.
  apply leaders_bounded.
  - intros l c qc [H|[H|[]%not_elem_of_nil]%elem_of_cons]%elem_of_cons; injection H as -> -> ->;
      (split; [right; exact chain_acyclic|vm_compute; reflexivity]).
  - repeat constructor; vm_compute; discriminate.
Defined.
