(* ===== verification/Core.v ===== *)
(** [diem/core.go]: the event loop that dispatches to the other modules. Its
    operations run in a small monad over the replica's state: they thread the
    state, collect the effects in order and may fail, [None] standing for a panic
    or for a loop that does not end.

    A call finds a signer ([cr]) and the transactions its payload source would
    hand out ([txns]); both may differ from one event to the next. *)

From stdpp Require Import prelude gmap list fin_maps sorting.
From Stdlib Require Import NArith ZArith Lia Strings.Byte.
From S2P Require Import Prelude Sha256 Proto Hash Types Quorum Verify Orphans Ledger BlockTree Safety Agreement.
From S2P Require Import Seams Pacemaker Leader.

Record Core := MkCore {
  c_id : uint32;
  c_ledger : MemLedger;
  c_tree : BlockTree;
  c_safety : Safety;
  c_pacemaker : Pacemaker;
  c_leaders : LeaderElection;
  (** Whether an observer is configured. *)
  c_observe : bool;
}.

Record Config := MkConfig {
  cfg_ID : uint32;
  cfg_Validators : list uint32;
  cfg_Ledger : MemLedger;
  cfg_Crypto : Crypto;
  cfg_Backoff : Backoff;
  cfg_WindowSize : Z;
  cfg_ExcludeSize : Z;
  cfg_Observer : bool;
}.

Definition defaultWindowSize : Z := 10.
Definition maxRoundLead : uint64 := 4.

Definition New (cfg : Config) : option Core :=
  let n := Z.of_nat (length (cfg_Validators cfg)) in
  let quorum := QuorumSize n in
  let faulty := Faulty n in
  let window := if (cfg_WindowSize cfg =? 0)%Z then defaultWindowSize else cfg_WindowSize cfg in
  let exclude := if (cfg_ExcludeSize cfg =? 0)%Z then Z.max faulty 1 else cfg_ExcludeSize cfg in
  if (l_History (cfg_Ledger cfg) <? window + exclude)%Z then None
  else Some (MkCore (cfg_ID cfg) (cfg_Ledger cfg) (NewBlockTree (cfg_ID cfg) quorum)
               (NewSafety (cfg_ID cfg) (NewVerifier (cfg_Crypto cfg) quorum))
               (NewPacemaker quorum faulty (cfg_Backoff cfg))
               (NewLeaderElection (cfg_Validators cfg) window exclude) (cfg_Observer cfg)).

Definition CoreState (c : Core) : State :=
  MkState (CurrentRound (c_pacemaker c)) (QCRound (HighQC (c_tree c))) (QCRound (HighCommitQC (c_tree c)))
    (HighestVoteRound (c_safety c)) (HighestQCRound (c_safety c)) (DeclinedMissingAncestor (c_safety c)).

(** ** The monad *)

Definition M (A : Type) : Type := Core -> option (A * Core * list effect).

Global Instance M_ret : MRet M := fun A x c => Some (x, c, []).
Global Instance M_bind : MBind M := fun A B f m c =>
  match m c with
  | None => None
  | Some (a, c1, es1) => match f a c1 with None => None | Some (b, c2, es2) => Some (b, c2, es1 ++ es2) end
  end.

Definition gets {A} (f : Core -> A) : M A := fun c => Some (f c, c, []).
Definition emit (e : effect) : M unit := fun c => Some (tt, c, [e]).
Definition fails_or {A} (f : Core -> option A) : M A := fun c => x ← f c; Some (x, c, []).
Definition set_parts (c : Core) (l : MemLedger) (t : BlockTree) (s : Safety) (p : Pacemaker) (e : LeaderElection) : Core :=
  MkCore (c_id c) l t s p e (c_observe c).

Section core.
Context `{RangeOrder} `{FloatConv} (cr : Crypto) (txns : list bytes).

(** *** Calls to the modules *)

Definition treeProcessQC (qc : option QuorumCert) : M unit := fun c =>
  '(l, t) ← ProcessQC (c_ledger c) (c_tree c) qc;
  Some (tt, set_parts c l t (c_safety c) (c_pacemaker c) (c_leaders c), []).
Definition treeExecuteAndInsert (b : Block) : M unit := fun c =>
  let '(l, t) := ExecuteAndInsert (c_ledger c) (c_tree c) b in
  Some (tt, set_parts c l t (c_safety c) (c_pacemaker c) (c_leaders c), []).
Definition treeProcessVote (m : VoteMsg) : M (option QuorumCert) := fun c =>
  '(l, t, qc) ← ProcessVote cr (c_ledger c) (c_tree c) m;
  Some (qc, set_parts c l t (c_safety c) (c_pacemaker c) (c_leaders c), []).
Definition safetyMakeVote (b : Block) (tc : option TimeoutCert) : M (option VoteMsg) := fun c =>
  let '(s, v) := MakeVote cr (c_safety c) (c_ledger c) (c_tree c) b tc in
  Some (v, set_parts c (c_ledger c) (c_tree c) s (c_pacemaker c) (c_leaders c), []).
Definition leadersUpdate (qc : option QuorumCert) : M unit := fun c =>
  e ← UpdateLeaders (c_leaders c) (c_ledger c) (CurrentRound (c_pacemaker c)) qc;
  Some (tt, set_parts c (c_ledger c) (c_tree c) (c_safety c) (c_pacemaker c) e, []).
Definition pmAdvanceRoundQC (qc : option QuorumCert) : M bool := fun c =>
  let '(p, es, moved) := AdvanceRoundQC (c_pacemaker c) qc in
  Some (moved, set_parts c (c_ledger c) (c_tree c) (c_safety c) p (c_leaders c), es).
Definition pmAdvanceRoundTC (tc : option TimeoutCert) : M bool := fun c =>
  let '(p, es, moved) := AdvanceRoundTC (c_pacemaker c) tc in
  Some (moved, set_parts c (c_ledger c) (c_tree c) (c_safety c) p (c_leaders c), es).
Definition pmLocalTimeoutRound : M unit := fun c =>
  let '(p, s, es) := LocalTimeoutRound cr (c_pacemaker c) (c_safety c) (c_tree c) in
  Some (tt, set_parts c (c_ledger c) (c_tree c) s p (c_leaders c), es).
Definition pmProcessRemoteTimeout (m : TimeoutMsg) : M (option TimeoutCert) := fun c =>
  let '(p, s, es, tc) := ProcessRemoteTimeout cr (c_pacemaker c) (c_safety c) (c_tree c) m in
  Some (tc, set_parts c (c_ledger c) (c_tree c) s p (c_leaders c), es).
Definition getLeader (round : uint64) : M uint32 := fails_or (fun c => GetLeader (c_leaders c) round).

(** *** The handlers *)

Definition processCertificateQC (qc : option QuorumCert) : M bool :=
  match qc with
  | None => mret false
  | Some _ => _ ← treeProcessQC qc; _ ← leadersUpdate qc; pmAdvanceRoundQC qc
  end.

(** An id that is not there (a block without certificate) is not asked for. *)
Definition insert (b : Block) : M unit :=
  _ ← treeExecuteAndInsert b;
  missing ← fails_or (fun c => Missing (c_ledger c) (b_id b));
  match missing with
  | Some id => if bool_decide (id = []) then mret tt else emit (NetRequestBlock id)
  | None => mret tt
  end.

Definition processProposalMsg (p : ProposalMsg) : M unit :=
  let block := pm_block p in
  _ ← processCertificateQC (Block_GetQc block);
  _ ← processCertificateQC (pm_high_commit_qc p);
  _ ← pmAdvanceRoundTC (pm_last_round_tc p);
  round ← gets (fun c => CurrentRound (c_pacemaker c));
  leader ← getLeader round;
  if negb (Block_GetRound block =? round)%N || negb (pm_sender p =? leader)%N
     || negb (Block_GetAuthor block =? leader)%N then mret tt
  else
    let block := default zeroBlock block in
    _ ← insert block;
    vote ← safetyMakeVote block (pm_last_round_tc p);
    match vote with
    | None => mret tt
    | Some v => to ← getLeader (round +u64 1); emit (NetVote v to)
    end.

Definition processNewRoundEvent (lastTC : option TimeoutCert) : M unit :=
  round ← gets (fun c => CurrentRound (c_pacemaker c));
  leader ← getLeader round;
  id ← gets c_id;
  if negb (leader =? id)%N then mret tt
  else
    b ← gets (fun c => GenerateBlock (c_tree c) txns round);
    match sign cr id (b_id b) with
    | None => mret tt
    | Some sig =>
        highCommitQC ← gets (fun c => HighCommitQC (c_tree c));
        emit (NetProposal (MkProposalMsg (Some b) (justifyingTC (QCRound (b_qc b)) round lastTC) highCommitQC id (Some sig)))
    end.

Definition processTimeoutMsg (m : TimeoutMsg) : M unit :=
  _ ← processCertificateQC (TimeoutInfo_GetHighQc (tm_tmo_info m));
  _ ← processCertificateQC (tm_high_commit_qc m);
  _ ← pmAdvanceRoundTC (tm_last_round_tc m);
  tc ← pmProcessRemoteTimeout m;
  match tc with
  | None => mret tt
  | Some _ => _ ← pmAdvanceRoundTC tc; processNewRoundEvent tc
  end.

Definition processVoteMsg (m : VoteMsg) : M unit :=
  let round := VoteInfo_GetRound (vm_vote_info m) in
  current ← gets (fun c => CurrentRound (c_pacemaker c));
  if (current +u64 maxRoundLead <? round)%N || (round +u64 1 <? current)%N then mret tt
  else
    qc ← treeProcessVote m;
    match qc with
    | None => mret tt
    | Some _ =>
        moved ← processCertificateQC qc;
        if negb moved then mret tt else processNewRoundEvent None
    end.

Definition serveBlock (id : bytes) : M unit :=
  b ← gets (fun c => match PendingBlock (c_tree c) id with
                     | Some b => Some b
                     | None => CommittedBlock (c_ledger c) id
                     end);
  emit (ReplyBlock b).

Definition Start : M unit := _ ← pmAdvanceRoundQC (Some genesisQC); processNewRoundEvent None.

Definition CoreStop : M unit := fun c =>
  let '(p, es) := Pacemaker.Stop (c_pacemaker c) in
  Some (tt, set_parts c (c_ledger c) (c_tree c) (c_safety c) p (c_leaders c), es).

Definition dispatch (e : Event) : M unit :=
  match e with
  | ProposalEvent m => processProposalMsg m
  | VoteEvent m => processVoteMsg m
  | TimeoutEvent m => processTimeoutMsg m
  | LocalTimeoutEvent epoch =>
      current ← gets (fun c => Epoch (c_pacemaker c));
      if (epoch =? current)%N then pmLocalTimeoutRound else mret tt
  | BlockEvent b => insert b
  | BlockRequestEvent id => serveBlock id
  end.

(** The observer runs deferred, on the state the event left. *)
Definition Step (e : Event) : M unit :=
  _ ← dispatch e;
  obs ← gets c_observe;
  if (obs : bool) then st ← gets CoreState; emit (Observe e st) else mret tt.
End core.

(** ** Reasoning about handlers

    A relation between the state before, the effects and the state after that is
    closed under sequencing holds of a handler if it holds of every call the
    handler makes. *)

Class TraceRel (R : Core -> list effect -> Core -> Prop) : Prop := {
  tr_refl : forall c, R c [] c;
  tr_trans : forall c1 es1 c2 es2 c3, R c1 es1 c2 -> R c2 es2 c3 -> R c1 (es1 ++ es2) c3;
}.

Definition does {A} (R : Core -> list effect -> Core -> Prop) (m : M A) : Prop :=
  forall c a c' es, m c = Some (a, c', es) -> R c es c'.

Section does.
Context (R : Core -> list effect -> Core -> Prop) `{!TraceRel R}.

Lemma does_ret {A} (x : A) : does R (mret x).
Proof. intros c a c' es [= <- <- <-]. apply tr_refl. Qed.
Lemma does_bind {A B} (m : M A) (f : A -> M B) : does R m -> (forall a, does R (f a)) -> does R (x ← m; f x).
Proof.
  intros Hm Hf c b c' es E. unfold mbind, M_bind in E. destruct (m c) as [[[a c1] es1]|] eqn:Em; [|done].
  destruct (f a c1) as [[[b' c2] es2]|] eqn:Ef; [|done]. injection E as <- <- <-. eapply tr_trans; [by eapply Hm|by eapply Hf].
Qed.
Lemma does_gets {A} (f : Core -> A) : does R (gets f).
Proof. intros c a c' es [= <- <- <-]. apply tr_refl. Qed.
Lemma does_fails_or {A} (f : Core -> option A) : does R (fails_or f).
Proof. intros c a c' es (x & _ & [= <- <- <-])%bind_Some. apply tr_refl. Qed.
Lemma does_emit e : (forall c, R c [e] c) -> does R (emit e).
Proof. intros He c a c' es [= <- <- <-]. apply He. Qed.
End does.

Ltac does_step :=
  match goal with
  | |- does ?R (mret _) => apply (does_ret R)
  | |- does ?R (mbind _ _) => apply (does_bind R); [|intros ?]
  | |- does ?R (gets _) => apply (does_gets R)
  | |- does ?R (fails_or _) => apply (does_fails_or R)
  | |- does _ (if ?b then _ else _) => destruct b
  | |- does _ (match ?o with _ => _ end) => destruct o
  end.

Section calls.
Context `{RangeOrder} `{FloatConv} (cr : Crypto) (txns : list bytes).
Context (R : Core -> list effect -> Core -> Prop) `{!TraceRel R}.
Context (D : Block -> option TimeoutCert -> Prop).

(** What a relation has to hold of: the calls to the modules, and the messages. [D]
    is what may be voted on. *)
Record calls_ok : Prop := {
  co_qc : forall qc, does R (treeProcessQC qc);
  co_insert : forall b, does R (treeExecuteAndInsert b);
  co_vote : forall m, does R (treeProcessVote cr m);
  co_update : forall qc, does R (leadersUpdate qc);
  co_advQC : forall qc, does R (pmAdvanceRoundQC qc);
  co_advTC : forall tc, does R (pmAdvanceRoundTC tc);
  co_local : does R (pmLocalTimeoutRound cr);
  co_remote : forall m, does R (pmProcessRemoteTimeout cr m);
  co_cast : forall b tc round, D b tc -> does R (vote ← safetyMakeVote cr b tc;
    match vote with None => mret tt | Some v => to ← getLeader (round +u64 1); emit (NetVote v to) end);
  co_request : forall id c, R c [NetRequestBlock id] c;
  co_propose : forall m c, R c [NetProposal m] c;
  co_reply : forall b c, R c [ReplyBlock b] c;
  co_observe : forall e s c, R c [Observe e s] c;
}.

(** A relation that ignores the effects and all but the ledger, the tree and the
    observer has only the tree's operations to hold of. *)
Lemma calls_ok_tree :
  (forall c es c', c_tree c' = c_tree c -> c_ledger c' = c_ledger c -> c_observe c' = c_observe c -> R c es c') ->
  (forall qc, does R (treeProcessQC qc)) -> (forall b, does R (treeExecuteAndInsert b)) ->
  (forall m, does R (treeProcessVote cr m)) -> calls_ok.
Proof.
  intros Hsame Hqc Hins Hvote. split; try done; try (intros; by apply Hsame).
  - intros qc c a c' es (e & _ & [= <- <- <-])%bind_Some. by apply Hsame.
  - intros qc c a c' es E. unfold pmAdvanceRoundQC in E. destruct (AdvanceRoundQC _ _) as [[p es1] mv].
    injection E as <- <- <-. by apply Hsame.
  - intros tc c a c' es E. unfold pmAdvanceRoundTC in E. destruct (AdvanceRoundTC _ _) as [[p es1] mv].
    injection E as <- <- <-. by apply Hsame.
  - intros c a c' es E. unfold pmLocalTimeoutRound in E. destruct (LocalTimeoutRound _ _ _ _) as [[p s] es1].
    injection E as <- <- <-. by apply Hsame.
  - intros m c a c' es E. unfold pmProcessRemoteTimeout in E.
    destruct (ProcessRemoteTimeout _ _ _ _ _) as [[[p s] es1] tc]. injection E as <- <- <-. by apply Hsame.
  - intros b tc round _ c a c' es E. unfold mbind, M_bind, safetyMakeVote in E.
    destruct (MakeVote _ _ _ _ _ _) as [s [v|]]; [|injection E as <- <- <-; by apply Hsame].
    unfold getLeader, fails_or in E. simpl in E. destruct (GetLeader _ _) as [to|]; [|done].
    simpl in E. injection E as <- <- <-. by apply Hsame.
Qed.

Context (Hco : calls_ok).

Lemma does_processCertificateQC qc : does R (processCertificateQC qc).
Proof. unfold processCertificateQC. repeat does_step; apply Hco. Qed.

Lemma does_insert b : does R (insert b).
Proof.
  unfold insert. does_step; [apply Hco|]. does_step; [by apply does_fails_or|].
  repeat does_step. apply does_emit. apply Hco.
Qed.

Lemma does_processNewRoundEvent tc : does R (processNewRoundEvent cr txns tc).
Proof.
  unfold processNewRoundEvent. does_step; [by apply does_gets|]. does_step; [by apply does_fails_or|].
  does_step; [by apply does_gets|]. does_step; [by apply does_ret|]. does_step; [by apply does_gets|].
  does_step; [|by apply does_ret]. does_step; [by apply does_gets|]. apply does_emit. apply Hco.
Qed.

(** The vote a proposal asks for. *)
Definition votable (e : Event) : Prop :=
  match e with ProposalEvent m => D (default zeroBlock (pm_block m)) (pm_last_round_tc m) | _ => True end.

Lemma does_dispatch e : votable e -> does R (dispatch cr txns e).
Proof.
  intros Hd. destruct e as [m|m|m|ep|b|id]; simpl.
  - unfold processProposalMsg. do 2 (does_step; [apply does_processCertificateQC|]).
    does_step; [apply Hco|]. does_step; [by apply does_gets|]. does_step; [by apply does_fails_or|].
    does_step; [by apply does_ret|]. does_step; [apply does_insert|]. by apply Hco.
  - unfold processVoteMsg. does_step; [by apply does_gets|]. does_step; [by apply does_ret|].
    does_step; [apply Hco|]. does_step; [|by apply does_ret]. does_step; [apply does_processCertificateQC|].
    does_step; [by apply does_ret|apply does_processNewRoundEvent].
  - unfold processTimeoutMsg. do 2 (does_step; [apply does_processCertificateQC|]).
    does_step; [apply Hco|]. does_step; [apply Hco|]. does_step; [|by apply does_ret].
    does_step; [apply Hco|apply does_processNewRoundEvent].
  - does_step; [by apply does_gets|]. does_step; [apply Hco|by apply does_ret].
  - apply does_insert.
  - unfold serveBlock. does_step; [by apply does_gets|]. apply does_emit. apply Hco.
Qed.

Lemma does_Step e : votable e -> does R (Step cr txns e).
Proof.
  intros Hd. unfold Step. does_step; [by apply does_dispatch|]. does_step; [by apply does_gets|].
  does_step; [|by apply does_ret]. does_step; [by apply does_gets|]. apply does_emit. apply Hco.
Qed.

Lemma does_Start : does R (Start cr txns).
Proof. unfold Start. does_step; [apply Hco|apply does_processNewRoundEvent]. Qed.
End calls.

(** ** Histories of a replica *)

Definition cast (h : list safety_event) : list (option VoteInfo * option LedgerCommitInfo) :=
  omap (fun e => match e with EVote _ _ vi ci => Some (Some vi, Some ci) | ETimeout _ _ _ => None end) h.
Definition given_up (h : list safety_event) : list (uint64 * option QuorumCert) :=
  omap (fun e => match e with ETimeout r qc _ => Some (r, qc) | EVote _ _ _ _ => None end) h.
Definition votes_on_wire (es : list effect) : list (option VoteInfo * option LedgerCommitInfo) :=
  (fun m => (vm_vote_info m, vm_ledger_commit_info m)) <$> sent_votes es.
Definition timeouts_on_wire (es : list effect) : list (uint64 * option QuorumCert) :=
  (fun m => (TimeoutInfo_GetRound (tm_tmo_info m), TimeoutInfo_GetHighQc (tm_tmo_info m))) <$> sent_timeouts es.

(** Every vote of a history is one of [D], every timeout for a round in range. *)
Record drawn (D : Block -> option TimeoutCert -> Prop) (h : list safety_event) : Prop := {
  dr_vote : forall b tc vi ci, EVote b tc vi ci ∈ h -> D b tc;
  dr_timeout : forall r qc tc, ETimeout r qc tc ∈ h -> (r < two64)%N;
}.

Lemma drawn_nil D : drawn D [].
Proof. split; intros * []%elem_of_nil. Qed.
Lemma drawn_app D h h' : drawn D h -> drawn D h' -> drawn D (h ++ h').
Proof. intros [V T] [V' T']. split; intros * [?|?]%elem_of_app; eauto. Qed.
#[local] Hint Resolve drawn_nil : core.

Definition round_ok (c : Core) : Prop := (CurrentRound (c_pacemaker c) < two64)%N.

(** The Safety module went through a run that accounts for everything sent. *)
Definition tracks (id : uint32) (ver : Verifier) (D : Block -> option TimeoutCert -> Prop)
    (c : Core) (es : list effect) (c' : Core) : Prop :=
  forall h, safety_run id ver h (c_safety c) -> round_ok c ->
  exists h', safety_run id ver (h ++ h') (c_safety c') /\ round_ok c' /\
    votes_on_wire es = cast h' /\ timeouts_on_wire es = given_up h' /\ drawn D h'.

Lemma wire_app es es' :
  votes_on_wire (es ++ es') = votes_on_wire es ++ votes_on_wire es' /\
  timeouts_on_wire (es ++ es') = timeouts_on_wire es ++ timeouts_on_wire es'.
Proof. unfold votes_on_wire, timeouts_on_wire, sent_votes, sent_timeouts. by rewrite !omap_app, !fmap_app. Qed.

Lemma wire_history es es' h h' :
  votes_on_wire es = cast h -> timeouts_on_wire es = given_up h ->
  votes_on_wire es' = cast h' -> timeouts_on_wire es' = given_up h' ->
  votes_on_wire (es ++ es') = cast (h ++ h') /\ timeouts_on_wire (es ++ es') = given_up (h ++ h').
Proof. intros V T V' T'. destruct (wire_app es es') as [-> ->]. unfold cast, given_up in *. rewrite !omap_app. split; congruence. Qed.

Global Instance tracks_rel id ver D : TraceRel (tracks id ver D).
Proof.
  split.
  - intros c h Hh Hr. exists []. rewrite app_nil_r. split_and!; auto.
  - intros c1 es1 c2 es2 c3 H1 H2 h Hh Hr. destruct (H1 h Hh Hr) as (h1 & Hh1 & Hr1 & V1 & T1 & D1).
    destruct (H2 _ Hh1 Hr1) as (h2 & Hh2 & Hr2 & V2 & T2 & D2). exists (h1 ++ h2). rewrite (assoc_L (++)). split; [done|].
    destruct (wire_history _ _ _ _ V1 T1 V2 T2). split_and!; [done..|by apply drawn_app].
Qed.

Section history.
Context `{RangeOrder} `{FloatConv} (id : uint32) (ver : Verifier) (D : Block -> option TimeoutCert -> Prop) (cr : Crypto).

(** A call that leaves Safety alone and sends neither votes nor timeouts. *)
Lemma tracks_silent c es c' :
  c_safety c' = c_safety c -> (round_ok c -> round_ok c') -> sent_votes es = [] -> sent_timeouts es = [] ->
  tracks id ver D c es c'.
Proof.
  intros E Hr V T h Hh Hc. exists []. rewrite app_nil_r, E. split; [done|]. split; [by apply Hr|].
  unfold votes_on_wire, timeouts_on_wire. rewrite V, T. auto.
Qed.

Lemma startTimer_silent p r : sent_votes (startTimer p r).2 = [] /\ sent_timeouts (startTimer p r).2 = [].
Proof. rewrite startTimer_eq. simpl. by destruct (p_timer p). Qed.

Lemma Stop_silent p : sent_votes (Pacemaker.Stop p).2 = [] /\ sent_timeouts (Pacemaker.Stop p).2 = [].
Proof. simpl. by destruct (p_timer p). Qed.

Lemma tracks_LocalTimeout p s t p' s' es c c' :
  LocalTimeoutRound cr p s t = (p', s', es) -> c_safety c = s -> c_safety c' = s' ->
  p_currentRound p = CurrentRound (c_pacemaker c) -> c_pacemaker c' = p' -> tracks id ver D c es c'.
Proof.
  intros (es1 & es2 & -> & Est & Hr)%LocalTimeoutRound_inv E E' Ep Ep' h Hh Hc. rewrite E in Hh. rewrite E'.
  assert (round_ok c') as Hc'.
  { unfold round_ok. rewrite Ep'. rewrite startTimer_eq in Est. injection Est as <- _. by rewrite Ep. }
  destruct (startTimer_silent p (p_currentRound p)) as [V T]. rewrite Est in V, T. cbn [snd] in V, T.
  destruct (wire_app es1 es2) as [-> ->]. unfold votes_on_wire at 1, timeouts_on_wire at 1. rewrite V, T. cbn [fmap list_fmap app].
  destruct Hr as [[-> Hm]|(i & Hm & ->)].
  - exists []. rewrite app_nil_r. split; [by eapply run_timeout_none|]. auto.
  - exists [ETimeout (p_currentRound p) (HighQC t) (p_lastRoundTC p)]. split; [by eapply run_timeout|].
    split; [done|]. destruct (MakeTimeout_some _ _ _ _ _ _ _ Hm) as (sig & _ & -> & _). split_and!; [done..|].
    split; [by intros * ?%list_elem_of_singleton|]. intros * [= -> _ _]%list_elem_of_singleton. by rewrite Ep.
Qed.

Lemma tracks_calls : calls_ok cr (tracks id ver D) D.
Proof.
  split.
  - intros qc c a c' es ([l t] & _ & [= <- <- <-])%bind_Some. by apply tracks_silent.
  - intros b c a c' es E. unfold treeExecuteAndInsert in E. destruct (ExecuteAndInsert _ _ _) as [l t].
    injection E as <- <- <-. by apply tracks_silent.
  - intros m c a c' es ([[l t] qc] & _ & [= <- <- <-])%bind_Some. by apply tracks_silent.
  - intros qc c a c' es (e & _ & [= <- <- <-])%bind_Some. by apply tracks_silent.
  - intros qc c a c' es E. unfold pmAdvanceRoundQC in E. rewrite AdvanceRoundQC_eq in E. destruct (_ <? _)%N.
    + injection E as <- <- <-. by apply tracks_silent.
    + cbv zeta in E. apply (inj Some) in E. unpair E. apply tracks_silent; [done|intros _; apply add64_lt|apply startTimer_silent..].
  - intros tc c a c' es E. unfold pmAdvanceRoundTC in E. rewrite AdvanceRoundTC_eq in E.
    destruct tc as [t|]; [|injection E as <- <- <-; by apply tracks_silent]. destruct (_ <? _)%N.
    + injection E as <- <- <-. by apply tracks_silent.
    + cbv zeta in E. apply (inj Some) in E. unpair E. apply tracks_silent; [done|intros _; apply add64_lt|apply startTimer_silent..].
  - intros c a c' es E. unfold pmLocalTimeoutRound in E. destruct (LocalTimeoutRound _ _ _ _) as [[p s] es1] eqn:El.
    injection E as <- <- <-. by eapply (tracks_LocalTimeout (c_pacemaker c)).
  - intros m c a c' es E. unfold pmProcessRemoteTimeout in E.
    destruct (ProcessRemoteTimeout _ _ _ _ _) as [[[p s] es1] tc] eqn:El. injection E as <- <- <-.
    apply ProcessRemoteTimeout_inv in El as [(_ & -> & -> & -> & _)|[(_ & _ & -> & -> & -> & _)|(_ & _ & Hc & _)]];
      [apply tracks_silent; done || exact (fun E => E)..|].
    destruct Hc as [(_ & -> & -> & ->)|(_ & es2 & -> & El)]; [apply tracks_silent; done || exact (fun E => E)|].
    eapply (@tr_trans _ (tracks_rel id ver D) _ _ c); [apply tracks_silent; [done|done|apply Stop_silent..]|].
    by eapply tracks_LocalTimeout.
  - intros b tc round Hd c a c' es E. unfold mbind, M_bind, safetyMakeVote in E.
    destruct (MakeVote _ _ _ _ _ _) as [s v] eqn:Ev. intros h Hh Hr. destruct v as [v|].
    + unfold getLeader, fails_or in E. simpl in E. destruct (GetLeader _ _) as [to|]; [|done]. simpl in E.
      injection E as <- <- <-. destruct (MakeVote_some _ _ _ _ _ _ _ _ Ev) as (vi & ci & sig & _ & -> & _).
      exists [EVote b tc vi ci]. split; [by eapply run_vote|]. split_and!; [done..|].
      split; [by intros * [= -> -> _ _]%list_elem_of_singleton|by intros * ?%list_elem_of_singleton].
    + injection E as <- <- <-. exists []. rewrite app_nil_r. split; [by eapply run_vote_none|]. auto.
  - intros i c. by apply tracks_silent.
  - intros m c. by apply tracks_silent.
  - intros b c. by apply tracks_silent.
  - intros e s c. by apply tracks_silent.
Qed.
End history.

Lemma run_vote_rounds id ver h s :
  safety_run id ver h s -> forall b tc vi ci, EVote b tc vi ci ∈ h -> vi_round vi = b_round b.
Proof.
  intros Hr b tc vi ci He. destruct (ho_vote _ _ (run_history_ok _ _ _ _ Hr) _ _ _ _ He) as (s1 & s2 & _ & Hv).
  by destruct (vt_info _ _ _ _ _ _ Hv) as [exec ->].
Qed.

Lemma cast_sorted h :
  (forall b tc vi ci, EVote b tc vi ci ∈ h -> vi_round vi = b_round b) -> StronglySorted signed_before h ->
  StronglySorted N.lt ((fun v : option VoteInfo * option LedgerCommitInfo => VoteInfo_GetRound v.1) <$> cast h).
Proof.
  intros Hr. induction 1 as [|e h Hh IH HF]; [constructor|].
  assert (forall b tc vi ci, EVote b tc vi ci ∈ h -> vi_round vi = b_round b) as Hr' by (intros; eapply Hr; by right).
  destruct e as [b tc vi ci|r qc tc]; [|by apply IH]. simpl. constructor; [by apply IH|].
  apply Forall_fmap, Forall_forall. intros v (e & He & Hv)%list_elem_of_omap. rewrite Forall_forall in HF.
  destruct e as [b' tc' vi' ci'|]; [|done]. injection Hv as <-. specialize (HF _ He). simpl in HF |- *.
  rewrite (Hr b tc vi ci) by (by left). by rewrite (Hr' _ _ _ _ He).
Qed.

Lemma given_up_sorted h : StronglySorted signed_before h -> StronglySorted N.le (fst <$> given_up h).
Proof.
  induction 1 as [|e h Hh IH HF]; [constructor|]. destruct e as [b tc vi ci|r qc tc]; [by apply IH|].
  simpl. constructor; [by apply IH|]. apply Forall_fmap, Forall_forall. intros v (e & He & Hv)%list_elem_of_omap.
  rewrite Forall_forall in HF. destruct e as [|r' qc' tc']; [done|]. injection Hv as <-.
  specialize (HF _ He). simpl in *. lia.
Qed.

(** ** Runs of a replica

    A core made by [New], started, fed events and stopped, in any order; the
    effects come in the order they happened. *)
Inductive replica_run `{RangeOrder} `{FloatConv} (cfg : Config) : list effect -> Core -> Prop :=
  | replica_new c : New cfg = Some c -> replica_run cfg [] c
  | replica_start es c cr txns c' es' :
      replica_run cfg es c -> Start cr txns c = Some (tt, c', es') -> replica_run cfg (es ++ es') c'
  | replica_event es c cr txns e c' es' :
      replica_run cfg es c -> Step cr txns e c = Some (tt, c', es') -> replica_run cfg (es ++ es') c'
  | replica_stop es c c' es' :
      replica_run cfg es c -> CoreStop c = Some (tt, c', es') -> replica_run cfg (es ++ es') c'.

Definition cfg_verifier (cfg : Config) : Verifier :=
  NewVerifier (cfg_Crypto cfg) (QuorumSize (Z.of_nat (length (cfg_Validators cfg)))).

(** Up to now the replica signed [h], and sent that and no more. *)
Record accounted (id : uint32) (ver : Verifier) (D : Block -> option TimeoutCert -> Prop)
    (h : list safety_event) (es : list effect) (c : Core) : Prop := {
  ac_run : safety_run id ver h (c_safety c);
  ac_round : round_ok c;
  ac_votes : votes_on_wire es = cast h;
  ac_timeouts : timeouts_on_wire es = given_up h;
  ac_drawn : drawn D h;
}.

Lemma accounted_new cfg c D : New cfg = Some c -> accounted (cfg_ID cfg) (cfg_verifier cfg) D [] [] c.
Proof.
  intros E. unfold New in E. destruct (_ <? _)%Z; [done|]. apply (inj Some) in E as <-.
  split; [constructor|done..|apply drawn_nil].
Qed.
Lemma accounted_step id ver D es c es' c' :
  (exists h, accounted id ver D h es c) -> tracks id ver D c es' c' -> exists h, accounted id ver D h (es ++ es') c'.
Proof.
  intros (h & [R O V T Dh]) Ht. destruct (Ht h R O) as (h' & R' & O' & V' & T' & D'). exists (h ++ h').
  destruct (wire_history _ _ _ _ V T V' T'). split; [done..|by apply drawn_app].
Qed.
Lemma accounted_silent id ver D h es es' c :
  sent_votes es' = [] -> sent_timeouts es' = [] -> accounted id ver D h (es ++ es') c -> accounted id ver D h es c.
Proof.
  intros V T [R O V' T' Dh]. destruct (wire_app es es') as [W1 W2]. rewrite W1 in V'. rewrite W2 in T'.
  unfold votes_on_wire at 2 in V'. unfold timeouts_on_wire at 2 in T'. rewrite V in V'. rewrite T in T'.
  cbn in V', T'. rewrite app_nil_r in V', T'. by split.
Qed.
Lemma tracks_stop id ver D c c' es : CoreStop c = Some (tt, c', es) -> tracks id ver D c es c'.
Proof.
  intros E. unfold CoreStop in E. cbn [Pacemaker.Stop] in E. injection E as <- <-.
  apply tracks_silent; [done|done|apply (Stop_silent (c_pacemaker c))..].
Qed.

Lemma replica_run_history `{RangeOrder} `{FloatConv} cfg es c :
  replica_run cfg es c ->
  exists h, safety_run (cfg_ID cfg) (cfg_verifier cfg) h (c_safety c) /\
    votes_on_wire es = cast h /\ timeouts_on_wire es = given_up h.
Proof.
  intros Hrun. enough (exists h, accounted (cfg_ID cfg) (cfg_verifier cfg) (fun _ _ => True) h es c) as (h & [? _ ? ? _]) by eauto.
  revert Hrun.
  induction 1 as [c E|es c cr txns c' es' _ IH E|es c cr txns e c' es' _ IH E|es c c' es' _ IH E].
  - exists []. by apply accounted_new.
  - eapply accounted_step; [exact IH|]. exact (does_Start cr txns _ _ (tracks_calls _ _ _ cr) _ _ _ _ E).
  - eapply accounted_step; [exact IH|]. refine (does_Step cr txns _ _ (tracks_calls _ _ _ cr) e _ _ _ _ _ E). by destruct e.
  - eapply accounted_step; [exact IH|]. by apply tracks_stop.
Qed.

(** C5. A replica running this core, whatever events reach it, drives its Safety
    module through a run of [MakeVote] and [MakeTimeout] calls, and the votes and
    the timeouts it puts on the network are, in order, exactly those that this run
    signed. So the hypothesis of the agreement theorems on honest replicas holds
    of every replica that runs this code. *)
Theorem replica_refines_safety `{RangeOrder} `{FloatConv} (cfg : Config) es c :
  replica_run cfg es c ->
  exists h, safety_run (cfg_ID cfg) (cfg_verifier cfg) h (c_safety c) /\
    votes_on_wire es = cast h /\ timeouts_on_wire es = given_up h.
Proof. apply replica_run_history. Qed.

(** What leaves a replica: the rounds of its votes strictly increase over its
    whole life, so it sends at most one vote per round, and the rounds of its
    timeouts never go down. *)
Theorem votes_sent_increase `{RangeOrder} `{FloatConv} (cfg : Config) es c :
  replica_run cfg es c ->
  StronglySorted N.lt ((fun m => VoteInfo_GetRound (vm_vote_info m)) <$> sent_votes es) /\
  StronglySorted N.le ((fun m => TimeoutInfo_GetRound (tm_tmo_info m)) <$> sent_timeouts es).
Proof.
  intros (h & Hh & V & T)%replica_run_history. pose proof (run_sorted _ _ _ _ Hh) as Hs.
  pose proof (run_vote_rounds _ _ _ _ Hh) as Hr. split.
  - replace ((fun m => VoteInfo_GetRound (vm_vote_info m)) <$> sent_votes es)
      with ((fun v : option VoteInfo * option LedgerCommitInfo => VoteInfo_GetRound v.1) <$> votes_on_wire es)
      by (unfold votes_on_wire; by rewrite <- list_fmap_compose).
    rewrite V. by apply cast_sorted.
  - replace ((fun m => TimeoutInfo_GetRound (tm_tmo_info m)) <$> sent_timeouts es)
      with (fst <$> timeouts_on_wire es) by (unfold timeouts_on_wire; by rewrite <- list_fmap_compose).
    rewrite T. by apply given_up_sorted.
Qed.

(** *** A replica on its own

    The transport's local node hands a replica its own messages back. *)
Definition loopback (e : effect) : option Event :=
  match e with
  | NetProposal m => Some (ProposalEvent m)
  | NetVote m _ => Some (VoteEvent m)
  | NetTimeout m => Some (TimeoutEvent m)
  | _ => None
  end.

Fixpoint simulate `{RangeOrder} `{FloatConv} (fuel : nat) (cr : Crypto) (txns : list bytes) (q : list Event)
    (c : Core) (es : list effect) : option (Core * list effect) :=
  match fuel, q with
  | S fuel, e :: q =>
      '(_, c, es') ← Step cr txns e c; simulate fuel cr txns (q ++ omap loopback es') c (es ++ es')
  | _, _ => Some (c, es)
  end.

Lemma simulate_run `{RangeOrder} `{FloatConv} cfg fuel cr txns q c es c' es' :
  replica_run cfg es c -> simulate fuel cr txns q c es = Some (c', es') -> replica_run cfg es' c'.
Proof.
  revert q c es. induction fuel as [|fuel IH]; intros [|e q] c es Hr; simpl; try (by intros [= <- <-]).
  intros ([[[] c1] es1] & E & Hs)%bind_Some. eapply IH; [|exact Hs]. by eapply replica_event.
Qed.

Definition solo_crypto : Crypto :=
  MkCrypto (fun _ => Some [x01]) (fun i _ s => (i =? 1)%N && bool_decide (s = [x01])).
Definition solo_cfg : Config := MkConfig 1 [1%N] NewMemLedger solo_crypto demo_backoff 0 0 true.
Definition solo (fuel : nat) : option (Core * list effect) :=
  c ← New solo_cfg;
  '(_, c, es) ← Start solo_crypto [[x61]] c;
  @simulate canonical_range least_int64 fuel solo_crypto [[x61]] (omap loopback es) c es.

Lemma solo_run fuel c es : solo fuel = Some (c, es) -> @replica_run canonical_range least_int64 solo_cfg es c.
Proof.
  unfold solo. intros (c0 & E0 & (p & E1 & E2)%bind_Some)%bind_Some. destruct p as [[[] c1] es1].
  eapply simulate_run; [|exact E2]. apply (replica_start solo_cfg [] c0 solo_crypto [[x61]] c1 es1); [|exact E1].
  by constructor.
Qed.

Definition solo6 : option (Core * list effect) := solo 6.

Lemma solo6_run c es : solo6 = Some (c, es) -> @replica_run canonical_range least_int64 solo_cfg es c.
Proof. apply solo_run. Qed.

Lemma solo6_some : exists c es, solo6 = Some (c, es) /\
  ((fun m => VoteInfo_GetRound (vm_vote_info m)) <$> sent_votes es) = [1; 2; 3]%N /\
  b_round <$> l_onCommit (c_ledger c) = [1; 2]%N.
Proof.
  assert (option_map (fun r => ((fun m => VoteInfo_GetRound (vm_vote_info m)) <$> sent_votes r.2,
    b_round <$> l_onCommit (c_ledger r.1))) solo6 = Some ([1; 2; 3], [1; 2])%N) as E by (vm_compute; reflexivity).
  destruct solo6 as [[c es]|]; [|discriminate E]. exists c, es. split; [reflexivity|].
  cbn [option_map fst snd] in E. injection E as -> ->. auto.
Qed.

#[local] Opaque solo6.

(** Alone, the replica proposes, votes, certifies and commits: three rounds. *)
Lemma replica_refines_safety_witness :
  exists c es h, solo6 = Some (c, es) /\ length (sent_votes es) = 3 /\
    safety_run 1 (cfg_verifier solo_cfg) h (c_safety c) /\ votes_on_wire es = cast h.
Proof.
  destruct solo6_some as (c & es & E & Hv & _).
  destruct (@replica_refines_safety canonical_range least_int64 solo_cfg es c (solo6_run c es E)) as (h & Hh & Hs & _).
  exists c, es, h. split; [exact E|]. split; [|split; [exact Hh|exact Hs]].
  apply (f_equal length) in Hv. by rewrite length_fmap in Hv.
Defined.

Lemma votes_sent_increase_witness :
  exists c es, solo6 = Some (c, es) /\
    StronglySorted N.lt ((fun m => VoteInfo_GetRound (vm_vote_info m)) <$> sent_votes es).
Proof.
  destruct solo6_some as (c & es & E & _).
  destruct (@votes_sent_increase canonical_range least_int64 solo_cfg es c (solo6_run c es E)) as [H _].
  exists c, es. split; [exact E|exact H].
Defined.

(** ** A replica never gets stuck

    The loops of the ledger end, and no map or slice is indexed out of range, as long
    as the blocks that reach the replica come from a universe in which parent links
    lead down in rank. The walk of leader election follows another link, from a block
    to the parent that its certificate claims for the block it certifies: that one is
    not hashed into the id, so it is an assumption of its own ([fu_certs]), needed as
    soon as more than one author is held out ([Net.fetched_block_hangs]). *)

Record fed_universe (U : Block -> Prop) (rank : bytes -> nat) : Prop := {
  fu_blocks : block_universe U rank;
  fu_certs : forall b, U b -> rank (VoteInfo_GetParentId (QuorumCert_GetVoteInfo (b_qc b))) < rank (b_id b);
  fu_genesis : rank zeroHash < rank (b_id genesisBlock);
}.

Section total.
Context `{RangeOrder} `{FloatConv} (U : Block -> Prop) (rank : bytes -> nat) (HU : block_universe U rank).
(** How many authors are held out. *)
Context (exclude : Z) (Hex : (exclude <= 1)%Z \/ fed_universe U rank).

Record core_ok (c : Core) : Prop := {
  ck_ledger : ledger_ok U (c_ledger c);
  ck_validators : e_validators (c_leaders c) ≠ [];
  ck_exclude : e_excludeSize (c_leaders c) = exclude;
}.

(** [m] returns from every such state, and leads to one. *)
Definition returns {A} (m : M A) : Prop :=
  forall c, core_ok c -> exists a c' es, m c = Some (a, c', es) /\ core_ok c'.

Lemma returns_ret {A} (x : A) : returns (mret x).
Proof. intros c Hc. by exists x, c, []. Qed.
Lemma returns_bind {A B} (m : M A) (f : A -> M B) : returns m -> (forall a, returns (f a)) -> returns (x ← m; f x).
Proof.
  intros Hm Hf c Hc. destruct (Hm c Hc) as (a & c1 & es1 & E1 & H1). destruct (Hf a c1 H1) as (b & c2 & es2 & E2 & H2).
  exists b, c2, (es1 ++ es2). unfold mbind, M_bind. by rewrite E1, E2.
Qed.
Lemma returns_gets {A} (f : Core -> A) : returns (gets f).
Proof. intros c Hc. by exists (f c), c, []. Qed.
Lemma returns_emit e : returns (emit e).
Proof. intros c Hc. by exists tt, c, [e]. Qed.

(** A call that changes neither the ledger nor the validators. *)
Lemma core_ok_same c c' :
  c_ledger c' = c_ledger c -> e_validators (c_leaders c') = e_validators (c_leaders c) ->
  e_excludeSize (c_leaders c') = e_excludeSize (c_leaders c) -> core_ok c -> core_ok c'.
Proof. intros E1 E2 E3 [H1 H2 H3]. split; by rewrite ?E1, ?E2, ?E3. Qed.

Lemma GetLeader_total e r : e_validators e ≠ [] -> is_Some (GetLeader e r).
Proof.
  intros Hne. unfold GetLeader. destruct (e_reputationLeaders e !! r); [by eexists|].
  apply lookup_lt_is_Some_2. destruct (e_validators e) as [|v vs]; [done|].
  pose proof (N.mod_lt (r / 2) (N.of_nat (length (v :: vs)))). simpl length in *. lia.
Qed.

Lemma core_elections_end c : core_ok c -> elections_end (c_leaders c) (c_ledger c).
Proof.
  intros [H1 _ Ex]. unfold elections_end. rewrite Ex. destruct Hex as [?|HF]; [by left|right]. exists rank. intros id b Hb.
  pose proof (li_committed _ _ _ (lk_inv _ _ H1) id b Hb) as <-. destruct (lk_committed _ _ H1 _ _ Hb) as [Hu| ->].
  - by apply (fu_certs _ _ HF).
  - apply (fu_genesis _ _ HF).
Qed.

(** *** The calls *)

Lemma returns_getLeader r : returns (getLeader r).
Proof.
  intros c Hc. destruct (GetLeader_total (c_leaders c) r (ck_validators _ Hc)) as [v Hv].
  exists v, c, []. unfold getLeader, fails_or. by rewrite Hv.
Qed.

Lemma returns_treeProcessQC qc : returns (treeProcessQC qc).
Proof.
  intros c [Hl Hv Hx]. destruct (ProcessQC_total U rank HU (c_ledger c) (c_tree c) qc Hl) as (l & t & E & Hl').
  unfold treeProcessQC. rewrite E. eexists _, _, _. split; [reflexivity|]. by split.
Qed.

Lemma returns_treeProcessVote cr m : returns (treeProcessVote cr m).
Proof.
  intros c [Hl Hv Hx].
  destruct (ProcessVote_total U rank HU cr (c_ledger c) (c_tree c) m Hl) as (l & t & r & E & Hl').
  unfold treeProcessVote. rewrite E. eexists _, _, _. split; [reflexivity|]. by split.
Qed.

Lemma returns_leadersUpdate qc : returns (leadersUpdate qc).
Proof.
  intros c Hc. pose proof (core_elections_end c Hc) as Ha. unfold leadersUpdate.
  assert (is_Some (UpdateLeaders (c_leaders c) (c_ledger c) (CurrentRound (c_pacemaker c)) qc)) as [e E].
  { unfold UpdateLeaders. destruct qc as [q|]; [|by eauto]. destruct (_ || _); [by eauto|].
    destruct (elections_end_total (c_leaders c) (c_ledger c) (Some q) Ha) as [r ->]. by eauto. }
  rewrite E. apply UpdateLeaders_same in E as (E1 & _ & E3). eexists _, _, _. split; [reflexivity|]. by apply (core_ok_same c).
Qed.

(** A call to the pacemaker or to Safety. *)
Lemma returns_pm {A} (m : M A) :
  (forall c, exists a s p es, m c = Some (a, set_parts c (c_ledger c) (c_tree c) s p (c_leaders c), es)) -> returns m.
Proof.
  intros Hm c Hc. destruct (Hm c) as (a & s & p & es & E). eexists _, _, _. split; [exact E|]. by apply (core_ok_same c).
Qed.

Lemma returns_pmAdvanceRoundQC qc : returns (pmAdvanceRoundQC qc).
Proof. apply returns_pm. intros c. unfold pmAdvanceRoundQC. destruct (AdvanceRoundQC _ _) as [[p es] mv]. eauto. Qed.
Lemma returns_pmAdvanceRoundTC tc : returns (pmAdvanceRoundTC tc).
Proof. apply returns_pm. intros c. unfold pmAdvanceRoundTC. destruct (AdvanceRoundTC _ _) as [[p es] mv]. eauto. Qed.
Lemma returns_pmLocalTimeoutRound cr : returns (pmLocalTimeoutRound cr).
Proof. apply returns_pm. intros c. unfold pmLocalTimeoutRound. destruct (LocalTimeoutRound _ _ _ _) as [[p s] es]. eauto. Qed.
Lemma returns_pmProcessRemoteTimeout cr m : returns (pmProcessRemoteTimeout cr m).
Proof.
  apply returns_pm. intros c. unfold pmProcessRemoteTimeout.
  destruct (ProcessRemoteTimeout _ _ _ _ _) as [[[p s] es] tc]. eauto.
Qed.
Lemma returns_safetyMakeVote cr b tc : returns (safetyMakeVote cr b tc).
Proof. apply returns_pm. intros c. unfold safetyMakeVote. destruct (MakeVote _ _ _ _ _ _) as [s v]. eauto. Qed.

Lemma returns_insert b : U b -> returns (insert b).
Proof.
  intros Hb. apply returns_bind; [|intros _; apply returns_bind].
  - intros c [Hl Hv Hx]. unfold treeExecuteAndInsert.
    pose proof (ExecuteAndInsert_ok U rank HU (c_ledger c) (c_tree c) b Hl Hb) as Hl'.
    destruct (ExecuteAndInsert _ _ _) as [l t]. eexists _, _, _. split; [reflexivity|]. by split.
  - intros c Hc. destruct (Missing_returns U rank HU (c_ledger c) (b_id b)) as [r Hr];
      [apply (lk_inv _ _ (ck_ledger _ Hc))|]. unfold fails_or. rewrite Hr. eexists _, _, _. split; [reflexivity|done].
  - intros [id|]; [|apply returns_ret]. destruct (bool_decide _); [apply returns_ret|apply returns_emit].
Qed.

Lemma returns_processCertificateQC qc : returns (processCertificateQC qc).
Proof.
  destruct qc as [q|]; [|apply returns_ret]. unfold processCertificateQC.
  apply returns_bind; [apply returns_treeProcessQC|intros _]. apply returns_bind; [apply returns_leadersUpdate|intros _].
  apply returns_pmAdvanceRoundQC.
Qed.

Lemma returns_processNewRoundEvent cr txns tc : returns (processNewRoundEvent cr txns tc).
Proof.
  unfold processNewRoundEvent. apply returns_bind; [apply returns_gets|intros r].
  apply returns_bind; [apply returns_getLeader|intros v]. apply returns_bind; [apply returns_gets|intros id].
  destruct (negb _); [apply returns_ret|]. apply returns_bind; [apply returns_gets|intros b].
  destruct (sign _ _ _); [|apply returns_ret]. apply returns_bind; [apply returns_gets|intros q]. apply returns_emit.
Qed.

(** The block an event brings. *)
Definition event_fed (e : Event) : Prop :=
  match e with
  | ProposalEvent m => U (default zeroBlock (pm_block m))
  | BlockEvent b => U b
  | _ => True
  end.

Lemma returns_processProposalMsg cr m : U (default zeroBlock (pm_block m)) -> returns (processProposalMsg cr m).
Proof.
  intros Hb. unfold processProposalMsg. apply returns_bind; [apply returns_processCertificateQC|intros _].
  apply returns_bind; [apply returns_processCertificateQC|intros _].
  apply returns_bind; [apply returns_pmAdvanceRoundTC|intros _]. apply returns_bind; [apply returns_gets|intros r].
  apply returns_bind; [apply returns_getLeader|intros v]. destruct (_ || _); [apply returns_ret|].
  apply returns_bind; [by apply returns_insert|intros _]. apply returns_bind; [apply returns_safetyMakeVote|intros [vm|]].
  - apply returns_bind; [apply returns_getLeader|intros to]. apply returns_emit.
  - apply returns_ret.
Qed.

Lemma returns_processVoteMsg cr txns m : returns (processVoteMsg cr txns m).
Proof.
  unfold processVoteMsg. apply returns_bind; [apply returns_gets|intros r]. destruct (_ || _); [apply returns_ret|].
  apply returns_bind; [apply returns_treeProcessVote|intros [q|]]; [|apply returns_ret].
  apply returns_bind; [apply returns_processCertificateQC|intros mv].
  destruct (negb mv); [apply returns_ret|apply returns_processNewRoundEvent].
Qed.

Lemma returns_processTimeoutMsg cr txns m : returns (processTimeoutMsg cr txns m).
Proof.
  unfold processTimeoutMsg. apply returns_bind; [apply returns_processCertificateQC|intros _].
  apply returns_bind; [apply returns_processCertificateQC|intros _].
  apply returns_bind; [apply returns_pmAdvanceRoundTC|intros _].
  apply returns_bind; [apply returns_pmProcessRemoteTimeout|intros [tc|]]; [|apply returns_ret].
  apply returns_bind; [apply returns_pmAdvanceRoundTC|intros _]. apply returns_processNewRoundEvent.
Qed.

Lemma returns_Step cr txns e : event_fed e -> returns (Step cr txns e).
Proof.
  intros He. unfold Step. apply returns_bind; [|intros _; apply returns_bind; [apply returns_gets|intros obs]].
  - destruct e as [m|m|m|ep|b|id]; cbn [dispatch].
    + by apply returns_processProposalMsg.
    + apply returns_processVoteMsg.
    + apply returns_processTimeoutMsg.
    + apply returns_bind; [apply returns_gets|intros ep']. destruct (_ =? _)%N; [apply returns_pmLocalTimeoutRound|apply returns_ret].
    + by apply returns_insert.
    + unfold serveBlock. apply returns_bind; [apply returns_gets|intros r]. apply returns_emit.
  - destruct obs; [|apply returns_ret]. apply returns_bind; [apply returns_gets|intros st]. apply returns_emit.
Qed.

Lemma returns_Start cr txns : returns (Start cr txns).
Proof. apply returns_bind; [apply returns_pmAdvanceRoundQC|intros _]. apply returns_processNewRoundEvent. Qed.
End total.

(** Events one after the other, each with its signer and payload. *)
Fixpoint feed `{RangeOrder} `{FloatConv} (evs : list (Crypto * list bytes * Event)) (c : Core) : option (Core * list effect) :=
  match evs with
  | [] => Some (c, [])
  | (cr, txns, e) :: evs =>
      '(_, c, es) ← Step cr txns e c; '(c, es') ← feed evs c; Some (c, es ++ es')
  end.

Lemma feed_run `{RangeOrder} `{FloatConv} cfg evs es c es' c' :
  replica_run cfg es c -> feed evs c = Some (c', es') -> replica_run cfg (es ++ es') c'.
Proof.
  revert es c es'. induction evs as [|[[cr txns] e] evs IH]; intros es c es' Hr; simpl.
  { intros [= <- <-]. by rewrite app_nil_r. }
  intros ([[[] c1] es1] & E & ([c2 es2] & Ef & [= <- <-])%bind_Some)%bind_Some.
  rewrite (assoc_L (++)). eapply IH; [|exact Ef]. by eapply replica_event.
Qed.

Lemma feed_ok `{RangeOrder} `{FloatConv} (U : Block -> Prop) (rank : bytes -> nat) (HU : block_universe U rank) (x : Z)
    (Hx : (x <= 1)%Z \/ fed_universe U rank) evs c :
  core_ok U x c -> Forall (fun ev => event_fed U ev.2) evs -> exists c' es, feed evs c = Some (c', es) /\ core_ok U x c'.
Proof.
  revert c. induction evs as [|[[cr txns] e] evs IH]; intros c Hc HF; simpl; [by eauto|].
  apply Forall_cons in HF as [He HF]. destruct (returns_Step U rank HU x Hx cr txns e He c Hc) as ([] & c1 & es1 & -> & Hc1).
  simpl. destruct (IH c1 Hc1 HF) as (c2 & es2 & -> & Hc2). simpl. eauto.
Qed.

(** C8. A replica always answers, as long as its elections end. Built by [New] over a
    fresh ledger with at least one validator and started, it processes any sequence of
    events to the end, whatever the messages claim, without a panic and without an
    endless loop; and at the end the blocks it has committed are one chain from
    genesis, executed in order. Assumed of the blocks it is handed is that an id
    determines parent and payload and that parent links form no cycle, which is so of
    ids that are hashes over parents of 32 bytes (a fetched block need not be one,
    [Verify.VerifyBlock_parent_unbound]); and, if more than one author is held out (by
    default from seven validators on), that the parents that their certificates claim
    lead to no cycle either, which nothing in the code ensures for a fetched block. *)
Theorem replica_never_stuck `{RangeOrder} `{FloatConv} (U : Block -> Prop) (rank : bytes -> nat) (cfg : Config) (c : Core)
    (cr : Crypto) (txns : list bytes) (evs : list (Crypto * list bytes * Event)) :
  block_universe U rank -> cfg_Ledger cfg = NewMemLedger -> cfg_Validators cfg ≠ [] -> New cfg = Some c ->
  (e_excludeSize (c_leaders c) <= 1)%Z \/ fed_universe U rank ->
  Forall (fun ev => event_fed U ev.2) evs ->
  exists c1 es1 c2 es2, Start cr txns c = Some (tt, c1, es1) /\ feed evs c1 = Some (c2, es2) /\
    linked (b_id genesisBlock) (l_onCommit (c_ledger c2)) (l_commitID (c_ledger c2)) /\
    l_commitState (c_ledger c2) = exec_log (l_onCommit (c_ledger c2)).
Proof.
  intros HU Hl Hv Hn Hx HF. set (x := e_excludeSize (c_leaders c)) in *.
  assert (core_ok U x c) as Hc.
  { unfold New in Hn. destruct (_ <? _)%Z; [done|]. apply (inj Some) in Hn as <-. split; [| |done]; cbn [c_ledger c_leaders].
    - rewrite Hl. apply NewMemLedger_ok.
    - cbn [NewLeaderElection e_validators]. intros E. apply Hv. apply Permutation_nil_r. by rewrite <- E, sort_ids_perm. }
  destruct (returns_Start U x cr txns c Hc) as ([] & c1 & es1 & E1 & Hc1).
  destruct (feed_ok U rank HU x Hx evs c1 Hc1 HF) as (c2 & es2 & E2 & Hc2). exists c1, es1, c2, es2.
  destruct Hc2 as [Hl2 _ _]. split; [exact E1|]. split; [exact E2|]. split; apply Hl2.
Qed.

(** With up to six validators and the default setting the assumption on certificates
    is not needed. *)
Lemma default_exclude cfg c : New cfg = Some c -> cfg_ExcludeSize cfg = 0%Z -> length (cfg_Validators cfg) <= 6 ->
  (e_excludeSize (c_leaders c) <= 1)%Z.
Proof.
  unfold New. intros Hn E Hlen. rewrite E in Hn. destruct (_ <? _)%Z; [done|]. apply (inj Some) in Hn as <-. cbn. unfold Faulty.
  pose proof (Z.quot_le_mono (Z.of_nat (length (cfg_Validators cfg)) - 1) 5 3 ltac:(lia) ltac:(lia)) as Hq. change (5 ÷ 3)%Z with 1%Z in Hq. lia.
Qed.

Definition solo_rank (id : bytes) : nat :=
  if bool_decide (id = []) then 0 else if bool_decide (id = zeroHash) then 0 else S (demo_rank id).

Lemma solo_universe : fed_universe demo_universe solo_rank.
Proof.
  assert (forall id, id ≠ [] -> id ≠ zeroHash -> solo_rank id = S (demo_rank id)) as Hr.
  { intros id H1 H2. unfold solo_rank. by rewrite !bool_decide_eq_false_2. }
  assert (forall b, demo_universe b -> b_id b ≠ [] /\ b_id b ≠ zeroHash /\ VoteInfo_GetParentId (QuorumCert_GetVoteInfo (b_qc b)) = []) as Hid.
  { intros b Hb. unfold demo_universe in Hb. apply elem_of_three in Hb as [->|[->| ->]];
      (split; [discriminate|]; split; [discriminate|reflexivity]). }
  split; [split|..].
  - apply (bu_unique _ _ demo_block_universe).
  - intros b Hb. destruct (Hid b Hb) as (H1 & H2 & _). rewrite (Hr (b_id b)) by done.
    pose proof (bu_rank _ _ demo_block_universe b Hb). unfold solo_rank. repeat case_bool_decide; lia.
  - intros b Hb. destruct (Hid b Hb) as (H1 & H2 & ->). rewrite (Hr (b_id b)) by done.
    unfold solo_rank. rewrite bool_decide_eq_true_2 by reflexivity. lia.
  - rewrite (Hr (b_id genesisBlock)).
    + unfold solo_rank. rewrite (bool_decide_eq_true_2 (zeroHash = zeroHash)) by reflexivity. case_bool_decide; lia.
    + intros E. apply (f_equal length) in E. rewrite genesisBlock_id_len in E. discriminate E.
    + apply genesisBlock_id_nonzero.
Qed.

Definition solo_events : list (Crypto * list bytes * Event) :=
  (fun e => (solo_crypto, [], e)) <$> [BlockEvent demo_b2; LocalTimeoutEvent 1; BlockRequestEvent [x02]; BlockEvent demo_b1].

Lemma replica_never_stuck_witness :
  exists c c1 es1 c2 es2, New solo_cfg = Some c /\ Start solo_crypto [] c = Some (tt, c1, es1) /\
    @feed canonical_range least_int64 solo_events c1 = Some (c2, es2) /\
    linked (b_id genesisBlock) (l_onCommit (c_ledger c2)) (l_commitID (c_ledger c2)).
Proof.
  assert (is_Some (New solo_cfg)) as [c Hc] by (unfold New; cbn; eauto).
  destruct (@replica_never_stuck canonical_range least_int64 demo_universe solo_rank solo_cfg c solo_crypto [] solo_events (fu_blocks _ _ solo_universe))
    as (c1 & es1 & c2 & es2 & E1 & E2 & E3 & _); [reflexivity|discriminate|exact Hc| | |].
  - left. by eapply default_exclude; [exact Hc|..|apply Nat.leb_le].
  - unfold solo_events. repeat (constructor; [first [exact I|by left|by right; left]|]). constructor.
  - exists c, c1, es1, c2, es2. split; [exact Hc|]. split; [exact E1|]. split; [exact E2|exact E3].
Defined.

(** ** Serving blocks *)

(** Blocks are filed under their ids, in the tree and among the committed ones. *)
Definition filed (c : Core) : Prop :=
  (forall id b, t_pending (c_tree c) !! id = Some b -> b_id b = id) /\
  (forall id b, l_committed (c_ledger c) !! id = Some b -> b_id b = id).

Definition keeps_filed (c : Core) (_ : list effect) (c' : Core) : Prop := filed c -> filed c'.

Global Instance keeps_filed_rel : TraceRel keeps_filed.
Proof. split; unfold keeps_filed; auto. Qed.

Section filed.
Context `{RangeOrder} `{FloatConv} (cr : Crypto).

(** Speculation leaves alone what [f] reads, if [f] does not read what is pending or
    held. *)
Lemma Speculate_rec_reads {A} (f : MemLedger -> A) fuel l b :
  (forall g l, f (set_pending g l) = f l) -> (forall g l, f (set_held g l) = f l) ->
  f (Speculate_rec fuel l b).1 = f l.
Proof.
  intros Hp Hh. revert l b. induction fuel as [fuel IH] using lt_wf_ind. intros l b.
  assert (forall es l0, f (fold_left (visit fuel (b_id b)) es l0) = f l0) as Hfold.
  { induction es as [|e es IHes]; intros l0; [done|]. simpl. rewrite IHes. unfold visit.
    destruct (l_held l0 !! e.1), fuel; try done. case_bool_decide; [|done]. rewrite IH by lia. apply Hh. }
  destruct fuel; cbn [Speculate_rec]; destruct (PendingState l (parentID b)); cbn [fst];
    try (destruct (_ <? _)%N; [apply Hh|done]); (etrans; [apply Hfold|apply Hp]).
Qed.

Lemma Commit_filed l id l' :
  Commit l id = Some l' -> (forall k b, l_committed l !! k = Some b -> b_id b = k) ->
  forall k b, l_committed l' !! k = Some b -> b_id b = k.
Proof.
  unfold Commit. case_bool_decide; [by intros [= <-]|].
  intros ([chain|] & Hw & E)%bind_Some Hl; [|by injection E as <-].
  unfold forget in E. apply bind_Some in E as ([o m] & Ef & [= <-]). cbn [l_committed]. intros k b Hb.
  eapply lookup_weaken in Hb; [|by eapply forget_loop_sub].
  destruct (Commit_apply_fold l (reverse chain)) as (_ & _ & _ & _ & _ & _ & _ & _ & Hk & _). by apply (Hk Hl).
Qed.

Lemma ProcessQC_filed l t qc l' t' :
  ProcessQC l t qc = Some (l', t') ->
  (forall id b, t_pending t !! id = Some b -> b_id b = id) /\ (forall id b, l_committed l !! id = Some b -> b_id b = id) ->
  (forall id b, t_pending t' !! id = Some b -> b_id b = id) /\ (forall id b, l_committed l' !! id = Some b -> b_id b = id).
Proof.
  intros [(_ & -> & ->)|(_ & _ & _ & _ & Hc)]%ProcessQC_inv [Ht Hl]; [done|].
  destruct Hc as [(_ & -> & -> & _)|(_ & Hc & -> & _)]; [done|]. split; [|by eapply Commit_filed].
  intros id b Hb. apply Ht. eapply lookup_weaken; [exact Hb|].
  cbn [prune t_pending]. etrans; [apply sweep_sub|apply map_filter_subseteq].
Qed.

Lemma keeps_filed_same c es c' : c_tree c' = c_tree c -> c_ledger c' = c_ledger c -> keeps_filed c es c'.
Proof. unfold keeps_filed, filed. by intros -> ->. Qed.

Lemma filed_calls : calls_ok cr keeps_filed (fun _ _ => True).
Proof.
  apply calls_ok_tree.
  - intros c es c' Et El _. by apply keeps_filed_same.
  - intros qc c a c' es ([l t] & E & [= <- <- <-])%bind_Some. intros Hf. by eapply ProcessQC_filed.
  - intros b c a c' es E. unfold treeExecuteAndInsert, ExecuteAndInsert in E. injection E as <- <- <-. intros [Ht Hl].
    split; simpl.
    + intros id b'. intros [[<- <-]|[_ Hb]]%lookup_insert_Some; [done|by apply Ht].
    + unfold Speculate. rewrite (Speculate_rec_reads l_committed) by done. exact Hl.
  - intros m c a c' es ([[l t] qc] & E & [= <- <- <-])%bind_Some. intros Hf.
    apply ProcessVote_cases in E as (t1 & E & Hc). destruct (ProcessQC_filed _ _ _ _ _ E Hf) as [Ht Hl].
    split; [|exact Hl]. cbn [c_tree set_parts]. destruct Hc as [(_ & -> & _)|(_ & _ & _ & _ & -> & _)]; exact Ht.
Qed.
End filed.

Lemma replica_filed `{RangeOrder} `{FloatConv} cfg es c :
  cfg_Ledger cfg = NewMemLedger -> replica_run cfg es c -> filed c.
Proof.
  intros Hl. induction 1 as [c E|es c cr txns c' es' _ IH E|es c cr txns e c' es' _ IH E|es c c' es' _ IH E].
  - unfold New in E. destruct (_ <? _)%Z; [done|]. apply (inj Some) in E as <-. split; cbn [c_tree c_ledger].
    + intros id b Hb. cbn [NewBlockTree t_pending] in Hb. by rewrite lookup_empty in Hb.
    + rewrite Hl. cbn [NewMemLedger l_committed]. intros id b [<- <-]%lookup_singleton_Some. reflexivity.
  - exact (does_Start cr txns _ _ (filed_calls cr) _ _ _ _ E IH).
  - exact (does_Step cr txns _ _ (filed_calls cr) e ltac:(by destruct e) _ _ _ _ E IH).
  - unfold CoreStop in E. cbn [Pacemaker.Stop] in E. injection E as <- <-. by apply (keeps_filed_same c []).
Qed.

(** C35. A request for a block is answered once, from the pending tree or from the
    committed blocks: with the block when the replica holds one under that id, and
    then it is the block of that id, and with nil exactly when it holds none; the
    state does not change, and the observer, if there is one, sees it as it is. *)
Theorem request_answered `{RangeOrder} `{FloatConv} (cfg : Config) es c cr txns (id : bytes) :
  cfg_Ledger cfg = NewMemLedger -> replica_run cfg es c ->
  exists r, Step cr txns (BlockRequestEvent id) c =
      Some (tt, c, ReplyBlock r :: if c_observe c then [Observe (BlockRequestEvent id) (CoreState c)] else []) /\
    (forall b, r = Some b -> b_id b = id) /\
    (r = None <-> t_pending (c_tree c) !! id = None /\ l_committed (c_ledger c) !! id = None).
Proof.
  intros Hl Hr. destruct (replica_filed cfg es c Hl Hr) as [Ht Hc].
  unfold Step, dispatch, serveBlock, mbind, M_bind, gets, emit. cbv beta iota. eexists. split; [by destruct (c_observe c)|].
  unfold PendingBlock, CommittedBlock. destruct (t_pending (c_tree c) !! id) as [b|] eqn:Et.
  - split; [intros b' [= <-]; by apply Ht|]. split; [done|]. by intros [? _].
  - split; [intros b' Hb; by apply Hc|]. split; [done|]. by intros [_ ?].
Qed.

Definition quiet_cfg : Config := MkConfig 2 [4; 1; 3; 2]%N NewMemLedger demo_crypto demo_backoff 0 0 false.
Definition quiet (evs : list Event) : option (Core * list effect) :=
  c ← New quiet_cfg;
  '(_, c, es) ← Start demo_crypto [] c;
  '(c, es') ← @feed canonical_range least_int64 ((fun e => (demo_crypto, [], e)) <$> evs) c;
  Some (c, es ++ es').

Lemma quiet_run evs c es : quiet evs = Some (c, es) -> @replica_run canonical_range least_int64 quiet_cfg es c.
Proof.
  unfold quiet. intros (c0 & E0 & (q & E1 & E2)%bind_Some)%bind_Some. destruct q as [[[] c1] es1].
  apply bind_Some in E2 as ([c2 es2] & E2 & [= <- <-]). eapply feed_run; [|exact E2].
  apply (replica_start quiet_cfg [] c0 demo_crypto [] c1 es1); [by constructor|exact E1].
Qed.

(** A replica that is observed, as those of the program are, three rounds on its own. *)
Lemma request_answered_witness :
  exists c es r, solo6 = Some (c, es) /\
    @Step canonical_range least_int64 solo_crypto [] (BlockRequestEvent (b_id genesisBlock)) c =
      Some (tt, c, [ReplyBlock r; Observe (BlockRequestEvent (b_id genesisBlock)) (CoreState c)]) /\
    (forall b, r = Some b -> b_id b = b_id genesisBlock).
Proof.
  assert (option_map (fun r => c_observe r.1) solo6 = Some true) as Eo by (vm_compute; reflexivity).
  destruct solo6_some as (c & es & E & _). rewrite E in Eo. cbn [option_map fst] in Eo. apply (inj Some) in Eo.
  destruct (@request_answered canonical_range least_int64 solo_cfg es c solo_crypto [] (b_id genesisBlock) eq_refl (solo6_run c es E))
    as (r & Hs & Hb & _). rewrite Eo in Hs.
  exists c, es, r. split; [exact E|]. split; [exact Hs|exact Hb].
Defined.

(** ** Certificates that arrive with a vote

    A vote's [HighCommitQc] goes to the block tree but not to the pacemaker, so
    the tree's certificate can get ahead of the round. *)

Lemma LocalTimeoutRound_muted (cr : Crypto) (p : Pacemaker) (s : Safety) (t : BlockTree) p' s' es :
  (p_currentRound p <= QCRound (HighQC t))%N -> LocalTimeoutRound cr p s t = (p', s', es) ->
  s' = s /\ sent_timeouts es = [] /\ p_currentRound p' = p_currentRound p.
Proof.
  intros Hle (es1 & es2 & -> & Est & Hr)%LocalTimeoutRound_inv.
  destruct (startTimer_silent p (p_currentRound p)) as [_ T]. rewrite Est in T. cbn [snd] in T.
  assert (MakeTimeout cr s (p_currentRound p) (HighQC t) (p_lastRoundTC p) = (s, None)) as Hn.
  { unfold MakeTimeout. assert (safeToTimeout s (p_currentRound p) (QCRound (HighQC t)) (p_lastRoundTC p) = false) as ->;
      [|by rewrite orb_true_r].
    unfold safeToTimeout. destruct (_ <? _)%N; [done|].
    by rewrite (proj2 (N.leb_le (p_currentRound p) _)) by (destruct (0 <? _)%N; lia). }
  rewrite Hn in Hr. destruct Hr as [[-> Hm]|(i & Hm & _)]; [|done]. injection Hm as <-.
  rewrite app_nil_r, startTimer_eq in *. injection Est as <- <-. by split_and!.
Qed.

Lemma LocalTimeout_muted_step `{RangeOrder} `{FloatConv} cr txns n (c : Core) :
  (CurrentRound (c_pacemaker c) <= QCRound (HighQC (c_tree c)))%N ->
  exists c' es, Step cr txns (LocalTimeoutEvent n) c = Some (tt, c', es) /\ sent_timeouts es = [] /\
    c_safety c' = c_safety c /\ c_tree c' = c_tree c /\
    CurrentRound (c_pacemaker c') = CurrentRound (c_pacemaker c).
Proof.
  intros Hle. unfold Step, dispatch, gets, mbind, M_bind, mret, M_ret.
  destruct (n =? Epoch (c_pacemaker c))%N.
  - unfold pmLocalTimeoutRound.
    destruct (LocalTimeoutRound cr (c_pacemaker c) (c_safety c) (c_tree c)) as [[p' s'] es] eqn:E.
    destruct (LocalTimeoutRound_muted _ _ _ _ _ _ _ Hle E) as (-> & Hs & Hr).
    cbn [c_observe set_parts]. destruct (c_observe c); eexists _, _; (split; [reflexivity|]);
      (split; [|done]); unfold sent_timeouts in *; rewrite !omap_app, Hs; reflexivity.
  - cbn [c_observe]. destruct (c_observe c); eexists _, _; (split; [reflexivity|]); done.
Qed.

(** C38. A replica whose [HighQC] is of its current round or a later one cannot time
    that round out: however often its timer expires, [Step] sends no timeout and
    leaves the round, the tree and the safety counters as they are, so the
    condition still holds at the next expiry. *)
Theorem timeouts_muted `{RangeOrder} `{FloatConv} (evs : list (Crypto * list bytes * Event)) (c : Core) :
  (CurrentRound (c_pacemaker c) <= QCRound (HighQC (c_tree c)))%N ->
  Forall (fun ev => exists n, ev.2 = LocalTimeoutEvent n) evs ->
  exists c' es, feed evs c = Some (c', es) /\ sent_timeouts es = [] /\
    c_safety c' = c_safety c /\ c_tree c' = c_tree c /\
    CurrentRound (c_pacemaker c') = CurrentRound (c_pacemaker c).
Proof.
  intros Hle HF. revert c Hle. induction HF as [|[[cr txns] e] evs [n He] _ IH]; intros c Hle.
  { by exists c, []. }
  simpl in He. subst e.
  destruct (LocalTimeout_muted_step cr txns n c Hle) as (c1 & es1 & E1 & Hs1 & Es1 & Et1 & Er1).
  destruct (IH c1) as (c2 & es2 & E2 & Hs2 & Es2 & Et2 & Er2); [by rewrite Er1, Et1|].
  exists c2, (es1 ++ es2). simpl. rewrite E1. cbn [mbind option_bind]. rewrite E2.
  split_and!; [reflexivity| |congruence..]. unfold sent_timeouts in *. by rewrite omap_app, Hs1, Hs2.
Qed.

(** Votes of round 1 for the demonstration block, and one of round 4 that carries
    a commit certificate of round 3; all pass the edge's checks. *)
Definition late_id (n : N) : bytes := replicate 31 x00 ++ be 1 n.
Definition late_info (n : N) : VoteInfo := MkVoteInfo (late_id n) n (late_id (n - 1)) (n - 1) (replicate hashLen x07).
Definition late_commit (n : N) : LedgerCommitInfo := MkLedgerCommitInfo (replicate hashLen x09) (VoteInfoHash (Some (late_info n))).
Definition late_qc : QuorumCert :=
  MkQuorumCert (Some (late_info 3)) (Some (late_commit 3)) demo_sigs 3 (Some (MkSignature 3 [x01])).
Definition late_vote : VoteMsg := MkVoteMsg (Some (late_info 4)) (Some (late_commit 4)) (Some late_qc) 4 (Some (MkSignature 4 [x01])).
Definition late_votes : list VoteMsg := late_vote :: (demo_votemsg <$> [1; 3; 4]%N).
Definition late_run : option (Core * list effect) := quiet (VoteEvent <$> late_votes).

Lemma timeouts_muted_witness :
  exists c es c' es', quiet [VoteEvent late_vote] = Some (c, es) /\ VerifyVote demo_verifier late_vote = true /\
    @feed canonical_range least_int64 [(demo_crypto, [], LocalTimeoutEvent (Epoch (c_pacemaker c)))] c = Some (c', es') /\
    sent_timeouts es' = [].
Proof.
  assert (option_map (fun r => (p_currentRound (c_pacemaker r.1) <=? QCRound (HighQC (c_tree r.1)))%N)
    (quiet [VoteEvent late_vote]) = Some true) as El by (vm_compute; reflexivity).
  assert (VerifyVote demo_verifier late_vote = true) as Ev by (vm_compute; reflexivity).
  destruct (quiet [VoteEvent late_vote]) as [[c es]|]; [|discriminate El].
  cbn [option_map fst] in El. apply (inj Some) in El. apply N.leb_le in El.
  destruct (@timeouts_muted canonical_range least_int64
    [(demo_crypto, [], LocalTimeoutEvent (Epoch (c_pacemaker c)))] c El) as (c' & es' & E & Hs & _).
  { constructor; [eexists; reflexivity|constructor]. }
  exists c, es, c', es'. split; [reflexivity|]. split; [exact Ev|]. split; [exact E|exact Hs].
Defined.

(** C39. An honest replica can send an ill-formed proposal. Replica 2 of four, in
    round 1, receives four votes that all pass [VerifyVote]: one of round 4 with a
    commit certificate of round 3, and then a quorum for round 1. It completes the
    certificate of round 1, enters round 2, which it leads, and proposes over its
    [HighQC] of round 3: a block of round 2 over a certificate of round 3 without
    a timeout certificate, which every receiver rejects. *)
Theorem ill_formed_proposal_reachable :
  Forall (fun m => VerifyVote demo_verifier m = true) late_votes /\
  exists c es m, late_run = Some (c, es) /\ @replica_run canonical_range least_int64 quiet_cfg es c /\
    sent_proposals es = [m] /\ Block_GetRound (pm_block m) = 2%N /\ QCRound (Block_GetQc (pm_block m)) = 3%N /\
    WellFormedProposal m = false /\ VerifyProposal demo_verifier m = false.
Proof.
  split; [repeat (constructor; [vm_compute; reflexivity|]); constructor|].
  assert (option_map (fun r => (fun m => (Block_GetRound (pm_block m), QCRound (Block_GetQc (pm_block m)),
    WellFormedProposal m, VerifyProposal demo_verifier m)) <$> sent_proposals r.2) late_run = Some [(2%N, 3%N, false, false)]) as E
    by (vm_compute; reflexivity).
  pose proof (quiet_run (VoteEvent <$> late_votes)) as Hrun. fold late_run in Hrun.
  destruct late_run as [[c es]|]; [|discriminate E]. cbn [option_map snd] in E. apply (inj Some) in E.
  destruct (sent_proposals es) as [|m [|]] eqn:Em; [discriminate E| |discriminate E].
  cbn [fmap list_fmap] in E. injection E as E1 E2 E3 E4.
  exists c, es, m. split; [reflexivity|]. split; [by apply Hrun|]. auto.
Qed.
