(* ===== verification/Wire.v ===== *)
(** What a replica sends and keeps when it is fed what the network edge lets
    through: the certificates it holds verify, and so does every message it puts
    on the network, at every receiver. The argument runs through all handlers of
    [diem/core.go] with a Hoare logic for the monad of [Core]. *)

From stdpp Require Import prelude gmap list fin_maps sorting.
From Stdlib Require Import NArith ZArith Lia Strings.Byte.
From S2P Require Import Prelude Sha256 Proto Hash Types Quorum Verify Orphans Ledger BlockTree Safety Agreement.
From S2P Require Import Seams Pacemaker Leader Core.

(** ** What a ledger stores

    A property of blocks and one of states that hold of everything a ledger
    stores are kept by both operations. *)

Record stores (P : Block -> Prop) (S : bytes -> Prop) (l : MemLedger) : Prop := {
  st_exec : forall prev payload, S (l_Execute l prev payload);
  st_pending : forall id s, l_pending l !! id = Some s -> P (sp_block s) /\ S (sp_state s);
  st_held : forall id b, l_held l !! id = Some b -> P b;
  st_committed : forall id b, l_committed l !! id = Some b -> P b;
  st_state : S (l_commitState l);
}.

Section stores.
Context `{RangeOrder} (P : Block -> Prop) (S : bytes -> Prop).

Lemma stores_state l id st : stores P S l -> PendingState l id = Some st -> S st.
Proof. intros [_ Hp _ _ Hs] [[_ ->]|(_ & p & Hl & <-)]%known_cases; [done|by apply (Hp _ _ Hl)]. Qed.

Lemma stores_unhold l k : stores P S l -> stores P S (set_held (delete k) l).
Proof. intros [H1 H2 H3 H4 H5]. split; try done. intros id b Hb. simpl in Hb.
  apply lookup_delete_Some in Hb as [_ Hb]. by eapply H3. Qed.

Lemma Speculate_rec_stores fuel l b : P b -> stores P S l -> stores P S (Speculate_rec fuel l b).1.
Proof.
  revert l b. induction fuel as [fuel IH] using lt_wf_ind. intros l b Hb Hl.
  assert (forall es l0, stores P S l0 -> stores P S (fold_left (visit fuel (b_id b)) es l0)) as Hfold.
  { induction es as [|e es IHes]; intros l0 H0; [done|]. simpl. apply IHes. unfold visit.
    destruct (l_held l0 !! e.1) as [h|] eqn:Eh, fuel as [|f]; try done. case_bool_decide; [|done].
    apply IH; [lia|by eapply st_held|by apply stores_unhold]. }
  assert (forall prev, stores P S (set_pending <[b_id b := MkSpeculated b (l_Execute l prev (b_payload b))]> l)) as Hins.
  { intros prev. destruct Hl as [H1 H2 H3 H4 H5]. split; try done. intros id s. simpl.
    intros [[_ <-]|[_ Hs]]%lookup_insert_Some; [by split; [|apply H1]|by eapply H2]. }
  assert (stores P S (if (commitRound l <? QCRound (b_qc b))%N then set_held <[b_id b := b]> l else l)) as Hheld.
  { destruct (_ <? _)%N; [|done]. destruct Hl as [H1 H2 H3 H4 H5]. split; try done. intros id h. simpl.
    intros [[_ <-]|[_ Hh]]%lookup_insert_Some; [done|by eapply H3]. }
  destruct fuel; cbn [Speculate_rec]; destruct (PendingState l (parentID b)) as [prev|];
    [apply (Hfold _ _ (Hins prev))|exact Hheld|apply (Hfold _ _ (Hins prev))|exact Hheld].
Qed.

Lemma Commit_stores l id l' : Commit l id = Some l' -> stores P S l -> stores P S l'.
Proof.
  intros E Hl. pose proof (fun k b => Commit_committed l id l' k b E) as Hcom. revert E. unfold Commit.
  case_bool_decide; [by intros [= <-]|]. intros ([chain|] & Hw & E)%bind_Some; [|by injection E as <-].
  unfold forget in E. apply bind_Some in E as ([o m] & Ef & [= <-]).
  destruct (Commit_apply_fold l (reverse chain)) as (E1 & _ & E3 & _ & _ & Est & Esub & _).
  set (l1 := fold_left Commit_apply (reverse chain) l) in *. destruct Hl as [H1 H2 H3 H4 H5]. split; cbn -[sweep].
  - intros. rewrite E1. apply H1.
  - intros k s Hs. apply (H2 k). eapply lookup_weaken; [|exact Esub]. eapply lookup_weaken; [exact Hs|apply sweep_sub].
  - intros k b Hb. apply map_lookup_filter_Some in Hb as [Hb _]. rewrite E3 in Hb. by eapply H3.
  - intros k b Hb. destruct (Hcom k b Hb) as [?|(i & s & Hi & <-)]; [by eapply H4|by apply (H2 i)].
  - rewrite Est. destruct (last (reverse chain)) as [s|] eqn:El; simpl; [|done].
    apply last_Some_elem_of in El. rewrite elem_of_reverse in El.
    destruct (Commit_walk_pending _ _ _ _ _ Hw El) as [i Hi]. by apply (H2 i).
Qed.
End stores.

(** ** The interface to the rest of the system

    What a replica relies on when it counts votes: a quorum of signatures over a
    vote of positive round that commits only over consecutive rounds. With at most
    [Faulty n] Byzantine replicas this holds, since a quorum has an honest member
    ([execution_honest_quorums] below). *)
Class HonestQuorums (ver : Verifier) (Vt : VoteMsg -> Prop) : Prop := {
  hq_range : forall m, Vt m ->
    (VoteInfo_GetRound (vm_vote_info m) < two64 /\ VoteInfo_GetParentRound (vm_vote_info m) < two64)%N;
  hq_collision_free : collision_free (vote_inputs Vt);
  hq_vote : forall m sigs, Vt m -> VerifyVote ver m = true -> Forall (from_vote Vt) sigs ->
    signed_by_quorum ver (LedgerCommitDigest (vm_ledger_commit_info m)) sigs ->
    VoteInfo_GetRound (vm_vote_info m) ≠ 0%N /\
    (Commits (vm_ledger_commit_info m) = true ->
     consecutive (VoteInfo_GetRound (vm_vote_info m)) (VoteInfo_GetParentRound (vm_vote_info m)) = true);
}.

(** A signer whose signatures verify under [id]. *)
Definition signs_as (ver : Verifier) (id : uint32) (cr : Crypto) : Prop :=
  forall d sg, Sign cr d = Some sg -> Verify (v_crypto ver) id d sg = true.

(** What the edge lets through. *)
Definition event_verified (ver : Verifier) (Vt : VoteMsg -> Prop) (e : Event) : Prop :=
  match e with
  | ProposalEvent m => VerifyProposal ver m = true
  | VoteEvent m => Vt m /\ VerifyVote ver m = true
  | TimeoutEvent m => VerifyTimeout ver m = true
  | BlockEvent b => validBlockID b = true
  | LocalTimeoutEvent _ | BlockRequestEvent _ => True
  end.

(** What a receiver accepts. A proposal over a certificate of its own round or a
    later one is the exception ([Core.ill_formed_proposal_reachable]). *)
Definition effect_accepted (ver : Verifier) (e : effect) : Prop :=
  match e with
  | NetProposal m =>
      (QCRound (Block_GetQc (pm_block m)) < Block_GetRound (pm_block m))%N -> VerifyProposal ver m = true
  | NetVote m _ => VerifyVote ver m = true
  | NetTimeout m => VerifyTimeout ver m = true
  | ReplyBlock (Some b) => VerifyBlock ver b (b_id b) = true
  | _ => True
  end.

Definition hashlen (st : bytes) : Prop := length st = hashLen.

Section wire.
Context `{RangeOrder} `{FloatConv} (ver : Verifier) (Vt : VoteMsg -> Prop) `{!HonestQuorums ver Vt} (id : uint32).

Record core_valid (c : Core) : Prop := {
  cv_id : c_id c = id;
  cv_ledger : stores (fun b => validBlockID b = true) hashlen (c_ledger c);
  cv_tree_id : t_id (c_tree c) = id;
  cv_tree_quorum : t_quorum (c_tree c) = v_quorum ver;
  cv_pending : forall i b, t_pending (c_tree c) !! i = Some b -> validBlockID b = true;
  cv_votes : votes_inv ver Vt (c_tree c);
  cv_high : VerifyQC ver (HighQC (c_tree c)) = true;
  cv_commit : VerifyQC ver (HighCommitQC (c_tree c)) = true;
  cv_safety : s_verify (c_safety c) = ver /\ s_id (c_safety c) = id;
  cv_pm : pm_inv ver (c_pacemaker c);
  cv_pm_quorum : p_quorum (c_pacemaker c) = v_quorum ver;
  cv_tc : VerifyTC ver (p_lastRoundTC (c_pacemaker c)) = true;
}.

(** [triple P m Q]: from a state with [P], whenever [m] returns, it sends only
    messages that are accepted, and the answer and the state have [Q]. *)
Definition triple {A} (P : Core -> Prop) (m : M A) (Q : A -> Core -> Prop) : Prop :=
  forall c a c' es, P c -> m c = Some (a, c', es) -> Q a c' /\ Forall (effect_accepted ver) es.

Lemma triple_ret {A} (P : Core -> Prop) (x : A) (Q : A -> Core -> Prop) : (forall c, P c -> Q x c) -> triple P (mret x) Q.
Proof. intros HQ c a c' es Hc [= <- <- <-]. split; [auto|constructor]. Qed.
Lemma triple_bind {A B} P (m : M A) R (f : A -> M B) Q :
  triple P m R -> (forall a, triple (R a) (f a) Q) -> triple P (x ← m; f x) Q.
Proof.
  intros Hm Hf c b c' es Hc E. unfold mbind, M_bind in E. destruct (m c) as [[[a c1] es1]|] eqn:Em; [|done].
  destruct (f a c1) as [[[b' c2] es2]|] eqn:Ef; [|done]. injection E as <- <- <-.
  destruct (Hm _ _ _ _ Hc Em) as [H1 F1]. destruct (Hf _ _ _ _ _ H1 Ef) as [H2 F2]. split; [done|by apply Forall_app].
Qed.
Lemma triple_gets {A} (P : Core -> Prop) (f : Core -> A) : triple P (gets f) (fun a c => P c /\ a = f c).
Proof. intros c a c' es Hc [= <- <- <-]. split; [done|constructor]. Qed.
Lemma triple_fails_or {A} (P : Core -> Prop) (f : Core -> option A) : triple P (fails_or f) (fun a c => P c /\ f c = Some a).
Proof. intros c a c' es Hc (x & Hx & [= <- <- <-])%bind_Some. split; [done|constructor]. Qed.
Lemma triple_emit (P : Core -> Prop) e : (forall c, P c -> effect_accepted ver e) -> triple P (emit e) (fun _ => P).
Proof. intros He c a c' es Hc [= <- <- <-]. split; [done|]. constructor; [by eapply He|constructor]. Qed.
Lemma triple_weaken {A} (P P' : Core -> Prop) (m : M A) (Q Q' : A -> Core -> Prop) :
  triple P m Q -> (forall c, P' c -> P c) -> (forall a c, Q a c -> Q' a c) -> triple P' m Q'.
Proof. intros Hm HP HQ c a c' es Hc E. destruct (Hm c a c' es (HP c Hc) E). auto. Qed.

(** *** The calls *)

Lemma timers_accepted p r : Forall (effect_accepted ver) (startTimer p r).2.
Proof. rewrite startTimer_eq. simpl. destruct (p_timer p); repeat constructor. Qed.

Lemma LocalTimeoutRound_effects cr p s t p' s' es :
  signs_as ver id cr -> s_verify s = ver -> s_id s = id -> VerifyQC ver (HighCommitQC t) = true ->
  LocalTimeoutRound cr p s t = (p', s', es) -> Forall (effect_accepted ver) es /\ s_verify s' = ver /\ s_id s' = id.
Proof.
  intros Hs Hv Hi Hq E. pose proof (LocalTimeoutRound_accepted cr p s t p' s' es) as Hacc. rewrite Hv, Hi in Hacc.
  pose proof E as (es1 & es2 & -> & Est & Hr)%LocalTimeoutRound_inv.
  assert (s_verify s' = s_verify s /\ s_id s' = s_id s) as [-> ->].
  { destruct Hr as [[_ Hm]|(i & Hm & _)]; revert Hm; unfold MakeTimeout; destruct (_ || _);
      [by intros [= <-]|destruct (sign _ _ _); by intros [= <-]|by intros [= <-]|destruct (sign _ _ _); by intros [= <-]]. }
  split; [|done]. apply Forall_app. split.
  - pose proof (timers_accepted p (p_currentRound p)) as Ht. by rewrite Est in Ht.
  - destruct Hr as [[-> _]|(i & _ & ->)]; [constructor|]. constructor; [|constructor].
    apply (Hacc (MkTimeoutMsg _ _ _)); [done| |exact E|].
    + unfold verifyCommitQC. by rewrite Hq, orb_true_r.
    + unfold sent_timeouts. rewrite omap_app. apply elem_of_app. right. by left.
Qed.

Lemma triple_treeProcessQC qc :
  VerifyQC ver qc = true ->
  triple core_valid (treeProcessQC qc) (fun _ c => core_valid c /\ (QCRound qc <= QCRound (HighQC (c_tree c)))%N).
Proof.
  intros Hv c a c' es Hc ([l t] & E & [= <- <- <-])%bind_Some. split; [|constructor].
  split; [|apply (ProcessQC_rounds _ _ _ _ _ E)].
  pose proof (votes_inv_ProcessQC ver Vt _ _ _ _ _ E (cv_votes c Hc)) as Hvotes.
  apply ProcessQC_inv in E as [(-> & _)|(_ & E1 & E2 & E3 & Hm)]; [done|]. destruct Hc. split; cbn; try done; try congruence.
  - destruct Hm as [(_ & -> & _)|(_ & Hcm & _)]; [done|by eapply Commit_stores].
  - intros i b Hb. apply (cv_pending0 i). destruct Hm as [(_ & _ & E4 & _)|(_ & _ & E4 & _)]; rewrite E4 in Hb; [done|].
    eapply lookup_weaken; [exact Hb|]. cbn [prune t_pending]. etrans; [apply sweep_sub|apply map_filter_subseteq].
  - unfold HighQC. rewrite E3. unfold higher. by destruct (_ <? _)%N.
  - unfold HighCommitQC. destruct Hm as [(_ & _ & _ & _ & _ & ->)|(_ & _ & _ & _ & _ & ->)]; [done|].
    unfold higher. by destruct (_ <? _)%N.
Qed.

(** A call that changes only the leader table. *)
Lemma triple_leadersUpdate (R : Core -> Prop) qc :
  (forall c e, R c -> R (set_parts c (c_ledger c) (c_tree c) (c_safety c) (c_pacemaker c) e)) ->
  triple (fun c => core_valid c /\ R c) (leadersUpdate qc) (fun _ c => core_valid c /\ R c).
Proof.
  intros HR c a c' es [Hc Hr] (e & _ & [= <- <- <-])%bind_Some. split; [|constructor].
  split; [by destruct Hc|by apply HR].
Qed.

(** Entering a round. *)
Lemma core_valid_enter c p r :
  core_valid c -> p_quorum p = p_quorum (c_pacemaker c) -> VerifyTC ver (p_lastRoundTC p) = true -> pm_inv ver p ->
  core_valid (set_parts c (c_ledger c) (c_tree c) (c_safety c) (startTimer p r).1 (c_leaders c)).
Proof.
  intros [] Hq Ht Hi. split; try done; [by apply startTimer_inv|cbn; congruence].
Qed.

Lemma triple_pmAdvanceRoundQC (k : N) qc :
  triple (fun c => core_valid c /\ (k <= QCRound (HighQC (c_tree c)))%N) (pmAdvanceRoundQC qc)
    (fun moved c => core_valid c /\ (k <= QCRound (HighQC (c_tree c)))%N /\
       (moved = true -> CurrentRound (c_pacemaker c) = QCRound qc +u64 1)).
Proof.
  intros c a c' es [Hc Hk] E. unfold pmAdvanceRoundQC in E. rewrite AdvanceRoundQC_eq in E. destruct (_ <? _)%N.
  - injection E as <- <- <-. split; [|constructor]. split; [by destruct Hc|]. split; [done|discriminate].
  - cbv zeta in E. apply (inj Some) in E. unpair E. split; [|apply timers_accepted]. split; [|done].
    apply core_valid_enter; [done..|]. apply (cv_pm c Hc).
Qed.

Lemma triple_pmAdvanceRoundTC tc :
  VerifyTC ver tc = true ->
  triple core_valid (pmAdvanceRoundTC tc) (fun _ => core_valid).
Proof.
  intros Ht c a c' es Hc E. unfold pmAdvanceRoundTC in E. rewrite AdvanceRoundTC_eq in E.
  destruct tc as [t|]; [|injection E as <- <- <-; split; [by destruct Hc|constructor]]. destruct (_ <? _)%N.
  - injection E as <- <- <-. split; [by destruct Hc|constructor].
  - cbv zeta in E. apply (inj Some) in E. unpair E. split; [|apply timers_accepted].
    apply core_valid_enter; [done..|]. apply (cv_pm c Hc).
Qed.

(** A timeout certificate at or above the current round moves it. *)
Lemma triple_pmAdvanceRoundTC_moves t :
  VerifyTC ver (Some t) = true ->
  triple (fun c => core_valid c /\ (CurrentRound (c_pacemaker c) <= tc_round t)%N) (pmAdvanceRoundTC (Some t))
    (fun _ c => core_valid c /\ CurrentRound (c_pacemaker c) = tc_round t +u64 1).
Proof.
  intros Ht c a c' es [Hc Hr] E. destruct (triple_pmAdvanceRoundTC (Some t) Ht c a c' es Hc E) as [Hv Hes].
  split; [|done]. split; [done|]. unfold pmAdvanceRoundTC in E. rewrite AdvanceRoundTC_eq in E.
  destruct (N.ltb_spec (tc_round t) (p_currentRound (c_pacemaker c))); [unfold CurrentRound in Hr; lia|].
  cbv zeta in E. apply (inj Some) in E. by unpair E.
Qed.

Lemma triple_pmLocalTimeoutRound cr : signs_as ver id cr -> triple core_valid (pmLocalTimeoutRound cr) (fun _ => core_valid).
Proof.
  intros Hs c a c' es Hc E. unfold pmLocalTimeoutRound in E.
  destruct (LocalTimeoutRound _ _ _ _) as [[p s] es1] eqn:El. injection E as <- <- <-.
  destruct (cv_safety c Hc) as [Hv Hi].
  destruct (LocalTimeoutRound_effects _ _ _ _ _ _ _ Hs Hv Hi (cv_commit c Hc) El) as (Hes & Hs').
  split; [|done]. pose proof (LocalTimeoutRound_pm_inv ver _ _ _ _ _ _ _ El (cv_pm c Hc)) as Hp.
  apply LocalTimeoutRound_round in El as (_ & Eq & _ & Et & _). destruct Hc. split; cbn; try done; congruence.
Qed.

Lemma triple_pmProcessRemoteTimeout cr m :
  signs_as ver id cr -> VerifyTimeout ver m = true ->
  triple core_valid (pmProcessRemoteTimeout cr m)
    (fun tc c => core_valid c /\ forall t, tc = Some t ->
       VerifyTC ver (Some t) = true /\ (CurrentRound (c_pacemaker c) <= tc_round t)%N).
Proof.
  intros Hs Hm c a c' es Hc E. unfold pmProcessRemoteTimeout in E.
  destruct (ProcessRemoteTimeout _ _ _ _ _) as [[[p s] es1] tc] eqn:El. injection E as <- <- <-.
  destruct (cv_safety c Hc) as [Hv Hi]. pose proof (step_remote ver _ _ _ _ _ _ _ _ _ Hm El) as Hstep.
  pose proof (pm_step_inv ver _ _ _ _ Hstep (cv_pm c Hc)) as Hp.
  pose proof (ProcessRemoteTimeout_round _ _ _ _ _ _ _ _ _ El) as (Er & Eq & _ & Et & _).
  assert (Forall (effect_accepted ver) es1 /\ s_verify s = ver /\ s_id s = id) as [Hes Hs'].
  { apply ProcessRemoteTimeout_inv in El as [(_ & _ & -> & -> & _)|[(_ & _ & _ & -> & -> & _)|(_ & _ & Hcase & _)]];
      [by split; [constructor|]..|].
    destruct Hcase as [(_ & _ & -> & ->)|(_ & es2 & -> & El)]; [by split; [constructor|]|].
    destruct (LocalTimeoutRound_effects _ _ _ _ _ _ _ Hs Hv Hi (cv_commit c Hc) El) as (Hes & Hs'). split; [|done].
    apply Forall_app. split; [|done]. simpl. destruct (p_timer (c_pacemaker c)); repeat constructor. }
  split; [|done]. split; [destruct Hc; split; cbn; try done; congruence|].
  intros t ->. split; [by eapply (remote_cert_valid ver); [apply (cv_pm c Hc)|apply (cv_pm_quorum c Hc)|exact Hstep]|].
  cbn. unfold CurrentRound. rewrite Er.
  apply ProcessRemoteTimeout_inv in El as [(_ & _ & _ & _ & ?)|[(_ & _ & _ & _ & _ & ?)|(Hr & _ & _ & Ec)]]; [done..|].
  destruct (_ =? _)%Z; [|done]. apply (inj Some) in Ec as ->. exact Hr.
Qed.

Lemma triple_treeExecuteAndInsert b :
  validBlockID b = true -> triple core_valid (treeExecuteAndInsert b) (fun _ => core_valid).
Proof.
  intros Hb c a c' es Hc E. unfold treeExecuteAndInsert, ExecuteAndInsert in E. injection E as <- <- <-.
  split; [|constructor]. destruct Hc. split; try done; cbn -[Speculate].
  - by apply Speculate_rec_stores.
  - intros i b' [[_ <-]|[_ Hb']]%lookup_insert_Some; [done|by eapply cv_pending0].
Qed.

Lemma triple_treeProcessVote cr m :
  signs_as ver id cr -> Vt m -> VerifyVote ver m = true ->
  triple core_valid (treeProcessVote cr m)
    (fun r c => core_valid c /\ forall qc, r = Some qc -> VerifyQC ver (Some qc) = true /\
       (exists m0, Vt m0 /\ qc_vote_info qc = vm_vote_info m0 /\ qc_ledger_commit_info qc = vm_ledger_commit_info m0) /\
       Forall (from_vote Vt) (qc_signatures qc)).
Proof.
  intros Hs Hm Hv c a c' es Hc ([[l t] r] & E & [= <- <- <-])%bind_Some. split; [|constructor].
  pose proof (hq_range (ver := ver) (Vt := Vt)) as Hr. pose proof (hq_collision_free (ver := ver) (Vt := Vt)) as Hcf.
  pose proof (votes_inv_ProcessVote ver Vt Hr Hcf _ _ _ _ _ _ _ E (cv_votes c Hc) Hm Hv) as Hvotes.
  pose proof (ProcessVote_cases _ _ _ _ _ _ _ E) as (t1 & E1 & Hcase).
  assert (core_valid (set_parts c l t1 (c_safety c) (c_pacemaker c) (c_leaders c))) as Hc1.
  { apply VerifyVote_iff in Hv as (_ & _ & _ & _ & Hq). unfold verifyCommitQC in Hq. apply orb_true_iff in Hq as [Hq|Hq].
    - bools. rewrite Hq in E1. injection E1 as <- <-. by destruct Hc.
    - refine (proj1 (proj1 (triple_treeProcessQC (vm_high_commit_qc m) Hq c tt _ [] Hc _))).
      unfold treeProcessQC. by rewrite E1. }
  split.
  - destruct Hcase as [(_ & -> & _)|(_ & _ & F1 & F2 & F3 & F4 & F5 & _)]; [done|]. destruct Hc1; cbn in *.
    unfold HighQC, HighCommitQC in *. split; cbn; unfold HighQC, HighCommitQC; rewrite ?F1, ?F2, ?F3, ?F4, ?F5; done.
  - intros qc ->. destruct (ProcessVote_cert ver Vt Hr Hcf _ _ _ _ _ _ _ E (cv_votes c Hc) Hm Hv (cv_tree_quorum c Hc))
      as (Hok & Hsq & Hsv & Hsc & Hm0 & Hor); [by rewrite (cv_tree_id c Hc)|].
    split; [|by split]. destruct (hq_vote m _ Hm Hv Hor Hsq) as [Hnz Htwo]. apply VerifyQC_iff. right.
    destruct Hsv as (_ & R1 & _ & R2 & _). destruct Hsc as (C1 & _).
    split; [unfold QCRound; simpl; by rewrite R1|]. apply Hok. rewrite R1, R2. unfold Commits. rewrite C1. exact Htwo.
Qed.

(** *** The handlers *)

Lemma triple_processCertificateQC qc :
  verifyCommitQC ver qc = true ->
  triple core_valid (processCertificateQC qc)
    (fun moved c => core_valid c /\ (moved = true ->
       CurrentRound (c_pacemaker c) = QCRound qc +u64 1 /\ (QCRound qc <= QCRound (HighQC (c_tree c)))%N)).
Proof.
  intros Hv. destruct qc as [q|]; [|by apply triple_ret; intros c Hc; split; [|discriminate]].
  eapply triple_bind; [by apply triple_treeProcessQC|intros ?; cbv beta].
  eapply triple_bind; [by apply triple_leadersUpdate|intros ?; cbv beta].
  eapply triple_weaken; [apply (triple_pmAdvanceRoundQC (QCRound (Some q)))|done|]. naive_solver.
Qed.

(** The certificate of a message, when what it moved does not matter. *)
Lemma triple_certificate qc :
  verifyCommitQC ver qc = true -> triple core_valid (processCertificateQC qc) (fun _ => core_valid).
Proof. intros Hv. eapply triple_weaken; [by apply triple_processCertificateQC|done|]. naive_solver. Qed.

Lemma triple_insert b : validBlockID b = true -> triple core_valid (insert b) (fun _ => core_valid).
Proof.
  intros Hb. eapply triple_bind; [by apply triple_treeExecuteAndInsert|intros ?; cbv beta].
  eapply triple_bind; [apply triple_fails_or|]. intros [i|]; [|apply triple_ret; tauto].
  case_bool_decide; [apply triple_ret; tauto|]. eapply triple_weaken; [by apply (triple_emit core_valid)|tauto|done].
Qed.

Lemma triple_safetyMakeVote cr b tc :
  signs_as ver id cr ->
  triple core_valid (safetyMakeVote cr b tc)
    (fun v c => core_valid c /\ forall m, v = Some m -> VerifyVote ver m = true).
Proof.
  intros Hs c a c' es Hc E. unfold safetyMakeVote in E. destruct (MakeVote _ _ _ _ _ _) as [s v] eqn:Ev.
  injection E as <- <- <-. split; [|constructor]. destruct (cv_safety c Hc) as [Hv Hi]. split.
  - assert (s_verify s = s_verify (c_safety c) /\ s_id s = s_id (c_safety c)) as [E1 E2].
    { revert Ev. unfold MakeVote. destruct (_ || _); [by intros [= <-]|]. destruct (PendingState _ _); [|by intros [= <-]].
      destruct (sign _ _ _); by intros [= <-]. }
    destruct Hc. split; cbn; try done. by rewrite E1, E2.
  - intros m ->. rewrite <- Hv. eapply (MakeVote_accepted cr _ (c_ledger c) (c_tree c) b tc).
    + by rewrite Hv, Hi.
    + intros i st. apply stores_state with (1 := cv_ledger c Hc).
    + unfold verifyCommitQC. by rewrite Hv, (cv_commit c Hc), orb_true_r.
    + by rewrite Ev.
Qed.

(** A new round may be proposed in once its entry is justified. *)
Definition justified (tc : option TimeoutCert) (c : Core) : Prop :=
  let round := CurrentRound (c_pacemaker c) in
  (QCRound (HighQC (c_tree c)) < round)%N ->
  QCRound (HighQC (c_tree c)) +u64 1 = round \/ exists t, tc = Some t /\ tc_round t +u64 1 = round.

Lemma proposal_accepted cr c txns tc sig :
  core_valid c -> signs_as ver id cr -> VerifyTC ver tc = true -> justified tc c ->
  let b := GenerateBlock (c_tree c) txns (CurrentRound (c_pacemaker c)) in
  sign cr id (b_id b) = Some sig ->
  effect_accepted ver (NetProposal (MkProposalMsg (Some b)
    (justifyingTC (QCRound (b_qc b)) (CurrentRound (c_pacemaker c)) tc) (HighCommitQC (c_tree c)) id (Some sig))).
Proof.
  intros Hc Hs Ht Hj b Hsig Hlt. cbn [pm_block Block_GetQc Block_GetRound] in Hlt.
  pose proof (cv_high c Hc) as Hq. destruct (VerifyQC_some _ _ Hq) as [q Eq].
  change (QCRound (HighQC (c_tree c)) < CurrentRound (c_pacemaker c))%N in Hlt. specialize (Hj Hlt).
  unfold sign in Hsig. apply bind_Some in Hsig as (sg & Hsig & [= <-]).
  apply VerifyProposal_iff. exists b, q. cbn [pm_block pm_last_round_tc pm_high_commit_qc pm_sender pm_sig b_round b_qc b GenerateBlock NewBlock].
  change (t_highQC (c_tree c)) with (HighQC (c_tree c)). rewrite Eq in *. unfold justifyingTC.
  split_and!; try done.
  - unfold wellFormed. destruct (N.eqb_spec (CurrentRound (c_pacemaker c)) 0); [lia|].
    destruct (N.eqb_spec (QCRound (Some q) +u64 1) (CurrentRound (c_pacemaker c))); [by rewrite bool_decide_eq_true_2|].
    destruct Hj as [?|(t & -> & <-)]; [done|]. simpl. by rewrite N.eqb_refl.
  - unfold validBlockID. by rewrite bool_decide_eq_true_2.
  - by apply Hs.
  - unfold verifyCommitQC. by rewrite (cv_commit c Hc), orb_true_r.
  - by destruct (_ =? _)%N.
Qed.

Lemma triple_processNewRoundEvent cr txns tc :
  signs_as ver id cr -> VerifyTC ver tc = true ->
  triple (fun c => core_valid c /\ justified tc c) (processNewRoundEvent cr txns tc) (fun _ => core_valid).
Proof.
  intros Hs Ht. unfold processNewRoundEvent. eapply triple_bind; [apply triple_gets|intros round].
  eapply triple_bind; [apply triple_fails_or|intros leader]. eapply triple_bind; [apply triple_gets|intros i].
  destruct (negb _); [apply triple_ret; tauto|]. eapply triple_bind; [apply triple_gets|intros b].
  destruct (sign cr i (b_id b)) as [sig|] eqn:Esig; [|apply triple_ret; tauto].
  eapply triple_bind; [apply triple_gets|intros q].
  eapply triple_weaken; [apply triple_emit|intros c Hc; exact Hc|intros ? c Hc; simpl in Hc; tauto].
  intros c [[[[[[Hc Hj] ->] _] ->] ->] ->]. rewrite (cv_id c Hc) in *. by eapply proposal_accepted.
Qed.

Lemma triple_processProposalMsg cr m :
  signs_as ver id cr -> VerifyProposal ver m = true -> triple core_valid (processProposalMsg cr m) (fun _ => core_valid).
Proof.
  intros Hs (b & q & Eb & Eq & _ & _ & Hid & _ & _ & Hqc & Hcq & Htc)%VerifyProposal_iff.
  unfold processProposalMsg. rewrite Eb. cbn [Block_GetQc Block_GetRound Block_GetAuthor default]. rewrite Eq.
  eapply triple_bind; [apply triple_certificate; unfold verifyCommitQC; by rewrite Hqc, orb_true_r|intros ?; cbv beta].
  eapply triple_bind; [by apply triple_certificate|intros ?; cbv beta].
  eapply triple_bind; [by apply triple_pmAdvanceRoundTC|intros ?; cbv beta]. eapply triple_bind; [apply triple_gets|intros round].
  eapply triple_bind; [apply triple_fails_or|intros leader]. destruct (_ || _); [apply triple_ret; tauto|].
  eapply triple_bind; [eapply triple_weaken; [by apply (triple_insert b)|tauto|intros ? ? Hx; exact Hx]|intros ?; cbv beta].
  eapply triple_bind; [by apply triple_safetyMakeVote|]. intros [v|]; [|apply triple_ret; tauto].
  eapply triple_bind; [apply triple_fails_or|intros to].
  eapply triple_weaken; [apply triple_emit|intros c Hc; exact Hc|intros ? c Hc; simpl in Hc; tauto].
  intros c ((_ & Hv) & _). by apply Hv.
Qed.

Lemma triple_processVoteMsg cr txns m :
  signs_as ver id cr -> Vt m -> VerifyVote ver m = true -> triple core_valid (processVoteMsg cr txns m) (fun _ => core_valid).
Proof.
  intros Hs Hm Hv. unfold processVoteMsg. eapply triple_bind; [apply triple_gets|intros current].
  destruct (_ || _); [apply triple_ret; tauto|].
  eapply triple_bind; [eapply triple_weaken; [by apply (triple_treeProcessVote cr m)|tauto|intros ? ? Hx; exact Hx]|].
  intros [q|]; [|apply triple_ret; tauto].
  intros c r c' es [Hc Hq]. revert r c' es. destruct (Hq q eq_refl) as [Hq1 _]. clear Hq. rename Hq1 into Hq. revert c Hc.
  enough (triple core_valid (moved ← processCertificateQC (Some q); if negb moved then mret tt else processNewRoundEvent cr txns None)
    (fun _ => core_valid)) as Ht by (intros c Hc r c' es E; exact (Ht c r c' es Hc E)).
  eapply triple_bind; [apply triple_processCertificateQC; unfold verifyCommitQC; by rewrite Hq, orb_true_r|].
  intros [|]; [|apply triple_ret; tauto]. eapply triple_weaken; [by apply triple_processNewRoundEvent| |done].
  intros c [Hc Hr]. destruct (Hr eq_refl) as [Er Hle]. split; [done|]. intros Hlt. left. rewrite Er in *.
  f_equal. assert (QCRound (Some q) +u64 1 <= QCRound (Some q) + 1)%N by apply N.Div0.mod_le. lia.
Qed.

Lemma triple_processTimeoutMsg cr txns m :
  signs_as ver id cr -> VerifyTimeout ver m = true -> triple core_valid (processTimeoutMsg cr txns m) (fun _ => core_valid).
Proof.
  intros Hs Hv. pose proof Hv as (i & q & Em & Eq & _ & _ & _ & Hqc & Hcq & Htc)%VerifyTimeout_iff.
  unfold processTimeoutMsg. rewrite Em at 1. cbn [TimeoutInfo_GetHighQc]. rewrite Eq.
  eapply triple_bind; [apply triple_certificate; unfold verifyCommitQC; by rewrite Hqc, orb_true_r|intros ?; cbv beta].
  eapply triple_bind; [by apply triple_certificate|intros ?; cbv beta].
  eapply triple_bind; [by apply triple_pmAdvanceRoundTC|intros ?; cbv beta].
  eapply triple_bind; [by apply triple_pmProcessRemoteTimeout|]. intros [t|]; [|apply triple_ret; tauto].
  intros c r c' es [Hc Hall]. destruct (Hall t eq_refl) as [Ht Hr]. revert r c' es. revert c Hc Hr Hall.
  enough (triple (fun c => core_valid c /\ (CurrentRound (c_pacemaker c) <= tc_round t)%N)
    (_ ← pmAdvanceRoundTC (Some t); processNewRoundEvent cr txns (Some t)) (fun _ => core_valid)) as HT
    by (intros c Hc Hr _ r c' es E; exact (HT c r c' es (conj Hc Hr) E)).
  eapply triple_bind; [by apply triple_pmAdvanceRoundTC_moves|intros ?; cbv beta].
  eapply triple_weaken; [by apply triple_processNewRoundEvent| |done].
  intros c [Hc Er]. split; [done|]. intros _. right. by exists t.
Qed.

Lemma triple_Step cr txns e :
  signs_as ver id cr -> event_verified ver Vt e -> triple core_valid (Step cr txns e) (fun _ => core_valid).
Proof.
  intros Hs He. unfold Step. eapply triple_bind with (R := fun _ => core_valid); [|intros ?; cbv beta].
  - destruct e as [m|m|m|ep|b|i]; cbn [dispatch]; cbn [event_verified] in He.
    + apply triple_processProposalMsg; [exact Hs|exact He].
    + destruct He as [Hm Hv]. by apply triple_processVoteMsg.
    + by apply triple_processTimeoutMsg.
    + eapply triple_bind; [apply triple_gets|intros ep']. destruct (_ =? _)%N; [|apply triple_ret; tauto].
      eapply triple_weaken; [by apply triple_pmLocalTimeoutRound|tauto|done].
    + by apply triple_insert.
    + unfold serveBlock. eapply triple_bind; [apply triple_gets|intros r].
      eapply triple_weaken; [apply triple_emit|intros c Hc; exact Hc|intros ? c Hc; simpl in Hc; tauto].
      intros c [Hc ->]. cbn [effect_accepted]. destruct (PendingBlock _ _) as [b|] eqn:Ep;
        [|destruct (CommittedBlock _ _) as [b|] eqn:Ec; [|done]]; unfold VerifyBlock; rewrite bool_decide_eq_true_2 by done.
      * by apply (cv_pending c Hc i).
      * by apply (st_committed _ _ _ (cv_ledger c Hc) i).
  - eapply triple_bind; [apply triple_gets|intros obs]. destruct obs; [|apply triple_ret; tauto].
    eapply triple_bind; [apply triple_gets|intros st]. eapply triple_weaken; [by apply (triple_emit core_valid)|tauto|done].
Qed.
End wire.

(** ** Runs on verified events *)

(** A replica that was built, started and then fed what the edge lets through,
    each event with a signer that holds the replica's key. *)
Inductive verified_run `{RangeOrder} `{FloatConv} (cfg : Config) (Vt : VoteMsg -> Prop) : list effect -> Core -> Prop :=
  | verified_start c cr txns c' es :
      New cfg = Some c -> signs_as (cfg_verifier cfg) (cfg_ID cfg) cr ->
      Start cr txns c = Some (tt, c', es) -> verified_run cfg Vt es c'
  | verified_event es c cr txns e c' es' :
      verified_run cfg Vt es c -> signs_as (cfg_verifier cfg) (cfg_ID cfg) cr ->
      event_verified (cfg_verifier cfg) Vt e ->
      Step cr txns e c = Some (tt, c', es') -> verified_run cfg Vt (es ++ es') c'
  | verified_stop es c c' es' :
      verified_run cfg Vt es c -> CoreStop c = Some (tt, c', es') -> verified_run cfg Vt (es ++ es') c'.

Lemma core_valid_new cfg Vt c :
  cfg_Ledger cfg = NewMemLedger -> New cfg = Some c -> core_valid (cfg_verifier cfg) Vt (cfg_ID cfg) c.
Proof.
  intros Hl E. unfold New in E. destruct (_ <? _)%Z; [done|]. apply (inj Some) in E as <-. rewrite Hl.
  split; [reflexivity| |reflexivity|reflexivity| | |apply VerifyQC_genesis|apply VerifyQC_genesis|by split|apply pm_inv_new|
    reflexivity|reflexivity].
  - split; cbn [NewMemLedger c_ledger l_Execute l_pending l_held l_committed l_commitState].
    + intros prev payload. apply length_sha256.
    + intros id s Hs. by rewrite lookup_empty in Hs.
    + intros id b Hb. by rewrite lookup_empty in Hb.
    + intros id b [_ <-]%lookup_singleton_Some. unfold validBlockID. by rewrite bool_decide_eq_true_2.
    + apply length_sha256.
  - intros i b Hb. cbn in Hb. by rewrite lookup_empty in Hb.
  - apply votes_inv_new.
Qed.

Lemma triple_Start `{RangeOrder} `{FloatConv} cfg Vt `{!HonestQuorums (cfg_verifier cfg) Vt} cr txns c c' es :
  cfg_Ledger cfg = NewMemLedger -> New cfg = Some c -> signs_as (cfg_verifier cfg) (cfg_ID cfg) cr ->
  Start cr txns c = Some (tt, c', es) ->
  core_valid (cfg_verifier cfg) Vt (cfg_ID cfg) c' /\ Forall (effect_accepted (cfg_verifier cfg)) es.
Proof.
  intros Hl Hn Hs. set (ver := cfg_verifier cfg) in *.
  apply (triple_bind ver (fun c => core_valid ver Vt (cfg_ID cfg) c /\ (0 <= QCRound (HighQC (c_tree c)))%N /\
      c_tree c = NewBlockTree (cfg_ID cfg) (v_quorum ver) /\ CurrentRound (c_pacemaker c) = 0%N) _
    (fun _ c => core_valid ver Vt (cfg_ID cfg) c /\ justified None c) _ (fun _ => core_valid ver Vt (cfg_ID cfg))).
  - intros c1 a c2 es1 (Hc & Hz & Et & Er) E.
    destruct (triple_pmAdvanceRoundQC ver Vt (cfg_ID cfg) 0 (Some genesisQC) c1 a c2 es1 (conj Hc Hz) E) as [(Hc2 & _ & Hr) Hes].
    split; [|done]. split; [done|]. intros _. left. unfold pmAdvanceRoundQC in E. rewrite AdvanceRoundQC_eq in E.
    unfold CurrentRound in Er. rewrite Er, genesisQC_round in E. cbn [N.ltb N.compare] in E. cbv zeta in E.
    apply (inj Some) in E. unpair E. rewrite Hr by done. cbn [c_tree set_parts]. rewrite Et. reflexivity.
  - intros a. by apply triple_processNewRoundEvent.
  - split_and!; [by apply core_valid_new|apply N.le_0_l|..]; unfold New in Hn; destruct (_ <? _)%Z; try done;
      apply (inj Some) in Hn as <-; reflexivity.
Qed.

Lemma verified_run_valid `{RangeOrder} `{FloatConv} cfg Vt `{!HonestQuorums (cfg_verifier cfg) Vt} es c :
  cfg_Ledger cfg = NewMemLedger -> verified_run cfg Vt es c ->
  core_valid (cfg_verifier cfg) Vt (cfg_ID cfg) c /\ Forall (effect_accepted (cfg_verifier cfg)) es.
Proof.
  intros Hl. induction 1 as [c cr txns c' es Hn Hs E|es c cr txns e c' es' _ [IHc IHe] Hs He E|es c c' es' _ [IHc IHe] E].
  - by eapply triple_Start.
  - destruct (triple_Step (cfg_verifier cfg) Vt (cfg_ID cfg) cr txns e Hs He c tt c' es' IHc E).
    split; [done|by apply Forall_app].
  - unfold CoreStop in E. cbn [Pacemaker.Stop] in E. injection E as <- <-. split.
    + destruct IHc. by split.
    + apply Forall_app. split; [done|]. destruct (p_timer _); repeat constructor.
Qed.

(** C6. Everything an honest replica sends is accepted. Built by [New] over a
    fresh ledger, started, and fed nothing but what the edge lets through, a
    replica sends votes, timeouts and blocks that pass the checks of every
    receiver, and proposals that do unless they extend a certificate of their own
    round or a later one; and the certificates it holds, to attach to later
    messages, all verify. *)
Theorem sent_messages_accepted `{RangeOrder} `{FloatConv} (cfg : Config) (Vt : VoteMsg -> Prop)
    `{!HonestQuorums (cfg_verifier cfg) Vt} (es : list effect) (c : Core) :
  cfg_Ledger cfg = NewMemLedger -> verified_run cfg Vt es c ->
  Forall (effect_accepted (cfg_verifier cfg)) es /\
  VerifyQC (cfg_verifier cfg) (HighQC (c_tree c)) = true /\
  VerifyQC (cfg_verifier cfg) (HighCommitQC (c_tree c)) = true /\
  VerifyTC (cfg_verifier cfg) (LastRoundTC (c_pacemaker c)) = true.
Proof.
  intros Hl Hr. destruct (verified_run_valid cfg Vt es c Hl Hr) as [Hc He].
  split; [done|]. split; [apply (cv_high _ _ _ _ Hc)|]. split; [apply (cv_commit _ _ _ _ Hc)|apply (cv_tc _ _ _ _ Hc)].
Qed.

Lemma verified_feed `{RangeOrder} `{FloatConv} cfg Vt evs es c c' es' :
  verified_run cfg Vt es c ->
  Forall (fun ev => signs_as (cfg_verifier cfg) (cfg_ID cfg) ev.1.1 /\ event_verified (cfg_verifier cfg) Vt ev.2) evs ->
  feed evs c = Some (c', es') -> verified_run cfg Vt (es ++ es') c'.
Proof.
  intros Hr HF. revert es c es' Hr. induction HF as [|[[cr txns] e] evs [Hs He] _ IH]; intros es c es' Hr; simpl.
  { intros [= <- <-]. by rewrite app_nil_r. }
  intros ([[[] c1] es1] & E & ([c2 es2] & Ef & [= <- <-])%bind_Some)%bind_Some.
  rewrite (assoc_L (++)). eapply IH; [|exact Ef]. by eapply verified_event.
Qed.

Lemma demo_signs_as : signs_as (cfg_verifier quiet_cfg) (cfg_ID quiet_cfg) demo_crypto.
Proof. intros d sg [= <-]. reflexivity. Qed.

Lemma demo_honest_quorums : HonestQuorums (cfg_verifier quiet_cfg) demo_votes.
Proof.
  split; [|exact demo_votes_cf|].
  - intros m (i & -> & _)%list_elem_of_fmap. split; vm_compute; reflexivity.
  - intros m sigs (i & -> & _)%list_elem_of_fmap _ _. split; [vm_compute; discriminate|intros _; vm_compute; reflexivity].
Qed.

Definition voted_run : option (Core * list effect) := quiet (VoteEvent <$> (demo_votemsg <$> [4; 1; 2]%N)).

Lemma sent_messages_accepted_witness :
  exists c es m, voted_run = Some (c, es) /\ sent_proposals es = [m] /\ VerifyProposal (cfg_verifier quiet_cfg) m = true.
Proof.
  assert (option_map (fun r => (fun m => (Block_GetRound (pm_block m), QCRound (Block_GetQc (pm_block m)))) <$> sent_proposals r.2)
    voted_run = Some [(2%N, 1%N)]) as E by (vm_compute; reflexivity).
  destruct voted_run as [[c es]|] eqn:Er; [|discriminate E]. cbn [option_map snd] in E. apply (inj Some) in E.
  destruct (sent_proposals es) as [|m [|]] eqn:Em; [discriminate E| |discriminate E]. exists c, es, m.
  split; [reflexivity|]. split; [exact Em|].
  assert (@verified_run canonical_range least_int64 quiet_cfg demo_votes es c) as Hr.
  { unfold voted_run, quiet in Er. apply bind_Some in Er as (c0 & E0 & (q & E1 & E2)%bind_Some). destruct q as [[[] c1] es1].
    apply bind_Some in E2 as ([c2 es2] & E2 & [= <- <-]). eapply verified_feed; [|  |exact E2].
    - apply (verified_start quiet_cfg demo_votes c0 demo_crypto [] c1 es1 E0); [exact demo_signs_as|exact E1].
    - cbn [fmap list_fmap]. repeat (constructor; [split; [exact demo_signs_as|]; cbn [snd event_verified]; split;
        [unfold demo_votes; set_solver|vm_compute; reflexivity]|]). constructor. }
  destruct (@sent_messages_accepted canonical_range least_int64 quiet_cfg demo_votes demo_honest_quorums es c eq_refl Hr) as [HF _].
  assert (NetProposal m ∈ es) as Hin.
  { assert (m ∈ sent_proposals es) as Hm by (rewrite Em; by left). unfold sent_proposals in Hm.
    apply list_elem_of_omap in Hm as (e & He & Hm). destruct e; try discriminate Hm. by injection Hm as ->. }
  rewrite Forall_forall in HF. apply (HF _ Hin). cbn [fmap list_fmap] in E. injection E as E1 E2. rewrite E1, E2. reflexivity.
Defined.

(** ** The interface discharged *)

(** A vote that occurs in the execution. *)
Definition seen_vote (x : execution) (m : VoteMsg) : Prop :=
  x_hashed x (DLedgerCommit (vm_ledger_commit_info m)) /\ x_hashed x (DVoteInfo (vm_vote_info m)) /\
  (VoteInfo_GetRound (vm_vote_info m) < two64)%N /\ (VoteInfo_GetParentRound (vm_vote_info m) < two64)%N /\
  x_presented x (Signature_GetSig (vm_sig m)).

Lemma signed_quorum_honest x dig sigs :
  execution_ok x -> signed_by_quorum (x_verifier x) dig sigs ->
  exists s, s ∈ sigs /\ honest x (sg_signer s) /\ Verify (v_crypto (x_verifier x)) (sg_signer s) dig (sg_sig s) = true.
Proof.
  intros Hx (Hso & Hv & Hq). rewrite Forall_forall in Hv.
  assert (forall i, i ∈ signers sigs -> exists s, s ∈ sigs /\ sg_signer s = i) as Hin.
  { intros i Hi. unfold signers in Hi. rewrite elem_of_list_to_set in Hi. apply list_elem_of_fmap_1 in Hi as (s & -> & Hs). eauto. }
  assert (signers sigs ⊆ x_validators x) as Hsub.
  { intros i (s & Hs & <-)%Hin. eapply (xo_keys x Hx), (Hv s Hs). }
  destruct (quorum_honest (x_validators x) (x_byzantine x) (signers sigs) Hsub (xo_nonempty x Hx) (xo_faults x Hx)) as (i & Hi & Hb).
  { unfold signers. rewrite <- (xo_quorum x Hx), nodup_list_to_set_size, length_fmap; [done|by eapply nodup_of_strict]. }
  destruct (Hin i Hi) as (s & Hs & <-). exists s. split; [done|]. split; [by split; [apply Hsub|]|by apply (Hv s)].
Qed.

Lemma signed_by_quorum_same v v' dig sigs : same_verifier v v' -> signed_by_quorum v dig sigs -> signed_by_quorum v' dig sigs.
Proof.
  intros Hv (H1 & H2 & H3). split; [done|]. split; [|by rewrite <- (proj2 Hv)].
  eapply Forall_impl; [exact H2|]. intros s Hs. by rewrite <- (verifySig_same _ _ Hv).
Qed.

(** With at most [Faulty n] Byzantine validators, a quorum of signatures over a
    vote means that an honest replica cast it, so the vote is of a positive round
    and commits only over consecutive rounds. *)
Lemma execution_honest_quorums (x : execution) (ver : Verifier) :
  execution_ok x -> same_verifier ver (x_verifier x) -> HonestQuorums ver (seen_vote x).
Proof.
  intros Hx Hsame. split.
  - intros m (_ & _ & ? & ? & _). done.
  - intros y z (m & (A1 & A2 & _) & Hy) (m' & (B1 & B2 & _) & Hz). apply (xo_collision_free x Hx).
    + destruct Hy as [->| ->]; eauto.
    + destruct Hz as [->| ->]; eauto.
  - intros m sigs (H1 & H2 & R1 & R2 & _) (_ & Hval & Hbind & _)%VerifyVote_iff Hor Hsq%(signed_by_quorum_same _ _ _ _ Hsame).
    destruct (signed_quorum_honest x _ _ Hx Hsq) as (s & Hin & Hh & Hver).
    assert (x_presented x (sg_sig s)) as Hpres.
    { rewrite Forall_forall in Hor. destruct (Hor s Hin) as (m' & (_ & _ & _ & _ & Hp) & <-). by destruct (vm_sig m'). }
    pose proof (proj1 (validVote_spec _ _) Hval) as (L1 & L2 & L3 & L4 & L5).
    destruct (honest_commit_vote x Hx _ _ _ Hh H1 L5 Hpres Hver) as (b & tc & vi & ci & He & [Hc1 Hc2]).
    destruct (honest_vote x Hx _ b tc vi ci Hh He) as (_ & Er & _ & Ep & _ & _ & _ & Hlt & Hvb & Hok).
    destruct (xo_votes_seen x Hx _ b tc vi ci Hh He) as (_ & Hhv & _).
    assert (same_vote_info (Some vi) (vm_vote_info m)) as (_ & S2 & _ & S4 & _).
    { apply VoteInfoHash_preimage_inj; [done|by split_and!|].
      apply (hashed_inj x Hx (DVoteInfo (Some vi)) (DVoteInfo (vm_vote_info m))); [done..|].
      change (VoteInfoHash (Some vi) = VoteInfoHash (vm_vote_info m)). rewrite Hvb, Hbind. exact Hc2. }
    rewrite <- S2, <- S4. cbn [VoteInfo_GetRound VoteInfo_GetParentRound]. rewrite Er, Ep. split; [lia|]. intros Hcm.
    destruct (ho_vote _ _ (honest_history x Hx _ Hh) _ _ _ _ He) as (s0 & s1 & _ & Hv).
    destruct (vt_commit _ _ _ _ _ _ Hv) as [Hz|]; [|done]. exfalso. apply Commits_iff in Hcm as (y & Hy & Hne).
    rewrite <- Hc1 in Hy. cbn in Hy. rewrite Hz in Hy. by apply elem_of_replicate in Hy as [-> _].
Qed.
