(* ===== verification/Net.v ===== *)
(** [diemnet/server.go] and [diemnet/gorums.go]: the inbound handlers that verify
    every message before the core sees it, and the bounded outbound queue that
    drops rather than blocks.

    Gorums is a parameter: a node is an element of [Node] with the id
    [Node.ID()] gives, a configuration is the list [Config.Nodes()] gives. The
    closures of type [call] are values of an inductive type, performed by the
    sender goroutine. *)

From stdpp Require Import prelude gmap list fin_maps.
From Stdlib Require Import NArith ZArith Lia Strings.Byte.
From S2P Require Import Prelude Sha256 Proto Hash Types Quorum Verify Ledger BlockTree Safety Seams Pacemaker Leader Core Wire.

(** ** The inbound handlers

    A handler returns the events it sinks. *)

Record handler := MkHandler { h_ver : Verifier; h_rejected : uint64 }.

Definition reject (h : handler) : handler := MkHandler (h_ver h) (h_rejected h +u64 1).

Definition handleProposal (h : handler) (m : ProposalMsg) : handler * list Event :=
  if negb (VerifyProposal (h_ver h) m) then (reject h, []) else (h, [ProposalEvent m]).
Definition handleVote (h : handler) (m : VoteMsg) : handler * list Event :=
  if negb (VerifyVote (h_ver h) m) then (reject h, []) else (h, [VoteEvent m]).
Definition handleTimeout (h : handler) (m : TimeoutMsg) : handler * list Event :=
  if negb (VerifyTimeout (h_ver h) m) then (reject h, []) else (h, [TimeoutEvent m]).

(** [RequestBlock] sinks the request and then waits; [w] is what woke it. *)
Inductive wakeup := Replied (b : option Block) | ContextDone.
Inductive rpc_error := errNoBlock | errContext.

Definition handleRequestBlock (id : bytes) (w : wakeup) : list Event * (rpc_error + Block) :=
  ([BlockRequestEvent id],
   match w with
   | Replied None => inl errNoBlock
   | Replied (Some b) => inr b
   | ContextDone => inl errContext
   end).

(** [fetch]: the replies that came without an error, in the order they came. *)
Fixpoint fetch (v : Verifier) (id : bytes) (replies : list Block) : list Event :=
  match replies with
  | [] => []
  | b :: replies => if VerifyBlock v b id then [BlockEvent b] else fetch v id replies
  end.

(** ** The outbound queue *)

Inductive call :=
  | CallProposal (p : ProposalMsg)
  | CallVote (v : VoteMsg) (to : uint32)
  | CallTimeout (m : TimeoutMsg)
  | CallRequestBlock (id : bytes).

Definition defaultOutQueue : Z := 1024.

Section transport.
Context {Node : Type} (node_ID : Node -> uint32).

(** What the sender goroutine hands to Gorums. *)
Inductive send :=
  | SendProposal (cfg : list Node) (p : ProposalMsg)
  | SendVote (n : Node) (v : VoteMsg)
  | SendTimeout (cfg : list Node) (m : TimeoutMsg)
  | GoFetch (cfg : list Node) (id : bytes).

Record Transport := MkTransport {
  tr_handler : handler;
  tr_size : nat;
  tr_out : list call;
  tr_nodes : option (gmap uint32 Node);
  tr_dropped : uint64;
  (** Whether the sender goroutine still drains. *)
  tr_draining : bool;
}.

(** A negative channel capacity panics. *)
Definition NewTransport (ver : Verifier) (OutQueue : Z) : option Transport :=
  let size := if (OutQueue =? 0)%Z then defaultOutQueue else OutQueue in
  if (size <? 0)%Z then None else Some (MkTransport (MkHandler ver 0) (Z.to_nat size) [] None 0 true).

Definition count_drop (t : Transport) : Transport :=
  MkTransport (tr_handler t) (tr_size t) (tr_out t) (tr_nodes t) (tr_dropped t +u64 1) (tr_draining t).
Definition set_out (out : list call) (t : Transport) : Transport :=
  MkTransport (tr_handler t) (tr_size t) out (tr_nodes t) (tr_dropped t) (tr_draining t).

Definition enqueue (t : Transport) (fn : call) : Transport :=
  if (length (tr_out t) <? tr_size t)%nat then set_out (tr_out t ++ [fn]) t else count_drop t.

Definition sendProposal (t : Transport) (p : ProposalMsg) : Transport := enqueue t (CallProposal p).
Definition sendVote (t : Transport) (v : VoteMsg) (to : uint32) : Transport := enqueue t (CallVote v to).
Definition sendTimeout (t : Transport) (m : TimeoutMsg) : Transport := enqueue t (CallTimeout m).
Definition sendRequestBlock (t : Transport) (id : bytes) : Transport := enqueue t (CallRequestBlock id).

(** The peer configuration indexed by id; of two nodes with one id the later
    one stays. *)
Definition index_nodes (cfg : list Node) : gmap uint32 Node :=
  fold_left (fun m n => <[node_ID n := n]> m) cfg ∅.

(** The index is made on first use. *)
Definition node (t : Transport) (cfg : list Node) (id : uint32) : Transport * option Node :=
  let nodes := default (index_nodes cfg) (tr_nodes t) in
  (MkTransport (tr_handler t) (tr_size t) (tr_out t) (Some nodes) (tr_dropped t) (tr_draining t), nodes !! id).

(** The body of a call; [None] sends nothing. *)
Definition perform (t : Transport) (cfg : list Node) (fn : call) : Transport * option send :=
  match fn with
  | CallProposal p => (t, Some (SendProposal cfg p))
  | CallVote v to =>
      let '(t, n) := node t cfg to in
      match n with
      | None => (count_drop t, None)
      | Some n => (t, Some (SendVote n v))
      end
  | CallTimeout m => (t, Some (SendTimeout cfg m))
  | CallRequestBlock id => (t, Some (GoFetch cfg id))
  end.

(** [peers]. *)
Definition peers (cfg : list Node) : option (list Node) := if (length cfg =? 0)%nat then None else Some cfg.

(** One pass of [drain] that takes a call; [cfg] is the server's peer
    configuration at that time. [None]: there is nothing to take, or the
    goroutine has returned. *)
Definition drain (t : Transport) (cfg : list Node) : option (Transport * call * option send) :=
  if negb (tr_draining t) then None
  else match tr_out t with
  | [] => None
  | fn :: out =>
      let t := set_out out t in
      match peers cfg with
      | None => Some (count_drop t, fn, None)
      | Some cfg => let '(t, s) := perform t cfg fn in Some (t, fn, s)
      end
  end.

(** The pass of [drain] that finds the context done. *)
Definition drain_stop (t : Transport) : Transport :=
  MkTransport (tr_handler t) (tr_size t) (tr_out t) (tr_nodes t) (tr_dropped t) false.

Record Counters := MkCounters { OutboundDropped : uint64; Rejected : uint64 }.
Definition counters (t : Transport) : Counters := MkCounters (tr_dropped t) (h_rejected (tr_handler t)).

(** ** The queue conserves calls *)

Inductive tr_act := ActEnqueue (fn : call) | ActDrain (cfg : list Node) | ActCancel.

(** The calls drained so far, with what each sent, oldest first. A drain with
    nothing to take is not a step. *)
Definition tr_step (st : Transport * list (call * option send)) (a : tr_act)
    : option (Transport * list (call * option send)) :=
  let '(t, done) := st in
  match a with
  | ActEnqueue fn => Some (enqueue t fn, done)
  | ActDrain cfg => '(t, fn, s) ← drain t cfg; Some (t, done ++ [(fn, s)])
  | ActCancel => Some (drain_stop t, done)
  end.

Fixpoint tr_run (st : Transport * list (call * option send)) (az : list tr_act)
    : option (Transport * list (call * option send)) :=
  match az with [] => Some st | a :: az => st ← tr_step st a; tr_run st az end.

Definition enqueued (az : list tr_act) : list call :=
  omap (fun a => match a with ActEnqueue fn => Some fn | _ => None end) az.
Definition unsent (done : list (call * option send)) : list (call * option send) :=
  filter (fun d => d.2 = None) done.

(** A send carries out its call: a broadcast goes to every peer, a vote to the
    node with the id it is addressed to. *)
Definition carries_out (fn : call) (s : send) : Prop :=
  match fn, s with
  | CallProposal p, SendProposal _ p' => p' = p
  | CallVote v to, SendVote n v' => v' = v /\ node_ID n = to
  | CallTimeout m, SendTimeout _ m' => m' = m
  | CallRequestBlock id, GoFetch _ id' => id' = id
  | _, _ => False
  end.

Definition index_ok (nodes : gmap uint32 Node) : Prop := forall id n, nodes !! id = Some n -> node_ID n = id.

Lemma index_nodes_ok cfg : index_ok (index_nodes cfg).
Proof.
  unfold index_nodes. assert (forall m, index_ok m -> index_ok (fold_left (fun m n => <[node_ID n := n]> m) cfg m)) as Hf.
  { induction cfg as [|x cfg IH]; intros m Hm; [done|]. simpl. apply IH. intros id n [[<- <-]|[_ Hn]]%lookup_insert_Some; auto. }
  apply Hf. intros id n Hn. by rewrite lookup_empty in Hn.
Qed.

Record tr_inv (enq : list call) (st : Transport * list (call * option send)) : Prop := {
  ti_fifo : st.2.*1 ++ tr_out st.1 `sublist_of` enq;
  ti_bound : length (tr_out st.1) <= tr_size st.1;
  ti_dropped : tr_dropped st.1 =
    (N.of_nat (length enq - length (st.2.*1 ++ tr_out st.1) + length (unsent st.2)) mod two64)%N;
  ti_nodes : forall nodes, tr_nodes st.1 = Some nodes -> index_ok nodes;
  ti_sent : forall fn s, (fn, Some s) ∈ st.2 -> carries_out fn s;
}.

Lemma add64_count n k : k = (N.of_nat n mod two64)%N -> (k +u64 1 = N.of_nat (n + 1) mod two64)%N.
Proof. intros ->. unfold add64. rewrite N.Div0.add_mod_idemp_l. f_equal. lia. Qed.

Lemma tr_inv_enqueue enq t done fn : tr_inv enq (t, done) -> tr_inv (enq ++ [fn]) (enqueue t fn, done).
Proof.
  intros [H1 H2 H3 H4 H5]. simpl in *. pose proof (sublist_length _ _ H1) as Hl. unfold enqueue.
  destruct (Nat.ltb_spec (length (tr_out t)) (tr_size t)); split; simpl; try done.
  - rewrite (assoc_L (++)). by apply sublist_app.
  - rewrite length_app. simpl. lia.
  - rewrite H3. rewrite (assoc_L (++)), !(length_app _ [fn]). simpl. do 2 f_equal. lia.
  - by apply sublist_inserts_r.
  - rewrite (length_app _ [fn]). simpl. erewrite add64_count; [|exact H3]. do 2 f_equal. lia.
Qed.

Lemma perform_inv t cfg fn t' s :
  perform t cfg fn = (t', s) -> (forall nodes, tr_nodes t = Some nodes -> index_ok nodes) ->
  tr_out t' = tr_out t /\ tr_size t' = tr_size t /\
  tr_dropped t' = (match s with None => tr_dropped t +u64 1 | Some _ => tr_dropped t end) /\
  (forall nodes, tr_nodes t' = Some nodes -> index_ok nodes) /\ (forall x, s = Some x -> carries_out fn x).
Proof.
  intros E Hn. destruct fn as [p|v to|m|id]; simpl in E;
    [injection E as <- <-; split_and!; try done; by intros x [= <-]| |injection E as <- <-; split_and!; try done; by intros x [= <-]..].
  assert (index_ok (default (index_nodes cfg) (tr_nodes t))) as Hi.
  { destruct (tr_nodes t) as [nodes|]; simpl; [by apply Hn|apply index_nodes_ok]. }
  destruct (_ !! to) as [n|] eqn:El; injection E as <- <-; simpl; split_and!; try done;
    [by intros nodes [= <-]|intros x [= <-]; simpl; split; [done|by apply Hi]|by intros nodes [= <-]].
Qed.

Lemma tr_inv_drain enq t done cfg t' fn s :
  tr_inv enq (t, done) -> drain t cfg = Some (t', fn, s) -> tr_inv enq (t', done ++ [(fn, s)]).
Proof.
  intros [H1 H2 H3 H4 H5] E. simpl in *. unfold drain in E. destruct (tr_draining t); [|done].
  destruct (tr_out t) as [|fn0 out] eqn:Eo; [done|]. simpl in E.
  assert (fn0 = fn /\ tr_out t' = out /\ tr_size t' = tr_size t /\
    tr_dropped t' = (match s with None => tr_dropped t +u64 1 | Some _ => tr_dropped t end) /\
    (forall nodes, tr_nodes t' = Some nodes -> index_ok nodes) /\ (forall x, s = Some x -> carries_out fn x))
    as (-> & E1 & E2 & E3 & E4 & E5).
  { unfold peers in E. destruct (length cfg =? 0)%nat; [injection E as <- <- <-; by split_and!|].
    destruct (perform (set_out out t) cfg fn0) as [t1 s1] eqn:Ep. injection E as <- <- <-. split; [done|]. by apply perform_inv in Ep. }
  split; simpl; try done.
  - rewrite fmap_app, E1. simpl. by rewrite <- (assoc_L (++)).
  - rewrite E1, E2. simpl in H2. lia.
  - rewrite E3, E1, fmap_app. simpl. rewrite <- (assoc_L (++)). simpl. unfold unsent in *. rewrite filter_app.
    destruct s as [x|]; simpl.
    + rewrite filter_cons_False, filter_nil by done. rewrite H3, app_nil_r. done.
    + rewrite filter_cons_True, filter_nil by done. simpl. erewrite add64_count; [|exact H3].
      do 2 f_equal. rewrite (length_app (filter _ _)). simpl. lia.
  - intros fn' s' [Hin|Hin%list_elem_of_singleton]%elem_of_app; [by apply H5|]. injection Hin as -> <-. by apply E5.
Qed.

Lemma tr_inv_run enq st az st' : tr_inv enq st -> tr_run st az = Some st' -> tr_inv (enq ++ enqueued az) st'.
Proof.
  revert enq st. induction az as [|a az IH]; intros enq [t done] Hi; simpl.
  { intros [= <-]. by rewrite app_nil_r. }
  intros (st1 & E & Hr)%bind_Some. destruct a as [fn|cfg|]; simpl in E.
  - injection E as <-. specialize (IH _ _ (tr_inv_enqueue _ _ _ fn Hi) Hr). by rewrite <- (assoc_L (++)) in IH.
  - apply bind_Some in E as ([[t1 fn] s] & E & [= <-]). by apply (IH enq _ (tr_inv_drain _ _ _ _ _ _ _ Hi E)).
  - injection E as <-. apply (IH enq (drain_stop t, done)); [|done]. by destruct Hi.
Qed.

Lemma tr_inv_new ver q t : NewTransport ver q = Some t -> tr_inv [] (t, []).
Proof.
  unfold NewTransport. destruct (_ <? 0)%Z; [done|]. intros [= <-].
  split; simpl; [done|lia|done|done|]. intros fn s Hin. by apply not_elem_of_nil in Hin.
Qed.
End transport.

Arguments tr_act : clear implicits.
Arguments send : clear implicits.
Arguments Transport : clear implicits.

(** ** What the transport promises *)

Lemma tr_run_size {Node} (node_ID : Node -> uint32) st az st' :
  tr_run node_ID st az = Some st' -> tr_size st'.1 = tr_size st.1.
Proof.
  revert st. induction az as [|a az IH]; intros [t done]; simpl; [by intros [= <-]|].
  intros (st1 & E & Hr)%bind_Some. rewrite (IH _ Hr). destruct a as [fn|cfg|]; simpl in E.
  - injection E as <-. simpl. unfold enqueue. by destruct (_ <? _)%nat.
  - apply bind_Some in E as ([[t1 fn] s] & E & [= <-]). simpl. unfold drain in E.
    destruct (tr_draining t); [|done]. destruct (tr_out t) as [|fn0 out]; [done|]. simpl in E. unfold peers in E.
    destruct (_ =? 0)%nat; [by injection E as <- _ _|]. destruct fn0; simpl in E; try by injection E as <- _ _.
    destruct (_ !! to); by injection E as <- _ _.
  - by injection E as <-.
Qed.

(** C20. The outbound queue loses only what it counts. Whatever the interleaving of
    sends by the core and passes of the sender goroutine, the calls performed and
    then the calls still queued are, in order, some of those made; the queue never
    exceeds its capacity; every call carried out sends its own message, a vote to
    the node it is addressed to; and the drop counter is, modulo its width, the
    number of calls that were neither sent nor are still queued. *)
Theorem outbound_conserved {Node : Type} (node_ID : Node -> uint32) (ver : Verifier) (q : Z)
    (az : list (tr_act Node)) (t t' : Transport Node) (done : list (call * option (send Node))) :
  NewTransport ver q = Some t -> tr_run node_ID (t, []) az = Some (t', done) ->
  done.*1 ++ tr_out t' `sublist_of` enqueued az /\
  (Z.of_nat (length (tr_out t')) <= if (q =? 0)%Z then defaultOutQueue else q)%Z /\
  (forall fn s, (fn, Some s) ∈ done -> carries_out node_ID fn s) /\
  OutboundDropped (counters t') =
    (N.of_nat (length (enqueued az) - length (done.*1 ++ tr_out t') + length (unsent done)) mod two64)%N.
Proof.
  intros Hn Hr. pose proof (tr_inv_run node_ID [] _ az _ (tr_inv_new node_ID ver q t Hn) Hr) as [H1 H2 H3 _ H5].
  simpl in *. split; [done|]. split; [|done]. pose proof (tr_run_size node_ID _ _ _ Hr) as Hs. simpl in Hs. rewrite Hs in H2.
  unfold NewTransport in Hn. destruct (Z.ltb_spec (if (q =? 0)%Z then defaultOutQueue else q) 0); [done|].
  injection Hn as <-. simpl in H2. lia.
Qed.

Definition demo_calls : list (tr_act uint32) :=
  [ActEnqueue (CallRequestBlock [x01]); ActEnqueue (CallVote (demo_votemsg 1) 3); ActEnqueue (CallRequestBlock [x02]);
   ActDrain []; ActDrain [1; 2; 3]%N; ActEnqueue (CallVote (demo_votemsg 1) 9); ActDrain [1; 2; 3]%N].

Lemma outbound_conserved_witness :
  exists t t' done, NewTransport demo_verifier 2 = Some t /\ tr_run (fun n => n) (t, []) demo_calls = Some (t', done) /\
    omap snd done = [SendVote 3%N (demo_votemsg 1)] /\ OutboundDropped (counters t') = 3%N /\
    done.*1 ++ tr_out t' `sublist_of` enqueued demo_calls.
Proof.
  destruct (NewTransport demo_verifier 2) as [t|] eqn:Et; [|discriminate Et].
  assert (option_map (fun r => (omap snd r.2, OutboundDropped (counters r.1))) (tr_run (fun n => n) (t, []) demo_calls) =
    Some ([SendVote 3%N (demo_votemsg 1)], 3%N)) as E.
  { unfold NewTransport in Et. simpl in Et. apply (inj Some) in Et as <-. reflexivity. }
  destruct (tr_run (fun n => n) (t, []) demo_calls) as [[t' done]|] eqn:Er; [|discriminate E].
  cbn [option_map fst snd] in E. injection E as E1 E2. exists t, t', done. split; [reflexivity|]. split; [exact Er|]. split; [exact E1|]. split; [exact E2|].
  destruct (outbound_conserved (fun n => n) demo_verifier 2 demo_calls t t' done Et Er) as [H _]. exact H.
Defined.

(** ** The edge and the core together *)

(** What reaches a replica from outside: messages of any content, a block
    request and what wakes it, the replies to a fetch, a timer that expired. *)
Inductive input :=
  | InProposal (m : ProposalMsg)
  | InVote (m : VoteMsg)
  | InTimeout (m : TimeoutMsg)
  | InRequestBlock (id : bytes) (w : wakeup)
  | InFetch (id : bytes) (replies : list Block)
  | InTimer (epoch : uint64).

Definition sink (h : handler) (i : input) : handler * list Event :=
  match i with
  | InProposal m => handleProposal h m
  | InVote m => handleVote h m
  | InTimeout m => handleTimeout h m
  | InRequestBlock id w => (h, (handleRequestBlock id w).1)
  | InFetch id replies => (h, fetch (h_ver h) id replies)
  | InTimer epoch => (h, [LocalTimeoutEvent epoch])
  end.

Fixpoint sinks (h : handler) (ins : list input) : handler * list Event :=
  match ins with
  | [] => (h, [])
  | i :: ins => let '(h, evs) := sink h i in let '(h, evs') := sinks h ins in (h, evs ++ evs')
  end.

Lemma fetch_spec v id replies :
  (fetch v id replies = [] /\ Forall (fun b => VerifyBlock v b id = false) replies) \/
  (exists b, fetch v id replies = [BlockEvent b] /\ b ∈ replies /\ VerifyBlock v b id = true).
Proof.
  induction replies as [|b replies IH]; simpl; [left; by split|]. destruct (VerifyBlock v b id) eqn:E.
  - right. exists b. split; [done|]. split; [by left|done].
  - destruct IH as [[-> HF]|(b' & -> & Hin & Hv)]; [left; by split; [|constructor]|right]. exists b'. split; [done|]. split; [by right|done].
Qed.

Lemma sink_verified (Vt : VoteMsg -> Prop) h i :
  (forall m, i = InVote m -> VerifyVote (h_ver h) m = true -> Vt m) ->
  Forall (event_verified (h_ver h) Vt) (sink h i).2 /\ h_ver (sink h i).1 = h_ver h.
Proof.
  intros Hv. destruct i as [m|m|m|id w|id replies|ep]; simpl.
  - unfold handleProposal. destruct (VerifyProposal _ _) eqn:E; simpl; split; try done; repeat constructor; done.
  - unfold handleVote. destruct (VerifyVote _ _) eqn:E; simpl; split; try done; repeat constructor; simpl; auto.
  - unfold handleTimeout. destruct (VerifyTimeout _ _) eqn:E; simpl; split; try done; repeat constructor; done.
  - split; [|done]. repeat constructor.
  - split; [|done]. destruct (fetch_spec (h_ver h) id replies) as [[-> _]|(b & -> & _ & Hb)]; [constructor|].
    constructor; [|constructor]. unfold VerifyBlock in Hb. by apply andb_true_iff in Hb as [_ Hb].
  - split; [|done]. repeat constructor.
Qed.

Lemma sinks_verified (Vt : VoteMsg -> Prop) h ins :
  (forall m, InVote m ∈ ins -> VerifyVote (h_ver h) m = true -> Vt m) ->
  Forall (event_verified (h_ver h) Vt) (sinks h ins).2.
Proof.
  revert h. induction ins as [|i ins IH]; intros h Hv; [constructor|]. simpl.
  destruct (sink_verified Vt h i) as [H1 H2]; [intros m ->; apply Hv; by left|].
  destruct (sink h i) as [h1 evs]. simpl in *. specialize (IH h1). rewrite H2 in IH.
  destruct (sinks h1 ins) as [h2 evs2]. simpl in *. apply Forall_app. split; [done|]. apply IH. intros m Hm. apply Hv. by right.
Qed.

(** C7. The edge protects the core. Whatever messages arrive, from whomever, the
    events the handlers let through keep the replica within its invariant: fed to
    a core in the order they were sunk, they make it send only votes and timeouts that
    every receiver accepts, and proposals that every receiver accepts unless the
    certificate they carry is of their own round or a later one, which can happen
    ([Core.ill_formed_proposal_reachable]); the high certificate the core holds passes
    [VerifyQC]. The votes that pass [VerifyVote] are assumed to be of an execution with
    at most [Faulty n] Byzantine replicas, in the form of [HonestQuorums]: the strings
    hashed for them do not collide, their rounds are 64-bit integers, and a vote that a
    quorum signed has a positive round and commits only over consecutive rounds. *)
Theorem edge_protects_core `{RangeOrder} `{FloatConv} (cfg : Config) (Vt : VoteMsg -> Prop)
    `{!HonestQuorums (cfg_verifier cfg) Vt} (cr : Crypto) (txns : list bytes) (ins : list input)
    (evs : list (Crypto * list bytes * Event)) (c0 c1 c2 : Core) (es1 es2 : list effect) :
  cfg_Ledger cfg = NewMemLedger -> New cfg = Some c0 ->
  signs_as (cfg_verifier cfg) (cfg_ID cfg) cr -> Start cr txns c0 = Some (tt, c1, es1) ->
  (forall m, InVote m ∈ ins -> VerifyVote (cfg_verifier cfg) m = true -> Vt m) ->
  evs.*2 = (sinks (MkHandler (cfg_verifier cfg) 0) ins).2 ->
  Forall (fun ev => signs_as (cfg_verifier cfg) (cfg_ID cfg) ev.1.1) evs ->
  feed evs c1 = Some (c2, es2) ->
  Forall (effect_accepted (cfg_verifier cfg)) (es1 ++ es2) /\
  VerifyQC (cfg_verifier cfg) (HighQC (c_tree c2)) = true.
Proof.
  intros Hl Hn Hs Hst Hv Hev Hsig Hf.
  pose proof (sinks_verified Vt (MkHandler (cfg_verifier cfg) 0) ins Hv) as HF. rewrite <- Hev in HF. simpl in HF.
  assert (verified_run cfg Vt (es1 ++ es2) c2) as Hr.
  { eapply verified_feed; [by eapply verified_start| |exact Hf].
    apply Forall_forall. intros ev Hin. rewrite Forall_forall in Hsig. rewrite Forall_forall in HF. split; [by apply Hsig|].
    apply HF. by apply list_elem_of_fmap_2. }
  destruct (verified_run_valid cfg Vt _ _ Hl Hr) as [Hc He]. split; [done|apply (cv_high _ _ _ _ Hc)].
Qed.

(** Two forged inputs, which are rejected, and the votes of a quorum. *)
Definition demo_inputs : list input :=
  [InVote (demo_votemsg 7); InVote (demo_votemsg 4); InProposal zeroProposalMsg; InVote (demo_votemsg 1);
   InFetch [x01] [zeroBlock]; InVote (demo_votemsg 2); InTimer 0].
Definition demo_sunk : handler * list Event := sinks (MkHandler (cfg_verifier quiet_cfg) 0) demo_inputs.
Definition demo_fed : list (Crypto * list bytes * Event) := (fun e => (demo_crypto, [], e)) <$> demo_sunk.2.

#[local] Opaque demo_votemsg.

Lemma demo_inputs_votes m : InVote m ∈ demo_inputs -> VerifyVote (cfg_verifier quiet_cfg) m = true -> demo_votes m.
Proof.
  intros Hm Hv. unfold demo_inputs in Hm. rewrite !elem_of_cons in Hm.
  assert (demo_votes (demo_votemsg 4) /\ demo_votes (demo_votemsg 1) /\ demo_votes (demo_votemsg 2)) as Hin
    by (split_and!; apply list_elem_of_fmap_2; rewrite !elem_of_cons; auto).
  assert (VerifyVote (cfg_verifier quiet_cfg) (demo_votemsg 7) = false) as E7 by (vm_compute; reflexivity).
  revert Hm E7 Hin. generalize (demo_votemsg 7) (demo_votemsg 4) (demo_votemsg 1) (demo_votemsg 2) zeroProposalMsg.
  intros v7 v4 v1 v2 p Hm E7 (H4 & H1 & H2).
  destruct Hm as [Hm|[Hm|[Hm|[Hm|[Hm|[Hm|[Hm|Hm%elem_of_nil]]]]]]]; try discriminate Hm; try done;
    injection Hm as ->; [congruence|done..].
Qed.

Lemma edge_protects_core_witness :
  h_rejected demo_sunk.1 = 2%N /\ length demo_sunk.2 = 4 /\
  exists c2 es, quiet demo_sunk.2 = Some (c2, es) /\ length (sent_proposals es) = 1 /\
    Forall (effect_accepted (cfg_verifier quiet_cfg)) es.
Proof.
  split; [vm_compute; reflexivity|]. split; [vm_compute; reflexivity|].
  assert (option_map (fun r => length (sent_proposals r.2)) (quiet demo_sunk.2) = Some 1) as Eo by (vm_compute; reflexivity).
  destruct (quiet demo_sunk.2) as [[c2 es]|] eqn:Eq; [|discriminate Eo]. exists c2, es. split; [reflexivity|].
  cbn [option_map snd] in Eo. injection Eo as Eo. split; [exact Eo|].
  unfold quiet in Eq. apply bind_Some in Eq as (c0 & E0 & (q & E1 & E2)%bind_Some). destruct q as [[[] c1] es1].
  apply bind_Some in E2 as ([c3 es2] & E2 & [= <- <-]).
  refine (proj1 (@edge_protects_core canonical_range least_int64 quiet_cfg demo_votes demo_honest_quorums demo_crypto [] demo_inputs
    demo_fed c0 c1 c3 es1 es2 eq_refl E0 demo_signs_as E1 _ _ _ E2)).
  - exact demo_inputs_votes.
  - unfold demo_fed. rewrite <- list_fmap_compose. apply list_fmap_id.
  - unfold demo_fed. apply Forall_fmap, Forall_forall. intros e _. exact demo_signs_as.
Defined.

(** ** Fetching a block *)

Lemma verified_replica_run `{RangeOrder} `{FloatConv} cfg Vt es c : verified_run cfg Vt es c -> replica_run cfg es c.
Proof.
  induction 1 as [c cr txns c' es Hn _ E|es c cr txns e c' es' _ IH _ _ E|es c c' es' _ IH E].
  - apply (replica_start cfg [] c cr txns c' es); [by constructor|exact E].
  - by eapply replica_event.
  - by eapply replica_stop.
Qed.

(** C19. A fetch succeeds as soon as one honest replica that holds the block
    answers. The core of that replica answers the request with a block, the handler
    hands it to the caller, and then the fetch sinks exactly one event, a block with
    the id asked for whose id is the hash of its fields, whatever the other peers
    replied and in whatever order. *)
Theorem fetch_succeeds `{RangeOrder} `{FloatConv} (cfg : Config) (Vt : VoteMsg -> Prop)
    `{!HonestQuorums (cfg_verifier cfg) Vt} (es : list effect) (c : Core) (cr : Crypto) (txns : list bytes)
    (id : bytes) (replies : list Block) :
  cfg_Ledger cfg = NewMemLedger -> verified_run cfg Vt es c ->
  (is_Some (t_pending (c_tree c) !! id) \/ is_Some (l_committed (c_ledger c) !! id)) ->
  exists b es', Step cr txns (BlockRequestEvent id) c = Some (tt, c, ReplyBlock (Some b) :: es') /\
    (handleRequestBlock id (Replied (Some b))).2 = inr b /\
    (b ∈ replies -> exists b', fetch (cfg_verifier cfg) id replies = [BlockEvent b'] /\
       VerifyBlock (cfg_verifier cfg) b' id = true).
Proof.
  intros Hl Hr Hh. destruct (replica_filed cfg es c Hl (verified_replica_run _ _ _ _ Hr)) as [Ht Hc].
  destruct (verified_run_valid cfg Vt es c Hl Hr) as [Hv _].
  assert (exists b, match PendingBlock (c_tree c) id with Some b => Some b | None => CommittedBlock (c_ledger c) id end = Some b /\
    VerifyBlock (cfg_verifier cfg) b id = true) as (b & Eb & Hb).
  { unfold PendingBlock, CommittedBlock, VerifyBlock. destruct (t_pending (c_tree c) !! id) as [b|] eqn:Et.
    - exists b. split; [done|]. rewrite bool_decide_eq_true_2 by (by apply Ht). by apply (cv_pending _ _ _ _ Hv id).
    - destruct Hh as [[b Hb]|[b Hb]]; [done|]. exists b. split; [done|]. rewrite bool_decide_eq_true_2 by (by apply Hc).
      by apply (st_committed _ _ _ (cv_ledger _ _ _ _ Hv) id). }
  exists b. unfold Step, dispatch, serveBlock, mbind, M_bind, gets, emit, mret, M_ret. cbv beta iota. rewrite Eb.
  assert (b ∈ replies -> exists b', fetch (cfg_verifier cfg) id replies = [BlockEvent b'] /\
    VerifyBlock (cfg_verifier cfg) b' id = true) as Hf.
  { intros Hin. destruct (fetch_spec (cfg_verifier cfg) id replies) as [[_ HF]|(b' & E & _ & Hb')]; [|by eauto].
    rewrite Forall_forall in HF. specialize (HF b Hin). congruence. }
  destruct (c_observe c); eexists; (split; [reflexivity|]); by split.
Qed.

Definition fetched_run : option (Core * list effect) := quiet [BlockEvent demo_block].

Lemma fetch_succeeds_witness :
  exists c es b es', fetched_run = Some (c, es) /\
    @Step canonical_range least_int64 demo_crypto [] (BlockRequestEvent (b_id demo_block)) c =
      Some (tt, c, ReplyBlock (Some b) :: es') /\
    exists b', fetch (cfg_verifier quiet_cfg) (b_id demo_block) [zeroBlock; b] = [BlockEvent b'].
Proof.
  assert (option_map (fun r => bool_decide (is_Some (t_pending (c_tree r.1) !! b_id demo_block))) fetched_run = Some true) as Eo
    by (vm_compute; reflexivity).
  assert (validBlockID demo_block = true) as Hid by (vm_compute; reflexivity).
  destruct fetched_run as [[c es]|] eqn:Eq; [|discriminate Eo]. cbn [option_map fst] in Eo.
  apply (inj Some), bool_decide_eq_true_1 in Eo.
  assert (@verified_run canonical_range least_int64 quiet_cfg demo_votes es c) as Hr.
  { unfold fetched_run, quiet in Eq. apply bind_Some in Eq as (c0 & E0 & (q & E1 & E2)%bind_Some). destruct q as [[[] c1] es1].
    apply bind_Some in E2 as ([c2 es2] & E2 & [= <- <-]). eapply verified_feed; [| |exact E2].
    - apply (verified_start quiet_cfg demo_votes c0 demo_crypto [] c1 es1 E0); [exact demo_signs_as|exact E1].
    - constructor; [split; [exact demo_signs_as|exact Hid]|constructor]. }
  pose proof (fun replies => @fetch_succeeds canonical_range least_int64 quiet_cfg demo_votes demo_honest_quorums es c demo_crypto []
    (b_id demo_block) replies eq_refl Hr (or_introl Eo)) as T.
  destruct (T []) as (b & es' & Est & _). exists c, es, b, es'. split; [reflexivity|]. split; [exact Est|].
  destruct (T [zeroBlock; b]) as (b2 & es2 & Est2 & _ & Hf). rewrite Est in Est2. injection Est2 as <- _.
  destruct Hf as (b' & Hb' & _); [by right; left|]. exists b'. exact Hb'.
Defined.

(** ** A fetched block that stops a replica *)

(** Seven replicas, two of which may be faulty, so two authors are held out of an
    election. Signatures of any of them are accepted. *)
Definition seven_crypto : Crypto :=
  MkCrypto (fun _ => Some [x01]) (fun i _ s => ((1 <=? i) && (i <=? 7))%N && bool_decide (s = [x01])).
Definition seven_cfg : Config := MkConfig 1 [1; 2; 3; 4; 5; 6; 7]%N NewMemLedger seven_crypto demo_backoff 0 0 true.

(** A block of round 1, and the same block with a certificate that claims the block
    itself for the parent of genesis. No id covers that claim. *)
Definition honest_copy : Block := NewBlock 1 1 [[x61]] (Some genesisQC).
Definition claim_parent (id : bytes) (q : QuorumCert) : QuorumCert :=
  MkQuorumCert (Some (MkVoteInfo (VoteInfo_GetId (qc_vote_info q)) (VoteInfo_GetRound (qc_vote_info q)) id
                        (VoteInfo_GetParentRound (qc_vote_info q)) (VoteInfo_GetExecStateId (qc_vote_info q))))
    (qc_ledger_commit_info q) (qc_signatures q) (qc_author q) (qc_author_sig q).
Definition looped_copy : Block :=
  MkBlock 1 1 [[x61]] (Some (claim_parent (b_id honest_copy) genesisQC)) (b_id honest_copy).

(** The certificate of a block of round 2 on top of it, and the timeouts of two
    replicas in round 3 that carry it. *)
Definition seven_vote_info (b : Block) : VoteInfo :=
  MkVoteInfo (b_id b) (b_round b) (parentID b) (QCRound (b_qc b)) (replicate hashLen x07).
Definition seven_qc (b : Block) : QuorumCert :=
  MkQuorumCert (Some (seven_vote_info b))
    (Some (MkLedgerCommitInfo (replicate hashLen x09) (VoteInfoHash (Some (seven_vote_info b)))))
    ((fun i => MkSignature i [x01]) <$> [1; 2; 3; 4; 5]%N) 3 (Some (MkSignature 3 [x01])).
Definition seven_qc2 : QuorumCert := seven_qc (NewBlock 1 2 [[x62]] (Some (seven_qc honest_copy))).
Definition seven_timeout (i : uint32) : TimeoutMsg :=
  MkTimeoutMsg (Some (MkTimeoutInfo 3 (Some seven_qc2) i (Some (MkSignature i [x01])))) None None.

(** A replica that fetches the block of round 1, is sent one copy of it and then
    hears the timeouts [ts]. *)
Definition seven_inputs (copy : Block) (ts : list TimeoutMsg) : list input :=
  InFetch (b_id honest_copy) [copy] :: (InTimeout <$> ts).
Definition seven (copy : Block) (ts : list TimeoutMsg) : option (Core * list effect) :=
  c ← New seven_cfg;
  '(_, c, es) ← Start seven_crypto [] c;
  let evs := (sinks (MkHandler (cfg_verifier seven_cfg) 0) (seven_inputs copy ts)).2 in
  '(c, es') ← @feed canonical_range least_int64 ((fun e => (seven_crypto, [], e)) <$> evs) c;
  Some (c, es ++ es').

(** C36. A reply to a fetch can stop a replica for good. With seven validators and the
    default settings there is a copy of a block of round 1 that the edge accepts for an
    answer to a fetch, since it differs from the honest copy only in the parent its
    certificate claims, which no id covers. After it and two valid timeouts the handlers
    have rejected nothing. With the honest copy the core commits that block and goes
    on. With the other it commits that copy at the first timeout, and from there the
    election the second one calls for never ends: the walk over the certificates of the
    committed blocks goes from that block to itself, and with two authors to hold out
    nothing stops it. *)
Theorem fetched_block_hangs :
  sinks (MkHandler (cfg_verifier seven_cfg) 0) (seven_inputs looped_copy [seven_timeout 2; seven_timeout 3]) =
    (MkHandler (cfg_verifier seven_cfg) 0,
     [BlockEvent looped_copy; TimeoutEvent (seven_timeout 2); TimeoutEvent (seven_timeout 3)]) /\
  (exists c es, seven honest_copy [seven_timeout 2; seven_timeout 3] = Some (c, es) /\ l_onCommit (c_ledger c) = [honest_copy]) /\
  (exists c es, seven looped_copy [seven_timeout 2] = Some (c, es) /\ l_onCommit (c_ledger c) = [looped_copy] /\
     forall fuel, elect_loop fuel (c_leaders c) (c_ledger c) 0 (Some seven_qc2) ∅ ∅ = None) /\
  seven looped_copy [seven_timeout 2; seven_timeout 3] = None.
Proof.
  split_and!.
  - vm_compute. reflexivity.
  - assert (option_map (fun r => bool_decide (l_onCommit (c_ledger r.1) = [honest_copy]))
      (seven honest_copy [seven_timeout 2; seven_timeout 3]) = Some true) as E by (vm_compute; reflexivity).
    destruct (seven honest_copy _) as [[c es]|]; [|discriminate E]. exists c, es. split; [reflexivity|].
    apply (inj Some), bool_decide_eq_true_1 in E. exact E.
  - assert (option_map (fun r => bool_decide (l_onCommit (c_ledger r.1) = [looped_copy] /\
        CommittedBlock (c_ledger r.1) (VoteInfo_GetParentId (qc_vote_info seven_qc2)) = Some looped_copy /\
        CommittedBlock (c_ledger r.1) (b_id honest_copy) = Some looped_copy /\
        (1 < e_excludeSize (c_leaders r.1))%Z))
      (seven looped_copy [seven_timeout 2]) = Some true) as E by (vm_compute; reflexivity).
    destruct (seven looped_copy _) as [[c es]|]; [|discriminate E]. exists c, es. split; [reflexivity|].
    apply (inj Some), bool_decide_eq_true_1 in E as (H1 & H2 & H3 & H4). split; [exact H1|]. intros fuel.
    refine (elect_loop_caught (c_leaders c) (c_ledger c) (Some seven_qc2) _ looped_copy fuel 0 ∅ H2 eq_refl H3 H4).
  - vm_compute. reflexivity.
Qed.
