(* ===== verification/Cluster.v ===== *)
(** The replicas of one execution together. A core that is fed what the edge lets
    through, and certificates and votes that occur in the execution, only ever
    commits up to a block that a committing certificate of the execution names;
    so the logs that any two replicas hand to [OnCommit] agree over their common
    prefix. This joins the agreement of certificates ([Agreement]), the validity of
    what a core builds and counts ([Wire]) and the ledger's own correctness
    ([Ledger]) into one statement about the cores of [diem/core.go]. *)

From stdpp Require Import prelude gmap list fin_maps.
From Stdlib Require Import NArith ZArith Lia Strings.Byte.
From S2P Require Import Prelude Sha256 Proto Hash Types Quorum Verify Orphans Ledger BlockTree Safety Agreement.
From S2P Require Import Seams Pacemaker Leader Core Wire.

(** A certificate, if there is one, occurs in the execution. *)
Definition seen_cert (x : execution) (qc : option QuorumCert) : Prop := forall q, qc = Some q -> seen_qc x q.

(** What an event carries occurs in the execution. *)
Definition event_seen (x : execution) (e : Event) : Prop :=
  match e with
  | ProposalEvent m => seen_cert x (Block_GetQc (pm_block m)) /\ seen_cert x (pm_high_commit_qc m) /\
      forall t, pm_last_round_tc m = Some t -> seen_tc x t
  | VoteEvent m => seen_vote x m /\ seen_cert x (vm_high_commit_qc m)
  | TimeoutEvent m => seen_cert x (TimeoutInfo_GetHighQc (tm_tmo_info m)) /\ seen_cert x (tm_high_commit_qc m)
  | LocalTimeoutEvent _ | BlockEvent _ | BlockRequestEvent _ => True
  end.

(** Partial correctness of a handler. *)
Definition hoare {A} (P : Core -> Prop) (m : M A) (Q : A -> Core -> Prop) : Prop :=
  forall c a c' es, P c -> m c = Some (a, c', es) -> Q a c'.

Lemma hoare_ret {A} (P : Core -> Prop) (x : A) : hoare P (mret x) (fun _ => P).
Proof. by intros c a c' es Hc [= <- <- <-]. Qed.
Lemma hoare_bind {A B} P (m : M A) R (f : A -> M B) Q :
  hoare P m R -> (forall a, hoare (R a) (f a) Q) -> hoare P (x ← m; f x) Q.
Proof.
  intros Hm Hf c b c' es Hc E. unfold mbind, M_bind in E. destruct (m c) as [[[a c1] es1]|] eqn:Em; [|done].
  destruct (f a c1) as [[[b' c2] es2]|] eqn:Ef; [|done]. injection E as <- <- <-. eapply Hf; [|exact Ef]. by eapply Hm.
Qed.

(** A call that leaves the ledger alone. *)
Definition same_ledger (c : Core) (_ : list effect) (c' : Core) : Prop := c_ledger c' = c_ledger c.

Global Instance same_ledger_trace : TraceRel same_ledger.
Proof. split; [done|]. unfold same_ledger. congruence. Qed.

Section silent.
Context `{RangeOrder} `{FloatConv} (cr : Crypto) (txns : list bytes).

Lemma silent_leadersUpdate qc : does same_ledger (leadersUpdate qc).
Proof. by intros c a c' es (e & _ & [= <- <- <-])%bind_Some. Qed.
Lemma silent_pmAdvanceRoundQC qc : does same_ledger (pmAdvanceRoundQC qc).
Proof. intros c a c' es E. unfold pmAdvanceRoundQC in E. destruct (AdvanceRoundQC _ _) as [[p es'] mv]. by injection E as <- <- <-. Qed.
Lemma silent_pmAdvanceRoundTC tc : does same_ledger (pmAdvanceRoundTC tc).
Proof. intros c a c' es E. unfold pmAdvanceRoundTC in E. destruct (AdvanceRoundTC _ _) as [[p es'] mv]. by injection E as <- <- <-. Qed.
Lemma silent_pmLocalTimeoutRound : does same_ledger (pmLocalTimeoutRound cr).
Proof. intros c a c' es E. unfold pmLocalTimeoutRound in E. destruct (LocalTimeoutRound _ _ _ _) as [[p s] es']. by injection E as <- <- <-. Qed.
Lemma silent_pmProcessRemoteTimeout m : does same_ledger (pmProcessRemoteTimeout cr m).
Proof.
  intros c a c' es E. unfold pmProcessRemoteTimeout in E.
  destruct (ProcessRemoteTimeout _ _ _ _ _) as [[[p s] es'] tc]. by injection E as <- <- <-.
Qed.
Lemma silent_safetyMakeVote b tc : does same_ledger (safetyMakeVote cr b tc).
Proof. intros c a c' es E. unfold safetyMakeVote in E. destruct (MakeVote _ _ _ _ _ _) as [s v]. by injection E as <- <- <-. Qed.
Lemma silent_emit e : does same_ledger (emit e).
Proof. by apply does_emit. Qed.
Lemma silent_getLeader r : does same_ledger (getLeader r).
Proof. apply (does_fails_or same_ledger). Qed.

Lemma silent_processNewRoundEvent tc : does same_ledger (processNewRoundEvent cr txns tc).
Proof. unfold processNewRoundEvent. repeat first [apply silent_getLeader|apply silent_emit|does_step]. Qed.
End silent.

Create HintDb ledger.
#[export] Hint Resolve silent_leadersUpdate silent_pmAdvanceRoundQC silent_pmAdvanceRoundTC silent_pmLocalTimeoutRound
  silent_pmProcessRemoteTimeout silent_safetyMakeVote silent_emit silent_getLeader silent_processNewRoundEvent : ledger.

Lemma genesisQC_no_commit : Commits (qc_ledger_commit_info genesisQC) = false.
Proof. vm_compute. reflexivity. Qed.

Section cluster.
Context `{RangeOrder} `{FloatConv} (x : execution) (Hx : execution_ok x).
Context (ver : Verifier) (Hver : same_verifier ver (x_verifier x)).
Context (U : Block -> Prop) (rank : bytes -> nat) (HU : block_universe U rank).

(** The ledger is sound, and its frontier is a block the execution commits. *)
Definition frontier (c : Core) : Prop := ledger_ok U (c_ledger c) /\ commit_point x (l_commitID (c_ledger c)).

(** A certificate that moves the frontier to a commit point. *)
Definition good_cert (qc : option QuorumCert) : Prop :=
  verifyCommitQC ver qc = true /\ seen_cert x qc.

Lemma good_cert_commits q : good_cert (Some q) -> Commits (qc_ledger_commit_info q) = true ->
  commit_point x (VoteInfo_GetParentId (qc_vote_info q)).
Proof.
  intros [Hv Hs] Hc. unfold verifyCommitQC in Hv. apply orb_true_iff in Hv as [Hv|Hv]; [by bools|].
  pose proof Hv as [[_ ->]|[Hr Hq]]%VerifyQC_iff; [rewrite genesisQC_no_commit in Hc; discriminate Hc|].
  destruct (qc_vote_info q) as [vi|] eqn:Ei; [|by unfold QCRound in Hr; simpl in Hr; rewrite Ei in Hr].
  right. exists q, vi. split; [|done]. split; [|done]. split; [by rewrite <- Hver|done|by apply Hs|done].
Qed.

Lemma ProcessQC_frontier l t qc l' t' :
  good_cert qc -> ProcessQC l t qc = Some (l', t') ->
  ledger_ok U l -> commit_point x (l_commitID l) -> ledger_ok U l' /\ commit_point x (l_commitID l').
Proof.
  intros Hg E Hl Hp. destruct (ProcessQC_total U rank HU l t qc Hl) as (l1 & t1 & E1 & Hl1).
  rewrite E in E1. injection E1 as <- <-. split; [done|].
  apply ProcessQC_inv in E as [(_ & -> & _)|([q ->] & _ & _ & _ & [(_ & -> & _)|(Hc & Hcom & _)])]; [done..|].
  simpl in Hc, Hcom. destruct (l_pending l !! VoteInfo_GetParentId (qc_vote_info q)) as [s|] eqn:Es.
  - destruct (Commit_pending U rank HU l (VoteInfo_GetParentId (qc_vote_info q)) s (lk_inv _ _ Hl))
      as (l2 & bs & E2 & _ & Hid & _); [by rewrite (lk_History _ _ Hl)|done|]. rewrite Hcom in E2. injection E2 as <-. rewrite Hid. by apply good_cert_commits.
  - rewrite (Commit_not_pending U l _ (lk_inv _ _ Hl) Es) in Hcom. by injection Hcom as <-.
Qed.

Lemma hoare_silent {A} (m : M A) : does same_ledger m -> hoare frontier m (fun _ => frontier).
Proof. intros Hm c a c' es [Hl Hp] E. unfold frontier. by rewrite (Hm _ _ _ _ E). Qed.

Lemma hoare_certificate qc : good_cert qc -> hoare frontier (processCertificateQC qc) (fun _ => frontier).
Proof.
  intros Hg. destruct qc as [q|]; [|apply hoare_ret]. unfold processCertificateQC.
  apply (hoare_bind _ _ (fun _ => frontier)); [|intros _; apply hoare_silent; repeat (eauto with ledger; does_step); eauto with ledger].
  intros c a c' es [Hl Hp] ([l t] & E & [= <- <- <-])%bind_Some. by apply (ProcessQC_frontier _ _ _ _ _ Hg E).
Qed.

Lemma hoare_insert b : U b -> hoare frontier (insert b) (fun _ => frontier).
Proof.
  intros Hb. unfold insert. apply (hoare_bind _ _ (fun _ => frontier)).
  - intros c a c' es [Hl Hp] E. unfold treeExecuteAndInsert in E.
    pose proof (ExecuteAndInsert_ok U rank HU (c_ledger c) (c_tree c) b Hl Hb) as Hl'.
    destruct (Speculate_frozen U rank HU (c_ledger c) b (lk_inv _ _ Hl) Hb) as (_ & _ & _ & _ & Hid & _). cbn in E.
    injection E as <- <- <-. split; [exact Hl'|]. cbn. by rewrite Hid.
  - intros _. apply hoare_silent. repeat first [apply silent_emit|does_step].
Qed.

Lemma hoare_processProposalMsg cr m :
  VerifyProposal ver m = true -> event_seen x (ProposalEvent m) -> U (default zeroBlock (pm_block m)) ->
  hoare frontier (processProposalMsg cr m) (fun _ => frontier).
Proof.
  intros (b & q & Eb & Eq & _ & _ & _ & _ & _ & Hqc & Hcq & _)%VerifyProposal_iff (Hs1 & Hs2 & _) Hb.
  unfold processProposalMsg. rewrite Eb in *. cbn [Block_GetQc Block_GetRound Block_GetAuthor default] in *. rewrite Eq in *.
  apply (hoare_bind _ _ (fun _ => frontier)); [apply hoare_certificate; split; [|done]; unfold verifyCommitQC; by rewrite Hqc, orb_true_r|intros _].
  apply (hoare_bind _ _ (fun _ => frontier)); [by apply hoare_certificate|intros _].
  apply (hoare_bind _ _ (fun _ => frontier)); [apply hoare_silent; eauto with ledger|intros _].
  apply (hoare_bind _ _ (fun _ => frontier)); [apply hoare_silent, does_gets; apply _|intros r].
  apply (hoare_bind _ _ (fun _ => frontier)); [apply hoare_silent; eauto with ledger|intros leader].
  destruct (_ || _); [apply hoare_ret|].
  apply (hoare_bind _ _ (fun _ => frontier)); [by apply hoare_insert|intros _].
  apply hoare_silent. does_step; [eauto with ledger|]. does_step; [|apply does_ret; apply _]. does_step; eauto with ledger.
Qed.

Lemma hoare_processTimeoutMsg cr txns m :
  VerifyTimeout ver m = true -> event_seen x (TimeoutEvent m) ->
  hoare frontier (processTimeoutMsg cr txns m) (fun _ => frontier).
Proof.
  intros Hv [Hs1 Hs2]. pose proof Hv as (i & q & Em & Eq & _ & _ & _ & Hqc & Hcq & _)%VerifyTimeout_iff.
  unfold processTimeoutMsg. rewrite Em in Hs1 |- * at 1. cbn [TimeoutInfo_GetHighQc] in *. rewrite Eq in *.
  apply (hoare_bind _ _ (fun _ => frontier)); [apply hoare_certificate; split; [|done]; unfold verifyCommitQC; by rewrite Hqc, orb_true_r|intros _].
  apply (hoare_bind _ _ (fun _ => frontier)); [by apply hoare_certificate|intros _].
  apply hoare_silent. does_step; [eauto with ledger|]. does_step; [eauto with ledger|].
  does_step; [|apply does_ret; apply _]. does_step; eauto with ledger.
Qed.

(** A certificate formed from votes that occur in the execution occurs in it. *)
Lemma seen_formed q m0 :
  seen_vote x m0 -> qc_vote_info q = vm_vote_info m0 -> qc_ledger_commit_info q = vm_ledger_commit_info m0 ->
  Forall (from_vote (seen_vote x)) (qc_signatures q) -> seen_cert x (Some q).
Proof.
  intros (H1 & H2 & H3 & H4 & _) E1 E2 HF q' [= <-]. unfold seen_qc. rewrite E1, E2. split_and!; try done.
  eapply Forall_impl; [exact HF|]. intros s (m & (_ & _ & _ & _ & Hp) & <-). by destruct (vm_sig m).
Qed.

Lemma hoare_processVoteMsg cr txns m id :
  signs_as ver id cr -> VerifyVote ver m = true -> event_seen x (VoteEvent m) ->
  hoare (fun c => core_valid ver (seen_vote x) id c /\ frontier c) (processVoteMsg cr txns m) (fun _ => frontier).
Proof.
  intros Hs Hv [Hm Hs2]. pose proof (execution_honest_quorums x ver Hx Hver) as HQ. unfold processVoteMsg.
  apply (hoare_bind _ _ (fun _ c => core_valid ver (seen_vote x) id c /\ frontier c));
    [by intros c a c' es Hc [= <- <- <-]|intros current].
  destruct (_ || _); [by intros c a c' es [_ Hc] [= <- <- <-]|].
  apply (hoare_bind _ _ (fun r c => frontier c /\ forall q, r = Some q -> good_cert (Some q))).
  - intros c r c' es [Hc [Hl Hp]] E.
    destruct (triple_treeProcessVote _ _ _ cr m Hs Hm Hv c r c' es Hc E) as [[_ Hq] _]. split.
    + apply bind_Some in E as ([[l t] r'] & E & [= <- <- <-]). apply ProcessVote_cases in E as (t1 & E & _).
      apply (ProcessQC_frontier _ _ _ _ _ ltac:(split; [by apply VerifyVote_iff in Hv as (_ & _ & _ & _ & Hcq)|done]) E Hl Hp).
    + intros q ->. destruct (Hq q eq_refl) as [Hqv [(m0 & Hm0 & E1 & E2) Hor]].
      split; [unfold verifyCommitQC; by rewrite Hqv, orb_true_r|by eapply seen_formed].
  - intros [q|]; [|by intros c a c' es [Hc _] [= <- <- <-]]. intros c a c' es [Hc Hq] E. revert c a c' es Hc E.
    specialize (Hq q eq_refl). change (hoare frontier (moved ← processCertificateQC (Some q);
      if negb moved then mret tt else processNewRoundEvent cr txns None) (fun _ => frontier)).
    apply (hoare_bind _ _ (fun _ => frontier)); [by apply hoare_certificate|intros [|]; simpl];
      apply hoare_silent; [eauto with ledger|apply does_ret; apply _].
Qed.

(** A started replica at the edge of the execution. *)
Lemma frontier_start cfg c cr txns c' es :
  cfg_Ledger cfg = NewMemLedger -> New cfg = Some c -> Start cr txns c = Some (tt, c', es) -> frontier c'.
Proof.
  intros Hl E Hs. assert (does same_ledger (Start cr txns)) as Hd.
  { unfold Start. does_step; eauto with ledger. }
  unfold frontier. rewrite (Hd _ _ _ _ Hs). unfold New in E. destruct (_ <? _)%Z; [done|].
  apply (inj Some) in E as <-. cbn [c_ledger]. rewrite Hl. split; [apply NewMemLedger_ok|]. left. reflexivity.
Qed.

Lemma hoare_Step cr txns e id :
  signs_as ver id cr -> event_verified ver (seen_vote x) e -> event_seen x e -> event_fed U e ->
  hoare (fun c => core_valid ver (seen_vote x) id c /\ frontier c) (Step cr txns e) (fun _ => frontier).
Proof.
  intros Hs Hv Hse Hf. unfold Step. apply (hoare_bind _ _ (fun _ => frontier)).
  - assert (forall A (m : M A), hoare frontier m (fun _ => frontier) ->
      hoare (fun c => core_valid ver (seen_vote x) id c /\ frontier c) m (fun _ => frontier)) as Hw
      by (intros A m0 Hm c a c' es [_ Hc]; by apply Hm).
    destruct e as [m|m|m|ep|b|i]; cbn [dispatch]; [apply Hw, hoare_processProposalMsg; done| |apply Hw, hoare_processTimeoutMsg; done|
      apply Hw, hoare_silent|by apply Hw, hoare_insert|apply Hw, hoare_silent].
    + by apply hoare_processVoteMsg; [|apply Hv|].
    + does_step; [apply does_gets; apply _|]. does_step; [eauto with ledger|apply does_ret; apply _].
    + unfold serveBlock. does_step; [apply does_gets; apply _|]. eauto with ledger.
  - intros _. apply hoare_silent. does_step; [apply does_gets; apply _|].
    does_step; [|apply does_ret; apply _]. does_step; [apply does_gets; apply _|]. eauto with ledger.
Qed.
End cluster.

(** ** Members of the cluster *)

(** A replica with a verifier like the execution's, over a fresh ledger, started,
    and then fed verified events that occur in the execution, with blocks of the
    universe, each event with a signer that holds the replica's key. *)
Inductive member_run `{RangeOrder} `{FloatConv} (x : execution) (U : Block -> Prop) (cfg : Config) : Core -> Prop :=
  | member_start c cr txns c' es :
      cfg_Ledger cfg = NewMemLedger -> same_verifier (cfg_verifier cfg) (x_verifier x) ->
      New cfg = Some c -> signs_as (cfg_verifier cfg) (cfg_ID cfg) cr ->
      Start cr txns c = Some (tt, c', es) -> member_run x U cfg c'
  | member_event c cr txns e c' es :
      member_run x U cfg c -> signs_as (cfg_verifier cfg) (cfg_ID cfg) cr ->
      event_verified (cfg_verifier cfg) (seen_vote x) e -> event_seen x e -> event_fed U e ->
      Step cr txns e c = Some (tt, c', es) -> member_run x U cfg c'
  | member_stop c c' es :
      member_run x U cfg c -> CoreStop c = Some (tt, c', es) -> member_run x U cfg c'.

Lemma member_valid `{RangeOrder} `{FloatConv} x U rank cfg c :
  execution_ok x -> block_universe U rank -> member_run x U cfg c ->
  core_valid (cfg_verifier cfg) (seen_vote x) (cfg_ID cfg) c /\ frontier x U c /\
  same_verifier (cfg_verifier cfg) (x_verifier x).
Proof.
  intros Hx HU. induction 1 as [c cr txns c' es Hl Hv Hn Hs E|c cr txns e c' es _ (Hc & Hf & Hv) Hs He Hse Hfe E|c c' es _ (Hc & Hf & Hv) E].
  - pose proof (execution_honest_quorums x _ Hx Hv) as HQ. split; [|split; [by eapply frontier_start|done]].
    by apply (triple_Start cfg (seen_vote x) cr txns c c' es).
  - pose proof (execution_honest_quorums x _ Hx Hv) as HQ. split; [|split; [|done]].
    + by apply (triple_Step _ _ _ cr txns e Hs He c tt c' es Hc).
    + exact (hoare_Step x Hx _ Hv U rank HU cr txns e _ Hs He Hse Hfe c tt c' es (conj Hc Hf) E).
  - unfold CoreStop in E. cbn [Pacemaker.Stop] in E. injection E as <- <-. split; [destruct Hc; by split|done].
Qed.

(** Of the logs of two members one is a prefix of the other. *)
Lemma members_comparable (o1 o2 : RangeOrder) (f1 f2 : FloatConv) (x : execution) (U : Block -> Prop) (rank : bytes -> nat)
    (cfg1 cfg2 : Config) (c1 c2 : Core) :
  execution_ok x -> block_universe U rank ->
  (forall i b tc vi ci, honest x i -> EVote b tc vi ci ∈ x_history x i -> U b) ->
  @member_run o1 f1 x U cfg1 c1 -> @member_run o2 f2 x U cfg2 c2 ->
  (b_id <$> l_onCommit (c_ledger c1)) `prefix_of` (b_id <$> l_onCommit (c_ledger c2)) \/
  (b_id <$> l_onCommit (c_ledger c2)) `prefix_of` (b_id <$> l_onCommit (c_ledger c1)).
Proof.
  intros Hx HU Hvotes H1 H2.
  destruct (@member_valid o1 f1 x U rank cfg1 c1 Hx HU H1) as (_ & (L1 & P1) & _).
  destruct (@member_valid o2 f2 x U rank cfg2 c2 Hx HU H2) as (_ & (L2 & P2) & _).
  destruct (lk_inv _ _ L1) as [_ _ _ _ K1 F1]. destruct (lk_inv _ _ L2) as [_ _ _ _ K2 F2].
  exact (logs_comparable x Hx U rank HU Hvotes _ _ _ _ P1 P2 F1 F2 K1 K2).
Qed.

(** C3. Replicas agree. Any two replicas of an execution with at most
    [Faulty n] Byzantine validators, whatever their own keys, and fed messages the edge
    lets through, in any order and number, commit the same blocks in the same order: of
    the two logs handed to [OnCommit] one is a prefix of the other, and replicas that
    have committed equally many blocks are in the same state. The messages carry
    certificates and votes of the execution, and all the blocks they bring, and those
    honest replicas voted for, are of one [block_universe]: an id determines the parent
    and the payload, and parent links form no cycle. This excludes fetched blocks that
    share an id and differ in the parent, which the edge does not tell apart
    ([Verify.VerifyBlock_parent_unbound]). *)
Theorem cluster_agrees (o1 o2 : RangeOrder) (f1 f2 : FloatConv) (x : execution) (U : Block -> Prop) (rank : bytes -> nat)
    (cfg1 cfg2 : Config) (c1 c2 : Core) :
  execution_ok x -> block_universe U rank ->
  (forall i b tc vi ci, honest x i -> EVote b tc vi ci ∈ x_history x i -> U b) ->
  @member_run o1 f1 x U cfg1 c1 -> @member_run o2 f2 x U cfg2 c2 ->
  ((b_id <$> l_onCommit (c_ledger c1)) `prefix_of` (b_id <$> l_onCommit (c_ledger c2)) \/
   (b_id <$> l_onCommit (c_ledger c2)) `prefix_of` (b_id <$> l_onCommit (c_ledger c1))) /\
  (length (l_onCommit (c_ledger c1)) = length (l_onCommit (c_ledger c2)) ->
   l_commitState (c_ledger c1) = l_commitState (c_ledger c2)).
Proof.
  intros Hx HU Hvotes H1 H2.
  pose proof (members_comparable o1 o2 f1 f2 x U rank cfg1 cfg2 c1 c2 Hx HU Hvotes H1 H2) as Hpre. split; [exact Hpre|].
  destruct (@member_valid o1 f1 x U rank cfg1 c1 Hx HU H1) as (_ & (L1 & _) & _).
  destruct (@member_valid o2 f2 x U rank cfg2 c2 Hx HU H2) as (_ & (L2 & _) & _).
  intros Hlen. rewrite (lk_state _ _ L1), (lk_state _ _ L2). apply (exec_log_ids U rank HU);
    [apply (lk_inv _ _ L1)|apply (lk_inv _ _ L2)|].
  destruct Hpre as [Hp|Hp]; [|symmetry]; (apply prefix_length_eq; [exact Hp|rewrite !length_fmap; lia]).
Qed.

Lemma member_feed `{RangeOrder} `{FloatConv} x U cfg evs c c' es :
  member_run x U cfg c ->
  Forall (fun ev => signs_as (cfg_verifier cfg) (cfg_ID cfg) ev.1.1 /\
    event_verified (cfg_verifier cfg) (seen_vote x) ev.2 /\ event_seen x ev.2 /\ event_fed U ev.2) evs ->
  feed evs c = Some (c', es) -> member_run x U cfg c'.
Proof.
  intros Hr HF. revert c es Hr. induction HF as [|[[cr txns] e] evs (Hs & Hv & Hse & Hf) _ IH]; intros c es Hr; simpl.
  { intros [= <- <-]. done. }
  intros ([[[] c1] es1] & E & ([c2 es2] & Ef & [= <- <-])%bind_Some)%bind_Some. eapply IH; [|exact Ef]. by eapply member_event.
Qed.

(** ** Two members of the concrete execution

    One has the blocks in order, the other the second before the first; both then
    get a vote that carries the certificate of the second. *)
Definition member_crypto : Crypto :=
  MkCrypto (fun d => if bool_decide (d ∈ Scenario.digests) then Some Scenario.sig11 else None) (Verify Scenario.crypto).
Definition member_cfg (id : uint32) : Config := MkConfig id [1; 2; 3; 4]%N NewMemLedger member_crypto demo_backoff 0 0 false.
Definition member_vote : VoteMsg :=
  MkVoteMsg (qc_vote_info Scenario.qc2) (qc_ledger_commit_info Scenario.qc2) (Some Scenario.qc2) 1 (Some (MkSignature 1 Scenario.sig11)).
Definition member_core (id : uint32) (evs : list Event) : option Core :=
  c ← New (member_cfg id);
  '(_, c, es) ← Start member_crypto [] c;
  '(c, es') ← @feed canonical_range least_int64 ((fun e => (member_crypto, [], e)) <$> evs) c;
  Some c.
Definition member2 : option Core :=
  member_core 2 [BlockEvent Scenario.block1; BlockEvent Scenario.block2; VoteEvent member_vote].
Definition member3 : option Core :=
  member_core 3 [BlockEvent Scenario.block2; BlockEvent Scenario.block1; VoteEvent member_vote].

#[local] Opaque Scenario.block1 Scenario.block2 Scenario.ledger1 Scenario.ledger2 Scenario.qc1 Scenario.qc2 genesisBlock.

Lemma member_signs id : (1 <= id <= 4)%N -> signs_as (cfg_verifier (member_cfg id)) id member_crypto.
Proof.
  intros Hid d sg. cbn [member_crypto Sign]. destruct (bool_decide (d ∈ Scenario.digests)) eqn:E; [|discriminate].
  intros [= <-]. cbn [cfg_verifier v_crypto member_cfg cfg_Crypto member_crypto Verify Scenario.crypto].
  rewrite E, bool_decide_eq_true_2 by done. rewrite andb_true_r, andb_true_r. apply andb_true_iff. split; apply N.leb_le; lia.
Qed.

Lemma member_same id : same_verifier (cfg_verifier (member_cfg id)) (x_verifier Scenario.exec).
Proof. split; reflexivity. Qed.

Definition member_event_ok (e : Event) : Prop :=
  e = BlockEvent Scenario.block1 \/ e = BlockEvent Scenario.block2 \/ e = VoteEvent member_vote.

Lemma seen_member_vote : seen_vote Scenario.exec member_vote.
Proof. destruct Scenario.seen2 as (H1 & H2 & H3 & H4 & _). exact (conj H1 (conj H2 (conj H3 (conj H4 I)))). Qed.

Lemma member_core_run id evs c :
  (1 <= id <= 4)%N -> Forall member_event_ok evs -> member_core id evs = Some c ->
  @member_run canonical_range least_int64 Scenario.exec scenario_blocks (member_cfg id) c.
Proof.
  intros Hid Hev E. apply bind_Some in E as (c0 & E0 & (q & E1 & E2)%bind_Some). destruct q as [[[] c1] es1].
  apply bind_Some in E2 as ([c2 es2] & E2 & [= <-]). eapply member_feed; [| |exact E2].
  - eapply member_start; [reflexivity|apply member_same|exact E0|by apply member_signs|exact E1].
  - apply Forall_fmap. eapply Forall_impl; [exact Hev|]. intros e He. simpl. split; [by apply member_signs|].
    assert (validBlockID Scenario.block1 = true) as V1 by (vm_compute; reflexivity).
    assert (validBlockID Scenario.block2 = true) as V2 by (vm_compute; reflexivity).
    assert (VerifyVote Scenario.verifier member_vote = true) as V3 by (vm_compute; reflexivity).
    destruct He as [->|[->| ->]]; cbn [event_verified event_seen event_fed].
    + split; [exact V1|]. split; [exact I|left; reflexivity].
    + split; [exact V2|]. split; [exact I|right; reflexivity].
    + pose proof seen_member_vote as Hs.
      split; [split; [exact Hs|by rewrite (member_same id)]|]. split; [|exact I]. split; [exact Hs|].
      intros q Hq. apply (inj Some) in Hq as <-. exact Scenario.seen2.
Qed.

Lemma scenario_votes i b tc vi ci :
  honest Scenario.exec i -> EVote b tc vi ci ∈ x_history Scenario.exec i -> scenario_blocks b.
Proof. intros _ [H|[H|H]]%Scenario.history_in; [| |discriminate H]; injection H as -> _ _ _; [left|right]; reflexivity. Qed.

Lemma member2_ok : Forall member_event_ok [BlockEvent Scenario.block1; BlockEvent Scenario.block2; VoteEvent member_vote].
Proof. apply Forall_cons. split; [left; reflexivity|]. apply Forall_cons. split; [right; left; reflexivity|]. apply Forall_singleton. right. right. reflexivity. Qed.
Lemma member3_ok : Forall member_event_ok [BlockEvent Scenario.block2; BlockEvent Scenario.block1; VoteEvent member_vote].
Proof. apply Forall_cons. split; [right; left; reflexivity|]. apply Forall_cons. split; [left; reflexivity|]. apply Forall_singleton. right. right. reflexivity. Qed.

Lemma cluster_agrees_witness :
  exists c2 c3, member2 = Some c2 /\ member3 = Some c3 /\ b_id <$> l_onCommit (c_ledger c2) = [b_id Scenario.block1] /\
    l_commitState (c_ledger c2) = l_commitState (c_ledger c3).
Proof.
  assert (option_map (fun c => b_id <$> l_onCommit (c_ledger c)) member2 = Some [b_id Scenario.block1]) as E2 by (vm_compute; reflexivity).
  assert (option_map (fun c => length (l_onCommit (c_ledger c))) member3 = Some 1) as E3 by (vm_compute; reflexivity).
  destruct member2 as [c2|] eqn:M2; [|discriminate E2]. destruct member3 as [c3|] eqn:M3; [|discriminate E3].
  cbn [option_map] in E2, E3. apply (inj Some) in E2. apply (inj Some) in E3. exists c2, c3.
  split; [reflexivity|]. split; [reflexivity|]. split; [exact E2|].
  apply (cluster_agrees canonical_range canonical_range least_int64 least_int64 Scenario.exec scenario_blocks scenario_rank
    (member_cfg 2) (member_cfg 3) c2 c3 Scenario.ok scenario_universe scenario_votes).
  - unfold member2 in M2. exact (member_core_run 2 _ c2 ltac:(lia) member2_ok M2).
  - unfold member3 in M3. exact (member_core_run 3 _ c3 ltac:(lia) member3_ok M3).
  - rewrite E3. apply (f_equal length) in E2. rewrite length_fmap in E2. exact E2.
Defined.
