(* ===== verification/Handlers.v ===== *)
(** One core, step by step: what each handler of [diem/core.go] returns, sends and
    leaves behind on the messages of an undisturbed round and of a round that timed
    out. [Progress] puts the cores of a cluster together with these. *)

From stdpp Require Import prelude gmap list fin_maps sorting.
From Stdlib Require Import NArith ZArith Lia Strings.Byte.
From S2P Require Import Prelude Sha256 Proto Hash Types Quorum Verify Orphans Ledger BlockTree Safety Agreement.
From S2P Require Import Seams Pacemaker Leader Core.

#[local] Opaque sha256.

(** ** Returning, sending, leading to *)

(** The messages among the effects. *)
Definition sends (es : list effect) : list effect :=
  omap (fun e => match e with
    | NetProposal _ | NetVote _ _ | NetTimeout _ | NetRequestBlock _ => Some e
    | _ => None
    end) es.

Lemma sends_app es es' : sends (es ++ es') = sends es ++ sends es'.
Proof. apply omap_app. Qed.

(** [m] returns [a] from [c], sends exactly [es], and leads to a state in [P]. *)
Definition yields {A} (m : M A) (c : Core) (a : A) (es : list effect) (P : Core -> Prop) : Prop :=
  exists c' tr, m c = Some (a, c', tr) /\ sends tr = es /\ P c'.

Lemma yields_ret {A} (a : A) c (P : Core -> Prop) : P c -> yields (mret a) c a [] P.
Proof. intros Hc. by exists c, []. Qed.
Lemma yields_gets {A} (f : Core -> A) c x (P : Core -> Prop) : f c = x -> P c -> yields (gets f) c x [] P.
Proof. intros <- Hc. by exists c, []. Qed.
Lemma yields_bind {A B} (m : M A) (f : A -> M B) c a b es es' P Q :
  yields m c a es P -> (forall c', P c' -> yields (f a) c' b es' Q) -> yields (x ← m; f x) c b (es ++ es') Q.
Proof.
  intros (c1 & tr1 & E1 & <- & Hp) Hf. destruct (Hf c1 Hp) as (c2 & tr2 & E2 & <- & Hq).
  exists c2, (tr1 ++ tr2). unfold mbind, M_bind. rewrite E1, E2, sends_app. done.
Qed.
Lemma yields_mono {A} (m : M A) c a es (P Q : Core -> Prop) : yields m c a es P -> (forall c', P c' -> Q c') -> yields m c a es Q.
Proof. intros (c1 & tr1 & E1 & E2 & Hp) Hq. exists c1, tr1. auto. Qed.

Lemma yields_Step `{RangeOrder} `{FloatConv} cr txns ev c es (P : Core -> Prop) :
  yields (dispatch cr txns ev) c tt es P -> yields (Step cr txns ev) c tt es P.
Proof.
  intros (c1 & tr & E & <- & Hp). unfold Step. exists c1, (tr ++ if c_observe c1 then [Observe ev (CoreState c1)] else []).
  unfold mbind, M_bind. rewrite E. cbn. destruct (c_observe c1); cbn; (split; [done|]); rewrite sends_app, app_nil_r; done.
Qed.

(** ** What is known of a core *)

Record view := MkView {
  vw_round : uint64;
  (** No vote above this round. *)
  vw_voted : uint64;
  vw_ledger : MemLedger;
  vw_leaders : LeaderElection;
  vw_high : QuorumCert;
  vw_commit : QuorumCert;
  vw_tc : option TimeoutCert;
  vw_pending : gmap uint64 timeoutBucket;
  vw_votes : gmap bytes voteBucket;
}.

Definition set_leaders (e : LeaderElection) (v : view) : view :=
  MkView (vw_round v) (vw_voted v) (vw_ledger v) e (vw_high v) (vw_commit v) (vw_tc v) (vw_pending v) (vw_votes v).

(** A certificate that has been acted upon: processing it again changes nothing but,
    perhaps, the leaders. *)
Definition stale (v : view) (x : QuorumCert) : Prop :=
  (QCRound (Some x) <= QCRound (Some (vw_high v)))%N /\ (QCRound (Some x) < vw_round v)%N /\
  (Commits (qc_ledger_commit_info x) = true ->
   (QCRound (Some x) <= QCRound (Some (vw_commit v)))%N /\
   VoteInfo_GetParentId (qc_vote_info x) = l_commitID (vw_ledger v) /\
   forall idx b, vw_votes v !! idx = Some b -> (VoteInfo_GetParentRound (qc_vote_info x) < VoteInfo_GetRound (vb_voteInfo b))%N).

(** What processing a new certificate does to the ledger and to the highest
    certificate that commits. *)
Definition commit_step (l : MemLedger) (k x : QuorumCert) (l' : MemLedger) (k' : QuorumCert) : Prop :=
  if Commits (qc_ledger_commit_info x)
  then (forall o : RangeOrder, Commit l (VoteInfo_GetParentId (qc_vote_info x)) = Some l') /\ k' = x
  else l' = l /\ k' = k.

(** Round [r] may build on [q]: [q] is of the round before, or [tc] is and reports
    nothing above [q]. *)
Definition justified (r : uint64) (q : QuorumCert) (tc : option TimeoutCert) : Prop :=
  (QCRound (Some q) + 1 = r /\ tc = None)%N \/
  ((QCRound (Some q) + 1 < r)%N /\ exists t, tc = Some t /\ (tc_round t + 1 = r)%N /\ (MaxHighQCRound tc <= QCRound (Some q))%N).

Section node.
Context (cr : Crypto) (txns : list bytes) (i : uint32) (ver : Verifier) (quorum faulty : Z).

Record tree_at (q k : QuorumCert) (votes : gmap bytes voteBucket) (slots : voterKey -> Prop) (t : BlockTree) : Prop := {
  at_id : t_id t = i;
  at_quorum : t_quorum t = quorum;
  at_high : t_highQC t = Some q;
  at_commit : t_highCommitQC t = Some k;
  at_votes : t_votes t = votes;
  at_slots : forall vk, vk ∈ t_voters t -> slots vk;
}.

Record safe_at (hv : uint64) (q : QuorumCert) (s : Safety) : Prop := {
  sa_id : s_id s = i;
  sa_ver : s_verify s = ver;
  sa_voted : (s_highestVoteRound s <= hv)%N;
  sa_locked : (s_highestQCRound s <= QCRound (Some q))%N;
}.

Record pm_at (r : uint64) (tc : option TimeoutCert) (pend : gmap uint64 timeoutBucket) (p : Pacemaker) : Prop := {
  pm_round : p_currentRound p = r;
  pm_tc : p_lastRoundTC p = tc;
  pm_pending : p_pendingTimeouts p = pend;
  pm_quorum : p_quorum p = quorum;
  pm_faulty : p_faulty p = faulty;
}.

Record core_at (v : view) (slots : voterKey -> Prop) (c : Core) : Prop := {
  ca_id : c_id c = i;
  ca_ledger : c_ledger c = vw_ledger v;
  ca_leaders : c_leaders c = vw_leaders v;
  ca_safety : safe_at (vw_voted v) (vw_high v) (c_safety c);
  ca_pm : pm_at (vw_round v) (vw_tc v) (vw_pending v) (c_pacemaker c);
  ca_tree : tree_at (vw_high v) (vw_commit v) (vw_votes v) slots (c_tree c);
}.

Implicit Types (c : Core) (l : MemLedger) (q k x : QuorumCert) (slots : voterKey -> Prop) (v : view).

Lemma core_at_slots v slots slots' c : core_at v slots c -> (forall vk, slots vk -> slots' vk) -> core_at v slots' c.
Proof. intros [H1 H2 H3 H4 H5 [T1 T2 T3 T4 T5 T6]] HS. split; try done. split; auto. Qed.

Lemma core_at_voted r h hv l e q k tc pend votes slots c :
  core_at (MkView r h l e q k tc pend votes) slots c -> (h <= hv)%N -> core_at (MkView r hv l e q k tc pend votes) slots c.
Proof. intros [H1 H2 H3 [S1 S2 S3 S4] H5 H6] Hle. cbn in S3. split; try done. split; try done. cbn. lia. Qed.

(** ** Certificates *)

Section certs.
Context `{o : RangeOrder} `{FloatConv}.

Lemma higher_stale x q : (QCRound (Some x) <= QCRound (Some q))%N -> higher (Some x) (Some q) = Some q.
Proof. intros Hle. unfold higher. destruct (N.ltb_spec (QCRound (Some q)) (QCRound (Some x))); [lia|done]. Qed.
Lemma higher_new x q : (QCRound (Some q) < QCRound (Some x))%N -> higher (Some x) (Some q) = Some x.
Proof. intros Hlt. apply N.ltb_lt in Hlt. unfold higher. by rewrite Hlt. Qed.

Lemma tree_new l t q k slots x l' k' :
  tree_at q k ∅ slots t -> (QCRound (Some k) <= QCRound (Some q))%N -> (QCRound (Some q) < QCRound (Some x))%N ->
  commit_step l k x l' k' -> exists t', ProcessQC l t (Some x) = Some (l', t') /\ tree_at x k' ∅ slots t'.
Proof.
  intros [H1 H2 H3 H4 H5 H6] Hle Hlt Hc. unfold ProcessQC. cbn [QuorumCert_GetLedgerCommitInfo QuorumCert_GetVoteInfo].
  unfold commit_step in Hc. destruct (Commits _).
  - destruct Hc as [Hl ->]. rewrite Hl. cbn [mbind option_bind]. eexists. split; [reflexivity|].
    split; cbn; rewrite ?H1, ?H2, ?H3, ?H4, ?H5; try done; try (apply higher_new; lia).
    intros vk [_ Hvk]%elem_of_filter. auto.
  - destruct Hc as [-> ->]. cbn [mbind option_bind]. eexists. split; [reflexivity|].
    split; cbn; rewrite ?H1, ?H2, ?H3, ?H4, ?H5; try done. apply higher_new; lia.
Qed.

Lemma tree_stale v t slots x :
  tree_at (vw_high v) (vw_commit v) (vw_votes v) slots t -> stale v x ->
  exists t', ProcessQC (vw_ledger v) t (Some x) = Some (vw_ledger v, t') /\ tree_at (vw_high v) (vw_commit v) (vw_votes v) slots t'.
Proof.
  intros [H1 H2 H3 H4 H5 H6] (Hle & _ & Hx). unfold ProcessQC. cbn [QuorumCert_GetLedgerCommitInfo QuorumCert_GetVoteInfo].
  destruct (Commits (qc_ledger_commit_info x)).
  - destruct (Hx eq_refl) as (Hlek & Hl & Hv). unfold Commit. rewrite (bool_decide_eq_true_2 _ Hl). cbn [mbind option_bind].
    eexists. split; [reflexivity|]. split; cbn; rewrite ?H1, ?H2, ?H3, ?H4, ?H5; try done; try (by apply higher_stale).
    + apply map_filter_id. intros idx b Hb. cbn. specialize (Hv idx b Hb). lia.
    + intros vk [_ Hvk]%elem_of_filter. auto.
  - cbn [mbind option_bind]. eexists. split; [reflexivity|]. split; cbn; rewrite ?H1, ?H2, ?H3, ?H4, ?H5; try done. by apply higher_stale.
Qed.

Lemma at_update c v slots x e' :
  core_at v slots c -> UpdateLeaders (vw_leaders v) (vw_ledger v) (vw_round v) (Some x) = Some e' ->
  yields (leadersUpdate (Some x)) c tt [] (core_at (set_leaders e' v) slots).
Proof.
  intros [H1 H2 H3 H4 H5 H6] E. unfold yields, leadersUpdate, CurrentRound. rewrite H2, H3, (pm_round _ _ _ _ H5), E.
  eexists _, []. split; [reflexivity|]. split; [done|]. by split.
Qed.

(** A certificate again. *)
Lemma at_stale c v slots x e' :
  core_at v slots c -> stale v x -> UpdateLeaders (vw_leaders v) (vw_ledger v) (vw_round v) (Some x) = Some e' ->
  yields (processCertificateQC (Some x)) c false [] (core_at (set_leaders e' v) slots).
Proof.
  intros Hc Hx He. unfold processCertificateQC. apply (yields_bind _ _ _ tt _ [] [] (core_at v slots)).
  { destruct Hc as [H1 H2 H3 H4 H5 H6]. destruct (tree_stale v _ _ _ H6 Hx) as (t' & E & Ht').
    unfold yields, treeProcessQC. rewrite H2, E. eexists _, []. split; [reflexivity|]. split; [done|]. by split. }
  intros c1 H1. apply (yields_bind _ _ _ tt _ [] [] (core_at (set_leaders e' v) slots)); [by eapply at_update|].
  intros c2 H2. destruct Hx as (_ & Hlt & _). unfold yields, pmAdvanceRoundQC, AdvanceRoundQC.
  rewrite (pm_round _ _ _ _ (ca_pm _ _ _ H2)). apply N.ltb_lt in Hlt. cbn [vw_round set_leaders]. rewrite Hlt.
  eexists _, []. split; [reflexivity|]. split; [done|]. by destruct H2.
Qed.

Lemma at_advance c r hv l e q k tc slots x :
  core_at (MkView r hv l e q k tc ∅ ∅) slots c -> QCRound (Some x) = r -> (r + 1 < two64)%N ->
  yields (pmAdvanceRoundQC (Some x)) c true [] (core_at (MkView (r + 1) hv l e q k None ∅ ∅) slots).
Proof.
  intros [A1 A2 A3 A4 [P1 P2 P3 P4 P5] A6] Ex Hr. unfold yields, pmAdvanceRoundQC, AdvanceRoundQC. cbn in P1, P3. rewrite P1, Ex, N.ltb_irrefl.
  rewrite startTimer_eq. eexists _, _. split; [reflexivity|]. split.
  - cbn. by destruct (p_timer _).
  - split; try done. split; cbn; try done; [by apply add64_small|by rewrite P3].
Qed.

(** A certificate of the current round: commit what it commits, and on to the next. *)
Lemma at_new c r hv l e q k tc slots x l' k' :
  core_at (MkView r hv l e q k tc ∅ ∅) slots c -> QCRound (Some x) = r -> (QCRound (Some q) < r)%N ->
  (QCRound (Some k) <= QCRound (Some q))%N -> (r + 1 < two64)%N -> commit_step l k x l' k' ->
  yields (processCertificateQC (Some x)) c true [] (core_at (MkView (r + 1) hv l' e x k' None ∅ ∅) slots).
Proof.
  intros Hc Ex Hlt Hle Hr Hs. unfold processCertificateQC.
  apply (yields_bind _ _ _ tt _ [] [] (core_at (MkView r hv l' e x k' tc ∅ ∅) slots)).
  { destruct Hc as [H1 H2 H3 H4 H5 H6]. cbn in *. destruct (tree_new l _ _ _ _ x l' k' H6 Hle ltac:(lia) Hs) as (t' & E & Ht').
    unfold yields, treeProcessQC. rewrite H2, E. eexists _, []. split; [reflexivity|]. split; [done|]. split; try done.
    destruct H4 as [S1 S2 S3 S4]. split; try done. cbn. lia. }
  intros c1 H1. apply (yields_bind _ _ _ tt _ [] [] (core_at (MkView r hv l' e x k' tc ∅ ∅) slots)).
  { apply (at_update c1 (MkView r hv l' e x k' tc ∅ ∅) slots x e H1). unfold UpdateLeaders. cbn. rewrite Ex, (add64_small r 1) by done.
    destruct (N.eqb_spec (r + 1) r); [lia|]. cbn [negb]. by rewrite orb_true_r. }
  intros c2 H2. by eapply at_advance.
Qed.
End certs.

(** ** Proposing *)

Lemma yields_leader c v slots r id :
  core_at v slots c -> GetLeader (vw_leaders v) r = Some id -> yields (getLeader r) c id [] (core_at v slots).
Proof. intros Hc Hl. unfold yields, getLeader, fails_or. rewrite (ca_leaders _ _ _ Hc), Hl. by exists c, []. Qed.

(** What the leader of round [r] proposes over [q]. *)
Definition proposal_over (r : uint64) (q k : QuorumCert) (tc : option TimeoutCert) (sg : bytes) : ProposalMsg :=
  MkProposalMsg (Some (NewBlock i r txns (Some q))) tc (Some k) i (Some (MkSignature i sg)).

Lemma at_propose c v slots tc id sg :
  core_at v slots c -> GetLeader (vw_leaders v) (vw_round v) = Some id ->
  Sign cr (b_id (NewBlock i (vw_round v) txns (Some (vw_high v)))) = Some sg ->
  yields (processNewRoundEvent cr txns tc) c tt
    (if (id =? i)%N then [NetProposal (proposal_over (vw_round v) (vw_high v) (vw_commit v)
       (justifyingTC (QCRound (Some (vw_high v))) (vw_round v) tc) sg)] else []) (core_at v slots).
Proof.
  intros Hc Hl Hs. unfold processNewRoundEvent. set (P := core_at v slots) in *. set (r := vw_round v) in *.
  apply (yields_bind _ _ _ r _ [] _ P); [apply yields_gets; [apply Hc|done]|].
  intros c1 H1. apply (yields_bind _ _ _ id _ [] _ P); [by apply yields_leader|].
  intros c2 H2. apply (yields_bind _ _ _ i _ [] _ P); [apply yields_gets; [apply H2|done]|].
  intros c3 H3. destruct (id =? i)%N; cbn [negb]; [|by apply yields_ret].
  apply (yields_bind _ _ _ (NewBlock i r txns (Some (vw_high v))) _ [] _ P).
  { apply yields_gets; [|done]. unfold GenerateBlock. by destruct (ca_tree _ _ _ H3) as [-> _ -> _ _ _]. }
  intros c4 H4. unfold sign. rewrite Hs. cbn [mbind option_bind]. apply (yields_bind _ _ _ (Some (vw_commit v)) _ [] _ P).
  { apply yields_gets; [|done]. unfold HighCommitQC. by destruct (ca_tree _ _ _ H4) as [_ _ _ -> _ _]. }
  intros c5 H5. eexists c5, _. split; [reflexivity|]. by split.
Qed.

(** ** Voting *)

(** The vote for a block executed to [st'] over a parent with state [st]; it commits
    the parent if the two are of consecutive rounds. *)
Definition info_on (b : Block) (st' : bytes) : VoteInfo := MkVoteInfo (b_id b) (b_round b) (parentID b) (QCRound (b_qc b)) st'.
Definition commit_on (b : Block) (st st' : bytes) : LedgerCommitInfo :=
  MkLedgerCommitInfo (if (QCRound (b_qc b) + 1 =? b_round b)%N then st else zeroHash) (VoteInfoHash (Some (info_on b st'))).
Definition vote_on (b : Block) (st st' : bytes) (k : QuorumCert) (sg : bytes) : VoteMsg :=
  MkVoteMsg (Some (info_on b st')) (Some (commit_on b st st')) (Some k) i (Some (MkSignature i sg)).

Section voting.
Context `{o : RangeOrder} `{FloatConv}.

Lemma at_insert c r hv l e q k tc slots b l2 :
  core_at (MkView r hv l e q k tc ∅ ∅) slots c -> (Speculate l b).1 = l2 -> Missing l2 (b_id b) = Some None ->
  yields (insert b) c tt [] (core_at (MkView r hv l2 e q k tc ∅ ∅) slots).
Proof.
  intros [H1 H2 H3 H4 H5 [T1 T2 T3 T4 T5 T6]] Hs Hm. unfold insert.
  apply (yields_bind _ _ _ tt _ [] [] (core_at (MkView r hv l2 e q k tc ∅ ∅) slots)).
  { unfold treeExecuteAndInsert, ExecuteAndInsert. eexists _, []. split; [reflexivity|]. split; [done|]. cbn in H2. by rewrite H2, Hs. }
  intros c1 Hc1. apply (yields_bind _ _ _ None _ [] [] (core_at (MkView r hv l2 e q k tc ∅ ∅) slots)); [|intros c2 Hc2; by apply yields_ret].
  exists c1, []. unfold fails_or. rewrite (ca_ledger _ _ _ Hc1). cbn. by rewrite Hm.
Qed.

Lemma justified_votes r q tc s hv : justified r q tc -> safe_at hv q s -> (hv < r)%N -> (r < two64)%N ->
  safeToVote s r (QCRound (Some q)) tc = true.
Proof.
  intros Hj [_ _ Hv _] Hlt Hr. unfold safeToVote, consecutive.
  destruct Hj as [[Eq ->]|(Hq & t & -> & Et & Hm)].
  - destruct (N.leb_spec r (N.max (s_highestVoteRound s) (QCRound (Some q)))); [lia|]. rewrite add64_small by lia.
    apply N.eqb_eq in Eq. by rewrite Eq.
  - destruct (N.leb_spec r (N.max (s_highestVoteRound s) (QCRound (Some q)))); [lia|]. apply orb_true_iff. right.
    unfold safeToExtend, consecutive. cbn [TimeoutCert_GetRound]. rewrite add64_small by lia. apply N.eqb_eq in Et. rewrite Et. by apply N.leb_le.
Qed.

Lemma at_cast c r hv l e q k tcl slots tc b st st' to sg :
  core_at (MkView r hv l e q k tcl ∅ ∅) slots c -> (hv < r)%N -> (r + 1 < two64)%N ->
  b_round b = r -> b_qc b = Some q -> justified r q tc -> validBlockID b = true ->
  VerifyQC ver (Some q) = true -> VerifyTC ver tc = true -> PendingState l (b_id b) = Some st' -> PendingState l (parentID b) = Some st ->
  GetLeader e (r + 1) = Some to -> Sign cr (LedgerCommitDigest (Some (commit_on b st st'))) = Some sg ->
  yields (vote ← safetyMakeVote cr b tc;
          match vote with None => mret tt | Some v => to ← getLeader (r +u64 1); emit (NetVote v to) end) c tt
    [NetVote (vote_on b st st' k sg) to] (core_at (MkView r r l e q k tcl ∅ ∅) slots).
Proof.
  intros [H1 H2 H3 H4 H5 H6] Hhv Hr Er Eq Hj Hid Hq Ht Hp Hpp Hto Hsg. cbn in *.
  apply (yields_bind _ _ _ (Some (vote_on b st st' k sg)) _ [] _ (core_at (MkView r r l e q k tcl ∅ ∅) slots)).
  - assert (commitStateIDCandidate l (b_round b) (b_qc b) = lci_commit_state_id (commit_on b st st')) as Ecs.
    { unfold commitStateIDCandidate, commit_on, consecutive. cbn [lci_commit_state_id]. fold (parentID b). rewrite Hpp, Eq, Er, add64_small.
      - by destruct (_ =? _)%N.
      - destruct Hj as [[? _]|[? _]]; lia. }
    unfold yields, safetyMakeVote. rewrite H2, (MakeVote_yes cr (c_safety c) l (c_tree c) b tc st' sg); try done.
    + eexists _, []. split; [|split; [done|]].
      * unfold HighCommitQC. destruct H6 as [_ _ _ -> _ _]. rewrite Ecs, (sa_id _ _ _ H4). reflexivity.
      * destruct H4 as [S1 S2 S3 S4]. split; try done. split; cbn; try done; rewrite ?Er, ?Eq; lia.
    + by rewrite (sa_ver _ _ _ H4), Eq.
    + by rewrite (sa_ver _ _ _ H4).
    + rewrite Er, Eq. eapply justified_votes; [done..|lia].
    + by rewrite Ecs.
  - intros c1 Hc1. rewrite add64_small by lia. apply (yields_bind _ _ _ to _ [] _ (core_at (MkView r r l e q k tcl ∅ ∅) slots)); [by apply yields_leader|].
    intros c2 H2'. by exists c2, [NetVote (vote_on b st st' k sg) to].
Qed.

Lemma justified_tc_round r q tc : justified r q tc -> forall t, tc = Some t -> (tc_round t < r)%N.
Proof. intros [[_ ->]|(_ & t' & -> & Et & _)] t; [done|]. intros [= <-]. lia. Qed.

Lemma at_stale_tc c v slots tc :
  core_at v slots c -> (forall t, tc = Some t -> (tc_round t < vw_round v)%N) -> yields (pmAdvanceRoundTC tc) c false [] (core_at v slots).
Proof.
  intros Hc Ht. unfold yields, pmAdvanceRoundTC. rewrite AdvanceRoundTC_eq.
  assert (core_at v slots (set_parts c (c_ledger c) (c_tree c) (c_safety c) (c_pacemaker c) (c_leaders c))) by (by destruct Hc).
  destruct tc as [t|]; [|by eexists _, []].
  rewrite (pm_round _ _ _ _ (ca_pm _ _ _ Hc)). specialize (Ht t eq_refl). apply N.ltb_lt in Ht. rewrite Ht. by eexists _, [].
Qed.

(** A proposal over [q], given what its certificates do. *)
Lemma at_proposal c v1 r hv l e q k tcl slots mv tc b sg ldr st st' l2 to vsg :
  yields (processCertificateQC (Some q)) c mv [] (core_at v1 slots) ->
  (forall c', core_at v1 slots c' -> yields (processCertificateQC (Some k)) c' false [] (core_at (MkView r hv l e q k tcl ∅ ∅) slots)) ->
  (hv < r)%N -> (r + 1 < two64)%N -> b_round b = r -> b_author b = ldr -> b_qc b = Some q -> justified r q tc ->
  validBlockID b = true -> VerifyQC ver (Some q) = true -> VerifyTC ver tc = true -> GetLeader e r = Some ldr ->
  (Speculate l b).1 = l2 -> Missing l2 (b_id b) = Some None -> PendingState l2 (b_id b) = Some st' -> PendingState l2 (parentID b) = Some st ->
  GetLeader e (r + 1) = Some to -> Sign cr (LedgerCommitDigest (Some (commit_on b st st'))) = Some vsg ->
  yields (processProposalMsg cr (MkProposalMsg (Some b) tc (Some k) ldr (Some sg))) c tt
    [NetVote (vote_on b st st' k vsg) to] (core_at (MkView r r l2 e q k tcl ∅ ∅) slots).
Proof.
  intros Hc1 Hc2 Hhv Hr Er Ea Eq Hj Hid Hq Ht Hl Hs Hm Hp Hpp Hto Hsg. unfold processProposalMsg.
  cbn [pm_block pm_high_commit_qc pm_last_round_tc pm_sender Block_GetQc Block_GetRound Block_GetAuthor default].
  rewrite Eq. apply (yields_bind _ _ _ mv _ [] _ _ _ Hc1). intros c1 H1.
  apply (yields_bind _ _ _ false _ [] _ _ _ (Hc2 c1 H1)). intros c2 H2. set (P := core_at (MkView r hv l e q k tcl ∅ ∅) slots) in *.
  apply (yields_bind _ _ _ false _ [] _ P); [apply at_stale_tc; [done|by eapply justified_tc_round]|].
  intros c3 H3. apply (yields_bind _ _ _ r _ [] _ P); [apply yields_gets; [apply H3|done]|].
  intros c4 H4. apply (yields_bind _ _ _ ldr _ [] _ P); [by apply yields_leader|].
  intros c5 H5. rewrite Er, Ea, !N.eqb_refl. cbn [negb orb].
  apply (yields_bind _ _ _ tt _ [] _ (core_at (MkView r hv l2 e q k tcl ∅ ∅) slots)); [by eapply at_insert|].
  intros c6 H6. eapply at_cast; eauto.
Qed.
End voting.

(** ** Collecting votes *)

Definition tally (vi : VoteInfo) (ci : LedgerCommitInfo) (sgs : list Signature) : gmap bytes voteBucket :=
  match sgs with
  | [] => ∅
  | _ => {[LedgerCommitDigest (Some ci) := MkVoteBucket (Some vi) (Some ci) sgs]}
  end.
(** The vote slots taken: those of earlier rounds, and those of [voters] in round [r]. *)
Definition slots_at (r : uint64) (voters : list uint32) (vk : voterKey) : Prop :=
  (vk.1 < r)%N \/ (vk.1 = r /\ vk.2 ∈ voters).

Definition cert_of (vi : VoteInfo) (ci : LedgerCommitInfo) (sgs : list Signature) (asg : bytes) : QuorumCert :=
  MkQuorumCert (Some vi) (Some ci) (canonical sgs) i (Some (MkSignature i asg)).

Section votes.
Context `{o : RangeOrder} `{FloatConv} (r hv : uint64) (l : MemLedger) (e : LeaderElection) (q k : QuorumCert) (tc : option TimeoutCert).
Context (vi : VoteInfo) (ci : LedgerCommitInfo).
#[local] Abbreviation voting sgs := (MkView r hv l e q k tc ∅ (tally vi ci sgs)).
Hypothesis (Hvi : vi_round vi = r).
Hypothesis (Hstale : forall sgs, stale (voting sgs) k).
Hypothesis (Hr : (r + maxRoundLead < two64)%N).

Definition vote_from (j : uint32) (sg : bytes) : VoteMsg := MkVoteMsg (Some vi) (Some ci) (Some k) j (Some (MkSignature j sg)).

Lemma tree_vote t sgs voters j sg :
  tree_at q k (tally vi ci sgs) (slots_at r voters) t -> j ∉ voters ->
  let sgs' := sgs ++ [MkSignature j sg] in
  ((Z.of_nat (length sgs') < quorum)%Z -> exists t', ProcessVote cr l t (vote_from j sg) = Some (l, t', None) /\
     tree_at q k (tally vi ci sgs') (slots_at r (j :: voters)) t') /\
  (forall asg, (quorum <= Z.of_nat (length sgs'))%Z -> Sign cr (qcSigsDigest (canonical sgs')) = Some asg ->
     exists t', ProcessVote cr l t (vote_from j sg) = Some (l, t', Some (cert_of vi ci sgs' asg)) /\
     tree_at q k ∅ (slots_at r (j :: voters)) t').
Proof.
  intros Ht Hj sgs'. destruct (tree_stale (voting sgs) t _ _ Ht (Hstale sgs)) as (t1 & E & [H1 H2 H3 H4 H5 H6]). cbn [vw_ledger vw_high vw_commit vw_votes] in *.
  unfold ProcessVote, vote_from. cbn [vm_high_commit_qc vm_vote_info vm_sender vm_ledger_commit_info vm_sig VoteInfo_GetRound].
  rewrite E. cbn [mbind option_bind]. rewrite Hvi, bool_decide_eq_false_2.
  2: { intros [Hlt|[_ Hin]]%H6; cbn in *; [lia|done]. }
  assert (default (MkVoteBucket (Some vi) (Some ci) []) (t_votes t1 !! LedgerCommitDigest (Some ci)) = MkVoteBucket (Some vi) (Some ci) sgs) as ->.
  { rewrite H5. unfold tally. destruct sgs; [by rewrite lookup_empty|by rewrite lookup_singleton_eq]. }
  cbn [vb_voteInfo vb_commit vb_sigs default id]. fold sgs'. rewrite H1, H2.
  assert (forall vk, vk ∈ {[(r, j)]} ∪ t_voters t1 -> slots_at r (j :: voters) vk) as Hsl.
  { intros vk [Hvk%elem_of_singleton|Hvk%H6]%elem_of_union; [subst vk; right; split; [done|left]|].
    destruct Hvk as [?|[? ?]]; [by left|right; split; [done|by right]]. }
  assert (forall b b', <[LedgerCommitDigest (Some ci):=b]> (tally vi ci sgs) = {[LedgerCommitDigest (Some ci):=b]} /\
    delete (LedgerCommitDigest (Some ci)) ({[LedgerCommitDigest (Some ci):=b']} : gmap bytes voteBucket) = ∅) as Hmap.
  { intros b b'. split; [|apply delete_singleton_eq]. unfold tally. destruct sgs; [done|]. apply insert_singleton_eq. }
  split.
  - intros Hq. apply Z.ltb_lt in Hq. rewrite Hq. eexists. split; [reflexivity|]. split; cbn; try done.
    rewrite H5. destruct (Hmap (MkVoteBucket (Some vi) (Some ci) sgs') (MkVoteBucket None None [])) as [-> _].
    unfold tally, sgs'. by destruct sgs.
  - intros asg Hq Hs. destruct (Z.ltb_spec (Z.of_nat (length sgs')) quorum); [lia|]. unfold sign. rewrite Hs. cbn [mbind option_bind].
    eexists. split; [reflexivity|]. split; cbn; try done. rewrite H5.
    destruct (Hmap (MkVoteBucket (Some vi) (Some ci) sgs') (MkVoteBucket (Some vi) (Some ci) sgs')) as [-> Hd]. exact Hd.
Qed.

Lemma in_window : (r +u64 maxRoundLead <? r)%N || (r +u64 1 <? r)%N = false.
Proof.
  unfold maxRoundLead in *. rewrite !add64_small by lia. apply orb_false_iff.
  split; apply N.ltb_ge; lia.
Qed.

(** A vote that does not complete the quorum sends nothing. *)
Lemma at_vote c sgs voters j sg :
  core_at (voting sgs) (slots_at r voters) c -> j ∉ voters ->
  (Z.of_nat (length (sgs ++ [MkSignature j sg])) < quorum)%Z ->
  yields (processVoteMsg cr txns (vote_from j sg)) c tt []
    (core_at (voting (sgs ++ [MkSignature j sg])) (slots_at r (j :: voters))).
Proof.
  intros Hc Hj Hq. unfold processVoteMsg. cbn [vm_vote_info vote_from VoteInfo_GetRound]. rewrite Hvi.
  eapply (yields_bind _ _ _ r _ [] []); [apply yields_gets; [apply Hc|exact Hc]|]. intros c1 H1. rewrite in_window.
  eapply (yields_bind _ _ _ None _ [] [] (core_at (voting (sgs ++ [MkSignature j sg])) (slots_at r (j :: voters))));
    [|intros c2 H2; by apply yields_ret].
  destruct H1 as [A1 A2 A3 A4 A5 A6]. cbn in A2. destruct (tree_vote (c_tree c1) sgs voters j sg A6 Hj) as [Hv _].
  destruct (Hv Hq) as (t' & E & Ht'). unfold yields, treeProcessVote. rewrite A2, E.
  eexists _, []. split; [reflexivity|]. split; [done|]. by split.
Qed.

(** The vote that completes it: the next leader certifies, enters the next round and
    proposes. *)
Lemma at_last_vote c sgs voters j sg asg psg l' k' :
  let sgs' := sgs ++ [MkSignature j sg] in
  let q' := cert_of vi ci sgs' asg in
  core_at (voting sgs) (slots_at r voters) c -> j ∉ voters ->
  (quorum <= Z.of_nat (length sgs'))%Z -> Sign cr (qcSigsDigest (canonical sgs')) = Some asg ->
  (QCRound (Some q) < r)%N -> (QCRound (Some k) <= QCRound (Some q))%N -> commit_step l k q' l' k' ->
  GetLeader e (r + 1) = Some i -> Sign cr (b_id (NewBlock i (r + 1) txns (Some q'))) = Some psg ->
  yields (processVoteMsg cr txns (vote_from j sg)) c tt [NetProposal (proposal_over (r + 1) q' k' None psg)]
    (core_at (MkView (r + 1) hv l' e q' k' None ∅ ∅) (slots_at r (j :: voters))).
Proof.
  intros sgs' q' Hc Hj Hq Hasg Hlt Hle Hcs Hld Hpsg. unfold processVoteMsg. cbn [vm_vote_info vote_from VoteInfo_GetRound]. rewrite Hvi.
  eapply (yields_bind _ _ _ r _ [] _); [apply yields_gets; [apply Hc|exact Hc]|]. intros c1 H1. rewrite in_window.
  eapply (yields_bind _ _ _ (Some q') _ [] _ (core_at (MkView r hv l e q k tc ∅ ∅) (slots_at r (j :: voters)))).
  { destruct H1 as [A1 A2 A3 A4 A5 A6]. cbn in A2. destruct (tree_vote (c_tree c1) sgs voters j sg A6 Hj) as [_ Hv].
    destruct (Hv asg Hq Hasg) as (t' & E & Ht'). unfold yields, treeProcessVote. rewrite A2, E.
    eexists _, []. split; [reflexivity|]. split; [done|]. by split. }
  intros c2 H2. cbn [mbind]. eapply (yields_bind _ _ _ true _ [] _ (core_at (MkView (r + 1) hv l' e q' k' None ∅ ∅) (slots_at r (j :: voters)))).
  { unfold maxRoundLead in Hr. eapply at_new; try done. lia. }
  intros c3 H3. cbn [negb].
  pose proof (at_propose c3 _ _ None i psg H3 Hld Hpsg) as Hp. rewrite N.eqb_refl in Hp. cbn in Hp.
  unfold justifyingTC in Hp. by destruct (_ =? _)%N in Hp.
Qed.
End votes.

(** ** Timing out *)

Definition info_from (r : uint64) (q : QuorumCert) (j : uint32) (sg : bytes) : TimeoutInfo :=
  MkTimeoutInfo r (Some q) j (Some (MkSignature j sg)).
Definition timeout_from (r : uint64) (q k : QuorumCert) (j : uint32) (tc : option TimeoutCert) (sg : bytes) : TimeoutMsg :=
  MkTimeoutMsg (Some (info_from r q j sg)) tc (Some k).

Lemma justified_justifies r q tc : justified r q tc -> (r < two64)%N -> justifyingTC (QCRound (Some q)) r tc = tc.
Proof.
  intros Hj Hr. unfold justifyingTC. destruct Hj as [[Eq ->]|(Hq & _)]; [by destruct (_ =? _)%N|].
  rewrite add64_small by lia. destruct (N.eqb_spec (QCRound (Some q) + 1) r); [lia|done].
Qed.

Lemma justified_timeouts r q tc s : justified r q tc -> safe_at r q s -> (r < two64)%N -> safeToTimeout s r (QCRound (Some q)) tc = true.
Proof.
  intros Hj [_ _ Hv Hl] Hr. unfold safeToTimeout.
  destruct (N.ltb_spec (QCRound (Some q)) (s_highestQCRound s)); [lia|].
  assert ((if (0 <? s_highestVoteRound s)%N then (s_highestVoteRound s - 1)%N else 0%N) < r)%N as Hvr.
  { destruct (N.ltb_spec 0 (s_highestVoteRound s)); [lia|]. destruct Hj as [[? _]|[? _]]; lia. }
  destruct (N.leb_spec r (N.max (if (0 <? s_highestVoteRound s)%N then (s_highestVoteRound s - 1)%N else 0%N) (QCRound (Some q)))) as [Hle|_].
  { destruct Hj as [[? _]|[? _]]; lia. }
  unfold consecutive. destruct Hj as [[Eq ->]|(Hq & t & -> & Et & _)].
  - rewrite add64_small by lia. apply N.eqb_eq in Eq. by rewrite Eq.
  - apply orb_true_iff. right. cbn [TimeoutCert_GetRound]. rewrite add64_small by lia. by apply N.eqb_eq.
Qed.

Section timeouts.
Context `{o : RangeOrder} `{FloatConv} (r : uint64) (l : MemLedger) (e : LeaderElection) (q k : QuorumCert) (tc : option TimeoutCert).
Context (sg : uint32 -> bytes).
Hypothesis (Hj : justified r q tc) (Hr : (r + 1 < two64)%N).
Hypothesis (Hq : VerifyQC ver (Some q) = true) (Htc : VerifyTC ver tc = true).
Hypothesis (Hsg : Sign cr (TimeoutDigest r (QCRound (Some q))) = Some (sg i)).

Lemma local_timeout p s t pend votes slots :
  pm_at r tc pend p -> safe_at r q s -> tree_at q k votes slots t -> (forall y b, pend !! y = Some b -> (r <= y)%N) ->
  exists p' s' es, LocalTimeoutRound cr p s t = (p', s', es) /\ pm_at r tc pend p' /\ safe_at r q s' /\
    sends es = [NetTimeout (timeout_from r q k i tc (sg i))].
Proof.
  intros [P1 P2 P3 P4 P5] Hs [_ _ T3 T4 _ _] Hpend. unfold LocalTimeoutRound. rewrite startTimer_eq. cbn [p_currentRound p_lastRoundTC].
  unfold HighQC, HighCommitQC. rewrite P1, P2, T3, T4. pose proof Hs as [S1 S2 S3 S4].
  rewrite (MakeTimeout_yes cr s r (Some q) tc (sg i)); try (by rewrite ?S2); [|by apply justified_timeouts; [..|lia]].
  eexists _, _, _. split; [reflexivity|]. split; [|split].
  - split; cbn; try done. rewrite P3. apply map_filter_id. intros x b Hb. cbn. specialize (Hpend x b Hb). lia.
  - split; cbn; try done. lia.
  - cbn [TimeoutInfo_GetHighQc TimeoutInfo_GetRound ti_high_qc ti_round]. rewrite justified_justifies by (done || lia).
    rewrite !sends_app, S1. destruct (p_timer p); reflexivity.
Qed.

(** The timer of the current round. *)
Lemma at_expire c hv slots :
  core_at (MkView r hv l e q k tc ∅ ∅) slots c -> (hv <= r)%N ->
  yields (Step cr txns (LocalTimeoutEvent (Epoch (c_pacemaker c)))) c tt [NetTimeout (timeout_from r q k i tc (sg i))]
    (core_at (MkView r r l e q k tc ∅ ∅) slots).
Proof.
  intros [H1 H2 H3 [S1 S2 S3 S4] H5 H6] Hhv. apply yields_Step. cbn [dispatch]. cbn in *.
  apply (yields_bind _ _ _ (Epoch (c_pacemaker c)) _ [] _ (fun c' => c' = c)); [by apply yields_gets|]. intros c' ->. rewrite N.eqb_refl.
  assert (safe_at r q (c_safety c)) as Hs by (split; try done; lia).
  destruct (local_timeout _ _ _ _ _ _ H5 Hs H6) as (p' & s' & es & E & Hp' & Hs' & Hes); [intros y b Hb; by rewrite lookup_empty in Hb|].
  unfold yields, pmLocalTimeoutRound. rewrite E. eexists _, _. split; [reflexivity|]. split; [done|]. by split.
Qed.

(** *** Timeouts of others *)

Definition infos (pre : list uint32) : list TimeoutInfo := (fun j => info_from r q j (sg j)) <$> pre.
Definition heard (pre : list uint32) : gmap uint64 timeoutBucket :=
  match pre with [] => ∅ | _ => {[r := MkTimeoutBucket (infos pre) (list_to_set pre)]} end.
Definition tc_of (pre : list uint32) : TimeoutCert := MkTimeoutCert r (sort_by tv_signer (timeout_vote <$> infos pre)).

Lemma heard_round pre y b : heard pre !! y = Some b -> (r <= y)%N.
Proof. unfold heard. destruct pre; [by rewrite lookup_empty|]. intros [<- _]%lookup_singleton_Some. lia. Qed.

Lemma stop_at p pend : pm_at r tc pend p -> pm_at r tc pend (Stop p).1 /\ sends (Stop p).2 = [].
Proof. intros [P1 P2 P3 P4 P5]. split; [by split|]. cbn. by destruct (p_timer p). Qed.

Lemma remote_timeout p s t votes slots j tcj pre :
  pm_at r tc (heard pre) p -> safe_at r q s -> tree_at q k votes slots t -> NoDup pre -> j ∉ pre ->
  exists p' s' es, ProcessRemoteTimeout cr p s t (timeout_from r q k j tcj (sg j)) =
      (p', s', es, if (Z.of_nat (length pre + 1) =? quorum)%Z then Some (tc_of (pre ++ [j])) else None) /\
    pm_at r tc (heard (pre ++ [j])) p' /\ safe_at r q s' /\ sent_proposals (sends es) = [].
Proof.
  intros Hp Hs Ht Hnd Hjp. pose proof Hp as [P1 P2 P3 P4 P5]. unfold ProcessRemoteTimeout.
  cbn [tm_tmo_info timeout_from TimeoutInfo_GetRound TimeoutInfo_GetSender info_from ti_round ti_sender default].
  rewrite P1, N.ltb_irrefl. set (b := default (MkTimeoutBucket [] ∅) (p_pendingTimeouts p !! r)).
  assert (b = MkTimeoutBucket (infos pre) (list_to_set pre)) as ->.
  { unfold b. rewrite P3. unfold heard. destruct pre; [by rewrite lookup_empty|by rewrite lookup_singleton_eq]. }
  cbn [tb_infos tb_senders]. rewrite bool_decide_eq_false_2 by (by rewrite elem_of_list_to_set).
  change (info_from r q j (sg j)) with (id (info_from r q j (sg j))). cbn [id]. 
  assert (({[j]} ∪ list_to_set pre : gset uint32) = list_to_set (pre ++ [j])) as -> by (rewrite list_to_set_app_L; set_solver).
  assert (infos pre ++ [info_from r q j (sg j)] = infos (pre ++ [j])) as -> by (unfold infos; by rewrite fmap_app).
  assert (size (list_to_set (pre ++ [j]) : gset uint32) = length pre + 1) as ->.
  { rewrite size_list_to_set, length_app; [done|]. apply NoDup_app. split; [done|]. split; [|apply NoDup_singleton].
    intros x Hx Hxj. apply list_elem_of_singleton in Hxj as ->. done. }
  set (p1 := put_bucket p r _).
  assert (pm_at r tc (heard (pre ++ [j])) p1) as Hp1.
  { split; cbn; try done. rewrite P3. unfold heard. destruct pre; cbn; [done|]. apply insert_singleton_eq. }
  change (p_faulty p1) with (p_faulty p). rewrite P5.
  assert (forall p' s' es, pm_at r tc (heard (pre ++ [j])) p' -> safe_at r q s' -> sent_proposals (sends es) = [] ->
    exists p2 s2 es2, (if negb (Z.of_nat (length pre + 1) =? p_quorum p')%Z then (p', s', es, None)
      else (p', s', es, Some (MkTimeoutCert r (sort_by tv_signer (timeout_vote <$> infos (pre ++ [j])))))) =
      (p2, s2, es2, if (Z.of_nat (length pre + 1) =? quorum)%Z then Some (tc_of (pre ++ [j])) else None) /\
      pm_at r tc (heard (pre ++ [j])) p2 /\ safe_at r q s2 /\ sent_proposals (sends es2) = []) as Hend.
  { intros p' s' es Hp' Hs' Hes. exists p', s', es. rewrite (pm_quorum _ _ _ _ Hp'). by destruct (_ =? _)%Z. }
  destruct (_ =? faulty + 1)%Z.
  - destruct (stop_at p1 _ Hp1) as [Hp2 He2]. destruct (Stop p1) as [p2 es1]. cbn [fst snd] in *.
    destruct (local_timeout p2 s t _ _ _ Hp2 Hs Ht (heard_round _)) as (p3 & s3 & es2 & -> & Hp3 & Hs3 & He3).
    apply Hend; [done..|]. by rewrite sends_app, He2, He3.
  - by apply Hend.
Qed.

Hypothesis (Hstale : forall pre, stale (MkView r r l e q k tc (heard pre) ∅) q /\ stale (MkView r r l e q k tc (heard pre) ∅) k).
Hypothesis (Hup : UpdateLeaders e l r (Some q) = Some e) (Hupk : UpdateLeaders e l r (Some k) = Some e).
#[local] Abbreviation hearing pre := (MkView r r l e q k tc (heard pre) ∅).

Lemma at_timeout_heard c slots j tcj pre :
  core_at (hearing pre) slots c -> NoDup pre -> j ∉ pre -> (forall t, tcj = Some t -> (tc_round t < r)%N) ->
  exists es, sent_proposals (sends es) = [] /\
  yields (_ ← processCertificateQC (Some q); _ ← processCertificateQC (Some k); _ ← pmAdvanceRoundTC tcj;
          pmProcessRemoteTimeout cr (timeout_from r q k j tcj (sg j))) c
    (if (Z.of_nat (length pre + 1) =? quorum)%Z then Some (tc_of (pre ++ [j])) else None) (sends es) (core_at (hearing (pre ++ [j])) slots).
Proof.
  intros Hc Hnd Hjp Ht. destruct (Hstale pre) as [Hsq Hsk].
  assert (forall c', core_at (hearing pre) slots c' -> exists p' s' es,
    pmProcessRemoteTimeout cr (timeout_from r q k j tcj (sg j)) c' =
      Some (if (Z.of_nat (length pre + 1) =? quorum)%Z then Some (tc_of (pre ++ [j])) else None,
            set_parts c' (c_ledger c') (c_tree c') s' p' (c_leaders c'), es) /\
    sent_proposals (sends es) = [] /\ core_at (hearing (pre ++ [j])) slots (set_parts c' (c_ledger c') (c_tree c') s' p' (c_leaders c'))) as Hrem.
  { intros c' [H1 H2 H3 H4 H5 H6]. destruct (remote_timeout _ _ _ _ _ j tcj pre H5 H4 H6 Hnd Hjp) as (p' & s' & es & E & Hp' & Hs' & Hes).
    exists p', s', es. unfold pmProcessRemoteTimeout. rewrite E. split; [done|]. split; [done|]. by split. }
  destruct (at_stale c _ _ _ e Hc Hsq Hup) as (c1 & tr1 & E1 & T1 & H1). change (set_leaders e (hearing pre)) with (hearing pre) in H1.
  destruct (at_stale c1 _ _ _ e H1 Hsk Hupk) as (c2 & tr2 & E2 & T2 & H2). change (set_leaders e (hearing pre)) with (hearing pre) in H2.
  destruct (at_stale_tc c2 _ _ tcj H2 Ht) as (c3 & tr3 & E3 & T3 & H3).
  destruct (Hrem c3 H3) as (p' & s' & es & E4 & Hes & H4). exists es. split; [done|].
  eexists _, _. unfold mbind, M_bind. rewrite E1, E2, E3, E4. split; [reflexivity|]. rewrite !sends_app, T1, T2, T3. done.
Qed.

(** A timeout that does not complete the quorum brings out no proposal, ... *)
Lemma at_timeout c slots j tcj pre :
  core_at (hearing pre) slots c -> NoDup pre -> j ∉ pre -> (forall t, tcj = Some t -> (tc_round t < r)%N) ->
  (Z.of_nat (length pre + 1) < quorum)%Z ->
  exists es, sent_proposals es = [] /\
  yields (Step cr txns (TimeoutEvent (timeout_from r q k j tcj (sg j)))) c tt es (core_at (hearing (pre ++ [j])) slots).
Proof.
  intros Hc Hnd Hjp Ht Hlt. destruct (at_timeout_heard c slots j tcj pre Hc Hnd Hjp Ht) as (es & Hes & c' & tr & E & Htr & Hc').
  exists (sends es). split; [done|]. apply yields_Step. cbn [dispatch]. destruct (Z.eqb_spec (Z.of_nat (length pre + 1)) quorum); [lia|].
  exists c', tr. split; [|done]. unfold processTimeoutMsg. cbn [tm_tmo_info tm_high_commit_qc tm_last_round_tc timeout_from TimeoutInfo_GetHighQc info_from ti_high_qc].
  unfold mbind, M_bind in E |- *.
  destruct (processCertificateQC (Some q) c) as [[[m1 d1] t1]|]; [|done].
  destruct (processCertificateQC (Some k) d1) as [[[m2 d2] t2]|]; [|done].
  destruct (pmAdvanceRoundTC tcj d2) as [[[m3 d3] t3]|]; [|done].
  destruct (pmProcessRemoteTimeout cr _ d3) as [[[m4 d4] t4]|]; [|done]. injection E as -> -> <-. cbn. by rewrite app_nil_r.
Qed.

(** ... and the one that does ends the round; the leader of the next one proposes. *)
Lemma at_last_timeout c slots j tcj pre id psg :
  core_at (hearing pre) slots c -> NoDup pre -> j ∉ pre -> (forall t, tcj = Some t -> (tc_round t < r)%N) ->
  Z.of_nat (length pre + 1) = quorum -> (QCRound (Some q) < r)%N ->
  GetLeader e (r + 1) = Some id -> Sign cr (b_id (NewBlock i (r + 1) txns (Some q))) = Some psg ->
  exists es, sent_proposals es = (if (id =? i)%N then [proposal_over (r + 1) q k (Some (tc_of (pre ++ [j]))) psg] else []) /\
  yields (Step cr txns (TimeoutEvent (timeout_from r q k j tcj (sg j)))) c tt es
    (core_at (MkView (r + 1) r l e q k (Some (tc_of (pre ++ [j]))) ∅ ∅) slots).
Proof.
  intros Hc Hnd Hjp Ht Heq Hqr Hl Hpsg. destruct (at_timeout_heard c slots j tcj pre Hc Hnd Hjp Ht) as (es & Hes & c' & tr & E & Htr & Hc').
  apply Z.eqb_eq in Heq. rewrite Heq in E. set (t := tc_of (pre ++ [j])) in *.
  assert (yields (pmAdvanceRoundTC (Some t)) c' true [] (core_at (MkView (r + 1) r l e q k (Some t) ∅ ∅) slots)) as (c2 & tr2 & E2 & Htr2 & H2).
  { destruct Hc' as [A1 A2 A3 A4 [P1 P2 P3 P4 P5] A6]. cbn in P1, P3. unfold yields, pmAdvanceRoundTC. rewrite AdvanceRoundTC_eq. cbn [t tc_of tc_round].
    rewrite P1, N.ltb_irrefl, startTimer_eq. eexists _, _. split; [reflexivity|]. split; [cbn; by destruct (p_timer _)|].
    split; try done. split; cbn; try done; [by apply add64_small|]. rewrite P3. unfold heard. destruct (pre ++ [j]); [done|].
    apply map_filter_singleton_False. cbn. rewrite add64_small by lia. lia. }
  pose proof (at_propose c2 _ _ (Some t) id psg H2 Hl Hpsg) as (c3 & tr3 & E3 & Htr3 & H3). cbn [vw_round vw_high vw_commit] in Htr3.
  assert (justifyingTC (QCRound (Some q)) (r + 1) (Some t) = Some t) as Ej.
  { unfold justifyingTC. rewrite add64_small by lia. destruct (N.eqb_spec (QCRound (Some q) + 1) (r + 1)); [lia|done]. }
  rewrite Ej in Htr3. exists (sends es ++ sends tr3). split.
  { unfold sent_proposals in *. rewrite omap_app, Hes, Htr3. by destruct (id =? i)%N. }
  apply yields_Step. cbn [dispatch]. exists c3, (tr ++ tr2 ++ tr3). split; [|split; [by rewrite !sends_app, Htr, Htr2|exact H3]].
  unfold processTimeoutMsg. cbn [tm_tmo_info tm_high_commit_qc tm_last_round_tc timeout_from TimeoutInfo_GetHighQc info_from ti_high_qc].
  unfold mbind, M_bind in E |- *.
  destruct (processCertificateQC (Some q) c) as [[[m1 d1] t1]|]; [|done].
  destruct (processCertificateQC (Some k) d1) as [[[m2 d2] t2]|]; [|done].
  destruct (pmAdvanceRoundTC tcj d2) as [[[m3 d3] t3]|]; [|done].
  destruct (pmProcessRemoteTimeout cr _ d3) as [[[m4 d4] t4]|]; [|done]. injection E as -> -> <-. cbn.
  rewrite E2, E3. by rewrite <- !(assoc_L (++)).
Qed.
End timeouts.
End node.
