(* ===== verification/Frontier.v ===== *)
(** Between rounds: the ledger, with the certified blocks that are not committed yet
    hanging off its frontier, and the leaders. *)

From stdpp Require Import prelude gmap list fin_maps sorting.
From Stdlib Require Import NArith ZArith Lia Strings.Byte.
From S2P Require Import Prelude Sha256 Proto Hash Types Quorum Verify Orphans Ledger BlockTree Safety Agreement.
From S2P Require Import Seams Pacemaker Leader Core.

#[local] Opaque sha256.

(** ** The ledger *)

Section ledger.
Context (U : Block -> Prop) (rank : bytes -> nat) (HU : fed_universe U rank) (V : list uint32).
#[local] Abbreviation HB := (fu_blocks _ _ HU).

(** Its certificate is signed by validators. *)
Definition cert_within (b : Block) : Prop := forall s, s ∈ QuorumCert_GetSignatures (b_qc b) -> sg_signer s ∈ V.

(** The blocks [bs] lead from [a] to [z] and are all speculated. *)
Definition trail (l : MemLedger) (a : bytes) (bs : list Block) (z : bytes) : Prop :=
  linked a bs z /\ forall b, b ∈ bs -> exists st, l_pending l !! b_id b = Some (MkSpeculated b st).

(** [z], executed to [st], is reached from the frontier through the blocks [bs]. *)
Record rests (l : MemLedger) (bs : list Block) (z st : bytes) : Prop := {
  re_ok : ledger_ok U l;
  re_held : l_held l = ∅;
  re_state : PendingState l z = Some st;
  re_trail : trail l (l_commitID l) bs z;
  re_committed : forall id b, l_committed l !! id = Some b -> cert_within b;
  re_pending : forall id s, l_pending l !! id = Some s -> cert_within (sp_block s);
}.

Lemma above_parent b : U b -> b_id b ≠ parentID b.
Proof. intros Hb E. pose proof (bu_rank _ _ HB b Hb) as Hr. rewrite E in Hr. lia. Qed.

Lemma trail_known l a bs z b : ledger_inv U l -> trail l a bs z -> b ∈ bs -> U b.
Proof. intros Hi [_ Hp] Hb. destruct (Hp b Hb) as [st Hst]. by destruct (li_pending _ _ _ Hi _ _ Hst) as (? & _). Qed.

(** A trail is determined by its ends. *)
Lemma trail_unique l a bs cs z : ledger_inv U l -> trail l a bs z -> trail l a cs z -> bs = cs.
Proof.
  intros Hi Hb Hc. assert (b_id <$> bs = b_id <$> cs) as E.
  { eapply (linked_unique U rank HB); [..|apply Hb|apply Hc]; apply Forall_forall; intros x; by eapply trail_known. }
  destruct Hb as [_ Hb], Hc as [_ Hc]. revert cs E Hc. induction bs as [|b bs IH]; intros [|c cs] E Hc; try done.
  injection E as E1 E2. destruct (Hb b) as [sb Eb]; [left|]. destruct (Hc c) as [sc Ec]; [left|].
  rewrite E1, Ec in Eb. injection Eb as -> _. f_equal. apply IH; [|done|]; intros x Hx; [apply Hb|apply Hc]; by right.
Qed.

(** [Commit] appends the trail to the log. *)
Lemma Commit_trail (o : RangeOrder) l bs z s :
  ledger_inv U l -> l_pending l !! z = Some s -> trail l (l_commitID l) bs z ->
  forall l', Commit l z = Some l' -> l_onCommit l' = l_onCommit l ++ bs /\ l_held l' ⊆ l_held l.
Proof.
  intros Hi Hs Ht l'. destruct (Commit_walk_fuel U rank HB l z s Hi Hs) as (chain & Hw & _ & Hl & Hin & _).
  assert (trail l (l_commitID l) (sp_block <$> reverse chain) z) as Ht'.
  { split; [done|]. intros b (c & -> & Hc)%list_elem_of_fmap. rewrite elem_of_reverse in Hc. exists (sp_state c).
    rewrite (Hin c Hc). by destruct c. }
  rewrite (trail_unique _ _ _ _ _ Hi Ht Ht'). unfold Commit. rewrite bool_decide_eq_false_2.
  2: { intros ->. by rewrite (frontier_not_pending U rank HB _ _ Hi) in Hs. }
  rewrite Hw. cbn [mbind option_bind]. unfold forget. intros ([ord com] & _ & [= <-])%bind_Some. cbn.
  destruct (Commit_apply_fold l (reverse chain)) as (_ & _ & Eh & El & _). rewrite El, Eh. split; [done|apply map_filter_subseteq].
Qed.

Lemma rests_size l bs z st : rests l bs z st -> length st = hashLen.
Proof.
  intros [Hok _ Hs _ _ _]. apply known_cases in Hs as [[_ ->]|(_ & s & Hs & <-)].
  - rewrite (lk_state _ _ Hok). unfold exec_log. destruct (l_onCommit l) as [|b bs' _] using rev_ind; [apply length_sha256|].
    rewrite fold_left_app. apply length_sha256.
  - destruct (li_pending _ _ _ (lk_inv _ _ Hok) _ _ Hs) as (_ & _ & prev & _ & ->). rewrite (lk_Execute _ _ Hok). apply length_sha256.
Qed.

Lemma rests_acyclic l bs z st : rests l bs z st -> certs_acyclic l.
Proof.
  intros [Hok _ _ _ _ _]. exists rank. intros id b Hb. pose proof (li_committed _ _ _ (lk_inv _ _ Hok) id b Hb) as <-.
  destruct (lk_committed _ _ Hok _ _ Hb) as [Hu| ->]; [by apply (fu_certs _ _ HU)|apply (fu_genesis _ _ HU)].
Qed.

Lemma rests_start : rests NewMemLedger [] (b_id genesisBlock) (l_commitState NewMemLedger).
Proof.
  split; [apply NewMemLedger_ok|done|unfold PendingState; by rewrite bool_decide_eq_true_2| | |].
  - split; [done|]. intros b []%not_elem_of_nil.
  - cbn [l_committed NewMemLedger]. intros id b [_ <-]%lookup_singleton_Some s Hs. by apply not_elem_of_nil in Hs.
  - cbn [l_pending NewMemLedger]. intros id s Hs. by rewrite lookup_empty in Hs.
Qed.

(** *** A block on [z] *)

Section child.
Context (l : MemLedger) (bs : list Block) (z st : bytes) (b : Block).
Context (Hre : rests l bs z st) (Hb : U b) (Hw : cert_within b) (Hp : parentID b = z).
Let st' : bytes := ExecuteHash st (b_payload b).
Definition child_ledger : MemLedger := set_pending <[b_id b := MkSpeculated b st']> l.

Lemma child_speculated (o : RangeOrder) : (Speculate l b).1 = child_ledger.
Proof.
  pose proof (re_state _ _ _ _ Hre) as Ht. rewrite <- Hp in Ht. destruct Hre as [Hok Hh _ _ _ _].
  unfold Speculate. rewrite Hh. cbn [map_size size]. rewrite map_size_empty. cbn [Speculate_rec]. rewrite Ht, (lk_Execute _ _ Hok).
  cbn [fst]. cbn [set_pending l_held]. rewrite Hh. assert (range (∅ : gmap bytes Block) = []) as ->; [|done].
  apply elem_of_nil_inv. intros [k v] Hk%elem_of_range. by rewrite lookup_empty in Hk.
Qed.

Lemma child_fresh : b_id b ≠ l_commitID l.
Proof. eapply (child_not_frontier U rank HB); [apply Hre|done|]. rewrite Hp. apply Hre. Qed.

Lemma child_ok : ledger_ok U child_ledger.
Proof. rewrite <- (child_speculated canonical_range). by apply (ExecuteAndInsert_ok U rank HB l (NewBlockTree 0 0) b); [apply Hre|]. Qed.

Lemma child_state : PendingState child_ledger (b_id b) = Some st' /\ PendingState child_ledger z = Some st.
Proof.
  unfold child_ledger. rewrite !PendingState_insert by apply child_fresh. rewrite bool_decide_eq_true_2 by done. split; [done|].
  rewrite bool_decide_eq_false_2 by (rewrite <- Hp; by apply not_eq_sym, above_parent). apply Hre.
Qed.

Lemma child_missing : Missing child_ledger (b_id b) = Some None.
Proof. unfold Missing. cbn. by rewrite (re_held _ _ _ _ Hre), lookup_empty. Qed.

Lemma child_trail : trail child_ledger (l_commitID l) bs z.
Proof.
  destruct (re_trail _ _ _ _ Hre) as [Hl Hin]. split; [done|]. intros x Hx. cbn [l_pending set_pending child_ledger].
  rewrite lookup_insert_ne; [auto|]. intros E. assert (Forall U bs) as HF.
  { apply Forall_forall. intros y. eapply trail_known; [apply Hre|apply Hre]. }
  pose proof (linked_below U rank HB _ _ _ x HF Hl Hx) as Hr. pose proof (bu_rank _ _ HB b Hb) as Hr'. rewrite E, Hp in Hr'. lia.
Qed.

Lemma child_pending id s : l_pending child_ledger !! id = Some s -> cert_within (sp_block s).
Proof. cbn [l_pending set_pending child_ledger]. intros [[_ <-]|[_ Hs]]%lookup_insert_Some; [done|by eapply (re_pending _ _ _ _ Hre)]. Qed.

(** The tip stays where it was, ... *)
Lemma child_rests : rests child_ledger bs z st.
Proof. split; [apply child_ok|apply Hre|apply child_state|apply child_trail|apply Hre|apply child_pending]. Qed.

(** ... moves up to the block, ... *)
Lemma child_tip : rests child_ledger (bs ++ [b]) (b_id b) st'.
Proof.
  destruct child_rests as [H1 H2 H3 [H4 H5] H6 H7]. split; [done|done|apply child_state| |done|done]. split.
  - eapply linked_app; [exact H4|]. by split.
  - intros x [Hx|Hx%list_elem_of_singleton]%elem_of_app; [auto|subst x]. exists st'. cbn. by rewrite lookup_insert_eq.
Qed.

(** ... or the trail below it is committed. *)
Lemma child_commit : exists l3, (forall o : RangeOrder, Commit child_ledger z = Some l3) /\ l_commitID l3 = z /\
  l_onCommit l3 = l_onCommit l ++ bs /\ rests l3 [b] (b_id b) st'.
Proof.
  destruct (@ledger_step_ok U rank HB canonical_range child_ledger (OpCommit z) child_ok) as (l3 & E & Hok3); [done|].
  cbn [ledger_step] in E. exists l3. split; [intros o; by rewrite <- E; apply Commit_order_irrelevant|].
  assert (l_commitID l3 = z /\ l_onCommit l3 = l_onCommit l ++ bs /\ l_held l3 = ∅ /\ l_pending l3 !! b_id b = Some (MkSpeculated b st')) as (E1 & E2 & E3 & E4).
  { destruct child_rests as [Hok Hh Hs Ht _ _]. apply known_cases in Hs as [[Ez _]|(_ & s & Hs & _)].
    - unfold Commit in E. rewrite (bool_decide_eq_true_2 _ Ez) in E. injection E as <-.
      assert (bs = []) as ->.
      { eapply trail_unique; [apply Hok|exact Ht|]. split; [by rewrite Ez|]. intros x []%not_elem_of_nil. }
      rewrite app_nil_r. split; [done|]. split; [done|]. split; [done|]. apply lookup_insert_eq.
    - destruct (Commit_trail _ _ _ _ _ (lk_inv _ _ Hok) Hs Ht _ E) as [El Eh]. rewrite Hh in Eh. assert (l_held l3 = ∅) by (apply (anti_symm (⊆)); [done|apply map_empty_subseteq]).
      destruct (Commit_pending U rank HB _ _ _ (lk_inv _ _ Hok) ltac:(by rewrite (lk_History _ _ Hok)) Hs) as (l4 & ? & E' & _ & Eid & _).
      rewrite E in E'. injection E' as <-. split; [done|]. split; [done|]. split; [done|].
      apply (Commit_descendants U rank HB _ _ _ _ _ _ (lk_inv _ _ Hok) Hs E). split; [apply lookup_insert_eq|].
      eapply descends_child; [apply lookup_insert_eq|done]. }
  split; [done|]. split; [done|]. split; [done|done| | | |].
  - unfold PendingState. rewrite bool_decide_eq_false_2 by (rewrite E1, <- Hp; by apply above_parent). by rewrite E4.
  - split; [by rewrite E1|]. intros x ->%list_elem_of_singleton. by exists st'.
  - intros id k Hk. destruct (Commit_committed _ _ _ _ _ E Hk) as [Hk'|(i & s & Hi & <-)]; [by eapply (re_committed _ _ _ _ Hre)|by eapply child_pending].
  - intros id s Hs. destruct child_rests as [Hok Hh Ht _ _ _]. apply known_cases in Ht as [[Ez _]|(_ & s' & Hs' & _)].
    + unfold Commit in E. rewrite (bool_decide_eq_true_2 _ Ez) in E. injection E as <-. by eapply child_pending.
    + apply (Commit_descendants U rank HB _ _ _ _ _ _ (lk_inv _ _ Hok) Hs' E) in Hs as [Hs _]. by eapply child_pending.
Qed.
End child.
End ledger.

(** ** The leaders between rounds *)

Section leaders.
Context (V : list uint32) (HV : V ≠ []).

Record elected (e : LeaderElection) : Prop := {
  el_validators : e_validators e = sort_ids V;
  el_leaders : forall r id, e_reputationLeaders e !! r = Some id -> id ∈ V;
}.

Lemma elected_leader e r : elected e -> exists id, GetLeader e r = Some id /\ id ∈ V.
Proof.
  intros [Hv Hl]. assert (e_validators e ≠ []) as Hne.
  { rewrite Hv. intros E. apply HV, Permutation_nil_r. by rewrite <- E, sort_ids_perm. }
  destruct (GetLeader_total e r Hne) as [id Hid]. exists id. split; [done|]. unfold GetLeader in Hid.
  destruct (e_reputationLeaders e !! r) as [k|] eqn:E; [injection Hid as <-; by eapply Hl|].
  apply list_elem_of_lookup_2 in Hid. by rewrite Hv, sort_ids_perm in Hid.
Qed.

Lemma elect_in e l qc id :
  electReputationLeader e l qc = Some (Some id) -> (forall s, s ∈ QuorumCert_GetSignatures qc -> sg_signer s ∈ V) ->
  (forall k b, l_committed l !! k = Some b -> cert_within V b) -> id ∈ V.
Proof.
  unfold electReputationLeader. intros ([act exc] & E & H)%bind_Some Hq Hc.
  assert (id ∈ act) as Hid.
  { apply (elem_of_difference act exc id). apply elem_of_elements. rewrite <- sort_ids_perm.
    destruct (elements (act ∖ exc)) as [|c cs]; [done|]. apply (inj Some) in H. by eapply list_elem_of_lookup_2. }
  apply elect_loop_sub in E as (_ & _ & Hact & _).
  destruct (Hact id Hid) as [[]%not_elem_of_empty|[(s & Hs & <-)|(k & b & s & Hb & Hs & <-)]]; [by apply Hq|by apply (Hc k b)].
Qed.

(** Electing again on the same certificate changes nothing, and the leader of the
    current round stays. *)
Lemma update_elected e l r qc :
  elected e -> certs_acyclic l -> (r + 1 < two64)%N -> (forall s, s ∈ QuorumCert_GetSignatures qc -> sg_signer s ∈ V) ->
  (forall k b, l_committed l !! k = Some b -> cert_within V b) ->
  exists e', UpdateLeaders e l r qc = Some e' /\ UpdateLeaders e' l r qc = Some e' /\ GetLeader e' r = GetLeader e r /\ elected e'.
Proof.
  intros He Ha Hr Hq Hc. unfold UpdateLeaders. destruct qc as [q|]; [|by exists e].
  destruct (_ || _); [by exists e|]. destruct (electReputationLeader_total e l (Some q) Ha) as [out Eo]. rewrite Eo.
  cbn [mbind option_bind]. eexists. split; [reflexivity|].
  assert (forall m, electReputationLeader (MkLeaderElection (e_validators e) (e_windowSize e) (e_excludeSize e) m) l (Some q) = Some out) as Eo'.
  { intros m. rewrite <- Eo. unfold electReputationLeader. cbn [e_windowSize].
    assert (forall fuel i cur act exc, elect_loop fuel (MkLeaderElection (e_validators e) (e_windowSize e) (e_excludeSize e) m) l i cur act exc =
      elect_loop fuel e l i cur act exc) as ->; [|done].
    induction fuel as [|fuel IH]; intros; cbn [elect_loop e_windowSize e_excludeSize]; [done|].
    destruct (_ || _); [|done]. destruct (CommittedBlock _ _) as [b|]; [|done]. destruct (b_qc b); [apply IH|done]. }
  split; [|split].
  - rewrite Eo'. cbn [mbind option_bind e_validators e_windowSize e_excludeSize e_reputationLeaders]. do 2 f_equal.
    apply map_eq. intros k. apply option_eq. intros v.
    destruct out as [id|]; rewrite ?map_lookup_filter_Some, ?lookup_insert_Some, ?map_lookup_filter_Some, ?lookup_insert_Some; cbn [fst]; tauto.
  - unfold GetLeader. cbn [e_reputationLeaders e_validators].
    assert (forall m : gmap uint64 uint32, filter (fun x : uint64 * uint32 => ~ (x.1 < r)%N) m !! r = m !! r) as Hg.
    { intros m. apply option_eq. intros v. rewrite map_lookup_filter_Some. cbn [fst]. intuition lia. }
    rewrite Hg. destruct out as [id|]; [|done]. by rewrite lookup_insert_ne by (rewrite add64_small; lia).
  - split; [apply He|]. cbn [e_reputationLeaders]. intros k id Hk. apply map_lookup_filter_Some in Hk as [Hk _].
    destruct out as [j|]; [|by eapply He]. apply lookup_insert_Some in Hk as [[_ <-]|[_ Hk]]; [|by eapply He].
    by eapply elect_in.
Qed.
End leaders.

(** Of the ledger, the election sees the committed blocks only. *)
Lemma update_committed e l l' r qc : l_committed l' = l_committed l -> UpdateLeaders e l' r qc = UpdateLeaders e l r qc.
Proof.
  intros E. assert (forall fuel i cur act exc, elect_loop fuel e l' i cur act exc = elect_loop fuel e l i cur act exc) as Hloop.
  { induction fuel as [|fuel IH]; intros i cur act exc; cbn [elect_loop]; [done|]. unfold CommittedBlock. rewrite E.
    destruct (_ || _); [|done]. destruct (l_committed l !! _) as [b|]; [|done]. destruct (b_qc b); [apply IH|done]. }
  unfold UpdateLeaders, electReputationLeader. by rewrite Hloop, E.
Qed.
