(* ===== verification/Progress.v ===== *)
(** Progress: the cluster commits although replicas have crashed. A schedule drives
    the live replicas, [A] out of the validators [V]: a proposal reaches all of them;
    then the votes of any quorum, in any order, reach the next leader, and if that one
    has crashed, the timers expire and each replica hears the timeouts of a quorum of
    its own; the checks of the edge included. Whatever quorums, orders and payloads the
    schedule picks, every round ends, with a block unless its leader has crashed, and
    what is committed, everywhere, is what the pattern of blocks and empty rounds
    makes certain. *)

From stdpp Require Import prelude gmap list fin_maps sorting.
From Stdlib Require Import NArith ZArith Lia Strings.Byte.
From S2P Require Import Prelude Sha256 Proto Hash Types Quorum Verify Orphans Ledger BlockTree Safety Agreement.
From S2P Require Import Seams Pacemaker Leader Core Handlers Frontier.

#[local] Opaque sha256.

#[local] Abbreviation cores := (gmap uint32 Core).

(** ** The schedule *)

(** What a round is given: whose votes arrive and in which order, whose timeouts
    arrive where and in which order if they are called for, what the payload source of
    the next leader hands out, and the replicas' signers. *)
Record slot := MkSlot {
  sl_voters : list uint32;
  sl_timeouts : uint32 -> list uint32;
  sl_txns : list bytes;
  sl_crypto : uint32 -> Crypto;
}.

(** One after the other, with what they send. *)
Fixpoint each {X} (f : X -> cores -> option (cores * list effect)) (xs : list X) (w : cores) : option (cores * list effect) :=
  match xs with
  | [] => Some (w, [])
  | x :: xs => '(w, es) ← f x w; '(w, es') ← each f xs w; Some (w, es ++ es')
  end.

Section schedule.
Context (order : uint32 -> RangeOrder) (conv : uint32 -> FloatConv) (cfg : uint32 -> Config) (A : list uint32).

(** Replica [i] processes an event that its edge let through. *)
Definition node_step (s : slot) (accepted : bool) (i : uint32) (ev : Event) (w : cores) : option (cores * list effect) :=
  c ← w !! i;
  if accepted then '(_, c, es) ← @Step (order i) (conv i) (sl_crypto s i) (sl_txns s) ev c; Some (<[i := c]> w, es)
  else Some (w, []).

Definition hear_proposal (s : slot) (p : ProposalMsg) (i : uint32) (w : cores) : option (cores * list effect) :=
  node_step s (VerifyProposal (cfg_verifier (cfg i)) p) i (ProposalEvent p) w.

(** The vote of [j] among what was sent, and whom it goes to; its timeout. *)
Definition vote_by (j : uint32) (es : list effect) : option (VoteMsg * uint32) :=
  head (omap (fun ef => match ef with NetVote v to => if (vm_sender v =? j)%N then Some (v, to) else None | _ => None end) es).
Definition timeout_by (j : uint32) (es : list effect) : option TimeoutMsg :=
  head (omap (fun ef => match ef with NetTimeout m => if (TimeoutInfo_GetSender (tm_tmo_info m) =? j)%N then Some m else None | _ => None end) es).

(** A crashed replica hears nothing. *)
Definition hear_vote (s : slot) (sent : list effect) (j : uint32) (w : cores) : option (cores * list effect) :=
  match vote_by j sent with
  | Some (v, to) =>
      if decide (to ∈ A) then node_step s (VerifyVote (cfg_verifier (cfg to)) v) to (VoteEvent v) w else Some (w, [])
  | None => Some (w, [])
  end.

Definition expire (s : slot) (i : uint32) (w : cores) : option (cores * list effect) :=
  c ← w !! i; node_step s true i (LocalTimeoutEvent (Epoch (c_pacemaker c))) w.

Definition hear_timeout (s : slot) (sent : list effect) (i j : uint32) (w : cores) : option (cores * list effect) :=
  match timeout_by j sent with
  | Some m => node_step s (VerifyTimeout (cfg_verifier (cfg i)) m) i (TimeoutEvent m) w
  | None => Some (w, [])
  end.
Definition hear_timeouts (s : slot) (sent : list effect) (i : uint32) (w : cores) : option (cores * list effect) :=
  each (hear_timeout s sent i) (sl_timeouts s i) w.

(** At most one proposal comes out of a round. *)
Definition poll (w : cores) (es : list effect) : option (cores * option ProposalMsg) :=
  match sent_proposals es with [] => Some (w, None) | [p] => Some (w, Some p) | _ => None end.

(** The end of a round: the votes that were cast are delivered; if no proposal comes
    of it, the timers expire. A timeout that a replica sends again on hearing those of
    others is lost. *)
Definition next_round (s : slot) (w : cores) (cast : list effect) : option (cores * option ProposalMsg) :=
  '(w, es) ← each (hear_vote s cast) (sl_voters s) w;
  match sent_proposals es with
  | [] => '(w, sent) ← each (expire s) A w; '(w, es) ← each (hear_timeouts s sent) A w; poll w es
  | _ => poll w es
  end.

(** The start of one: the proposal, if there is one, reaches everyone. *)
Definition hear (s : slot) (o : cores * option ProposalMsg) : option (cores * list effect) :=
  match o.2 with Some p => each (hear_proposal s p) A o.1 | None => Some (o.1, []) end.

Fixpoint start_all (s : slot) (ids : list uint32) : option (cores * list effect) :=
  match ids with
  | [] => Some (∅, [])
  | i :: ids =>
      c ← New (cfg i); '(_, c, es) ← Start (sl_crypto s i) (sl_txns s) c;
      '(w, es') ← start_all s ids; Some (<[i := c]> w, es ++ es')
  end.

(** [offer s0 ss] is the state with the proposal of round [length ss + 1], [drive s0 ss]
    that in which it has been heard, with the votes cast; the latest slot comes first. *)
Definition first_round (s : slot) : option (cores * option ProposalMsg) := '(w, es) ← start_all s A; poll w es.
Fixpoint drive (s0 : slot) (ss : list slot) : option (cores * list effect) :=
  match ss with
  | [] => o ← first_round s0; hear s0 o
  | s :: ss => '(w, cast) ← drive s0 ss; o ← next_round s w cast; hear s o
  end.
Definition offer (s0 : slot) (ss : list slot) : option (cores * option ProposalMsg) :=
  match ss with [] => first_round s0 | s :: ss => '(w, cast) ← drive s0 ss; next_round s w cast end.

(** The blocks of the rounds, the latest first. *)
Definition block_of (o : option (cores * option ProposalMsg)) : option Block := '(_, p) ← o; p ≫= pm_block.
Fixpoint trace (s0 : slot) (ss : list slot) : list (option Block) :=
  block_of (offer s0 ss) :: match ss with [] => [] | _ :: ss => trace s0 ss end.
End schedule.

(** ** What a run commits *)

(** Three blocks in consecutive rounds commit the first, with what was certified before
    it; two certify the first. Of a trace, the latest block first: what is committed,
    and what is certified only. *)
Fixpoint books (ts : list (option Block)) : list Block * list Block :=
  match ts with
  | Some _ :: ((Some a :: older) as ts) =>
      let '(log, open) := books ts in
      match older with Some _ :: _ => (log ++ open, [a]) | _ => (log, open ++ [a]) end
  | _ :: ts => books ts
  | [] => ([], [])
  end.

(** ** Assumptions *)

Section assumptions.
Context (cfg : uint32 -> Config) (V A : list uint32).

(** The live replicas are enough for a quorum, and configured alike but for the ids and
    the signers. *)
Record cluster_ok : Prop := {
  cl_nodup : NoDup A;
  cl_some : A ≠ [];
  cl_alive : A ⊆ V;
  cl_new : forall i, i ∈ A -> is_Some (New (cfg i));
  cl_id : forall i, i ∈ A -> cfg_ID (cfg i) = i;
  cl_validators : forall i, i ∈ A -> cfg_Validators (cfg i) = V;
  cl_ledger : forall i, i ∈ A -> cfg_Ledger (cfg i) = NewMemLedger;
  cl_window : forall i j, i ∈ A -> j ∈ A ->
    cfg_WindowSize (cfg i) = cfg_WindowSize (cfg j) /\ cfg_ExcludeSize (cfg i) = cfg_ExcludeSize (cfg j);
}.

(** Live replicas sign, and accept what they sign. *)
Definition signs (s : slot) : Prop := forall i j d, i ∈ A -> j ∈ A ->
  exists sg, Sign (sl_crypto s i) d = Some sg /\ Verify (cfg_Crypto (cfg j)) i d sg = true.

Definition live_quorum (ids : list uint32) : Prop :=
  NoDup ids /\ ids ⊆ A /\ Z.of_nat (length ids) = QuorumSize (Z.of_nat (length V)).

Record slot_ok (s : slot) : Prop := {
  so_signs : signs s;
  so_voters : live_quorum (sl_voters s);
  so_timeouts : forall i, i ∈ A -> live_quorum (sl_timeouts s i);
}.
End assumptions.

(** ** Steps *)

(** Only the messages matter. *)
Lemma omap_through {A B} (f : A -> option B) (g : A -> option A) (xs : list A) :
  (forall x, g x = Some x \/ (g x = None /\ f x = None)) -> omap f (omap g xs) = omap f xs.
Proof.
  intros Hg. induction xs as [|x xs IH]; [done|]. simpl. destruct (Hg x) as [->|[-> ->]]; [|exact IH].
  simpl. destruct (f x); [f_equal|]; exact IH.
Qed.
Lemma sent_proposals_sends es : sent_proposals (sends es) = sent_proposals es.
Proof. apply omap_through. intros []; auto. Qed.
Lemma vote_by_sends j es : vote_by j (sends es) = vote_by j es.
Proof. unfold vote_by. f_equal. apply omap_through. intros []; auto. Qed.
Lemma timeout_by_sends j es : timeout_by j (sends es) = timeout_by j es.
Proof. unfold timeout_by. f_equal. apply omap_through. intros []; auto. Qed.

Lemma node_step_yields order conv s i ev w c es P :
  w !! i = Some c -> yields (@Step (order i) (conv i) (sl_crypto s i) (sl_txns s) ev) c tt es P ->
  exists c' tr, node_step order conv s true i ev w = Some (<[i := c']> w, tr) /\ sends tr = es /\ P c'.
Proof. intros Hw (c' & tr & E & Hs & Hp). exists c', tr. unfold node_step. rewrite Hw. simpl. by rewrite E. Qed.

Lemma each_idle {X} (f : X -> cores -> option (cores * list effect)) xs w : (forall x, f x w = Some (w, [])) -> each f xs w = Some (w, []).
Proof. intros Hf. induction xs as [|x xs IH]; [done|]. cbn [each]. rewrite Hf. cbn [mbind option_bind]. by rewrite IH. Qed.

(** Every replica takes a step of its own. *)
Lemma each_nodes (f : uint32 -> cores -> option (cores * list effect)) (P Q : uint32 -> Core -> Prop) (out : uint32 -> list effect -> Prop) ids (w : cores) :
  NoDup ids -> (forall i, i ∈ ids -> exists c, w !! i = Some c /\ P i c) ->
  (forall i (w : cores) c, i ∈ ids -> w !! i = Some c -> P i c ->
     exists c' tr, f i w = Some (<[i := c']> w, tr) /\ out i (sends tr) /\ Q i c') ->
  exists w' es outs, each f ids w = Some (w', es) /\ Forall2 out ids outs /\ sends es = concat outs /\
    (forall i, i ∈ ids -> exists c, w' !! i = Some c /\ Q i c).
Proof.
  intros Hnd Hw Hf. assert (exists w' es outs, each f ids w = Some (w', es) /\ Forall2 out ids outs /\ sends es = concat outs /\
    (forall i, i ∈ ids -> exists c, w' !! i = Some c /\ Q i c) /\ forall i, i ∉ ids -> w' !! i = w !! i) as (w' & es & outs & H); [|exists w', es, outs; tauto].
  revert w Hw. induction ids as [|i ids IH]; intros w Hw; cbn [each].
  { exists w, [], []. split_and!; try done. intros i []%not_elem_of_nil. }
  apply NoDup_cons in Hnd as [Hni Hnd]. destruct (Hw i) as (c & Ec & Hc); [left|].
  destruct (Hf i w c) as (c1 & tr & -> & Htr & Hc1); [left|done..|]. cbn [mbind option_bind].
  destruct (IH Hnd) with (w := <[i := c1]> w) as (w' & es & outs & -> & Ho & Hes & Hin & Hout).
  { intros k w' c' Hk. apply Hf. by right. }
  { intros k Hk. rewrite lookup_insert_ne by (by intros ->). apply Hw. by right. }
  cbn [mbind option_bind]. exists w', (tr ++ es), (sends tr :: outs). split; [done|]. split; [by constructor|].
  split; [by rewrite sends_app, Hes|]. split.
  - intros k [->|Hk]%elem_of_cons; [|by apply Hin]. exists c1. by rewrite Hout, lookup_insert_eq.
  - intros k Hk. apply not_elem_of_cons in Hk as [Hk1 Hk2]. by rewrite Hout, lookup_insert_ne.
Qed.

Lemma outs_map (g : uint32 -> effect) ids outs : Forall2 (fun i es => es = [g i]) ids outs -> concat outs = (g <$> ids).
Proof. induction 1 as [|i es ids outs -> _ IH]; [done|]. cbn. by rewrite IH. Qed.

Lemma vote_found (v : uint32 -> VoteMsg) to j ids : (forall i, vm_sender (v i) = i) -> j ∈ ids ->
  vote_by j ((fun i => NetVote (v i) to) <$> ids) = Some (v j, to).
Proof.
  intros Hv. induction ids as [|i ids IH]; [by intros []%not_elem_of_nil|]. intros Hj. unfold vote_by. simpl. rewrite Hv.
  destruct (N.eqb_spec i j) as [->|Hne]; [done|]. apply IH. by apply elem_of_cons in Hj as [->|?].
Qed.
Lemma timeout_found (m : uint32 -> TimeoutMsg) j ids : (forall i, TimeoutInfo_GetSender (tm_tmo_info (m i)) = i) -> j ∈ ids ->
  timeout_by j ((fun i => NetTimeout (m i)) <$> ids) = Some (m j).
Proof.
  intros Hm. induction ids as [|i ids IH]; [by intros []%not_elem_of_nil|]. intros Hj. unfold timeout_by. simpl. rewrite Hm.
  destruct (N.eqb_spec i j) as [->|Hne]; [done|]. apply IH. by apply elem_of_cons in Hj as [->|?].
Qed.

Section rounds.
Context (order : uint32 -> RangeOrder) (conv : uint32 -> FloatConv) (cfg : uint32 -> Config) (V A : list uint32).
Context (HC : cluster_ok cfg V A) (U : Block -> Prop) (rank : bytes -> nat) (HU : fed_universe U rank).
#[local] Abbreviation quorum := (QuorumSize (Z.of_nat (length V))).
#[local] Abbreviation faulty := (Faulty (Z.of_nat (length V))).
#[local] Abbreviation edge i := (cfg_verifier (cfg i)).
#[local] Abbreviation node_at i := (core_at i (edge i) quorum faulty).
#[local] Abbreviation height ts := (N.of_nat (length ts)).

Definition older (r : uint64) (vk : voterKey) : Prop := (vk.1 < r)%N.
Definition sig_of (s : slot) (i : uint32) (d : bytes) : bytes := default [] (Sign (sl_crypto s i) d).

Lemma signs_sig s i j d : signs cfg A s -> i ∈ A -> j ∈ A ->
  Sign (sl_crypto s i) d = Some (sig_of s i d) /\ Verify (cfg_Crypto (cfg j)) i d (sig_of s i d) = true.
Proof. intros Hs Hi Hj. destruct (Hs i j d Hi Hj) as (sg & E & Hv). unfold sig_of. by rewrite E. Qed.

Lemma edge_quorum i : i ∈ A -> v_quorum (edge i) = quorum.
Proof. intros Hi. unfold cfg_verifier. cbn. by rewrite (cl_validators _ _ _ HC i Hi). Qed.

Lemma V_some : V ≠ [].
Proof.
  intros E. pose proof (cl_some _ _ _ HC) as Hs. pose proof (cl_alive _ _ _ HC) as Hsub. rewrite E in Hsub.
  destruct A as [|a as']; [done|]. apply (not_elem_of_nil a), Hsub. left.
Qed.

Lemma quorum_pos : (0 < quorum)%Z.
Proof.
  pose proof V_some. destruct V as [|v vs]; [done|].
  pose proof (QuorumSize_bounds (Z.of_nat (length (v :: vs)))). pose proof (Faulty_bounds (Z.of_nat (length (v :: vs)))).
  cbn [length] in *. lia.
Qed.

(** *** The certificates *)

(** In round [r], with the ledger [l]: [q] is the highest certificate, [st] the state of
    the block it certifies and [bs] what hangs between the frontier and that block; [k]
    is the highest certificate that commits. *)
Record stands (r : uint64) (l : MemLedger) (bs : list Block) (st : bytes) (q k : QuorumCert) : Prop := {
  sn_rests : rests U V l bs (VoteInfo_GetId (qc_vote_info q)) st;
  sn_valid : forall i, i ∈ A -> VerifyQC (edge i) (Some q) = true /\ VerifyQC (edge i) (Some k) = true;
  sn_within : forall s, s ∈ qc_signatures q -> sg_signer s ∈ V;
  sn_below : (QCRound (Some q) < r)%N;
  sn_order : k = q \/ (QCRound (Some k) < QCRound (Some q))%N /\ Commits (qc_ledger_commit_info q) = false /\
    (VoteInfo_GetParentRound (qc_vote_info q) + 1 < QCRound (Some q))%N;
  sn_done : Commits (qc_ledger_commit_info k) = true ->
    VoteInfo_GetParentId (qc_vote_info k) = l_commitID l /\ (VoteInfo_GetParentRound (qc_vote_info k) < r)%N;
}.

Lemma stands_le r l bs st q k : stands r l bs st q k -> (QCRound (Some k) <= QCRound (Some q))%N.
Proof. intros [_ _ _ _ [->|[? _]] _]; lia. Qed.

Lemma stands_stale r l bs st q k hv e tc pend votes :
  stands r l bs st q k -> (forall idx b, votes !! idx = Some b -> (r <= VoteInfo_GetRound (vb_voteInfo b))%N) ->
  stale (MkView r hv l e q k tc pend votes) q /\ stale (MkView r hv l e q k tc pend votes) k.
Proof.
  intros Hst Hv. pose proof (stands_le _ _ _ _ _ _ Hst) as Hle. destruct Hst as [_ _ _ Hlt Ho Hd].
  assert (stale (MkView r hv l e q k tc pend votes) k) as Hk.
  { split; [done|]. cbn. split; [lia|]. intros Hc. destruct (Hd Hc) as [Hid Hp]. split; [done|]. split; [done|].
    intros idx b Hb. specialize (Hv idx b Hb). lia. }
  split; [|done]. destruct Ho as [->|(_ & Hc & _)]; [done|]. split; [done|]. split; [done|]. by rewrite Hc.
Qed.

Lemma stands_later r r' l bs st q k : stands r l bs st q k -> (r <= r')%N -> stands r' l bs st q k.
Proof. intros [H1 H2 H3 H4 H5 H6] Hle. split; try done; [lia|]. intros Hc. destruct (H6 Hc). split; [done|lia]. Qed.

(** Only the latest certificate can bring about an election, if it commits. *)
Lemma update_old e l r x : (QCRound (Some x) + 1 < r)%N -> (r < two64)%N -> UpdateLeaders e l r (Some x) = Some e.
Proof.
  intros Hx Hr. unfold UpdateLeaders. rewrite (add64_small (QCRound _)) by lia.
  destruct (N.eqb_spec (QCRound (Some x) + 1) r); [lia|]. by rewrite orb_true_r.
Qed.

Lemma update_other r l bs st q k e : stands r l bs st q k -> (r < two64)%N -> k ≠ q -> 
  UpdateLeaders e l r (Some q) = Some e /\ UpdateLeaders e l r (Some k) = Some e.
Proof.
  intros [_ _ _ Hlt [?|(Ho & _ & Hp)] _] Hr Hne; [done|]. split.
  - unfold UpdateLeaders. cbn [QuorumCert_GetVoteInfo]. rewrite (add64_small (VoteInfo_GetParentRound _)) by lia.
    destruct (N.eqb_spec (VoteInfo_GetParentRound (qc_vote_info q) + 1) (QCRound (Some q))); [lia|done].
  - apply update_old; lia.
Qed.

(** A round may build on [q] with [tc], and everyone accepts that. *)
Definition entitled (r : uint64) (q : QuorumCert) (tc : option TimeoutCert) : Prop :=
  justified r q tc /\ forall i, i ∈ A -> VerifyTC (edge i) tc = true.

Lemma entitled_formed r q tc : entitled r q tc -> (0 < r < two64)%N -> wellFormed r (QCRound (Some q)) tc = true.
Proof.
  intros [Hj _] Hr. apply wellFormed_iff.
  - destruct Hj as [[? _]|[? _]]; lia.
  - lia.
  - intros t Ht. pose proof (justified_tc_round _ _ _ Hj t Ht). lia.
  - split; [lia|]. destruct Hj as [[<- ->]|(? & t & -> & <- & _)]; [by left|right]. split; [lia|]. by exists t.
Qed.

(** *** Between rounds *)

(** A replica about to get the proposal of round [r + 1] over [q]: one that has [q], or
    one that will see it for the first time. *)
Definition waits (r : uint64) (l : MemLedger) (e : LeaderElection) (q k : QuorumCert) (tc : option TimeoutCert) (i : uint32) (c : Core) : Prop :=
  node_at i (MkView (r + 1) r l e q k tc ∅ ∅) (older (r + 1)) c \/
  exists l0 q0 k0 tc0, node_at i (MkView r r l0 e q0 k0 tc0 ∅ ∅) (older (r + 1)) c /\ tc = None /\
    QCRound (Some q) = r /\ (QCRound (Some q0) < r)%N /\ (QCRound (Some k0) <= QCRound (Some q0))%N /\ commit_step l0 k0 q l k.

(** Whether [q] is of the round before shows in the trace. *)
Definition paced (ts : list (option Block)) (bs : list Block) (q : QuorumCert) : Prop :=
  match ts with
  | Some _ :: _ => QCRound (Some q) = height ts
  | _ => QCRound (Some q) = height ts -> bs = []
  end.

Record poised (ts : list (option Block)) (txns : list bytes) (w : cores) (p : ProposalMsg)
    (l : MemLedger) (bs : list Block) (st : bytes) (e : LeaderElection) (q k : QuorumCert) (tcs : uint32 -> option TimeoutCert) (ldr : uint32) : Prop := {
  po_stands : stands (height ts + 1) l bs st q k;
  po_elected : elected V e;
  po_leader : GetLeader e (height ts + 1) = Some ldr /\ ldr ∈ A;
  po_proposal : exists tc sg, p = proposal_over txns ldr (height ts + 1) q k tc sg /\ entitled (height ts + 1) q tc /\
    forall i, i ∈ A -> Verify (cfg_Crypto (cfg i)) ldr (b_id (NewBlock ldr (height ts + 1) txns (Some q))) sg = true;
  po_ledger : exists c, w !! ldr = Some c /\ c_ledger c = l;
  po_waits : forall i, i ∈ A -> entitled (height ts + 1) q (tcs i) /\ exists c, w !! i = Some c /\ waits (height ts) l e q k (tcs i) i c;
  po_paced : paced ts bs q;
  po_books : forall b, books (Some b :: ts) = (l_onCommit l, bs);
}.

(** All have heard what there was to hear in the latest round. *)
Record settled (ts : list (option Block)) (w : cores) (l : MemLedger) (bs : list Block) (st : bytes)
    (e : LeaderElection) (q k : QuorumCert) (tcs : uint32 -> option TimeoutCert) : Prop := {
  se_stands : stands (height ts) l bs st q k;
  se_elected : elected V e;
  se_update : UpdateLeaders e l (height ts) (Some q) = Some e /\ UpdateLeaders e l (height ts) (Some k) = Some e;
  se_nodes : forall i, i ∈ A -> entitled (height ts) q (tcs i) /\
    exists c, w !! i = Some c /\ node_at i (MkView (height ts) (height ts) l e q k (tcs i) ∅ ∅) (older (height ts)) c;
  se_books : books ts = (l_onCommit l, bs);
}.

(** In round [r] all voted for [b], over [q]; [sgs] are their signatures. *)
Record ballot (ts : list (option Block)) (b : Block) (cast : list effect) (l : MemLedger) (bs : list Block) (st : bytes)
    (e : LeaderElection) (q k : QuorumCert) (sgs : uint32 -> bytes) (to : uint32) : Prop := {
  ba_block : U b /\ cert_within V b /\ b_qc b = Some q /\ b_round b = (height ts + 1)%N /\ length (b_id b) = hashLen;
  ba_ledger : exists l0, rests U V l0 bs (parentID b) st /\ l = child_ledger l0 st b;
  ba_next : GetLeader e (height ts + 2) = Some to;
  ba_cast : sends cast = ((fun i => NetVote (vote_on i b st (ExecuteHash st (b_payload b)) k (sgs i)) to) <$> A);
  ba_sigs : forall i j, i ∈ A -> j ∈ A ->
    Verify (cfg_Crypto (cfg i)) j (LedgerCommitDigest (Some (commit_on b st (ExecuteHash st (b_payload b))))) (sgs j) = true;
  ba_paced : paced ts bs q;
}.

(** *** The proposal *)

Section proposal.
Context (s : slot) (Hs : signs cfg A s) (ts : list (option Block)) (txns : list bytes) (w : cores) (p : ProposalMsg).
Context (l : MemLedger) (bs : list Block) (st : bytes) (e e' : LeaderElection) (q k : QuorumCert).
Context (tcs : uint32 -> option TimeoutCert) (ldr to : uint32).
Context (Hpo : poised ts txns w p l bs st e q k tcs ldr) (Hbound : (height ts + 1 + maxRoundLead < two64)%N).
Let r : uint64 := (height ts + 1)%N.
Let b : Block := NewBlock ldr r txns (Some q).
Let st' : bytes := ExecuteHash st txns.
Let l2 : MemLedger := child_ledger l st b.
Let dig : bytes := LedgerCommitDigest (Some (commit_on b st st')).
Context (HUb : U b).
Context (Hup : UpdateLeaders e l r (Some q) = Some e') (Hup' : UpdateLeaders e' l r (Some q) = Some e').
Context (Hlead : GetLeader e' r = Some ldr) (Hnext : GetLeader e' (r + 1) = Some to).

Lemma small : (r + 1 < two64)%N.
Proof. unfold r, maxRoundLead in *. lia. Qed.

Lemma b_within : cert_within V b.
Proof. intros g Hg. by apply (sn_within _ _ _ _ _ _ (po_stands _ _ _ _ _ _ _ _ _ _ _ _ Hpo)). Qed.
Lemma b_valid : validBlockID b = true.
Proof. by apply bool_decide_eq_true. Qed.

Lemma proposal_passes i : i ∈ A -> VerifyProposal (edge i) p = true.
Proof.
  intros Hi. pose proof small as Hr. destruct Hpo as [Hst _ _ (tc & sg & -> & Ht & Hsg) _ _ _ _].
  apply VerifyProposal_iff. exists b, q. pose proof (sn_below _ _ _ _ _ _ Hst) as Hlt. fold r in Hlt, Ht.
  destruct (sn_valid _ _ _ _ _ _ Hst i Hi) as [Hq Hk]. split_and!; try done.
  - apply entitled_formed; [done|]. cbn. lia.
  - apply b_valid.
  - unfold verifySig. cbn. by apply Hsg.
  - by apply Ht.
Qed.

(** What the first of the proposal's certificates leads to. *)
Lemma at_certs i c : i ∈ A -> waits (height ts) l e q k (tcs i) i c ->
  let v := MkView r (height ts) l e' q k (tcs i) ∅ ∅ in
  exists mv v1, yields (@processCertificateQC (order i) (Some q)) c mv [] (node_at i v1 (older r)) /\
    forall c', node_at i v1 (older r) c' -> yields (@processCertificateQC (order i) (Some k)) c' false [] (node_at i v (older r)).
Proof.
  intros Hi Hw v. pose proof small as Hr. pose proof (po_stands _ _ _ _ _ _ _ _ _ _ _ _ Hpo) as Hst. fold r in Hst.
  assert (forall e0, stale (set_leaders e0 v) q /\ stale (set_leaders e0 v) k) as Hstale.
  { intros e0. eapply stands_stale; [exact Hst|]. intros idx x Hx. cbn in Hx. by rewrite lookup_empty in Hx. }
  assert (UpdateLeaders e' l r (Some k) = Some e' /\ UpdateLeaders e l r (Some k) = Some e') as [Hk' Hk].
  { destruct (decide (k = q)) as [->|Hne]; [done|]. destruct (update_other _ _ _ _ _ _ e Hst ltac:(lia) Hne) as [E1 E2].
    rewrite E1 in Hup. injection Hup as <-. done. }
  destruct Hw as [Hc|(l0 & q0 & k0 & tc0 & Hc & Etc & Eq & Hlt & Hle & Hcs)].
  - exists false, v. split.
    + apply (at_stale i (edge i) quorum faulty c (set_leaders e v) _ _ e' Hc); [apply Hstale|exact Hup].
    + intros c' Hc'. apply (at_stale i (edge i) quorum faulty c' v _ _ e' Hc'); [apply (Hstale e')|exact Hk'].
  - exists true, (set_leaders e v). split.
    + unfold v. rewrite Etc. eapply at_new; [exact Hc|done|done|done| |done]. unfold r in *. lia.
    + intros c' Hc'. apply (at_stale i (edge i) quorum faulty c' (set_leaders e v) _ _ e' Hc'); [apply Hstale|exact Hk].
Qed.

Lemma hears i c :
  i ∈ A -> waits (height ts) l e q k (tcs i) i c ->
  yields (@Step (order i) (conv i) (sl_crypto s i) (sl_txns s) (ProposalEvent p)) c tt
    [NetVote (vote_on i b st st' k (sig_of s i dig)) to] (node_at i (MkView r r l2 e' q k (tcs i) ∅ ∅) (older r)).
Proof.
  intros Hi Hw. pose proof small as Hr. destruct (at_certs i c Hi Hw) as (mv & v1 & H1 & H2).
  destruct (signs_sig s i i dig Hs Hi Hi) as [Hsgn _]. destruct Hpo as [Hst _ _ (tc & sg & -> & Ht & Hsg) _ _ _ _].
  pose proof (sn_rests _ _ _ _ _ _ Hst) as Hre. destruct (child_state U rank HU V l bs _ st b Hre HUb eq_refl) as [Hp1 Hp2].
  apply yields_Step. cbn [dispatch].
  eapply (at_proposal _ i (edge i) quorum faulty c v1 r (height ts) l e' q k (tcs i) (older r) mv tc b (MkSignature ldr sg) ldr st st' l2 to); try done.
  - unfold r. lia.
  - apply Ht.
  - apply b_valid.
  - by apply (sn_valid _ _ _ _ _ _ Hst).
  - by apply Ht.
  - by apply (child_speculated U V l bs _ st b Hre).
  - by apply (child_missing U V l bs _ st b Hre).
Qed.

Lemma hear_settles :
  exists w' cast, hear order conv cfg A s (w, Some p) = Some (w', cast) /\
    settled (Some b :: ts) w' l2 bs st e' q k tcs /\ ballot ts b cast l2 bs st e' q k (fun i => sig_of s i dig) to.
Proof.
  pose proof Hpo as [Hst He Hl Hp Hled Hw Hpa Hbk]. assert (height (Some b :: ts) = r) as Er by (cbn [length]; unfold r; lia).
  destruct (each_nodes (hear_proposal order conv cfg s p) (fun i c => waits (height ts) l e q k (tcs i) i c)
    (fun i c => node_at i (MkView r r l2 e' q k (tcs i) ∅ ∅) (older r) c)
    (fun i es => es = [NetVote (vote_on i b st st' k (sig_of s i dig)) to]) A w (cl_nodup _ _ _ HC)) as (w' & es & outs & E & Ho & Hes & Hin).
  { intros i Hi. by apply Hw. }
  { intros i w0 c Hi Hc Hwc. unfold hear_proposal. rewrite proposal_passes by done. by eapply node_step_yields; [|apply hears]. }
  exists w', es. split; [done|]. pose proof small as Hsm.
  assert (stands r l2 bs st q k) as Hst2.
  { destruct Hst as [S1 S2 S3 S4 S5 S6]. split; try done. by apply (child_rests U rank HU); [..|apply b_within|]. }
  assert (UpdateLeaders e' l2 r (Some q) = Some e') as Hup2 by (rewrite <- Hup'; by apply update_committed).
  split; [split|split].
  - by rewrite Er.
  - destruct (update_elected V e l r (Some q) He) as (e1 & E1 & _ & _ & He1).
    { exact (rests_acyclic U rank HU _ _ _ _ _ (sn_rests _ _ _ _ _ _ Hst)). } { lia. } { apply Hst. } { exact (re_committed _ _ _ _ _ _ (sn_rests _ _ _ _ _ _ Hst)). }
    rewrite Hup in E1. by injection E1 as <-.
  - rewrite Er. split; [done|]. destruct (decide (k = q)) as [->|Hne]; [done|]. by apply (update_other _ _ _ _ _ _ e' Hst2); [lia|].
  - rewrite Er. intros i Hi. destruct (Hw i Hi) as [Ht _]. by split; [|apply Hin].
  - apply Hbk.
  - split; [done|]. split; [apply b_within|]. split; [done|]. split; [done|apply length_sha256].
  - exists l. split; [apply Hst|done].
  - by replace (height ts + 2)%N with (r + 1)%N by (unfold r; lia).
  - rewrite Hes. by apply outs_map.
  - intros i j Hi Hj. by apply signs_sig.
  - done.
Qed.
End proposal.

(** *** The votes *)

Section votes.
Context (s : slot) (Hs : slot_ok cfg V A s) (ts : list (option Block)) (b : Block) (w : cores) (cast : list effect).
Context (l : MemLedger) (bs : list Block) (st : bytes) (e : LeaderElection) (q k : QuorumCert).
Context (tcs : uint32 -> option TimeoutCert) (sgs : uint32 -> bytes) (to : uint32).
Context (Hse : settled (Some b :: ts) w l bs st e q k tcs) (Hba : ballot ts b cast l bs st e q k sgs to).
Context (Hto : to ∈ A) (Hbound : (height ts + 1 + maxRoundLead < two64)%N) (Hst : st ≠ zeroHash).
Let r : uint64 := (height ts + 1)%N.
Let st' : bytes := ExecuteHash st (b_payload b).
Let vi : VoteInfo := info_on b st'.
Let ci : LedgerCommitInfo := commit_on b st st'.
#[local] Abbreviation vote_of j := (vote_on j b st st' k (sgs j)).

Lemma r_height : height (Some b :: ts) = r.
Proof. cbn [length]. unfold r. lia. Qed.
Lemma b_round_r : b_round b = r.
Proof. apply Hba. Qed.
Lemma vote_stands : stands r l bs st q k.
Proof. rewrite <- r_height. apply Hse. Qed.

Lemma digests_sized : length (b_id b) = hashLen /\ length (parentID b) = hashLen /\ length st' = hashLen /\ length st = hashLen.
Proof.
  destruct Hba as [(_ & _ & Hqc & _ & Hlen) _ _ _ _ _]. split_and!; [done| |apply length_sha256|].
  - unfold parentID. rewrite Hqc. apply (VerifyQC_id_len (edge to) (Some q)). by apply (sn_valid _ _ _ _ _ _ vote_stands).
  - eapply rests_size, vote_stands.
Qed.

Lemma vote_passes i j : i ∈ A -> j ∈ A -> VerifyVote (edge i) (vote_of j) = true.
Proof.
  intros Hi Hj. destruct digests_sized as (D1 & D2 & D3 & D4).
  apply VerifyVote_iff. split; [done|]. split; [|split; [done|]; split].
  - apply validVote_spec. split_and!; try done; [|apply length_sha256]. cbn. by destruct (_ =? _)%N.
  - unfold verifySig. cbn. by apply (ba_sigs _ _ _ _ _ _ _ _ _ _ _ Hba).
  - apply verifyCommitQC_iff. right. by apply (sn_valid _ _ _ _ _ _ vote_stands).
Qed.

Definition sig_by (j : uint32) : Signature := MkSignature j (sgs j).
Definition next_sgs : list Signature := sig_by <$> sl_voters s.
Definition next_cert : QuorumCert := cert_of to vi ci next_sgs (sig_of s to (qcSigsDigest (canonical next_sgs))).
Definition next_proposal (k' : QuorumCert) : ProposalMsg :=
  proposal_over (sl_txns s) to (r + 1) next_cert k' None (sig_of s to (b_id (NewBlock to (r + 1) (sl_txns s) (Some next_cert)))).

Lemma commits_next : Commits (Some ci) = (QCRound (Some q) + 1 =? r)%N.
Proof.
  destruct digests_sized as (_ & _ & _ & D4). unfold ci, commit_on. destruct Hba as [(_ & _ & Hqc & Hbr & _) _ _ _ _ _].
  rewrite Hqc, Hbr. fold r. destruct (_ =? _)%N; [|by apply Commits_false_zero].
  destruct (Commits _) eqn:E; [done|]. by apply Commits_false_zero in E.
Qed.

Lemma stale_next tc sgs' : stale (MkView r r l e q k tc ∅ (tally vi ci sgs')) k.
Proof.
  eapply stands_stale; [exact vote_stands|]. intros idx x. unfold tally. destruct sgs' as [|g sgs']; [by rewrite lookup_empty|].
  intros [_ <-]%lookup_singleton_Some. cbn. by rewrite b_round_r.
Qed.

Lemma voters_ok : NoDup (sl_voters s) /\ sl_voters s ⊆ A /\ Z.of_nat (length (sl_voters s)) = quorum.
Proof. apply Hs. Qed.

(** At the next leader all but the last are counted, ... *)
Lemma vote_counted tc c j j' js pre :
  pre ++ j :: j' :: js = sl_voters s -> j ∉ pre -> node_at to (MkView r r l e q k tc ∅ (tally vi ci (sig_by <$> pre))) (slots_at r pre) c ->
  yields (@Step (order to) (conv to) (sl_crypto s to) (sl_txns s) (VoteEvent (vote_of j))) c tt []
    (node_at to (MkView r r l e q k tc ∅ (tally vi ci (sig_by <$> pre ++ [j]))) (slots_at r (pre ++ [j]))).
Proof.
  intros Hpre Hj Hc. destruct voters_ok as (_ & _ & Hquo). rewrite <- Hpre, length_app in Hquo. cbn [length] in Hquo.
  apply yields_Step. cbn [dispatch]. rewrite fmap_app. eapply yields_mono.
  - apply (at_vote (sl_crypto s to) (sl_txns s) to (edge to) quorum faulty r r l e q k tc vi ci b_round_r (stale_next tc) Hbound c
      (sig_by <$> pre) pre j (sgs j) Hc Hj). rewrite length_app, length_fmap. cbn [length]. lia.
  - intros c' Hc'. eapply core_at_slots; [exact Hc'|]. intros vk [Hlt|[? Hin]]; [by left|right]. split; [done|].
    apply elem_of_cons in Hin as [->|?]; apply elem_of_app; [right; left|by left].
Qed.

(** ... and the last completes the certificate and brings out the proposal. *)
Lemma vote_completes tc c j pre l' k' :
  pre ++ [j] = sl_voters s -> j ∉ pre -> commit_step l k next_cert l' k' ->
  node_at to (MkView r r l e q k tc ∅ (tally vi ci (sig_by <$> pre))) (slots_at r pre) c ->
  yields (@Step (order to) (conv to) (sl_crypto s to) (sl_txns s) (VoteEvent (vote_of j))) c tt [NetProposal (next_proposal k')]
    (node_at to (MkView (r + 1) r l' e next_cert k' None ∅ ∅) (older (r + 1))).
Proof.
  intros Hpre Hj Hcs Hc. destruct voters_ok as (_ & _ & Hquo). rewrite <- Hpre, length_app in Hquo. cbn [length] in Hquo.
  assert (next_sgs = (sig_by <$> pre) ++ [MkSignature j (sgs j)]) as En by (unfold next_sgs; by rewrite <- Hpre, fmap_app).
  destruct (signs_sig s to to (qcSigsDigest (canonical next_sgs)) (so_signs _ _ _ _ Hs) Hto Hto) as [Ha _].
  destruct (signs_sig s to to (b_id (NewBlock to (r + 1) (sl_txns s) (Some next_cert))) (so_signs _ _ _ _ Hs) Hto Hto) as [Hb _].
  apply yields_Step. cbn [dispatch]. unfold next_proposal, next_cert in *. rewrite En in Ha, Hb, Hcs |- *. eapply yields_mono.
  - apply (at_last_vote (sl_crypto s to) (sl_txns s) to (edge to) quorum faulty r r l e q k tc vi ci b_round_r (stale_next tc) Hbound c
      (sig_by <$> pre) pre j (sgs j) _ _ l' k'); try done.
    + rewrite length_app, length_fmap. cbn [length]. lia.
    + apply vote_stands.
    + by eapply stands_le, vote_stands.
    + rewrite <- (ba_next _ _ _ _ _ _ _ _ _ _ _ Hba). f_equal. unfold r. lia.
  - intros c' Hc'. eapply core_at_slots; [exact Hc'|]. intros vk [Hlt|[Heq _]]; unfold older; lia.
Qed.

Lemma votes_heard tc l' k' (w0 : cores) : commit_step l k next_cert l' k' ->
  forall js pre c, js ≠ [] -> pre ++ js = sl_voters s -> w0 !! to = Some c ->
  node_at to (MkView r r l e q k tc ∅ (tally vi ci (sig_by <$> pre))) (slots_at r pre) c ->
  exists es c', each (hear_vote order conv cfg A s cast) js w0 = Some (<[to := c']> w0, es) /\ sends es = [NetProposal (next_proposal k')] /\
    node_at to (MkView (r + 1) r l' e next_cert k' None ∅ ∅) (older (r + 1)) c'.
Proof.
  intros Hcs js. revert w0. destruct voters_ok as (Hnd & Hsub & _). induction js as [|j js IH]; intros w0 pre c Hne Hpre Hw Hc; [done|]. clear Hne.
  assert (j ∈ A) as HjA by (apply Hsub; rewrite <- Hpre; apply elem_of_app; right; left).
  assert (j ∉ pre) as Hjp.
  { intros Hin. rewrite <- Hpre in Hnd. apply NoDup_app in Hnd as (_ & Hd & _). apply (Hd j Hin). left. }
  assert (vote_by j cast = Some (vote_of j, to)) as Hv.
  { rewrite <- vote_by_sends, (ba_cast _ _ _ _ _ _ _ _ _ _ _ Hba). by apply (vote_found (fun j => vote_of j)). }
  assert (hear_vote order conv cfg A s cast j w0 = node_step order conv s true to (VoteEvent (vote_of j)) w0) as Eh.
  { unfold hear_vote. by rewrite Hv, decide_True, vote_passes. }
  cbn [each]. rewrite Eh. destruct js as [|j' js].
  - destruct (node_step_yields order conv s to _ w0 c _ _ Hw (vote_completes tc c j pre l' k' Hpre Hjp Hcs Hc)) as (c1 & tr & -> & Htr & Hc1).
    cbn [mbind option_bind each]. exists (tr ++ []), c1. by rewrite app_nil_r.
  - destruct (node_step_yields order conv s to _ w0 c _ _ Hw (vote_counted tc c j j' js pre Hpre Hjp Hc)) as (c1 & tr & -> & Htr & Hc1).
    cbn [mbind option_bind]. destruct (IH (<[to := c1]> w0) (pre ++ [j]) c1) as (es & c' & E & Hes & Hc'); [done|..].
    + by rewrite <- (assoc_L (++)).
    + apply lookup_insert_eq.
    + exact Hc1.
    + exists (tr ++ es), c'. rewrite E. cbn [mbind option_bind]. rewrite insert_insert_eq, sends_app, Htr, Hes. done.
Qed.

(** The certificate they form is accepted by everyone. *)
Lemma next_valid i : i ∈ A -> VerifyQC (edge i) (Some next_cert) = true.
Proof.
  intros Hi. destruct digests_sized as (D1 & D2 & D3 & D4). destruct voters_ok as (Hnd & Hsub & Hquo). apply VerifyQC_iff. right.
  assert (QCRound (Some next_cert) = r) as Hr by apply b_round_r. split; [rewrite Hr; unfold r; lia|].
  destruct (canonical_unique next_sgs next_sgs) as (_ & Hperm & Hsort); [|done|].
  { unfold next_sgs. rewrite <- list_fmap_compose. assert (sg_signer ∘ sig_by <$> sl_voters s = sl_voters s) as ->; [apply list_fmap_id|done]. }
  split; cbn [qc_vote_info qc_ledger_commit_info qc_signatures qc_author qc_author_sig next_cert cert_of].
  - apply validVote_spec. split_and!; try done; [|apply length_sha256]. cbn. by destruct (_ =? _)%N.
  - done.
  - rewrite commits_next. intros Hc. cbn. destruct Hba as [(_ & _ & -> & -> & _) _ _ _ _ _]. unfold consecutive. fold r.
    apply N.eqb_eq in Hc. unfold maxRoundLead in Hbound. rewrite add64_small by (fold r in Hbound; lia). by apply N.eqb_eq.
  - exact Hsort.
  - apply Forall_forall. intros g Hg. rewrite Hperm in Hg. apply list_elem_of_fmap in Hg as (j & -> & Hj).
    unfold verifySig. cbn. apply (ba_sigs _ _ _ _ _ _ _ _ _ _ _ Hba); [done|by apply Hsub].
  - rewrite Hperm. unfold next_sgs. rewrite length_fmap, edge_quorum by done. lia.
  - done.
  - unfold verifySig. cbn. by apply signs_sig; [apply Hs|..].
Qed.

Lemma next_within g : g ∈ qc_signatures next_cert -> sg_signer g ∈ V.
Proof.
  cbn. unfold canonical. rewrite sort_by_perm. intros (j & -> & Hj)%list_elem_of_fmap. apply (cl_alive _ _ _ HC). by apply voters_ok.
Qed.

(** What it commits, and how the books show it. *)
Lemma next_commit : exists l' bs' k', commit_step l k next_cert l' k' /\ stands (r + 1) l' bs' st' next_cert k' /\
  forall x, books (Some x :: Some b :: ts) = (l_onCommit l', bs').
Proof.
  pose proof vote_stands as [S1 S2 S3 S4 S5 S6]. pose proof b_round_r as Hbr. pose proof (stands_le _ _ _ _ _ _ vote_stands) as Hle.
  destruct Hba as [(HUb & Hw & Hqc & _ & _) (l0 & Hl0 & El) _ _ _ Hpa]. pose proof (se_books _ _ _ _ _ _ _ _ _ Hse) as Hbk.
  assert (forall x, books (Some x :: Some b :: ts) = if (QCRound (Some q) + 1 =? r)%N then (l_onCommit l ++ bs, [b]) else (l_onCommit l, bs ++ [b])) as Hbooks.
  { intros x. change (books (Some x :: Some b :: ts)) with (let '(log, open) := books (Some b :: ts) in
      match ts with Some _ :: _ => (log ++ open, [b]) | _ => (log, open ++ [b]) end). rewrite Hbk.
    unfold paced in Hpa. destruct (N.eqb_spec (QCRound (Some q) + 1) r) as [Hc|Hc]; unfold r in Hc; destruct ts as [|[a|] ts0]; try done; try lia;
      rewrite Hpa by lia; by rewrite app_nil_r. }
  assert (VoteInfo_GetParentRound (qc_vote_info next_cert) = QCRound (Some q)) as Hpr by (cbn; by rewrite Hqc).
  assert (QCRound (Some next_cert) = r) as Hr by apply b_round_r.
  unfold commit_step. change (qc_ledger_commit_info next_cert) with (Some ci). rewrite commits_next. destruct (N.eqb_spec (QCRound (Some q) + 1) r) as [Hcon|Hcon].
  - destruct (child_commit U rank HU V l0 bs _ st b Hl0 HUb Hw eq_refl) as (l3 & Hl3 & Hid & Hlog & Hre3). rewrite <- El in Hl3.
    exists l3, [b], next_cert. split; [done|]. split; [|intros x; rewrite Hbooks, Hlog, El; done]. split; try done.
    + intros i Hi. split; by apply next_valid.
    + apply next_within.
    + rewrite Hr. lia.
    + by left.
    + intros _. split; [done|]. rewrite Hpr. lia.
  - exists l, (bs ++ [b]), k. split; [done|]. split; [|done]. split.
    + rewrite El. exact (child_tip U rank HU V l0 bs _ st b Hl0 HUb Hw eq_refl).
    + intros i Hi. split; [by apply next_valid|by apply S2].
    + apply next_within.
    + rewrite Hr. lia.
    + right. rewrite Hr, Hpr. split; [lia|]. split; [|lia]. change (qc_ledger_commit_info next_cert) with (Some ci).
      rewrite commits_next. by apply N.eqb_neq.
    + intros Hc. destruct (S6 Hc). split; [done|lia].
Qed.

Lemma votes_poise : exists w' es p' l' bs' k', each (hear_vote order conv cfg A s cast) (sl_voters s) w = Some (w', es) /\
  sent_proposals es = [p'] /\ poised (Some b :: ts) (sl_txns s) w' p' l' bs' st' e next_cert k' (fun _ => None) to.
Proof.
  destruct next_commit as (l' & bs' & k' & Hcs & Hst' & Hbk). pose proof Hse as [_ He _ Hn _]. rewrite r_height in Hn.
  destruct (Hn to Hto) as (_ & c & Hc & Hat). destruct voters_ok as (_ & _ & Hquo). pose proof quorum_pos as Hpos.
  destruct (votes_heard (tcs to) l' k' w Hcs (sl_voters s) [] c) as (es & c' & E & Hes & Hc'); [|done|done| |].
  { intros E. rewrite E in Hquo. cbn [length] in Hquo. lia. }
  { eapply core_at_slots; [exact Hat|]. intros vk Hvk. by left. }
  assert (QCRound (Some next_cert) = r) as Hr by apply b_round_r.
  assert (entitled (r + 1) next_cert None) as Hent by (split; [left; split; [lia|done]|done]).
  eexists (<[to := c']> w), es, _, l', bs', k'. split; [exact E|]. split; [by rewrite <- sent_proposals_sends, Hes|].
  split; rewrite ?r_height; try done.
  - split; [|done]. rewrite <- (ba_next _ _ _ _ _ _ _ _ _ _ _ Hba). f_equal. unfold r. lia.
  - exists None, (sig_of s to (b_id (NewBlock to (r + 1) (sl_txns s) (Some next_cert)))). split; [done|]. split; [done|].
    intros i Hi. by apply signs_sig; [apply Hs|..].
  - exists c'. split; [apply lookup_insert_eq|apply Hc'].
  - intros i Hi. split; [done|]. destruct (decide (i = to)) as [->|Hne].
    + exists c'. split; [apply lookup_insert_eq|]. by left.
    + destruct (Hn i Hi) as (_ & d & Hd & Hatd). exists d. rewrite lookup_insert_ne by done. split; [done|]. right.
      exists l, q, k, (tcs i). split; [eapply core_at_slots; [exact Hatd|]; intros vk Hvk; unfold older in *; lia|].
      split; [done|]. split; [done|]. split; [apply vote_stands|]. split; [by eapply stands_le, vote_stands|done].
  - unfold paced. by rewrite r_height.
Qed.
End votes.

(** *** The timeouts *)

Section timeouts.
Context (s : slot) (Hs : slot_ok cfg V A s) (ts : list (option Block)) (w : cores).
Context (l : MemLedger) (bs : list Block) (st : bytes) (e : LeaderElection) (q k : QuorumCert).
Context (tcs : uint32 -> option TimeoutCert) (ldr : uint32).
Context (Hse : settled ts w l bs st e q k tcs) (Hbound : (height ts + 1 < two64)%N) (Hldr : GetLeader e (height ts + 1) = Some ldr).
Let r : uint64 := height ts.
Let dig : bytes := TimeoutDigest r (QCRound (Some q)).
Let sgs : uint32 -> bytes := fun j => sig_of s j dig.
#[local] Abbreviation timeout_of j := (timeout_from r q k j (tcs j) (sgs j)).
Definition next_tc (i : uint32) : TimeoutCert := tc_of r q sgs (sl_timeouts s i).
Definition late_proposal (i : uint32) : ProposalMsg :=
  proposal_over (sl_txns s) i (r + 1) q k (Some (next_tc i)) (sig_of s i (b_id (NewBlock i (r + 1) (sl_txns s) (Some q)))).

Lemma expires i (w0 : cores) c : i ∈ A -> w0 !! i = Some c -> node_at i (MkView r r l e q k (tcs i) ∅ ∅) (older r) c ->
  exists c' tr, expire order conv s i w0 = Some (<[i := c']> w0, tr) /\ sends tr = [NetTimeout (timeout_of i)] /\
    node_at i (MkView r r l e q k (tcs i) ∅ ∅) (older r) c'.
Proof.
  intros Hi Hc Hat. destruct Hse as [Hst _ _ Hn _]. destruct (Hn i Hi) as ([Hj Ht] & _). unfold expire. rewrite Hc. cbn [mbind option_bind].
  apply (node_step_yields order conv s i _ w0 c _ _ Hc). eapply at_expire; try done.
  - by apply (sn_valid _ _ _ _ _ _ Hst).
  - by apply Ht.
  - exact (proj1 (signs_sig s i i dig (so_signs _ _ _ _ Hs) Hi Hi)).
Qed.

Lemma timeout_passes i j : i ∈ A -> j ∈ A -> VerifyTimeout (edge i) (timeout_of j) = true.
Proof.
  intros Hi Hj. destruct Hse as [Hst _ _ Hn _]. destruct (Hn j Hj) as (Ht & _). destruct (sn_valid _ _ _ _ _ _ Hst i Hi) as [Hq Hk].
  apply VerifyTimeout_iff. eexists _, q. split; [reflexivity|]. split; [done|]. pose proof (sn_below _ _ _ _ _ _ Hst) as Hlt. split_and!; try done.
  - apply entitled_formed; [done|]. cbn. unfold r. lia.
  - unfold verifySig. cbn. by apply signs_sig; [apply Hs|..].
  - by apply Ht.
Qed.

Lemma still_stale tc pend : stale (MkView r r l e q k tc pend ∅) q /\ stale (MkView r r l e q k tc pend ∅) k.
Proof. eapply stands_stale; [apply Hse|]. intros idx x Hx. by rewrite lookup_empty in Hx. Qed.

(** The timeouts of the last of a quorum end the round. *)
Lemma timeouts_heard (sent : list effect) i : i ∈ A -> (forall j, j ∈ A -> timeout_by j sent = Some (timeout_of j)) ->
  forall js pre (w0 : cores) c, js ≠ [] -> pre ++ js = sl_timeouts s i -> w0 !! i = Some c ->
  node_at i (MkView r r l e q k (tcs i) (heard r q sgs pre) ∅) (older r) c ->
  exists c' tr, each (hear_timeout order conv cfg s sent i) js w0 = Some (<[i := c']> w0, tr) /\
    sent_proposals tr = (if (ldr =? i)%N then [late_proposal i] else []) /\
    node_at i (MkView (r + 1) r l e q k (Some (next_tc i)) ∅ ∅) (older r) c'.
Proof.
  intros Hi Hsent js. destruct (so_timeouts _ _ _ _ Hs i Hi) as (Hnd & Hsub & Hquo). pose proof Hse as [Hst _ [Hu1 Hu2] Hn _].
  destruct (Hn i Hi) as ([Hj Ht] & _). destruct (sn_valid _ _ _ _ _ _ Hst i Hi) as [Hq _].
  destruct (signs_sig s i i dig (so_signs _ _ _ _ Hs) Hi Hi) as [Hsg _].
  destruct (signs_sig s i i (b_id (NewBlock i (r + 1) (sl_txns s) (Some q))) (so_signs _ _ _ _ Hs) Hi Hi) as [Hpsg _].
  induction js as [|j js IH]; intros pre w0 c Hne Hpre Hw Hc; [done|]. clear Hne.
  assert (j ∈ A) as HjA by (apply Hsub; rewrite <- Hpre; apply elem_of_app; right; left).
  assert (NoDup pre /\ j ∉ pre) as [Hndp Hjp].
  { rewrite <- Hpre in Hnd. apply NoDup_app in Hnd as (? & Hd & _). split; [done|]. intros Hin. apply (Hd j Hin). left. }
  assert (hear_timeout order conv cfg s sent i j w0 = node_step order conv s true i (TimeoutEvent (timeout_of j)) w0) as Eh.
  { unfold hear_timeout. by rewrite Hsent, timeout_passes. }
  assert (forall t, tcs j = Some t -> (tc_round t < r)%N) as Hold.
  { destruct (Hn j HjA) as ([Hjj _] & _). by eapply justified_tc_round. }
  rewrite <- Hpre, length_app in Hquo. cbn [each length] in *. rewrite Eh. destruct js as [|j' js].
  - destruct (at_last_timeout (sl_crypto s i) (sl_txns s) i (edge i) quorum faulty (o := order i) (H := conv i) r l e q k (tcs i) sgs Hj Hbound Hq (Ht i Hi) Hsg
      (fun _ => still_stale _ _) Hu1 Hu2 c (older r) j (tcs j) pre ldr (sig_of s i (b_id (NewBlock i (r + 1) (sl_txns s) (Some q)))) Hc Hndp Hjp Hold)
      as (es & Hes & Hy); [cbn [length] in *; lia|by apply Hst|done|done|].
    destruct (node_step_yields order conv s i _ w0 c _ _ Hw Hy) as (c1 & tr & -> & Htr & Hc1). cbn [mbind option_bind each].
    exists c1, (tr ++ []). rewrite app_nil_r. split; [done|]. rewrite <- sent_proposals_sends, Htr, Hes. unfold late_proposal, next_tc. by rewrite <- Hpre.
  - destruct (at_timeout (sl_crypto s i) (sl_txns s) i (edge i) quorum faulty (o := order i) (H := conv i) r l e q k (tcs i) sgs Hj Hbound Hq (Ht i Hi) Hsg
      (fun _ => still_stale _ _) Hu1 Hu2 c (older r) j (tcs j) pre Hc Hndp Hjp Hold) as (es & Hes & Hy); [cbn [length] in *; lia|].
    destruct (node_step_yields order conv s i _ w0 c _ _ Hw Hy) as (c1 & tr & -> & Htr & Hc1). cbn [mbind option_bind].
    destruct (IH (pre ++ [j]) (<[i := c1]> w0) c1) as (c' & tr' & E & Hes' & Hc'); [done|by rewrite <- (assoc_L (++))|apply lookup_insert_eq|exact Hc1|].
    exists c', (tr ++ tr'). rewrite E. cbn [mbind option_bind]. rewrite insert_insert_eq. split; [done|]. split; [|done].
    unfold sent_proposals in *. rewrite omap_app, Hes'. change (omap _ tr) with (sent_proposals tr). rewrite <- sent_proposals_sends, Htr.
    unfold sent_proposals. by rewrite Hes.
Qed.

Lemma next_entitled i : i ∈ A -> entitled (r + 1) q (Some (next_tc i)).
Proof.
  intros Hi. destruct (so_timeouts _ _ _ _ Hs i Hi) as (Hnd & Hsub & Hquo). pose proof (se_stands _ _ _ _ _ _ _ _ _ Hse) as Hst.
  pose proof (sn_below _ _ _ _ _ _ Hst) as Hlt. fold r in Hlt. split.
  - right. split; [lia|]. exists (next_tc i). split; [done|]. split; [done|]. apply MaxHighQCRound_le. apply Forall_forall. cbn. intros v.
    rewrite sort_by_perm. intros (f & -> & (j & -> & Hj)%list_elem_of_fmap)%list_elem_of_fmap. done.
  - intros i' Hi'. apply VerifyTC_iff. split; cbn [tc_round tc_votes next_tc tc_of].
    + lia.
    + apply sort_by_strict. assert (tv_signer <$> (timeout_vote <$> infos r q sgs (sl_timeouts s i)) = sl_timeouts s i) as ->; [|done].
      unfold infos. rewrite <- !list_fmap_compose.
      apply list_fmap_id.
    + apply Forall_forall. intros v. rewrite sort_by_perm. intros (f & -> & (j & -> & Hj)%list_elem_of_fmap)%list_elem_of_fmap.
      unfold verifySig. cbn. apply signs_sig; [apply Hs|by apply Hsub|done].
    + rewrite length_sort_by, length_fmap, edge_quorum by done. unfold infos. rewrite length_fmap. lia.
Qed.

Lemma proposals_out ids outs : NoDup ids ->
  Forall2 (fun i es => sent_proposals es = if (ldr =? i)%N then [late_proposal i] else []) ids outs ->
  sent_proposals (concat outs) = if decide (ldr ∈ ids) then [late_proposal ldr] else [].
Proof.
  intros Hnd Ho. induction Ho as [|i es ids outs E _ IH]; cbn [concat]; [by rewrite decide_False by apply not_elem_of_nil|].
  apply NoDup_cons in Hnd as [Hni Hnd]. unfold sent_proposals in *. rewrite omap_app, E, (IH Hnd). destruct (N.eqb_spec ldr i) as [->|Hne].
  - rewrite (decide_False (P := i ∈ ids)) by done. by rewrite decide_True by left.
  - destruct (decide (ldr ∈ ids)); [by rewrite decide_True by (by right)|]. rewrite decide_False; [done|]. by apply not_elem_of_cons.
Qed.

Lemma timed_out : exists w1 sent w2 es,
  each (expire order conv s) A w = Some (w1, sent) /\ each (hear_timeouts order conv cfg s sent) A w1 = Some (w2, es) /\
  sent_proposals es = (if decide (ldr ∈ A) then [late_proposal ldr] else []) /\
  forall i, i ∈ A -> exists c, w2 !! i = Some c /\ node_at i (MkView (r + 1) r l e q k (Some (next_tc i)) ∅ ∅) (older r) c.
Proof.
  pose proof (cl_nodup _ _ _ HC) as Hnd. pose proof quorum_pos as Hpos.
  destruct (each_nodes (expire order conv s) (fun i c => node_at i (MkView r r l e q k (tcs i) ∅ ∅) (older r) c)
    (fun i c => node_at i (MkView r r l e q k (tcs i) ∅ ∅) (older r) c) (fun i es => es = [NetTimeout (timeout_of i)]) A w Hnd) as (w1 & sent & outs & E1 & Ho & Hes & Hin).
  { intros i Hi. by apply (se_nodes _ _ _ _ _ _ _ _ _ Hse). } { intros i w0 c Hi. by apply expires. }
  apply (outs_map (fun i => NetTimeout (timeout_of i))) in Ho. rewrite Ho in Hes.
  destruct (each_nodes (hear_timeouts order conv cfg s sent) (fun i c => node_at i (MkView r r l e q k (tcs i) ∅ ∅) (older r) c)
    (fun i c => node_at i (MkView (r + 1) r l e q k (Some (next_tc i)) ∅ ∅) (older r) c)
    (fun i es => sent_proposals es = if (ldr =? i)%N then [late_proposal i] else []) A w1 Hnd) as (w2 & es & outs2 & E2 & Ho2 & Hes2 & Hin2); [done| |].
  { intros i w0 c Hi Hc Hat. destruct (timeouts_heard sent i Hi) with (js := sl_timeouts s i) (pre := @nil uint32) (w0 := w0) (c := c) as (c' & tr & E & Htr & Hc'); try done.
    - intros j Hj. rewrite <- timeout_by_sends, Hes. by apply (timeout_found (fun j => timeout_of j)).
    - intros Enil. destruct (so_timeouts _ _ _ _ Hs i Hi) as (_ & _ & Hq). rewrite Enil in Hq. cbn [length] in Hq. lia.
    - exists c', tr. split; [exact E|]. by rewrite sent_proposals_sends. }
  exists w1, sent, w2, es. split; [done|]. split; [done|]. split; [|done].
  rewrite <- sent_proposals_sends, Hes2. by apply proposals_out.
Qed.

(** The next leader has crashed: an empty round. *)
Lemma timeouts_settle (w2 : cores) :
  (forall i, i ∈ A -> exists c, w2 !! i = Some c /\ node_at i (MkView (r + 1) r l e q k (Some (next_tc i)) ∅ ∅) (older r) c) ->
  settled (None :: ts) w2 l bs st e q k (fun i => Some (next_tc i)).
Proof.
  intros Hin. assert (height (None :: ts) = (r + 1)%N) as Er by (cbn [length]; unfold r; lia).
  pose proof Hse as [Hst He _ _ Hb]. pose proof (sn_below _ _ _ _ _ _ Hst) as Hlt. pose proof (stands_le _ _ _ _ _ _ Hst) as Hle. fold r in Hlt, Hbound.
  split; rewrite ?Er; try done.
  - eapply stands_later; [exact Hst|]. unfold r. lia.
  - split; apply update_old; lia.
  - intros i Hi. split; [by apply next_entitled|]. destruct (Hin i Hi) as (c & Hc & Hat).
    exists c. split; [done|]. eapply core_at_voted, N.le_add_r. eapply core_at_slots; [exact Hat|]. intros vk Hvk. unfold older in *. lia.
Qed.

(** After an empty round it has not: a late proposal. *)
Lemma timeouts_poise (w2 : cores) ts' : ts = None :: ts' -> ldr ∈ A ->
  (forall i, i ∈ A -> exists c, w2 !! i = Some c /\ node_at i (MkView (r + 1) r l e q k (Some (next_tc i)) ∅ ∅) (older r) c) ->
  poised ts (sl_txns s) w2 (late_proposal ldr) l bs st e q k (fun i => Some (next_tc i)) ldr.
Proof.
  intros Ets Hin Hw. pose proof Hse as [Hst He _ _ Hb]. pose proof (sn_below _ _ _ _ _ _ Hst) as Hlt. split; try done.
  - eapply stands_later; [exact Hst|lia].
  - exists (Some (next_tc ldr)), (sig_of s ldr (b_id (NewBlock ldr (r + 1) (sl_txns s) (Some q)))). split; [done|]. split; [by apply next_entitled|].
    intros i Hi. by apply signs_sig; [apply Hs|..].
  - destruct (Hw ldr Hin) as (c & Hc & Hat). exists c. split; [done|apply Hat].
  - intros i Hi. split; [by apply next_entitled|]. destruct (Hw i Hi) as (c & Hc & Hat). exists c. split; [done|]. left.
    eapply core_at_slots; [exact Hat|]. intros vk Hvk. unfold older in *. fold r. lia.
  - unfold paced. rewrite Ets in Hlt |- *. lia.
  - intros b. rewrite <- Hb, Ets. done.
Qed.
End timeouts.

(** *** From round to round *)

Definition resting (ts : list (option Block)) (w : cores) (cast : list effect) : Prop :=
  exists l bs st e q k tcs, settled ts w l bs st e q k tcs /\
    match ts with
    | [] => False
    | None :: _ => cast = []
    | Some b :: ts => st ≠ zeroHash /\ exists sgs to, ballot ts b cast l bs st e q k sgs to
    end.

(** The next proposal, if its leader is alive. *)
Definition outcome (ts : list (option Block)) (txns : list bytes) (ldr : uint32) (o : cores * option ProposalMsg) : Prop :=
  match o.2 with
  | Some p => exists l bs st e q k tcs, poised ts txns o.1 p l bs st e q k tcs ldr
  | None => (ldr ∉ A) /\ resting (None :: ts) (o.1) []
  end.

Lemma hear_rests s ts txns ldr o :
  signs cfg A s -> outcome ts txns ldr o -> (height ts + 1 + maxRoundLead < two64)%N ->
  (forall p b, (o.2) = Some p -> pm_block p = Some b ->
     U b /\ forall i c x, (o.1) !! i = Some c -> PendingState (c_ledger c) (parentID b) = Some x -> x ≠ zeroHash) ->
  exists w' cast, hear order conv cfg A s o = Some (w', cast) /\ resting ((o.2 ≫= pm_block) :: ts) w' cast.
Proof.
  intros Hs Ho Hb Hblk. destruct o as [w [p|]]; cbn [fst snd] in *.
  - destruct Ho as (l & bs & st & e & q & k & tcs & Hpo). pose proof Hpo as [Hst He [Hl Hld] (tc & sg & Ep & _) (c & Hc & El) _ _ _].
    set (r := (height ts + 1)%N) in *. set (b := NewBlock ldr r txns (Some q)). unfold maxRoundLead in Hb.
    destruct (Hblk p b eq_refl) as [HUb Hnz]; [by rewrite Ep|].
    destruct (update_elected V e l r (Some q) He) as (e' & Hup & Hup' & Hsame & He').
    { exact (rests_acyclic U rank HU _ _ _ _ _ (sn_rests _ _ _ _ _ _ Hst)). } { lia. } { apply Hst. }
    { exact (re_committed _ _ _ _ _ _ (sn_rests _ _ _ _ _ _ Hst)). }
    destruct (elected_leader V V_some e' (r + 1) He') as (to & Hnext & _). rewrite <- Hsame in Hl.
    destruct (hear_settles s Hs ts txns w p l bs st e e' q k tcs ldr to Hpo Hb HUb Hup Hup' Hl Hnext) as (w' & cast & E & Hse & Hba).
    exists w', cast. split; [exact E|]. cbn. rewrite Ep. exists (child_ledger l st b), bs, st, e', q, k, tcs. split; [done|]. split; [|by eexists _, _].
    apply (Hnz ldr c st Hc). rewrite El. apply (re_state _ _ _ _ _ _ (sn_rests _ _ _ _ _ _ Hst)).
  - exists w, []. by destruct Ho as [_ Ho].
Qed.

Lemma rests_leader ts w cast : resting ts w cast ->
  exists ldr, ldr ∈ V /\ forall i, i ∈ A -> exists c, w !! i = Some c /\ GetLeader (c_leaders c) (height ts + 1) = Some ldr.
Proof.
  intros (l & bs & st & e & q & k & tcs & [_ He _ Hn _] & _). destruct (elected_leader V V_some e (height ts + 1) He) as (ldr & Hl & Hld).
  exists ldr. split; [done|]. intros i Hi. destruct (Hn i Hi) as (_ & c & Hc & Hat). exists c. split; [done|]. by rewrite (ca_leaders _ _ _ _ _ _ _ Hat).
Qed.

(** Every round ends. *)
Lemma next_outcome s ts w cast ldr :
  slot_ok cfg V A s -> resting ts w cast -> (height ts + maxRoundLead < two64)%N ->
  (forall i, i ∈ A -> exists c, w !! i = Some c /\ GetLeader (c_leaders c) (height ts + 1) = Some ldr) ->
  exists o, next_round order conv cfg A s w cast = Some o /\ outcome ts (sl_txns s) ldr o.
Proof.
  intros Hs (l & bs & st & e & q & k & tcs & Hse & Hph) Hb Hl. unfold maxRoundLead in Hb.
  assert (GetLeader e (height ts + 1) = Some ldr) as Hldr.
  { pose proof (cl_some _ _ _ HC). assert (exists i, i ∈ A) as [i Hi] by (destruct A as [|a ?]; [done|]; exists a; left).
    destruct (Hl i Hi) as (c & Hc & <-). destruct (se_nodes _ _ _ _ _ _ _ _ _ Hse i Hi) as (_ & c' & Hc' & Hat).
    rewrite Hc in Hc'. injection Hc' as <-. by rewrite (ca_leaders _ _ _ _ _ _ _ Hat). }
  assert ((forall j, hear_vote order conv cfg A s cast j w = Some (w, [])) -> (ldr ∈ A -> exists ts', ts = None :: ts') ->
    exists o, next_round order conv cfg A s w cast = Some o /\ outcome ts (sl_txns s) ldr o) as Hlate.
  { intros Hidle Hquiet. destruct (timed_out s Hs ts w l bs st e q k tcs ldr Hse ltac:(lia) Hldr) as (w1 & sent & w2 & es & E1 & E2 & Hes & Hin).
    unfold next_round. rewrite each_idle by done. cbn [mbind option_bind sent_proposals omap]. cbn [omap list_omap]. rewrite E1. cbn [mbind option_bind].
    rewrite E2. cbn [mbind option_bind]. unfold poll. rewrite Hes. destruct (decide (ldr ∈ A)) as [Hin'|Hout]; eexists; (split; [reflexivity|]).
    - destruct (Hquiet Hin') as [ts' Ets]. eexists _, _, _, _, _, _, _. cbn [fst snd]. eapply timeouts_poise; try done; lia.
    - split; [done|]. cbn [fst]. eexists _, _, _, _, _, _, _. split; [|done]. eapply timeouts_settle; try done; lia. }
  destruct ts as [|[b|] ts]; [done| |].
  - destruct Hph as (Hst & sgs & to & Hba). assert (to = ldr) as ->.
    { pose proof (ba_next _ _ _ _ _ _ _ _ _ _ _ Hba) as Hn. replace (height (Some b :: ts) + 1)%N with (height ts + 2)%N in Hldr by (cbn [length]; lia).
      rewrite Hn in Hldr. by injection Hldr. }
    destruct (decide (ldr ∈ A)) as [Hin|Hout].
    + destruct (votes_poise s Hs ts b w cast l bs st e q k tcs sgs ldr Hse Hba Hin) as (w' & es & p & l' & bs' & k' & E & Hes & Hpo); [|done|].
      { cbn [length] in Hb. unfold maxRoundLead. lia. }
      exists (w', Some p). split; [|by eexists _, _, _, _, _, _, _]. unfold next_round. rewrite E. cbn [mbind option_bind]. unfold poll. by rewrite Hes.
    + apply Hlate; [|done]. intros j. unfold hear_vote. rewrite <- vote_by_sends, (ba_cast _ _ _ _ _ _ _ _ _ _ _ Hba).
      destruct (vote_by j _) as [[v to]|] eqn:Ev; [|done]. assert (to = ldr) as ->; [|by rewrite decide_False].
      unfold vote_by in Ev. apply head_Some_elem_of in Ev. apply list_elem_of_omap in Ev as (ef & (i & -> & _)%list_elem_of_fmap & Ev).
      destruct (_ =? _)%N; [by injection Ev|done].
  - subst cast. apply Hlate; [done|by eexists].
Qed.

(** *** The start *)

Definition first_leaders (i : uint32) : LeaderElection :=
  NewLeaderElection V (if (cfg_WindowSize (cfg i) =? 0)%Z then defaultWindowSize else cfg_WindowSize (cfg i))
    (if (cfg_ExcludeSize (cfg i) =? 0)%Z then Z.max (Faulty (Z.of_nat (length V))) 1 else cfg_ExcludeSize (cfg i)).

Lemma first_leaders_same i j : i ∈ A -> j ∈ A -> first_leaders i = first_leaders j.
Proof. intros Hi Hj. unfold first_leaders. by destruct (cl_window _ _ _ HC i j Hi Hj) as [-> ->]. Qed.

Lemma new_at i : i ∈ A ->
  exists c, New (cfg i) = Some c /\ node_at i (MkView 0 0 NewMemLedger (first_leaders i) genesisQC genesisQC None ∅ ∅) (older 0) c.
Proof.
  intros Hi. destruct (cl_new _ _ _ HC i Hi) as [c Hc]. exists c. split; [done|]. unfold New in Hc.
  destruct (_ <? _)%Z; [done|]. apply (inj Some) in Hc as <-. unfold first_leaders, cfg_verifier.
  rewrite (cl_id _ _ _ HC i Hi), (cl_validators _ _ _ HC i Hi), (cl_ledger _ _ _ HC i Hi). by split.
Qed.

#[local] Abbreviation first_proposal s ldr :=
  (proposal_over (sl_txns s) ldr 1 genesisQC genesisQC None (sig_of s ldr (b_id (NewBlock ldr 1 (sl_txns s) (Some genesisQC))))).

Lemma start_spec s e0 ldr :
  signs cfg A s -> (forall i, i ∈ A -> first_leaders i = e0) -> GetLeader e0 1 = Some ldr -> forall ids, NoDup ids -> ids ⊆ A ->
  exists w es, start_all cfg s ids = Some (w, es) /\ sends es = (if decide (ldr ∈ ids) then [NetProposal (first_proposal s ldr)] else []) /\
    forall i, i ∈ ids -> exists c, w !! i = Some c /\ node_at i (MkView 1 0 NewMemLedger e0 genesisQC genesisQC None ∅ ∅) (older 1) c.
Proof.
  intros Hs He0 Hl ids Hnd Hids. induction ids as [|i ids IH]; cbn [start_all].
  { exists ∅, []. split_and!; try done. intros i []%not_elem_of_nil. }
  apply NoDup_cons in Hnd as [Hni Hnd]. assert (i ∈ A) as Hi by (apply Hids; left).
  destruct IH as (w & es & -> & Hes & Hin); [done|by intros k Hk; apply Hids; right|].
  destruct (new_at i Hi) as (c & -> & Hat). rewrite (He0 i Hi) in Hat. cbn [mbind option_bind].
  destruct (signs_sig s i i (b_id (NewBlock i 1 (sl_txns s) (Some genesisQC))) Hs Hi Hi) as [Hsg _].
  assert (yields (Start (sl_crypto s i) (sl_txns s)) c tt (if (ldr =? i)%N then [NetProposal (first_proposal s ldr)] else [])
    (node_at i (MkView 1 0 NewMemLedger e0 genesisQC genesisQC None ∅ ∅) (older 1))) as (c1 & tr & -> & Htr & Hc1).
  { unfold Start. apply (yields_bind _ _ _ true _ [] _ (node_at i (MkView (0 + 1) 0 NewMemLedger e0 genesisQC genesisQC None ∅ ∅) (older 1))).
    - eapply at_advance; [|done|done]. eapply core_at_slots; [exact Hat|]. intros vk Hvk. unfold older in *. lia.
    - intros c' Hc'. pose proof (at_propose _ _ _ _ _ _ c' _ _ None ldr _ Hc' Hl Hsg) as Hp.
      destruct (N.eqb_spec ldr i) as [->|]; exact Hp. }
  cbn [mbind option_bind]. exists (<[i := c1]> w), (tr ++ es). split; [done|]. rewrite sends_app, Htr, Hes. split.
  - destruct (N.eqb_spec ldr i) as [->|Hne].
    + rewrite (decide_False (P := i ∈ ids)) by done. by rewrite decide_True by left.
    + destruct (decide (ldr ∈ ids)); [by rewrite decide_True by (by right)|]. rewrite decide_False; [done|]. by apply not_elem_of_cons.
  - intros k [->|Hk]%elem_of_cons.
    + exists c1. by rewrite lookup_insert_eq.
    + rewrite lookup_insert_ne by (by intros ->). auto.
Qed.

Lemma update_genesis e l r : UpdateLeaders e l r (Some genesisQC) = Some e.
Proof. reflexivity. Qed.

Lemma stands_start : stands 1 NewMemLedger [] (l_commitState NewMemLedger) genesisQC genesisQC.
Proof.
  split; [apply rests_start| | |done|by left|].
  - intros i Hi. split; apply VerifyQC_genesis.
  - intros g Hg. by apply not_elem_of_nil in Hg.
  - intros Hc. by vm_compute in Hc.
Qed.

Lemma start_outcome s : signs cfg A s -> exists o ldr, first_round cfg A s = Some o /\ ldr ∈ V /\ outcome [] (sl_txns s) ldr o.
Proof.
  intros Hs. assert (exists i0, i0 ∈ A) as [i0 Hi0].
  { pose proof (cl_some _ _ _ HC). destruct A as [|v vs]; [done|]. exists v. left. }
  assert (elected V (first_leaders i0)) as He by (split; [done|]; cbn; intros k id Hk; by rewrite lookup_empty in Hk).
  destruct (elected_leader V V_some _ 1 He) as (ldr & Hl & Hldr). set (e0 := first_leaders i0) in *.
  destruct (start_spec s e0 ldr Hs (fun i Hi => first_leaders_same i i0 Hi Hi0) Hl A (cl_nodup _ _ _ HC)) as (w & es & E & Hes & Hin); [done|].
  assert (entitled 1 genesisQC None) as Hent by (split; [by left|done]).
  unfold first_round. rewrite E. cbn [mbind option_bind]. unfold poll. rewrite <- sent_proposals_sends, Hes.
  destruct (decide (ldr ∈ A)) as [Hal|Hal]; eexists _, ldr; (split; [reflexivity|]); (split; [exact Hldr|]).
  - exists NewMemLedger, [], (l_commitState NewMemLedger), e0, genesisQC, genesisQC, (fun _ => None). split.
    + apply stands_start.
    + exact He.
    + by split.
    + exists None, (sig_of s ldr (b_id (NewBlock ldr 1 (sl_txns s) (Some genesisQC)))). split; [reflexivity|]. split; [exact Hent|].
      intros i Hi. by apply signs_sig.
    + destruct (Hin ldr Hal) as (c & Hc & Hat). exists c. split; [exact Hc|]. apply Hat.
    + intros i Hi. split; [exact Hent|]. destruct (Hin i Hi) as (c & Hc & Hat). exists c. split; [exact Hc|]. left. exact Hat.
    + intros _. reflexivity.
    + intros b. reflexivity.
  - split; [done|]. exists NewMemLedger, [], (l_commitState NewMemLedger), e0, genesisQC, genesisQC, (fun _ => None). split; [|reflexivity]. split.
    + apply stands_start.
    + exact He.
    + split; apply update_genesis.
    + intros i Hi. split; [exact Hent|]. destruct (Hin i Hi) as (c & Hc & Hat). exists c. split; [exact Hc|]. eapply core_at_voted; [exact Hat|]. cbn. lia.
    + reflexivity.
Qed.
End rounds.

(** ** Runs *)

Lemma length_trace order conv cfg A s0 ss : length (trace order conv cfg A s0 ss) = S (length ss).
Proof. induction ss as [|s ss IH]; [done|]. cbn [trace length]. by rewrite IH. Qed.

(** What is committed stays committed, and three in a row commit the first. *)
Lemma books_grow x ts : (books ts).1 ⊆ (books (x :: ts)).1.
Proof.
  destruct x as [b|]; [|done]. destruct ts as [|[a|] older]; [done| |done].
  change (books (Some b :: Some a :: older)) with (let '(log, open) := books (Some a :: older) in
    match older with Some _ :: _ => (log ++ open, [a]) | _ => (log, open ++ [a]) end).
  destruct (books (Some a :: older)) as [log open]. destruct older as [|[?|] ?]; cbn; [done| |done]. by apply list_subseteq_app_l.
Qed.

Lemma books_three pre c b a older : a ∈ (books (pre ++ Some c :: Some b :: Some a :: older)).1.
Proof.
  induction pre as [|x pre IH]; [|by apply (books_grow x)]. cbn [app].
  change (books (Some c :: Some b :: Some a :: older)) with (let '(log, open) := books (Some b :: Some a :: older) in (log ++ open, [b])).
  change (books (Some b :: Some a :: older)) with (let '(log, open) := books (Some a :: older) in
    match older with Some _ :: _ => (log ++ open, [a]) | _ => (log, open ++ [a]) end).
  destruct (books (Some a :: older)) as [log open]. destruct older as [|[?|] ?]; cbn; rewrite !elem_of_app, list_elem_of_singleton; tauto.
Qed.

(** With a block in every round, all but the last two are committed. *)
Lemma books_full bs : books (Some <$> bs) = (reverse (drop 2 bs), take 1 (drop 1 bs)).
Proof.
  induction bs as [|c [|b bs] IH]; [done..|].
  change (books (Some <$> c :: b :: bs)) with (let '(log, open) := books (Some <$> b :: bs) in
    match Some <$> bs with Some _ :: _ => (log ++ open, [b]) | _ => (log, open ++ [b]) end).
  rewrite IH. destruct bs as [|a bs]; [done|]. change ((reverse bs ++ [a], [b]) = (reverse (a :: bs), [b])). by rewrite reverse_cons.
Qed.

Section runs.
Context (order : uint32 -> RangeOrder) (conv : uint32 -> FloatConv) (cfg : uint32 -> Config) (V A : list uint32).
Context (U : Block -> Prop) (rank : bytes -> nat) (s0 : slot).
Context (HC : cluster_ok cfg V A) (HU : fed_universe U rank) (H0 : signs cfg A s0).

Definition blocks_ok (ss : list slot) : Prop := forall ss' w p b,
  ss' `suffix_of` ss -> offer order conv cfg A s0 ss' = Some (w, Some p) -> pm_block p = Some b ->
  U b /\ forall i c x, w !! i = Some c -> PendingState (c_ledger c) (parentID b) = Some x -> x ≠ zeroHash.

Lemma drive_rests ss :
  Forall (slot_ok cfg V A) ss -> (N.of_nat (length ss) + 1 + maxRoundLead < two64)%N -> blocks_ok ss ->
  exists w cast, drive order conv cfg A s0 ss = Some (w, cast) /\ resting cfg V A U (trace order conv cfg A s0 ss) w cast.
Proof.
  induction ss as [|s ss IH]; intros Hss Hb Hok.
  - destruct (start_outcome cfg V A HC U s0 H0) as (o & ldr & E & _ & Ho). cbn [drive trace offer]. rewrite E. cbn [mbind option_bind].
    destruct (hear_rests order conv cfg V A HC U rank HU s0 [] (sl_txns s0) ldr o H0 Ho Hb) as (w & cast & Eh & Hre).
    { intros p b Hp. apply (Hok [] (o.1) p b); [done|]. cbn [offer]. rewrite E. by rewrite (surjective_pairing o), Hp. }
    exists w, cast. split; [exact Eh|]. by destruct o.
  - apply Forall_cons in Hss as [Hs Hss]. cbn [length] in Hb. destruct IH as (w & cast & E & Hre); [done|lia| |].
    { intros ss' w p b Hsuf. apply Hok. by apply suffix_cons_r. }
    assert (length (trace order conv cfg A s0 ss) = S (length ss)) as Hlen by apply length_trace.
    destruct (rests_leader cfg V A HC U _ w cast Hre) as (ldr & _ & Hl).
    destruct (next_outcome order conv cfg V A HC U rank HU s _ w cast ldr Hs Hre) as (o & En & Ho); [rewrite Hlen; lia|done|].
    assert (offer order conv cfg A s0 (s :: ss) = Some o) as Eo by (cbn [offer]; rewrite E; exact En).
    destruct (hear_rests order conv cfg V A HC U rank HU s _ (sl_txns s) ldr o (so_signs _ _ _ _ Hs) Ho) as (w' & cast' & Eh & Hre').
    { rewrite Hlen. lia. }
    { intros p b Hp. apply (Hok (s :: ss) (o.1) p b); [done|]. rewrite Eo. by rewrite (surjective_pairing o), Hp. }
    exists w', cast'. cbn [drive trace]. rewrite Eo, E. cbn [mbind option_bind]. rewrite En. split; [exact Eh|]. by destruct o.
Qed.

(** Without crashes every round has a block. *)
Lemma trace_full ss :
  V ⊆ A -> Forall (slot_ok cfg V A) ss -> (N.of_nat (length ss) + 1 + maxRoundLead < two64)%N -> blocks_ok ss ->
  exists bs, trace order conv cfg A s0 ss = Some <$> bs.
Proof.
  intros Hall. assert (forall ts txns ldr o, ldr ∈ V -> outcome cfg V A U ts txns ldr o -> exists b, block_of (Some o) = Some b) as Hblk.
  { intros ts txns ldr [w [p|]] Hl Ho; [|destruct Ho as [Hn _]; by apply Hall in Hl].
    destruct Ho as (? & ? & ? & ? & ? & ? & ? & [_ _ _ (tc & sg & -> & _) _ _ _ _]). by eexists. }
  induction ss as [|s ss IH]; intros Hss Hb Hok; cbn [trace].
  - destruct (start_outcome cfg V A HC U s0 H0) as (o & ldr & E & Hl & Ho). cbn [offer]. rewrite E.
    destruct (Hblk _ _ _ _ Hl Ho) as [b ->]. by exists [b].
  - apply Forall_cons in Hss as [Hs Hss]. cbn [length] in Hb. assert (blocks_ok ss) as Hok'.
    { intros ss' w p b Hsuf. apply Hok. by apply suffix_cons_r. }
    destruct IH as [bs ->]; [done|lia|done|]. destruct (drive_rests ss Hss ltac:(lia) Hok') as (w & cast & E & Hre).
    destruct (rests_leader cfg V A HC U _ w cast Hre) as (ldr & Hl & Hlead).
    destruct (next_outcome order conv cfg V A HC U rank HU s _ w cast ldr Hs Hre) as (o & En & Ho); [rewrite length_trace; lia|done|].
    cbn [offer]. rewrite E. cbn [mbind option_bind]. rewrite En. destruct (Hblk _ _ _ _ Hl Ho) as [b ->]. by exists (b :: bs).
Qed.
End runs.

(** C2. Progress in spite of crashes. Some validators have crashed, and those that are
    alive are enough for a quorum. However a schedule picks the quorums whose votes and
    timeouts arrive, their order and the payloads, every round ends: the edges accept
    every message, all live replicas are in the same round with the same log, and they
    agree on the next leader; if it is alive the next round has a block, by it, with
    what its payload source handed out, and if not the round is empty. The log is
    [books] of the blocks and empty rounds; in particular, of three blocks in
    consecutive rounds the first is committed everywhere once the third is heard, and if
    no one has crashed every round has a block and all but the last two are committed.
    Assumed of the blocks proposed is that neither their parent links nor the parents
    their certificates claim form a cycle, and that no state they are executed to is the
    zero hash. *)
Theorem crash_commits (order : uint32 -> RangeOrder) (conv : uint32 -> FloatConv) (cfg : uint32 -> Config) (V A : list uint32)
    (U : Block -> Prop) (rank : bytes -> nat) (s0 : slot) (ss : list slot) :
  cluster_ok cfg V A -> fed_universe U rank -> signs cfg A s0 -> Forall (slot_ok cfg V A) ss ->
  (N.of_nat (length ss) + 1 + maxRoundLead < two64)%N -> blocks_ok order conv cfg A U s0 ss ->
  let ts := trace order conv cfg A s0 ss in
  length ts = S (length ss) /\
  (forall pre c b a older, ts = pre ++ Some c :: Some b :: Some a :: older -> a ∈ (books ts).1) /\
  (V ⊆ A -> exists bs, ts = Some <$> bs /\ (books ts).1 = reverse (drop 2 bs)) /\
  exists w cast ldr, drive order conv cfg A s0 ss = Some (w, cast) /\ ldr ∈ V /\
    (forall i, i ∈ A -> exists c, w !! i = Some c /\ p_currentRound (c_pacemaker c) = N.of_nat (length ts) /\
       l_onCommit (c_ledger c) = (books ts).1 /\ GetLeader (c_leaders c) (N.of_nat (length ts) + 1) = Some ldr) /\
    forall s, slot_ok cfg V A s -> exists w' p, offer order conv cfg A s0 (s :: ss) = Some (w', p) /\
      match p with
      | None => ldr ∉ A
      | Some p => ldr ∈ A /\ exists b, pm_block p = Some b /\
          b_round b = (N.of_nat (length ts) + 1)%N /\ b_author b = ldr /\ b_payload b = sl_txns s
      end.
Proof.
  intros HC HU H0 Hss Hb Hok ts. assert (length ts = S (length ss)) as Hlen by apply length_trace. split; [done|].
  split; [intros pre c b a older ->; apply books_three|]. split.
  { intros Hall. destruct (trace_full order conv cfg V A U rank s0 HC HU H0 ss Hall Hss Hb Hok) as [bs E]. exists bs. unfold ts. by rewrite E, books_full. }
  destruct (drive_rests order conv cfg V A U rank s0 HC HU H0 ss Hss Hb Hok) as (w & cast & E & Hre). fold ts in Hre.
  destruct (rests_leader cfg V A HC U ts w cast Hre) as (ldr & Hld & Hl). exists w, cast, ldr. split; [done|]. split; [done|]. split.
  - intros i Hi. destruct (Hl i Hi) as (c & Hc & Hlc). exists c. split; [done|].
    destruct Hre as (l & bs & st & e & q & k & tcs & [_ _ _ Hn Hbk] & _). destruct (Hn i Hi) as (_ & c' & Hc' & Hat).
    rewrite Hc in Hc'. injection Hc' as <-. split; [apply Hat|]. split; [|done]. by rewrite (ca_ledger _ _ _ _ _ _ _ Hat), Hbk.
  - intros s Hs. destruct (next_outcome order conv cfg V A HC U rank HU s ts w cast ldr Hs Hre) as ([w' p] & En & Ho); [rewrite Hlen; lia|done|].
    exists w', p. split; [cbn [offer]; rewrite E; exact En|]. destruct p as [p|]; [|by destruct Ho].
    destruct Ho as (l & bs & st & e & q & k & tcs & Hpo). destruct Hpo as [_ _ [_ Hal] (tc & sg & -> & _) _ _ _ _].
    split; [done|]. eexists. split; [reflexivity|]. done.
Qed.

(** ** Checking the assumptions of a run *)

Section check.
Context (order : uint32 -> RangeOrder) (conv : uint32 -> FloatConv) (cfg : uint32 -> Config) (A : list uint32).
Context (s0 : slot) (ss : list slot) (rank : bytes -> nat).

(** The proposals of the run, with the states they are made in. *)
Fixpoint offers (ss : list slot) : list (cores * Block) :=
  match (o ← offer order conv cfg A s0 ss; p ← o.2; b ← pm_block p; Some (o.1, b)) with Some x => [x] | None => [] end ++
  match ss with [] => [] | _ :: ss => offers ss end.
Definition run_blocks : list Block := snd <$> offers ss.

Definition descends_check (b : Block) : bool :=
  (rank (parentID b) <? rank (b_id b))%nat &&
  (rank (VoteInfo_GetParentId (QuorumCert_GetVoteInfo (b_qc b))) <? rank (b_id b))%nat.
Definition unique_check (b b' : Block) : bool :=
  bool_decide (b_id b ≠ b_id b') || (bool_decide (parentID b = parentID b') && bool_decide (b_payload b = b_payload b')).
Definition state_check (b : Block) (ic : uint32 * Core) : bool :=
  negb (bool_decide (PendingState (c_ledger ic.2) (parentID b) = Some zeroHash)).

Definition run_check : bool :=
  let os := offers ss in
  let bs := snd <$> os in
  forallb (fun b => descends_check b && forallb (unique_check b) bs) bs &&
  (rank zeroHash <? rank (b_id genesisBlock))%nat &&
  forallb (fun o => forallb (state_check o.2) (map_to_list o.1)) os.

Lemma offers_suffix ss' w p b :
  ss' `suffix_of` ss -> offer order conv cfg A s0 ss' = Some (w, Some p) -> pm_block p = Some b -> (w, b) ∈ offers ss.
Proof.
  intros [pre ->] E Eb. induction pre as [|s pre IH]; [|apply elem_of_app; by right].
  destruct ss' as [|s ss']; cbn [app offers]; rewrite E; cbn [mbind option_bind fst snd]; rewrite Eb; left.
Qed.

Lemma run_check_sound : run_check = true ->
  fed_universe (fun b => b ∈ run_blocks) rank /\ blocks_ok order conv cfg A (fun b => b ∈ run_blocks) s0 ss.
Proof.
  unfold run_check. cbv zeta. fold run_blocks. rewrite !andb_true_iff, !forallb_forall, Nat.ltb_lt. intros [[Hb Hg] Hst].
  assert (forall b, b ∈ run_blocks -> descends_check b = true /\ forall b', b' ∈ run_blocks -> unique_check b b' = true) as Hb'.
  { intros b Hin%list_elem_of_In. specialize (Hb b Hin). apply andb_true_iff in Hb as [Hd Hu]. split; [done|].
    intros b' Hin'%list_elem_of_In. rewrite forallb_forall in Hu. auto. }
  split; [split; [split| |exact Hg]|].
  - intros b b' H1 H2 E. destruct (Hb' b H1) as [_ Hu]. specialize (Hu b' H2). unfold unique_check in Hu.
    apply orb_true_iff in Hu as [Hu%bool_decide_eq_true|Hu]; [done|]. by apply andb_true_iff in Hu as [?%bool_decide_eq_true ?%bool_decide_eq_true].
  - intros b H1. destruct (Hb' b H1) as [Hd _]. unfold descends_check in Hd. apply andb_true_iff in Hd as [Hd%Nat.ltb_lt _]. done.
  - intros b H1. destruct (Hb' b H1) as [Hd _]. unfold descends_check in Hd. apply andb_true_iff in Hd as [_ Hd%Nat.ltb_lt]. done.
  - intros ss' w p b Hsuf E Eb. pose proof (offers_suffix ss' w p b Hsuf E Eb) as Hin.
    split; [apply list_elem_of_fmap; by exists (w, b)|]. intros i c x Hc Hx ->. apply list_elem_of_In in Hin. specialize (Hst _ Hin).
    cbn [fst snd] in Hst. rewrite forallb_forall in Hst. specialize (Hst (i, c)). unfold state_check in Hst. cbn [snd] in Hst.
    rewrite bool_decide_eq_true_2 in Hst by done. discriminate Hst. by apply list_elem_of_In, elem_of_map_to_list.
Qed.
End check.

(** ** Four replicas, one crashed, six rounds *)

Definition four : list uint32 := [1; 2; 3; 4]%N.
(** Replica 2, the leader of rounds 2 and 3, has crashed. *)
Definition alive : list uint32 := [1; 3; 4]%N.
Definition four_cfg (i : uint32) : Config := MkConfig i four NewMemLedger demo_crypto (NewBackoff 1000 8000 (float64_of 2)) 0 0 true.
Definition four_slot (voters : list uint32) (txns : list bytes) : slot :=
  MkSlot voters (fun i => if (i =? 3)%N then reverse voters else voters) txns (fun _ => demo_crypto).
Definition four_start : slot := four_slot [] [[x61]].
(** The latest first. *)
Definition four_slots : list slot :=
  [four_slot [1; 3; 4] [[x65]]; four_slot [4; 3; 1] [[x64]]; four_slot [3; 4; 1] [[x62]; [x63]]; four_slot [4; 1; 3] []; four_slot [3; 1; 4] []]%N.
#[local] Abbreviation four_offers := (offers (fun _ => canonical_range) (fun _ => least_int64) four_cfg alive four_start four_slots).
#[local] Abbreviation four_trace := (trace (fun _ => canonical_range) (fun _ => least_int64) four_cfg alive four_start four_slots).
Definition four_ids : list bytes := Eval vm_compute in zeroHash :: b_id genesisBlock :: reverse ((fun o => b_id o.2) <$> four_offers).
Definition four_rank (id : bytes) : nat := match list_find (fun x => x = id) four_ids with Some (k, _) => S k | None => 0 end.

Lemma four_ok : cluster_ok four_cfg four alive.
Proof.
  split; [by apply (bool_decide_unpack _)|done|by apply (bool_decide_unpack _)|intros i _; by eexists|done..].
Qed.

Lemma four_signs voters txns : signs four_cfg alive (four_slot voters txns).
Proof.
  intros i j d Hi _. exists [x01]. split; [done|]. cbn.
  unfold alive in Hi. rewrite !elem_of_cons, elem_of_nil in Hi. destruct Hi as [->|[->|[->|[]]]]; reflexivity.
Qed.

Lemma four_slots_ok : Forall (slot_ok four_cfg four alive) four_slots.
Proof.
  assert (forall voters, bool_decide (live_quorum four alive voters) = true -> bool_decide (live_quorum four alive (reverse voters)) = true ->
    forall txns, slot_ok four_cfg four alive (four_slot voters txns)) as H.
  { intros voters H1%bool_decide_eq_true H2%bool_decide_eq_true txns. split; [apply four_signs|done|]. intros i _. cbn. by destruct (_ =? _)%N. }
  unfold four_slots. repeat (constructor; [by apply H; vm_compute|]). constructor.
Qed.

(** The block of round 1 is lost with its votes, rounds 2 and 3 are empty, and the block of
    round 4, proposed late, is committed by everyone in round 6. *)
Lemma crash_commits_witness :
  (option_map b_round <$> four_trace) = [Some 6; Some 5; Some 4; None; None; Some 1]%N /\
  exists w cast, drive (fun _ => canonical_range) (fun _ => least_int64) four_cfg alive four_start four_slots = Some (w, cast) /\
    forall i, i ∈ alive -> exists c, w !! i = Some c /\ ((fun b => b_payload b) <$> l_onCommit (c_ledger c)) = [[[x62]; [x63]]].
Proof.
  assert (run_check (fun _ => canonical_range) (fun _ => least_int64) four_cfg alive four_start four_slots four_rank = true) as Hc by (vm_compute; reflexivity).
  destruct (run_check_sound _ _ _ _ _ _ _ Hc) as [HU Hok].
  destruct (crash_commits (fun _ => canonical_range) (fun _ => least_int64) four_cfg four alive _ four_rank four_start four_slots four_ok HU
    (four_signs _ _) four_slots_ok eq_refl Hok) as (_ & _ & _ & w & cast & ldr & E & _ & Hlogs & _).
  assert ((option_map b_round <$> four_trace, (fun b => b_payload b) <$> (books four_trace).1) =
    ([Some 6; Some 5; Some 4; None; None; Some 1]%N, [[[x62]; [x63]]])) as Ht by (vm_compute; reflexivity).
  apply pair_equal_spec in Ht as [Ht1 Ht2]. split; [exact Ht1|]. exists w, cast. split; [exact E|]. intros i Hi.
  destruct (Hlogs i Hi) as (c & Ec & _ & Hl & _). exists c. split; [exact Ec|]. rewrite Hl. exact Ht2.
Defined.
