(* ===== verification/Signer.v ===== *)
(** [crypto/ecdsa.go]: signing and verification with ECDSA over P-256, in low-s
    form. The DER encoding of a signature, which the code takes apart and puts
    together again, is written out as [encoding/asn1] has it for a sequence of two
    integers; the curve arithmetic is a parameter, the class [Ecdsa]. *)

From stdpp Require Import prelude gmap list fin_maps.
From Stdlib Require Import NArith ZArith Lia Strings.Byte.
From S2P Require Import Prelude Sha256 Proto Types Quorum Verify Wire.

(** [elliptic.P256().Params().N]. *)
Definition curveOrder : Z := 0xffffffff00000000ffffffffffffffffbce6faada7179e84f3b9cac2fc632551.
Definition halfOrder : Z := Z.shiftr curveOrder 1.

Record ecdsaSig := MkEcdsaSig { R : Z; S_ : Z }.

(** ** DER *)

(** The content of an INTEGER: two's complement, with as few bytes as hold the
    number and its sign. *)
Definition int_size (z : Z) : nat := N.to_nat (N.size (Z.to_N (if (z <? 0)%Z then - z - 1 else z)) / 8 + 1).
Definition int_content (z : Z) : bytes := be (int_size z) (Z.to_N (z mod 2 ^ (8 * Z.of_nat (int_size z)))).

(** Lengths below 128 take one byte; longer ones as many as they need, after a
    byte that counts them. *)
Definition der_length (n : nat) : bytes :=
  if (n <? 128)%nat then be 1 (N.of_nat n)
  else let k := N.to_nat ((N.size (N.of_nat n) + 7) / 8) in be 1 (128 + N.of_nat k) ++ be k (N.of_nat n).

Definition tlv (tag : byte) (content : bytes) : bytes := tag :: der_length (length content) ++ content.

Definition tagInteger : byte := x02.
Definition tagSequence : byte := x30.

(** [asn1.Marshal] of an [ecdsaSig]. *)
Definition Marshal (sig : ecdsaSig) : bytes :=
  tlv tagSequence (tlv tagInteger (int_content (R sig)) ++ tlv tagInteger (int_content (S_ sig))).

(** The bytes of a long length; at most [2^23] before each shift, no leading
    zero. *)
Fixpoint long_length (k : nat) (acc : N) (b : bytes) : option (N * bytes) :=
  match k with
  | O => Some (acc, b)
  | S k =>
      match b with
      | [] => None
      | x :: b =>
          if (2 ^ 23 <=? acc)%N then None
          else let acc := (acc * 256 + Byte.to_N x)%N in
               if (acc =? 0)%N then None else long_length k acc b
      end
  end.

Definition parse_length (b : bytes) : option (N * bytes) :=
  match b with
  | [] => None
  | x :: b =>
      let v := Byte.to_N x in
      if (v <? 128)%N then Some (v, b)
      else if (v =? 128)%N then None
      else '(n, b) ← long_length (N.to_nat (v - 128)) 0 b;
           if (n <? 128)%N then None else Some (n, b)
  end.

(** A value with the expected tag: its content, and what follows it. *)
Definition parse_tlv (tag : byte) (b : bytes) : option (bytes * bytes) :=
  match b with
  | [] => None
  | t :: b =>
      if negb (bool_decide (t = tag)) then None
      else '(n, b) ← parse_length b;
           if (N.of_nat (length b) <? n)%N then None else Some (take (N.to_nat n) b, drop (N.to_nat n) b)
  end.

(** [checkInteger]: not empty, and without a superfluous leading byte. *)
Definition minimal (b : bytes) : bool :=
  match b with
  | [] => false
  | [_] => true
  | x :: y :: _ =>
      negb ((bool_decide (x = x00) && (Byte.to_N y <? 128)%N) || (bool_decide (x = xff) && (128 <=? Byte.to_N y)%N))
  end.

(** Two's complement. *)
Definition int_value (b : bytes) : Z :=
  let v := Z.of_N (be_val b) in
  if (2 ^ (8 * Z.of_nat (length b) - 1) <=? v)%Z then (v - 2 ^ (8 * Z.of_nat (length b)))%Z else v.

Definition parse_int (b : bytes) : option (Z * bytes) :=
  '(content, rest) ← parse_tlv tagInteger b;
  if minimal content then Some (int_value content, rest) else None.

(** [asn1.Unmarshal] into an [ecdsaSig]: the signature and the bytes after it.
    Bytes after the two integers, inside the sequence, are allowed. *)
Definition Unmarshal (b : bytes) : option (ecdsaSig * bytes) :=
  '(inner, rest) ← parse_tlv tagSequence b;
  '(r, inner) ← parse_int inner;
  '(s, _) ← parse_int inner;
  Some (MkEcdsaSig r s, rest).

(** ** The signer *)

(** [crypto/ecdsa]: keys, randomised signing, verification. *)
Class Ecdsa := {
  PrivateKey : Type;
  PublicKey : Type;
  Public : PrivateKey -> PublicKey;
  SignASN1 : bytes -> PrivateKey -> bytes -> option bytes;
  VerifyASN1 : PublicKey -> bytes -> bytes -> bool;
}.

Section signer.
Context `{Ecdsa}.

Record Signer := MkSigner { sn_key : PrivateKey; sn_keys : gmap uint32 PublicKey }.

Definition NewSigner (key : PrivateKey) (keys : gmap uint32 PublicKey) : Signer := MkSigner key keys.

(** [rand] is the randomness [rand.Reader] supplies. *)
Definition SignerSign (s : Signer) (rand : bytes) (dig : bytes) : option bytes :=
  der ← SignASN1 rand (sn_key s) dig;
  '(sig, _) ← Unmarshal der;
  if (S_ sig <=? halfOrder)%Z then Some der
  else Some (Marshal (MkEcdsaSig (R sig) (curveOrder - S_ sig))).

Definition SignerVerify (s : Signer) (signer : uint32) (dig sig : bytes) : bool :=
  match sn_keys s !! signer with
  | None => false
  | Some pub =>
      match Unmarshal sig with
      | None => false
      | Some (rs, _) => if (halfOrder <? S_ rs)%Z then false else VerifyASN1 pub dig sig
      end
  end.

(** The implementation of the interface [diem.Crypto]. *)
Definition signer_crypto (s : Signer) (rand : bytes) : Crypto := MkCrypto (SignerSign s rand) (SignerVerify s).
End signer.

(** ** The encoding round trip *)

Lemma parse_length_short n b : (n < 128)%nat -> parse_length (der_length n ++ b) = Some (N.of_nat n, b).
Proof.
  intros Hn. unfold der_length. destruct (Nat.ltb_spec n 128); [|lia]. unfold be. simpl.
  rewrite to_N_byte_of, N.mod_small by lia. by destruct (N.ltb_spec (N.of_nat n) 128); [|lia].
Qed.

Lemma parse_tlv_tlv tag c rest : (length c < 128)%nat -> parse_tlv tag (tlv tag c ++ rest) = Some (c, rest).
Proof.
  intros Hc. unfold tlv, parse_tlv. rewrite <- app_comm_cons, <- app_assoc. rewrite bool_decide_eq_true_2 by done. simpl.
  rewrite parse_length_short by done. simpl. rewrite length_app, Nat2N.id.
  destruct (N.ltb_spec (N.of_nat (length c + length rest)) (N.of_nat (length c))); [lia|].
  by rewrite take_app_length, drop_app_length.
Qed.

(** The size of a positive number is enough for it and its sign, and no more. *)
Lemma int_size_bounds z :
  (0 <= z)%Z ->
  (z < 2 ^ (8 * Z.of_nat (int_size z) - 1))%Z /\ ((2 <= int_size z)%nat -> 2 ^ (8 * (Z.of_nat (int_size z) - 1) - 1) <= z)%Z.
Proof.
  intros Hz. assert (exists n, z = Z.of_N n) as [n ->] by (exists (Z.to_N z); lia).
  unfold int_size. destruct (Z.ltb_spec (Z.of_N n) 0); [lia|]. rewrite N2Z.id.
  pose proof (N.size_gt n) as Hgt. pose proof (N.size_le n) as Hle.
  set (s := N.size n) in *. pose proof (N.div_mod' s 8) as Hd. pose proof (N.mod_lt s 8 ltac:(lia)) as Hm.
  set (m := (s mod 8)%N) in *. clearbody m. set (q := (s / 8)%N) in *. assert (Z.of_nat (N.to_nat (q + 1)) = Z.of_N q + 1)%Z as -> by lia. split.
  - apply N2Z.inj_lt in Hgt. rewrite N2Z.inj_pow in Hgt. eapply Z.lt_le_trans; [exact Hgt|].
    apply Z.pow_le_mono_r; lia.
  - intros Hq. assert (8 * q <= s /\ 8 <= s)%N as [Hqs Hs8] by (clear -Hd Hm Hq; clearbody q s; lia).
    rewrite N.succ_double_spec in Hle.
    apply N2Z.inj_le in Hle. rewrite N2Z.inj_pow in Hle.
    assert (2 ^ Z.of_N s = 2 * 2 ^ (Z.of_N s - 1))%Z as Hp.
    { rewrite <- Z.pow_succ_r by (clear -Hs8; lia). f_equal. lia. }
    assert (2 ^ (8 * (Z.of_N q + 1 - 1) - 1) <= 2 ^ (Z.of_N s - 1))%Z by (apply Z.pow_le_mono_r; lia). lia.
Qed.

Lemma int_size_pos z : (0 < int_size z)%nat.
Proof. unfold int_size. rewrite N2Nat.inj_add. apply Nat.add_pos_r. by apply Nat.ltb_lt. Qed.

Lemma be_val_int_content z : (0 <= z)%Z -> Z.of_N (be_val (int_content z)) = z.
Proof.
  intros Hz. destruct (int_size_bounds z Hz) as [Hlt _]. unfold int_content. rewrite be_val_be.
  pose proof (int_size_pos z).
  assert (z < 2 ^ (8 * Z.of_nat (int_size z)))%Z as Hlt'.
  { eapply Z.lt_le_trans; [exact Hlt|]. apply Z.pow_le_mono_r; lia. }
  rewrite Z.mod_small by lia. rewrite N.mod_small; [lia|]. apply N2Z.inj_lt. rewrite N2Z.inj_pow, Z2N.id by lia.
  change (Z.of_N 256) with (2 ^ 8)%Z. rewrite <- Z.pow_mul_r by lia. by rewrite nat_N_Z.
Qed.

Lemma int_value_content z : (0 <= z)%Z -> int_value (int_content z) = z.
Proof.
  intros Hz. unfold int_value. rewrite be_val_int_content by done. destruct (int_size_bounds z Hz) as [Hlt _].
  unfold int_content. rewrite length_be. by destruct (Z.leb_spec (2 ^ (8 * Z.of_nat (int_size z) - 1)) z); [lia|].
Qed.

Lemma pow256 k : Z.of_N (256 ^ N.of_nat k) = (2 ^ (8 * Z.of_nat k))%Z.
Proof. rewrite N2Z.inj_pow, nat_N_Z. change (Z.of_N 256) with (2 ^ 8)%Z. by rewrite <- Z.pow_mul_r by lia. Qed.

Lemma minimal_content z : (0 <= z)%Z -> minimal (int_content z) = true.
Proof.
  intros Hz. destruct (int_size_bounds z Hz) as [Hlt Hge].
  assert (length (int_content z) = int_size z) as Hlen by apply length_be.
  pose proof (be_val_int_content z Hz) as Hv. destruct (int_content z) as [|x [|y rest]]; simpl in Hlen.
  { pose proof (int_size_pos z). lia. }
  { done. }
  specialize (Hge ltac:(lia)). rewrite !be_val_cons in Hv. cbn [length] in Hv.
  pose proof (be_val_lt rest) as Hr. pose proof (to_N_lt x). pose proof (to_N_lt y).
  set (k := length rest) in *. assert (Z.of_nat (int_size z) = Z.of_nat k + 2)%Z as Hk by lia. rewrite Hk in *.
  assert (2 ^ (8 * (Z.of_nat k + 2 - 1) - 1) = 128 * 2 ^ (8 * Z.of_nat k))%Z as E1.
  { change 128%Z with (2 ^ 7)%Z. rewrite <- Z.pow_add_r by lia. f_equal. lia. }
  assert (2 ^ (8 * (Z.of_nat k + 2) - 1) = 128 * 256 * 2 ^ (8 * Z.of_nat k))%Z as E2.
  { change (128 * 256)%Z with (2 ^ 15)%Z. rewrite <- Z.pow_add_r by lia. f_equal. lia. }
  assert (Z.of_N (256 ^ N.of_nat (S k)) = 256 * 2 ^ (8 * Z.of_nat k))%Z as E3.
  { rewrite pow256. change 256%Z with (2 ^ 8)%Z at 1. rewrite <- Z.pow_add_r by lia. f_equal. lia. }
  apply N2Z.inj_lt in Hr. rewrite pow256 in Hr. rewrite !N2Z.inj_add, !N2Z.inj_mul, E3, pow256 in Hv. rewrite E1 in Hge. rewrite E2 in Hlt.
  set (p := (2 ^ (8 * Z.of_nat k))%Z) in *. assert (0 < p)%Z by (apply Z.pow_pos_nonneg; lia). clearbody p.
  cbn [minimal]. apply negb_true_iff, orb_false_iff. split; apply andb_false_iff.
  - destruct (decide (x = x00)) as [->|]; [right|left; by apply bool_decide_eq_false_2].
    apply N.ltb_ge. cbn [Byte.to_N] in *. nia.
  - left. apply bool_decide_eq_false_2. intros ->. cbn [Byte.to_N] in *. nia.
Qed.

Lemma length_int_content z : (0 <= z < 2 ^ 256)%Z -> (length (int_content z) <= 33)%nat.
Proof.
  intros Hz. unfold int_content. rewrite length_be. unfold int_size. destruct (Z.ltb_spec z 0); [lia|].
  assert (N.size (Z.to_N z) <= 256)%N as Hs.
  { destruct (decide (z = 0%Z)) as [->|]; [done|]. rewrite N.size_log2 by lia.
    apply N.le_succ_l, N.log2_lt_pow2; [lia|]. apply N2Z.inj_lt. rewrite Z2N.id by lia. exact (proj2 Hz). }
  assert (N.size (Z.to_N z) / 8 <= 256 / 8)%N by (apply N.Div0.div_le_mono; lia). change (256 / 8)%N with 32%N in *. lia.
Qed.

Lemma parse_int_content z rest :
  (0 <= z < 2 ^ 256)%Z -> parse_int (tlv tagInteger (int_content z) ++ rest) = Some (z, rest).
Proof.
  intros Hz. pose proof (length_int_content z Hz). unfold parse_int. rewrite parse_tlv_tlv by lia. simpl.
  by rewrite minimal_content, int_value_content by lia.
Qed.

Lemma Unmarshal_Marshal r s rest :
  (0 <= r < 2 ^ 256)%Z -> (0 <= s < 2 ^ 256)%Z ->
  Unmarshal (Marshal (MkEcdsaSig r s) ++ rest) = Some (MkEcdsaSig r s, rest).
Proof.
  intros Hr Hs. pose proof (length_int_content r Hr). pose proof (length_int_content s Hs).
  unfold Marshal, Unmarshal. cbn [R S_]. rewrite parse_tlv_tlv.
  - cbn [mbind option_bind]. rewrite parse_int_content by done. cbn [mbind option_bind].
    pose proof (parse_int_content s [] Hs) as E. rewrite app_nil_r in E. by rewrite E.
  - unfold tlv, der_length. destruct (Nat.ltb_spec (length (int_content r)) 128); [|lia].
    destruct (Nat.ltb_spec (length (int_content s)) 128); [|lia].
    rewrite length_app. cbn [length]. rewrite !length_app, !length_be. lia.
Qed.

(** ** What ECDSA provides

    A signature is the DER encoding of two numbers below the order of the curve;
    what the holder of a key signs verifies under the public key; and [(r, N-s)]
    verifies where [(r, s)] does. *)
Class EcdsaLaws `{Ecdsa} : Prop := {
  el_sign : forall rand k d der, SignASN1 rand k d = Some der ->
    exists r s, der = Marshal (MkEcdsaSig r s) /\ (0 < r < curveOrder)%Z /\ (0 < s < curveOrder)%Z /\
      VerifyASN1 (Public k) d der = true;
  el_negate : forall pk d r s, (0 < r < curveOrder)%Z -> (0 < s < curveOrder)%Z ->
    VerifyASN1 pk d (Marshal (MkEcdsaSig r (curveOrder - s))) = VerifyASN1 pk d (Marshal (MkEcdsaSig r s));
  el_der : forall pk d sig, VerifyASN1 pk d sig = true ->
    exists r s, sig = Marshal (MkEcdsaSig r s) /\ (0 < r < curveOrder)%Z /\ (0 < s < curveOrder)%Z;
}.

Lemma curveOrder_256 : (curveOrder < 2 ^ 256)%Z.
Proof. vm_compute. reflexivity. Qed.

Lemma halfOrder_spec s : (halfOrder < s)%Z -> (curveOrder - s <= halfOrder)%Z.
Proof. intros Hs. assert (curveOrder = 2 * halfOrder + 1)%Z as -> by (vm_compute; reflexivity). lia. Qed.

(** The numbers of a signature within the order are read back. *)
Lemma Unmarshal_sig r s :
  (0 < r < curveOrder)%Z -> (0 < s < curveOrder)%Z ->
  Unmarshal (Marshal (MkEcdsaSig r s)) = Some (MkEcdsaSig r s, []).
Proof.
  intros Hr Hs. pose proof curveOrder_256. rewrite <- (app_nil_r (Marshal _)).
  apply Unmarshal_Marshal; lia.
Qed.

Section signer_laws.
Context `{EcdsaLaws}.

(** What [Sign] returns: a signature that verifies, in low-s form. *)
Lemma SignerSign_low s rand d sig :
  SignerSign s rand d = Some sig ->
  exists r v, sig = Marshal (MkEcdsaSig r v) /\ (0 < r < curveOrder)%Z /\ (0 < v < curveOrder)%Z /\ (v <= halfOrder)%Z /\
    VerifyASN1 (Public (sn_key s)) d sig = true.
Proof.
  unfold SignerSign. intros (der & Hd & E)%bind_Some.
  destruct (el_sign _ _ _ _ Hd) as (r & v & -> & Hr & Hv & Hok). rewrite Unmarshal_sig in E by done.
  cbn [mbind option_bind S_ R] in E. destruct (Z.leb_spec v halfOrder) as [Hl|Hg]; apply (inj Some) in E as <-.
  - exists r, v. done.
  - pose proof (halfOrder_spec v Hg). exists r, (curveOrder - v)%Z. split_and!; try done; try lia. by rewrite el_negate.
Qed.

Lemma SignerVerify_low s i d sig :
  SignerVerify s i d sig = true ->
  exists r v, sig = Marshal (MkEcdsaSig r v) /\ (0 < r < curveOrder)%Z /\ (0 < v <= halfOrder)%Z.
Proof.
  unfold SignerVerify. destruct (sn_keys s !! i) as [pk|]; [|done]. destruct (Unmarshal sig) as [[rs rest]|] eqn:Eu; [|done].
  destruct (Z.ltb_spec halfOrder (S_ rs)); [done|]. intros (r & v & -> & Hr & Hv)%el_der.
  rewrite Unmarshal_sig in Eu by done. apply (inj Some) in Eu. injection Eu as <- _. exists r, v. cbn [S_] in *. split_and!; try done; lia.
Qed.

(** What a replica signs verifies under its id at every replica with the same keys. *)
Lemma signer_signs_as s peer id rand quorum :
  sn_keys s !! id = Some (Public (sn_key s)) ->
  signs_as (NewVerifier (signer_crypto (MkSigner peer (sn_keys s)) []) quorum) id (signer_crypto s rand).
Proof.
  intros Hid d sig (r & v & -> & Hr & Hv & Hl & Hok)%SignerSign_low. cbn [v_crypto Verify signer_crypto].
  unfold SignerVerify. cbn [sn_keys]. rewrite Hid, Unmarshal_sig by done. cbn [S_].
  by destruct (Z.ltb_spec halfOrder v); [lia|].
Qed.
End signer_laws.

(** C21. The signer keeps what the protocol asks of [Crypto]. With a replica's
    public key registered under its id, whatever it signs verifies under that id,
    at every replica with the same keys; signing fails only when ECDSA itself does;
    a signature is always in low-s form, also when ECDSA returned the other one;
    and nothing verifies for an id without a key. *)
Theorem signer_correct `{EcdsaLaws} (s : Signer) (peer : PrivateKey) (id : uint32) (rand : bytes) (quorum : Z) :
  sn_keys s !! id = Some (Public (sn_key s)) ->
  signs_as (NewVerifier (signer_crypto (MkSigner peer (sn_keys s)) []) quorum) id (signer_crypto s rand) /\
  (forall d, is_Some (SignASN1 rand (sn_key s) d) -> is_Some (SignerSign s rand d)) /\
  (forall d sig, SignerSign s rand d = Some sig ->
     exists rs, Unmarshal sig = Some (rs, []) /\ (0 < S_ rs <= halfOrder)%Z) /\
  (forall i d sig, sn_keys s !! i = None -> SignerVerify s i d sig = false).
Proof.
  intros Hid. split_and!.
  - by apply signer_signs_as.
  - intros d [der Hd]. unfold SignerSign. rewrite Hd. destruct (el_sign _ _ _ _ Hd) as (r & v & -> & Hr & Hv & _).
    cbn [mbind option_bind]. rewrite Unmarshal_sig by done. cbn [mbind option_bind]. destruct (_ <=? _)%Z; eauto.
  - intros d sig (r & v & -> & Hr & Hv & Hl & _)%SignerSign_low. exists (MkEcdsaSig r v). rewrite Unmarshal_sig by done.
    split; [done|]. cbn [S_]. lia.
  - intros i d sig Hi. unfold SignerVerify. by rewrite Hi.
Qed.

(** C22. A signature has one wire form. Of the encodings that carry the same [r]
    and either of the two [s] that ECDSA accepts for it, only one is ever accepted,
    under whatever key and digest; so the signatures of a certificate, which a block
    id hashes byte for byte, cannot be rewritten into others. *)
Theorem one_wire_form `{EcdsaLaws} (s : Signer) (i i' : uint32) (d d' sig sig' : bytes) (rs rs' : ecdsaSig) rest rest' :
  SignerVerify s i d sig = true -> SignerVerify s i' d' sig' = true ->
  Unmarshal sig = Some (rs, rest) -> Unmarshal sig' = Some (rs', rest') ->
  R rs' = R rs -> (S_ rs' = S_ rs \/ S_ rs' = curveOrder - S_ rs)%Z -> sig' = sig.
Proof.
  intros (r & v & -> & Hr & Hv)%SignerVerify_low (r' & v' & -> & Hr' & Hv')%SignerVerify_low Hu Hu' Er Es.
  assert (halfOrder < curveOrder)%Z by (vm_compute; reflexivity).
  rewrite Unmarshal_sig in Hu, Hu' by lia. apply (inj Some) in Hu, Hu'. injection Hu as <- _. injection Hu' as <- _.
  cbn [R S_] in *. subst r'. assert (v' = v) as ->; [|done].
  destruct Es as [->| ->]; [done|]. assert (curveOrder = 2 * halfOrder + 1)%Z by (vm_compute; reflexivity). lia.
Qed.

(** The encoding of a signature is read back, whatever follows it. *)
Theorem signature_roundtrip (r s : Z) (rest : bytes) :
  (0 <= r < 2 ^ 256)%Z -> (0 <= s < 2 ^ 256)%Z ->
  Unmarshal (Marshal (MkEcdsaSig r s) ++ rest) = Some (MkEcdsaSig r s, rest).
Proof. apply Unmarshal_Marshal. Qed.

(** ** A toy curve

    The digest is the secret: signatures are [(1, h)] and [(1, N-h)] with [h] read
    off the digest and the key. *)
Definition toy_h (k : N) (d : bytes) : Z := ((Z.of_N (be_val d + k)) mod (curveOrder - 1) + 1)%Z.
#[export] Instance toy_ecdsa : Ecdsa := {|
  PrivateKey := N;
  PublicKey := N;
  Public := fun k => k;
  SignASN1 := fun rand k d =>
    Some (Marshal (MkEcdsaSig 1 (if bool_decide (rand = []) then toy_h k d else curveOrder - toy_h k d)));
  VerifyASN1 := fun k d sig =>
    bool_decide (sig = Marshal (MkEcdsaSig 1 (toy_h k d))) || bool_decide (sig = Marshal (MkEcdsaSig 1 (curveOrder - toy_h k d)));
|}.

Lemma toy_h_range k d : (0 < toy_h k d < curveOrder)%Z.
Proof.
  unfold toy_h. pose proof (Z.mod_pos_bound (Z.of_N (be_val d + k)) (curveOrder - 1)).
  assert (1 < curveOrder)%Z by (vm_compute; reflexivity). lia.
Qed.

Lemma Marshal_inj r s r' s' :
  (0 < r < curveOrder)%Z -> (0 < s < curveOrder)%Z -> (0 < r' < curveOrder)%Z -> (0 < s' < curveOrder)%Z ->
  Marshal (MkEcdsaSig r s) = Marshal (MkEcdsaSig r' s') -> r = r' /\ s = s'.
Proof.
  intros Hr Hs Hr' Hs' E. apply (f_equal Unmarshal) in E. rewrite !Unmarshal_sig in E by done.
  apply (inj Some) in E. by injection E as -> ->.
Qed.

#[export] Instance toy_laws : EcdsaLaws.
Proof.
  assert (0 < 1 < curveOrder)%Z as H1 by (split; vm_compute; reflexivity).
  split.
  - intros rand k d der E. apply (inj Some) in E as <-. pose proof (toy_h_range k d). eexists 1%Z, _. split; [reflexivity|].
    split; [done|]. split; [case_bool_decide; lia|]. cbn [VerifyASN1 toy_ecdsa Public].
    apply orb_true_iff. destruct (bool_decide (rand = [])); [left|right]; by apply bool_decide_eq_true_2.
  - intros k d r s Hr Hs. cbn [VerifyASN1 toy_ecdsa]. pose proof (toy_h_range k d). apply eq_true_iff_eq.
    rewrite !orb_true_iff, !bool_decide_eq_true.
    split; intros [E|E]; (apply Marshal_inj in E as [Er Es]; [subst r|try done; lia..]); [right|left|right|left]; do 2 f_equal; lia.
  - intros k d sig E. cbn [VerifyASN1 toy_ecdsa] in E. pose proof (toy_h_range k d). apply orb_true_iff in E as [E|E]; bools; subst.
    + by exists 1%Z, (toy_h k d).
    + exists 1%Z, (curveOrder - toy_h k d)%Z. split_and!; try done; lia.
Qed.

Definition toy_signer : Signer := MkSigner 5%N {[2%N := 5%N; 3%N := 9%N]}.

Lemma signer_correct_witness :
  exists sig, SignerSign toy_signer [x01] [x07] = Some sig /\ SignerVerify (MkSigner 9%N (sn_keys toy_signer)) 2 [x07] sig = true.
Proof.
  destruct (signer_correct toy_signer 9%N 2 [x01] 3) as (H1 & H2 & _); [reflexivity|].
  destruct (H2 [x07]) as [sig Hs]; [eexists; reflexivity|]. exists sig. split; [exact Hs|exact (H1 [x07] sig Hs)].
Defined.

Lemma one_wire_form_witness :
  exists sig rs, SignerSign toy_signer [x01] [x07] = Some sig /\ Unmarshal sig = Some (rs, []) /\
    forall sig' rs' rest', SignerVerify toy_signer 2 [x07] sig' = true -> Unmarshal sig' = Some (rs', rest') ->
      R rs' = R rs -> (S_ rs' = curveOrder - S_ rs)%Z -> sig' = sig.
Proof.
  set (sig := Marshal (MkEcdsaSig 1 13)).
  assert (SignerSign toy_signer [x01] [x07] = Some sig) as Es by (vm_compute; reflexivity).
  assert (Unmarshal sig = Some (MkEcdsaSig 1 13, [])) as Eu by (vm_compute; reflexivity).
  assert (SignerVerify toy_signer 2 [x07] sig = true) as Ev by (vm_compute; reflexivity).
  exists sig, (MkEcdsaSig 1 13). split; [exact Es|]. split; [exact Eu|]. intros sig' rs' rest' Hv Hu Hr Hs.
  exact (one_wire_form toy_signer 2 2 [x07] [x07] sig sig' (MkEcdsaSig 1 13) rs' [] rest' Ev Hv Eu Hu Hr (or_intror Hs)).
Defined.

Lemma signature_roundtrip_witness :
  Unmarshal (Marshal (MkEcdsaSig 128 (curveOrder - 1)) ++ [x00]) = Some (MkEcdsaSig 128 (curveOrder - 1), [x00]).
Proof. apply (signature_roundtrip 128 (curveOrder - 1) [x00]); split; vm_compute; (discriminate || reflexivity). Defined.

(** ** Key sets *)

Section keys.
Context `{Ecdsa}.

(** Both loops run [i] from 1 to [n] and stop at the first error; the id is
    [uint32(i)]. [gen i] makes the key of replica [i]. *)
Fixpoint keys_loop (gen : uint32 -> option PrivateKey) (k : nat) (i : N)
    (privs : gmap uint32 PrivateKey) (pubs : gmap uint32 PublicKey)
    : option (gmap uint32 PrivateKey * gmap uint32 PublicKey) :=
  match k with
  | O => Some (privs, pubs)
  | S k =>
      let id := (i mod two32)%N in
      key ← gen id;
      keys_loop gen k (i + 1)%N (<[id := key]> privs) (<[id := Public key]> pubs)
  end.

(** [GenerateKey] is [ecdsa.GenerateKey] with the randomness of its call. *)
Definition GenerateKeys (GenerateKey : uint32 -> option PrivateKey) (n : Z) :=
  keys_loop GenerateKey (Z.to_nat n) 1 ∅ ∅.

(** [parse] is [ecdsa.ParseRawPrivateKey] on P-256. *)
Fixpoint seeded_loop (parse : bytes -> option PrivateKey) (id : uint32) (k : nat) (ctr : uint32) : option PrivateKey :=
  match k with
  | O => None
  | S k =>
      match parse (sha256 (be32 id ++ be32 ctr)) with
      | Some key => Some key
      | None => seeded_loop parse id k (ctr + 1)%N
      end
  end.
Definition seededKey (parse : bytes -> option PrivateKey) (id : uint32) : option PrivateKey := seeded_loop parse id 16 0.

Definition SeededKeys (parse : bytes -> option PrivateKey) (n : Z) :=
  keys_loop (seededKey parse) (Z.to_nat n) 1 ∅ ∅.

(** A key set of [n] replicas: ids 1 to n, and the public keys are those of the
    private ones. *)
Definition key_set (n : N) (privs : gmap uint32 PrivateKey) (pubs : gmap uint32 PublicKey) : Prop :=
  (forall id, is_Some (privs !! id) <-> (1 <= id <= n)%N) /\ pubs = Public <$> privs.

Lemma keys_loop_set gen k i privs pubs privs' pubs' :
  keys_loop gen k (i + 1) privs pubs = Some (privs', pubs') -> (i + N.of_nat k < two32)%N ->
  key_set i privs pubs -> key_set (i + N.of_nat k) privs' pubs' /\
  (forall id key, privs' !! id = Some key -> privs !! id = Some key \/ gen id = Some key).
Proof.
  revert i privs pubs. induction k as [|k IH]; intros i privs pubs; cbn [keys_loop].
  { intros [= <- <-] _ Hs. rewrite N.add_0_r. split; [done|by left]. }
  intros (key & Hk & E)%bind_Some Hlt [Hdom Hpub]. rewrite N.mod_small in E, Hk by lia.
  destruct (IH _ _ _ E) as [Hs Hg]; [lia| |].
  - split; [|subst pubs; by rewrite fmap_insert]. intros id. destruct (decide (id = i + 1)%N) as [->|Hne].
    + rewrite lookup_insert_eq. split; [lia|by eexists].
    + rewrite lookup_insert_ne by done. rewrite Hdom. lia.
  - split; [by replace (i + N.of_nat (S k))%N with (i + 1 + N.of_nat k)%N by lia|].
    intros id key' Hid. destruct (Hg id key' Hid) as [Hi|]; [|by right].
    apply lookup_insert_Some in Hi as [[<- <-]|[_ ?]]; [by right|by left].
Qed.
End keys.

(** Both ways to make keys give every replica 1 to n one key pair, and the
    seeded ones are a function of the id alone, so that every process that computes
    them computes the same set. *)
Theorem made_keys `{Ecdsa} (gen : uint32 -> option PrivateKey) (parse : bytes -> option PrivateKey) (n : N)
    (privs privs' : gmap uint32 PrivateKey) (pubs pubs' : gmap uint32 PublicKey) :
  (n < two32)%N -> GenerateKeys gen (Z.of_N n) = Some (privs, pubs) -> SeededKeys parse (Z.of_N n) = Some (privs', pubs') ->
  key_set n privs pubs /\ key_set n privs' pubs' /\
  (forall id key, privs' !! id = Some key ->
     exists ctr, (ctr < 16)%N /\ parse (sha256 (be32 id ++ be32 ctr)) = Some key /\
       forall c, (c < ctr)%N -> parse (sha256 (be32 id ++ be32 c)) = None).
Proof.
  intros Hn E E'. assert (key_set (H := H) 0 ∅ ∅) as H0.
  { split; [|by rewrite fmap_empty]. intros id. rewrite lookup_empty. split; [by intros [? ?]|lia]. }
  unfold GenerateKeys, SeededKeys in *. rewrite <- (N2Z.id n) in Hn.
  apply (keys_loop_set gen _ 0) in E as [H1 _]; [|lia|done]. apply (keys_loop_set (seededKey parse) _ 0) in E' as [H2 Hg]; [|lia|done].
  replace (0 + N.of_nat (Z.to_nat (Z.of_N n)))%N with n in * by lia. split; [done|]. split; [done|].
  intros id key Hk. destruct (Hg id key Hk) as [?|Hs]; [by rewrite lookup_empty in *|].
  assert (forall k c, seeded_loop parse id k c = Some key -> exists ctr, (c <= ctr < c + N.of_nat k)%N /\
    parse (sha256 (be32 id ++ be32 ctr)) = Some key /\
    forall c', (c <= c' < ctr)%N -> parse (sha256 (be32 id ++ be32 c')) = None) as Hloop.
  { induction k as [|k IH]; intros c; cbn [seeded_loop]; [done|]. destruct (parse (sha256 (be32 id ++ be32 c))) as [key'|] eqn:Ep.
    - intros [= ->]. exists c. split; [lia|]. split; [done|]. lia.
    - intros (ctr & Hc & Hp & Hl)%IH. exists ctr. split; [lia|]. split; [done|]. intros c' Hc'.
      destruct (decide (c' = c)) as [->|]; [done|]. apply Hl. lia. }
  destruct (Hloop 16 0%N Hs) as (ctr & Hc & Hp & Hl). exists ctr. split; [lia|]. split; [done|]. intros c Hlt. apply Hl. lia.
Qed.
