(* ===== verification/Keys.v ===== *)
(** [crypto/keys.go]: key pairs as PEM files in one directory. The directory is a
    map from names to contents; [crypto/x509] and [encoding/pem] are a parameter,
    the class [Pem]; whether the operating system lets a file be written or read,
    and what a failed write leaves of it, is decided by oracles. *)

From stdpp Require Import prelude gmap list fin_maps sorting.
From Stdlib Require Import NArith ZArith Lia Strings.Byte.
From S2P Require Import Prelude Signer.

(** ** Decimal file names *)

(** [fmt.Sprintf] with [%d]. *)
Definition digit (n : N) : byte := byte_of (48 + n).
Fixpoint format_fuel (fuel : nat) (n : N) : bytes :=
  match fuel with
  | O => []
  | S fuel => (if (n <? 10)%N then [] else format_fuel fuel (n / 10)) ++ [digit (n mod 10)]
  end.
Definition format (n : N) : bytes := format_fuel (S (N.to_nat (N.size n))) n.

(** [strconv.ParseUint] in base 10 for 32 bits: digits only, at least one, and a
    value that fits. *)
Definition digit_value (b : byte) : option N :=
  let v := Byte.to_N b in if ((48 <=? v) && (v <=? 57))%N then Some (v - 48)%N else None.
Fixpoint digits_value (acc : N) (s : bytes) : option N :=
  match s with
  | [] => Some acc
  | b :: s => d ← digit_value b; digits_value (acc * 10 + d)%N s
  end.
Definition ParseUint (s : bytes) : option uint32 :=
  if bool_decide (s = []) then None
  else n ← digits_value 0 s; if (n <? two32)%N then Some n else None.

Lemma digit_value_digit n : (n < 10)%N -> digit_value (digit n) = Some n.
Proof.
  intros Hn. unfold digit_value, digit. rewrite to_N_byte_of, N.mod_small by lia.
  destruct (N.leb_spec 48 (48 + n)); [|lia]. destruct (N.leb_spec (48 + n) 57); [|lia]. cbn [andb]. f_equal. lia.
Qed.

Lemma digits_value_app acc s t : digits_value acc (s ++ t) = (n ← digits_value acc s; digits_value n t).
Proof. revert acc. induction s as [|b s IH]; intros acc; [done|]. simpl. destruct (digit_value b); simpl; auto. Qed.

Lemma format_fuel_value fuel n : (N.size n < N.of_nat fuel)%N -> digits_value 0 (format_fuel fuel n) = Some n.
Proof.
  revert n. induction fuel as [|fuel IH]; intros n Hn; [lia|]. cbn [format_fuel]. rewrite digits_value_app.
  assert (n mod 10 < 10)%N as Hm by (apply N.mod_lt; lia). pose proof (N.div_mod' n 10) as Hd.
  set (q := (n / 10)%N) in *. set (m := (n mod 10)%N) in *. clearbody m.
  assert (digits_value 0 (if (n <? 10)%N then [] else format_fuel fuel q) = Some q) as ->.
  { destruct (N.ltb_spec n 10) as [Hlt|Hge]; [simpl; f_equal; symmetry; by apply N.div_small|]. apply IH.
    destruct (decide (q = 0%N)) as [->|Hq]; [done || (simpl; lia)|]. rewrite N.size_log2 in * by lia.
    assert (N.log2 q < N.log2 n)%N; [|lia]. apply N.log2_lt_pow2; [lia|].
    pose proof (N.log2_spec n ltac:(lia)) as [_ Hs]. rewrite N.pow_succ_r' in Hs. lia. }
  simpl. rewrite digit_value_digit by done. simpl. f_equal. lia.
Qed.

Lemma format_nonempty n : format n ≠ [].
Proof. unfold format. cbn [format_fuel]. intros E. by apply app_eq_nil in E as [_ ?]. Qed.

Lemma ParseUint_format n : (n < two32)%N -> ParseUint (format n) = Some n.
Proof.
  intros Hn. unfold ParseUint. rewrite bool_decide_eq_false_2 by apply format_nonempty.
  unfold format. rewrite format_fuel_value by lia. simpl. by destruct (N.ltb_spec n two32); [|lia].
Qed.

(** ** Files *)

Definition suffix_pub : bytes := [x2e; x70; x75; x62].
Definition suffix_key : bytes := [x2e; x6b; x65; x79].

Definition ends_with (suffix name : bytes) : bool :=
  bool_decide (drop (length name - length suffix) name = suffix) && (length suffix <=? length name)%nat.

(** The byte order of strings. *)
Fixpoint bytes_leb (s t : bytes) : bool :=
  match s, t with
  | [], _ => true
  | _ :: _, [] => false
  | a :: s, b :: t => (Byte.to_N a <? Byte.to_N b)%N || ((Byte.to_N a =? Byte.to_N b)%N && bytes_leb s t)
  end.
Definition bytes_le (s t : bytes) : Prop := bytes_leb s t = true.
#[export] Instance bytes_le_dec s t : Decision (bytes_le s t).
Proof. unfold bytes_le. apply _. Defined.

Abbreviation directory := (gmap bytes bytes).

(** [filepath.Glob] with [*.pub]: the matching names, sorted. *)
Definition glob_pub (fs : directory) : list bytes :=
  merge_sort bytes_le (filter (fun name => ends_with suffix_pub name = true) (map_to_list fs).*1).

(** ** PEM and X.509 *)

Class Pem `{Ecdsa} := {
  MarshalECPrivateKey : PrivateKey -> option bytes;
  ParseECPrivateKey : bytes -> option PrivateKey;
  MarshalPKIXPublicKey : PublicKey -> option bytes;
  (** [Some None] is a public key of another kind. *)
  ParsePKIXPublicKey : bytes -> option (option PublicKey);
  EncodePEM : bytes -> bytes -> bytes;
  DecodePEM : bytes -> option (bytes * bytes);
}.

Inductive key_error :=
  | ErrMkdir
  | ErrFile (name : bytes)
  | ErrNotPEM (name : bytes)
  | ErrPrivateKey (id : uint32)
  | ErrPublicKey (id : uint32)
  | ErrName (base : bytes)
  | ErrParse (base : bytes)
  | ErrNotECDSA (base : bytes)
  | ErrNoKeys
  | ErrGap (n : nat) (i : uint32).

(** What [os.WriteFile] does to a file: it writes all of it, it cannot open it, or it
    truncates the file and fails after [k] bytes. *)
Inductive write_outcome := Written | Unopened | Torn (k : nat).

Section files.
Context `{Pem}.

(** What the operating system allows, by name. *)
Context (mkdir_ok : bool) (os_write : bytes -> write_outcome) (read_ok : bytes -> bool).

Definition typePrivate : bytes := [x45; x43; x20; x50; x52; x49; x56; x41; x54; x45; x20; x4b; x45; x59].
Definition typePublic : bytes := [x50; x55; x42; x4c; x49; x43; x20; x4b; x45; x59].

Definition writePEM (fs : directory) (name blockType der : bytes) : directory * option key_error :=
  let data := EncodePEM blockType der in
  match os_write name with
  | Written => (<[name := data]> fs, None)
  | Unopened => (fs, Some (ErrFile name))
  | Torn k => (<[name := take k data]> fs, Some (ErrFile name))
  end.

Definition readPEM (fs : directory) (name blockType : bytes) : key_error + bytes :=
  if negb (read_ok name) then inl (ErrFile name)
  else match fs !! name with
  | None => inl (ErrFile name)
  | Some b =>
      match DecodePEM b with
      | None => inl (ErrNotPEM name)
      | Some (t, der) => if bool_decide (t = blockType) then inr der else inl (ErrNotPEM name)
      end
  end.

(** The loop of [WriteKeys], over the keys in the order Go enumerates them. An
    error leaves the files written before it, and a failed write whatever of the file
    it had written. *)
Fixpoint write_loop (fs : directory) (privs : list (uint32 * PrivateKey)) : directory * option key_error :=
  match privs with
  | [] => (fs, None)
  | (id, key) :: privs =>
      match MarshalECPrivateKey key with
      | None => (fs, Some (ErrPrivateKey id))
      | Some der =>
          match writePEM fs (format id ++ suffix_key) typePrivate der with
          | (fs, Some e) => (fs, Some e)
          | (fs, None) =>
              match MarshalPKIXPublicKey (Public key) with
              | None => (fs, Some (ErrPublicKey id))
              | Some der =>
                  match writePEM fs (format id ++ suffix_pub) typePublic der with
                  | (fs, Some e) => (fs, Some e)
                  | (fs, None) => write_loop fs privs
                  end
              end
          end
      end
  end.

Definition WriteKeys (fs : directory) (privs : list (uint32 * PrivateKey)) : directory * option key_error :=
  if mkdir_ok then write_loop fs privs else (fs, Some ErrMkdir).

(** The loop over the names of public keys. *)
Fixpoint read_loop (fs : directory) (names : list bytes) (pubs : gmap uint32 PublicKey)
    : key_error + gmap uint32 PublicKey :=
  match names with
  | [] => inr pubs
  | base :: names =>
      match ParseUint (take (length base - length suffix_pub) base) with
      | None => inl (ErrName base)
      | Some n =>
          match readPEM fs base typePublic with
          | inl e => inl e
          | inr der =>
              match ParsePKIXPublicKey der with
              | None => inl (ErrParse base)
              | Some None => inl (ErrNotECDSA base)
              | Some (Some pub) => read_loop fs names (<[n := pub]> pubs)
              end
          end
      end
  end.

(** The loop that looks for a gap: [i] to [len(pubs)], [k] of them. *)
Fixpoint gap_loop (pubs : gmap uint32 PublicKey) (k : nat) (i : uint32) : option key_error :=
  match k with
  | O => None
  | S k =>
      match pubs !! i with
      | None => Some (ErrGap (size pubs) i)
      | Some _ => gap_loop pubs k (i + 1)%N
      end
  end.

Definition ReadKeys (fs : directory) (id : uint32) : key_error + (PrivateKey * gmap uint32 PublicKey) :=
  match readPEM fs (format id ++ suffix_key) typePrivate with
  | inl e => inl e
  | inr der =>
      match ParseECPrivateKey der with
      | None => inl (ErrPrivateKey id)
      | Some priv =>
          match read_loop fs (glob_pub fs) ∅ with
          | inl e => inl e
          | inr pubs =>
              if bool_decide (size pubs = 0) then inl ErrNoKeys
              else match gap_loop pubs (size pubs) 1 with
              | Some e => inl e
              | None => inr (priv, pubs)
              end
          end
      end
  end.
End files.

(** ** The replica set a directory defines *)

(** The ids 1 to n. *)
Definition ids_upto (n : nat) : gset uint32 := list_to_set ((fun k => N.of_nat (S k)) <$> seq 0 n).

Lemma elem_of_ids_upto n i : i ∈ ids_upto n <-> (1 <= i <= N.of_nat n)%N.
Proof.
  unfold ids_upto. rewrite elem_of_list_to_set, list_elem_of_fmap. setoid_rewrite elem_of_seq. split.
  - intros (k & -> & Hk). lia.
  - intros Hi. exists (N.to_nat i - 1). lia.
Qed.

Lemma size_ids_upto n : size (ids_upto n) = n.
Proof.
  unfold ids_upto. rewrite size_list_to_set, length_fmap, length_seq; [done|].
  apply NoDup_fmap_2_strong; [|apply NoDup_seq]. intros x y _ _. lia.
Qed.

Lemma map_ids {A} (m : gmap uint32 A) n : (forall i, is_Some (m !! i) <-> (1 <= i <= N.of_nat n)%N) -> size m = n.
Proof.
  intros Hm. rewrite <- size_dom, <- (size_ids_upto n). f_equal. apply set_eq. intros i.
  by rewrite elem_of_dom, Hm, elem_of_ids_upto.
Qed.

Lemma map_ids_size {A} (m : gmap uint32 A) :
  (forall i, (1 <= i <= N.of_nat (size m))%N -> is_Some (m !! i)) ->
  forall i, is_Some (m !! i) <-> (1 <= i <= N.of_nat (size m))%N.
Proof.
  intros Hm i. split; [|apply Hm]. intros Hi. apply elem_of_ids_upto.
  assert (ids_upto (size m) = dom m) as ->; [|by apply elem_of_dom].
  apply set_subseteq_size_eq.
  - intros x Hx%elem_of_ids_upto. apply elem_of_dom. by apply Hm.
  - rewrite size_dom, size_ids_upto. lia.
Qed.

Section keys_facts.
Context `{Pem} (read_ok : bytes -> bool).

Lemma gap_loop_none (pubs : gmap uint32 PublicKey) k i :
  gap_loop pubs k i = None <-> forall j, (i <= j < i + N.of_nat k)%N -> is_Some (pubs !! j).
Proof.
  revert i. induction k as [|k IH]; intros i; cbn [gap_loop]; [split; [lia|done]|].
  destruct (pubs !! i) as [pk|] eqn:E.
  - rewrite IH. split; intros Hj j Hr; [|apply Hj; lia]. destruct (decide (j = i)) as [->|]; [by eexists|]. apply Hj. lia.
  - split; [done|]. intros Hj. destruct (Hj i ltac:(lia)) as [? ?]. congruence.
Qed.

Lemma ReadKeys_set fs id priv pubs :
  ReadKeys read_ok fs id = inr (priv, pubs) ->
  0 < size pubs /\ forall i, is_Some (pubs !! i) <-> (1 <= i <= N.of_nat (size pubs))%N.
Proof.
  unfold ReadKeys. destruct (readPEM _ _ _ _) as [|der]; [done|]. destruct (ParseECPrivateKey der); [|done].
  destruct (read_loop _ _ _ _) as [|m]; [done|]. case_bool_decide as Hz; [done|].
  destruct (gap_loop m (size m) 1) eqn:Eg; [done|]. intros [= _ <-]. split; [lia|]. apply map_ids_size.
  rewrite gap_loop_none in Eg. intros i Hi. apply Eg. lia.
Qed.
End keys_facts.

(** ** Written keys are read back *)

Class PemLaws `{Pem} : Prop := {
  pl_pem : forall t der, DecodePEM (EncodePEM t der) = Some (t, der);
  pl_private : forall k der, MarshalECPrivateKey k = Some der -> ParseECPrivateKey der = Some k;
  pl_public : forall pk der, MarshalPKIXPublicKey pk = Some der -> ParsePKIXPublicKey der = Some (Some pk);
}.

Definition key_name (id : uint32) : bytes := format id ++ suffix_key.
Definition pub_name (id : uint32) : bytes := format id ++ suffix_pub.

Lemma format_inj m n : format m = format n -> m = n.
Proof.
  intros E. apply (f_equal (digits_value 0)) in E. unfold format in E. rewrite !format_fuel_value in E by lia. congruence.
Qed.

Lemma pub_name_inj i j : pub_name i = pub_name j -> i = j.
Proof. unfold pub_name. intros E. apply (inj (.++ suffix_pub)) in E. by apply format_inj. Qed.
Lemma key_name_inj i j : key_name i = key_name j -> i = j.
Proof. unfold key_name. intros E. apply (inj (.++ suffix_key)) in E. by apply format_inj. Qed.

Lemma ends_with_app suffix s : ends_with suffix (s ++ suffix) = true.
Proof.
  unfold ends_with. rewrite length_app. replace (length s + length suffix - length suffix) with (length s) by lia.
  rewrite drop_app_length, bool_decide_eq_true_2 by done. simpl. apply Nat.leb_le. lia.
Qed.

Lemma key_name_not_pub i : ends_with suffix_pub (key_name i) = false.
Proof.
  unfold ends_with, key_name. rewrite length_app. change (length suffix_key) with (length suffix_pub).
  replace (length (format i) + length suffix_pub - length suffix_pub) with (length (format i)) by lia.
  rewrite drop_app_length. by rewrite bool_decide_eq_false_2.
Qed.

Lemma key_pub_ne i j : key_name i ≠ pub_name j.
Proof. intros E. pose proof (key_name_not_pub i) as Hk. rewrite E in Hk. unfold pub_name in Hk. by rewrite ends_with_app in Hk. Qed.

Section roundtrip.
Context `{PemLaws} (os_write : bytes -> write_outcome) (read_ok : bytes -> bool).

(** The pair of files of a replica. *)
Definition filed_pair (fs : directory) (id : uint32) (key : PrivateKey) : Prop :=
  (exists der, MarshalECPrivateKey key = Some der /\ fs !! key_name id = Some (EncodePEM typePrivate der)) /\
  (exists der, MarshalPKIXPublicKey (Public key) = Some der /\ fs !! pub_name id = Some (EncodePEM typePublic der)).

Lemma write_loop_spec fs privs fs' :
  write_loop os_write fs privs = (fs', None) -> NoDup privs.*1 ->
  (forall id key, (id, key) ∈ privs -> filed_pair fs' id key) /\
  (forall name, (forall id, id ∈ privs.*1 -> name ≠ key_name id /\ name ≠ pub_name id) -> fs' !! name = fs !! name).
Proof.
  revert fs. induction privs as [|[id key] privs IH]; intros fs; cbn [write_loop].
  { intros [= <-] _. split; [intros id key Hin; by apply not_elem_of_nil in Hin|done]. }
  destruct (MarshalECPrivateKey key) as [d1|] eqn:E1; [|done]. unfold writePEM. fold (key_name id) (pub_name id).
  destruct (os_write (key_name id)); [|done..]. destruct (MarshalPKIXPublicKey (Public key)) as [d2|] eqn:E2; [|done].
  destruct (os_write (pub_name id)); [|done..]. intros E [Hni Hnd]%NoDup_cons. destruct (IH _ E Hnd) as [Hin Hout]. split.
  - intros i k [[= -> ->]|Hi]%elem_of_cons; [|by apply Hin].
    assert (forall j, j ∈ privs.*1 -> key_name id ≠ key_name j /\ key_name id ≠ pub_name j) as Hk.
    { intros j Hj. split; [|apply key_pub_ne]. intros Ek%key_name_inj. by subst. }
    assert (forall j, j ∈ privs.*1 -> pub_name id ≠ key_name j /\ pub_name id ≠ pub_name j) as Hp.
    { intros j Hj. split; [intros Ek; by apply (key_pub_ne j id)|]. intros Ek%pub_name_inj. by subst. }
    split; [exists d1|exists d2]; (split; [done|]); rewrite Hout by done.
    + rewrite lookup_insert_ne by (symmetry; apply key_pub_ne). apply lookup_insert_eq.
    + apply lookup_insert_eq.
  - intros name Hn. rewrite Hout.
    + destruct (Hn id) as [Hn1 Hn2]; [by left|]. by rewrite !lookup_insert_ne.
    + intros j Hj. apply Hn. by right.
Qed.

Lemma read_loop_spec fs (privs : gmap uint32 PrivateKey) names pubs :
  (forall id key, privs !! id = Some key -> filed_pair fs id key /\ (id < two32)%N /\ read_ok (pub_name id) = true) ->
  (forall name, name ∈ names -> exists id key, privs !! id = Some key /\ name = pub_name id) ->
  exists pubs', read_loop read_ok fs names pubs = inr pubs' /\
    (forall id key, privs !! id = Some key -> pub_name id ∈ names -> pubs' !! id = Some (Public key)) /\
    (forall id, (pub_name id ∉ names) -> pubs' !! id = pubs !! id).
Proof.
  intros Hf. revert pubs. induction names as [|base names IH]; intros pubs Hn; cbn [read_loop].
  { exists pubs. split; [done|]. split; [intros id key _ Hin; by apply not_elem_of_nil in Hin|done]. }
  destruct (Hn base) as (id & key & Hk & ->); [by left|]. destruct (Hf id key Hk) as ([_ (der & Hm & Hfs)] & Hlt & Hok).
  assert (take (length (pub_name id) - length suffix_pub) (pub_name id) = format id) as ->.
  { unfold pub_name. rewrite length_app. replace (length (format id) + length suffix_pub - length suffix_pub) with (length (format id)) by lia.
    apply take_app_length. }
  rewrite ParseUint_format by done. unfold readPEM. rewrite Hok, Hfs, pl_pem, bool_decide_eq_true_2 by done. cbn [negb].
  rewrite (pl_public _ _ Hm). destruct (IH (<[id := Public key]> pubs)) as (pubs' & E & Hin & Hout).
  { intros name Hname. apply Hn. by right. }
  exists pubs'. split; [done|]. split.
  - intros i k Hi Hni. destruct (decide (pub_name i ∈ names)) as [Hd|Hd]; [by apply Hin|].
    apply elem_of_cons in Hni as [Ei%pub_name_inj|]; [|done]. subst i. rewrite (Hout id Hd). rewrite lookup_insert_eq. congruence.
  - intros i Hi. rewrite elem_of_cons in Hi. rewrite Hout by tauto. apply lookup_insert_ne. intros ->. tauto.
Qed.
End roundtrip.

(** C33. The replica set is never guessed. Whatever the directory holds, if
    [ReadKeys] succeeds the public keys it returns are those of replicas 1 to n for
    some positive n, so every replica that reads the same n computes the same quorum
    and the same rotation. *)
Theorem read_keys_set `{Pem} (read_ok : bytes -> bool) (fs : directory) (id : uint32) (priv : PrivateKey)
    (pubs : gmap uint32 PublicKey) :
  ReadKeys read_ok fs id = inr (priv, pubs) ->
  0 < size pubs /\ forall i, is_Some (pubs !! i) <-> (1 <= i <= N.of_nat (size pubs))%N.
Proof. apply ReadKeys_set. Qed.

(** C23. Keys written are keys read. Suppose [WriteKeys] succeeds for replicas 1 to n,
    n below 2^32, in whatever order the map is enumerated, in a directory that held no
    file named [*.pub] before, and every file can be read. Then any of them reads back
    its own private key and everyone's public keys. A [*.pub] file of an earlier, larger
    set would be read for a member. *)
Theorem write_read_keys `{PemLaws} (os_write : bytes -> write_outcome) (read_ok : bytes -> bool) (fs fs' : directory) (n : nat)
    (privs : gmap uint32 PrivateKey) (order : list (uint32 * PrivateKey)) (id : uint32) (priv : PrivateKey) :
  order ≡ₚ map_to_list privs -> (forall i, is_Some (privs !! i) <-> (1 <= i <= N.of_nat n)%N) -> (N.of_nat n < two32)%N ->
  (forall name, is_Some (fs !! name) -> ends_with suffix_pub name = false) -> (forall name, read_ok name = true) ->
  WriteKeys true os_write fs order = (fs', None) -> privs !! id = Some priv ->
  ReadKeys read_ok fs' id = inr (priv, Public <$> privs).
Proof.
  intros Hord Hids Hn Hfs Hro Hw Hid. unfold WriteKeys in Hw.
  assert (forall i k, (i, k) ∈ order <-> privs !! i = Some k) as Hin by (intros i k; by rewrite Hord, elem_of_map_to_list).
  assert (NoDup order.*1) as Hnd by (rewrite Hord; apply NoDup_fst_map_to_list).
  destruct (write_loop_spec os_write fs order fs' Hw Hnd) as [Hpair Hother].
  assert (forall i k, privs !! i = Some k -> filed_pair fs' i k /\ (i < two32)%N /\ read_ok (pub_name i) = true) as Hf.
  { intros i k Hk. split; [by apply Hpair, Hin|]. split; [|done]. assert (is_Some (privs !! i)) as Hi by eauto. apply Hids in Hi. lia. }
  assert (forall name, name ∈ glob_pub fs' <-> is_Some (fs' !! name) /\ ends_with suffix_pub name = true) as Hglob.
  { intros name. unfold glob_pub. rewrite merge_sort_Permutation, list_elem_of_filter, list_elem_of_fmap. split.
    - intros (He & [x v] & -> & Hv%elem_of_map_to_list). eauto.
    - intros ([v Hv] & He). split; [done|]. exists (name, v). split; [done|]. by apply elem_of_map_to_list. }
  assert (forall name, name ∈ glob_pub fs' -> exists i k, privs !! i = Some k /\ name = pub_name i) as Hnames.
  { intros name [Hs He]%Hglob. destruct (decide (Exists (fun i => name = pub_name i) order.*1)) as [Hx|Hx].
    - apply Exists_exists in Hx as (i & ([j k] & -> & Hk%Hin)%list_elem_of_fmap & ->). eauto.
    - exfalso. rewrite Hother in Hs; [rewrite (Hfs _ Hs) in He; done|]. intros i Hi. split.
      + intros ->. by rewrite key_name_not_pub in He.
      + intros ->. apply Hx, Exists_exists. eauto. }
  destruct (read_loop_spec os_write read_ok fs' privs (glob_pub fs') ∅ Hf Hnames) as (pubs & E & Hpub & Hnot).
  assert (pubs = Public <$> privs) as ->.
  { apply map_eq. intros i. rewrite lookup_fmap. destruct (privs !! i) as [k|] eqn:Ek; simpl.
    - apply Hpub; [done|]. apply Hglob. destruct (Hf i k Ek) as ([_ (der & _ & ->)] & _). split; [by eexists|]. apply ends_with_app.
    - rewrite Hnot, lookup_empty; [done|]. intros (j & k & Hk & Ej%pub_name_inj)%Hnames. congruence. }
  assert (size (Public <$> privs) = n) as Hsz by (rewrite map_size_fmap; by apply map_ids).
  unfold ReadKeys. fold (key_name id). unfold readPEM at 1. rewrite Hro. cbn [negb].
  destruct (Hf id priv Hid) as ([(der & Hm & ->) _] & _). rewrite pl_pem, bool_decide_eq_true_2 by done.
  rewrite (pl_private _ _ Hm), E, Hsz. assert (is_Some (privs !! id)) as Hi by eauto. apply Hids in Hi.
  rewrite bool_decide_eq_false_2 by lia.
  assert (gap_loop (Public <$> privs) n 1 = None) as ->; [|done].
  apply gap_loop_none. intros j Hj. rewrite lookup_fmap. apply fmap_is_Some, Hids. lia.
Qed.

(** ** A toy encoding *)

Definition toy_encode {A} `{Countable A} (x : A) : bytes := format (Npos (encode x)).
Definition toy_decode {A} `{Countable A} (b : bytes) : option A :=
  n ← digits_value 0 b; match n with N0 => None | Npos p => decode p end.

Lemma toy_decode_encode {A} `{Countable A} (x : A) : toy_decode (toy_encode x) = Some x.
Proof. unfold toy_decode, toy_encode, format. rewrite format_fuel_value by lia. apply decode_encode. Qed.

#[export] Instance toy_pem : Pem := {|
  MarshalECPrivateKey := fun k : PrivateKey => Some (toy_encode (A := N) k);
  ParseECPrivateKey := fun b => toy_decode (A := N) b;
  MarshalPKIXPublicKey := fun k : PublicKey => Some (toy_encode (A := N) k);
  ParsePKIXPublicKey := fun b => Some <$> toy_decode (A := N) b;
  EncodePEM := fun t der => toy_encode (t, der);
  DecodePEM := fun b => toy_decode b;
|}.

#[export] Instance toy_pem_laws : PemLaws.
Proof.
  split.
  - intros t der. apply toy_decode_encode.
  - intros k der [= <-]. apply (toy_decode_encode (A := N)).
  - intros k der [= <-]. unfold ParsePKIXPublicKey, toy_pem. by rewrite (toy_decode_encode (A := N)).
Qed.

Definition toy_privs : gmap uint32 N := {[1%N := 7%N; 2%N := 5%N]}.
Definition toy_written : directory * option key_error :=
  WriteKeys true (fun _ => Written) {[ [x61] := [] ]} (map_to_list toy_privs).

Lemma write_read_keys_witness :
  toy_written.2 = None /\ ReadKeys (fun _ => true) toy_written.1 2 = inr (5%N, toy_privs).
Proof.
  assert (toy_written.2 = None) as Ew by (vm_compute; reflexivity). split; [exact Ew|].
  assert ((Public <$> toy_privs : gmap uint32 N) = toy_privs) as <- by (apply map_fmap_id).
  apply (@write_read_keys toy_ecdsa toy_pem toy_pem_laws (fun _ => Written) (fun _ => true) {[ [x61] := [] ]} toy_written.1 2 toy_privs (map_to_list toy_privs) 2 5%N).
  - reflexivity.
  - intros i. unfold toy_privs. rewrite lookup_insert_is_Some, lookup_singleton_is_Some. lia.
  - vm_compute. reflexivity.
  - intros name. rewrite lookup_singleton_is_Some. intros <-. vm_compute. reflexivity.
  - reflexivity.
  - rewrite <- Ew. unfold toy_written. apply surjective_pairing.
  - reflexivity.
Defined.

Lemma read_keys_set_witness :
  exists priv pubs, ReadKeys (fun _ => true) toy_written.1 1 = inr (priv, pubs) /\ size pubs = 2 /\
    forall i, is_Some (pubs !! i) <-> (1 <= i <= 2)%N.
Proof.
  assert (match ReadKeys (fun _ => true) toy_written.1 1 with inr (_, pubs) => size pubs | _ => 0 end = 2) as E by (vm_compute; reflexivity).
  destruct (ReadKeys (fun _ => true) toy_written.1 1) as [|[priv pubs]] eqn:Er; [discriminate E|]. exists priv, pubs.
  split; [reflexivity|]. split; [exact E|].
  destruct (@read_keys_set toy_ecdsa toy_pem (fun _ => true) toy_written.1 1 priv pubs Er) as [_ H]. rewrite E in H. exact H.
Defined.
