(* ===== verification/Loop.v ===== *)
(** [diem/loop.go] and [diem/mempool.go]: the queue-driven loop around a core, and
    the bounded transaction pool. Channels are lists, oldest element first. *)

From stdpp Require Import prelude gmap list.
From Stdlib Require Import NArith ZArith Lia Strings.Byte.
From S2P Require Import Prelude Sha256 Proto Types Quorum Verify Ledger BlockTree Safety Seams Pacemaker Leader Core.

(** ** The loop *)

Record Loop := MkLoop { lp_core : Core; lp_q : Queue; lp_high : Z }.

Definition NewLoop (c : Core) (q : Queue) : Loop := MkLoop c q 0.
Definition QueueHighWater (l : Loop) : Z := lp_high l.
Definition LoopPush (l : Loop) (e : Event) : option Loop :=
  q ← Push (lp_q l) e; Some (MkLoop (lp_core l) q (lp_high l)).

Section loop.
Context `{RangeOrder} `{FloatConv}.

(** [step], on the queue the event was taken from. *)
Definition loopStep (cr : Crypto) (txns : list bytes) (l : Loop) (e : Event) : option (Loop * list effect) :=
  let n := Z.of_nat (length (q_events (lp_q l))) in
  let high := if (lp_high l <? n)%Z then n else lp_high l in
  '(_, c, es) ← Step cr txns e (lp_core l);
  Some (MkLoop c (lp_q l) high, es).

Definition Tick (cr : Crypto) (txns : list bytes) (l : Loop) : option (Loop * list effect * bool) :=
  match Pop (lp_q l) with
  | None => Some (l, [], false)
  | Some (e, q) => '(l, es) ← loopStep cr txns (MkLoop (lp_core l) q (lp_high l)) e; Some (l, es, true)
  end.

(** Between two passes of [Run] the environment may push events. *)
Inductive loop_act := ActPush (e : Event) | ActTick (cr : Crypto) (txns : list bytes).

(** A push that would block is not a step; [None] is also the core's failure. *)
Definition act (l : Loop) (a : loop_act) : option (Loop * list effect) :=
  match a with
  | ActPush e => l ← LoopPush l e; Some (l, [])
  | ActTick cr txns => '(l, es, _) ← Tick cr txns l; Some (l, es)
  end.
Fixpoint acts (l : Loop) (az : list loop_act) : option (Loop * list effect) :=
  match az with
  | [] => Some (l, [])
  | a :: az => '(l, es) ← act l a; '(l, es') ← acts l az; Some (l, es ++ es')
  end.

(** [Run]: the passes made before the context is done, then the deferred stop of
    the core; the result is the context's error. A pass that finds the queue empty
    blocks, which changes nothing. *)
Inductive ctx_error := Canceled | DeadlineExceeded.

Definition Run (l : Loop) (az : list loop_act) (err : ctx_error) : option (Loop * list effect * ctx_error) :=
  '(l, es) ← acts l az;
  '(_, c, es') ← CoreStop (lp_core l);
  Some (MkLoop c (lp_q l) (lp_high l), es ++ es', err).

Fixpoint pushed (az : list loop_act) : list Event :=
  match az with [] => [] | ActPush e :: az => e :: pushed az | ActTick _ _ :: az => pushed az end.

Lemma acts_feed l az l' es :
  acts l az = Some (l', es) ->
  exists evs, q_events (lp_q l) ++ pushed az = (evs.*2) ++ q_events (lp_q l') /\
    feed evs (lp_core l) = Some (lp_core l', es) /\
    q_size (lp_q l') = q_size (lp_q l) /\
    (length (q_events (lp_q l)) <= q_size (lp_q l) -> length (q_events (lp_q l')) <= q_size (lp_q l')) /\
    (lp_high l <= lp_high l')%Z /\
    (length (q_events (lp_q l)) <= q_size (lp_q l) -> (lp_high l <= Z.of_nat (q_size (lp_q l)))%Z ->
     (lp_high l' <= Z.of_nat (q_size (lp_q l)))%Z).
Proof.
  revert l es. induction az as [|a az IH]; intros l es; simpl.
  { intros [= <- <-]. exists []. rewrite app_nil_r. split_and!; try done; lia. }
  intros ([l1 es1] & Ha & ([l2 es2] & E & [= <- <-])%bind_Some)%bind_Some. destruct (IH _ _ E) as (evs & Hq & Hf & Hs & Hb & Hh & Hhb).
  destruct a as [e|cr txns]; simpl in Ha.
  - apply bind_Some in Ha as (l0 & Hp & [= <- <-]). unfold LoopPush, Push in Hp.
    apply bind_Some in Hp as (q & Hp & [= <-]). destruct (Nat.ltb_spec (length (q_events (lp_q l))) (q_size (lp_q l))); [|done].
    injection Hp as <-. simpl in *. exists evs. rewrite <- (assoc_L (++)) in Hq. rewrite length_app in *. simpl in *.
    split_and!; try done; intros; [apply Hb; lia|apply Hhb; lia].
  - apply bind_Some in Ha as ([[l0 es0] b] & Ht & [= <- <-]). unfold Tick, Pop in Ht.
    destruct (q_events (lp_q l)) as [|e es'] eqn:Eq; [injection Ht as <- <- <-; rewrite Eq in *; exists evs; done|].
    apply bind_Some in Ht as ([l3 es3] & Hl & [= <- <- <-]). unfold loopStep in Hl. simpl in Hl.
    apply bind_Some in Hl as ([[[] c1] es4] & Hst & [= <- <-]). simpl in *.
    exists ((cr, txns, e) :: evs). split; [simpl; by rewrite Hq|]. split; [simpl; rewrite Hst; simpl; by rewrite Hf|].
    split; [done|]. destruct (Z.ltb_spec (lp_high l) (Z.of_nat (length es'))); (split_and!; intros; [apply Hb; lia|lia|]); apply Hhb; lia.
Qed.
End loop.

(** C34. The loop adds nothing and loses nothing. Whatever the interleaving of pushes
    and ticks, the events processed are, in order, the first of those pushed, the
    core is where feeding it those events one by one ends, with the same
    effects; the queue never exceeds its capacity, and the high-water mark never
    goes down and never exceeds that capacity. When the context ends, [Run] returns
    its error, and leaves a core with no round timer armed that differs from the
    one fed in the Pacemaker alone. *)
Theorem loop_is_fifo `{RangeOrder} `{FloatConv} (c : Core) (size : nat) (az : list loop_act) err l es err' :
  Run (NewLoop c (NewQueue size)) az err = Some (l, es, err') ->
  err' = err /\ p_timer (c_pacemaker (lp_core l)) = false /\
  exists evs c1 es1, pushed az = evs.*2 ++ q_events (lp_q l) /\ feed evs c = Some (c1, es1) /\
    es = es1 ++ (if p_timer (c_pacemaker c1) then [TimerStop] else []) /\
    lp_core l = set_parts c1 (c_ledger c1) (c_tree c1) (c_safety c1) (Pacemaker.Stop (c_pacemaker c1)).1 (c_leaders c1) /\
    length (q_events (lp_q l)) <= size /\ (0 <= QueueHighWater l <= Z.of_nat size)%Z.
Proof.
  intros ([l1 es1] & (evs & Hq & Hf & Hs & Hb & Hh & Hhb)%acts_feed & E)%bind_Some.
  apply bind_Some in E as ([[[] c2] es2] & Hst & [= <- <- <-]). simpl in *. unfold CoreStop in Hst.
  injection Hst as <- <-. split; [done|]. split; [done|]. exists evs, (lp_core l1), es1.
  rewrite Hs in Hb. unfold QueueHighWater. simpl. split_and!; try done; [apply Hb; lia|apply Hhb; lia].
Qed.

Definition demo_acts : list loop_act :=
  [ActPush (BlockEvent demo_b1); ActPush (BlockRequestEvent [x01]); ActTick demo_crypto []; ActPush (LocalTimeoutEvent 7)].
Definition demo_core : Core := default (MkCore 0 NewMemLedger demo_tree demo_safety demo_pacemaker (chain_election 1) false) (New quiet_cfg).
Definition demo_looped : option (Loop * list effect * ctx_error) :=
  @Run canonical_range least_int64 (NewLoop demo_core (NewQueue 2)) demo_acts DeadlineExceeded.

Lemma loop_is_fifo_witness :
  exists l es (evs : list (Crypto * list bytes * Event)), demo_looped = Some (l, es, DeadlineExceeded) /\
    pushed demo_acts = evs.*2 ++ q_events (lp_q l) /\ length (q_events (lp_q l)) = 2 /\ QueueHighWater l = 1%Z.
Proof.
  assert (option_map (fun r => (length (q_events (lp_q r.1.1)), QueueHighWater r.1.1)) demo_looped = Some (2, 1%Z)) as E
    by (vm_compute; reflexivity).
  pose proof (fun l es e => @loop_is_fifo canonical_range least_int64 demo_core 2 demo_acts DeadlineExceeded l es e) as T. fold demo_looped in T.
  destruct demo_looped as [[[l es] e]|]; [|discriminate E]. cbn [option_map fst] in E. injection E as E1 E2.
  destruct (T l es e eq_refl) as (-> & _ & evs & c1 & es1 & Hp & _). exists l, es, evs.
  split; [reflexivity|]. split; [exact Hp|]. split; [exact E1|exact E2].
Defined.

(** ** The transaction pool *)

Record FIFOPool := MkFIFOPool { fp_q : list bytes; fp_capacity : nat; fp_batch : nat }.

Definition NewFIFOPool (capacity batch : nat) : FIFOPool := MkFIFOPool [] capacity batch.

Definition Add (p : FIFOPool) (txn : bytes) : FIFOPool * bool :=
  if (length (fp_q p) <? fp_capacity p)%nat then (MkFIFOPool (fp_q p ++ [txn]) (fp_capacity p) (fp_batch p), true)
  else (p, false).

(** The loop takes until [out] holds a batch or the channel is empty. *)
Fixpoint take_loop (fuel : nat) (q out : list bytes) : list bytes * list bytes :=
  match fuel, q with
  | S fuel, txn :: q => take_loop fuel q (out ++ [txn])
  | _, _ => (q, out)
  end.

Definition GetTransactions (p : FIFOPool) : FIFOPool * list bytes :=
  let '(q, out) := take_loop (fp_batch p) (fp_q p) [] in (MkFIFOPool q (fp_capacity p) (fp_batch p), out).

Lemma take_loop_eq n q out : take_loop n q out = (drop n q, out ++ take n q).
Proof.
  revert q out. induction n as [|n IH]; intros [|t q] out; simpl; rewrite ?app_nil_r; try done.
  by rewrite IH, <- (assoc_L (++)).
Qed.

Inductive pool_op := PAdd (txn : bytes) | PGet.

(** The pool after a sequence of calls, the transactions it accepted and the
    batches it handed out. *)
Fixpoint pool_run (p : FIFOPool) (ops : list pool_op) : FIFOPool * list bytes * list (list bytes) :=
  match ops with
  | [] => (p, [], [])
  | PAdd txn :: ops =>
      let '(p, ok) := Add p txn in
      let '(p, acc, out) := pool_run p ops in (p, (if (ok : bool) then [txn] else []) ++ acc, out)
  | PGet :: ops =>
      let '(p, b) := GetTransactions p in
      let '(p, acc, out) := pool_run p ops in (p, acc, b :: out)
  end.

Lemma pool_run_fifo p ops p' acc out :
  pool_run p ops = (p', acc, out) ->
  fp_q p ++ acc = concat out ++ fp_q p' /\ fp_capacity p' = fp_capacity p /\ fp_batch p' = fp_batch p /\
  (length (fp_q p) <= fp_capacity p -> length (fp_q p') <= fp_capacity p) /\
  Forall (fun b => length b <= fp_batch p) out.
Proof.
  revert p acc out. induction ops as [|[txn|] ops IH]; intros p acc out; simpl.
  - intros [= <- <- <-]. by rewrite app_nil_r.
  - unfold Add. destruct (Nat.ltb_spec (length (fp_q p)) (fp_capacity p));
      destruct (pool_run _ ops) as [[p1 acc1] out1] eqn:E; intros [= <- <- <-]; apply IH in E as (H1 & H2 & H3 & H4 & H5).
    + simpl in *. rewrite <- (assoc_L (++)) in H1. rewrite length_app in H4. simpl in H4. split_and!; try done. intros. apply H4. lia.
    + done.
  - unfold GetTransactions. rewrite take_loop_eq. destruct (pool_run _ ops) as [[p1 acc1] out1] eqn:E. intros [= <- <- <-].
    apply IH in E as (H1 & H2 & H3 & H4 & H5). simpl in *. split_and!; try done.
    + rewrite <- (take_drop (fp_batch p) (fp_q p)) at 1. by rewrite <- !(assoc_L (++)), H1.
    + intros. apply H4. rewrite length_drop. lia.
    + constructor; [|done]. rewrite length_take. lia.
Qed.

(** The pool is a bounded FIFO queue: over any sequence of calls the batches handed
    out, followed by what is still waiting, are exactly the transactions accepted,
    in order, none lost and none handed out twice; no batch is larger than
    configured and no more than the capacity ever waits; and a transaction is
    refused exactly when the pool is full. *)
Theorem pool_is_fifo (capacity batch : nat) (ops : list pool_op) p acc out :
  pool_run (NewFIFOPool capacity batch) ops = (p, acc, out) ->
  acc = concat out ++ fp_q p /\ Forall (fun b => length b <= batch) out /\ length (fp_q p) <= capacity /\
  (forall txn, (Add p txn).2 = false <-> length (fp_q p) = capacity) /\
  (length (GetTransactions p).2 = Nat.min batch (length (fp_q p))).
Proof.
  intros (H1 & H2 & H3 & H4 & H5)%pool_run_fifo. simpl in *. specialize (H4 (Nat.le_0_l _)). split_and!; try done.
  - intros txn. unfold Add. rewrite H2. destruct (Nat.ltb_spec (length (fp_q p)) capacity); simpl; split; intros; (done || lia).
  - unfold GetTransactions. rewrite take_loop_eq, H3. simpl. by rewrite length_take.
Qed.

Lemma pool_is_fifo_witness :
  let r := pool_run (NewFIFOPool 2 1) [PAdd [x01]; PAdd [x02]; PAdd [x03]; PGet; PAdd [x04]; PGet] in
  r.1.2 = concat r.2 ++ fp_q r.1.1 /\ r.1.2 = [[x01]; [x02]; [x04]].
Proof.
  intros r. split; [|reflexivity].
  apply (pool_is_fifo 2 1 [PAdd [x01]; PAdd [x02]; PAdd [x03]; PGet; PAdd [x04]; PGet] r.1.1 r.1.2 r.2). reflexivity.
Defined.
