(* ===== verification/Payload.v ===== *)
(** [replica/payload.go]: the synthetic workload, batches of identical commands at
    a target rate. Times are nanoseconds since the Unix epoch on one clock; the
    zero [time.Time] is [None]. *)

From stdpp Require Import prelude list.
From Stdlib Require Import NArith ZArith Lia Strings.Byte Floats.SpecFloat.
From S2P Require Import Prelude Types Pacemaker.

(** ** Durations and floats *)

Definition min_int64 : Z := (- 2 ^ 63)%Z.
Definition max_int64 : Z := (2 ^ 63 - 1)%Z.

(** [Time.Sub] saturates. *)
Definition time_Sub (t u : Z) : Z := Z.max min_int64 (Z.min max_int64 (t - u)).

Definition float64_add : spec_float -> spec_float -> spec_float := SFadd 53 1024.
Definition float64_sub : spec_float -> spec_float -> spec_float := SFsub 53 1024.
Definition float64_div : spec_float -> spec_float -> spec_float := SFdiv 53 1024.

(** [Duration.Seconds]. *)
Definition Seconds (d : Z) : spec_float :=
  float64_add (float64_of (Z.quot d 1000000000)) (float64_div (float64_of (Z.rem d 1000000000)) (float64_of 1000000000)).

(** The product with no rounding, of finite floats. *)
Definition exact_mul (x y : spec_float) : spec_float :=
  match x, y with
  | S754_finite s m e, S754_finite s' m' e' => S754_finite (xorb s s') (m * m') (e + e')
  | _, _ => float64_mul x y
  end.

(** [x + y * z], which the language lets an implementation round once or twice.
    Added to zero, the product is rounded either way. *)
Definition muladd (fused : bool) (x y z : spec_float) : spec_float :=
  match x with
  | S754_zero _ => float64_add x (float64_mul y z)
  | _ => float64_add x (if fused then exact_mul y z else float64_mul y z)
  end.

(** The builtin [min] on floats. *)
Definition float64_min (x y : spec_float) : spec_float :=
  match x, y with
  | S754_nan, _ => x
  | _, S754_nan => y
  | S754_zero s, S754_zero s' => S754_zero (s || s')
  | _, _ => if SFltb y x then y else x
  end.

(** ** The command source *)

Record Payload := MkPayload {
  pl_cmd : bytes;
  pl_batch : Z;
  pl_rate : spec_float;
  pl_last : option Z;
  pl_credit : spec_float;
}.

Definition NewPayload (size batch rate : Z) : Payload :=
  let size := if (size <? 1)%Z then 1%Z else size in
  let batch := if (batch <? 1)%Z then 1%Z else batch in
  MkPayload (replicate (Z.to_nat size) x00) batch (float64_of rate) None (S754_zero false).

Section transactions.
Context `{FloatConv} (fused : bool).

(** A negative count panics in [make]. *)
Definition make_cmds (p : Payload) (n : Z) : option (Payload * list bytes) :=
  if (n <? 0)%Z then None else Some (p, replicate (Z.to_nat n) (pl_cmd p)).

(** The credit at [now], before anything is taken from it. *)
Definition accrued (p : Payload) (now : Z) : spec_float :=
  match pl_last p with
  | None => pl_credit p
  | Some last => float64_min (muladd fused (pl_credit p) (Seconds (time_Sub now last)) (pl_rate p)) (pl_rate p)
  end.

Definition Transactions (p : Payload) (now : Z) : option (Payload * list bytes) :=
  let n := pl_batch p in
  if SFltb (S754_zero false) (pl_rate p) then
    let p := MkPayload (pl_cmd p) (pl_batch p) (pl_rate p) (Some now) (accrued p now) in
    let n := Z.min (pl_batch p) (int64_of (pl_credit p)) in
    if (n =? 0)%Z then Some (p, [])
    else make_cmds (MkPayload (pl_cmd p) (pl_batch p) (pl_rate p) (pl_last p) (float64_sub (pl_credit p) (float64_of n))) n
  else make_cmds p n.

(** Calls at the given times, and the batches handed out. *)
Fixpoint calls (p : Payload) (times : list Z) : option (Payload * list (list bytes)) :=
  match times with
  | [] => Some (p, [])
  | now :: times => '(p, b) ← Transactions p now; '(p, bs) ← calls p times; Some (p, b :: bs)
  end.

Lemma Transactions_shape p now p' b :
  Transactions p now = Some (p', b) ->
  pl_cmd p' = pl_cmd p /\ pl_batch p' = pl_batch p /\ pl_rate p' = pl_rate p /\
  ((0 <= pl_batch p)%Z -> (Z.of_nat (length b) <= pl_batch p)%Z) /\ Forall (fun c => c = pl_cmd p) b.
Proof.
  unfold Transactions, make_cmds. destruct (SFltb _ _); cbn [pl_cmd pl_batch pl_rate pl_credit].
  - destruct (Z.eqb_spec (Z.min (pl_batch p) (int64_of (accrued p now))) 0) as [E|E];
      [intros [= <- <-]; simpl; split_and!; try done; lia|].
    destruct (Z.ltb_spec (Z.min (pl_batch p) (int64_of (accrued p now))) 0); [done|]. intros [= <- <-].
    split_and!; try done; [rewrite length_replicate; lia|by apply Forall_replicate].
  - destruct (Z.ltb_spec (pl_batch p) 0); [done|]. intros [= <- <-].
    split_and!; try done; [rewrite length_replicate; lia|by apply Forall_replicate].
Qed.

Lemma calls_shape p times p' bs :
  calls p times = Some (p', bs) -> (0 <= pl_batch p)%Z ->
  length bs = length times /\ Forall (fun b => (Z.of_nat (length b) <= pl_batch p)%Z /\ Forall (fun c => c = pl_cmd p) b) bs.
Proof.
  revert p bs. induction times as [|now times IH]; intros p bs; simpl; [by intros [= <- <-]|].
  intros ([p1 b] & E & ([p2 bs2] & Ec & [= <- <-])%bind_Some)%bind_Some Hb.
  apply Transactions_shape in E as (E1 & E2 & E3 & Hl & HF). destruct (IH _ _ Ec) as [Hlen HFs]; [lia|].
  split; [simpl; lia|]. rewrite E1, E2 in HFs. constructor; [split; auto|exact HFs].
Qed.

(** With no rate configured a call returns a full batch, whatever the time. *)
Lemma calls_unthrottled p times :
  SFltb (S754_zero false) (pl_rate p) = false -> (0 <= pl_batch p)%Z ->
  calls p times = Some (p, replicate (length times) (replicate (Z.to_nat (pl_batch p)) (pl_cmd p))).
Proof.
  intros Hr Hb. induction times as [|now times IH]; [done|]. simpl. unfold Transactions. rewrite Hr. unfold make_cmds.
  destruct (Z.ltb_spec (pl_batch p) 0); [lia|]. simpl. by rewrite IH.
Qed.
End transactions.

(** A rate that is not positive converts to a float that is not positive. *)
Lemma float64_of_nonpos z : (z <= 0)%Z -> SFltb (S754_zero false) (float64_of z) = false.
Proof.
  destruct z as [|q|q]; intros Hz; [done|lia|]. unfold float64_of, binary_normalize, binary_round.
  destruct (shl_align q 0 _) as [m e]. unfold binary_round_aux.
  destruct (shr_fexp 53 1024 (Z.pos m) e loc_Exact) as [mrs e']. destruct (shr_fexp _ _ _ _ _) as [mrs' e''].
  destruct (shr_m mrs') as [|m'|m']; [done| |done]. by destruct (_ <=? _)%Z.
Qed.

(** The workload never exceeds its bounds: whenever it is called, a batch has at
    most the configured number of commands, each of exactly the configured size,
    where a size or batch below one counts as one; and with no positive rate it
    never fails and every batch is full. *)
Theorem payload_bounded `{FloatConv} (fused : bool) (size batch rate : Z) (times : list Z) :
  let p := NewPayload size batch rate in
  (forall p' bs, calls fused p times = Some (p', bs) -> length bs = length times /\
     Forall (fun b => (Z.of_nat (length b) <= Z.max 1 batch)%Z /\
       Forall (fun c => Z.of_nat (length c) = Z.max 1 size) b) bs) /\
  ((rate <= 0)%Z -> exists bs, calls fused p times = Some (p, bs) /\ length bs = length times /\
     Forall (fun b => Z.of_nat (length b) = Z.max 1 batch) bs).
Proof.
  intros p. assert (pl_batch p = Z.max 1 batch /\ Z.of_nat (length (pl_cmd p)) = Z.max 1 size) as [Eb Ec].
  { unfold p, NewPayload. simpl. rewrite length_replicate.
    destruct (Z.ltb_spec batch 1), (Z.ltb_spec size 1); lia. }
  split.
  - intros p' bs E. destruct (calls_shape fused p times p' bs E) as [Hl HF]; [lia|]. split; [done|].
    eapply Forall_impl; [exact HF|]. intros b [Hb Hc]. split; [lia|]. eapply Forall_impl; [exact Hc|]. by intros c ->.
  - intros Hr. eexists. split; [apply calls_unthrottled; [by apply float64_of_nonpos|lia]|]. rewrite length_replicate. split; [done|].
    apply Forall_replicate. rewrite length_replicate, Z2Nat.id by lia. done.
Qed.

(** Ten commands a second, four at most at a time. *)
Definition demo_calls_at : option (list nat) :=
  option_map (fun r => length <$> r.2) (@calls least_int64 false (NewPayload 3 4 10) [5000; 500005000; 600005000; 1600005000]%Z).

Lemma payload_throttled : demo_calls_at = Some [0; 4; 2; 4].
Proof. vm_compute. reflexivity. Qed.

Lemma payload_bounded_witness :
  exists bs, @calls least_int64 false (NewPayload 3 4 0) [0; 1]%Z = Some (NewPayload 3 4 0, bs) /\ length bs = 2 /\
    Forall (fun b => Z.of_nat (length b) = 4%Z) bs.
Proof. exact (proj2 (@payload_bounded least_int64 false 3 4 0 [0; 1]%Z) ltac:(lia)). Defined.

(** The rate bounds the long run, not every second: after a pause a second's worth
    of commands is handed out at once, and more as it accrues, here 19 within 0.9
    seconds at ten a second. *)
Theorem payload_burst :
  option_map (fun r => length <$> r.2)
    (@calls least_int64 false (NewPayload 1 100 10) [1000000000; 11000000000; 11900000000]%Z) = Some [0; 10; 9].
Proof. vm_compute. reflexivity. Qed.
