(* ===== verification/Replica.v ===== *)
(** [replica/replica.go]: a replica wired together, its commit log and its
    lifecycle. The measurement library is a parameter: what the replica hands to it
    is the list of latencies it records. The Gorums server is one too: what it
    brings is the list of inputs, what it takes is what the sender goroutine sends.

    An event is processed by [Core.Step], which calls back into the replica: the
    ledger's [OnCommit], the transport and the observer. The callbacks touch no
    state of the core, and within one event every commit comes before the first
    proposal ([commits_before_proposals]), so they are run after the step, the
    commits first. *)

From stdpp Require Import prelude gmap list fin_maps sorting.
From Stdlib Require Import NArith ZArith Lia Strings.Byte Floats.SpecFloat.
From S2P Require Import Prelude Sha256 Proto Hash Types Quorum Verify Orphans Ledger BlockTree Safety Agreement.
From S2P Require Import Seams Pacemaker Leader Core Wire Net Cluster Signer Keys Loop Payload.

Definition defaultQueueSize : Z := 4096.
Definition defaultRoundTimeout : Z := 500 * 1000000.
Definition backoffFactor : spec_float := float64_of 2.

(** [int64] multiplication wraps. *)
Definition wrap_int64 (z : Z) : Z := ((z + 2 ^ 63) mod 2 ^ 64 - 2 ^ 63)%Z.

Section replica.
Context `{RangeOrder} `{FloatConv} `{Ecdsa} {Node : Type} (node_ID : Node -> uint32).

(** The fields the replica itself reads. The payload source is an argument of the
    steps; an absent key is a nil one. *)
Record ReplicaConfig := MkReplicaConfig {
  rc_ID : uint32;
  rc_Peers : gmap uint32 bytes;
  rc_Key : PrivateKey;
  rc_Keys : gmap uint32 PublicKey;
  rc_QueueSize : Z;
  rc_RoundTimeout : Z;
  rc_MaxRoundTimeout : Z;
}.

Record Replica := MkReplica {
  r_id : uint32;
  r_loop : Loop;
  r_net : Transport Node;
  r_commits : list Block;
  r_commands : uint64;
  r_proposed : gmap uint64 Z;
  r_declined : uint64;
  (** The latencies recorded; [None] before the measurement starts. *)
  r_m : option (list Z);
  r_result : option (list Z);
}.

Definition validators_of (keys : gmap uint32 PublicKey) : list uint32 := sort_by (fun i => i) (map_to_list keys).*1.

(** The configuration [New] gives the core. *)
Definition core_config (cfg : ReplicaConfig) : Config :=
  let roundTimeout := if (rc_RoundTimeout cfg =? 0)%Z then defaultRoundTimeout else rc_RoundTimeout cfg in
  let maxRoundTimeout := if (rc_MaxRoundTimeout cfg =? 0)%Z then wrap_int64 (64 * roundTimeout) else rc_MaxRoundTimeout cfg in
  MkConfig (rc_ID cfg) (validators_of (rc_Keys cfg)) NewMemLedger (signer_crypto (NewSigner (rc_Key cfg) (rc_Keys cfg)) [])
    (NewBackoff roundTimeout maxRoundTimeout backoffFactor) 0 0 true.

(** [New]; [None] is a panic: on the peers, on the keys, on the queue's size, or in
    [diem.New]. *)
Definition NewReplica (cfg : ReplicaConfig) : option Replica :=
  let queueSize := if (rc_QueueSize cfg =? 0)%Z then defaultQueueSize else rc_QueueSize cfg in
  if negb (size (rc_Peers cfg) =? 0)%nat && negb (size (rc_Peers cfg) =? size (rc_Keys cfg))%nat then None
  else if bool_decide (rc_Keys cfg !! rc_ID cfg = None) then None
  else
    let validators := validators_of (rc_Keys cfg) in
    let signer := NewSigner (rc_Key cfg) (rc_Keys cfg) in
    if (queueSize <? 0)%Z then None
    else
      let q := NewQueue (Z.to_nat queueSize) in
      net ← NewTransport (NewVerifier (signer_crypto signer []) (QuorumSize (Z.of_nat (length validators)))) 0;
      core ← New (core_config cfg);
      Some (MkReplica (rc_ID cfg) (NewLoop core q) net [] 0 ∅ 0 None None).

(** ** The callbacks *)

Definition set_net (net : Transport Node) (r : Replica) : Replica :=
  MkReplica (r_id r) (r_loop r) net (r_commits r) (r_commands r) (r_proposed r) (r_declined r) (r_m r) (r_result r).
Definition set_loop (l : Loop) (r : Replica) : Replica :=
  MkReplica (r_id r) l (r_net r) (r_commits r) (r_commands r) (r_proposed r) (r_declined r) (r_m r) (r_result r).

(** [stamper.Proposal]. *)
Definition stampProposal (now : Z) (r : Replica) (p : ProposalMsg) : Replica :=
  MkReplica (r_id r) (r_loop r) (sendProposal (r_net r) p) (r_commits r) (r_commands r)
    (<[Block_GetRound (pm_block p) := now]> (r_proposed r)) (r_declined r) (r_m r) (r_result r).

(** A latency recorded with no measurement is a nil dereference. *)
Definition commit (now : Z) (r : Replica) (b : Block) : option Replica :=
  '(proposed, m) ←
    match r_proposed r !! b_round b with
    | Some t =>
        if (b_author b =? r_id r)%N then
          m ← r_m r;
          Some (filter (fun e : uint64 * Z => ~ (e.1 <= b_round b)%N) (r_proposed r), Some (m ++ [time_Sub now t]))
        else Some (r_proposed r, r_m r)
    | None => Some (r_proposed r, r_m r)
    end;
  Some (MkReplica (r_id r) (r_loop r) (r_net r) (r_commits r ++ [b])
    (r_commands r +u64 N.of_nat (length (b_payload b))) proposed (r_declined r) m (r_result r)).

Definition observe (r : Replica) (s : State) : Replica :=
  MkReplica (r_id r) (r_loop r) (r_net r) (r_commits r) (r_commands r) (r_proposed r) (st_DeclinedMissingAncestor s) (r_m r) (r_result r).

(** What the clock reads when a block is committed, and when a proposal is sent. *)
Record clock := MkClock { at_commit : Block -> Z; at_send : ProposalMsg -> Z }.

Definition callback (tm : clock) (r : Replica) (e : effect) : Replica :=
  match e with
  | NetProposal p => stampProposal (at_send tm p) r p
  | NetVote v to => set_net (sendVote (r_net r) v to) r
  | NetTimeout m => set_net (sendTimeout (r_net r) m) r
  | NetRequestBlock id => set_net (sendRequestBlock (r_net r) id) r
  | Observe _ s => observe r s
  | ClockAfterFunc _ _ | TimerStop | ReplyBlock _ => r
  end.

Fixpoint commit_all (tm : clock) (r : Replica) (bs : list Block) : option Replica :=
  match bs with [] => Some r | b :: bs => r ← commit (at_commit tm b) r b; commit_all tm r bs end.

(** The callbacks of a step of the core that took the ledger from [before] to where
    it is now. *)
Definition settle (tm : clock) (before : MemLedger) (es : list effect) (r : Replica) : option Replica :=
  r ← commit_all tm r (drop (length (l_onCommit before)) (l_onCommit (c_ledger (lp_core (r_loop r)))));
  Some (fold_left (callback tm) es r).

(** ** The lifecycle *)

(** What happens to a running replica: a message arrives and its handler pushes
    what it lets through, the loop takes an event, the sender takes a call. *)
Inductive replica_act :=
  | ActInput (i : input)
  | ActLoop (cr : Crypto) (txns : list bytes) (tm : clock)
  | ActSender (cfg : list Node).

Fixpoint push_all (l : Loop) (es : list Event) : option Loop :=
  match es with [] => Some l | e :: es => l ← LoopPush l e; push_all l es end.

(** A handler whose push would block is not a step. *)
Definition receive (r : Replica) (i : input) : option Replica :=
  let '(h, evs) := sink (tr_handler (r_net r)) i in
  let net := r_net r in
  l ← push_all (r_loop r) evs;
  Some (set_loop l (set_net (MkTransport h (tr_size net) (tr_out net) (tr_nodes net) (tr_dropped net) (tr_draining net)) r)).

Definition replicaAct (r : Replica) (a : replica_act) : option Replica :=
  match a with
  | ActInput i => receive r i
  | ActLoop cr txns tm =>
      '(l, es, _) ← Tick cr txns (r_loop r);
      settle tm (c_ledger (lp_core (r_loop r))) es (set_loop l r)
  | ActSender cfg =>
      match drain node_ID (r_net r) cfg with
      | None => Some r
      | Some (net, _, _) => Some (set_net net r)
      end
  end.

Fixpoint replicaActs (r : Replica) (az : list replica_act) : option Replica :=
  match az with [] => Some r | a :: az => r ← replicaAct r a; replicaActs r az end.

(** [stop]: the transport goes down, and whatever is queued, and whatever is pushed
    while it goes down, is discarded. *)
Definition stop (r : Replica) : Replica :=
  set_loop (MkLoop (lp_core (r_loop r)) (NewQueue (q_size (lp_q (r_loop r)))) (lp_high (r_loop r)))
    (set_net (drain_stop (r_net r)) r).

Definition startMeasurement (r : Replica) : Replica :=
  MkReplica (r_id r) (r_loop r) (r_net r) (r_commits r) (r_commands r) (r_proposed r) (r_declined r) (Some []) (r_result r).
Definition finish (r : Replica) : Replica :=
  MkReplica (r_id r) (r_loop r) (r_net r) (r_commits r) (r_commands r) (r_proposed r) (r_declined r) (r_m r) (r_m r).

Definition startCore (cr : Crypto) (txns : list bytes) (tm : clock) (r : Replica) : option Replica :=
  '(_, c, es) ← Start cr txns (lp_core (r_loop r));
  settle tm (c_ledger (lp_core (r_loop r))) es (set_loop (MkLoop c (lp_q (r_loop r)) (lp_high (r_loop r))) r).

Definition stopCore (r : Replica) : option Replica :=
  '(_, c, es) ← CoreStop (lp_core (r_loop r));
  Some (set_loop (MkLoop c (lp_q (r_loop r)) (lp_high (r_loop r))) r).

(** [Run]: [waited] is what [WaitForPeers] returned, [early] what happened before
    that, [az] what happens until the context is done with [err]. *)
Definition ReplicaRun (r : Replica) (early : list input) (waited : option ctx_error) (cr : Crypto) (txns : list bytes)
    (tm : clock) (az : list replica_act) (err : ctx_error) : option (Replica * ctx_error) :=
  r ← replicaActs r (ActInput <$> early);
  match waited with
  | Some err => Some (stop r, err)
  | None =>
      r ← startCore cr txns tm (startMeasurement r);
      r ← replicaActs r az;
      r ← stopCore r;
      Some (stop (finish r), err)
  end.

(** ** What callers read *)

Definition ID (r : Replica) : uint32 := r_id r.
Definition Log (r : Replica) : list Block := r_commits r.
Definition Commands (r : Replica) : uint64 := r_commands r.
Definition ReplicaCounters (r : Replica) : Counters := counters (r_net r).
Definition ReplicaDeclined (r : Replica) : uint64 := r_declined r.
Definition ReplicaQueueHighWater (r : Replica) : Z := QueueHighWater (r_loop r).
Definition Result (r : Replica) : option (list Z) := r_result r.
End replica.

Arguments Replica : clear implicits.
Arguments replica_act : clear implicits.

(** ** The log and the counters *)

Definition commands_in (bs : list Block) : N := foldr (fun b n => N.of_nat (length (b_payload b)) + n)%N 0%N bs.
Definition own_blocks (id : uint32) (bs : list Block) : list Block := filter (fun b => b_author b = id) bs.

Lemma commands_in_snoc bs b : commands_in (bs ++ [b]) = (commands_in bs + N.of_nat (length (b_payload b)))%N.
Proof. induction bs as [|x bs IH]; simpl; [lia|]. rewrite IH. lia. Qed.

(** A step only appends to the log, and keeps the observer. *)
Definition log_grows (c : Core) (_ : list effect) (c' : Core) : Prop :=
  l_onCommit (c_ledger c) `prefix_of` l_onCommit (c_ledger c') /\ c_observe c' = c_observe c.

Global Instance log_grows_trace : TraceRel log_grows.
Proof. split; [by split|]. intros c1 es1 c2 es2 c3 [H1 E1] [H2 E2]. split; [by etrans|congruence]. Qed.

Section grows.
Context `{RangeOrder} `{FloatConv} (cr : Crypto).

Lemma Commit_grows l id l' : Commit l id = Some l' -> l_onCommit l `prefix_of` l_onCommit l'.
Proof.
  unfold Commit. case_bool_decide; [by intros [= <-]|]. intros ([chain|] & _ & E)%bind_Some; [|by injection E as <-].
  unfold forget in E. apply bind_Some in E as ([o m] & _ & [= <-]). cbn [l_onCommit].
  destruct (Commit_apply_fold l (reverse chain)) as (_ & _ & _ & E & _). cbn. rewrite E. by apply prefix_app_r.
Qed.

Lemma ProcessQC_grows l t qc l' t' : ProcessQC l t qc = Some (l', t') -> l_onCommit l `prefix_of` l_onCommit l'.
Proof. intros [(_ & -> & _)|(_ & _ & _ & _ & [(_ & -> & _)|(_ & Hc & _)])]%ProcessQC_inv; [done..|by eapply Commit_grows]. Qed.

Lemma grows_calls : calls_ok cr log_grows (fun _ _ => True).
Proof.
  apply calls_ok_tree.
  - intros c es c' _ El Eo. split; [by rewrite El|done].
  - intros qc c a c' es ([l t] & E & [= <- <- <-])%bind_Some. split; [by eapply ProcessQC_grows|done].
  - intros b c a c' es [= <- <- <-]. split; [|done]. cbn [c_ledger set_parts ExecuteAndInsert fst].
    unfold Speculate. by rewrite (Speculate_rec_reads l_onCommit).
  - intros m c a c' es ([[l t] r] & (t1 & E & _)%ProcessVote_cases & [= <- <- <-])%bind_Some. split; [by eapply ProcessQC_grows|done].
Qed.
End grows.

Section invariant.
Context `{RangeOrder} `{FloatConv} `{Ecdsa} {Node : Type} (node_ID : Node -> uint32).

Definition core_of (r : Replica Node) : Core := lp_core (r_loop r).

(** The counters agree with the log. *)
Record tallied (r : Replica Node) : Prop := {
  ta_commands : r_commands r = (commands_in (r_commits r) mod two64)%N;
  ta_latencies : forall m, r_m r = Some m -> length m <= length (own_blocks (r_id r) (r_commits r));
}.

Record replica_inv (r : Replica Node) : Prop := {
  ri_log : r_commits r = l_onCommit (c_ledger (core_of r));
  ri_tallied : tallied r;
  ri_declined : r_declined r = DeclinedMissingAncestor (c_safety (core_of r));
  ri_observe : c_observe (core_of r) = true;
}.

(** The parts of a replica that callbacks leave alone. *)
Definition same_frame (r r' : Replica Node) : Prop :=
  r_id r' = r_id r /\ r_loop r' = r_loop r /\ tr_handler (r_net r') = tr_handler (r_net r) /\
  r_result r' = r_result r /\ (is_Some (r_m r) -> is_Some (r_m r')).

Lemma own_blocks_snoc id bs b :
  length (own_blocks id (bs ++ [b])) = length (own_blocks id bs) + (if decide (b_author b = id) then 1 else 0).
Proof.
  unfold own_blocks. rewrite filter_app, length_app. f_equal. destruct (decide _) as [E|E].
  - by rewrite filter_cons_True.
  - by rewrite filter_cons_False.
Qed.

Lemma commit_spec now r b :
  is_Some (r_m r) -> tallied r ->
  exists r', commit now r b = Some r' /\ same_frame r r' /\ tallied r' /\
    r_commits r' = r_commits r ++ [b] /\ r_declined r' = r_declined r.
Proof.
  intros [m Hm] [Hcmd Hlat]. unfold commit.
  assert (forall proposed m', length m' <= length (own_blocks (r_id r) (r_commits r ++ [b])) ->
    tallied (MkReplica (r_id r) (r_loop r) (r_net r) (r_commits r ++ [b]) (r_commands r +u64 N.of_nat (length (b_payload b)))
      proposed (r_declined r) (Some m') (r_result r))) as Ht.
  { intros proposed m' Hl. split; cbn [r_commands r_commits r_m r_id]; [|by intros ? [= <-]].
    rewrite Hcmd, commands_in_snoc. unfold add64. by rewrite N.Div0.add_mod_idemp_l. }
  specialize (Hlat m Hm). rewrite own_blocks_snoc in Ht.
  destruct (r_proposed r !! b_round b) as [t|]; [destruct (N.eqb_spec (b_author b) (r_id r)) as [E|E]|]; rewrite Hm; cbn [mbind option_bind];
    (eexists; split; [reflexivity|]); (split; [by split_and!; [| | | |eexists]|]); (split; [apply Ht|by split_and!]);
    rewrite ?length_app, ?decide_True by done; simpl; lia.
Qed.

Lemma commit_all_spec tm bs r :
  is_Some (r_m r) -> tallied r ->
  exists r', commit_all tm r bs = Some r' /\ same_frame r r' /\ tallied r' /\
    r_commits r' = r_commits r ++ bs /\ r_declined r' = r_declined r.
Proof.
  revert r. induction bs as [|b bs IH]; intros r Hm Ht; simpl.
  { exists r. rewrite app_nil_r. by split_and!. }
  destruct (commit_spec (at_commit tm b) r b Hm Ht) as (r1 & E1 & (F1 & F2 & F3 & F4 & F5) & T1 & C1 & D1).
  destruct (IH r1 (F5 Hm) T1) as (r2 & E2 & (G1 & G2 & G3 & G4 & G5) & T2 & C2 & D2).
  exists r2. rewrite E1. simpl. split; [exact E2|]. split; [|split; [exact T2|]].
  - split_and!; [congruence..|auto].
  - rewrite C2, C1, <- (assoc_L (++)). split_and!; [done|congruence..].
Qed.

(** The last snapshot the observer saw decides what it stored. *)
Lemma callbacks_spec tm es (r : Replica Node) :
  let r' := fold_left (callback tm) es r in
  same_frame r r' /\ r_commits r' = r_commits r /\ r_commands r' = r_commands r /\ r_m r' = r_m r.
Proof.
  revert r. induction es as [|e es IH]; intros r; simpl; [by split_and!|].
  destruct (IH (callback tm r e)) as ((A1 & A2 & A3 & A7 & _) & A4 & A5 & A6).
  assert (tr_handler (r_net (callback tm r e)) = tr_handler (r_net r)) as Eh
    by (destruct e; try done; cbn; unfold sendProposal, sendVote, sendTimeout, sendRequestBlock, enqueue; by destruct (_ <? _)%nat).
  split; [split_and!|split_and!]; rewrite ?A1, ?A2, ?A3, ?A4, ?A5, ?A6, ?A7; try done; try (by destruct e).
Qed.

Lemma settle_spec tm before es (r : Replica Node) :
  is_Some (r_m r) -> tallied r -> r_commits r = l_onCommit before ->
  l_onCommit before `prefix_of` l_onCommit (c_ledger (core_of r)) ->
  exists r1 r', settle tm before es r = Some r' /\ r' = fold_left (callback tm) es r1 /\ r_declined r1 = r_declined r /\
    same_frame r r' /\ tallied r' /\ r_commits r' = l_onCommit (c_ledger (core_of r)).
Proof.
  intros Hm Ht Hc [k Hk]. unfold settle. fold (core_of r). rewrite Hk, drop_app_length.
  destruct (commit_all_spec tm k r Hm Ht) as (r1 & E1 & (F1 & F2 & F3 & F4 & F5) & T1 & C1 & D1).
  exists r1, (fold_left (callback tm) es r1). rewrite E1. split; [done|]. split; [done|]. split; [done|].
  destruct (callbacks_spec tm es r1) as ((A1 & A2 & A3 & A7 & A8) & A4 & A5 & A6). split; [|split].
  - split_and!; [congruence..|auto].
  - destruct T1 as [T1 T2]. split; [by rewrite A4, A5|]. intros m. rewrite A6, A4, A1. apply T2.
  - by rewrite A4, C1, Hc.
Qed.

(** The observer has the last word of a step. *)
Lemma Step_observed cr txns e c c' es :
  c_observe c = true -> Step cr txns e c = Some (tt, c', es) ->
  exists es1, es = es1 ++ [Observe e (CoreState c')] /\ log_grows c es c'.
Proof.
  intros Ho E. pose proof (does_Step cr txns log_grows _ (grows_calls cr) e ltac:(by destruct e) c tt c' es E) as Hg.
  unfold Step, mbind, M_bind in E. destruct (dispatch cr txns e c) as [[[[] c1] es1]|] eqn:Ed; [|done].
  pose proof (does_dispatch cr txns log_grows _ (grows_calls cr) e ltac:(by destruct e) c tt c1 es1 Ed) as [_ Ho1].
  unfold gets in E. rewrite Ho1, Ho in E. cbn in E. injection E as <- <-. by exists es1.
Qed.

Lemma push_all_core l es l' : push_all l es = Some l' -> lp_core l' = lp_core l /\ q_events (lp_q l') = q_events (lp_q l) ++ es.
Proof.
  revert l. induction es as [|e es IH]; intros l; simpl; [intros [= <-]; by rewrite app_nil_r|].
  intros (l1 & E & Hp)%bind_Some. destruct (IH _ Hp) as [-> ->]. apply bind_Some in E as (q & Eq & [= <-]). simpl.
  split; [done|]. unfold Push in Eq. destruct (_ <? _)%nat; [|done]. injection Eq as <-. simpl. by rewrite <- (assoc_L (++)).
Qed.

(** Only the loop's events change the core. *)
Lemma receive_inv (r r' : Replica Node) i :
  receive r i = Some r' ->
  core_of r' = core_of r /\ q_events (lp_q (r_loop r')) = q_events (lp_q (r_loop r)) ++ (sink (tr_handler (r_net r)) i).2 /\
  tr_handler (r_net r') = (sink (tr_handler (r_net r)) i).1 /\ r_id r' = r_id r /\ r_m r' = r_m r /\ r_result r' = r_result r /\
  (replica_inv r -> replica_inv r').
Proof.
  unfold receive. destruct (sink _ _) as [h evs]. intros (l & (Ec & Eq)%push_all_core & [= <-])%bind_Some. cbn.
  split_and!; try done. intros [A [B1 B2] C D]. unfold core_of in *.
  split; unfold core_of; cbn; [by rewrite A, Ec|by split|by rewrite C, Ec|by rewrite Ec].
Qed.

(** A pass of the loop is a step of the core on the oldest event, if there is one;
    its callbacks never fail. *)
Lemma loop_act_spec (r : Replica Node) cr txns tm l es b :
  replica_inv r -> is_Some (r_m r) -> Tick cr txns (r_loop r) = Some (l, es, b) ->
  exists r', replicaAct node_ID r (ActLoop cr txns tm) = Some r' /\ replica_inv r' /\ same_frame (set_loop l r) r'.
Proof.
  intros [A B C D] Hm Et. cbn [replicaAct]. rewrite Et. cbn [mbind option_bind]. unfold Tick, Pop in Et.
  destruct (q_events (lp_q (r_loop r))) as [|e q] eqn:Eq.
  - injection Et as <- <- <-. destruct (settle_spec tm (c_ledger (core_of r)) [] (set_loop (r_loop r) r)) as (r1 & r' & Es & Er & Ed & Hf & Ht & Hc);
      [done|by destruct B|done|done|]. exists r'. split; [exact Es|]. split; [|exact Hf]. destruct Hf as (_ & Hl & _).
    split; unfold core_of; rewrite ?Hl; [exact Hc|exact Ht|subst r'; simpl; by rewrite Ed|done].
  - apply bind_Some in Et as ([l3 es3] & Hl & [= <- <- <-]). unfold loopStep in Hl.
    apply bind_Some in Hl as ([[[] c1] es4] & Hst & [= <- <-]). cbn [lp_core] in Hst.
    destruct (Step_observed cr txns e _ c1 es4 D Hst) as (es1 & Ees & Hpre & Hob). cbn [lp_q lp_high].
    match goal with |- context [set_loop ?l r] => set (l1 := l) end.
    destruct (settle_spec tm (c_ledger (core_of r)) es4 (set_loop l1 r)) as (r1 & r' & Es & Er & Ed & Hf & Ht & Hc);
      [done|by destruct B|done|done|]. exists r'. split; [exact Es|]. split; [|exact Hf]. destruct Hf as (_ & Hl & _).
    split; unfold core_of; rewrite ?Hl; [exact Hc|exact Ht| |by rewrite <- D].
    subst r' es4. rewrite fold_left_app. reflexivity.
Qed.

Lemma act_inv (r r' : Replica Node) a :
  replica_inv r -> is_Some (r_m r) -> replicaAct node_ID r a = Some r' ->
  replica_inv r' /\ is_Some (r_m r') /\ r_id r' = r_id r /\ r_result r' = r_result r.
Proof.
  intros Hi Hm E. destruct a as [i|cr txns tm|cfg].
  - apply receive_inv in E as (_ & _ & _ & Eid & Em & Er & Hinv). rewrite Em. auto.
  - pose proof E as E'. cbn [replicaAct] in E'. apply bind_Some in E' as ([[l es] b] & Et & Es).
    destruct (loop_act_spec r cr txns tm l es b Hi Hm Et) as (r1 & E1 & Hi1 & F1 & F2 & F3 & F4 & F5).
    rewrite E in E1. injection E1 as <-. split; [done|]. split; [by apply F5|done].
  - cbn [replicaAct] in E. destruct (drain _ _ _) as [[[net fn] sd]|]; injection E as <-; [|done].
    destruct Hi as [A [B1 B2] C D]. split; [split; try done; by split|done].
Qed.

Lemma acts_inv (az : list (replica_act Node)) r r' :
  replica_inv r -> is_Some (r_m r) -> replicaActs node_ID r az = Some r' ->
  replica_inv r' /\ is_Some (r_m r') /\ r_id r' = r_id r /\ r_result r' = r_result r.
Proof.
  revert r. induction az as [|a az IH]; intros r Hi Hm; simpl; [by intros [= <-]|].
  intros (r1 & E & Hr)%bind_Some. destruct (act_inv r r1 a Hi Hm E) as (Hi1 & Hm1 & E1 & E2).
  destruct (IH r1 Hi1 Hm1 Hr) as (Hi2 & Hm2 & E3 & E4). split_and!; [done..|congruence|congruence].
Qed.

Lemma early_inv (ins : list input) (r r' : Replica Node) :
  replicaActs node_ID r (ActInput <$> ins) = Some r' ->
  core_of r' = core_of r /\ r_id r' = r_id r /\ r_m r' = r_m r /\ r_result r' = r_result r /\ (replica_inv r -> replica_inv r').
Proof.
  revert r. induction ins as [|i ins IH]; intros r; simpl; [by intros [= <-]|].
  intros (r1 & (E1 & _ & _ & E2 & E3 & E4 & E5)%receive_inv & Hr)%bind_Some. destruct (IH r1 Hr) as (F1 & F2 & F3 & F4 & F5).
  split_and!; [congruence..|auto].
Qed.

Lemma startMeasurement_inv (r : Replica Node) : replica_inv r -> replica_inv (startMeasurement r).
Proof. intros [A [B1 B2] C D]. split; try done. split; [done|]. intros m [= <-]. simpl. lia. Qed.

(** Starting the core shows the observer nothing and asks Safety nothing. *)
Definition unobserved (c : Core) (es : list effect) (c' : Core) : Prop :=
  c_safety c' = c_safety c /\ forall tm (r : Replica Node), r_declined (fold_left (callback tm) es r) = r_declined r.

Global Instance unobserved_trace : TraceRel unobserved.
Proof.
  split; [by split|]. intros c1 es1 c2 es2 c3 [A1 A2] [B1 B2]. split; [congruence|].
  intros tm r. by rewrite fold_left_app, B2, A2.
Qed.

Lemma Start_unobserved cr txns : does unobserved (Start cr txns).
Proof.
  unfold Start. does_step; [|unfold processNewRoundEvent, getLeader; repeat does_step; apply does_emit; by split].
  intros c a c' es E. unfold pmAdvanceRoundQC in E. rewrite AdvanceRoundQC_eq in E.
  destruct (_ <? _)%N; cbv zeta in E; apply (inj Some) in E; injection E as <- <- <-; [by split|].
  split; [done|]. intros tm r. cbn [startTimer Pacemaker.Stop p_dur fst snd]. by destruct (p_timer _).
Qed.

Lemma startCore_spec cr txns tm (r r' : Replica Node) :
  replica_inv r -> is_Some (r_m r) -> startCore cr txns tm r = Some r' ->
  replica_inv r' /\ is_Some (r_m r') /\ r_id r' = r_id r /\ r_result r' = r_result r /\
  tr_handler (r_net r') = tr_handler (r_net r) /\ lp_q (r_loop r') = lp_q (r_loop r) /\
  exists es, Start cr txns (core_of r) = Some (tt, core_of r', es).
Proof.
  intros [A B C D] Hm E. unfold startCore in E. apply bind_Some in E as ([[[] c] es] & Est & Es).
  destruct (does_Start cr txns log_grows _ (grows_calls cr) _ tt c es Est) as [Hpre Hob].
  destruct (Start_unobserved cr txns _ tt c es Est) as [Hsafe Hdec].
  set (l1 := MkLoop c (lp_q (r_loop r)) (lp_high (r_loop r))) in *.
  destruct (settle_spec tm (c_ledger (core_of r)) es (set_loop l1 r)) as (r1 & r2 & Es2 & Er & Ed & (F1 & F2 & F3 & F4 & F5) & Ht & Hc);
    [done|by destruct B|done|done|].
  fold (core_of r) in Es. rewrite Es2 in Es. injection Es as ->. unfold core_of. rewrite F2. cbn.
  split; [|by split_and!; [apply F5|..|exists es]].
  split; unfold core_of; rewrite ?F2; [exact Hc|exact Ht| |by rewrite <- D].
  subst r'. rewrite Hdec, Ed. cbn. rewrite C. by rewrite Hsafe.
Qed.
End invariant.

Section built.
Context `{Ecdsa} {Node : Type}.

Lemma validators_perm (keys : gmap uint32 PublicKey) : validators_of keys ≡ₚ (map_to_list keys).*1.
Proof. apply sort_by_perm. Qed.

Lemma length_validators (keys : gmap uint32 PublicKey) : length (validators_of keys) = size keys.
Proof. unfold validators_of. by rewrite length_sort_by, length_fmap, length_map_to_list. Qed.

(** What [New] builds, when it does. *)
Lemma NewReplica_inv (cfg : ReplicaConfig) (r : Replica Node) :
  NewReplica cfg = Some r ->
  New (core_config cfg) = Some (core_of r) /\ replica_inv r /\ r_id r = rc_ID cfg /\
  r_m r = None /\ r_result r = None /\ q_events (lp_q (r_loop r)) = [] /\
  h_ver (tr_handler (r_net r)) = cfg_verifier (core_config cfg) /\ is_Some (rc_Keys cfg !! rc_ID cfg).
Proof.
  unfold NewReplica. destruct (_ && _); [done|]. case_bool_decide as Hk; [done|]. destruct (_ <? 0)%Z; [done|].
  intros (net & En & (c & Ec & [= <-])%bind_Some)%bind_Some. unfold core_of. cbn.
  split; [done|]. split; [|unfold NewTransport in En; cbn in En; injection En as <-; split_and!; try done;
    by apply not_eq_None_Some].
  unfold New in Ec. destruct (_ <? _)%Z; [done|]. apply (inj Some) in Ec as <-. split; [done|split; [done|by intros m [= ]]|done|done].
Qed.
(** When [New] builds a replica. *)
Lemma NewReplica_iff (cfg : ReplicaConfig) :
  is_Some (NewReplica (Node := Node) cfg) <->
    (size (rc_Peers cfg) = 0 \/ size (rc_Peers cfg) = size (rc_Keys cfg)) /\ is_Some (rc_Keys cfg !! rc_ID cfg) /\
    (0 <= rc_QueueSize cfg)%Z /\
    (defaultWindowSize + Z.max (Faulty (Z.of_nat (size (rc_Keys cfg)))) 1 <= defaultHistory)%Z.
Proof.
  unfold NewReplica. destruct (Nat.eqb_spec (size (rc_Peers cfg)) 0) as [E0|E0], (Nat.eqb_spec (size (rc_Peers cfg)) (size (rc_Keys cfg))) as [E1|E1];
      cbn [negb andb]; [..|split; [intros []; discriminate|tauto]];
    (case_bool_decide as Hk; [split; [intros []; discriminate|]; rewrite Hk; intros (_ & [] & _); discriminate|];
     assert (is_Some (rc_Keys cfg !! rc_ID cfg)) as Hs by (by apply not_eq_None_Some);
     destruct (Z.eqb_spec (rc_QueueSize cfg) 0) as [Eq|Eq];
     [|destruct (Z.ltb_spec (rc_QueueSize cfg) 0); [split; [intros []; discriminate|lia]|]];
     cbn; unfold New; cbn; rewrite length_validators;
     destruct (Z.ltb_spec defaultHistory (defaultWindowSize + Z.max (Faulty (Z.of_nat (size (rc_Keys cfg)))) 1)) as [Hl|Hl];
     unfold defaultHistory, defaultWindowSize in *; split; first [intros []; discriminate|lia|intros _; split_and!; auto; lia|intros; eauto]).
Qed.
End built.

(** C30. [New] builds a replica exactly when the deployment is sound: peers, if any
    are listed, as many as keys; a key under its own id; a queue size that is not
    negative; and few enough replicas for the ledger's history to cover the window
    leader election reads. The core and the edge then share one verifier; the
    validators are the ids that have a key, in increasing order; and every other
    replica with the same keys, whatever its own id and private key, gets the same
    validators and accepts the same messages. *)
Theorem new_replica_spec `{Ecdsa} {Node : Type} (cfg : ReplicaConfig) :
  (is_Some (NewReplica (Node := Node) cfg) <->
     (size (rc_Peers cfg) = 0 \/ size (rc_Peers cfg) = size (rc_Keys cfg)) /\ is_Some (rc_Keys cfg !! rc_ID cfg) /\
     (0 <= rc_QueueSize cfg)%Z /\
     (defaultWindowSize + Z.max (Faulty (Z.of_nat (size (rc_Keys cfg)))) 1 <= defaultHistory)%Z) /\
  (forall r : Replica Node, NewReplica cfg = Some r ->
     New (core_config cfg) = Some (lp_core (r_loop r)) /\
     h_ver (tr_handler (r_net r)) = cfg_verifier (core_config cfg)) /\
  StronglySorted N.lt (validators_of (rc_Keys cfg)) /\
  (forall i, i ∈ validators_of (rc_Keys cfg) <-> is_Some (rc_Keys cfg !! i)) /\
  (forall cfg', rc_Keys cfg' = rc_Keys cfg ->
     cfg_Validators (core_config cfg') = cfg_Validators (core_config cfg) /\
     same_verifier (cfg_verifier (core_config cfg')) (cfg_verifier (core_config cfg))).
Proof.
  split; [|split; [|split; [|split]]].
  - apply NewReplica_iff.
  - intros r (E & _ & _ & _ & _ & _ & Ev & _)%NewReplica_inv. by split.
  - pose proof (sort_by_strict (fun i : uint32 => i) (map_to_list (rc_Keys cfg)).*1) as Hs. rewrite list_fmap_id in Hs.
    apply Hs, NoDup_fst_map_to_list.
  - intros i. rewrite validators_perm, list_elem_of_fmap. split.
    + intros ([j pk] & -> & Hin%elem_of_map_to_list). by eexists.
    + intros [pk Hin]. exists (i, pk). split; [done|]. by apply elem_of_map_to_list.
  - intros cfg' E. unfold core_config. cbn. rewrite E. by split.
Qed.

(** C9. What a replica reports is what it did. Run from [New] under any
    interleaving of messages, loop passes and sends, a replica's log is exactly
    the sequence of blocks its ledger committed, its command count is the number of
    commands in them modulo the counter's width, its count of declined votes is the
    Safety module's, and it has recorded at most one latency for each committed block
    of its own. It ends with an empty queue, a sender that has stopped and no round
    timer, with the context's error; and a replica whose peers never came up has
    committed nothing and has no result. *)
Theorem replica_log `{RangeOrder} `{FloatConv} `{Ecdsa} {Node : Type} (node_ID : Node -> uint32) (cfg : ReplicaConfig)
    (r0 r : Replica Node) early waited cr txns tm az err err' :
  NewReplica cfg = Some r0 ->
  ReplicaRun node_ID r0 early waited cr txns tm az err = Some (r, err') ->
  ID r = rc_ID cfg /\ Log r = l_onCommit (c_ledger (lp_core (r_loop r))) /\
  Commands r = (commands_in (Log r) mod two64)%N /\
  ReplicaDeclined r = DeclinedMissingAncestor (c_safety (lp_core (r_loop r))) /\
  (forall m, Result r = Some m -> length m <= length (own_blocks (ID r) (Log r))) /\
  q_events (lp_q (r_loop r)) = [] /\ tr_draining (r_net r) = false /\ p_timer (c_pacemaker (lp_core (r_loop r))) = false /\
  match waited with
  | Some e => err' = e /\ Log r = [] /\ Result r = None
  | None => err' = err /\ is_Some (Result r)
  end.
Proof.
  intros (Hn & Hi0 & Eid & Em & Er & _)%NewReplica_inv (r1 & (C1 & I1 & M1 & R1 & Hi1)%early_inv & E)%bind_Some.
  specialize (Hi1 Hi0). assert (c_ledger (core_of r0) = NewMemLedger /\ p_timer (c_pacemaker (core_of r0)) = false) as [El Ept].
  { unfold New in Hn. destruct (_ <? _)%Z; [done|]. by apply (inj Some) in Hn as <-. }
  destruct waited as [e|].
  - injection E as <- <-. destruct Hi1 as [A [B1 B2] C D]. unfold core_of in *. cbn. unfold ID, Log, Commands, ReplicaDeclined, Result. cbn.
    rewrite R1, Er, I1, Eid, C1, Ept. split_and!; try done; [by rewrite A, C1|by rewrite C, C1|by rewrite A, C1, El].
  - apply bind_Some in E as (r2 & E2 & (r3 & E3 & (r4 & E4 & [= <- <-])%bind_Some)%bind_Some).
    pose proof (startMeasurement_inv r1 Hi1) as Him.
    apply startCore_spec in E2 as (Hi2 & Hm2 & I2 & R2 & _); [|done|by eexists].
    apply (acts_inv node_ID) in E3 as (Hi3 & Hm3 & I3 & R3); [|done..].
    unfold stopCore in E4. apply bind_Some in E4 as ([[[] c] es] & E4 & [= <-]). unfold CoreStop in E4. cbn in E4. injection E4 as <- <-.
    destruct Hi3 as [A [B1 B2] C D]. unfold core_of in *. unfold ID, Log, Commands, ReplicaDeclined, Result. cbn.
    split_and!; try done. rewrite I3, I2. cbn. by rewrite I1.
Qed.

(** A replica with no result never started, and has committed nothing. *)
Lemma run_result `{RangeOrder} `{FloatConv} `{Ecdsa} {Node : Type} (node_ID : Node -> uint32) (cfg : ReplicaConfig)
    (r0 r : Replica Node) early waited cr txns tm az err err' :
  NewReplica cfg = Some r0 -> ReplicaRun node_ID r0 early waited cr txns tm az err = Some (r, err') ->
  Log r = [] \/ is_Some (Result r).
Proof.
  intros (Hn & Hi0 & _ & Em & _)%NewReplica_inv (r1 & (C1 & _ & _ & _ & Hi1)%early_inv & E)%bind_Some.
  specialize (Hi1 Hi0). destruct waited as [e|].
  - injection E as <- <-. left. unfold Log. cbn. rewrite (ri_log _ Hi1), C1. unfold New in Hn.
    destruct (_ <? _)%Z; [done|]. by apply (inj Some) in Hn as <-.
  - right. apply bind_Some in E as (r2 & E2 & (r3 & E3 & (r4 & E4 & [= <- <-])%bind_Some)%bind_Some).
    pose proof (startMeasurement_inv r1 Hi1) as Him.
    apply startCore_spec in E2 as (Hi2 & Hm2 & _); [|done|by eexists].
    apply (acts_inv node_ID) in E3 as (_ & Hm3 & _); [|done..].
    apply bind_Some in E4 as ([[[] c] es] & _ & [= <-]). done.
Qed.

(** ** Commits come before proposals

    A handler is two programs in sequence: the first sends no proposal, the second
    leaves the ledger alone. *)

Definition no_proposal (_ : Core) (es : list effect) (_ : Core) : Prop := sent_proposals es = [].

Global Instance no_proposal_trace : TraceRel no_proposal.
Proof. split; [done|]. unfold no_proposal, sent_proposals. intros ? es1 ? es2 ? H1 H2. by rewrite omap_app, H1, H2. Qed.

Section phases.
Context `{RangeOrder} `{FloatConv} (cr : Crypto) (txns : list bytes).

Lemma startTimer_no_proposal p r : sent_proposals (startTimer p r).2 = [].
Proof. cbn. by destruct (p_timer p). Qed.
Lemma LocalTimeoutRound_no_proposal p s t p' s' es : LocalTimeoutRound cr p s t = (p', s', es) -> sent_proposals es = [].
Proof.
  intros (es1 & es2 & -> & Est & Hr)%LocalTimeoutRound_inv. unfold sent_proposals. rewrite omap_app.
  pose proof (startTimer_no_proposal p (p_currentRound p)) as Ht. rewrite Est in Ht. unfold sent_proposals in Ht. cbn [snd] in Ht.
  rewrite Ht. by destruct Hr as [[-> _]|(i & _ & ->)].
Qed.

Lemma quiet_treeProcessQC qc : does no_proposal (treeProcessQC qc).
Proof. by intros c a c' es ([l t] & _ & [= <- <- <-])%bind_Some. Qed.
Lemma quiet_treeProcessVote m : does no_proposal (treeProcessVote cr m).
Proof. by intros c a c' es ([[l t] r] & _ & [= <- <- <-])%bind_Some. Qed.
Lemma quiet_leadersUpdate qc : does no_proposal (leadersUpdate qc).
Proof. by intros c a c' es (e & _ & [= <- <- <-])%bind_Some. Qed.
Lemma quiet_pmAdvanceRoundQC qc : does no_proposal (pmAdvanceRoundQC qc).
Proof.
  intros c a c' es E. unfold pmAdvanceRoundQC in E. rewrite AdvanceRoundQC_eq in E.
  destruct (_ <? _)%N; cbv zeta in E; apply (inj Some) in E; injection E as <- <- <-; [done|]; unfold no_proposal; cbn; by destruct (p_timer _).
Qed.
Lemma quiet_pmAdvanceRoundTC tc : does no_proposal (pmAdvanceRoundTC tc).
Proof.
  intros c a c' es E. unfold pmAdvanceRoundTC in E. rewrite AdvanceRoundTC_eq in E. destruct tc as [t|]; [|by injection E as <- <- <-].
  destruct (_ <? _)%N; cbv zeta in E; apply (inj Some) in E; injection E as <- <- <-; [done|]; unfold no_proposal; cbn; by destruct (p_timer _).
Qed.
Lemma quiet_pmLocalTimeoutRound : does no_proposal (pmLocalTimeoutRound cr).
Proof.
  intros c a c' es E. unfold pmLocalTimeoutRound in E. destruct (LocalTimeoutRound _ _ _ _) as [[p s] es'] eqn:El.
  injection E as <- <- <-. by eapply LocalTimeoutRound_no_proposal.
Qed.
Lemma quiet_pmProcessRemoteTimeout m : does no_proposal (pmProcessRemoteTimeout cr m).
Proof.
  intros c a c' es E. unfold pmProcessRemoteTimeout in E. destruct (ProcessRemoteTimeout _ _ _ _ _) as [[[p s] es'] tc] eqn:Er.
  injection E as <- <- <-. unfold no_proposal.
  apply ProcessRemoteTimeout_inv in Er as [(_ & _ & _ & -> & _)|[(_ & _ & _ & _ & -> & _)|(_ & _ & Hc & _)]]; [done..|].
  destruct Hc as [(_ & _ & _ & ->)|(_ & es2 & -> & El)]; [done|]. apply LocalTimeoutRound_no_proposal in El.
  unfold sent_proposals in *. rewrite omap_app, El, app_nil_r. cbn. by destruct (p_timer _).
Qed.
Lemma quiet_safetyMakeVote b tc : does no_proposal (safetyMakeVote cr b tc).
Proof. intros c a c' es E. unfold safetyMakeVote in E. destruct (MakeVote _ _ _ _ _ _) as [s v]. by injection E as <- <- <-. Qed.
Lemma quiet_processCertificateQC qc : does no_proposal (processCertificateQC qc).
Proof.
  unfold processCertificateQC. repeat does_step; [apply quiet_treeProcessQC|apply quiet_leadersUpdate|apply quiet_pmAdvanceRoundQC].
Qed.
Lemma quiet_insert b : does no_proposal (insert b).
Proof. unfold insert. does_step; [by intros c a c' es [= <- <- <-]|]. repeat does_step. by apply does_emit. Qed.

(** Sequencing is associative. *)
Lemma M_assoc {A B C} (m : M A) (f : A -> M B) (g : B -> M C) c :
  (y ← (x ← m; f x); g y) c = (x ← m; y ← f x; g y) c.
Proof.
  unfold mbind, M_bind. destruct (m c) as [[[a c1] es1]|]; [|done]. destruct (f a c1) as [[[b c2] es2]|]; [|done].
  destruct (g b c2) as [[[d c3] es3]|]; [|done]. by rewrite (assoc_L (++)).
Qed.
Lemma M_cong {A B} (m : M A) (f g : A -> M B) c : (forall a c, f a c = g a c) -> (x ← m; f x) c = (x ← m; g x) c.
Proof. intros Hf. unfold mbind, M_bind. destruct (m c) as [[[a c1] es1]|]; [|done]. by rewrite Hf. Qed.

Definition phased (m : M unit) : Prop :=
  exists B (m1 : M B) (m2 : B -> M unit), (forall c, m c = (b ← m1; m2 b) c) /\
    does no_proposal m1 /\ (forall b, does same_ledger (m2 b)).

Lemma phased_quiet m : does no_proposal m -> phased m.
Proof.
  intros Hm. exists unit, m, mret. split; [|split; [done|intros b; apply (does_ret same_ledger)]].
  intros c. unfold mbind, M_bind, mret, M_ret. destruct (m c) as [[[[] c1] es1]|]; [|done]. by rewrite app_nil_r.
Qed.

Lemma phased_vote m : phased (processVoteMsg cr txns m).
Proof.
  exists bool. exists (current ← gets (fun c => CurrentRound (c_pacemaker c));
    if (current +u64 maxRoundLead <? VoteInfo_GetRound (vm_vote_info m))%N || (VoteInfo_GetRound (vm_vote_info m) +u64 1 <? current)%N
    then mret false else qc ← treeProcessVote cr m; match qc with None => mret false | Some _ => processCertificateQC qc end).
  exists (fun moved => if (moved : bool) then processNewRoundEvent cr txns None else mret tt). split; [|split].
  - intros c. rewrite M_assoc. apply M_cong. intros current c1. destruct (_ || _); [done|]. rewrite M_assoc. apply M_cong.
    intros [q|] c2; [|done]. apply M_cong. intros [|] c3; reflexivity.
  - does_step; [apply (does_gets no_proposal)|]. does_step; [apply (does_ret no_proposal)|]. does_step; [apply quiet_treeProcessVote|].
    does_step; [apply quiet_processCertificateQC|apply (does_ret no_proposal)].
  - intros [|]; [apply silent_processNewRoundEvent|apply (does_ret same_ledger)].
Qed.

Lemma phased_timeout m : phased (processTimeoutMsg cr txns m).
Proof.
  exists (option TimeoutCert). exists (_ ← processCertificateQC (TimeoutInfo_GetHighQc (tm_tmo_info m));
    _ ← processCertificateQC (tm_high_commit_qc m); _ ← pmAdvanceRoundTC (tm_last_round_tc m); pmProcessRemoteTimeout cr m).
  exists (fun tc => match tc with None => mret tt | Some _ => _ ← pmAdvanceRoundTC tc; processNewRoundEvent cr txns tc end).
  split; [|split].
  - intros c. rewrite M_assoc. apply M_cong. intros _ c1. rewrite M_assoc. apply M_cong. intros _ c2. rewrite M_assoc. by apply M_cong.
  - do 2 (does_step; [apply quiet_processCertificateQC|]). does_step; [apply quiet_pmAdvanceRoundTC|apply quiet_pmProcessRemoteTimeout].
  - intros [t|]; [|apply (does_ret same_ledger)]. does_step; eauto with ledger.
Qed.

Lemma commits_before_proposals e : phased (Step cr txns e).
Proof.
  assert (phased (dispatch cr txns e)) as (B & m1 & m2 & E & H1 & H2).
  { destruct e as [m|m|m|ep|b|i]; cbn [dispatch]; [apply phased_quiet|apply phased_vote|apply phased_timeout|apply phased_quiet..].
    - unfold processProposalMsg. do 2 (does_step; [apply quiet_processCertificateQC|]). does_step; [apply quiet_pmAdvanceRoundTC|].
      does_step; [apply (does_gets no_proposal)|]. does_step; [apply (does_fails_or no_proposal)|].
      does_step; [apply (does_ret no_proposal)|]. does_step; [apply quiet_insert|]. does_step; [apply quiet_safetyMakeVote|].
      does_step; [|apply (does_ret no_proposal)]. does_step; [apply (does_fails_or no_proposal)|by apply does_emit].
    - does_step; [apply (does_gets no_proposal)|]. does_step; [apply quiet_pmLocalTimeoutRound|apply (does_ret no_proposal)].
    - apply quiet_insert.
    - unfold serveBlock. does_step; [apply (does_gets no_proposal)|by apply does_emit]. }
  exists B, m1, (fun b => _ ← m2 b; obs ← gets c_observe;
    if (obs : bool) then st ← gets CoreState; emit (Observe e st) else mret tt). split; [|split; [done|]].
  - intros c. rewrite <- M_assoc. unfold Step. unfold mbind at 1, M_bind at 1. rewrite E. reflexivity.
  - intros b. does_step; [apply H2|]. repeat first [apply silent_emit|does_step].
Qed.
End phases.

(** ** Replicas of one execution *)

(** What arrives and passes the edge occurs in the execution, and the blocks are of
    its universe. *)
Definition input_seen (x : execution) (U : Block -> Prop) (ver : Verifier) (i : input) : Prop :=
  match i with
  | InProposal m => VerifyProposal ver m = true -> event_seen x (ProposalEvent m) /\ event_fed U (ProposalEvent m)
  | InVote m => VerifyVote ver m = true -> event_seen x (VoteEvent m)
  | InTimeout m => VerifyTimeout ver m = true -> event_seen x (TimeoutEvent m)
  | InFetch id replies => Forall (fun b => VerifyBlock ver b id = true -> U b) replies
  | InRequestBlock _ _ | InTimer _ => True
  end.

Section members.
Context `{RangeOrder} `{FloatConv} `{EcdsaLaws} {Node : Type} (node_ID : Node -> uint32).
Context (x : execution) (U : Block -> Prop) (cfg : ReplicaConfig).
Hypothesis own_key : rc_Keys cfg !! rc_ID cfg = Some (Public (rc_Key cfg)).
Hypothesis same : same_verifier (cfg_verifier (core_config cfg)) (x_verifier x).

Definition own_signer (cr : Crypto) : Prop := exists rand, cr = signer_crypto (NewSigner (rc_Key cfg) (rc_Keys cfg)) rand.

Definition act_seen (a : replica_act Node) : Prop :=
  match a with
  | ActInput i => input_seen x U (cfg_verifier (core_config cfg)) i
  | ActLoop cr _ _ => own_signer cr
  | ActSender _ => True
  end.

Definition good_event (e : Event) : Prop :=
  event_verified (cfg_verifier (core_config cfg)) (seen_vote x) e /\ event_seen x e /\ event_fed U e.

Lemma own_signs cr : own_signer cr -> signs_as (cfg_verifier (core_config cfg)) (cfg_ID (core_config cfg)) cr.
Proof. intros [rand ->]. by apply (signer_signs_as (NewSigner (rc_Key cfg) (rc_Keys cfg)) (rc_Key cfg)). Qed.

Lemma sink_good h i :
  h_ver h = cfg_verifier (core_config cfg) -> input_seen x U (cfg_verifier (core_config cfg)) i ->
  Forall good_event (sink h i).2 /\ h_ver (sink h i).1 = cfg_verifier (core_config cfg).
Proof.
  intros Hh Hi. destruct (sink_verified (seen_vote x) h i) as [Hv Hver].
  { intros m -> Hm. rewrite Hh in Hm. by destruct (Hi Hm). }
  rewrite Hver. split; [|done]. unfold good_event. rewrite <- Hh in *.
  assert (Forall (fun e => event_seen x e /\ event_fed U e) (sink h i).2) as Hs.
  { destruct i as [m|m|m|id w|id replies|ep]; cbn [sink input_seen] in *.
    - unfold handleProposal. destruct (VerifyProposal _ _) eqn:E; [|by constructor]. constructor; [by apply Hi|by constructor].
    - unfold handleVote. destruct (VerifyVote _ _) eqn:E; [|by constructor]. constructor; [split; [by apply Hi|done]|by constructor].
    - unfold handleTimeout. destruct (VerifyTimeout _ _) eqn:E; [|by constructor]. constructor; [split; [by apply Hi|done]|by constructor].
    - repeat constructor.
    - cbn [snd]. destruct (fetch_spec (h_ver h) id replies) as [[-> _]|(b & -> & Hin & Hb)]; [constructor|].
      rewrite Forall_forall in Hi. constructor; [split; [done|by apply Hi]|constructor].
    - repeat constructor. }
  rewrite Forall_forall in Hv, Hs. apply Forall_forall. intros e He. split; [by apply Hv|by apply Hs].
Qed.

(** A replica that takes part in the execution. *)
Record member_inv (r : Replica Node) : Prop := {
  mi_inv : replica_inv r;
  mi_m : is_Some (r_m r);
  mi_edge : h_ver (tr_handler (r_net r)) = cfg_verifier (core_config cfg);
  mi_queue : Forall good_event (q_events (lp_q (r_loop r)));
  mi_core : member_run x U (core_config cfg) (core_of r);
}.

Lemma drain_handler (t t' : Transport Node) c fn sd : drain node_ID t c = Some (t', fn, sd) -> tr_handler t' = tr_handler t.
Proof.
  unfold drain. destruct (tr_draining t); [|done]. destruct (tr_out t) as [|f out]; [done|]. simpl. unfold peers.
  destruct (_ =? 0)%nat; [by intros [= <- _ _]|]. destruct f; simpl; try (by intros [= <- _ _]).
  destruct (_ !! to); by intros [= <- _ _].
Qed.

Lemma act_member (r r' : Replica Node) a : member_inv r -> act_seen a -> replicaAct node_ID r a = Some r' -> member_inv r'.
Proof.
  intros [I1 I2 I3 I4 I5] Ha E. destruct (act_inv node_ID r r' a I1 I2 E) as (J1 & J2 & _). destruct a as [i|cr txns tm|c].
  - apply receive_inv in E as (Ec & Eq & Eh & _). destruct (sink_good _ _ I3 Ha) as [Hg Hv].
    split; [done|done|by rewrite Eh|rewrite Eq; by apply Forall_app|by rewrite Ec].
  - pose proof E as E'. cbn [replicaAct] in E'. apply bind_Some in E' as ([[l es] b] & Et & _).
    destruct (loop_act_spec node_ID r cr txns tm l es b I1 I2 Et) as (r1 & E1 & _ & _ & F2 & F3 & _).
    rewrite E in E1. injection E1 as <-. cbn in F2, F3. unfold Tick, Pop in Et.
    assert (member_run x U (core_config cfg) (lp_core l) /\ Forall good_event (q_events (lp_q l))) as [Hr Hq].
    { destruct (q_events (lp_q (r_loop r))) as [|e q] eqn:Eq; [injection Et as <- <- <-; split; [done|by rewrite Eq]|].
      apply bind_Some in Et as ([l3 es3] & Hl & [= <- <- <-]). unfold loopStep in Hl.
      apply bind_Some in Hl as ([[[] c1] es4] & Hst & [= <- <-]). cbn [lp_core lp_q q_events] in *.
      apply Forall_cons in I4 as [(G1 & G2 & G3) I4]. split; [|done].
      exact (member_event x U _ _ cr txns e c1 es4 I5 (own_signs cr Ha) G1 G2 G3 Hst). }
    split; [done|done|by rewrite F3|by rewrite F2|unfold core_of; by rewrite F2].
  - cbn [replicaAct] in E. destruct (drain _ _ _) as [[[net fn] sd]|] eqn:Ed; injection E as <-; [|by split].
    apply drain_handler in Ed. split; [done|done|cbn; by rewrite Ed|done|done].
Qed.

Lemma acts_member (az : list (replica_act Node)) r r' :
  member_inv r -> Forall act_seen az -> replicaActs node_ID r az = Some r' -> member_inv r'.
Proof.
  intros Hi HF. revert r Hi. induction HF as [|a az Ha _ IH]; intros r Hi; simpl; [by intros [= <-]|].
  intros (r1 & E & Hr)%bind_Some. by eapply IH; [eapply act_member|].
Qed.

Lemma early_queue (ins : list input) (r r' : Replica Node) :
  h_ver (tr_handler (r_net r)) = cfg_verifier (core_config cfg) -> Forall good_event (q_events (lp_q (r_loop r))) ->
  Forall (input_seen x U (cfg_verifier (core_config cfg))) ins -> replicaActs node_ID r (ActInput <$> ins) = Some r' ->
  h_ver (tr_handler (r_net r')) = cfg_verifier (core_config cfg) /\ Forall good_event (q_events (lp_q (r_loop r'))).
Proof.
  intros Hh Hq HF. revert r Hh Hq. induction HF as [|i ins Hi _ IH]; intros r Hh Hq; simpl; [by intros [= <-]|].
  intros (r1 & (_ & Eq & Eh & _)%receive_inv & Hr)%bind_Some. destruct (sink_good _ _ Hh Hi) as [Hg Hv].
  eapply IH; [by rewrite Eh|rewrite Eq; by apply Forall_app|exact Hr].
Qed.

(** A replica that ran is a member of the execution, or never started. *)
Lemma run_member (r0 r : Replica Node) early waited cr txns tm az err err' :
  NewReplica cfg = Some r0 -> own_signer cr -> Forall (input_seen x U (cfg_verifier (core_config cfg))) early -> Forall act_seen az ->
  ReplicaRun node_ID r0 early waited cr txns tm az err = Some (r, err') ->
  Log r = l_onCommit (c_ledger (core_of r)) /\ ID r = rc_ID cfg /\ (Log r = [] \/ member_run x U (core_config cfg) (core_of r)).
Proof.
  intros (Hn & Hi0 & Eid & Em & _ & Eq & Ever & _)%NewReplica_inv Hs He Ha (r1 & E1 & E)%bind_Some.
  pose proof (early_inv node_ID _ _ _ E1) as (C1 & I1 & M1 & _ & Hi1). specialize (Hi1 Hi0).
  destruct (early_queue early r0 r1) as [Hh Hq]; [done|by rewrite Eq|done|done|].
  destruct waited as [e|].
  - injection E as <- <-. destruct Hi1 as [A _ _ _]. unfold core_of in *. cbn. unfold Log, ID. cbn.
    split; [done|]. split; [congruence|]. left. rewrite A, C1. unfold New in Hn. destruct (_ <? _)%Z; [done|].
    by apply (inj Some) in Hn as <-.
  - apply bind_Some in E as (r2 & E2 & (r3 & E3 & (r4 & E4 & [= <- <-])%bind_Some)%bind_Some).
    pose proof (startMeasurement_inv r1 Hi1) as Him.
    apply startCore_spec in E2 as (Hi2 & Hm2 & I2 & _ & Hh2 & Hq2 & es & Est); [|done|by eexists].
    change (core_of (startMeasurement r1)) with (core_of r1) in Est. rewrite C1 in Est.
    assert (member_inv r2) as Hmi.
    { split; [done|done|by rewrite Hh2|by rewrite Hq2|].
      by eapply (member_start x U (core_config cfg) _ cr txns); [| |exact Hn|apply own_signs|exact Est]. }
    pose proof (acts_inv node_ID _ _ _ Hi2 Hm2 E3) as (_ & _ & I3 & _).
    apply (acts_member az r2 r3 Hmi Ha) in E3 as [A _ _ _ Hc].
    unfold stopCore in E4. apply bind_Some in E4 as ([[[] c] es'] & Est4 & [= <-]).
    split; [|split; [unfold ID; cbn; rewrite I3, I2; cbn; congruence|right; unfold core_of; cbn; by eapply member_stop]].
    unfold CoreStop in Est4. cbn in Est4. injection Est4 as <- <-. unfold core_of in *. cbn. apply A.
Qed.
End members.

(** ** A cluster of one

    The replica's own messages, looped back to it through the edge. *)
Definition solo_rcfg : ReplicaConfig := MkReplicaConfig 1 ∅ (5%N : PrivateKey) {[1%N := 5%N : PublicKey]} 0 0 0.
Definition solo_signer : Crypto := signer_crypto (NewSigner (rc_Key solo_rcfg) (rc_Keys solo_rcfg)) [x01].
Definition solo_clock : clock := MkClock (fun _ => 7%Z) (fun _ => 5%Z).

Definition call_input (fn : call) : option input :=
  match fn with
  | CallProposal p => Some (InProposal p)
  | CallVote v _ => Some (InVote v)
  | CallTimeout m => Some (InTimeout m)
  | CallRequestBlock _ => None
  end.

(** Send, deliver, process; [fuel] times. *)
Fixpoint drive (fuel : nat) (r : Replica N) : list (replica_act N) :=
  match fuel, tr_out (r_net r) with
  | S fuel, fn :: _ =>
      let az := ActSender [1%N] :: (ActInput <$> option_list (call_input fn)) ++ [ActLoop solo_signer [[x61]] solo_clock] in
      az ++ match @replicaActs canonical_range least_int64 N (fun n => n) r az with Some r => drive fuel r | None => [] end
  | _, _ => []
  end.

Definition solo_replica : option (Replica N) := NewReplica solo_rcfg.
Definition solo_acts : list (replica_act N) :=
  default [] (r ← solo_replica; r ← startCore solo_signer [[x61]] solo_clock (startMeasurement r); Some (drive 8 r)).
Definition solo_ran : option (Replica N * ctx_error) :=
  r ← solo_replica;
  @ReplicaRun canonical_range least_int64 N (fun n => n) r [] None solo_signer [[x61]] solo_clock solo_acts Canceled.

Lemma replica_log_witness :
  exists r, solo_ran = Some (r, Canceled) /\ length (Log r) = 3 /\ Commands r = 3%N /\ Result r = Some [2; 2; 2]%Z /\
    Log r = l_onCommit (c_ledger (lp_core (r_loop r))).
Proof.
  assert (option_map (fun r => (length (Log r.1), Commands r.1, Result r.1, r.2)) solo_ran = Some (3, 3%N, Some [2; 2; 2]%Z, Canceled)) as E
    by (vm_compute; reflexivity).
  destruct solo_ran as [[r err]|] eqn:Er; [|discriminate E]. cbn [option_map fst snd] in E. injection E as E1 E2 E3 E4.
  exists r. rewrite E4. split; [reflexivity|]. split; [exact E1|]. split; [exact E2|]. split; [exact E3|].
  unfold solo_ran in Er. apply bind_Some in Er as (r0 & E0 & Er).
  exact (proj1 (proj2 (@replica_log canonical_range least_int64 toy_ecdsa N (fun n => n) solo_rcfg r0 r [] None solo_signer [[x61]]
    solo_clock solo_acts Canceled err E0 Er))).
Defined.
