(* ===== verification/Cmd.v ===== *)
(** [cmd/diem/main.go]: the command line. Which replicas a process runs, under
    which ids and keys, and the report that compares their logs.

    Flags, the file system, the generation of keys and the Gorums servers are
    arguments; a process's replicas run concurrently, each by [ReplicaRun]. Strings
    are byte strings. *)

From stdpp Require Import prelude gmap list fin_maps sorting.
From Stdlib Require Import NArith ZArith Lia Strings.Byte Floats.SpecFloat.
From S2P Require Import Prelude Sha256 Proto Hash Types Quorum Verify Orphans Ledger BlockTree Safety Agreement.
From S2P Require Import Seams Pacemaker Leader Core Wire Net Cluster Signer Keys Loop Payload Replica.

(** ** [strings.TrimSpace]

    The characters [unicode.IsSpace] accepts, in UTF-8. A string starts or ends
    with one of them exactly when its first or last rune is that character. *)
Definition space_runes : list bytes :=
  [[x09]; [x0a]; [x0b]; [x0c]; [x0d]; [x20]; [xc2; x85]; [xc2; xa0]; [xe1; x9a; x80];
   [xe2; x80; x80]; [xe2; x80; x81]; [xe2; x80; x82]; [xe2; x80; x83]; [xe2; x80; x84]; [xe2; x80; x85];
   [xe2; x80; x86]; [xe2; x80; x87]; [xe2; x80; x88]; [xe2; x80; x89]; [xe2; x80; x8a];
   [xe2; x80; xa8]; [xe2; x80; xa9]; [xe2; x80; xaf]; [xe2; x81; x9f]; [xe3; x80; x80]].

Definition space_prefix (s : bytes) : option bytes := list_find (fun r => r `prefix_of` s) space_runes ≫= fun r => Some r.2.

Fixpoint trim_left (fuel : nat) (s : bytes) : bytes :=
  match fuel, space_prefix s with
  | S fuel, Some r => trim_left fuel (drop (length r) s)
  | _, _ => s
  end.

Definition space_suffix (s : bytes) : option bytes := list_find (fun r => r `suffix_of` s) space_runes ≫= fun r => Some r.2.

Fixpoint trim_right (fuel : nat) (s : bytes) : bytes :=
  match fuel, space_suffix s with
  | S fuel, Some r => trim_right fuel (take (length s - length r) s)
  | _, _ => s
  end.

(** A rune has at least one byte, so the length is fuel enough. *)
Definition TrimSpace (s : bytes) : bytes :=
  let s := trim_left (length s) s in trim_right (length s) s.

(** ** The flags *)

Record Flags := MkFlags {
  f_Self : bytes;
  f_Remotes : list bytes;
  f_Payload : Z;
  f_Workers : Z;
  f_Rate : Z;
  f_local : Z;
  f_keys : bytes;
  f_insecureSeeded : bool;
  f_genKeys : bool;
  f_viewDuration : Z;
  f_Output : bytes;
  f_FaultKillAfter : Z;
  f_Duration : Z;
  f_Interval : Z;
  (** Copied into the results and never inspected. *)
  f_StatsMode : N;
}.

Inductive cmd_error :=
  | ErrNothingToDo
  | ErrGenKeysNeeds
  | ErrEmptyEntry (i : nat)
  | ErrTwice (addr : bytes)
  | ErrSelf (self : bytes)
  | ErrNoKeysFlag
  | ErrGenerate
  | ErrKeyFiles (e : key_error)
  | ErrDisagree (i j : uint32) (k : nat)
  | ErrNoCommit (i : uint32)
  | ErrServers
  | ErrResults.

(** Errors are values of a sum, and returning early is its bind. *)
Global Instance sum_ret {E} : MRet (sum E) := fun A x => inr x.
Global Instance sum_bind {E} : MBind (sum E) := fun A B f m => match m with inl e => inl e | inr x => f x end.

(** ** Addresses *)

(** The loop; [i] counts entries from zero. *)
Fixpoint addresses_loop (i : nat) (seen : gset bytes) (remotes : list bytes) : cmd_error + list bytes :=
  match remotes with
  | [] => inr []
  | addr :: remotes =>
      let addr := TrimSpace addr in
      if bool_decide (addr = []) then inl (ErrEmptyEntry (i + 1))
      else if bool_decide (addr ∈ seen) then inl (ErrTwice addr)
      else match addresses_loop (i + 1) ({[addr]} ∪ seen) remotes with
           | inl e => inl e
           | inr addrs => inr (addr :: addrs)
           end
  end.

Definition addresses (f : Flags) : cmd_error + list bytes :=
  if (length (f_Remotes f) =? 1)%nat && bool_decide (TrimSpace (default [] (head (f_Remotes f))) = []) then inr []
  else addresses_loop 0 ∅ (f_Remotes f).

(** How many replicas there are: [-local], or as many as [-remotes] lists. *)
Definition clusterSize (f : Flags) : cmd_error + Z :=
  if (f_local f =? 0)%Z then addrs ← addresses f; mret (Z.of_nat (length addrs)) else mret (f_local f).

(** [slices.Index]. *)
Definition Index (addrs : list bytes) (self : bytes) : option nat :=
  p ← list_find (fun a => a = self) addrs; Some p.1.

(** [uint32(i+1)]. *)
Definition id_at (i : nat) : uint32 := (N.of_nat (i + 1) mod two32)%N.

(** The map [runOne] fills; a later entry overwrites an earlier one. *)
Definition peers_of (addrs : list bytes) : gmap uint32 bytes :=
  list_to_map (reverse (imap (fun i addr => (id_at i, addr)) addrs)).

(** [transactions]. *)
Definition transactions (f : Flags) : option Payload :=
  if (f_Payload f <=? 0)%Z then None else Some (NewPayload (f_Payload f) (f_Workers f) (f_Rate f)).

Section command.
Context `{Pem} {Node : Type}.
Context (GenerateKey : uint32 -> option PrivateKey) (ParseRawPrivateKey : bytes -> option PrivateKey).
Context (fs : directory) (mkdir_ok : bool) (os_write : bytes -> write_outcome) (read_ok : bytes -> bool).

(** ** Keys *)

(** [order] is the order in which the private keys are enumerated. *)
Definition writeKeys (order : gmap uint32 PrivateKey -> list (uint32 * PrivateKey)) (f : Flags) : directory * option cmd_error :=
  match clusterSize f with
  | inl e => (fs, Some e)
  | inr n =>
      if (n =? 0)%Z || bool_decide (f_keys f = []) then (fs, Some ErrGenKeysNeeds)
      else match GenerateKeys GenerateKey n with
      | None => (fs, Some ErrGenerate)
      | Some (privs, _) =>
          let '(fs, e) := WriteKeys mkdir_ok os_write fs (order privs) in (fs, ErrKeyFiles <$> e)
      end
  end.

(** A private key that is not there is a nil pointer. *)
Definition replicaKeys (f : Flags) (id : uint32) (n : Z) : cmd_error + (option PrivateKey * gmap uint32 PublicKey) :=
  if bool_decide (f_keys f ≠ []) then
    match ReadKeys read_ok fs id with
    | inl e => inl (ErrKeyFiles e)
    | inr (priv, pubs) => inr (Some priv, pubs)
    end
  else if negb (f_insecureSeeded f) then inl ErrNoKeysFlag
  else match SeededKeys ParseRawPrivateKey n with
  | None => inl ErrGenerate
  | Some (privs, pubs) => inr (privs !! id, pubs)
  end.

(** ** What to run *)

(** The configuration of the one replica of this process; [None] for the key is a
    nil pointer. *)
Definition runOne (f : Flags) : cmd_error + (option PrivateKey * (PrivateKey -> ReplicaConfig)) :=
  addrs ← addresses f;
  let self := TrimSpace (f_Self f) in
  match Index addrs self with
  | None => inl (ErrSelf self)
  | Some idx =>
      let id := id_at idx in
      '(priv, pubs) ← replicaKeys f id (Z.of_nat (length addrs));
      mret (priv, fun key => MkReplicaConfig id (peers_of addrs) key pubs 0 (f_viewDuration f) 0)
  end.

(** The configurations of a whole cluster in one process; [servers_ok] says whether
    the loopback servers could be made. *)
Definition runLocal (servers_ok : bool) (f : Flags) (n : Z)
    : cmd_error + list (option PrivateKey * (PrivateKey -> ReplicaConfig)) :=
  match GenerateKeys GenerateKey n with
  | None => inl ErrGenerate
  | Some (privs, pubs) =>
      if negb servers_ok then inl ErrServers
      else mret ((fun i => (privs !! id_at i, fun key => MkReplicaConfig (id_at i) ∅ key pubs 0 (f_viewDuration f) 0)) <$> seq 0 (Z.to_nat n))
  end.

(** [run]: what the flags ask for. *)
Inductive outcome :=
  | Wrote (written : directory * option cmd_error)
  | Runs (replicas : list (option PrivateKey * (PrivateKey -> ReplicaConfig)))
  | Failed (e : cmd_error).

Definition run (order : gmap uint32 PrivateKey -> list (uint32 * PrivateKey)) (servers_ok : bool) (f : Flags) : outcome :=
  if f_genKeys f then Wrote (writeKeys order f)
  else if (0 <? f_local f)%Z then match runLocal servers_ok f (f_local f) with inl e => Failed e | inr rs => Runs rs end
  else if bool_decide (f_Self f ≠ []) then match runOne f with inl e => Failed e | inr r => Runs [r] end
  else Failed ErrNothingToDo.
End command.

(** ** The report *)

Section report.
Context {Node : Type}.

(** The first position below the shorter length where the ids differ. *)
Fixpoint first_diff (k : nat) (la lb : list Block) : option nat :=
  match la, lb with
  | a :: la, b :: lb => if bool_decide (b_id a = b_id b) then first_diff (S k) la lb else Some k
  | _, _ => None
  end.

(** The loops over [j], over [i], and over the logs for an empty one. *)
Fixpoint compare_to (r : Replica Node) (rest : list (Replica Node)) : option cmd_error :=
  match rest with
  | [] => None
  | r' :: rest =>
      match first_diff 0 (Log r) (Log r') with
      | Some k => Some (ErrDisagree (ID r) (ID r') k)
      | None => compare_to r rest
      end
  end.
Fixpoint compare_all (reps : list (Replica Node)) : option cmd_error :=
  match reps with
  | [] => None
  | r :: rest => match compare_to r rest with Some e => Some e | None => compare_all rest end
  end.
Fixpoint none_committed (reps : list (Replica Node)) : option cmd_error :=
  match reps with
  | [] => None
  | r :: rest => if (length (Log r) =? 0)%nat then Some (ErrNoCommit (ID r)) else none_committed rest
  end.

(** What is printed for a replica. *)
Record line := MkLine {
  ln_id : uint32; ln_committed : nat; ln_commands : uint64; ln_dropped : uint64;
  ln_declined : uint64; ln_rejected : uint64; ln_high : Z;
}.
Definition line_of (r : Replica Node) : line :=
  MkLine (ID r) (length (Log r)) (Commands r) (OutboundDropped (ReplicaCounters r)) (ReplicaDeclined r)
    (Rejected (ReplicaCounters r)) (ReplicaQueueHighWater r).

(** The lines, whether agreement is announced, and the error. *)
Definition report (reps : list (Replica Node)) : list line * bool * option cmd_error :=
  match compare_all reps with
  | Some e => (line_of <$> reps, false, Some e)
  | None => (line_of <$> reps, (1 <? length reps)%nat, none_committed reps)
  end.

(** ** The result file *)

(** A replica's result, with the dimensions of the run written into it. *)
Record row := MkRow {
  rw_latencies : list Z; rw_Nodes : Z; rw_Workers : Z; rw_Payload : Z; rw_Rate : Z;
  rw_Duration : Z; rw_Interval : Z; rw_StatsMode : N;
}.
Definition row_of (f : Flags) (n : Z) (m : list Z) : row :=
  MkRow m n (f_Workers f) (f_Payload f) (f_Rate f) (f_Duration f) (f_Interval f) (f_StatsMode f).

Definition label (f : Flags) : bytes := if bool_decide (f_Self f = []) then [x6c; x6f; x63; x61; x6c] else f_Self f.

(** Whether the file could be written. *)
Context (WriteLabeledReport : list row -> bytes -> bytes -> bool).

(** The replica has no result if it never reached the first round, and writing into
    a result that is not there is a nil dereference: [None]. *)
Definition writeResults (f : Flags) (reps : list (Replica Node)) : option (option cmd_error) :=
  match clusterSize f with
  | inl e => Some (Some e)
  | inr n =>
      results ← mapM (fun r => m ← Result r; Some (row_of f n m)) reps;
      Some (if WriteLabeledReport results (label f) (f_Output f) then None else Some ErrResults)
  end.

(** The time after which the context of the [i]-th replica is done, if the fault to
    inject sets one. *)
Definition kill_after (f : Flags) (i : nat) : option Z :=
  if (0 <? f_FaultKillAfter f)%Z && (i =? 0)%nat then Some (f_FaultKillAfter f) else None.

(** What [runAll] returns once every replica's [Run] has. *)
Definition runAll (f : Flags) (reps : list (Replica Node)) : option (option cmd_error) :=
  match (report reps).2 with
  | Some e => Some (Some e)
  | None => if bool_decide (f_Output f = []) then Some None else writeResults f reps
  end.
End report.

(** ** The exit status *)

Section process.
Context `{Pem} {Node : Type}.
Context (GenerateKey : uint32 -> option PrivateKey) (ParseRawPrivateKey : bytes -> option PrivateKey).
Context (fs : directory) (mkdir_ok : bool) (os_write : bytes -> write_outcome) (read_ok : bytes -> bool).
Context (order : gmap uint32 PrivateKey -> list (uint32 * PrivateKey)) (servers_ok : bool).
Context (WriteLabeledReport : list row -> bytes -> bytes -> bool).

(** The error of [run], with [reps] the replicas it ran, as their runs left them;
    [None] is a panic. *)
Definition run_error (f : Flags) (reps : list (Replica Node)) : option (option cmd_error) :=
  match run GenerateKey ParseRawPrivateKey fs mkdir_ok os_write read_ok order servers_ok f with
  | Wrote (_, e) => Some e
  | Failed e => Some (Some e)
  | Runs _ => runAll WriteLabeledReport f reps
  end.

(** The status [main] exits with. [started] and [stopped] say whether the profilers
    could be started and stopped; an error of stopping them is joined to that of the
    run. *)
Definition main (started stopped : bool) (f : Flags) (reps : list (Replica Node)) : option nat :=
  if negb started then Some 1
  else e ← run_error f reps; Some (match e with None => if stopped then 0 else 1 | Some _ => 1 end).
End process.

(** ** Trimming *)

Lemma space_prefix_some s r : space_prefix s = Some r -> r ≠ [] /\ r `prefix_of` s /\ r ∈ space_runes.
Proof.
  unfold space_prefix. intros ([k r'] & (Hk & Hp & _)%list_find_Some & [= <-])%bind_Some. simpl.
  apply list_elem_of_lookup_2 in Hk. split; [|done]. intros ->. vm_compute in Hk. set_solver.
Qed.
Lemma space_suffix_some s r : space_suffix s = Some r -> r ≠ [] /\ r `suffix_of` s /\ r ∈ space_runes.
Proof.
  unfold space_suffix. intros ([k r'] & (Hk & Hp & _)%list_find_Some & [= <-])%bind_Some. simpl.
  apply list_elem_of_lookup_2 in Hk. split; [|done]. intros ->. vm_compute in Hk. set_solver.
Qed.

Lemma trim_left_spec fuel s :
  length s <= fuel -> exists l, s = concat l ++ trim_left fuel s /\ Forall (fun r => r ∈ space_runes) l /\
    space_prefix (trim_left fuel s) = None.
Proof.
  revert s. induction fuel as [|fuel IH]; intros s Hl; simpl.
  { destruct s; [|simpl in Hl; lia]. exists []. split_and!; [done|constructor|reflexivity]. }
  destruct (space_prefix s) as [r|] eqn:E; [|exists []; by split_and!].
  apply space_prefix_some in E as (Hne & [k ->] & Hin). rewrite drop_app_length.
  destruct (IH k) as (l & El & HF & Hn); [rewrite length_app in Hl; destruct r; [done|simpl in Hl; lia]|].
  exists (r :: l). simpl. rewrite <- (assoc_L (++)), <- El. split_and!; [done|by constructor|done].
Qed.

Lemma trim_right_spec fuel s :
  length s <= fuel -> exists l, s = trim_right fuel s ++ concat l /\ Forall (fun r => r ∈ space_runes) l /\
    space_suffix (trim_right fuel s) = None.
Proof.
  revert s. induction fuel as [|fuel IH]; intros s Hl; simpl.
  { destruct s; [|simpl in Hl; lia]. exists []. split_and!; [done|constructor|reflexivity]. }
  destruct (space_suffix s) as [r|] eqn:E; [|exists []; rewrite app_nil_r; by split_and!].
  apply space_suffix_some in E as (Hne & [k ->] & Hin). rewrite length_app, Nat.add_sub, take_app_length.
  destruct (IH k) as (l & El & HF & Hn); [rewrite length_app in Hl; destruct r; [done|simpl in Hl; lia]|].
  exists (l ++ [r]). rewrite concat_app. simpl. rewrite app_nil_r, (assoc_L (++)), <- El.
  split_and!; [done|by apply Forall_app; split; [|by constructor]|done].
Qed.

(** What is cut off is white space, and what is left neither starts nor ends with it. *)
Lemma TrimSpace_spec s : exists l r, s = concat l ++ TrimSpace s ++ concat r /\
  Forall (fun c => c ∈ space_runes) (l ++ r) /\ space_prefix (TrimSpace s) = None /\ space_suffix (TrimSpace s) = None.
Proof.
  unfold TrimSpace. destruct (trim_left_spec (length s) s (le_n _)) as (l & El & Hl & Hnp). set (t := trim_left (length s) s) in *.
  destruct (trim_right_spec (length t) t (le_n _)) as (r & Er & Hr & Hns). exists l, r. rewrite <- Er.
  split; [done|]. split; [by apply Forall_app|]. split; [|done]. set (u := trim_right (length t) t) in *.
  destruct (space_prefix u) as [c|] eqn:E; [|done]. apply space_prefix_some in E as (_ & Hp & Hin).
  unfold space_prefix in Hnp. apply bind_None in Hnp as [Hnp|([k c'] & _ & ?)]; [|done].
  apply list_find_None in Hnp. rewrite Forall_forall in Hnp. destruct (Hnp c Hin). rewrite Er. by apply prefix_app_r.
Qed.

(** ** The addresses *)

Lemma addresses_loop_spec i seen remotes :
  match addresses_loop i seen remotes with
  | inr addrs => addrs = TrimSpace <$> remotes /\ NoDup addrs /\ ([] ∉ addrs) /\ (forall a, a ∈ addrs -> a ∉ seen)
  | inl (ErrEmptyEntry j) => exists k, j = i + k + 1 /\ TrimSpace <$> (remotes !! k) = Some []
  | inl (ErrTwice a) => exists k, TrimSpace <$> (remotes !! k) = Some a /\ (a ∈ seen \/ a ∈ (TrimSpace <$> take k remotes))
  | inl _ => False
  end.
Proof.
  revert i seen. induction remotes as [|addr remotes IH]; intros i seen; simpl.
  { split_and!; [done|constructor|by intros ?%not_elem_of_nil|by intros a ?%not_elem_of_nil]. }
  case_bool_decide as He; [exists 0; simpl; by rewrite He, Nat.add_0_r|].
  case_bool_decide as Hs; [exists 0; simpl; auto|].
  specialize (IH (i + 1) ({[TrimSpace addr]} ∪ seen)). destruct (addresses_loop _ _ _) as [e|addrs].
  - destruct e; try done.
    + destruct IH as (k & -> & Hk). exists (S k). split; [lia|done].
    + destruct IH as (k & Hk & Hin). exists (S k). split; [done|]. simpl.
      destruct Hin as [[->%elem_of_singleton|?]%elem_of_union|?]; [right; by left|by left|right; by right].
  - destruct IH as (-> & Hnd & Hne & Hfresh). split_and!; [done| | |].
    + constructor; [|done]. intros Hin. apply (Hfresh _ Hin), elem_of_union. left. by apply elem_of_singleton.
    + intros [E|?]%elem_of_cons; [by rewrite <- E in He|done].
    + intros a [->|Hin]%elem_of_cons; [done|]. intros Hin'. apply (Hfresh a Hin), elem_of_union. by right.
Qed.

(** A list of addresses that is accepted has no empty and no repeated entry. *)
Lemma addresses_ok f addrs : addresses f = inr addrs -> NoDup addrs /\ [] ∉ addrs.
Proof.
  unfold addresses. destruct (_ && _).
  - intros [= <-]. split; [constructor|by intros ?%not_elem_of_nil].
  - intros E. pose proof (addresses_loop_spec 0 ∅ (f_Remotes f)) as Hl. rewrite E in Hl. by destruct Hl as (_ & ? & ? & _).
Qed.

Lemma Index_some addrs self i : Index addrs self = Some i -> addrs !! i = Some self.
Proof. unfold Index. intros ([j a] & (Hj & -> & _)%list_find_Some & [= <-])%bind_Some. done. Qed.

Lemma id_at_small i n : i < n -> (N.of_nat n < two32)%N -> id_at i = N.of_nat (i + 1).
Proof. intros Hi Hn. unfold id_at. apply N.mod_small. lia. Qed.

Lemma peers_lookup addrs i a :
  (N.of_nat (length addrs) < two32)%N -> addrs !! i = Some a -> peers_of addrs !! id_at i = Some a.
Proof.
  intros Hn Ha. unfold peers_of. apply elem_of_list_to_map_1'.
  - intros y Hy. rewrite elem_of_reverse in Hy. apply elem_of_lookup_imap in Hy as (j & b & [= E ->] & Hb).
    pose proof (lookup_lt_Some _ _ _ Ha). pose proof (lookup_lt_Some _ _ _ Hb).
    rewrite !(id_at_small _ (length addrs)) in E by done. assert (j = i) as -> by lia. congruence.
  - apply elem_of_reverse, elem_of_lookup_imap. by exists i, a.
Qed.

Lemma peers_size addrs : (N.of_nat (length addrs) < two32)%N -> size (peers_of addrs) = length addrs.
Proof.
  intros Hn. assert (dom (peers_of addrs) = ids_upto (length addrs)) as E.
  { apply set_eq. intros j. rewrite elem_of_ids_upto. unfold peers_of. rewrite dom_list_to_map_L, elem_of_list_to_set.
    rewrite list_elem_of_fmap. split.
    - intros ([j' a] & -> & Hin). rewrite elem_of_reverse in Hin. apply elem_of_lookup_imap in Hin as (i & b & [= -> ->] & Hb).
      apply lookup_lt_Some in Hb. simpl. rewrite (id_at_small i (length addrs)) by done. lia.
    - intros Hj. destruct (lookup_lt_is_Some_2 addrs (N.to_nat j - 1)) as [a Ha]; [lia|]. exists (j, a). split; [done|].
      apply elem_of_reverse, elem_of_lookup_imap. exists (N.to_nat j - 1), a. split; [|done]. f_equal.
      rewrite (id_at_small _ (length addrs)) by lia. lia. }
  rewrite <- size_dom, E. apply size_ids_upto.
Qed.

(** The peer map is the list, numbered from 1. *)
Lemma peers_lookup_iff addrs id a :
  (N.of_nat (length addrs) < two32)%N ->
  peers_of addrs !! id = Some a <-> exists i, id = N.of_nat (i + 1) /\ addrs !! i = Some a.
Proof.
  intros Hn. split.
  - intros Hin%elem_of_list_to_map_2. rewrite elem_of_reverse in Hin. apply elem_of_lookup_imap in Hin as (i & b & [= -> ->] & Hb).
    exists i. split; [|done]. apply (id_at_small _ (length addrs)); [by eapply lookup_lt_Some|done].
  - intros (i & -> & Ha). rewrite <- (id_at_small i (length addrs)); [by apply peers_lookup|by eapply lookup_lt_Some|done].
Qed.

Lemma addresses_trimmed f addrs a i : addresses f = inr addrs -> addrs !! i = Some a -> addrs = TrimSpace <$> f_Remotes f.
Proof.
  unfold addresses. destruct (_ && _); [intros [= <-]; by rewrite lookup_nil|]. intros E _.
  pose proof (addresses_loop_spec 0 ∅ (f_Remotes f)) as Hl. rewrite E in Hl. by destruct Hl as (-> & _).
Qed.

(** ** Identities *)

Section identities.
Context `{Pem}.
Context (GenerateKey : uint32 -> option PrivateKey) (ParseRawPrivateKey : bytes -> option PrivateKey).
Context (fs : directory) (read_ok : bytes -> bool).

Lemma runOne_inv f priv mk :
  runOne ParseRawPrivateKey fs read_ok f = inr (priv, mk) ->
  exists addrs idx pubs, addresses f = inr addrs /\ addrs !! idx = Some (TrimSpace (f_Self f)) /\
    replicaKeys ParseRawPrivateKey fs read_ok f (id_at idx) (Z.of_nat (length addrs)) = inr (priv, pubs) /\
    forall key, mk key = MkReplicaConfig (id_at idx) (peers_of addrs) key pubs 0 (f_viewDuration f) 0.
Proof.
  unfold runOne. destruct (addresses f) as [e|addrs]; [done|]. cbn [mbind sum_bind].
  destruct (Index addrs (TrimSpace (f_Self f))) as [idx|] eqn:Ei; [|done].
  destruct (replicaKeys _ _ _ _ _ _) as [e|[pr pubs]] eqn:Ek; [done|]. intros [= <- <-].
  exists addrs, idx, pubs. split; [done|]. split; [by apply Index_some|]. by split.
Qed.

(** The keys [GenerateKeys] and [SeededKeys] make. *)
Lemma keys_loop_ids gen n privs pubs :
  keys_loop gen n 1 ∅ ∅ = Some (privs, pubs) -> (N.of_nat n < two32)%N -> key_set (N.of_nat n) privs pubs.
Proof.
  intros E Hn. apply (keys_loop_set gen _ 0) in E as [E _]; [by rewrite N.add_0_l in E|lia|].
  split; [|by rewrite fmap_empty]. intros id. rewrite lookup_empty. split; [by intros [? ?]|lia].
Qed.

Lemma key_set_own n privs pubs id :
  key_set n privs pubs -> (1 <= id <= n)%N ->
  exists key, privs !! id = Some key /\ pubs !! id = Some (Public key) /\ size pubs = N.to_nat n.
Proof.
  intros [Hdom ->] Hid. destruct (proj2 (Hdom id) Hid) as [key Hk]. exists key. split; [done|].
  rewrite lookup_fmap, Hk. split; [done|]. rewrite map_size_fmap. apply map_ids. intros i. rewrite Hdom. lia.
Qed.
End identities.

(** C31. A process's position in [-remotes] is its id. If the flags of a process are
    accepted, the peer map of its replica is the list of [-remotes], white space trimmed
    and no entry twice, numbered from 1: it has the entry at each position under that
    number and nothing else. The id is the number of the entry that equals [-self], so
    processes with the same [-remotes] get the same id exactly when they have the same
    [-self]. With seeded keys the replica has the private key of the public key
    registered under its id, and for at most 1509 addresses [New] accepts the
    configuration. *)
Theorem one_id_per_address `{Pem} {Node : Type} (ParseRawPrivateKey : bytes -> option PrivateKey) (fs : directory)
    (read_ok : bytes -> bool) (f f' : Flags) priv mk priv' mk' :
  runOne ParseRawPrivateKey fs read_ok f = inr (priv, mk) -> runOne ParseRawPrivateKey fs read_ok f' = inr (priv', mk') ->
  f_Remotes f' = f_Remotes f -> (N.of_nat (length (f_Remotes f)) < two32)%N ->
  let addrs := TrimSpace <$> f_Remotes f in
  (forall key, NoDup addrs /\
     (forall id a, rc_Peers (mk key) !! id = Some a <-> exists i, id = N.of_nat (i + 1) /\ addrs !! i = Some a) /\
     (exists i, rc_ID (mk key) = N.of_nat (i + 1) /\ addrs !! i = Some (TrimSpace (f_Self f))) /\
     rc_Peers (mk' key) = rc_Peers (mk key) /\
     (rc_ID (mk' key) = rc_ID (mk key) <-> TrimSpace (f_Self f') = TrimSpace (f_Self f)) /\
     (f_keys f = [] -> priv = Some key -> rc_Keys (mk key) !! rc_ID (mk key) = Some (Public key)) /\
     (f_keys f = [] -> priv = Some key -> (Z.of_nat (length addrs) <= 1509)%Z -> is_Some (NewReplica (Node := Node) (mk key)))) /\
  (f_keys f = [] -> is_Some priv).
Proof.
  intros (addrs & idx & pubs & Ea & Hi & Ek & Em)%runOne_inv (addrs' & idx' & pubs' & Ea' & Hi' & _ & Em')%runOne_inv Er Hn ads.
  assert (addresses f' = addresses f) as Eaf by (unfold addresses; by rewrite Er). rewrite Eaf, Ea in Ea'. injection Ea' as <-.
  assert (addrs = ads) as -> by (by eapply addresses_trimmed).
  assert (length ads = length (f_Remotes f)) as Hlen by (unfold ads; by rewrite length_fmap).
  assert (N.of_nat (length ads) < two32)%N as Hn' by lia. destruct (addresses_ok _ _ Ea) as [Hnd _]. clearbody ads.
  pose proof (lookup_lt_Some _ _ _ Hi) as Hlt. pose proof (lookup_lt_Some _ _ _ Hi') as Hlt'.
  pose proof (id_at_small idx _ Hlt Hn') as Eid. pose proof (id_at_small idx' _ Hlt' Hn') as Eid'.
  assert (f_keys f = [] -> exists privs, SeededKeys ParseRawPrivateKey (Z.of_nat (length ads)) = Some (privs, pubs) /\ priv = privs !! id_at idx) as Hk.
  { intros Ef. unfold replicaKeys in Ek. rewrite bool_decide_eq_false_2 in Ek by (intros Hf; by apply Hf).
    destruct (negb _); [done|]. destruct (SeededKeys _ _) as [[privs pubs1]|]; [|done]. injection Ek as <- <-. by exists privs. }
  assert (f_keys f = [] -> exists key, priv = Some key /\ pubs !! id_at idx = Some (Public key) /\ size pubs = length ads) as Hown.
  { intros (privs & Es & ->)%Hk. unfold SeededKeys in Es. rewrite Nat2Z.id in Es. apply keys_loop_ids in Es; [|done].
    destruct (key_set_own _ _ _ (id_at idx) Es) as (key & ? & ? & Hs); [lia|]. exists key. rewrite Nat2N.id in Hs. done. }
  split; [|intros (key & -> & _)%Hown; by eexists].
  intros key. rewrite Em, Em'. cbn [rc_ID rc_Peers rc_Keys]. split; [done|].
  split; [intros id a; by apply peers_lookup_iff|]. split; [by exists idx|]. split; [done|]. split; [|split].
  - rewrite Eid, Eid'. split; intros E.
    + assert (idx' = idx) as -> by lia. congruence.
    + rewrite E in Hi'. by rewrite (NoDup_lookup _ _ _ _ Hnd Hi' Hi).
  - intros (key' & -> & Hpub & _)%Hown [= ->]. exact Hpub.
  - intros (key' & -> & Hpub & Hsz)%Hown [= ->] Hmax.
    apply NewReplica_iff. cbn [rc_Peers rc_Keys rc_ID rc_QueueSize]. rewrite peers_size, Hsz by done.
    split; [by right|]. split; [by eexists|]. split; [done|]. unfold defaultWindowSize, defaultHistory, Faulty.
    pose proof (Z.quot_le_mono (Z.of_nat (length ads) - 1) 1508 3 ltac:(lia) ltac:(lia)) as Hq. change (1508 ÷ 3)%Z with 502%Z in Hq. lia.
Qed.

(** A cluster in one process: replicas 1 to n, each with its own private key and
    everyone's public keys, which [New] accepts. *)
Lemma local_cluster `{Ecdsa} {Node : Type} (GenerateKey : uint32 -> option PrivateKey) servers_ok f (n : nat) rs :
  runLocal GenerateKey servers_ok f (Z.of_nat n) = inr rs -> (Z.of_nat n <= 1509)%Z ->
  length rs = n /\ exists pubs, forall i priv mk, rs !! i = Some (priv, mk) ->
    exists key, priv = Some key /\ rc_ID (mk key) = N.of_nat (i + 1) /\ rc_Keys (mk key) = pubs /\
      pubs !! rc_ID (mk key) = Some (Public key) /\ is_Some (NewReplica (Node := Node) (mk key)).
Proof.
  unfold runLocal. intros E Hn. assert (N.of_nat n < two32)%N as Hn32 by (assert (two32 = 4294967296%N) as -> by reflexivity; lia).
  destruct (GenerateKeys GenerateKey (Z.of_nat n)) as [[privs pubs]|] eqn:Eg; [|done]. destruct servers_ok; [|done].
  injection E as <-. unfold GenerateKeys in Eg. rewrite Nat2Z.id in Eg |- *. apply keys_loop_ids in Eg; [|done].
  split; [by rewrite length_fmap, length_seq|]. exists pubs. intros i priv mk Hi.
  apply list_lookup_fmap_Some_1 in Hi as (j & [= -> ->] & Hj%lookup_seq). destruct Hj as [-> Hj]. rewrite Nat.add_0_l.
  rewrite (id_at_small i n) by done. destruct (key_set_own _ _ _ (N.of_nat (i + 1)) Eg) as (key & Hk & Hp & Hs); [lia|].
  exists key. cbn [rc_ID rc_Keys]. split_and!; try done. apply NewReplica_iff. cbn [rc_Peers rc_Keys rc_ID rc_QueueSize].
  rewrite Hs, Nat2N.id. split; [left; apply map_size_empty|]. split; [by eexists|]. split; [done|]. unfold defaultWindowSize, defaultHistory, Faulty.
  pose proof (Z.quot_le_mono (Z.of_nat n - 1) 1508 3 ltac:(lia) ltac:(lia)) as Hq. change (1508 ÷ 3)%Z with 502%Z in Hq. lia.
Qed.

(** ** What the report says *)

(** Two logs agree over their common prefix. *)
Definition comparable (la lb : list Block) : Prop :=
  (b_id <$> la) `prefix_of` (b_id <$> lb) \/ (b_id <$> lb) `prefix_of` (b_id <$> la).

Lemma first_diff_none k la lb : first_diff k la lb = None <-> comparable la lb.
Proof.
  unfold comparable. revert k lb. induction la as [|a la IH]; intros k [|b lb]; simpl;
    [split; [intros _; by left|done]|split; [intros _; left; apply prefix_nil|done]|split; [intros _; right; apply prefix_nil|done]|].
  case_bool_decide as E.
  - rewrite IH, E. split; (intros [Hp|Hp]; [left|right]); first [by apply prefix_cons|by apply prefix_cons_inv_2 in Hp].
  - split; [done|]. intros [Hp|Hp]; apply prefix_cons_inv_1 in Hp; congruence.
Qed.

Lemma first_diff_some k la lb n :
  first_diff k la lb = Some n -> exists j a b, n = k + j /\ la !! j = Some a /\ lb !! j = Some b /\ b_id a ≠ b_id b /\
    (b_id <$> take j la) = (b_id <$> take j lb).
Proof.
  revert k lb. induction la as [|a la IH]; intros k [|b lb]; simpl; try done. case_bool_decide as E.
  - intros (j & a' & b' & -> & Ha & Hb & Hne & Ht)%IH. exists (S j), a', b'. split_and!; [lia|done..|].
    cbn [take]. rewrite !fmap_cons, E. by f_equal.
  - intros [= <-]. exists 0, a, b. split_and!; [lia|done..].
Qed.

Section reports.
Context {Node : Type}.

Lemma compare_to_none (r : Replica Node) rest : compare_to r rest = None <-> Forall (fun r' => comparable (Log r) (Log r')) rest.
Proof.
  induction rest as [|r' rest IH]; simpl; [split; [constructor|done]|]. rewrite Forall_cons.
  destruct (first_diff 0 (Log r) (Log r')) as [k|] eqn:E.
  - split; [done|]. intros [Hc%(first_diff_none 0) _]. congruence.
  - rewrite IH. apply first_diff_none in E. tauto.
Qed.

Lemma compare_all_none (reps : list (Replica Node)) :
  compare_all reps = None <-> ForallOrdPairs (fun r r' => comparable (Log r) (Log r')) reps.
Proof.
  induction reps as [|r reps IH]; simpl; [split; [constructor|done]|].
  destruct (compare_to r reps) as [e|] eqn:E.
  - split; [done|]. intros Hf. inversion_clear Hf as [|? ? Hr _].
    assert (compare_to r reps = None) as E' by (apply compare_to_none, Hr). congruence.
  - apply compare_to_none in E. rewrite IH. split; [by constructor|]. intros Hf. by inversion_clear Hf.
Qed.

Lemma none_committed_none (reps : list (Replica Node)) : none_committed reps = None <-> Forall (fun r => Log r ≠ []) reps.
Proof.
  induction reps as [|r reps IH]; simpl; [split; [constructor|done]|]. rewrite Forall_cons.
  destruct (Nat.eqb_spec (length (Log r)) 0) as [E|E].
  - apply nil_length_inv in E. split; [done|]. intros [? _]. done.
  - rewrite IH. split; [|tauto]. intros HF. split; [|done]. intros El. by rewrite El in E.
Qed.

Lemma none_committed_error (reps : list (Replica Node)) e :
  none_committed reps = Some e -> exists r, r ∈ reps /\ e = ErrNoCommit (ID r) /\ Log r = [].
Proof.
  induction reps as [|r reps IH]; simpl; [done|]. destruct (Nat.eqb_spec (length (Log r)) 0) as [E|E].
  - intros [= <-]. exists r. split; [by left|]. split; [done|by apply nil_length_inv].
  - intros (r' & Hin & Hr)%IH. exists r'. split; [by right|done].
Qed.

Lemma compare_to_some (r : Replica Node) rest e :
  compare_to r rest = Some e -> exists r' k, r' ∈ rest /\ e = ErrDisagree (ID r) (ID r') k /\ first_diff 0 (Log r) (Log r') = Some k.
Proof.
  induction rest as [|r' rest IH]; simpl; [done|]. destruct (first_diff _ _ _) as [k|] eqn:E.
  - intros [= <-]. exists r', k. split; [by left|done].
  - intros (r1 & k & Hin & Hr)%IH. exists r1, k. split; [by right|done].
Qed.

Lemma compare_all_some (reps : list (Replica Node)) e :
  compare_all reps = Some e -> exists r r' k, r ∈ reps /\ r' ∈ reps /\ e = ErrDisagree (ID r) (ID r') k /\
    first_diff 0 (Log r) (Log r') = Some k.
Proof.
  induction reps as [|r reps IH]; simpl; [done|]. destruct (compare_to r reps) as [e'|] eqn:E.
  - intros [= <-]. apply compare_to_some in E as (r' & k & Hin & Hr). exists r, r', k. split; [by left|]. split; [by right|done].
  - intros (r1 & r2 & k & H1 & H2 & Hr)%IH. exists r1, r2, k. split; [by right|]. split; [by right|done].
Qed.
End reports.

(** The report is right. It has a line for every replica, and it is without
    error exactly when the logs of any two replicas agree over their common prefix
    and no log is empty; a disagreement it names is one, at the first position where
    the two logs differ. *)
Theorem report_spec {Node : Type} (reps : list (Replica Node)) :
  (report reps).1.1 = line_of <$> reps /\
  ((report reps).2 = None <->
     (forall i j r r', i < j -> reps !! i = Some r -> reps !! j = Some r' -> comparable (Log r) (Log r')) /\
     (forall r, r ∈ reps -> Log r ≠ [])) /\
  (forall a b k, (report reps).2 = Some (ErrDisagree a b k) ->
     exists r r' x y, r ∈ reps /\ r' ∈ reps /\ ID r = a /\ ID r' = b /\
       Log r !! k = Some x /\ Log r' !! k = Some y /\ b_id x ≠ b_id y /\ (b_id <$> take k (Log r)) = (b_id <$> take k (Log r'))).
Proof.
  assert (compare_all reps = None <->
    forall i j r r', i < j -> reps !! i = Some r -> reps !! j = Some r' -> comparable (Log r) (Log r')) as Hall.
  { rewrite compare_all_none. split.
    - intros Hf. induction Hf as [|r0 rest Hr _ IH]; intros [|i] [|j] r r' Hij; simpl; try done; try lia.
      + intros [= <-] Hj. rewrite Forall_forall in Hr. apply Hr. by eapply list_elem_of_lookup_2.
      + intros Hi Hj. eapply (IH i j); [lia|done|done].
    - induction reps as [|r0 rest IH]; intros Hf; constructor.
      + apply Forall_forall. intros r [j Hj]%list_elem_of_lookup_1. apply (Hf 0 (S j)); [lia|done|done].
      + apply IH. intros i j r r' Hij Hi Hj. apply (Hf (S i) (S j)); [lia|done|done]. }
  unfold report. destruct (compare_all reps) as [e|] eqn:E.
  - split; [done|]. split.
    + split; [done|]. intros [Hc%Hall _]. done.
    + simpl. intros a b k [= ->]. apply compare_all_some in E as (r & r' & k' & H1 & H2 & Ee & Hd). injection Ee as -> -> ->.
      apply first_diff_some in Hd as (j & x & y & -> & Hx & Hy & Hne & Ht). by exists r, r', x, y.
  - split; [done|]. simpl. split.
    + rewrite none_committed_none, Forall_forall. split; [intros Hn; split; [by apply Hall|exact Hn]|by intros [_ ?]].
    + intros a b k (r & _ & ? & _)%none_committed_error. done.
Qed.

(** ** What the exit status says *)

(** [r] is what a run leaves of the replica of a configuration, with its key. *)
Definition ran_from `{Ecdsa} {Node : Type} (node_ID : Node -> uint32)
    (c : option PrivateKey * (PrivateKey -> ReplicaConfig)) (r : Replica Node) : Prop :=
  exists (o : RangeOrder) (fc : FloatConv) key r0 early waited cr txns tm az err err',
    c.1 = Some key /\ NewReplica (c.2 key) = Some r0 /\
    @ReplicaRun o fc Node node_ID r0 early waited cr txns tm az err = Some (r, err').

Section status.
Context `{Pem} {Node : Type} (node_ID : Node -> uint32).
Context (GenerateKey : uint32 -> option PrivateKey) (ParseRawPrivateKey : bytes -> option PrivateKey).
Context (fs : directory) (mkdir_ok : bool) (os_write : bytes -> write_outcome) (read_ok : bytes -> bool).
Context (order : gmap uint32 PrivateKey -> list (uint32 * PrivateKey)) (servers_ok : bool).
Context (WriteLabeledReport : list row -> bytes -> bytes -> bool).
#[local] Abbreviation asked := (run GenerateKey ParseRawPrivateKey fs mkdir_ok os_write read_ok order servers_ok).

(** A process that runs replicas knows how many there are. *)
Lemma run_clusterSize f cfgs : asked f = Runs cfgs -> exists n, clusterSize f = inr n.
Proof.
  unfold run, clusterSize. destruct (f_genKeys f); [done|]. destruct (Z.ltb_spec 0 (f_local f)).
  { intros _. destruct (Z.eqb_spec (f_local f) 0); [lia|]. by eexists. }
  case_bool_decide; [|done]. destruct (runOne _ _ _ f) as [|r] eqn:E; [done|]. intros _.
  destruct (f_local f =? 0)%Z; [|by eexists]. unfold runOne in E. destruct (addresses f) as [|addrs]; [done|]. by eexists.
Qed.

(** Replicas that committed something have a result to write. *)
Lemma rows_written f n cfgs (reps : list (Replica Node)) :
  Forall2 (ran_from node_ID) cfgs reps -> (forall r, r ∈ reps -> Log r ≠ []) ->
  exists rows, mapM (fun r => m ← Result r; Some (row_of f n m)) reps = Some rows /\
    Forall2 (fun r w => exists m, Result r = Some m /\ w = row_of f n m) reps rows.
Proof.
  intros Hr Hl. assert (Forall (fun r => is_Some (Result r)) reps) as Hs.
  { apply Forall_forall. intros r Hin. apply list_elem_of_lookup in Hin as [i Hi].
    destruct (Forall2_lookup_r _ _ _ _ _ Hr Hi) as (c & _ & o & fc & key & r0 & e & w & cr & tx & tm & az & er & er' & _ & Hn & Hrun).
    destruct (@run_result o fc _ _ node_ID _ _ _ _ _ _ _ _ _ _ _ Hn Hrun) as [Hc|?]; [|done].
    destruct (Hl r); [by eapply list_elem_of_lookup_2|done]. }
  clear Hr Hl. induction Hs as [|r reps [m Hm] _ (rows & E & IH)]; [by exists []|].
  exists (row_of f n m :: rows). cbn [mapM mbind option_bind]. rewrite Hm. cbn [mbind option_bind]. rewrite E.
  split; [done|]. constructor; [by exists m|done].
Qed.

(** C32. What the exit status says. A process that has run the replicas its flags
    ask for never crashes writing their results, and it exits with status 0 exactly
    when the profilers gave no error and the flags were sound, and then either the
    keys were written, or it ran: the logs of all its replicas agree over their
    common prefix, none of them is empty, and if [-output] names a file the result of
    every replica was written to it, under the size of the cluster. *)
Theorem exit_status started stopped f (reps : list (Replica Node)) :
  match asked f with Runs cfgs => Forall2 (ran_from node_ID) cfgs reps | _ => True end ->
  exists s, main GenerateKey ParseRawPrivateKey fs mkdir_ok os_write read_ok order servers_ok WriteLabeledReport started stopped f reps = Some s /\
  (s = 0 <-> started = true /\ stopped = true /\
    match asked f with
    | Wrote (_, e) => e = None
    | Failed _ => False
    | Runs _ =>
        (forall i j r r', i < j -> reps !! i = Some r -> reps !! j = Some r' -> comparable (Log r) (Log r')) /\
        (forall r, r ∈ reps -> Log r ≠ []) /\
        (f_Output f = [] \/ exists n rows, clusterSize f = inr n /\
          Forall2 (fun r w => exists m, Result r = Some m /\ w = row_of f n m) reps rows /\
          WriteLabeledReport rows (label f) (f_Output f) = true)
    end).
Proof.
  intros Hr. unfold main, run_error. destruct started; cbn [negb]; [|exists 1; naive_solver].
  destruct (asked f) as [[d e]|cfgs|e] eqn:E; [destruct e, stopped; eexists; (split; [reflexivity|]); naive_solver| |eexists; split; [reflexivity|]; naive_solver].
  destruct (report_spec reps) as (_ & Hrep & _). unfold runAll. destruct (report reps).2 as [e|].
  { exists 1. split; [done|]. split; [done|]. intros (_ & _ & H1 & H2 & _). destruct Hrep as [_ Hrep]. by discriminate Hrep. }
  destruct (proj1 Hrep eq_refl) as [Hc Hl]. clear Hrep. case_bool_decide as Ho.
  { destruct stopped; eexists; (split; [reflexivity|]); naive_solver. }
  unfold writeResults. destruct (run_clusterSize f cfgs E) as [n En]. rewrite En.
  destruct (rows_written f n cfgs reps Hr Hl) as (rows & Em & Hrows). rewrite Em. cbn [mbind option_bind].
  assert (forall rows', Forall2 (fun r w => exists m, Result r = Some m /\ w = row_of f n m) reps rows' -> rows' = rows) as Huniq.
  { clear -Hrows. induction Hrows as [|r w reps rows (m & Hm & ->) _ IH]; intros rows' Hr; inversion Hr as [|? ? ? ? (m' & Hm' & ->)]; subst; [done|].
    f_equal; [congruence|auto]. }
  destruct (WriteLabeledReport rows _ _) eqn:Ew; cbn.
  - destruct stopped; eexists; (split; [reflexivity|]); (split; [|naive_solver]); [|done]. intros _. split_and!; [done..|]. right. by exists n, rows.
  - exists 1. split; [done|]. split; [done|]. intros (_ & _ & _ & _ & [?|(n' & rows' & En' & Hr' & Ew')]); [done|].
    injection En' as <-. rewrite (Huniq rows' Hr') in Ew'. congruence.
Qed.
End status.

(** ** Replicas that ran in one execution *)

(** [r] was built from a configuration with its own key registered, under the
    execution's verifier, and has run on messages of the execution. *)
Definition took_part `{EcdsaLaws} {Node : Type} (node_ID : Node -> uint32) (x : execution) (U : Block -> Prop) (r : Replica Node) : Prop :=
  exists (o : RangeOrder) (fc : FloatConv) cfg r0 early waited cr txns tm az err err',
    rc_Keys cfg !! rc_ID cfg = Some (Public (rc_Key cfg)) /\
    same_verifier (cfg_verifier (core_config cfg)) (x_verifier x) /\
    NewReplica cfg = Some r0 /\ own_signer cfg cr /\
    Forall (input_seen x U (cfg_verifier (core_config cfg))) early /\ Forall (act_seen x U cfg) az /\
    @ReplicaRun o fc Node node_ID r0 early waited cr txns tm az err = Some (r, err').

(** A replica whose log is that of its ledger, and whose core took part in the
    execution unless the log is empty. *)
Definition participant `{Ecdsa} {Node : Type} (x : execution) (U : Block -> Prop) (r : Replica Node) : Prop :=
  Log r = l_onCommit (c_ledger (core_of r)) /\
  (Log r = [] \/ exists o fc cfg, @member_run o fc x U cfg (core_of r)).

Lemma took_part_participant `{EcdsaLaws} {Node : Type} (node_ID : Node -> uint32) x U (r : Replica Node) :
  took_part node_ID x U r -> participant x U r.
Proof.
  intros (o & fc & cfg & r0 & early & w & cr & txns & tm & az & e & e' & K1 & S1 & N1 & W1 & I1 & A1 & R1).
  destruct (run_member node_ID x U cfg K1 S1 r0 r early w cr txns tm az e e' N1 W1 I1 A1 R1) as (L1 & _ & M1).
  split; [done|]. destruct M1 as [?|M1]; [by left|right]. by exists o, fc, (core_config cfg).
Qed.

Lemma participants_comparable `{Ecdsa} {Node : Type} x U rank (r r' : Replica Node) :
  execution_ok x -> block_universe U rank ->
  (forall i b tc vi ci, honest x i -> EVote b tc vi ci ∈ x_history x i -> U b) ->
  participant x U r -> participant x U r' -> comparable (Log r) (Log r').
Proof.
  intros Hx HU Hv [L1 M1] [L2 M2].
  destruct M1 as [->|(o & fc & cfg & M1)]; [left; apply prefix_nil|].
  destruct M2 as [->|(o' & fc' & cfg' & M2)]; [right; apply prefix_nil|].
  unfold comparable. rewrite L1, L2. exact (members_comparable o o' fc fc' x U rank _ _ _ _ Hx HU Hv M1 M2).
Qed.

(** The report on replicas whose logs all agree. *)
Lemma report_comparable {Node : Type} (P : Replica Node -> Prop) (reps : list (Replica Node)) :
  (forall r r', P r -> P r' -> comparable (Log r) (Log r')) -> Forall P reps ->
  (report reps).1.2 = (1 <? length reps)%nat /\
  ((report reps).2 = None \/ exists r, r ∈ reps /\ Log r = [] /\ (report reps).2 = Some (ErrNoCommit (ID r))).
Proof.
  intros HP Hr. assert (compare_all reps = None) as E.
  { apply compare_all_none. induction Hr as [|r reps Hr Hreps IH]; constructor; [|done].
    eapply Forall_impl; [exact Hreps|]. auto. }
  unfold report. rewrite E. split; [done|]. simpl. destruct (none_committed reps) as [e|] eqn:En; [|by left].
  apply none_committed_error in En as (r & Hin & -> & El). right. by exists r.
Qed.

(** The program agrees with itself. However many replicas took part in an
    execution with at most [Faulty n] Byzantine validators, each behind its own edge
    and with its own key, fed whatever messages arrived in whatever order, and
    stopped at any time: the report at the end never finds two of them in
    disagreement, and if it reports an error at all it is that some replica committed
    nothing. *)
Theorem report_agrees `{EcdsaLaws} {Node : Type} (node_ID : Node -> uint32) (x : execution) (U : Block -> Prop)
    (rank : bytes -> nat) (reps : list (Replica Node)) :
  execution_ok x -> block_universe U rank ->
  (forall i b tc vi ci, honest x i -> EVote b tc vi ci ∈ x_history x i -> U b) ->
  Forall (took_part node_ID x U) reps ->
  (report reps).1.2 = (1 <? length reps)%nat /\
  ((report reps).2 = None \/ exists r, r ∈ reps /\ Log r = [] /\ (report reps).2 = Some (ErrNoCommit (ID r))).
Proof.
  intros Hx HU Hv Hr. apply (report_comparable (participant x U)).
  - intros r r'. by apply (participants_comparable x U rank).
  - eapply Forall_impl; [exact Hr|]. intros r. apply took_part_participant.
Qed.

(** ** Two replicas of the concrete execution

    Keys for the signatures of [Agreement.Scenario], and two of its replicas at work
    behind their edges. *)
Definition sig_neg : bytes := Marshal (MkEcdsaSig 1 (curveOrder - 1)).
Definition scenario_ecdsa : Ecdsa := {|
  PrivateKey := N;
  PublicKey := N;
  Public := fun k => k;
  SignASN1 := fun _ k d => if ((1 <=? k) && (k <=? 4))%N && bool_decide (d ∈ Scenario.digests) then Some Scenario.sig11 else None;
  VerifyASN1 := fun k d sig => ((1 <=? k) && (k <=? 4))%N && bool_decide (d ∈ Scenario.digests) &&
    (bool_decide (sig = Scenario.sig11) || bool_decide (sig = sig_neg));
|}.

Lemma sig11_eq : Scenario.sig11 = Marshal (MkEcdsaSig 1 1).
Proof. vm_compute. reflexivity. Qed.
Lemma one_in_order : (0 < 1 < curveOrder)%Z /\ (0 < curveOrder - 1 < curveOrder)%Z.
Proof. repeat split; vm_compute; reflexivity. Qed.

Lemma scenario_laws : @EcdsaLaws scenario_ecdsa.
Proof.
  destruct one_in_order as [Ho Hn]. split.
  - intros rand k d der E. cbn [SignASN1 scenario_ecdsa] in E. destruct (_ && _) eqn:Ec; [|discriminate E].
    apply (inj Some) in E as <-. exists 1%Z, 1%Z. split; [exact sig11_eq|]. split; [done|]. split; [done|].
    cbn [VerifyASN1 scenario_ecdsa Public]. rewrite Ec, bool_decide_eq_true_2 by done. done.
  - intros k d r s Hr Hs. cbn [VerifyASN1 scenario_ecdsa]. f_equal. rewrite sig11_eq. unfold sig_neg. apply eq_true_iff_eq.
    rewrite !orb_true_iff, !bool_decide_eq_true.
    split; intros [E|E]; (apply Marshal_inj in E as [Er Es]; [subst r|try done; lia..]); [right|left|right|left]; do 2 f_equal; lia.
  - intros k d sig E. cbn [VerifyASN1 scenario_ecdsa] in E. apply andb_true_iff in E as [_ E]. apply orb_true_iff in E as [E|E]; bools; subst.
    + exists 1%Z, 1%Z. split; [exact sig11_eq|done].
    + exists 1%Z, (curveOrder - 1)%Z. done.
Qed.

Definition scenario_keys : gmap uint32 N := {[1%N := 1%N; 2%N := 2%N; 3%N := 3%N; 4%N := 4%N]}.
Definition scenario_rcfg (id : uint32) : @ReplicaConfig scenario_ecdsa := @MkReplicaConfig scenario_ecdsa id ∅ id scenario_keys 0 0 0.
Definition scenario_cr (id : uint32) : Crypto := @signer_crypto scenario_ecdsa (@NewSigner scenario_ecdsa id scenario_keys) [].

#[local] Opaque Scenario.digests.

Lemma scenario_keys_lookup i : scenario_keys !! i = if ((1 <=? i) && (i <=? 4))%N then Some i else None.
Proof.
  unfold scenario_keys. destruct (decide (i = 1 \/ i = 2 \/ i = 3 \/ i = 4)%N) as [Hi|Hi].
  - by destruct Hi as [->|[->|[->| ->]]].
  - assert (((1 <=? i) && (i <=? 4))%N = false) as -> by (apply andb_false_iff; rewrite !N.leb_gt; lia).
    rewrite !lookup_insert_ne by lia. apply lookup_singleton_ne. lia.
Qed.

Lemma scenario_verify (k : N) i d sg :
  @SignerVerify scenario_ecdsa (@NewSigner scenario_ecdsa k scenario_keys) i d sg = Verify Scenario.crypto i d sg.
Proof.
  unfold SignerVerify. cbn [sn_keys NewSigner Verify Scenario.crypto]. rewrite scenario_keys_lookup.
  destruct ((1 <=? i) && (i <=? 4))%N eqn:Ei; [|done]. cbn [andb VerifyASN1 scenario_ecdsa]. rewrite Ei. cbn [andb].
  destruct (decide (sg = Scenario.sig11)) as [->|Hs].
  - rewrite (bool_decide_eq_true_2 (Scenario.sig11 = Scenario.sig11)) by done. rewrite orb_true_l, andb_true_r.
    assert (Unmarshal Scenario.sig11 = Some (MkEcdsaSig 1 1, [])) as -> by (vm_compute; reflexivity). done.
  - rewrite (bool_decide_eq_false_2 (sg = Scenario.sig11)) by done. rewrite orb_false_l, andb_false_r.
    destruct (decide (sg = sig_neg)) as [->|Hn].
    + assert (Unmarshal sig_neg = Some (MkEcdsaSig 1 (curveOrder - 1), [])) as -> by (vm_compute; reflexivity). done.
    + rewrite (bool_decide_eq_false_2 (sg = sig_neg)), andb_false_r by done. destruct (Unmarshal sg) as [[rs rest]|]; [|done].
      by destruct (_ <? _)%Z.
Qed.

Lemma scenario_same id : same_verifier (cfg_verifier (core_config (scenario_rcfg id))) (x_verifier Scenario.exec).
Proof. split; [intros i d s; exact (scenario_verify id i d s)|vm_compute; reflexivity]. Qed.

Definition scenario_act (id : uint32) : replica_act N := ActLoop (scenario_cr id) [] solo_clock.
Definition fetched (b : Block) : replica_act N := ActInput (InFetch (b_id b) [b]).
Definition voted_for : replica_act N := ActInput (InVote member_vote).
Definition scenario_ran (id : uint32) (az : list (replica_act N)) : option (Replica N * ctx_error) :=
  r ← @NewReplica scenario_ecdsa N (scenario_rcfg id);
  @ReplicaRun canonical_range least_int64 N (fun n => n) r [] None (scenario_cr id) [] solo_clock az DeadlineExceeded.
Definition acts2 : list (replica_act N) :=
  [fetched Scenario.block1; scenario_act 2; fetched Scenario.block2; voted_for; scenario_act 2; scenario_act 2].
Definition acts3 : list (replica_act N) :=
  [fetched Scenario.block2; fetched Scenario.block1; voted_for; scenario_act 3; scenario_act 3; scenario_act 3].
Definition ran2 : option (Replica N * ctx_error) := scenario_ran 2 acts2.
Definition ran3 : option (Replica N * ctx_error) := scenario_ran 3 acts3.

#[local] Opaque Scenario.block1 Scenario.block2 Scenario.ledger1 Scenario.ledger2 Scenario.qc1 Scenario.qc2 genesisBlock member_vote.

Definition scenario_act_ok (id : uint32) (a : replica_act N) : Prop :=
  a = fetched Scenario.block1 \/ a = fetched Scenario.block2 \/ a = voted_for \/ a = scenario_act id.

Lemma scenario_seen id a :
  scenario_act_ok id a -> @act_seen scenario_ecdsa N Scenario.exec scenario_blocks (scenario_rcfg id) a.
Proof.
  intros [->|[->|[->| ->]]]; cbn [act_seen fetched voted_for scenario_act input_seen].
  - apply Forall_singleton. intros _. left. reflexivity.
  - apply Forall_singleton. intros _. right. reflexivity.
  - intros _. split; [exact seen_member_vote|]. intros q Hq. apply (inj Some) in Hq as <-. exact Scenario.seen2.
  - exists []. reflexivity.
Qed.

Lemma scenario_took_part id az r e :
  (1 <= id <= 4)%N -> Forall (scenario_act_ok id) az -> scenario_ran id az = Some (r, e) ->
  @took_part scenario_ecdsa scenario_laws N (fun n => n) Scenario.exec scenario_blocks r.
Proof.
  intros Hid Haz E. apply bind_Some in E as (r0 & E0 & Er).
  exists canonical_range, least_int64, (scenario_rcfg id), r0, [], None, (scenario_cr id), [], solo_clock, az, DeadlineExceeded, e.
  split; [|split; [apply scenario_same|split; [exact E0|split; [exists []; reflexivity|split; [constructor|split; [|exact Er]]]]]].
  - cbn [scenario_rcfg rc_Keys rc_ID rc_Key]. rewrite scenario_keys_lookup.
    assert (((1 <=? id) && (id <=? 4))%N = true) as -> by (apply andb_true_iff; rewrite !N.leb_le; lia). reflexivity.
  - eapply Forall_impl; [exact Haz|]. apply scenario_seen.
Qed.

Lemma acts2_ok : Forall (scenario_act_ok 2) acts2.
Proof.
  unfold acts2, scenario_act_ok. repeat (apply Forall_cons; split); [left; reflexivity|do 3 right; reflexivity|right; left; reflexivity|
    do 2 right; left; reflexivity|do 3 right; reflexivity|do 3 right; reflexivity|apply Forall_nil_2].
Qed.
Lemma acts3_ok : Forall (scenario_act_ok 3) acts3.
Proof.
  unfold acts3, scenario_act_ok. repeat (apply Forall_cons; split); [right; left; reflexivity|left; reflexivity|do 2 right; left; reflexivity|
    do 3 right; reflexivity..|apply Forall_nil_2].
Qed.

Lemma report_agrees_witness :
  exists r2 r3 e2 e3, ran2 = Some (r2, e2) /\ ran3 = Some (r3, e3) /\ length (Log r2) = 1 /\ length (Log r3) = 1 /\
    (report [r2; r3]).1.2 = true /\ (report [r2; r3]).2 = None.
Proof.
  assert (option_map (fun r => length (Log r.1)) ran2 = Some 1) as L2 by (vm_compute; reflexivity).
  assert (option_map (fun r => length (Log r.1)) ran3 = Some 1) as L3 by (vm_compute; reflexivity).
  destruct ran2 as [[r2 e2]|] eqn:E2; [|discriminate L2]. destruct ran3 as [[r3 e3]|] eqn:E3; [|discriminate L3].
  cbn [option_map fst] in L2, L3. apply (inj Some) in L2, L3. exists r2, r3, e2, e3.
  split; [reflexivity|]. split; [reflexivity|]. split; [exact L2|]. split; [exact L3|].
  destruct (@report_agrees scenario_ecdsa scenario_laws N (fun n => n) Scenario.exec scenario_blocks scenario_rank [r2; r3]
    Scenario.ok scenario_universe scenario_votes) as [Ha Hr].
  - unfold ran2 in E2. unfold ran3 in E3. apply Forall_cons. split; [|apply Forall_cons; split; [|apply Forall_nil_2]].
    + exact (scenario_took_part 2 acts2 r2 e2 ltac:(lia) acts2_ok E2).
    + exact (scenario_took_part 3 acts3 r3 e3 ltac:(lia) acts3_ok E3).
  - split; [exact Ha|]. destruct Hr as [Hr|(r & Hin & Hl & _)]; [exact Hr|].
    apply elem_of_cons in Hin as [->|Hin]; [rewrite Hl in L2; discriminate L2|].
    apply list_elem_of_singleton in Hin as ->. rewrite Hl in L3. discriminate L3.
Defined.

(** Two processes of a seeded cluster. *)
Definition demo_flags (self : bytes) : Flags :=
  MkFlags self [[x20; x61]; [x62; xc2; xa0]; [x63]] 0 0 0 0 [] true false 0 [] 0 0 0 0.
Definition demo_one (self : bytes) : cmd_error + (option N * (N -> @ReplicaConfig toy_ecdsa)) :=
  @runOne toy_ecdsa toy_pem (fun b => Some (be_val b)) ∅ (fun _ => true) (demo_flags self).

#[local] Opaque sha256.

Lemma one_id_per_address_witness :
  exists key mk mk', demo_one [x62; x0a] = inr (Some key, mk) /\ (exists p, demo_one [x63] = inr (p, mk')) /\
    rc_ID (mk key) = 2%N /\ rc_Keys (mk key) !! 2%N = Some key /\ is_Some (NewReplica (Node := N) (mk key)) /\ rc_ID (mk' key) ≠ 2%N.
Proof.
  assert (match demo_one [x62; x0a] with inr (Some _, mk) => rc_ID (mk 0%N) | _ => 0%N end = 2%N) as E by (vm_compute; reflexivity).
  destruct (demo_one [x62; x0a]) as [|[[key|] mk]] eqn:E1; [discriminate E| |discriminate E].
  assert (match demo_one [x63] with inr _ => true | _ => false end = true) as E' by (vm_compute; reflexivity).
  destruct (demo_one [x63]) as [|[p mk']] eqn:E2; [discriminate E'|].
  destruct (@one_id_per_address toy_ecdsa toy_pem N (fun b => Some (be_val b)) ∅ (fun _ => true) (demo_flags [x62; x0a]) (demo_flags [x63])
    (Some key) mk p mk' E1 E2 eq_refl eq_refl) as [T _].
  destruct (T key) as (_ & _ & _ & _ & Hid & Hown & Hnew). specialize (Hown eq_refl eq_refl).
  assert (is_Some (NewReplica (Node := N) (mk key))) as Hacc by (apply Hnew; [reflexivity|reflexivity|discriminate]).
  assert (rc_ID (mk key) = 2%N) as Eid.
  { destruct (@runOne_inv toy_ecdsa toy_pem (fun b => Some (be_val b)) ∅ (fun _ => true) _ _ _ E1) as (a & i & pubs & _ & _ & _ & Em). rewrite Em in E |- *. exact E. }
  exists key, mk, mk'. split; [reflexivity|]. split; [exists p; reflexivity|]. split; [exact Eid|].
  rewrite Eid in Hown. split; [exact Hown|]. split; [exact Hacc|]. rewrite <- Eid. intros Hc. apply Hid in Hc.
  vm_compute in Hc. discriminate Hc.
Defined.

(** A cluster of one in one process, with a result file. *)
Definition solo_flags : Flags := MkFlags [] [] 0 0 0 1 [] false false 0 [x6f] 0 0 0 0.
Definition one_row (rows : list row) (lbl out : bytes) : bool :=
  bool_decide (((fun w => (rw_latencies w, rw_Nodes w)) <$> rows) = [([2; 2; 2]%Z, 1%Z)]) && bool_decide (out = [x6f]).
Definition solo_main (stopped : bool) (reps : list (Replica N)) : option nat :=
  @main toy_ecdsa toy_pem N (fun _ => Some 5%N) (fun _ => None) ∅ true (fun _ => Written) (fun _ => true) map_to_list true one_row true stopped solo_flags reps.

Lemma exit_status_witness :
  exists r, solo_ran = Some (r, Canceled) /\ solo_main true [r] = Some 0 /\ Log r ≠ [] /\ Result r = Some [2; 2; 2]%Z /\
    exists s, solo_main false [r] = Some s /\ s ≠ 0.
Proof.
  assert (option_map (fun r => (Result r.1, r.2)) solo_ran = Some (Some [2; 2; 2]%Z, Canceled)) as E by (vm_compute; reflexivity).
  assert (option_map (fun r => solo_main true [r.1]) solo_ran = Some (Some 0)) as Em by (vm_compute; reflexivity).
  destruct solo_ran as [[r err]|] eqn:Er; [|discriminate E]. cbn [option_map fst snd] in E, Em. injection E as E1 E2. injection Em as Em.
  assert (forall stopped, exists s, solo_main stopped [r] = Some s /\ (s = 0 <-> true = true /\ stopped = true /\
    (forall i j r1 r2, i < j -> [r] !! i = Some r1 -> [r] !! j = Some r2 -> comparable (Log r1) (Log r2)) /\
    (forall r1, r1 ∈ [r] -> Log r1 ≠ []) /\
    (f_Output solo_flags = [] \/ exists n rows, clusterSize solo_flags = inr n /\
      Forall2 (fun r w => exists m, Result r = Some m /\ w = row_of solo_flags n m) [r] rows /\
      one_row rows (label solo_flags) (f_Output solo_flags) = true))) as T.
  { intros stopped. apply (@exit_status toy_ecdsa toy_pem N (fun n => n) (fun _ => Some 5%N) (fun _ => None) ∅ true (fun _ => Written) (fun _ => true)
      map_to_list true one_row true stopped solo_flags [r]).
    cbn. constructor; [|constructor]. unfold solo_ran in Er. apply bind_Some in Er as (r0 & E0 & Er).
    exists canonical_range, least_int64, 5%N, r0, [], None, solo_signer, [[x61]], solo_clock, solo_acts, Canceled, err.
    split; [reflexivity|]. split; [exact E0|exact Er]. }
  exists r. rewrite E2. split; [reflexivity|]. split; [exact Em|].
  destruct (T true) as (s & Es & Hs & _). rewrite Em in Es. injection Es as <-. destruct (Hs eq_refl) as (_ & _ & _ & Hl & _).
  split; [apply Hl, list_elem_of_singleton; reflexivity|]. split; [exact E1|].
  destruct (T false) as (s & Es & Hs' & _). exists s. split; [exact Es|]. intros Hc. destruct (Hs' Hc) as (_ & Hf & _). discriminate Hf.
Defined.
