(* ===== verification/System.v ===== *)
(** The deployed system: the honest replicas of one key set, each built and run by
    [replica/replica.go], against a network and Byzantine replicas that bring them
    whatever messages they like. A state is reached by moves of single replicas in
    any order. The only thing assumed of what is reached is cryptography: no
    signature of an honest replica was forged, no two hashed strings collide, and
    the hashes that link blocks form no cycle. What [Agreement] asks of an execution
    is then derived, and the report on all replicas follows. *)

From stdpp Require Import prelude gmap list fin_maps fin_sets sorting.
From Stdlib Require Import NArith ZArith Lia Strings.Byte.
From S2P Require Import Prelude Sha256 Proto Hash Types Quorum Verify Orphans Ledger BlockTree Safety Agreement.
From S2P Require Import Seams Pacemaker Leader Core Wire Net Cluster Signer Keys Loop Payload Replica Cmd.

(** ** What occurs in a message *)

Definition qc_digests (qc : option QuorumCert) : list digest_input :=
  match qc with
  | None => []
  | Some q => [DLedgerCommit (qc_ledger_commit_info q); DVoteInfo (qc_vote_info q); DQCSigs (qc_signatures q)]
  end.
Definition tc_digests (tc : option TimeoutCert) : list digest_input :=
  match tc with None => [] | Some t => (fun v => DTimeout (tc_round t) (tv_high_qc_round v)) <$> tc_votes t end.
Definition block_digests (b : option Block) : list digest_input :=
  match b with None => [] | Some b => block_input b :: qc_digests (b_qc b) end.

(** The strings hashed to check a message. *)
Definition input_digests (i : input) : list digest_input :=
  match i with
  | InProposal m => block_digests (pm_block m) ++ tc_digests (pm_last_round_tc m) ++ qc_digests (pm_high_commit_qc m)
  | InVote m => DLedgerCommit (vm_ledger_commit_info m) :: DVoteInfo (vm_vote_info m) :: qc_digests (vm_high_commit_qc m)
  | InTimeout m =>
      DTimeout (TimeoutInfo_GetRound (tm_tmo_info m)) (QCRound (TimeoutInfo_GetHighQc (tm_tmo_info m)))
        :: qc_digests (TimeoutInfo_GetHighQc (tm_tmo_info m)) ++ tc_digests (tm_last_round_tc m)
        ++ qc_digests (tm_high_commit_qc m)
  | InFetch _ replies => replies ≫= fun b => block_digests (Some b)
  | InRequestBlock _ _ | InTimer _ => []
  end.

Definition qc_sigs (qc : option QuorumCert) : list bytes :=
  match qc with None => [] | Some q => Signature_GetSig (qc_author_sig q) :: (sg_sig <$> qc_signatures q) end.
Definition tc_sigs (tc : option TimeoutCert) : list bytes :=
  match tc with None => [] | Some t => (fun v => Signature_GetSig (tv_sig v)) <$> tc_votes t end.

(** The signatures in a message. *)
Definition input_sigs (i : input) : list bytes :=
  match i with
  | InProposal m =>
      Signature_GetSig (pm_sig m) :: qc_sigs (Block_GetQc (pm_block m)) ++ tc_sigs (pm_last_round_tc m)
        ++ qc_sigs (pm_high_commit_qc m)
  | InVote m => Signature_GetSig (vm_sig m) :: qc_sigs (vm_high_commit_qc m)
  | InTimeout m =>
      Signature_GetSig (TimeoutInfo_GetSig (tm_tmo_info m)) :: qc_sigs (TimeoutInfo_GetHighQc (tm_tmo_info m))
        ++ tc_sigs (tm_last_round_tc m) ++ qc_sigs (tm_high_commit_qc m)
  | InFetch _ replies => replies ≫= fun b => qc_sigs (b_qc b)
  | InRequestBlock _ _ | InTimer _ => []
  end.

(** A message on its way to a peer. *)
Definition sent_input (e : effect) : option input :=
  match e with
  | NetProposal m => Some (InProposal m)
  | NetVote m _ => Some (InVote m)
  | NetTimeout m => Some (InTimeout m)
  | _ => None
  end.

(** ** Messages of the wire's types

    [uint32] and [uint64] fields, and lengths that fit Go's [int]. *)

Definition fits (n : nat) : bool := (N.of_nat n <? two64)%N.
Definition qc_typed (qc : option QuorumCert) : bool :=
  (VoteInfo_GetRound (QuorumCert_GetVoteInfo qc) <? two64)%N &&
  (VoteInfo_GetParentRound (QuorumCert_GetVoteInfo qc) <? two64)%N &&
  fits (length (QuorumCert_GetSignatures qc)) &&
  forallb (fun s => (sg_signer s <? two32)%N && fits (length (sg_sig s))) (QuorumCert_GetSignatures qc).
Definition tc_typed (tc : option TimeoutCert) : bool :=
  (TimeoutCert_GetRound tc <? two64)%N && forallb (fun v => (tv_high_qc_round v <? two64)%N) (TimeoutCert_GetVotes tc).
Definition block_typed_b (b : Block) : bool :=
  (b_author b <? two32)%N && (b_round b <? two64)%N && fits (length (b_payload b)) &&
  forallb (fun p => fits (length p)) (b_payload b) && qc_typed (b_qc b).

Definition input_typed (i : input) : bool :=
  match i with
  | InProposal m => block_typed_b (default zeroBlock (pm_block m)) && tc_typed (pm_last_round_tc m) && qc_typed (pm_high_commit_qc m)
  | InVote m =>
      (VoteInfo_GetRound (vm_vote_info m) <? two64)%N && (VoteInfo_GetParentRound (vm_vote_info m) <? two64)%N &&
      qc_typed (vm_high_commit_qc m)
  | InTimeout m =>
      (TimeoutInfo_GetRound (tm_tmo_info m) <? two64)%N && qc_typed (TimeoutInfo_GetHighQc (tm_tmo_info m)) &&
      tc_typed (tm_last_round_tc m) && qc_typed (tm_high_commit_qc m)
  | InFetch _ replies => forallb block_typed_b replies
  | InRequestBlock _ _ | InTimer _ => true
  end.

(** ** The system *)

Section system.
Context `{Ecdsa} {Node : Type} (node_ID : Node -> uint32) (order : uint32 -> RangeOrder) (conv : uint32 -> FloatConv).

(** The keys of the validators, which of them are honest, and how each of these is
    configured. *)
Record deployment := MkDeployment {
  d_keys : gmap uint32 PublicKey;
  d_honest : gset uint32;
  d_conf : uint32 -> ReplicaConfig;
}.

Context (D : deployment).

Definition d_byzantine : gset uint32 := dom (d_keys D) ∖ d_honest D.

Record deployment_ok : Prop := {
  do_honest : d_honest D ⊆ dom (d_keys D);
  do_nonempty : d_keys D ≠ ∅;
  do_faults : (Z.of_nat (size d_byzantine) <= Faulty (Z.of_nat (size (d_keys D))))%Z;
  do_id : forall i, i ∈ d_honest D -> rc_ID (d_conf D i) = i;
  do_keys : forall i, i ∈ d_honest D -> rc_Keys (d_conf D i) = d_keys D;
  do_key : forall i, i ∈ d_honest D -> d_keys D !! i = Some (Public (rc_Key (d_conf D i)));
}.

(** Where a replica is in [Run]. *)
Inductive phase := Created (r : Replica Node) | Running (r : Replica Node) | Stopped (r : Replica Node).
Definition phase_replica (p : phase) : Replica Node := match p with Created r | Running r | Stopped r => r end.

(** The replicas, what each has handed to its transport, and what arrived at them. *)
Record world := MkWorld {
  w_nodes : gmap uint32 phase;
  w_sent : list (uint32 * effect);
  w_inputs : list input;
}.

Definition no_world : world := MkWorld ∅ [] [].

(** What a replica does next: it is created; a message arrives; the peers are there
    and the core starts, or they are not; the loop takes an event; the sender takes a
    call; the context is done. *)
Inductive move :=
  | Boot
  | Receive (i : input)
  | Begin (rand : bytes) (txns : list bytes) (tm : clock)
  | GiveUp
  | Work (rand : bytes) (txns : list bytes) (tm : clock)
  | Send (cfg : list Node)
  | Halt.

Definition signer_of (i : uint32) (rand : bytes) : Crypto :=
  signer_crypto (NewSigner (rc_Key (d_conf D i)) (rc_Keys (d_conf D i))) rand.

(** What the core emits when it starts, and when the loop takes an event. *)
Definition start_effects (cr : Crypto) (txns : list bytes) (r : Replica Node) : list effect :=
  match Start cr txns (core_of r) with Some (_, _, es) => es | None => [] end.
Definition tick_effects (i : uint32) (cr : Crypto) (txns : list bytes) (r : Replica Node) : list effect :=
  match @Tick (order i) (conv i) cr txns (r_loop r) with Some (_, es, _) => es | None => [] end.

(** A replica that has stopped stays stopped. In the code it can be started again with
    fresh [Safety] counters, which are kept in memory only, and can then vote twice in a
    round: [diem/INVARIANTS.org] lists this as a gap, and no execution here has it. An
    event on which the replica would panic or loop for ever is not a move; what it does
    before that within the event is not recorded. *)
Definition node_move (i : uint32) (p : option phase) (m : move) : option (phase * list effect) :=
  match p, m with
  | None, Boot => r ← NewReplica (d_conf D i); Some (Created r, [])
  | Some (Created r), Receive inp => r ← receive r inp; Some (Created r, [])
  | Some (Created r), GiveUp => Some (Stopped (stop r), [])
  | Some (Created r), Begin rand txns tm =>
      r' ← startCore (signer_of i rand) txns tm (startMeasurement r);
      Some (Running r', start_effects (signer_of i rand) txns r)
  | Some (Running r), Receive inp => r ← receive r inp; Some (Running r, [])
  | Some (Running r), Work rand txns tm =>
      r' ← @replicaAct (order i) (conv i) Node node_ID r (ActLoop (signer_of i rand) txns tm);
      Some (Running r', tick_effects i (signer_of i rand) txns r)
  | Some (Running r), Send cfg => r ← @replicaAct (order i) (conv i) Node node_ID r (ActSender cfg); Some (Running r, [])
  | Some (Running r), Halt => r ← stopCore r; Some (Stopped (stop (finish r)), [])
  | _, _ => None
  end.

Definition move_input (m : move) : list input := match m with Receive i => [i] | _ => [] end.

(** A move of an honest replica; what arrives has the wire's types. *)
Definition world_move (w : world) (i : uint32) (m : move) : option world :=
  if bool_decide (i ∈ d_honest D) && forallb input_typed (move_input m) then
    '(p, es) ← node_move i (w_nodes w !! i) m;
    Some (MkWorld (<[i := p]> (w_nodes w)) (w_sent w ++ (pair i <$> es)) (w_inputs w ++ move_input m))
  else None.

Fixpoint world_moves (w : world) (ms : list (uint32 * move)) : option world :=
  match ms with [] => Some w | (i, m) :: ms => w ← world_move w i m; world_moves w ms end.

Definition reachable (w : world) : Prop := exists ms, world_moves no_world ms = Some w.

(** ** What is assumed of a state *)

Definition sent_by (i : uint32) (w : world) : list effect := omap (fun s => if (s.1 =? i)%N then Some s.2 else None) (w_sent w).

(** The strings hashed, and the signatures that occur in what arrived. *)
Definition w_hashed (w : world) : list digest_input :=
  (w_inputs w ≫= input_digests) ++ (omap (fun s => sent_input s.2) (w_sent w) ≫= input_digests).
Definition w_presented (w : world) : list bytes := w_inputs w ≫= input_sigs.

(** The blocks that arrived. *)
Definition input_blocks (i : input) : list Block :=
  match i with InProposal m => option_list (pm_block m) | InFetch _ replies => replies | _ => [] end.
Definition w_blocks (w : world) : list Block := w_inputs w ≫= input_blocks.

Definition keys_verify (i : uint32) (d s : bytes) : bool := SignerVerify (NewSigner (rc_Key (d_conf D 0)) (d_keys D)) i d s.

(** Replica [i] signed this string: it sent the vote or the timeout that it is of. Signatures on proposals and of certificate authors are not
    accounted for: nothing depends on them. *)
Definition sent_signed (i : uint32) (w : world) (d : digest_input) : bool :=
  match d with
  | DLedgerCommit l => existsb (fun e => match e with NetVote m _ => bool_decide (preimage (DLedgerCommit (vm_ledger_commit_info m)) = preimage d) | _ => false end) (sent_by i w)
  | DTimeout _ _ => existsb (fun e => match e with NetTimeout m => bool_decide (preimage (DTimeout (TimeoutInfo_GetRound (tm_tmo_info m)) (QCRound (TimeoutInfo_GetHighQc (tm_tmo_info m)))) = preimage d) | _ => false end) (sent_by i w)
  | DQCSigs _ | DBlock _ _ _ _ => true
  | DVoteInfo _ | DState _ _ => false
  end.

Record crypto_holds (w : world) : Prop := {
  (** A signature that occurs, and verifies for an honest replica on the digest of a
      string that was hashed, is one that the replica made. *)
  ch_unforged : forall i d s, i ∈ d_honest D -> d ∈ w_hashed w -> s ∈ w_presented w ->
    keys_verify i (digest d) s = true -> sent_signed i w d = true;
  ch_collision_free : collision_free (fun y => exists d, d ∈ w_hashed w /\ y = preimage d);
  (** No cycle of hashes through blocks that arrived. *)
  ch_acyclic : exists rank : bytes -> nat, forall b, b ∈ w_blocks w -> validBlockID b = true ->
    rank (parentID b) < rank (b_id b);
  (** A reply to a fetch that [VerifyBlock] accepts names its parent by a string of a
      hash's length. The edge does not check this ([VerifyBlock_parent_unbound]), so it
      is assumed of the peers that answer. *)
  ch_parents : forall id replies b, InFetch id replies ∈ w_inputs w -> b ∈ replies ->
    b_id b = id -> validBlockID b = true -> length (parentID b) = hashLen;
}.
End system.

(** ** From a state to an execution *)

Lemma VerifyQC_parent v q : VerifyQC v (Some q) = true -> length (VoteInfo_GetId (qc_vote_info q)) = hashLen.
Proof.
  intros [[_ ->]|[_ Hc]]%VerifyQC_iff; [exact genesisBlock_id_len|].
  by apply qcv_hashes, validVote_spec in Hc as (? & _).
Qed.

Lemma forallb_elem {A} (f : A -> bool) l : forallb f l = true -> forall x, x ∈ l -> f x = true.
Proof. intros E x Hx. by apply (proj1 (forallb_forall f l) E), list_elem_of_In. Qed.

Lemma fits_spec {A} (l : list A) : fits (length l) = true -> fits64 l.
Proof. unfold fits, fits64. by intros ?%N.ltb_lt. Qed.

Lemma qc_typed_spec qc :
  qc_typed qc = true ->
  (VoteInfo_GetRound (QuorumCert_GetVoteInfo qc) < two64)%N /\ (VoteInfo_GetParentRound (QuorumCert_GetVoteInfo qc) < two64)%N /\
  sigs_ok (QuorumCert_GetSignatures qc).
Proof.
  unfold qc_typed. rewrite !andb_true_iff, !N.ltb_lt. intros (((? & ?) & ?%fits_spec) & HF).
  split_and!; [done..|]. split; [done|]. apply Forall_forall. intros s Hs. apply (forallb_elem _ _ HF) in Hs.
  apply andb_true_iff in Hs as [?%N.ltb_lt ?%fits_spec]. done.
Qed.

Lemma block_typed_spec b : block_typed_b b = true -> block_typed b /\ qc_typed (b_qc b) = true.
Proof.
  unfold block_typed_b. rewrite !andb_true_iff, !N.ltb_lt. intros ((((? & ?) & ?%fits_spec) & HF) & Hq).
  split; [|done]. apply qc_typed_spec in Hq as (_ & _ & ?). split_and!; [done..|split; [done|]|done].
  apply Forall_forall. intros p Hp%(forallb_elem _ _ HF). by apply fits_spec.
Qed.

Section execution_of.
Context `{Ecdsa} {Node : Type} (D : deployment).

Definition shared_verifier : Verifier :=
  NewVerifier (MkCrypto (fun _ => None) (keys_verify D)) (QuorumSize (Z.of_nat (size (d_keys D)))).

Definition execution_of (w : world (Node := Node)) (hist : uint32 -> list safety_event) : execution :=
  MkExecution (dom (d_keys D)) (d_byzantine D) shared_verifier hist (fun d => d ∈ w_hashed w) (fun s => s ∈ w_presented w).

(** The blocks that arrived and name themselves and their parents by hashes. *)
Definition w_universe (w : world (Node := Node)) (b : Block) : Prop :=
  b ∈ w_blocks w /\ validBlockID b = true /\ block_typed b /\ length (parentID b) = hashLen.

Lemma shared_same i : deployment_ok D -> i ∈ d_honest D -> same_verifier (cfg_verifier (core_config (d_conf D i))) shared_verifier.
Proof.
  intros HD Hi. unfold cfg_verifier, core_config, shared_verifier. cbn. rewrite (do_keys D HD i Hi). split.
  - intros j d s. reflexivity.
  - cbn. f_equal. f_equal. unfold validators_of. rewrite length_sort_by, length_fmap. apply length_map_to_list.
Qed.

Context (w : world (Node := Node)) (hist : uint32 -> list safety_event).
Let x := execution_of w hist.

Lemma arrived_hashed i d : i ∈ w_inputs w -> d ∈ input_digests i -> d ∈ w_hashed w.
Proof. intros Hi Hd. apply elem_of_app. left. apply list_elem_of_bind. eauto. Qed.
Lemma arrived_presented i s : i ∈ w_inputs w -> s ∈ input_sigs i -> s ∈ w_presented w.
Proof. intros Hi Hs. apply list_elem_of_bind. eauto. Qed.

Lemma cert_seen i qc :
  i ∈ w_inputs w -> (forall d, d ∈ qc_digests qc -> d ∈ input_digests i) -> (forall s, s ∈ qc_sigs qc -> s ∈ input_sigs i) ->
  qc_typed qc = true -> seen_cert x qc.
Proof.
  intros Hi Hd Hs (R1 & R2 & _)%qc_typed_spec q ->. cbn in *. split_and!; [| |done|done|].
  - apply (arrived_hashed i); [done|]. apply Hd. set_solver.
  - apply (arrived_hashed i); [done|]. apply Hd. set_solver.
  - apply Forall_forall. intros s Hin. apply (arrived_presented i); [done|]. apply Hs. right. by apply list_elem_of_fmap_2.
Qed.

Lemma tcert_seen i tc t :
  i ∈ w_inputs w -> (forall d, d ∈ tc_digests tc -> d ∈ input_digests i) -> (forall s, s ∈ tc_sigs tc -> s ∈ input_sigs i) ->
  tc_typed tc = true -> tc = Some t -> seen_tc x t.
Proof.
  intros Hi Hd Hs [R%N.ltb_lt HF]%andb_true_iff ->. cbn in *. split; [done|]. intros v Hv.
  pose proof (forallb_elem _ _ HF v Hv) as ?%N.ltb_lt. split_and!; [|done|].
  - apply (arrived_hashed i); [done|]. apply Hd. apply list_elem_of_fmap. by exists v.
  - apply (arrived_presented i); [done|]. apply Hs. apply list_elem_of_fmap. by exists v.
Qed.

Lemma block_arrived b : b ∈ w_blocks w -> block_input b ∈ w_hashed w.
Proof.
  intros (i & Hb & Hi)%list_elem_of_bind. apply (arrived_hashed i); [done|].
  destruct i as [m|m|m|id wk|id replies|ep]; cbn in Hb |- *; try (by apply elem_of_nil in Hb).
  - destruct (pm_block m) as [b'|]; cbn in Hb; [|by apply elem_of_nil in Hb].
    apply list_elem_of_singleton in Hb as ->. apply elem_of_app. left. by left.
  - apply list_elem_of_bind. exists b. split; [by left|done].
Qed.

(** What arrives has been seen. *)
Lemma input_arrived ver i :
  i ∈ w_inputs w -> input_typed i = true ->
  (forall id replies b, InFetch id replies ∈ w_inputs w -> b ∈ replies ->
     b_id b = id -> validBlockID b = true -> length (parentID b) = hashLen) ->
  input_seen x (w_universe w) ver i.
Proof.
  intros Hi Ht Hp. destruct i as [m|m|m|id wk|id replies|ep]; cbn [input_typed] in Ht; try exact I.
  - intros (b & q & Eb & Eq & _ & _ & Hid & _ & _ & Hqc & _)%VerifyProposal_iff. cbn [event_seen event_fed].
    rewrite Eb in Ht |- *. cbn [default Block_GetQc] in *. apply andb_true_iff in Ht as [[[Hb Hq]%block_typed_spec Htc]%andb_true_iff Hcq].
    assert (b ∈ w_blocks w) as Hw by (apply list_elem_of_bind; exists (InProposal m); cbn; rewrite Eb; split; [by left|done]).
    assert (length (parentID b) = hashLen) as Hlen by (unfold parentID; rewrite Eq; by eapply VerifyQC_parent).
    split; [split_and!|exact (conj Hw (conj Hid (conj Hb Hlen)))].
    + eapply (cert_seen (InProposal m)); [done|cbn; rewrite Eb; cbn; set_solver..|done].
    + eapply (cert_seen (InProposal m)); [done|cbn; rewrite Eb; cbn; set_solver..|done].
    + intros t Et. eapply (tcert_seen (InProposal m) (pm_last_round_tc m)); [done|cbn; rewrite Eb; cbn; set_solver..|done|done].
  - intros _. apply andb_true_iff in Ht as [[R1%N.ltb_lt R2%N.ltb_lt]%andb_true_iff Hcq]. split.
    + split_and!; [apply (arrived_hashed (InVote m)); [done|by left]|apply (arrived_hashed (InVote m)); [done|by right; left]|done|done|].
      apply (arrived_presented (InVote m)); [done|by left].
    + eapply (cert_seen (InVote m)); [done|cbn; set_solver..|done].
  - intros _. apply andb_true_iff in Ht as [[[_ Hq]%andb_true_iff Htc]%andb_true_iff Hcq]. split.
    + eapply (cert_seen (InTimeout m)); [done|cbn; set_solver..|done].
    + eapply (cert_seen (InTimeout m)); [done|cbn; set_solver..|done].
  - cbn. apply Forall_forall. intros b Hb Hv. unfold VerifyBlock in Hv. apply andb_true_iff in Hv as [Eid%bool_decide_eq_true Hv].
    destruct (block_typed_spec b (forallb_elem _ _ Ht b Hb)) as [Hbt _].
    split_and!; [apply list_elem_of_bind; by exists (InFetch id replies)|done|done|by eapply Hp].
Qed.

Lemma w_block_universe rank :
  collision_free (fun y => exists d, d ∈ w_hashed w /\ y = preimage d) ->
  (forall b, b ∈ w_blocks w -> validBlockID b = true -> rank (parentID b) < rank (b_id b)) ->
  block_universe (w_universe w) rank.
Proof.
  intros Hcf Hr. split; [|intros b (Hb & Hv & _); by apply Hr].
  intros b b' (Hb & Hv & (A1 & A2 & A3 & A4) & L) (Hb' & Hv' & (B1 & B2 & B3 & B4) & L') E.
  unfold validBlockID in Hv, Hv'. bools.
  assert (preimage (block_input b) = preimage (block_input b')) as Hpre.
  { apply Hcf; [exists (block_input b); split; [by apply block_arrived|done]|exists (block_input b'); split; [by apply block_arrived|done]|].
    change (blockID (b_author b) (b_round b) (b_payload b) (b_qc b) = blockID (b_author b') (b_round b') (b_payload b') (b_qc b')).
    congruence. }
  apply blockID_preimage_inj in Hpre as (_ & _ & Hp & Hq & _); try done. unfold parentID in *. congruence.
Qed.
End execution_of.

(** ** Invariants of the replicas

    All of them are stated for an execution [x] and a universe [U] in which
    whatever arrives is seen. *)

Section nodes.
Context `{EcdsaLaws} {Node : Type} (node_ID : Node -> uint32) (order : uint32 -> RangeOrder) (conv : uint32 -> FloatConv).
Context (D : deployment) (HD : deployment_ok D).
Context (x : execution) (U : Block -> Prop).

#[local] Abbreviation conf i := (d_conf D i).
#[local] Abbreviation ver i := (cfg_verifier (core_config (d_conf D i))).

(** What a replica may vote on. *)
Definition votable_in (b : Block) (tc : option TimeoutCert) : Prop :=
  U b /\ (forall q, b_qc b = Some q -> seen_qc x q) /\ (forall t, tc = Some t -> seen_tc x t).

Lemma good_votable i e : good_event x U (conf i) e -> votable votable_in e.
Proof.
  intros (Hv & Hs & Hf). destruct e as [m|m|m|ep|b|id]; try exact I. cbn in *.
  apply VerifyProposal_iff in Hv as (b & q & Eb & _). rewrite Eb in *. cbn in *. destruct Hs as (Hs & _ & Ht).
  split_and!; [done|exact Hs|exact Ht].
Qed.

Record created (i : uint32) (r : Replica Node) : Prop := {
  cr_inv : replica_inv r;
  cr_core : New (core_config (conf i)) = Some (core_of r);
  cr_edge : h_ver (tr_handler (r_net r)) = ver i;
  cr_queue : Forall (good_event x U (conf i)) (q_events (lp_q (r_loop r)));
  cr_log : Log r = [];
}.

Definition placed (i : uint32) (p : phase (Node := Node)) : Prop :=
  match p with
  | Created r => created i r
  | Running r => @member_inv (order i) (conv i) _ Node x U (conf i) r
  | Stopped r => participant x U r
  end.

Definition accounts (i : uint32) (es : list effect) (p : phase (Node := Node)) : Prop :=
  exists h, accounted i (ver i) votable_in h es (core_of (phase_replica p)).

Section moves.
Context (i : uint32) (Hi : i ∈ d_honest D) (same : same_verifier (ver i) (x_verifier x)).

Lemma own_key_of : rc_Keys (conf i) !! rc_ID (conf i) = Some (Public (rc_Key (conf i))).
Proof. rewrite (do_keys D HD i Hi), (do_id D HD i Hi). exact (do_key D HD i Hi). Qed.

Lemma id_of : cfg_ID (core_config (conf i)) = i.
Proof. cbn. exact (do_id D HD i Hi). Qed.

Lemma boot_placed r : NewReplica (Node := Node) (conf i) = Some r -> placed i (Created r) /\ accounts i [] (Created r).
Proof.
  intros (Hn & Hr & _ & _ & _ & Eq & Ev & _)%NewReplica_inv. split.
  - split; [done|done|done|by rewrite Eq|]. unfold Log. rewrite (ri_log _ Hr).
    unfold New in Hn. destruct (_ <? _)%Z; [done|]. by apply (inj Some) in Hn as <-.
  - exists []. pose proof (accounted_new _ _ votable_in Hn) as Ha. by rewrite id_of in Ha.
Qed.

Lemma receive_created r r' inp :
  created i r -> input_seen x U (ver i) inp -> receive r inp = Some r' -> created i r' /\ core_of r' = core_of r.
Proof.
  intros [A B C E F] Hs (Ec & Eq & Eh & Eid & Em & _ & Hinv)%receive_inv. split; [|done].
  destruct (sink_good x U (conf i) same _ _ C Hs) as [Hg Hv].
  split; [auto|by rewrite Ec|by rewrite Eh|rewrite Eq; by apply Forall_app|].
  unfold Log in *. rewrite (ri_log _ (Hinv A)), Ec, <- (ri_log _ A). exact F.
Qed.

Lemma begin_placed r r' rand txns tm es :
  created i r -> accounts i es (Created r) -> startCore (signer_of D i rand) txns tm (startMeasurement r) = Some r' ->
  placed i (Running r') /\ accounts i (es ++ start_effects (signer_of D i rand) txns r) (Running r').
Proof.
  intros [A B C E F] Ha Hst. assert (replica_inv (startMeasurement r)) as Him.
  { destruct A as [A1 [B1 B2] C1 D1]. split; try done. split; [done|]. intros m [= <-]. simpl. lia. }
  apply (@startCore_spec (order i) (conv i)) in Hst as (Hi2 & Hm2 & I2 & _ & Hh2 & Hq2 & es' & Est); [|done|by eexists].
  change (core_of (startMeasurement r)) with (core_of r) in Est. split.
  - split; [done|done|by rewrite Hh2|by rewrite Hq2|].
    eapply (@member_start (order i) (conv i) x U (core_config (conf i)) _ (signer_of D i rand) txns); [done|done|exact B| |exact Est].
    apply own_signs; [exact own_key_of|by exists rand].
  - unfold start_effects. rewrite Est. eapply accounted_step; [exact Ha|].
    exact (@does_Start (order i) (conv i) _ _ _ _ _ (@tracks_calls (order i) (conv i) _ _ _ _) _ _ _ _ Est).
Qed.

Lemma work_placed r r' rand txns tm es :
  placed i (Running r) -> accounts i es (Running r) ->
  @replicaAct (order i) (conv i) Node node_ID r (ActLoop (signer_of D i rand) txns tm) = Some r' ->
  placed i (Running r') /\ accounts i (es ++ tick_effects order conv i (signer_of D i rand) txns r) (Running r').
Proof.
  intros Hp Ha E. split.
  - refine (@act_member (order i) (conv i) _ _ Node node_ID x U (conf i) own_key_of same r r' _ Hp _ E). by exists rand.
  - destruct Hp as [I1 I2 _ I4 _]. pose proof E as E'. cbn [replicaAct] in E'. apply bind_Some in E' as ([[l es'] b] & Et & _).
    destruct (@loop_act_spec (order i) (conv i) _ node_ID r _ txns tm l es' b I1 I2 Et) as (r1 & E1 & _ & _ & F2 & _).
    rewrite E in E1. injection E1 as <-. cbn in F2. unfold tick_effects. rewrite Et.
    eapply accounted_step; [exact Ha|]. cbn. unfold core_of. rewrite F2. unfold Tick, Pop in Et.
    destruct (q_events (lp_q (r_loop r))) as [|e q]; [injection Et as <- <- <-; apply tr_refl|].
    apply bind_Some in Et as ([l3 es3] & Hl & [= <- <- <-]). unfold loopStep in Hl.
    apply bind_Some in Hl as ([[[] c1] es4] & Hst & [= <- <-]). cbn [lp_core].
    apply Forall_cons in I4 as [Hg _]. cbn in Hst.
    exact (@does_Step (order i) (conv i) _ _ _ _ _ (@tracks_calls (order i) (conv i) _ _ _ _) e (good_votable i e Hg) _ _ _ _ Hst).
Qed.

Lemma halt_placed r r' es :
  placed i (Running r) -> accounts i es (Running r) -> stopCore r = Some r' ->
  placed i (Stopped (stop (finish r'))) /\ accounts i es (Stopped (stop (finish r'))).
Proof.
  intros [I1 _ _ _ I5] Ha E. unfold stopCore in E. apply bind_Some in E as ([[[] c] es'] & Est & [= <-]).
  pose proof Est as Est'. unfold CoreStop in Est'. cbn in Est'. injection Est' as Ec Ees. split.
  - split.
    + unfold Log. cbn. rewrite (ri_log _ I1), <- Ec. done.
    + right. exists (order i), (conv i), (core_config (conf i)). cbn. by eapply member_stop.
  - assert (exists h, accounted i (ver i) votable_in h (es ++ es') c) as (h & Hh)
      by (eapply accounted_step; [exact Ha|by apply tracks_stop]).
    exists h. cbn. destruct (Stop_silent (c_pacemaker (core_of r))) as [V T].
    eapply accounted_silent; [| |exact Hh]; rewrite <- Ees; [exact V|exact T].
Qed.

Lemma give_up_placed r es :
  created i r -> accounts i es (Created r) -> placed i (Stopped (stop r)) /\ accounts i es (Stopped (stop r)).
Proof. intros [A _ _ _ F] Ha. split; [split; [exact (ri_log _ A)|by left]|exact Ha]. Qed.

(** Every move of an honest replica keeps it placed and accounted for. *)
Lemma node_move_ok p0 m p es sent :
  match p0 with None => sent = [] | Some p0 => placed i p0 /\ accounts i sent p0 end ->
  (forall inp, inp ∈ move_input m -> input_seen x U (ver i) inp) ->
  node_move node_ID order conv D i p0 m = Some (p, es) -> placed i p /\ accounts i (sent ++ es) p.
Proof.
  intros Hp Hs E. destruct p0 as [[r|r|r]|], m; cbn [node_move] in E; try discriminate E.
  - destruct Hp as [Hp Ha]. apply bind_Some in E as (r' & E & [= <- <-]). rewrite app_nil_r.
    destruct (receive_created r r' i0 Hp (Hs i0 ltac:(by left)) E) as [Hc Ec]. split; [done|]. unfold accounts. cbn. by rewrite Ec.
  - destruct Hp as [Hp Ha]. apply bind_Some in E as (r' & E & [= <- <-]). by eapply begin_placed.
  - destruct Hp as [Hp Ha]. injection E as <- <-. rewrite app_nil_r. by apply give_up_placed.
  - destruct Hp as [Hp Ha]. apply bind_Some in E as (r' & E & [= <- <-]). rewrite app_nil_r. split.
    + exact (@act_member (order i) (conv i) _ _ Node node_ID x U (conf i) own_key_of same r r' (ActInput i0) Hp (Hs i0 ltac:(by left)) E).
    + apply receive_inv in E as (Ec & _). unfold accounts. cbn. by rewrite Ec.
  - destruct Hp as [Hp Ha]. apply bind_Some in E as (r' & E & [= <- <-]). by eapply work_placed.
  - destruct Hp as [Hp Ha]. apply bind_Some in E as (r' & E & [= <- <-]). rewrite app_nil_r. split.
    + exact (@act_member (order i) (conv i) _ _ Node node_ID x U (conf i) own_key_of same r r' (ActSender cfg) Hp I E).
    + cbn [replicaAct] in E. destruct (drain _ _ _) as [[[net fn] sd]|]; injection E as <-; exact Ha.
  - destruct Hp as [Hp Ha]. apply bind_Some in E as (r' & E & [= <- <-]). rewrite app_nil_r. by eapply halt_placed.
  - subst sent. apply bind_Some in E as (r' & E & [= <- <-]). by apply boot_placed.
Qed.
End moves.
End nodes.

(** ** Reachable states *)

Section worlds.
Context `{EcdsaLaws} {Node : Type} (node_ID : Node -> uint32) (order : uint32 -> RangeOrder) (conv : uint32 -> FloatConv).
Context (D : deployment) (HD : deployment_ok D).

#[local] Abbreviation moves_run := (world_moves node_ID order conv D).

Lemma sent_by_app i j es (w : world (Node := Node)) (p : gmap uint32 (phase (Node := Node))) ins :
  sent_by i (MkWorld p (w_sent w ++ (pair j <$> es)) ins) = sent_by i w ++ (if (j =? i)%N then es else []).
Proof.
  unfold sent_by. cbn. rewrite omap_app. f_equal. destruct (N.eqb_spec j i) as [->|Hne].
  - induction es as [|e es IH]; [done|]. cbn. by rewrite N.eqb_refl, IH.
  - induction es as [|e es IH]; [done|]. cbn. by rewrite (proj2 (N.eqb_neq j i) Hne).
Qed.

Lemma moves_inputs ms w w' inp : moves_run w ms = Some w' -> inp ∈ w_inputs w -> inp ∈ w_inputs w'.
Proof.
  revert w. induction ms as [|[i m] ms IH]; intros w; simpl; [by intros [= <-]|].
  intros (w1 & E & Hr)%bind_Some Hin. apply (IH w1 Hr). unfold world_move in E. destruct (_ && _); [|done].
  apply bind_Some in E as ([p es] & _ & [= <-]). cbn. apply elem_of_app. by left.
Qed.

Definition world_ok (x : execution) (U : Block -> Prop) (w : world (Node := Node)) : Prop :=
  forall i, match w_nodes w !! i with
    | Some p => i ∈ d_honest D /\ placed order conv D x U i p /\ accounts D x U i (sent_by i w) p
    | None => sent_by i w = []
    end.

(** Over the whole run, for an execution in which all that arrives by its end is seen. *)
Lemma moves_ok x U ms w w' :
  (forall i, i ∈ d_honest D -> same_verifier (cfg_verifier (core_config (d_conf D i))) (x_verifier x)) ->
  (forall i inp, i ∈ d_honest D -> inp ∈ w_inputs w' -> input_typed inp = true ->
     input_seen x U (cfg_verifier (core_config (d_conf D i))) inp) ->
  world_ok x U w -> moves_run w ms = Some w' -> world_ok x U w'.
Proof.
  intros Hsame Hseen. revert w. induction ms as [|[i m] ms IH]; intros w Hw; simpl; [by intros [= <-]|].
  intros (w1 & E & Hr)%bind_Some. apply (IH w1); [|done]. clear IH.
  assert (forall inp, inp ∈ w_inputs w1 -> inp ∈ w_inputs w') as Hin by (intros inp; by apply (moves_inputs ms)).
  unfold world_move in E. destruct (_ && _) eqn:Eg; [|done]. apply andb_true_iff in Eg as [Hi Ht]. apply bool_decide_eq_true in Hi.
  apply bind_Some in E as ([p es] & En & [= <-]). cbn in Hin. intros j. rewrite sent_by_app. cbn [w_nodes].
  destruct (N.eqb_spec i j) as [<-|Hne]; [|rewrite lookup_insert_ne by done; rewrite app_nil_r; apply Hw].
  rewrite lookup_insert_eq. split; [done|]. specialize (Hw i).
  apply (node_move_ok node_ID order conv D HD x U i Hi (Hsame i Hi) (w_nodes w !! i) m); [|intros inp Hm|done].
  - destruct (w_nodes w !! i) as [p0|]; [by destruct Hw as (_ & ? & ?)|done].
  - apply Hseen; [done|apply Hin, elem_of_app; by right|by apply (forallb_elem _ _ Ht)].
Qed.

(** What is known of the histories of the honest replicas. *)
Record recorded (x : execution) (U : Block -> Prop) (w : world (Node := Node)) (i : uint32) (h : list safety_event) : Prop := {
  rd_run : exists s, safety_run i (cfg_verifier (core_config (d_conf D i))) h s;
  rd_votes : votes_on_wire (sent_by i w) = cast h;
  rd_timeouts : timeouts_on_wire (sent_by i w) = given_up h;
  rd_drawn : drawn (votable_in x U) h;
}.

Lemma world_recorded x U w i : world_ok x U w -> exists h, recorded x U w i h.
Proof.
  intros Hw. specialize (Hw i). destruct (w_nodes w !! i) as [p|].
  - destruct Hw as (_ & _ & h & [R _ V T Dh]). exists h. split; [by eexists|done..].
  - exists []. rewrite ?Hw. split; [eexists; constructor|by rewrite Hw..|apply drawn_nil].
Qed.

Lemma set_choice {A} (P : uint32 -> A -> Prop) (X : gset uint32) (a0 : A) :
  (forall i, i ∈ X -> exists a, P i a) -> exists f, forall i, i ∈ X -> P i (f i).
Proof.
  induction X as [|i X Hi IH] using set_ind_L; intros HP; [exists (fun _ => a0); set_solver|].
  destruct IH as [f Hf]; [intros j Hj; apply HP; set_solver|]. destruct (HP i) as [a Ha]; [set_solver|].
  exists (fun j => if (j =? i)%N then a else f j). intros j Hj. destruct (N.eqb_spec j i) as [->|Hne]; [done|].
  apply Hf. set_solver.
Qed.

Lemma sent_hashed i w e inp d : e ∈ sent_by i w -> sent_input e = Some inp -> d ∈ input_digests inp -> d ∈ w_hashed (Node := Node) w.
Proof.
  intros ([j e'] & Hin & Ee)%list_elem_of_omap Es Hd. cbn in Ee. destruct (j =? i)%N; [|done]. injection Ee as ->.
  apply elem_of_app. right. apply list_elem_of_bind. exists inp. split; [done|]. apply list_elem_of_omap. by exists (j, e).
Qed.

(** A vote in the history was sent, and a vote sent is in the history. *)
Lemma recorded_vote x U w i h b tc vi ci :
  recorded x U w i h -> EVote b tc vi ci ∈ h ->
  exists m to, NetVote m to ∈ sent_by i w /\ vm_vote_info m = Some vi /\ vm_ledger_commit_info m = Some ci.
Proof.
  intros [_ V _ _] He. assert ((Some vi, Some ci) ∈ votes_on_wire (sent_by i w)) as Hv.
  { rewrite V. unfold cast. apply list_elem_of_omap. eauto. }
  apply list_elem_of_fmap in Hv as (m & [= E1 E2] & Hm). apply list_elem_of_omap in Hm as (e & He' & Em).
  destruct e; try discriminate Em. injection Em as ->. eauto 10.
Qed.
Lemma sent_vote_recorded x U w i h m to :
  recorded x U w i h -> NetVote m to ∈ sent_by i w ->
  exists b tc vi ci, EVote b tc vi ci ∈ h /\ vm_ledger_commit_info m = Some ci.
Proof.
  intros [_ V _ _] Hm. assert ((vm_vote_info m, vm_ledger_commit_info m) ∈ cast h) as Hc.
  { rewrite <- V. apply list_elem_of_fmap. exists m. split; [done|]. apply list_elem_of_omap. eauto. }
  apply list_elem_of_omap in Hc as (e & He & Ee). destruct e as [b tc vi ci|]; [|discriminate Ee]. injection Ee as _ <-. eauto 10.
Qed.
Lemma sent_timeout_recorded x U w i h m :
  recorded x U w i h -> NetTimeout m ∈ sent_by i w ->
  exists qc tc, ETimeout (TimeoutInfo_GetRound (tm_tmo_info m)) qc tc ∈ h /\ TimeoutInfo_GetHighQc (tm_tmo_info m) = qc.
Proof.
  intros [_ _ T _] Hm. assert ((TimeoutInfo_GetRound (tm_tmo_info m), TimeoutInfo_GetHighQc (tm_tmo_info m)) ∈ given_up h) as Hc.
  { rewrite <- T. apply list_elem_of_fmap. exists m. split; [done|]. apply list_elem_of_omap. eauto. }
  apply list_elem_of_omap in Hc as (e & He & Ee). destruct e as [|r qc tc]; [discriminate Ee|]. injection Ee as -> ->. eauto.
Qed.

(** What an honest replica signed, as the agreement proof counts it. *)
Lemma sent_signed_history x U w i h d :
  recorded x U w i h -> d ∈ w_hashed w -> sent_signed i w d = true ->
  exists di, honest_signs h di /\ di ∈ w_hashed w /\ digest d = digest di.
Proof.
  intros Hr Hd Hs. destruct d as [a r p qc|v|l|r q|sigs|prev pl]; cbn [sent_signed] in Hs; try discriminate Hs.
  - eexists. split; [apply hs_proposal|done].
  - apply existsb_exists in Hs as (e & Hin & He). apply list_elem_of_In in Hin. destruct e as [|m to| | | | | |]; [discriminate He| |discriminate He..]. apply bool_decide_eq_true in He.
    destruct (sent_vote_recorded x U w i h m to Hr Hin) as (b & tc & vi & ci & Hv & Ec). exists (DLedgerCommit (Some ci)).
    rewrite <- Ec. split; [rewrite Ec; by eapply hs_vote|]. split; [|unfold digest; by rewrite <- He].
    eapply sent_hashed; [exact Hin|reflexivity|by left].
  - apply existsb_exists in Hs as (e & Hin & He). apply list_elem_of_In in Hin. destruct e as [| |m| | | | |]; [discriminate He|discriminate He| |discriminate He..]. apply bool_decide_eq_true in He.
    destruct (sent_timeout_recorded x U w i h m Hr Hin) as (qc & tc & Ht & Eq).
    exists (DTimeout (TimeoutInfo_GetRound (tm_tmo_info m)) (QCRound (TimeoutInfo_GetHighQc (tm_tmo_info m)))).
    split; [rewrite Eq; by eapply hs_timeout|]. split; [|unfold digest; by rewrite <- He]. eapply sent_hashed; [exact Hin|reflexivity|by left].
  - eexists. split; [apply hs_author|done].
Qed.

Context (w : world (Node := Node)) (Hw : reachable node_ID order conv D w) (Hc : crypto_holds D w).

#[local] Abbreviation x hist := (execution_of D w hist).
#[local] Abbreviation U := (w_universe w).

Lemma reachable_ok hist : world_ok (x hist) U w.
Proof.
  destruct Hw as [ms Hms]. eapply moves_ok; [| | |exact Hms].
  - intros i Hi. by apply shared_same.
  - intros i inp Hi Hin Ht. apply (input_arrived D w hist); [done..|exact (ch_parents D w Hc)].
  - intros i. cbn. by rewrite lookup_empty.
Qed.

(** What [Agreement] asks of an execution holds of a reachable state. *)
Lemma reachable_execution_ok hist :
  (forall i, i ∈ d_honest D -> recorded (x hist) U w i (hist i)) -> execution_ok (x hist).
Proof.
  intros Hh. assert (forall i, honest (x hist) i -> i ∈ d_honest D) as Hho.
  { intros i [Hi Hb]. cbn in *. unfold d_byzantine in Hb. set_solver. }
  assert (size (x_validators (x hist)) = size (d_keys D)) as Hsz by (cbn; apply size_dom).
  split; rewrite ?Hsz.
  - assert (size (d_keys D) ≠ 0) as Hn by (intros E; exact (do_nonempty D HD (map_size_empty_inv _ E))). lia.
  - exact (do_faults D HD).
  - done.
  - intros i Hi%Hho. destruct (rd_run _ _ _ _ _ (Hh i Hi)) as [s Hs]. exists (cfg_verifier (core_config (d_conf D i))), s.
    split; [by apply shared_same|exact Hs].
  - intros i d s Hv. cbn in Hv. unfold keys_verify, SignerVerify in Hv. cbn in Hv.
    destruct (d_keys D !! i) eqn:E; [|done]. by apply elem_of_dom_2 in E.
  - intros i d s Hi%Hho Hd Hp Hv. eapply sent_signed_history; [by apply Hh|done|]. exact (ch_unforged D w Hc i d s Hi Hd Hp Hv).
  - exact (ch_collision_free D w Hc).
  - intros i b tc vi ci Hi%Hho He. destruct (dr_vote _ _ (rd_drawn _ _ _ _ _ (Hh i Hi)) _ _ _ _ He) as ((Hb & _ & Ht & _) & Hq & Htc).
    destruct (recorded_vote _ _ _ _ _ _ _ _ _ (Hh i Hi) He) as (m & to & Hm & E1 & E2).
    split_and!; [done| |by apply (block_arrived w)|done|done]. cbn.
    rewrite <- E1. eapply sent_hashed; [exact Hm|reflexivity|]. right. by left.
  - intros i r qc tc Hi%Hho He. pose proof (dr_timeout _ _ (rd_drawn _ _ _ _ _ (Hh i Hi)) _ _ _ He) as Hr. split; [done|].
    destruct (rd_run _ _ _ _ _ (Hh i Hi)) as [s Hs]. apply run_history_ok in Hs.
    destruct (ho_timeout _ _ Hs _ _ _ He) as (s1 & s2 & _ & Hto).
    destruct (safeToTimeout_true _ _ _ _ (to_safe _ _ _ _ _ Hto)) as (_ & ? & _). lia.
Qed.

(** The logs of any two replicas agree. *)
Lemma reachable_comparable i j p q :
  w_nodes w !! i = Some p -> w_nodes w !! j = Some q -> comparable (Log (phase_replica p)) (Log (phase_replica q)).
Proof.
  intros Hp Hq. destruct (set_choice (recorded (x (fun _ => [])) U w) (d_honest D) []) as [hist Hh0].
  { intros k _. apply world_recorded, reachable_ok. }
  assert (forall k, k ∈ d_honest D -> recorded (x hist) U w k (hist k)) as Hh.
  { intros k Hk. destruct (Hh0 k Hk) as [A B C [V T]]. split; [exact A|exact B|exact C|split; [exact V|exact T]]. }
  pose proof (reachable_execution_ok hist Hh) as Hx. pose proof (reachable_ok hist) as Hok.
  destruct (ch_acyclic D w Hc) as [rank Hr]. pose proof (w_block_universe w rank (ch_collision_free D w Hc) Hr) as HU.
  assert (forall k p, w_nodes w !! k = Some p -> participant (x hist) U (phase_replica p)) as HP.
  { intros k p' Hk. specialize (Hok k). rewrite Hk in Hok. destruct Hok as (_ & Hpl & _). destruct p' as [r|r|r]; cbn in *; [|..|done].
    - split; [exact (ri_log _ (cr_inv _ _ _ _ _ Hpl))|left; exact (cr_log _ _ _ _ _ Hpl)].
    - split; [exact (ri_log _ (mi_inv _ _ _ _ Hpl))|right]. exists (order k), (conv k), (core_config (d_conf D k)).
      exact (mi_core _ _ _ _ Hpl). }
  apply (participants_comparable (x hist) U rank); [done|done| |by eapply HP..].
  intros k b tc vi ci [Hk Hb] He. assert (k ∈ d_honest D) as Hkh by (cbn in *; unfold d_byzantine in Hb; set_solver).
  by destruct (dr_vote _ _ (rd_drawn _ _ _ _ _ (Hh k Hkh)) _ _ _ _ He) as (? & _).
Qed.
End worlds.

(** ** Moves and runs *)

Section runs.
Context `{Ecdsa} {Node : Type} (node_ID : Node -> uint32) (order : uint32 -> RangeOrder) (conv : uint32 -> FloatConv).
Context (D : deployment).

(** How far a replica has come in [ReplicaRun]. *)
Definition ran (i : uint32) (p : phase (Node := Node)) : Prop :=
  let acts := @replicaActs (order i) (conv i) Node node_ID in
  exists r0 early, NewReplica (d_conf D i) = Some r0 /\
  match p with
  | Created r => acts r0 (ActInput <$> early) = Some r
  | Running r => exists r1 rand txns tm r2 az, acts r0 (ActInput <$> early) = Some r1 /\
      startCore (signer_of D i rand) txns tm (startMeasurement r1) = Some r2 /\ acts r2 az = Some r
  | Stopped r => exists waited rand txns tm az err err',
      @ReplicaRun (order i) (conv i) Node node_ID r0 early waited (signer_of D i rand) txns tm az err = Some (r, err')
  end.

Lemma acts_snoc i r az a r1 r2 :
  @replicaActs (order i) (conv i) Node node_ID r az = Some r1 -> @replicaAct (order i) (conv i) Node node_ID r1 a = Some r2 ->
  @replicaActs (order i) (conv i) Node node_ID r (az ++ [a]) = Some r2.
Proof.
  revert r. induction az as [|b az IH]; intros r; simpl.
  - intros [= ->] ->. done.
  - intros (r' & -> & Hr)%bind_Some Ha. cbn. by apply IH.
Qed.

Lemma node_move_ran i p0 m p es :
  match p0 with None => True | Some p0 => ran i p0 end -> node_move node_ID order conv D i p0 m = Some (p, es) -> ran i p.
Proof.
  intros Hp E. destruct p0 as [[r|r|r]|], m; cbn [node_move] in E; try discriminate E.
  - destruct Hp as (r0 & early & E0 & E1). apply bind_Some in E as (r' & E & [= <- _]).
    exists r0, (early ++ [i0]). split; [done|]. rewrite fmap_app. by eapply acts_snoc.
  - destruct Hp as (r0 & early & E0 & E1). apply bind_Some in E as (r' & E & [= <- _]).
    exists r0, early. split; [done|]. by exists r, rand, txns, tm, r', [].
  - destruct Hp as (r0 & early & E0 & E1). injection E as <- _. exists r0, early. split; [done|].
    exists (Some Canceled), [], [], (MkClock (fun _ => 0%Z) (fun _ => 0%Z)), [], Canceled, Canceled.
    unfold ReplicaRun. by rewrite E1.
  - destruct Hp as (r0 & early & E0 & r1 & rand & txns & tm & r2 & az & E1 & E2 & E3). apply bind_Some in E as (r' & E & [= <- _]).
    exists r0, early. split; [done|]. exists r1, rand, txns, tm, r2, (az ++ [ActInput i0]). split_and!; [done..|]. by eapply acts_snoc.
  - destruct Hp as (r0 & early & E0 & r1 & rd & tx & tm' & r2 & az & E1 & E2 & E3). apply bind_Some in E as (r' & E & [= <- _]).
    exists r0, early. split; [done|]. exists r1, rd, tx, tm', r2, (az ++ [ActLoop (signer_of D i rand) txns tm]).
    split_and!; [done..|]. by eapply acts_snoc.
  - destruct Hp as (r0 & early & E0 & r1 & rd & tx & tm' & r2 & az & E1 & E2 & E3). apply bind_Some in E as (r' & E & [= <- _]).
    exists r0, early. split; [done|]. exists r1, rd, tx, tm', r2, (az ++ [ActSender cfg]). split_and!; [done..|]. by eapply acts_snoc.
  - destruct Hp as (r0 & early & E0 & r1 & rand & txns & tm & r2 & az & E1 & E2 & E3). apply bind_Some in E as (r' & E & [= <- _]).
    exists r0, early. split; [done|]. exists None, rand, txns, tm, az, Canceled, Canceled.
    unfold ReplicaRun. rewrite E1. cbn [mbind option_bind]. rewrite E2. cbn [mbind option_bind]. rewrite E3. cbn [mbind option_bind].
    by rewrite E.
  - apply bind_Some in E as (r' & E & [= <- _]). by exists r', [].
Qed.

(** Every replica of a reachable state is on its way through [ReplicaRun], and a
    stopped one has returned from it. *)
Lemma reachable_ran w i p : reachable node_ID order conv D w -> w_nodes w !! i = Some p -> ran i p.
Proof.
  intros [ms Hms]. assert (forall j q, w_nodes no_world !! j = Some q -> ran j q) as H0 by (intros j q; cbn; by rewrite lookup_empty).
  revert Hms H0 i p. generalize (no_world (Node := Node)).
  induction ms as [|[j m] ms IH]; intros w0; simpl; [by intros [= <-]|].
  intros (w1 & E & Hr)%bind_Some H0. apply (IH w1 Hr). unfold world_move in E. destruct (_ && _); [|done].
  apply bind_Some in E as ([p es] & En & [= <-]). intros k q. cbn.
  intros [[<- <-]|[_ Hk]]%lookup_insert_Some; [|by apply H0].
  eapply node_move_ran; [|exact En]. destruct (w_nodes w0 !! j) eqn:Ej; [by apply H0|done].
Qed.
End runs.

(** ** Agreement of the deployed system *)

(** C1. The deployed system agrees. Take any deployment in which at most
    [Faulty n] of the n key holders are Byzantine, and any state it reaches: the
    honest replicas were created, received whatever the network and the Byzantine
    replicas chose to bring them, started, worked, sent and stopped, in any order and
    any number of times, and none of them was started again after it stopped. This is
    assumed of the state: no signature of an honest replica was forged; no two of the
    strings hashed collide; the hashes of the blocks that arrived link in no cycle; and
    each reply to a fetch that [VerifyBlock] accepted names its parent by a string of 32
    bytes, which [VerifyBlock] does not check and a Byzantine peer can break. Then the
    logs of any two replicas agree over their common prefix at that moment, and the
    report over replicas that have stopped, each of which has returned from its [Run],
    announces agreement and finds no error but a replica that committed nothing. *)
Theorem system_agrees `{EcdsaLaws} {Node : Type} (node_ID : Node -> uint32) (order : uint32 -> RangeOrder)
    (conv : uint32 -> FloatConv) (D : deployment) (w : world) :
  deployment_ok D -> reachable node_ID order conv D w -> crypto_holds D w ->
  (forall i j p q, w_nodes w !! i = Some p -> w_nodes w !! j = Some q ->
     comparable (Log (phase_replica p)) (Log (phase_replica q))) /\
  (forall i r, w_nodes w !! i = Some (Stopped r) -> ran node_ID order conv D i (Stopped r)) /\
  forall reps, Forall (fun r => exists i, w_nodes w !! i = Some (Stopped r)) reps ->
    (report reps).1.2 = (1 <? length reps)%nat /\
    ((report reps).2 = None \/ exists r, r ∈ reps /\ Log r = [] /\ (report reps).2 = Some (ErrNoCommit (ID r))).
Proof.
  intros HD Hw Hc. pose proof (reachable_comparable node_ID order conv D HD w Hw Hc) as Hcmp. split_and!; [exact Hcmp| |].
  - intros i r Hi. by eapply reachable_ran.
  - intros reps Hr. eapply report_comparable; [|exact Hr].
    intros r r' [i Hi] [j Hj]. exact (Hcmp i j _ _ Hi Hj).
Qed.

(** ** Checking the hypotheses

    A state is finite, so what is assumed of it can be computed. *)

Section check.
Context `{Ecdsa} {Node : Type} (D : deployment).

Definition crypto_check (w : world (Node := Node)) (rank : bytes -> nat) : bool :=
  let hs := (fun d => (d, digest d)) <$> remove_dups (w_hashed w) in
  let sigs := remove_dups (w_presented w) in
  forallb (fun i => forallb (fun h => forallb (fun s => negb (keys_verify D i h.2 s) || sent_signed i w h.1) sigs) hs) (elements (d_honest D)) &&
  forallb (fun h => forallb (fun h' => negb (bool_decide (h.2 = h'.2)) || bool_decide (preimage h.1 = preimage h'.1)) hs) hs &&
  forallb (fun b => negb (validBlockID b) || (rank (parentID b) <? rank (b_id b))%nat) (w_blocks w) &&
  forallb (fun inp => match inp with
                      | InFetch id replies => forallb (fun b => negb (bool_decide (b_id b = id) && validBlockID b) || (length (parentID b) =? hashLen)%nat) replies
                      | _ => true
                      end) (w_inputs w).

Lemma crypto_check_holds w rank : crypto_check w rank = true -> crypto_holds D w.
Proof.
  unfold crypto_check. rewrite !andb_true_iff. intros (((H1 & H2) & H3) & H4).
  assert (forall d, d ∈ w_hashed w -> (d, digest d) ∈ ((fun d => (d, digest d)) <$> remove_dups (w_hashed w))) as Hh
    by (intros d Hd; apply list_elem_of_fmap; exists d; split; [done|by apply elem_of_remove_dups]).
  split.
  - intros i d s Hi Hd Hs Hv. pose proof (forallb_elem _ _ H1 i ltac:(by apply elem_of_elements)) as H5. cbn in H5.
    pose proof (forallb_elem _ _ H5 _ (Hh d Hd)) as H6. cbn in H6.
    pose proof (forallb_elem _ _ H6 s ltac:(by apply elem_of_remove_dups)) as H7. cbn in H7. by rewrite Hv in H7.
  - intros y z (d & Hd & ->) (d' & Hd' & ->) E. pose proof (forallb_elem _ _ H2 _ (Hh d Hd)) as H5. cbn in H5.
    pose proof (forallb_elem _ _ H5 _ (Hh d' Hd')) as H6. cbn in H6. change (digest d = digest d') in E.
    rewrite bool_decide_eq_true_2 in H6 by done. by apply bool_decide_eq_true in H6.
  - exists rank. intros b Hb Hv. pose proof (forallb_elem _ _ H3 b Hb) as H5. cbn in H5. rewrite Hv in H5. by apply Nat.ltb_lt.
  - intros id replies b Hi Hb Eid Hv. pose proof (forallb_elem _ _ H4 _ Hi) as H5. cbn in H5. apply (forallb_elem _ _ H5) in Hb.
    rewrite bool_decide_eq_true_2, Hv in Hb by done. by apply Nat.eqb_eq.
Qed.
End check.

(** ** A scheme for the example

    A signature is [(h, 1)] or [(h, N-1)], with [h] read off the key and the first
    bytes of the digest. *)
Definition quick_h (k : N) (d : bytes) : Z := (1 + Z.of_N (be_val (take 4 d) * 256 + k mod 256))%Z.
Definition one_tail : bytes := tlv tagInteger (int_content 1).
Definition neg_tail : bytes := Eval vm_compute in tlv tagInteger (int_content (curveOrder - 1)).
Definition quick_sig (k : N) (d tail : bytes) : bytes := tlv tagSequence (tlv tagInteger (int_content (quick_h k d)) ++ tail).

Definition quick_ecdsa : Ecdsa := {|
  PrivateKey := N;
  PublicKey := N;
  Public := fun k => k;
  SignASN1 := fun _ k d => Some (quick_sig k d one_tail);
  VerifyASN1 := fun k d sig => bool_decide (sig = quick_sig k d one_tail) || bool_decide (sig = quick_sig k d neg_tail);
|}.

Lemma quick_h_range k d : (0 < quick_h k d < curveOrder)%Z.
Proof.
  unfold quick_h. assert (be_val (take 4 d) < 256 ^ 4)%N as H1.
  { eapply N.lt_le_trans; [apply be_val_lt|]. rewrite length_take. apply N.pow_le_mono_r; lia. }
  change (256 ^ 4)%N with 4294967296%N in H1.
  pose proof (N.mod_lt k 256 ltac:(done)). assert (2199023255552 < curveOrder)%Z as Hc by (vm_compute; reflexivity).
  generalize dependent curveOrder. intros co Hc. generalize dependent (be_val (take 4 d)). generalize dependent (k mod 256)%N. intros m Hm v Hv. lia.
Qed.

Lemma quick_sig_one k d : quick_sig k d one_tail = Marshal (MkEcdsaSig (quick_h k d) 1).
Proof. reflexivity. Qed.
Lemma neg_tail_eq : neg_tail = tlv tagInteger (int_content (curveOrder - 1)).
Proof. vm_compute. reflexivity. Qed.
Lemma quick_sig_neg k d : quick_sig k d neg_tail = Marshal (MkEcdsaSig (quick_h k d) (curveOrder - 1)).
Proof. unfold quick_sig. by rewrite neg_tail_eq. Qed.

#[local] Existing Instance quick_ecdsa.

Lemma quick_laws : EcdsaLaws.
Proof.
  assert (0 < 1 < curveOrder)%Z as H1 by (split; vm_compute; reflexivity). split.
  - intros rand k d der E. apply (inj Some) in E as <-. exists (quick_h k d), 1%Z. split; [apply quick_sig_one|].
    split; [apply quick_h_range|]. split; [done|]. apply orb_true_iff. left. by apply bool_decide_eq_true_2.
  - intros k d r s Hr Hs. cbn [VerifyASN1 quick_ecdsa]. pose proof (quick_h_range k d). apply eq_true_iff_eq.
    rewrite quick_sig_one, quick_sig_neg, !orb_true_iff, !bool_decide_eq_true.
    split; intros [E|E]; (apply Marshal_inj in E as [Er Es]; [subst r|try done; lia..]); [right|left|right|left]; do 2 f_equal; lia.
  - intros k d sig E. cbn [VerifyASN1 quick_ecdsa] in E. rewrite quick_sig_one, quick_sig_neg in E. pose proof (quick_h_range k d).
    apply orb_true_iff in E as [E|E]; bools; subst.
    + by exists (quick_h k d), 1%Z.
    + exists (quick_h k d), (curveOrder - 1)%Z. split_and!; try done; lia.
Qed.
#[local] Existing Instance quick_laws.

(** ** Three of four replicas

    The fourth key holder is silent. Every message sent is delivered, in the order
    sent, to those of the three it is for. *)
Definition trio_keys : gmap uint32 N := {[1%N := 11%N; 2%N := 22%N; 3%N := 33%N; 4%N := 44%N]}.
Definition trio : deployment :=
  MkDeployment (trio_keys : gmap uint32 PublicKey) {[1; 2; 3]}%N (fun i => MkReplicaConfig i ∅ (11 * i)%N (trio_keys : gmap uint32 PublicKey) 0 0 0).

#[local] Abbreviation trio_moves := (world_moves (fun n : N => n) (fun _ => canonical_range) (fun _ => least_int64) trio).

Definition deliveries (s : uint32 * effect) : list (uint32 * input) :=
  match s.2 with
  | NetProposal m => (fun j => (j, InProposal m)) <$> [1; 2; 3]%N
  | NetTimeout m => (fun j => (j, InTimeout m)) <$> [1; 2; 3]%N
  | NetVote m to => if (to <=? 3)%N then [(to, InVote m)] else []
  | _ => []
  end.

(** From the [k]-th message on. *)
Fixpoint trio_drive (fuel k : nat) (w : world) : option world :=
  match fuel, w_sent w !! k with
  | S fuel, Some s =>
      w ← trio_moves w (deliveries s ≫= fun d => [(d.1, Receive d.2); (d.1, Work [] [[x61]] solo_clock)]);
      trio_drive fuel (S k) w
  | _, _ => Some w
  end.

Definition trio_end : option world :=
  w ← trio_moves no_world ((fun i => (i, Boot)) <$> [1; 2; 3]%N);
  w ← trio_moves w ((fun i => (i, Begin [] [[x61]] solo_clock)) <$> [1; 2; 3]%N);
  w ← trio_drive 31 0 w;
  trio_moves w ((fun i => (i, Halt)) <$> [1; 2; 3]%N).

#[local] Abbreviation trio_reachable := (reachable (fun n : N => n) (fun _ => canonical_range) (fun _ => least_int64) trio).

Lemma trio_more w ms w' : trio_reachable w -> trio_moves w ms = Some w' -> trio_reachable w'.
Proof.
  intros [ms0 E0] E. exists (ms0 ++ ms). revert E0. generalize (no_world (Node := N)).
  induction ms0 as [|[i m] ms0 IH]; intros w0; cbn [world_moves app]; [by intros [= ->]|].
  intros (w1 & -> & Hr)%bind_Some. cbn [mbind option_bind]. by apply IH.
Qed.

Lemma trio_drive_reachable fuel k w w' : trio_reachable w -> trio_drive fuel k w = Some w' -> trio_reachable w'.
Proof.
  revert k w. induction fuel as [|fuel IH]; intros k w Hw; cbn [trio_drive]; [by intros [= <-]|].
  destruct (w_sent w !! k) as [s|]; [|by intros [= <-]]. intros (w1 & E & Hr)%bind_Some.
  eapply IH; [|exact Hr]. by eapply trio_more.
Qed.

Lemma trio_end_reachable w : trio_end = Some w -> trio_reachable w.
Proof.
  intros (w1 & E1 & (w2 & E2 & (w3 & E3 & E4)%bind_Some)%bind_Some)%bind_Some.
  eapply trio_more; [|exact E4]. eapply trio_drive_reachable; [|exact E3]. eapply trio_more; [|exact E2].
  eapply trio_more; [|exact E1]. by exists [].
Qed.

Lemma trio_ok : deployment_ok trio.
Proof.
  split.
  - refine (bool_decide_unpack _ _). vm_compute. exact I.
  - discriminate.
  - vm_compute. discriminate.
  - done.
  - done.
  - intros i Hi. assert (i = 1 \/ i = 2 \/ i = 3)%N as [->|[->| ->]] by (cbn in Hi; set_solver); reflexivity.
Qed.

Definition block_rank (w : world (Node := N)) (id : bytes) : nat :=
  match list_find (fun b => b_id b = id) (w_blocks w) with Some (_, b) => S (N.to_nat (b_round b)) | None => 0 end.
Definition stopped_log (w : world (Node := N)) (i : uint32) : option (Replica N) :=
  match w_nodes w !! i with Some (Stopped r) => Some r | _ => None end.

Lemma stopped_log_some w i r : stopped_log w i = Some r -> w_nodes w !! i = Some (Stopped r).
Proof. unfold stopped_log. destruct (w_nodes w !! i) as [[?|?|?]|]; try discriminate. by intros [= ->]. Qed.

(** All three have committed the block of round 1 when they stop. *)
Lemma system_agrees_witness :
  exists w r1 r2 r3, trio_end = Some w /\ stopped_log w 1 = Some r1 /\ stopped_log w 2 = Some r2 /\ stopped_log w 3 = Some r3 /\
    (b_round <$> Log r1, b_round <$> Log r2, b_round <$> Log r3) = ([1], [1], [1])%N /\
    comparable (Log r1) (Log r3) /\ (report [r1; r2; r3]).1.2 = true.
Proof.
  assert (option_map (fun w => ((fun i => (fun r => b_round <$> Log r) <$> stopped_log w i) <$> [1; 2; 3]%N, crypto_check trio w (block_rank w)))
    trio_end = Some ([Some [1]; Some [1]; Some [1]]%N, true)) as E by (vm_compute; reflexivity).
  destruct trio_end as [w|] eqn:Ew; [|discriminate E]. cbn [option_map fmap list_fmap] in E.
  injection E as E1 E2 E3 Ec. destruct (stopped_log w 1) as [r1|] eqn:S1; [|discriminate E1].
  destruct (stopped_log w 2) as [r2|] eqn:S2; [|discriminate E2]. destruct (stopped_log w 3) as [r3|] eqn:S3; [|discriminate E3].
  injection E1 as E1. injection E2 as E2. injection E3 as E3.
  exists w, r1, r2, r3. split; [reflexivity|]. split; [exact S1|]. split; [exact S2|]. split; [exact S3|].
  split; [by rewrite E1, E2, E3|].
  destruct (system_agrees (fun n : N => n) (fun _ => canonical_range) (fun _ => least_int64) trio w trio_ok
    (trio_end_reachable w Ew) (crypto_check_holds trio w (block_rank w) Ec)) as (Hc & _ & Hr).
  apply stopped_log_some in S1, S2, S3. split; [exact (Hc 1%N 3%N _ _ S1 S3)|].
  apply (Hr [r1; r2; r3]). repeat (apply Forall_cons; split; [eexists; eassumption|]). constructor.
Defined.
